(* ===== verification/_CoqProject ===== *)
-Q . S2P
Prelude.v
Collections.v
Xor.v
Floats.v
Crypto.v
Hyperbolic.v
Varint.v
Cuckoo.v
Packet.v
Header.v
Address.v
Text.v
Toml.v
PeerCache.v
Tun.v
Obfs.v
SessionWire.v
Session.v
SessionManager.v
Onion.v
Sphinx.v
Router.v
Routing.v
Handlers.v
RouterToy.v
RouterProps.v
RoutingProps.v
RouterSafety.v
Dispatch.v
Conn.v
Config.v
TcpInfo.v
Transport.v
Discovery.v
Delivery.v
ColdStart.v
Node.v
Admin.v
Metrics.v
TunLoop.v
OnionDelivery.v
Links.v
