(* ===== verification/Prelude.v ===== *)
(** * norn-rs: a verification development

    norn-rs is an encrypted mesh network: routers keep links to neighbours, elect
    roots for three spanning trees, gossip reachability filters, coordinates, keys
    and reputations, and forward end-to-end encrypted packets, onions and Sphinx
    cells.  This library models the program from its configuration file to the
    packets of its TUN device as executable definitions, and proves what makes it
    correct.

    ** The parts and the files

    A configuration makes a node ([Config], [Node]), which listens, dials and
    discovers others ([Transport], [Discovery], [PeerCache]).  A link is
    authenticated and, with a pre-shared key, obfuscated ([Transport], [Obfs]); a
    task reads its frames and another writes them ([Conn]).  A frame ([Varint]:
    [read_frame]) is dispatched on its type byte ([Packet]: the wire structs;
    [Handlers]: [dispatch]) to a handler, which changes the router's state and sends
    frames to neighbours ([Router], [Routing]).  Traffic for this node is opened by
    its session ([Session], [SessionManager]) and handed to the TUN adapter
    ([TunLoop]); other traffic is forwarded by coordinate or by filter.

    - [Prelude]: outcomes ([res]: a value, an error, a panic), a state monad, record
      update, machine integers and byte slices as the Rust code uses them.
    - [Collections]: iteration over hash maps in an arbitrary order, instants.
    - [Xor], [Floats], [Crypto], [Text]: byte-wise xor, IEEE arithmetic through
      SpecFloat, the interfaces of the cryptographic crates with the laws the code
      relies on, and text as the standard library reads and prints it;
      [Crypto.Toy] and [Text.ToyText] are instances for the witnesses.
    - [Varint], [Packet]: [src/packet.rs] (varints, paths, frames, every message).
    - [Cuckoo]: [src/cuckoo.rs].  [Header]: [src/router/header.rs].  [Address]:
      [src/address.rs].  [Tun], [TunLoop]: [src/tun.rs], its key store and ICMPv6
      errors, and its two loops.
    - [SessionWire], [Session], [SessionManager]: [src/session.rs], from the
      handshake messages to the table of sessions, with the session operations of
      [src/router/mod.rs].
    - [Onion]: [src/onion.rs].  [Sphinx]: [src/sphinx.rs].  [Hyperbolic]:
      [src/hyperbolic.rs].
    - [Router]: the state of [src/router/mod.rs] with its links, trees, cadence and
      filter gossip, and [src/router/treemath.rs].
    - [Routing]: route lookup ([handlers.rs], [onion.rs], [path_negative.rs],
      [reputation.rs]) and the signed floods ([mod.rs], [capabilities.rs],
      [reputation.rs]) of [src/router].
    - [Handlers]: [src/router/handlers.rs], [coords.rs], the onion handlers,
      [dispatch], [do_maintenance] and [encrypt_and_dispatch].
    - [Conn]: [src/router/conn.rs], the handle of a router with its settings, send
      paths, connections, cover traffic and statistics, and the crypto worker pool
      of [mod.rs].
    - [Obfs]: [src/obfs.rs].  [Transport]: [src/transport.rs] and the links of
      [src/quic.rs].  [TcpInfo]: [src/tcp_info.rs] and the task that polls it.
    - [PeerCache]: [src/peercache.rs].  [Discovery]: [src/discovery.rs] and
      [src/mdns.rs].  [Toml]: the subset of TOML that the program writes, with the
      interface of its reader.  [Config]: [src/config.rs].  [Node]: [src/node.rs] and
      what [src/bin/nornd.rs] starts it with.  [Admin]: [src/admin.rs],
      [src/bin/nornctl.rs] and [src/keyshare.rs].  [Metrics]: the page of
      [src/metrics.rs] and the traffic counters of [src/router/diagnostics.rs].
    - [RouterToy]: a concrete router.  [RouterProps], [RoutingProps],
      [RouterSafety], [Dispatch]: theorems about the router.  [Links], [Delivery],
      [ColdStart], [OnionDelivery], [TunLoop]: theorems about several parts and
      nodes together.

    ** How the code is modelled

    A struct is a record, an enum an inductive type, a method a function from the
    state to the state; names are those of the source.  A function that can fail or
    panic returns [res].  Integers are [Z] with their wrap-around written out; the
    arguments [oc] and [debug] select overflow checks and debug assertions where a
    function is modelled for both build profiles, and the router is modelled with
    the release semantics.  Instants are microseconds since an origin and wall-clock
    times milliseconds.  A [HashMap] is a [gmap], and a loop over one runs in the
    order given by the environment, so a theorem holds for every order.  What a
    handler takes from outside (clocks, random draws, iteration orders) is in the
    record [Env]; what a channel answers is the class [Channels], a function of all
    that was sent before; the frames sent and the callbacks are logged in [io].
    Locks are erased: each handler is one atomic step, which is what the router's
    mutex gives, except that a task of [dispatch] that delays a forwarded packet by
    its random jitter is run at once.  Concurrent tasks of the transports act at
    the points where they lock the shared counters, in any order ([listen_event]).

    A socket is the bytes that arrive before it ends, a disk a map from paths to
    contents whose system calls succeed, fail or are the last of the process, a
    command what it prints.

    Cryptographic functions are parameters with named laws (what is sealed opens,
    Diffie-Hellman commutes, signatures made with a key verify, lengths); nothing is
    assumed about forgery.  The trigonometric and hyperbolic functions of the
    platform are parameters without laws.  The crates for hexadecimal text, JSON,
    TOML and BIP39 are parameters whose laws say that what was written is read back.

    ** What is shown

    - Wire formats: every message survives encoding and decoding, decoding an
      arbitrary frame never panics, frames survive the stream framing, signed bytes
      determine the message they sign ([Packet], [Varint], [SessionWire]).
    - Filters: the cuckoo filter refines a multiset of entries, its merge a union
      ([Cuckoo]).
    - Sessions: handshakes complete and agree, also when they cross; only
      authenticated peers become established; pins hold; replays are rejected; the
      replay window, the key cache and the rate limit meet their specifications
      ([Session], [SessionManager]).
    - Onions and Sphinx cells reach their destination in cells of constant size,
      and the replay cache is a window over the last 4096 cells ([Onion], [Sphinx],
      [RouterProps]).
    - Routing: the tree parent is the right one, negative routes are only a last
      resort, greedy forwarding is loop-free, transit is bounded, floods stop, links
      spill over ([RouterProps], [RoutingProps], [Dispatch]).
    - The router as a whole: an invariant of all reachable states with the bounds of
      every table ([RouterSafety]), the panics of [dispatch] characterised exactly,
      gossip tables changed by authentic announcements only ([Dispatch]).
    - Links: the handshake of a link authenticates and completes, obfuscation is
      transparent, admission control counts right after any interleaving, frames
      arrive in order, dials back off and give up when they should ([Transport],
      [Obfs], [Links]).
    - From end to end: what is written to a node with a session is delivered in
      order over any route ([Delivery]), also through onions ([OnionDelivery]) and
      between TUN devices ([TunLoop]); nodes that never met start to talk
      ([ColdStart]), and nodes made from configurations are such nodes ([Node]).
    - Around the core: the peer cache survives crashes and is dialled again after a
      restart ([PeerCache], [Node]); beacons are answered exactly when they should
      be ([Discovery]); keys and addresses survive being shown and read back
      ([Text], [Config], [Admin]); the control tool and the daemon agree, and the
      control socket is private ([Admin]); a generated configuration starts the node
      whose keys it holds ([Config], [Node]); the metrics page reports the samples it
      should and nothing else ([Metrics]); kernel statistics stay in range
      ([TcpInfo]).
    - Flaws: theorems that exhibit what the code does where it differs from what it
      means ([Session.key_nonce_reuse], [SessionManager.lost_ack_splits_secret],
      [RouterProps.announce_sender_unchecked], [RouterProps.announced_depth_wraps],
      [Packet.hole_punch_signs_reputation], [Dispatch.dispatch_total],
      [Transport.tcp_dials_exceed_cap], [OnionDelivery.oversized_onion_refused],
      [PeerCache.tmp_path_in_place], [Discovery.loopback_uri],
      [Admin.socket_private], [Node.no_config_no_start], [Config.tun_always_named]).

    ** Fuel

    Loops are structural or folds, except a few that carry a bound: [decode_path],
    [read_frame], [read_loop] and [strip_many] run on the length of their input,
    which every iteration shortens (totality is proved for the first two, and in
    [Links] that the bound of the third is enough); [number_loop] on the number of
    bits, which is enough for the digits ([Text.number_digits]); and the filter's
    kick cascade on the constants [MAX_KICKS] and [MERGE_KICKS] of the source.

    ** Not modelled

    The operating system and the runtime around the code: sockets and their options,
    quinn's endpoints and TLS ([quic.rs]), the multicast socket and the mDNS daemon,
    the creation of the TUN device, timeouts other than as events, argument parsing
    and logging.  The peer table and the JSON output of [nornctl], and QR codes: they
    are output without a decision.  The other diagnostic counters, the recovery of
    poisoned locks and the acceleration of key rotations for tests
    ([diagnostics.rs], [lockutil.rs]): the model has no locks, and keys rotate at
    their production pace. *)

From stdpp Require Export prelude gmap strings.
From coqutil Require Export Byte Word.LittleEndianList.
From Stdlib Require Export ZArith Lia.

#[global] Open Scope Z_scope.

Declare Scope norn_scope.
Delimit Scope norn_scope with norn.
#[global] Open Scope norn_scope.

(** ** Outcomes

    A fallible Rust function returns [Ok], an [anyhow] error ([Err], with the
    literal message of the [bail!]), or panics. *)

Inductive res (A : Type) : Type :=
| Ok (a : A)
| Err (msg : string)
| Panic.
Arguments Ok {A} a.
Arguments Err {A} msg%_string.
Arguments Panic {A}.

#[global] Instance res_ret : MRet res := @Ok.
#[global] Instance res_bind : MBind res := λ A B f m,
  match m with Ok a => f a | Err e => Err e | Panic => Panic end.
#[global] Instance res_fmap : FMap res := λ A B f m,
  match m with Ok a => Ok (f a) | Err e => Err e | Panic => Panic end.

Definition is_ok {A} (r : res A) : bool := if r is Ok _ then true else false.
Definition no_panic {A} (r : res A) : Prop := r ≠ Panic.

(** [ok_or]: an [Option] turned into a [Result]. *)
Definition ok_or {A} (o : option A) (msg : string) : res A :=
  match o with Some a => Ok a | None => Err msg end.
(** [.ok()] *)
Definition res_ok {A} (r : res A) : option A :=
  match r with Ok a => Some a | _ => None end.

(** [ensure c msg; k] is [if !c { bail!(msg) }; k]. *)
Notation "'bail_if' c 'with' msg ; k" := (if c then Err msg else k)
  (at level 100, c at level 99, msg at level 0, k at level 200,
   format "'bail_if'  c  'with'  msg ;  '//' k") : norn_scope.

(** ** State and errors

    A fallible method that mutates its object: the outcome, and the object as it
    is left (also when the method fails). *)

Definition st (S A : Type) : Type := S → res A * S.

#[global] Instance st_ret {S} : MRet (st S) := λ A a s, (Ok a, s).
#[global] Instance st_bind {S} : MBind (st S) := λ A B f m s,
  match m s with
  | (Ok a, s) => f a s
  | (Err e, s) => (Err e, s)
  | (Panic, s) => (Panic, s)
  end.

Definition get {S} : st S S := λ s, (Ok s, s).
Definition put {S} (s : S) : st S unit := λ _, (Ok tt, s).
Definition modify {S} (f : S → S) : st S unit := λ s, (Ok tt, f s).
Definition lift {S A} (r : res A) : st S A := λ s, (r, s).
Definition fail {S A} (msg : string) : st S A := λ s, (Err msg, s).

Arguments fail {S A} msg%_string.

(** [fail_if c with msg; k] is [if c { bail!(msg) }; k] in a method. *)
Notation "'fail_if' c 'with' msg ; k" := (if c then fail msg else k)
  (at level 100, c at level 99, msg at level 0, k at level 200,
   format "'fail_if'  c  'with'  msg ;  '//' k") : norn_scope.

(** Assignment to a field: [r <| f := v |>] is [r] with [r.f = v]. *)
Class SetField {R T : Type} (proj : R → T) := set_field : T → R → R.
Notation "r <| f := v |>" := (set_field (proj := f) v r)
  (at level 1, left associativity, f at next level, v at level 200,
   format "r  <|  f  :=  v  |>") : norn_scope.

(** ** Bytes, machine integers, slices *)

(** A [u8] is [byte]; [u8 z] is the cast [z as u8]; [uz b] is [b as u64]. *)
Abbreviation bytes := (list Init.Byte.byte).
Abbreviation u8 := byte.of_Z.
Abbreviation uz := byte.unsigned.

#[global] Instance byte_eq_dec : EqDecision byte := Byte.byte_eq_dec.
#[global] Program Instance byte_countable : Countable byte :=
  inj_countable Byte.to_N Byte.of_N _.
Next Obligation. intros x; apply Byte.of_to_N. Qed.

(** Wrap-around of the unsigned widths, and the ranges. *)
Definition wrap16 (z : Z) : Z := z mod 2 ^ 16.
Definition wrap32 (z : Z) : Z := z mod 2 ^ 32.
Definition wrap64 (z : Z) : Z := z mod 2 ^ 64.
Abbreviation u8_ok z := (0 ≤ z < 2 ^ 8) (only parsing).
Abbreviation u16_ok z := (0 ≤ z < 2 ^ 16) (only parsing).
Abbreviation u32_ok z := (0 ≤ z < 2 ^ 32) (only parsing).
Abbreviation u64_ok z := (0 ≤ z < 2 ^ 64) (only parsing).
Definition U64_MAX : Z := 2 ^ 64 - 1.
(** No slice or [Vec] is longer than [isize::MAX] bytes. *)
Definition ISIZE_MAX : Z := 2 ^ 63 - 1.

(** [a.saturating_sub(b)] and [a.saturating_add(b)] on [u64], and
    [a.checked_add(b)] on a 64-bit [usize]. *)
Definition sat_sub (a b : Z) : Z := Z.max 0 (a - b).
Definition sat_add (a b : Z) : Z := Z.min U64_MAX (a + b).
Definition checked_add (a b : Z) : option Z :=
  if a + b <? 2 ^ 64 then Some (a + b) else None.
(** [a + b] on [usize]: panics in a build with overflow checks, wraps in one
    without. *)
Definition usize_add (overflow_checks : bool) (a b : Z) : res Z :=
  if a + b <? 2 ^ 64 then Ok (a + b)
  else if overflow_checks then Panic else Ok (wrap64 (a + b)).

(** [v.to_le_bytes()] of an [n]-byte integer and its inverse. *)
Abbreviation to_le_bytes := le_split.
Abbreviation from_le_bytes := le_combine.
(** [v.to_be_bytes()] and [from_be_bytes]. *)
Definition to_be_bytes (n : nat) (v : Z) : bytes := rev (le_split n v).
Definition from_be_bytes (l : bytes) : Z := le_combine (rev l).

(** Lengths and positions are [usize]. *)
Definition len {A} (l : list A) : Z := Z.of_nat (length l).

(** [&l[a..b]], [&l[a..]] and [l[i]]: they panic out of range. *)
Definition slice {A} (l : list A) (a b : Z) : res (list A) :=
  if (0 <=? a) && (a <=? b) && (b <=? len l)
  then Ok (take (Z.to_nat (b - a)) (drop (Z.to_nat a) l)) else Panic.
Definition slice_from {A} (l : list A) (a : Z) : res (list A) :=
  slice l a (len l).
Definition index {A} (l : list A) (i : Z) : res A :=
  if (0 <=? i) && (i <? len l) then
    match l !! Z.to_nat i with Some x => Ok x | None => Panic end
  else Panic.
(** [[x; n]] *)
Definition fill {A} (n : Z) (x : A) : list A := replicate (Z.to_nat n) x.

(** ASCII literals [b"..."]. *)
Definition bstr (s : string) : bytes := String.list_byte_of_string s.

#[global] Arguments byte.of_Z : simpl never.
#[global] Arguments byte.unsigned : simpl never.
#[global] Arguments le_split : simpl never.
#[global] Arguments le_combine : simpl never.
#[global] Arguments len : simpl never.
#[global] Arguments slice : simpl never.
#[global] Arguments slice_from : simpl never.
#[global] Arguments index : simpl never.
#[global] Arguments fill : simpl never.
#[global] Arguments bstr : simpl never.

(** ** Lemmas on outcomes *)

Section Outcomes.
Context {A B : Type}.

Lemma bind_Ok (f : A → res B) a : (Ok a ≫= f) = f a.
Proof. done. Qed.

Lemma bind_Ok_inv (f : A → res B) m b :
  (m ≫= f) = Ok b → ∃ a, m = Ok a ∧ f a = Ok b.
Proof. destruct m; naive_solver. Qed.

Lemma no_panic_bind (f : A → res B) m :
  no_panic m → (∀ a, m = Ok a → no_panic (f a)) → no_panic (m ≫= f).
Proof. unfold no_panic. destruct m; naive_solver. Qed.

Lemma ok_or_inv (o : option A) msg a : ok_or o msg = Ok a → o = Some a.
Proof. destruct o; naive_solver. Qed.

Lemma no_panic_ok_or (o : option A) msg : no_panic (ok_or o msg).
Proof. by destruct o. Qed.

Lemma no_panic_Ok (a : A) : no_panic (Ok a).
Proof. done. Qed.
Lemma no_panic_Err e : no_panic (Err e : res A).
Proof. done. Qed.
End Outcomes.

Lemma st_bind_inv {S A B} (m : st S A) (f : A → st S B) s b s' :
  (m ≫= f) s = (Ok b, s') → ∃ a s1, m s = (Ok a, s1) ∧ f a s1 = (Ok b, s').
Proof. unfold mbind, st_bind. destruct (m s) as [[a| |] s1]; naive_solver. Qed.

Lemma st_bind_Ok {S A B} (m : st S A) (f : A → st S B) s a s1 :
  m s = (Ok a, s1) → (m ≫= f) s = f a s1.
Proof. unfold mbind, st_bind. by intros ->. Qed.

(** ** Lemmas on lengths *)

Section Len.
Context {A : Type}.
Implicit Types l : list A.

Lemma len_nonneg l : 0 ≤ len l.
Proof. unfold len; lia. Qed.
Lemma len_nil : len (@nil A) = 0.
Proof. done. Qed.
Lemma len_cons x l : len (x :: l) = 1 + len l.
Proof. unfold len; cbn [length]; lia. Qed.
Lemma len_app l1 l2 : len (l1 ++ l2) = len l1 + len l2.
Proof. unfold len; rewrite length_app; lia. Qed.
Lemma len_fill n (x : A) : 0 ≤ n → len (fill n x) = n.
Proof. unfold len, fill; rewrite length_replicate; lia. Qed.
Lemma len_take n l : len (take n l) = Z.min (Z.of_nat n) (len l).
Proof. unfold len; rewrite length_take; lia. Qed.
Lemma len_drop n l : len (drop n l) = Z.max 0 (len l - Z.of_nat n).
Proof. unfold len; rewrite length_drop; lia. Qed.
Lemma len_rev l : len (rev l) = len l.
Proof. unfold len; by rewrite length_rev. Qed.
Lemma len_reverse l : len (reverse l) = len l.
Proof. unfold len; by rewrite length_reverse. Qed.
Lemma len_map {B} (f : B → A) (l : list B) : len (map f l) = len l.
Proof. unfold len; by rewrite length_map. Qed.
Lemma len_le_split n v : len (to_le_bytes n v) = Z.of_nat n.
Proof. unfold len; by rewrite length_le_split. Qed.
Lemma len_zero_nil l : len l = 0 → l = [].
Proof. unfold len; destruct l; cbn; [done | lia]. Qed.
Lemma len_inj_length (l1 l2 : list A) : len l1 = len l2 → length l1 = length l2.
Proof. unfold len; lia. Qed.
End Len.

Lemma elem_of_concat {A} (x : A) ls : x ∈ concat ls ↔ ∃ l, x ∈ l ∧ l ∈ ls.
Proof.
  rewrite list_elem_of_In, in_concat. setoid_rewrite list_elem_of_In.
  split; intros (l & ? & ?); by exists l.
Qed.

(** A concatenation of equally long pieces, indexed by piece and offset. *)
Lemma lookup_concat_uniform {A} (ls : list (list A)) n i j :
  Forall (λ l, length l = n) ls → (j < n)%nat →
  concat ls !! (i * n + j)%nat = (ls !! i ≫= λ l, l !! j).
Proof.
  intros Hls Hj. revert i. induction Hls as [|l ls Hl _ IH]; intros i; [done|].
  destruct i as [|i]; cbn.
  - apply lookup_app_l. lia.
  - rewrite lookup_app_r by lia. rewrite <- IH. f_equal. lia.
Qed.

Lemma length_concat_uniform {A} (ls : list (list A)) n :
  Forall (λ l, length l = n) ls → length (concat ls) = (length ls * n)%nat.
Proof. induction 1 as [|l ls Hl _ IH]; cbn; [done|]. rewrite length_app. lia. Qed.

Lemma take_drop_concat_uniform {A} (ls : list (list A)) n i l :
  Forall (λ l, length l = n) ls → ls !! i = Some l →
  take n (drop (i * n) (concat ls)) = l.
Proof.
  intros Hls. revert i. induction Hls as [|x ls Hx _ IH]; intros i; [done|].
  destruct i as [|i]; cbn; intros E.
  - injection E as ->. rewrite drop_0, take_app_le by lia. apply take_ge. lia.
  - rewrite drop_app_ge by lia. rewrite <- (IH i E). do 2 f_equal. lia.
Qed.

Create Rewrite HintDb len.
#[export] Hint Rewrite @len_nil @len_cons @len_app @len_take @len_drop @len_rev
  @len_reverse @len_map @len_le_split : len.
#[export] Hint Rewrite @len_fill using lia : len.

(** [len_lia] normalises the lengths of the goal and of the hypotheses that
    mention one, adds their non-negativity and calls [lia]. *)
Ltac len_pos :=
  repeat match goal with
  | |- context [len ?l] =>
      lazymatch goal with
      | _ : 0 ≤ len l |- _ => fail
      | _ => pose proof (len_nonneg l)
      end
  | _ : context [len ?l] |- _ =>
      lazymatch goal with
      | _ : 0 ≤ len l |- _ => fail
      | _ => pose proof (len_nonneg l)
      end
  end.
Ltac len_simpl := autorewrite with len in *.
(** Extended by the codec files with the length bounds of their encoders. *)
Ltac len_facts := idtac.
Ltac len_lia := len_simpl; len_facts; len_pos; cbn [Z.of_nat Pos.of_succ_nat Pos.succ] in *; lia.

(** ** Lemmas on slices *)

Section Slices.
Context {A : Type}.
Implicit Types l x r : list A.

Lemma slice_ok l a b :
  0 ≤ a → a ≤ b → b ≤ len l →
  slice l a b = Ok (take (Z.to_nat (b - a)) (drop (Z.to_nat a) l)).
Proof.
  intros. unfold slice.
  by rewrite !(proj2 (Z.leb_le _ _)) by lia.
Qed.

Lemma slice_inv l a b s :
  slice l a b = Ok s → 0 ≤ a ≤ b ∧ b ≤ len l ∧ len s = b - a
    ∧ s = take (Z.to_nat (b - a)) (drop (Z.to_nat a) l).
Proof.
  unfold slice. case_match eqn:E; [|done]. intros [= <-].
  apply andb_true_iff in E as [[E1 E2]%andb_true_iff E3].
  apply Z.leb_le in E1, E2, E3. split_and!; try done. len_lia.
Qed.

Lemma slice_no_err l a b e : slice l a b ≠ Err e.
Proof. unfold slice. by case_match. Qed.

Lemma no_panic_slice l a b : 0 ≤ a → a ≤ b → b ≤ len l → no_panic (slice l a b).
Proof. intros. by rewrite slice_ok. Qed.

Lemma no_panic_slice_from l a : 0 ≤ a → a ≤ len l → no_panic (slice_from l a).
Proof. intros. unfold slice_from. apply no_panic_slice; lia. Qed.

(** The front of a buffer, and what follows a known front. *)
Lemma slice_take x r n : n = len x → slice (x ++ r) 0 n = Ok x.
Proof.
  intros ->. rewrite slice_ok by len_lia. f_equal.
  rewrite drop_0, take_app_le by (unfold len; lia).
  apply take_ge. unfold len; lia.
Qed.

Lemma slice_all x n : n = len x → slice x 0 n = Ok x.
Proof. intros ->. rewrite <- (app_nil_r x) at 1. by apply slice_take. Qed.

Lemma slice_drop x r a b :
  len x ≤ a → slice (x ++ r) a b = slice r (a - len x) (b - len x).
Proof.
  intros. unfold slice. rewrite len_app. len_pos.
  replace (0 <=? a) with true by lia.
  replace (0 <=? a - len x) with true by lia.
  replace (a - len x <=? b - len x) with (a <=? b) by lia.
  replace (b - len x <=? len r) with (b <=? len x + len r) by lia.
  case_match; [|done]. f_equal.
  rewrite drop_app_ge by (unfold len in *; lia).
  f_equal; [lia|]. f_equal. unfold len in *; lia.
Qed.

Lemma slice_from_drop x r a :
  len x ≤ a → slice_from (x ++ r) a = slice_from r (a - len x).
Proof.
  intros. unfold slice_from. rewrite slice_drop by done. f_equal. len_lia.
Qed.

Lemma slice_from_0 l : slice_from l 0 = Ok l.
Proof. unfold slice_from. by apply slice_all. Qed.

Lemma slice_from_at x r a : a = len x → slice_from (x ++ r) a = Ok r.
Proof.
  intros ->. rewrite slice_from_drop by lia.
  by rewrite Z.sub_diag, slice_from_0.
Qed.

Lemma slice_from_inv l a s :
  slice_from l a = Ok s → 0 ≤ a ≤ len l ∧ len s = len l - a ∧ s = drop (Z.to_nat a) l.
Proof.
  intros (?&?&?&Hs)%slice_inv. split_and!; [lia..|].
  rewrite Hs. apply take_ge. rewrite length_drop. unfold len; lia.
Qed.

Lemma index_0 y r : index (y :: r) 0 = Ok y.
Proof. unfold index. by rewrite len_cons, (proj2 (Z.ltb_lt _ _)) by len_lia. Qed.

Lemma index_app x r i : len x ≤ i → index (x ++ r) i = index r (i - len x).
Proof.
  intros. unfold index. rewrite len_app. len_pos.
  replace (0 <=? i) with true by lia.
  replace (0 <=? i - len x) with true by lia.
  replace (i - len x <? len r) with (i <? len x + len r) by lia.
  case_match; [|done]. rewrite lookup_app_r by (unfold len in *; lia).
  by replace (Z.to_nat i - length x)%nat with (Z.to_nat (i - len x))
    by (unfold len in *; lia).
Qed.

Lemma index_ok l i : 0 ≤ i < len l → ∃ y, index l i = Ok y ∧ l !! Z.to_nat i = Some y.
Proof.
  intros. unfold index.
  rewrite (proj2 (Z.leb_le _ _)), (proj2 (Z.ltb_lt _ _)) by lia; cbn.
  destruct (lookup_lt_is_Some_2 l (Z.to_nat i)) as [y ->]; [unfold len in *; lia|].
  by exists y.
Qed.

Lemma index_inv l i y : index l i = Ok y → 0 ≤ i < len l ∧ l !! Z.to_nat i = Some y.
Proof.
  unfold index. case_match eqn:E; [|done]. case_match; [|done]. intros [= ->].
  apply andb_true_iff in E as [?%Z.leb_le ?%Z.ltb_lt]. lia || (split; [lia|done]).
Qed.

Lemma no_panic_index l i : 0 ≤ i < len l → no_panic (index l i).
Proof. intros. destruct (index_ok l i) as (y&->&_); done. Qed.
End Slices.

(** The same with the position given up to arithmetic, and over a [cons]: the
    forms the codec tactics step with. *)
Lemma slice_head {A} (x r : list A) a b :
  a = 0 → b = len x → slice (x ++ r) a b = Ok x.
Proof. intros ->. apply slice_take. Qed.
Lemma slice_whole {A} (x : list A) a b : a = 0 → b = len x → slice x a b = Ok x.
Proof. intros ->. apply slice_all. Qed.
Lemma slice_cons {A} (y : A) r a b :
  1 ≤ a → slice (y :: r) a b = slice r (a - 1) (b - 1).
Proof. intros. by apply (slice_drop [y] r). Qed.
Lemma slice_from_start {A} (l : list A) a : a = 0 → slice_from l a = Ok l.
Proof. intros ->. apply slice_from_0. Qed.
Lemma slice_from_cons {A} (y : A) r a :
  1 ≤ a → slice_from (y :: r) a = slice_from r (a - 1).
Proof. intros. by apply (slice_from_drop [y] r). Qed.
Lemma index_head {A} (y : A) r i : i = 0 → index (y :: r) i = Ok y.
Proof. intros ->. apply index_0. Qed.
Lemma index_cons {A} (y : A) r i : 1 ≤ i → index (y :: r) i = index r (i - 1).
Proof. intros. by apply (index_app [y] r). Qed.

(** ** Little-endian integers *)

Lemma from_to_le n v : 0 ≤ v < 2 ^ (8 * Z.of_nat n) → from_le_bytes (to_le_bytes n v) = v.
Proof. intros. rewrite le_combine_split. by apply Z.mod_small; rewrite Z.mul_comm. Qed.

Lemma to_from_le n l : len l = Z.of_nat n → to_le_bytes n (from_le_bytes l) = l.
Proof. intros. apply split_le_combine'. unfold len in *; lia. Qed.

Lemma from_le_range l : 0 ≤ from_le_bytes l < 2 ^ (8 * len l).
Proof. apply le_combine_bound. Qed.

(** ** Bits *)

Lemma uz_range b : 0 ≤ uz b < 256.
Proof. apply (byte.unsigned_range b). Qed.

Lemma uz_u8 z : 0 ≤ z < 256 → uz (u8 z) = z.
Proof. intros. rewrite byte.unsigned_of_Z. unfold byte.wrap. by apply Z.mod_small. Qed.

Lemma wrap32_small z : u32_ok z → wrap32 z = z.
Proof. apply Z.mod_small. Qed.
Lemma wrap32_range z : u32_ok (wrap32 z).
Proof. apply Z.mod_pos_bound. lia. Qed.
Lemma wrap64_small z : u64_ok z → wrap64 z = z.
Proof. apply Z.mod_small. Qed.
Lemma wrap64_range z : u64_ok (wrap64 z).
Proof. apply Z.mod_pos_bound. lia. Qed.
Lemma checked_add_Some a b c : checked_add a b = Some c ↔ c = a + b ∧ a + b < 2 ^ 64.
Proof. unfold checked_add. destruct (Z.ltb_spec (a + b) (2 ^ 64));
  (split; [intros [=]; lia|intros [-> ?]; done || lia]). Qed.
Lemma checked_add_small a b : a + b < 2 ^ 64 → checked_add a b = Some (a + b).
Proof. intros. by apply checked_add_Some. Qed.

Lemma lor_disjoint a b n :
  0 ≤ n → 0 ≤ a < 2 ^ n → Z.lor a (Z.shiftl b n) = a + b * 2 ^ n.
Proof.
  intros Hn Ha. rewrite Z.shiftl_mul_pow2 by lia.
  assert (Z.land a (b * 2 ^ n) = 0) as Hd.
  { destruct (decide (a = 0)) as [->|]; [done|]. apply Z.bits_inj'. intros k Hk. rewrite Z.land_spec, Z.bits_0.
    destruct (Z.lt_ge_cases k n).
    - rewrite (Z.mul_pow2_bits_low b n k) by lia. apply andb_false_r.
    - rewrite (Z.bits_above_log2 a k); [done|lia|].
      apply Z.log2_lt_pow2; [lia|].
      apply (Z.lt_le_trans _ (2 ^ n)); [lia|]. apply Z.pow_le_mono_r; lia. }
  by rewrite Z.add_nocarry_lxor, Z.lxor_lor.
Qed.

Lemma log2_lt_pow2' a n : 0 < n → 0 ≤ a < 2 ^ n → Z.log2 a < n.
Proof.
  intros. destruct (decide (a = 0)) as [->|]; [cbn; lia|]. apply Z.log2_lt_pow2; lia.
Qed.

Lemma lor_range a b n :
  0 < n → 0 ≤ a < 2 ^ n → 0 ≤ b < 2 ^ n → 0 ≤ Z.lor a b < 2 ^ n.
Proof.
  intros. assert (0 ≤ Z.lor a b) by (apply Z.lor_nonneg; lia). split; [done|].
  destruct (decide (Z.lor a b = 0)) as [->|]; [lia|].
  apply Z.log2_lt_pow2; [lia|]. rewrite Z.log2_lor by lia.
  apply Z.max_lub_lt; by apply log2_lt_pow2'.
Qed.

(** The test [z & (1 << k) != 0]. *)
Lemma land_pow2_testbit z k : 0 ≤ k → negb (Z.land z (Z.shiftl 1 k) =? 0) = Z.testbit z k.
Proof.
  intros Hk. rewrite Z.shiftl_1_l. destruct (Z.testbit z k) eqn:E.
  - apply negb_true_iff, Z.eqb_neq. intros H0.
    assert (Z.testbit (Z.land z (2 ^ k)) k = false) as T by (rewrite H0; apply Z.bits_0).
    by rewrite Z.land_spec, E, Z.pow2_bits_true in T by done.
  - apply negb_false_iff, Z.eqb_eq. apply Z.bits_inj'. intros n Hn.
    rewrite Z.land_spec, Z.pow2_bits_eqb, Z.bits_0 by done.
    destruct (Z.eqb_spec k n) as [<-|]; [by rewrite E|apply andb_false_r].
Qed.

Lemma testbit_1 i : 0 ≤ i → Z.testbit 1 i = (0 =? i).
Proof. intros. change 1 with (2 ^ 0). by apply Z.pow2_bits_eqb. Qed.

Lemma land_7f z : Z.land z 0x7f = z mod 128.
Proof. by apply (Z.land_ones z 7). Qed.

(** ** Proof automation for codecs

    [codec_step] moves one slice, index or length test of a decoder through
    a buffer written as a concatenation of encoded fields. *)

Ltac test_false :=
  match goal with
  | |- context [if ?x <? ?y then _ else _] =>
      replace (x <? y) with false by (symmetry; apply Z.ltb_ge; len_lia)
  | |- context [if ?x <=? ?y then _ else _] =>
      replace (x <=? y) with false by (symmetry; apply Z.leb_gt; len_lia)
  | |- context [if ?x =? ?y then _ else _] =>
      replace (x =? y) with false by (symmetry; apply Z.eqb_neq; len_lia)
  end.
Ltac test_true :=
  match goal with
  | |- context [if ?x <? ?y then _ else _] =>
      replace (x <? y) with true by (symmetry; apply Z.ltb_lt; len_lia)
  | |- context [if ?x <=? ?y then _ else _] =>
      replace (x <=? y) with true by (symmetry; apply Z.leb_le; len_lia)
  | |- context [if ?x =? ?y then _ else _] =>
      replace (x =? y) with true by (symmetry; apply Z.eqb_eq; len_lia)
  end.

Create HintDb norn.
#[export] Hint Resolve no_panic_Ok no_panic_Err : norn.
