(* ===== verification/Collections.v ===== *)
(** * Keys and collections shared by the stateful components

    Rust's lexicographic order on byte arrays, the iteration order of a
    [HashMap], and the instants of the monotonic clock. *)

From S2P Require Import Prelude.

(** ** The order of byte arrays ([<] on [[u8; 32]]) *)

Fixpoint bytes_ltb (a b : bytes) : bool :=
  match a, b with
  | [], [] => false
  | [], _ :: _ => true
  | _ :: _, [] => false
  | x :: a, y :: b => (uz x <? uz y) || ((uz x =? uz y) && bytes_ltb a b)
  end.

Lemma bytes_ltb_irrefl a : bytes_ltb a a = false.
Proof.
  induction a as [|x a IH]; cbn; [done|]. rewrite IH, Z.ltb_irrefl. by rewrite andb_false_r.
Qed.

Lemma uz_inj x y : uz x = uz y → x = y.
Proof. apply byte.unsigned_inj. Qed.

Lemma bytes_ltb_total a : ∀ b, a = b ∨ bytes_ltb a b = true ∨ bytes_ltb b a = true.
Proof.
  induction a as [|x a IH]; intros [|y b]; cbn; [by left|by right; left|by right; right|].
  destruct (Z.lt_total (uz x) (uz y)) as [Hl|[He|Hg]].
  - right; left. by apply orb_true_iff; left; apply Z.ltb_lt.
  - apply uz_inj in He as ->. rewrite Z.ltb_irrefl, Z.eqb_refl. cbn.
    destruct (IH b) as [->|[|]]; auto.
  - right; right. by apply orb_true_iff; left; apply Z.ltb_lt.
Qed.

Lemma bytes_ltb_trans a : ∀ b c,
  bytes_ltb a b = true → bytes_ltb b c = true → bytes_ltb a c = true.
Proof.
  induction a as [|x a IH]; intros [|y b] [|z c]; cbn; try done.
  rewrite !orb_true_iff, !andb_true_iff, !Z.ltb_lt, !Z.eqb_eq.
  intros [?|[E1 H1]] [?|[E2 H2]]; [left; lia..|]. right. split; [lia|]. by eapply IH.
Qed.

Lemma bytes_ltb_asym a b : bytes_ltb a b = true → bytes_ltb b a = false.
Proof.
  intros Hab. destruct (bytes_ltb b a) eqn:Hba; [|done].
  by rewrite <- (bytes_ltb_irrefl a), (bytes_ltb_trans a b a).
Qed.

Lemma bytes_ltb_ge a b : bytes_ltb a b = false → a = b ∨ bytes_ltb b a = true.
Proof. intros Hn. destruct (bytes_ltb_total a b) as [|[|]]; [auto|congruence|auto]. Qed.

(** ** Iteration over a [HashMap]

    The order is unspecified: an operation that iterates takes it as an
    argument, any enumeration of the map's entries. *)
Record MapOrder (K : Type) `{Countable K} := {
  map_iter : ∀ {A}, gmap K A → list (K * A);
  map_iter_perm : ∀ A (m : gmap K A), map_iter m ≡ₚ map_to_list m }.
Arguments map_iter {K _ _} _ {A} m.
Arguments map_iter_perm {K _ _} _ {A} m.

Program Definition default_order (K : Type) `{Countable K} : MapOrder K :=
  {| map_iter A m := map_to_list m |}.
Next Obligation. done. Qed.

Section MapOrder.
Context `{Countable K} (ord : MapOrder K) {A : Type}.
Implicit Types (m : gmap K A) (k : K).

Lemma elem_of_map_iter m k x : (k, x) ∈ map_iter ord m ↔ m !! k = Some x.
Proof. rewrite (map_iter_perm ord m). apply elem_of_map_to_list. Qed.

Lemma map_iter_nil m : map_iter ord m = [] → m = ∅.
Proof.
  intros E. apply map_to_list_empty_iff, Permutation_nil. by rewrite <- (map_iter_perm ord m), E.
Qed.

Lemma NoDup_map_iter m : NoDup (map_iter ord m).*1.
Proof. rewrite (map_iter_perm ord m). apply NoDup_fst_map_to_list. Qed.

(** [m.keys().next()] *)
Definition first_key m : option K := fst <$> head (map_iter ord m).

Lemma first_key_Some m k : first_key m = Some k → is_Some (m !! k).
Proof.
  unfold first_key. destruct (map_iter ord m) as [|[k' x] l] eqn:E; [done|]. intros [= <-].
  exists x. apply elem_of_map_iter. rewrite E. by left.
Qed.

Lemma first_key_None m : first_key m = None → m = ∅.
Proof. unfold first_key. destruct (map_iter ord m) eqn:E; [|done]. intros _. by apply map_iter_nil. Qed.

(** [m.iter().find(p).map(|(k, _)| *k)] *)
Definition find_key (p : A → bool) m : option K :=
  fst <$> head (filter (λ kx, p kx.2 = true) (map_iter ord m)).

Lemma find_key_Some p m k : find_key p m = Some k → ∃ x, m !! k = Some x ∧ p x = true.
Proof.
  unfold find_key. destruct (filter _ _) as [|[k' x] l] eqn:E; [done|]. intros [= <-].
  assert ((k', x) ∈ filter (λ kx, p kx.2 = true) (map_iter ord m)) as Hin by (rewrite E; by left).
  apply list_elem_of_filter in Hin as [Hp Hin%elem_of_map_iter]. eauto.
Qed.

Lemma find_key_None p m : find_key p m = None → ∀ k x, m !! k = Some x → p x = false.
Proof.
  unfold find_key. destruct (filter _ _) eqn:E; [|done]. intros _ k x Hk.
  destruct (p x) eqn:Hp; [|done]. exfalso.
  apply (elem_of_nil (k, x)). rewrite <- E. apply list_elem_of_filter.
  split; [done|]. by apply elem_of_map_iter.
Qed.
End MapOrder.

(** ** Instants

    Milliseconds since boot.  An [Instant] stores its seconds as [i64]. *)
Definition INSTANT_MIN : Z := - 2 ^ 63 * 1000.
(** [i.checked_sub(d)] *)
Definition instant_checked_sub (i d : Z) : option Z :=
  if INSTANT_MIN <=? i - d then Some (i - d) else None.
(** [i.duration_since(j)], zero when [j] is later. *)
Definition duration_since (i j : Z) : Z := sat_sub i j.

Lemma instant_checked_sub_ok i d : 0 ≤ i → 0 ≤ d ≤ 2 ^ 63 → instant_checked_sub i d = Some (i - d).
Proof. intros. unfold instant_checked_sub, INSTANT_MIN. by test_true. Qed.

(** ** Sizes of maps *)

Lemma size_delete_Some `{Countable K} {A} (m : gmap K A) k :
  is_Some (m !! k) → Z.of_nat (size (delete k m)) = Z.of_nat (size m) - 1.
Proof.
  intros Hk. rewrite map_size_delete. destruct Hk as [x Hx]. rewrite Hx. cbn.
  assert (size m ≠ 0%nat); [|lia]. intros E%map_size_empty_iff. subst. by rewrite lookup_empty in Hx.
Qed.
Lemma size_insert_None `{Countable K} {A} (m : gmap K A) k x :
  m !! k = None → Z.of_nat (size (<[k := x]> m)) = Z.of_nat (size m) + 1.
Proof. intros Hk. rewrite map_size_insert, Hk. lia. Qed.
Lemma size_insert_Some `{Countable K} {A} (m : gmap K A) k x :
  is_Some (m !! k) → size (<[k := x]> m) = size m.
Proof. intros [y Hy]. by rewrite map_size_insert, Hy. Qed.
