(* ===== verification/Xor.v ===== *)
(** * Keystreams

    XOR of byte strings as the stream ciphers of [src/sphinx.rs] and
    [src/obfs.rs] apply it. *)

From S2P Require Import Prelude.

Definition xor8 (a b : byte) : byte := u8 (Z.lxor (uz a) (uz b)).

(** [for (d, s) in dst.iter_mut().zip(src) { *d ^= s }]: [dst] keeps its length. *)
Fixpoint xor_into (dst src : bytes) : bytes :=
  match dst, src with
  | d :: dst, s :: src => xor8 d s :: xor_into dst src
  | _, _ => dst
  end.

Lemma lxor_range a b : 0 ≤ a < 256 → 0 ≤ b < 256 → 0 ≤ Z.lxor a b < 256.
Proof.
  intros Ha Hb. assert (0 ≤ Z.lxor a b) by (apply Z.lxor_nonneg; lia). split; [done|].
  destruct (decide (Z.lxor a b = 0)) as [->|]; [lia|].
  change 256 with (2 ^ 8). apply Z.log2_lt_pow2; [lia|].
  eapply Z.le_lt_trans; [apply Z.log2_lxor; lia|].
  apply Z.max_lub_lt; apply log2_lt_pow2'; lia.
Qed.

Lemma uz_xor8 a b : uz (xor8 a b) = Z.lxor (uz a) (uz b).
Proof. unfold xor8. apply uz_u8. apply lxor_range; apply uz_range. Qed.

Lemma xor8_cancel a b : xor8 (xor8 a b) b = a.
Proof.
  apply byte.unsigned_inj. rewrite !uz_xor8, Z.lxor_assoc, Z.lxor_nilpotent. apply Z.lxor_0_r.
Qed.
Lemma xor8_zero_l b : xor8 (u8 0) b = b.
Proof. apply byte.unsigned_inj. rewrite uz_xor8. by rewrite uz_u8. Qed.

Lemma len_xor_into x : ∀ y, len (xor_into x y) = len x.
Proof. induction x as [|a x IH]; intros [|b y]; cbn; rewrite ?len_cons, ?IH; done. Qed.
Lemma length_xor_into x y : length (xor_into x y) = length x.
Proof. pose proof (len_xor_into x y). unfold len in *. lia. Qed.

(** Applying the same keystream twice restores the text. *)
Lemma xor_into_cancel x : ∀ y, xor_into (xor_into x y) y = x.
Proof. induction x as [|a x IH]; intros [|b y]; cbn; [done..|]. by rewrite xor8_cancel, IH. Qed.

Lemma xor_into_app x1 : ∀ y1 x2 y2,
  len x1 = len y1 → xor_into (x1 ++ x2) (y1 ++ y2) = xor_into x1 y1 ++ xor_into x2 y2.
Proof.
  induction x1 as [|a x1 IH]; intros [|b y1] x2 y2; rewrite ?len_cons, ?len_nil; len_pos;
    intros; cbn; try lia; [done|]. rewrite IH by lia. done.
Qed.

(** A longer keystream changes nothing. *)
Lemma xor_into_long x y z : len x ≤ len y → xor_into x (y ++ z) = xor_into x y.
Proof.
  revert y. induction x as [|a x IH]; intros [|b y]; rewrite ?len_cons, ?len_nil; len_pos;
    intros; cbn; try (done || lia). by rewrite IH by lia.
Qed.

Lemma xor_into_zero y : ∀ n, n = len y → xor_into (fill n (u8 0)) y = y.
Proof.
  induction y as [|b y IH]; intros n ->; [done|]. rewrite len_cons.
  unfold fill. pose proof (len_nonneg y).
  replace (Z.to_nat (1 + len y)) with (S (Z.to_nat (len y))) by lia. cbn [replicate xor_into].
  rewrite xor8_zero_l. f_equal. by apply IH.
Qed.

Lemma xor_into_drop n x : ∀ y, drop n (xor_into x y) = xor_into (drop n x) (drop n y).
Proof.
  revert n. induction x as [|a x IH]; intros [|n] y; cbn; [done..|].
  destruct y as [|b y]; cbn; [by destruct (drop n x)|]. apply IH.
Qed.
Lemma xor_into_take n x : ∀ y, take n (xor_into x y) = xor_into (take n x) (take n y).
Proof.
  revert n. induction x as [|a x IH]; intros [|n] [|b y]; cbn; [done..|]. by rewrite IH.
Qed.
