(* ===== verification/Floats.v ===== *)
(** * IEEE 754 arithmetic

    The [f32] and [f64] operations the router uses for trust scores and costs, on
    the executable specification of binary floating point of the Standard
    Library ([SpecFloat], round to nearest, ties to even). *)

From Stdlib Require Import Floats.SpecFloat.
From S2P Require Import Prelude.

Definition float := spec_float.

(** ** Conversions and literals *)

Definition f32_of_Z (z : Z) : float := binary_normalize 24 128 z 0 false.
Definition f64_of_Z (z : Z) : float := binary_normalize 53 1024 z 0 false.

(** The literal with the decimal value [p / q]: the nearest float. *)
Definition f32_lit (p q : Z) : float := SFdiv 24 128 (f32_of_Z p) (f32_of_Z q).
Definition f64_lit (p q : Z) : float := SFdiv 53 1024 (f64_of_Z p) (f64_of_Z q).

(** [x as f64] of an [f32] (exact) and [x as f32] of an [f64] (rounded). *)
Definition renormalize (prec emax : Z) (x : float) : float :=
  match x with
  | S754_finite s m e => binary_normalize prec emax (cond_Zopp s (Zpos m)) e s
  | _ => x
  end.
Definition f32_to_f64 : float → float := renormalize 53 1024.
Definition f64_to_f32 : float → float := renormalize 24 128.

(** [x as u64]: truncation, saturating, [NaN] to 0. *)
Definition to_u64 (x : float) : Z :=
  match x with
  | S754_finite false m e =>
      Z.min U64_MAX (if 0 <=? e then Zpos m * 2 ^ e else Z.shiftr (Zpos m) (- e))
  | S754_infinity false => U64_MAX
  | _ => 0
  end.

(** ** Operations *)

Definition f32_mul : float → float → float := SFmul 24 128.
Definition f32_add : float → float → float := SFadd 24 128.
Definition f32_sub : float → float → float := SFsub 24 128.
Definition f32_div : float → float → float := SFdiv 24 128.
Definition f64_mul : float → float → float := SFmul 53 1024.
Definition f64_add : float → float → float := SFadd 53 1024.
Definition f64_sub : float → float → float := SFsub 53 1024.
Definition f64_div : float → float → float := SFdiv 53 1024.

Definition is_nan (x : float) : bool := if x is S754_nan then true else false.

(** [x.max(y)] and [x.min(y)]: a [NaN] argument is ignored. *)
Definition fmax (x y : float) : float :=
  if is_nan x then y else if is_nan y then x else if SFltb x y then y else x.
Definition fmin (x y : float) : float :=
  if is_nan x then y else if is_nan y then x else if SFltb y x then y else x.
(** [x.clamp(lo, hi)]: [NaN] stays [NaN]. *)
Definition fclamp (x lo hi : float) : float :=
  let x := if SFltb x lo then lo else x in
  if SFltb hi x then hi else x.

(** [x % y]: the exact remainder, with the sign of [x]. *)
Definition f64_rem (x y : float) : float :=
  match x, y with
  | S754_finite s mx ex, S754_finite _ my ey =>
      let e := Z.min ex ey in
      let r := Z.rem (Z.shiftl (Zpos mx) (ex - e)) (Z.shiftl (Zpos my) (ey - e)) in
      if r =? 0 then S754_zero s else binary_normalize 53 1024 (cond_Zopp s r) e s
  | S754_finite _ _ _, S754_infinity _ | S754_zero _, S754_finite _ _ _
  | S754_zero _, S754_infinity _ => x
  | _, _ => S754_nan
  end.
(** [x.rem_euclid(y)] *)
Definition f64_rem_euclid (x y : float) : float :=
  let r := f64_rem x y in
  if SFltb r (S754_zero false) then f64_add r (SFabs y) else r.

Definition is_finite (x : float) : bool :=
  match x with S754_zero _ | S754_finite _ _ _ => true | _ => false end.

(** [f64::from_bits] and [f64::to_bits]. *)
Definition f64_from_bits (z : Z) : float :=
  let s := Z.testbit z 63 in
  let e := Z.land (Z.shiftr z 52) 2047 in
  let m := Z.land z (2 ^ 52 - 1) in
  if e =? 2047 then (if m =? 0 then S754_infinity s else S754_nan)
  else if e =? 0 then
    (if m is Zpos p then S754_finite s p (-1074) else S754_zero s)
  else S754_finite s (Z.to_pos (m + 2 ^ 52)) (e - 1075).
Definition f64_to_bits (x : float) : Z :=
  let sign (s : bool) := if s then 2 ^ 63 else 0 in
  match x with
  | S754_zero s => sign s
  | S754_infinity s => sign s + Z.shiftl 2047 52
  | S754_nan => Z.shiftl 4095 51
  | S754_finite s m e =>
      if Zpos m <? 2 ^ 52 then sign s + Zpos m
      else sign s + Z.shiftl (e + 1075) 52 + (Zpos m - 2 ^ 52)
  end.

(** The functions of the platform's mathematics library, whose last bits are not
    specified. *)
Class Libm := {
  f64_sin : float → float;
  f64_sinh : float → float;
  f64_cosh : float → float;
  f64_acosh : float → float;
  f64_powi : float → Z → float }.

(** ** The order *)

(** A number other than [NaN], as a key of a lexicographic order. *)
Definition fkey (x : float) : option (Z * Z * Z) :=
  match x with
  | S754_nan => None
  | S754_infinity true => Some (-2, 0, 0)
  | S754_finite true m e => Some (-1, - e, - Zpos m)
  | S754_zero _ => Some (0, 0, 0)
  | S754_finite false m e => Some (1, e, Zpos m)
  | S754_infinity false => Some (2, 0, 0)
  end.

Definition key_lt (a b : Z * Z * Z) : Prop :=
  let '(a1, a2, a3) := a in let '(b1, b2, b3) := b in
  a1 < b1 ∨ a1 = b1 ∧ (a2 < b2 ∨ a2 = b2 ∧ a3 < b3).

Definition key_cmp (a b : Z * Z * Z) : comparison :=
  let '(a1, a2, a3) := a in let '(b1, b2, b3) := b in
  match a1 ?= b1 with
  | Eq => match a2 ?= b2 with Eq => a3 ?= b3 | c => c end
  | c => c
  end.

Lemma SFcompare_key x y :
  SFcompare x y = a ← fkey x; b ← fkey y; Some (key_cmp a b).
Proof.
  destruct x as [[]|[]| |[] mx ex], y as [[]|[]| |[] my ey]; try reflexivity; cbn.
  rewrite (Z.compare_opp ex ey), (Z.compare_antisym ex ey).
  by destruct (ex ?= ey).
Qed.

Lemma key_cmp_lt a b : key_cmp a b = Lt ↔ key_lt a b.
Proof.
  destruct a as [[a1 a2] a3], b as [[b1 b2] b3]. unfold key_cmp, key_lt.
  destruct (Z.compare_spec a1 b1), (Z.compare_spec a2 b2); subst; try (split; [done || lia|lia || done]).
  all: try (split; [lia|]; intros; lia).
  all: rewrite ?Z.compare_lt_iff; lia.
Qed.

Lemma SFltb_key x y :
  SFltb x y = true ↔ ∃ a b, fkey x = Some a ∧ fkey y = Some b ∧ key_lt a b.
Proof.
  unfold SFltb. rewrite SFcompare_key. setoid_rewrite <- key_cmp_lt.
  destruct (fkey x) as [a|], (fkey y) as [b|]; cbn; [|naive_solver..].
  split.
  - intros Hc. exists a, b. by destruct (key_cmp a b).
  - intros (a' & b' & [= <-] & [= <-] & E). by rewrite E.
Qed.

(** [<] on floats is a strict partial order. *)
Lemma SFltb_irrefl x : SFltb x x = false.
Proof.
  apply not_true_iff_false. rewrite SFltb_key. intros (a & b & Ha & Hb & Hl).
  destruct a as [[??]?]. simplify_eq. unfold key_lt in Hl. lia.
Qed.

Lemma SFltb_trans x y z : SFltb x y = true → SFltb y z = true → SFltb x z = true.
Proof.
  rewrite !SFltb_key. intros (a & b & Ha & Hb & Hl) (b' & c & Hb' & Hc & Hl').
  assert (b' = b) as -> by congruence. exists a, c. split_and!; [done..|].
  destruct a as [[??]?], b as [[??]?], c as [[??]?]. unfold key_lt in *. lia.
Qed.
