(* ===== verification/Crypto.v ===== *)
(** * The cryptographic primitives the program calls

    norn-rs takes its primitives from third-party crates ([blake2], [sha2],
    [hkdf], [x25519-dalek], [ed25519-dalek], [chacha20poly1305], [ml-kem],
    [ml-dsa]).  Each is an operational type class here, with its documented
    behaviour in a class of laws beside it; the definitions of the other files
    are generic in the operations, and a theorem asks for the laws it needs.
    Keys, nonces and messages are byte lists; the randomness a primitive draws
    is an argument.  The [Toy] module gives instances, which show that the laws
    can hold together and which the witnesses compute with.

    The two key conversions of [src/session.rs] are also here, since the law
    that ties Ed25519 to X25519 keys mentions them. *)

From S2P Require Import Prelude.

(** ** Hashes *)

(** BLAKE2b with an [n]-byte digest ([Blake2b<U8>], [U16], [U32], [U64]). *)
Class Blake2 := blake2b : nat → bytes → bytes.
Class Blake2Laws `{Blake2} : Prop :=
  blake2b_len : ∀ n m, len (blake2b n m) = Z.of_nat n.

(** BLAKE2b in its keyed mode: output length, key, message. *)
Class Blake2Mac := blake2b_mac : nat → bytes → bytes → bytes.
Class Blake2MacLaws `{Blake2Mac} : Prop :=
  blake2b_mac_len : ∀ n k m, len (blake2b_mac n k m) = Z.of_nat n.

(** The ChaCha20 keystream of a key and a nonce, from block 0: its first [n]
    bytes. *)
Class ChaCha20 := chacha20 : bytes → bytes → nat → bytes.
Class ChaCha20Laws `{ChaCha20} : Prop := {
  chacha20_len : ∀ k n i, len (chacha20 k n i) = Z.of_nat i;
  chacha20_prefix : ∀ k n i j, (i ≤ j)%nat → take i (chacha20 k n j) = chacha20 k n i }.

Class Sha512 := sha512 : bytes → bytes.
Class Sha512Laws `{Sha512} : Prop := sha512_len : ∀ m, len (sha512 m) = 64.

(** [Hkdf::<Sha256>::new(salt, ikm)] followed by [expand(info, 32 bytes)]. *)
Class Hkdf := hkdf32 : option bytes → bytes → bytes → bytes.
Class HkdfLaws `{Hkdf} : Prop := hkdf32_len : ∀ s k i, len (hkdf32 s k i) = 32.

(** ** Key agreement and signatures *)

(** [x25519 k u] is [k.diffie_hellman(u)], [x25519_base k] the public key of [k]. *)
Class X25519 := { x25519 : bytes → bytes → bytes; x25519_base : bytes → bytes }.
Class X25519Laws `{X25519} : Prop := {
  x25519_comm : ∀ a b, x25519 a (x25519_base b) = x25519 b (x25519_base a);
  x25519_len : ∀ a u, len (x25519 a u) = 32;
  x25519_base_len : ∀ a, len (x25519_base a) = 32 }.

(** Ed25519: public key of a seed, signing, [VerifyingKey::from_bytes(pk).is_ok()]
    with [verify_strict], and the Montgomery form of a compressed point. *)
Class Ed25519 := {
  ed_public : bytes → bytes;
  ed_sign : bytes → bytes → bytes;
  ed_valid : bytes → bool;
  ed_verify : bytes → bytes → bytes → bool;
  ed_to_montgomery : bytes → option bytes }.
Class Ed25519Laws `{Ed25519} : Prop := {
  ed_public_len : ∀ sk, len (ed_public sk) = 32;
  ed_sign_len : ∀ sk m, len (ed_sign sk m) = 64;
  ed_public_valid : ∀ sk, ed_valid (ed_public sk) = true;
  ed_sign_verify : ∀ sk m, ed_verify (ed_public sk) m (ed_sign sk m) = true }.

(** ML-DSA-65: [pq_sign.rs] derives the key from a 32-byte seed. *)
Definition ML_DSA_PUB_BYTES : Z := 1952.
Definition ML_DSA_SIG_BYTES : Z := 3309.
Class MlDsa := {
  dsa_pub : bytes → bytes;
  dsa_sign : bytes → bytes → bytes;
  dsa_verify : bytes → bytes → bytes → bool }.
Class MlDsaLaws `{MlDsa} : Prop := {
  dsa_pub_len : ∀ sk, len (dsa_pub sk) = ML_DSA_PUB_BYTES;
  dsa_sign_len : ∀ sk m, len (dsa_sign sk m) = ML_DSA_SIG_BYTES;
  dsa_sign_verify : ∀ sk m, dsa_verify (dsa_pub sk) m (dsa_sign sk m) = true }.

(** ML-KEM-768: encapsulation key of a decapsulation key, validity check of an
    encapsulation key, encapsulation with the coins it draws, decapsulation. *)
Definition ML_KEM_PUB_BYTES : Z := 1184.
Definition ML_KEM_CT_BYTES : Z := 1088.
Definition ML_KEM_SHARED_BYTES : Z := 32.
Class MlKem := {
  kem_ek : bytes → bytes;
  kem_ek_valid : bytes → bool;
  kem_encap : bytes → bytes → bytes * bytes;
  kem_decap : bytes → bytes → bytes }.
Class MlKemLaws `{MlKem} : Prop := {
  kem_ek_len : ∀ dk, len (kem_ek dk) = ML_KEM_PUB_BYTES;
  kem_ek_ok : ∀ dk, kem_ek_valid (kem_ek dk) = true;
  kem_ct_len : ∀ ek r, len (kem_encap ek r).1 = ML_KEM_CT_BYTES;
  kem_correct : ∀ dk r, kem_decap dk (kem_encap (kem_ek dk) r).1 = (kem_encap (kem_ek dk) r).2 }.

(** ** Authenticated encryption (ChaCha20-Poly1305) *)

(** The longest message the cipher accepts: [2^32 - 1] blocks of 64 bytes. *)
Definition AEAD_MAX : Z := (2 ^ 32 - 1) * 64.
Class Aead := {
  aead_seal : bytes → bytes → bytes → bytes → option bytes;
  aead_open : bytes → bytes → bytes → bytes → option bytes }.
Class AeadLaws `{Aead} : Prop := {
  aead_seal_ok : ∀ k n a p, len p ≤ AEAD_MAX →
    ∃ c, aead_seal k n a p = Some c ∧ len c = len p + 16;
  aead_seal_open : ∀ k n a p c, aead_seal k n a p = Some c → aead_open k n a c = Some p;
  aead_seal_len : ∀ k n a p c, aead_seal k n a p = Some c → len c = len p + 16;
  aead_open_len : ∀ k n a p c, aead_open k n a c = Some p → len c = len p + 16 }.

(** [Nonce::from(...)] with a [u64] counter in its first eight bytes. *)
Definition nonce_of (seq : Z) : bytes := to_le_bytes 8 seq ++ fill 4 (u8 0).

(** ** Key conversions of [src/session.rs] *)

(** [b & m] and [b | m] on a [u8]. *)
Definition and8 (b : byte) (m : Z) : byte := u8 (Z.land (uz b) m).
Definition or8 (b : byte) (m : Z) : byte := u8 (Z.lor (uz b) m).

Definition ed25519_priv_to_x25519 `{Sha512} (ed_priv : bytes) : bytes :=
  let hash := sha512 ed_priv in
  let scalar := take 32 hash in
  let scalar := alter (λ b, and8 b 248) 0%nat scalar in
  let scalar := alter (λ b, and8 b 127) 31%nat scalar in
  alter (λ b, or8 b 64) 31%nat scalar.

Definition ed25519_pub_to_x25519 `{Ed25519} (ed_pub : bytes) : res bytes :=
  ok_or (ed_to_montgomery ed_pub) "invalid ed25519 public key".

(** The X25519 key of an identity is the Montgomery form of its Ed25519 key. *)
Class EdXLaws `{Ed25519} `{X25519} `{Sha512} : Prop :=
  ed_montgomery : ∀ sk,
    ed_to_montgomery (ed_public sk) = Some (x25519_base (ed25519_priv_to_x25519 sk)).

Module Toy.
(** A digest that folds the message into 64 bits. *)
Definition fold_bytes (m : bytes) : Z :=
  foldl (λ acc b, Z.land (acc * 257 + uz b + 1) (Z.ones 64)) 0 m.

#[export] Instance toy_blake2 : Blake2 := λ n m, to_le_bytes n (fold_bytes m).
#[export] Instance toy_blake2_laws : Blake2Laws.
Proof. intros n m. apply len_le_split. Qed.

#[export] Instance toy_blake2mac : Blake2Mac := λ n k m, to_le_bytes n (fold_bytes (k ++ m)).
#[export] Instance toy_blake2mac_laws : Blake2MacLaws.
Proof. intros n k m. apply len_le_split. Qed.

#[export] Instance toy_chacha20 : ChaCha20 := λ k n i,
  map (λ j, u8 (fold_bytes (k ++ n) + Z.of_nat j)) (seq 0 i).
#[export] Instance toy_chacha20_laws : ChaCha20Laws.
Proof.
  split; intros k n i.
  - unfold chacha20, toy_chacha20. rewrite len_map. unfold len. by rewrite length_seq.
  - intros j Hj. unfold chacha20, toy_chacha20. rewrite firstn_map. f_equal.
    replace j with (i + (j - i))%nat by lia. rewrite seq_app, firstn_app, length_seq.
    rewrite Nat.sub_diag, firstn_O, app_nil_r. apply firstn_all2. by rewrite length_seq.
Qed.

#[export] Instance toy_sha512 : Sha512 := λ m, to_le_bytes 64 (fold_bytes m).
#[export] Instance toy_sha512_laws : Sha512Laws.
Proof. intros m. apply len_le_split. Qed.

#[export] Instance toy_hkdf : Hkdf := λ s k i,
  to_le_bytes 32 (fold_bytes (default [] s ++ [u8 0] ++ k ++ [u8 0] ++ i)).
#[export] Instance toy_hkdf_laws : HkdfLaws.
Proof. intros s k i. apply len_le_split. Qed.

(** The additive group of 256-bit integers. *)
Definition M256 : Z := 2 ^ 256.
#[export] Instance toy_x25519 : X25519 := {|
  x25519 k u := to_le_bytes 32 ((from_le_bytes k + from_le_bytes u) mod M256);
  x25519_base k := to_le_bytes 32 (from_le_bytes k mod M256) |}.

Lemma toy_base_val k : from_le_bytes (x25519_base k) = from_le_bytes k mod M256.
Proof. cbn. apply from_to_le. apply Z.mod_pos_bound. unfold M256. lia. Qed.

#[export] Instance toy_x25519_laws : X25519Laws.
Proof.
  split; intros.
  - unfold x25519 at 1 2. cbn -[x25519_base]. rewrite !toy_base_val.
    rewrite !Zplus_mod_idemp_r. by rewrite Z.add_comm.
  - apply len_le_split.
  - apply len_le_split.
Qed.

#[export] Instance toy_ed25519 : Ed25519 := {|
  ed_public sk := x25519_base (ed25519_priv_to_x25519 sk);
  ed_sign sk m := to_le_bytes 64 (fold_bytes (x25519_base (ed25519_priv_to_x25519 sk) ++ m));
  ed_valid pk := len pk =? 32;
  ed_verify pk m s := bool_decide (s = to_le_bytes 64 (fold_bytes (pk ++ m)));
  ed_to_montgomery pk := Some pk |}.
#[export] Instance toy_ed25519_laws : Ed25519Laws.
Proof.
  split; intros; cbn.
  - apply len_le_split.
  - apply len_le_split.
  - by rewrite len_le_split.
  - by apply bool_decide_eq_true_2.
Qed.
#[export] Instance toy_edx_laws : EdXLaws.
Proof. by intros sk. Qed.

#[export] Instance toy_mldsa : MlDsa := {|
  dsa_pub sk := to_le_bytes 1952 (from_le_bytes sk);
  dsa_sign sk m := to_le_bytes 3309 (fold_bytes (to_le_bytes 1952 (from_le_bytes sk) ++ m));
  dsa_verify pk m s := bool_decide (s = to_le_bytes 3309 (fold_bytes (pk ++ m))) |}.
#[export] Instance toy_mldsa_laws : MlDsaLaws.
Proof.
  split; intros; cbn.
  - apply len_le_split.
  - apply len_le_split.
  - by apply bool_decide_eq_true_2.
Qed.

#[export] Instance toy_mlkem : MlKem := {|
  kem_ek dk := to_le_bytes 1184 (from_le_bytes dk);
  kem_ek_valid ek := len ek =? 1184;
  kem_encap ek r := let ct := to_le_bytes 1088 (from_le_bytes r) in
                    (ct, to_le_bytes 32 (fold_bytes (ek ++ ct)));
  kem_decap dk ct := to_le_bytes 32 (fold_bytes (to_le_bytes 1184 (from_le_bytes dk) ++ ct)) |}.
#[export] Instance toy_mlkem_laws : MlKemLaws.
Proof.
  split; intros; cbn.
  - apply len_le_split.
  - by rewrite len_le_split.
  - apply len_le_split.
  - done.
Qed.

Definition toy_tag (k n a p : bytes) : bytes := to_le_bytes 16 (fold_bytes (k ++ n ++ a ++ p)).
#[export] Instance toy_aead : Aead := {|
  aead_seal k n a p := if len p <=? AEAD_MAX then Some (p ++ toy_tag k n a p) else None;
  aead_open k n a c :=
    if (16 <=? len c) && (len c <=? AEAD_MAX + 16) then
      let p := take (length c - 16) c in
      if decide (drop (length c - 16) c = toy_tag k n a p) then Some p else None
    else None |}.
#[export] Instance toy_aead_laws : AeadLaws.
Proof.
  assert (∀ k n a p, len (toy_tag k n a p) = 16) as Ht by (intros; apply len_le_split).
  split; cbn; intros k n a p.
  - intros Hp. test_true. eexists. split; [done|]. by rewrite len_app, Ht.
  - intros c. case_match eqn:E; [|done]. intros [= <-]. apply Z.leb_le in E.
    specialize (Ht k n a p). rewrite len_app, Ht. len_pos.
    replace (16 <=? len p + 16) with true by lia.
    replace (len p + 16 <=? AEAD_MAX + 16) with true by lia. cbn.
    assert (length (p ++ toy_tag k n a p) - 16 = length p)%nat as ->
      by (unfold len in Ht; rewrite length_app; lia).
    rewrite take_app_length, drop_app_length. by case_decide.
  - intros c. case_match; [|done]. intros [= <-]. by rewrite len_app, Ht.
  - intros c. case_match eqn:E; [|done]. case_decide; [|done]. intros [= <-].
    apply andb_true_iff in E as [E%Z.leb_le _]. unfold len in *. rewrite length_take. lia.
Qed.
End Toy.
