(* ===== verification/Hyperbolic.v ===== *)
(** * Hyperbolic coordinates: [src/hyperbolic.rs]

    A node's coordinate is its depth as radial distance and an angle derived from
    its parent's angle; greedy forwarding compares distances on the hyperboloid. *)

From Stdlib Require Import Floats.SpecFloat.
From S2P Require Import Prelude Floats Crypto.

Definition PI : float := f64_from_bits 0x400921FB54442D18.
Definition RADIAL_STEP : float := f64_of_Z 1.
Definition RHO_MAX : float := f64_of_Z 350.
Definition ANGULAR_SPREAD : float := f64_of_Z 8.

(** [i32] arithmetic wraps around in release builds. *)
Definition to_i32 (z : Z) : Z := let w := wrap32 z in if w <? 2 ^ 31 then w else w - 2 ^ 32.

Module HypCoord.
Record t := mk { rho : float; theta : float }.

Definition origin : t := mk (S754_zero false) (S754_zero false).

Definition distance `{Libm} (u v : t) : float :=
  let a := fclamp (rho u) (S754_zero false) RHO_MAX in
  let b := fclamp (rho v) (S754_zero false) RHO_MAX in
  let dtheta := f64_sub (theta u) (theta v) in
  let sin_half := f64_sin (f64_mul (f64_lit 1 2) dtheta) in
  let cosh_d :=
    f64_add (f64_cosh (f64_sub a b))
      (f64_mul (f64_mul (f64_mul (f64_mul (f64_of_Z 2) (f64_sinh a)) (f64_sinh b)) sin_half)
         sin_half) in
  f64_acosh (fmax cosh_d (f64_of_Z 1)).

Definition encode (c : t) : bytes :=
  to_le_bytes 8 (f64_to_bits (rho c)) ++ to_le_bytes 8 (f64_to_bits (theta c)).

Definition TWO_PI : float := f64_mul (f64_of_Z 2) PI.

Definition decode (data : bytes) : t :=
  let rho := f64_from_bits (from_le_bytes (take 8 data)) in
  let theta := f64_from_bits (from_le_bytes (drop 8 data)) in
  mk (if is_finite rho then fclamp rho (S754_zero false) RHO_MAX else S754_zero false)
     (if is_finite theta then f64_rem_euclid theta TWO_PI else S754_zero false).

Section Embedding.
Context `{Libm} `{Blake2}.

Definition hash01 (pub_key : bytes) : float :=
  let hash := blake2b 64 pub_key in
  f64_div (f64_of_Z (from_le_bytes (take 8 hash))) (f64_of_Z U64_MAX).

Definition angle_from_key (pub_key : bytes) : float :=
  f64_mul (f64_mul (hash01 pub_key) (f64_of_Z 2)) PI.

Definition from_tree_depth (depth : Z) (pub_key : bytes) : t :=
  mk (fmin (f64_mul (f64_of_Z depth) RADIAL_STEP) RHO_MAX) (angle_from_key pub_key).

Definition from_tree_position (depth : Z) (parent_theta : float) (pub_key : bytes) : t :=
  if depth =? 0 then origin
  else
    let rho := fmin (f64_mul (f64_of_Z depth) RADIAL_STEP) RHO_MAX in
    let sector := f64_div TWO_PI (f64_powi ANGULAR_SPREAD (to_i32 (depth - 1))) in
    let offset := f64_mul (f64_sub (hash01 pub_key) (f64_lit 1 2)) sector in
    mk rho (f64_rem_euclid (f64_add parent_theta offset) TWO_PI).
End Embedding.
End HypCoord.
