(* ===== verification/Varint.v ===== *)
(** * Variable-length integers, paths and frames

    The bottom layer of [src/packet.rs]: [encode_uvarint] / [decode_uvarint],
    the hop list of a source route ([encode_path] / [decode_path]) and the
    length-prefixed frames of a stream ([read_frame], [write_frame],
    [write_frames_batched]).

    A reader is the list of bytes the stream still delivers before its end;
    a writer is the list of bytes written so far.  The format arguments of an
    error message are dropped from its [Err] string. *)

From S2P Require Import Prelude.

(** ** Unsigned varints *)

(** The [loop] of [encode_uvarint]: one byte per iteration, [v >>= 7].  Ten
    iterations exhaust a [u64] (see [encode_loop_fuel]). *)
Fixpoint encode_loop (fuel : nat) (v : Z) : bytes :=
  match fuel with
  | O => []
  | S fuel =>
      let byte := Z.land v 0x7f in
      let v := Z.shiftr v 7 in
      if v =? 0 then [u8 byte] else u8 (Z.lor byte 0x80) :: encode_loop fuel v
  end.

Definition encode_uvarint (v : Z) : bytes := encode_loop 10 v.

(** The [for] loop of [decode_uvarint]; [<<] on a [u64] drops the bits shifted
    out. *)
Fixpoint decode_loop (i shift val : Z) (data : bytes) : res (Z * Z) :=
  match data with
  | [] => Err "uvarint truncated"
  | byte :: data =>
      bail_if 64 <=? shift with "uvarint overflow";
      let val := Z.lor val (wrap64 (Z.shiftl (Z.land (uz byte) 0x7f) shift)) in
      let shift := shift + 7 in
      if Z.land (uz byte) 0x80 =? 0 then Ok (val, i + 1)
      else decode_loop (i + 1) shift val data
  end.

Definition decode_uvarint (data : bytes) : res (Z * Z) := decode_loop 0 0 0 data.

(** [decode_uvarint(&data[pos..])] *)
Definition uvarint_at (data : bytes) (pos : Z) : res (Z * Z) :=
  slice_from data pos ≫= decode_uvarint.

(** ** Paths *)

(** [hop + 1] on a [u64], as the release profile computes it. *)
Definition encode_path (path : list Z) : bytes :=
  concat (map (λ hop, encode_uvarint (wrap64 (hop + 1))) path) ++ [u8 0].

(** The [loop] of [decode_path].  Every iteration consumes at least one byte,
    so [length data + 1] iterations are enough; running out of fuel is [Panic],
    which [decode_path_no_panic] excludes. *)
Fixpoint decode_path_loop (fuel : nat) (data : bytes) (pos : Z) (path : list Z)
    : res (list Z * Z) :=
  match fuel with
  | O => Panic
  | S fuel =>
      bail_if len data <=? pos with "path not terminated";
      '(val, consumed) ← uvarint_at data pos;
      bail_if consumed =? 0 with "decode_uvarint returned zero bytes consumed";
      let pos := pos + consumed in
      if val =? 0 then Ok (path, pos) else
      bail_if 1024 <=? len path with "path too long (> 1024 hops)";
      decode_path_loop fuel data pos (path ++ [val - 1])
  end.

Definition decode_path (data : bytes) : res (list Z * Z) :=
  decode_path_loop (S (length data)) data 0 [].

(** [decode_path(&data[pos..])] *)
Definition path_at (data : bytes) (pos : Z) : res (list Z * Z) :=
  slice_from data pos ≫= decode_path.

#[global] Arguments encode_uvarint : simpl never.
#[global] Arguments decode_uvarint : simpl never.
#[global] Arguments uvarint_at : simpl never.
#[global] Arguments encode_path : simpl never.
#[global] Arguments decode_path : simpl never.
#[global] Arguments path_at : simpl never.

(** ** Frames *)

(** [reader.read_exact(n)] *)
Definition read_exact (n : Z) (reader : bytes) : res (bytes * bytes) :=
  bail_if len reader <? n with "early eof";
  Ok (take (Z.to_nat n) reader, drop (Z.to_nat n) reader).

(** The [loop] that collects the bytes of the length prefix. *)
Fixpoint read_len_loop (len_bytes : bytes) (reader : bytes) : res (bytes * bytes) :=
  match reader with
  | [] => Err "early eof"
  | b :: reader =>
      let len_bytes := len_bytes ++ [b] in
      if Z.land (uz b) 0x80 =? 0 then Ok (len_bytes, reader) else
      bail_if 9 <? len len_bytes with "uvarint length prefix too long";
      read_len_loop len_bytes reader
  end.

Definition MAX_FRAME : Z := 1024 * 1024.

Definition read_frame (reader : bytes) : res (bytes * bytes) :=
  '(len_bytes, reader) ← read_len_loop [] reader;
  '(length, _) ← decode_uvarint len_bytes;
  if length =? 0 then Ok ([], reader) else
  bail_if MAX_FRAME <? length with "frame too large";
  read_exact length reader.

Definition write_frame (writer data : bytes) : bytes :=
  writer ++ (encode_uvarint (len data) ++ data).

Definition write_frames_batched (writer : bytes) (frames : list bytes) : bytes :=
  match frames with
  | [] => writer
  | [f] => write_frame writer f
  | _ => writer ++ foldl (λ buf f, (buf ++ encode_uvarint (len f)) ++ f) [] frames
  end.

(** The receiving side of a link: [n] frames read one after the other. *)
Fixpoint read_frames (n : nat) (reader : bytes) : res (list bytes * bytes) :=
  match n with
  | O => Ok ([], reader)
  | S n => '(f, reader) ← read_frame reader;
           '(fs, reader) ← read_frames n reader;
           Ok (f :: fs, reader)
  end.

(** ** Varint lemmas *)

(** [k] more varint bytes hold [7 k] bits. *)
Definition bits7 (k : nat) : Z := 2 ^ (7 * Z.of_nat k).

Lemma bits7_S k : bits7 (S k) = 128 * bits7 k.
Proof.
  unfold bits7. replace (7 * Z.of_nat (S k)) with (7 + 7 * Z.of_nat k) by lia.
  by rewrite Z.pow_add_r by lia.
Qed.

Lemma bits7_pos k : 0 < bits7 k.
Proof. unfold bits7. apply Z.pow_pos_nonneg; lia. Qed.

(** The two shapes of an iteration of the encoder, arithmetically. *)
Lemma encode_loop_S k v :
  0 ≤ v → encode_loop (S k) v =
    (if v / 128 =? 0 then [u8 v] else u8 (v mod 128 + 128) :: encode_loop k (v / 128)).
Proof.
  intros. cbn [encode_loop]. rewrite land_7f, (Z.shiftr_div_pow2 v 7) by lia.
  change (2 ^ 7) with 128. case_match eqn:E.
  - apply Z.eqb_eq, Z.div_small_iff in E; [|lia].
    rewrite Z.mod_small by lia. done.
  - do 2 f_equal. change 0x80 with (Z.shiftl 1 7).
    rewrite lor_disjoint; [done|lia|]. apply (Z.mod_pos_bound v 128); lia.
Qed.

Lemma cont_bit_clear v : 0 ≤ v < 128 → (Z.land (uz (u8 v)) 0x80 =? 0) = true.
Proof.
  intros. rewrite uz_u8 by lia. apply Z.eqb_eq.
  apply Z.bits_inj'. intros k Hk. rewrite Z.land_spec, Z.bits_0.
  change 0x80 with (2 ^ 7). rewrite Z.pow2_bits_eqb by lia.
  destruct (Z.eqb_spec 7 k) as [<-|]; [|apply andb_false_r].
  rewrite andb_true_r. apply Z.testbit_false; [lia|]. change (2 ^ 7) with 128.
  by rewrite Z.div_small by lia.
Qed.

Lemma cont_bit_set v : 0 ≤ v < 128 → (Z.land (uz (u8 (v + 128))) 0x80 =? 0) = false.
Proof.
  intros. rewrite uz_u8 by lia. apply Z.eqb_neq. intros E.
  assert (Z.testbit (Z.land (v + 128) 0x80) 7 = false) as T by by rewrite E.
  rewrite Z.land_spec, andb_true_r in T. apply Z.testbit_false in T; [|lia].
  change (2 ^ 7) with 128 in T. revert T.
  replace (v + 128) with (v + 1 * 128) by lia.
  by rewrite Z.div_add, Z.div_small by lia.
Qed.

Lemma low_bits_clear v : 0 ≤ v < 128 → Z.land (uz (u8 v)) 0x7f = v.
Proof. intros. rewrite uz_u8, land_7f by lia. by apply Z.mod_small. Qed.

Lemma low_bits_set v : 0 ≤ v < 128 → Z.land (uz (u8 (v + 128))) 0x7f = v.
Proof.
  intros. rewrite uz_u8, land_7f by lia.
  replace (v + 128) with (v + 1 * 128) by lia.
  rewrite Z.mod_add by lia. by apply Z.mod_small.
Qed.

(** One step of the decoder's accumulator, when no bit is shifted out. *)
Lemma val_step val x shift :
  0 ≤ shift → 0 ≤ val < 2 ^ shift → 0 ≤ x → x * 2 ^ shift < 2 ^ 64 →
  Z.lor val (wrap64 (Z.shiftl x shift)) = val + x * 2 ^ shift.
Proof.
  intros. unfold wrap64. rewrite Z.mod_small.
  - by apply lor_disjoint.
  - rewrite Z.shiftl_mul_pow2 by lia. nia.
Qed.

Lemma pow2_split shift k :
  0 ≤ shift → 2 ^ (shift + 7 * Z.of_nat k) = bits7 k * 2 ^ shift.
Proof. intros. unfold bits7. rewrite Z.pow_add_r by lia. lia. Qed.

(** Decoding what [k] iterations of the encoder wrote, from any position of the
    decoder's loop. *)
Lemma decode_encode_loop k v i shift val rest :
  0 ≤ v < bits7 (S k) → 0 ≤ shift ≤ 63 → 0 ≤ val < 2 ^ shift →
  v * 2 ^ shift < 2 ^ 64 →
  decode_loop i shift val (encode_loop (S k) v ++ rest)
  = Ok (val + v * 2 ^ shift, i + len (encode_loop (S k) v)).
Proof.
  revert v i shift val. induction k as [|k IH]; intros v i shift val Hv Hs Hval Hov;
    rewrite encode_loop_S by lia; rewrite bits7_S in Hv;
    pose proof (Z.pow_pos_nonneg 2 shift ltac:(lia) ltac:(lia)) as Hp;
    case_match eqn:E.
  1,3: apply Z.eqb_eq, Z.div_small_iff in E; [|lia]; cbn [app decode_loop];
    test_false; rewrite cont_bit_clear, low_bits_clear, val_step by lia;
    by rewrite len_cons, len_nil.
  - change (bits7 0) with 1 in Hv. apply Z.eqb_neq in E.
    rewrite Z.div_small in E; lia.
  - apply Z.eqb_neq in E.
    pose proof (Z.div_mod v 128 ltac:(lia)). pose proof (Z.mod_pos_bound v 128 ltac:(lia)).
    assert (0 < v / 128) by (pose proof (Z.div_pos v 128); lia).
    cbn [app decode_loop]. rewrite cont_bit_set, low_bits_set by lia. test_false.
    rewrite val_step by nia.
    assert (2 ^ (shift + 7) = 128 * 2 ^ shift) as H7 by (rewrite Z.pow_add_r by lia; lia).
    assert (shift + 7 < 64) as Hlt.
    { apply (Z.pow_lt_mono_r_iff 2); [lia..|]. nia. }
    rewrite IH; [|pose proof (bits7_pos (S k)); nia|lia|nia|nia].
    rewrite len_cons. do 2 f_equal; [nia|lia].
Qed.

Lemma encode_loop_len k v : len (encode_loop k v) ≤ Z.of_nat k.
Proof.
  revert v; induction k as [|k IH]; intros v; cbn [encode_loop]; [done|].
  case_match; [len_lia|]. rewrite len_cons. specialize (IH (Z.shiftr v 7)). lia.
Qed.

Lemma encode_uvarint_len v : 1 ≤ len (encode_uvarint v) ≤ 10.
Proof.
  split; [|apply (encode_loop_len 10)].
  unfold encode_uvarint. cbn [encode_loop]. case_match; len_lia.
Qed.

Lemma u64_bits7 v : u64_ok v → 0 ≤ v < bits7 10.
Proof. change (bits7 10) with (2 ^ 70). lia. Qed.

Lemma decode_encode v rest :
  u64_ok v → decode_uvarint (encode_uvarint v ++ rest) = Ok (v, len (encode_uvarint v)).
Proof.
  intros. unfold decode_uvarint, encode_uvarint.
  rewrite (decode_encode_loop 9); [by rewrite Z.mul_1_r|by apply u64_bits7|lia..].
Qed.

(** More iterations than ten never write more. *)
Lemma encode_loop_fuel k v : 0 ≤ v < bits7 (S k) → encode_loop (S k + 1) v = encode_loop (S k) v.
Proof.
  revert v. induction k as [|k IH]; intros v Hv;
    cbn [plus]; rewrite (encode_loop_S _ v), (encode_loop_S _ v) by lia;
    rewrite bits7_S in Hv; case_match eqn:E; try done.
  - change (bits7 0) with 1 in Hv. apply Z.eqb_neq in E.
    rewrite Z.div_small in E; lia.
  - f_equal. apply IH. split; [apply Z.div_pos; lia|].
    apply Z.div_lt_upper_bound; lia.
Qed.

(** What a successful decode says: the loop consumed at least one of the bytes
    and the accumulator stayed a [u64]. *)
Lemma decode_loop_inv data i shift val v n :
  0 ≤ i → shift = 7 * i → u64_ok val → decode_loop i shift val data = Ok (v, n) →
  u64_ok v ∧ i + 1 ≤ n ≤ i + len data ∧ n ≤ 10.
Proof.
  revert i shift val. induction data as [|b data IH]; intros i shift val Hi -> Hval; [done|].
  cbn [decode_loop]. case_match eqn:E1; [done|]. apply Z.leb_gt in E1.
  assert (u64_ok (Z.lor val (wrap64 (Z.shiftl (Z.land (uz b) 0x7f) (7 * i))))) as Hval'.
  { apply lor_range; [lia|done|]. apply Z.mod_pos_bound; lia. }
  rewrite len_cons. len_pos. case_match eqn:E2.
  - intros [= <- <-]. split; [done|]. lia.
  - intros H'. apply IH in H'; [|lia..|done]. lia.
Qed.

Lemma decode_uvarint_inv data v n :
  decode_uvarint data = Ok (v, n) → u64_ok v ∧ 1 ≤ n ≤ len data ∧ n ≤ 10.
Proof. intros H. apply decode_loop_inv in H; lia. Qed.

Lemma no_panic_decode_uvarint data : no_panic (decode_uvarint data).
Proof.
  unfold decode_uvarint, no_panic. generalize 0 at 1 as i. generalize 0 at 1 as sh.
  generalize 0 as val. induction data as [|b data IH]; intros; cbn [decode_loop]; [done|].
  repeat case_match; auto.
Qed.

(** A value decoded from [n] bytes has at most [7 n] bits. *)
Lemma decode_loop_bound data i val v n :
  0 ≤ i → 0 ≤ val < 2 ^ (7 * i) → decode_loop i (7 * i) val data = Ok (v, n) →
  v < 2 ^ (7 * n).
Proof.
  revert i val. induction data as [|b data IH]; intros i val Hi Hval; [done|].
  cbn [decode_loop]. case_match; [done|].
  assert (0 ≤ Z.land (uz b) 0x7f < 128) as Hb
    by (rewrite land_7f; apply Z.mod_pos_bound; lia).
  assert (2 ^ (7 * (i + 1)) = 128 * 2 ^ (7 * i)) as H7
    by (replace (7 * (i + 1)) with (7 + 7 * i) by lia; rewrite Z.pow_add_r; lia).
  replace (7 * i + 7) with (7 * (i + 1)) by lia.
  assert (0 ≤ Z.lor val (wrap64 (Z.shiftl (Z.land (uz b) 0x7f) (7 * i))) < 2 ^ (7 * (i + 1))).
  { apply lor_range; [lia|lia|]. unfold wrap64. rewrite Z.shiftl_mul_pow2 by lia.
    split; [apply Z.mod_pos_bound; lia|].
    eapply Z.le_lt_trans; [apply Z.mod_le; nia|]. nia. }
  case_match; [intros [= <- <-]; lia|]. apply IH; lia.
Qed.

Lemma encode_loop_short k j v :
  0 ≤ v < bits7 (S j) → len (encode_loop k v) ≤ Z.of_nat (S j).
Proof.
  revert j v. induction k as [|k IH]; intros j v Hv; [change (encode_loop 0 v) with (@nil byte); rewrite len_nil; lia|].
  rewrite encode_loop_S by lia. case_match eqn:E; [rewrite len_cons, len_nil; lia|].
  rewrite bits7_S in Hv. apply Z.eqb_neq in E. destruct j as [|j].
  - change (bits7 0) with 1 in Hv. rewrite Z.div_small in E; lia.
  - rewrite len_cons.
    enough (len (encode_loop k (v / 128)) ≤ Z.of_nat (S j)) by lia. apply IH.
    split; [apply Z.div_pos; lia|]. apply Z.div_lt_upper_bound; lia.
Qed.

(** ** Codec steps for varints and paths *)

Lemma uvarint_at_app x r p : len x ≤ p → uvarint_at (x ++ r) p = uvarint_at r (p - len x).
Proof. intros. unfold uvarint_at. by rewrite slice_from_drop. Qed.
Lemma uvarint_at_cons b r p : 1 ≤ p → uvarint_at (b :: r) p = uvarint_at r (p - 1).
Proof. intros. by apply (uvarint_at_app [b]). Qed.
Lemma uvarint_at_head v r p :
  p = 0 → u64_ok v → uvarint_at (encode_uvarint v ++ r) p = Ok (v, len (encode_uvarint v)).
Proof.
  intros -> ?. unfold uvarint_at. rewrite slice_from_0, bind_Ok. by apply decode_encode.
Qed.
Lemma uvarint_at_last v p :
  p = 0 → u64_ok v → uvarint_at (encode_uvarint v) p = Ok (v, len (encode_uvarint v)).
Proof. intros. rewrite <- (app_nil_r (encode_uvarint v)) at 1. by apply uvarint_at_head. Qed.

Lemma uvarint_at_inv data p v n :
  uvarint_at data p = Ok (v, n) → u64_ok v ∧ 0 ≤ p ∧ 1 ≤ n ≤ 10 ∧ p + n ≤ len data.
Proof.
  intros (s & Hs & Hd)%bind_Ok_inv.
  apply slice_from_inv in Hs. apply decode_uvarint_inv in Hd. lia.
Qed.

Lemma no_panic_uvarint_at data p : 0 ≤ p → p ≤ len data → no_panic (uvarint_at data p).
Proof.
  intros. apply no_panic_bind; [by apply no_panic_slice_from|].
  intros. apply no_panic_decode_uvarint.
Qed.

(** ** Path lemmas *)

Definition path_ok (path : list Z) : Prop :=
  Forall (λ hop, 0 ≤ hop < U64_MAX) path ∧ len path ≤ 1024.

Lemma encode_path_len path : 1 ≤ len (encode_path path).
Proof. unfold encode_path. len_lia. Qed.

Ltac len_fact t :=
  let T := type of t in
  lazymatch goal with _ : T |- _ => fail | _ => pose proof t end.
Ltac len_facts ::=
  repeat match goal with
  | |- context [len (encode_uvarint ?v)] => len_fact (encode_uvarint_len v)
  | _ : context [len (encode_uvarint ?v)] |- _ => len_fact (encode_uvarint_len v)
  | |- context [len (encode_path ?p)] => len_fact (encode_path_len p)
  | _ : context [len (encode_path ?p)] |- _ => len_fact (encode_path_len p)
  end.

Lemma encode_path_cons hop path :
  encode_path (hop :: path) = encode_uvarint (wrap64 (hop + 1)) ++ encode_path path.
Proof. unfold encode_path. cbn. by rewrite <- app_assoc. Qed.

Lemma encode_path_len_ub path : path_ok path → len (encode_path path) ≤ 10241.
Proof.
  intros [_ Hl]. enough (len (encode_path path) ≤ 10 * len path + 1) by lia. clear Hl.
  induction path as [|h p IH]; [done|].
  rewrite encode_path_cons. len_lia.
Qed.

Lemma decode_path_loop_encode path : ∀ fuel pre acc rest,
  Forall (λ hop, 0 ≤ hop < U64_MAX) path →
  len acc + len path ≤ 1024 → (length path < fuel)%nat →
  decode_path_loop fuel (pre ++ encode_path path ++ rest) (len pre) acc
  = Ok (acc ++ path, len pre + len (encode_path path)).
Proof.
  induction path as [|hop path IH]; intros fuel pre acc rest Hp Hlen Hfuel;
    (destruct fuel as [|fuel]; [cbn in Hfuel; lia|]); cbn [decode_path_loop].
  - test_false. rewrite uvarint_at_app, Z.sub_diag by lia.
    change (encode_path [] ++ rest) with (encode_uvarint 0 ++ rest).
    rewrite uvarint_at_head, bind_Ok by lia. cbn. by rewrite app_nil_r.
  - inversion_clear Hp as [|?? Hh Hp'].
    rewrite encode_path_cons, <- app_assoc.
    assert (wrap64 (hop + 1) = hop + 1) as -> by (apply Z.mod_small; unfold U64_MAX in *; lia).
    pose proof (encode_uvarint_len (hop + 1)). pose proof (encode_path_len path).
    rewrite len_cons in Hlen. test_false.
    rewrite uvarint_at_app, uvarint_at_head, bind_Ok by (unfold U64_MAX in *; lia).
    repeat test_false. rewrite app_assoc, <- len_app, IH.
    + rewrite Z.add_simpl_r, <- app_assoc. do 2 f_equal. len_lia.
    + done.
    + len_lia.
    + cbn in Hfuel; lia.
Qed.

Lemma encode_path_length path : (length path < length (encode_path path))%nat.
Proof.
  induction path as [|h p IH]; [unfold encode_path; cbn; lia|].
  rewrite encode_path_cons, length_app. pose proof (encode_uvarint_len (wrap64 (h + 1))).
  unfold len in *. cbn [length]. lia.
Qed.

Lemma decode_encode_path path rest :
  path_ok path → decode_path (encode_path path ++ rest) = Ok (path, len (encode_path path)).
Proof.
  intros [Hp Hl]. unfold decode_path.
  apply (decode_path_loop_encode path _ [] []); [done|done|].
  pose proof (encode_path_length path). rewrite length_app. lia.
Qed.

Lemma decode_path_loop_inv fuel data pos acc path n :
  0 ≤ pos → path_ok acc → decode_path_loop fuel data pos acc = Ok (path, n) →
  path_ok path ∧ pos + 1 ≤ n ≤ len data.
Proof.
  revert pos acc. induction fuel as [|fuel IH]; intros pos acc Hpos Hacc; [done|].
  cbn [decode_path_loop]. case_match; [done|].
  intros ([val c] & Hu & H')%bind_Ok_inv. apply uvarint_at_inv in Hu.
  case_match; [done|]. case_match eqn:Ev; [injection H' as <- <-; split; [done|lia]|].
  case_match eqn:El; [done|]. apply Z.leb_gt in El. apply Z.eqb_neq in Ev.
  apply IH in H' as [??]; [split; [done|lia]|lia|]. destruct Hacc as [Ha Hl]. split; [|len_lia].
  apply Forall_app; split; [done|]. apply Forall_singleton. unfold U64_MAX. lia.
Qed.

Lemma decode_path_inv data path n :
  decode_path data = Ok (path, n) → path_ok path ∧ 1 ≤ n ≤ len data.
Proof. intros H. by apply decode_path_loop_inv in H; [|lia|split; [apply Forall_nil|]]. Qed.

Lemma no_panic_decode_path_loop fuel data pos acc :
  0 ≤ pos ≤ len data → len data < pos + Z.of_nat fuel →
  no_panic (decode_path_loop fuel data pos acc).
Proof.
  revert pos acc. induction fuel as [|fuel IH]; intros pos acc Hpos Hf; [lia|].
  cbn [decode_path_loop]. case_match; [done|].
  apply no_panic_bind; [apply no_panic_uvarint_at; lia|].
  intros [val c] Hu%uvarint_at_inv. repeat (case_match; [done|]). apply IH; lia.
Qed.

Lemma no_panic_decode_path data : no_panic (decode_path data).
Proof. apply no_panic_decode_path_loop; unfold len; lia. Qed.

Lemma path_at_app x r p : len x ≤ p → path_at (x ++ r) p = path_at r (p - len x).
Proof. intros. unfold path_at. by rewrite slice_from_drop. Qed.
Lemma path_at_cons b r p : 1 ≤ p → path_at (b :: r) p = path_at r (p - 1).
Proof. intros. by apply (path_at_app [b]). Qed.
Lemma path_at_last path p :
  p = 0 → path_ok path → path_at (encode_path path) p = Ok (path, len (encode_path path)).
Proof.
  intros -> ?. unfold path_at. rewrite slice_from_0, bind_Ok.
  rewrite <- (app_nil_r (encode_path path)) at 1. by apply decode_encode_path.
Qed.
Lemma path_at_inv data p path n :
  path_at data p = Ok (path, n) → path_ok path ∧ 0 ≤ p ∧ 1 ≤ n ∧ p + n ≤ len data.
Proof.
  intros (s & Hs & Hd)%bind_Ok_inv.
  apply slice_from_inv in Hs. apply decode_path_inv in Hd as [??]. split; [done|lia].
Qed.
Lemma no_panic_path_at data p : 0 ≤ p → p ≤ len data → no_panic (path_at data p).
Proof.
  intros. apply no_panic_bind; [by apply no_panic_slice_from|].
  intros. apply no_panic_decode_path.
Qed.

(** ** Frame lemmas *)

(** The prefix loop stops exactly at the end of the length prefix. *)
Lemma read_len_loop_encode k v acc rest :
  0 ≤ v < bits7 (S k) → len acc + Z.of_nat (S k) ≤ 10 →
  read_len_loop acc (encode_loop (S k) v ++ rest) = Ok (acc ++ encode_loop (S k) v, rest).
Proof.
  revert v acc. induction k as [|k IH]; intros v acc Hv Hl;
    rewrite encode_loop_S by lia; rewrite bits7_S in Hv; case_match eqn:E.
  1,3: apply Z.eqb_eq, Z.div_small_iff in E; [|lia];
    cbn [app read_len_loop]; by rewrite cont_bit_clear by lia.
  - change (bits7 0) with 1 in Hv. apply Z.eqb_neq in E. rewrite Z.div_small in E; lia.
  - pose proof (Z.mod_pos_bound v 128 ltac:(lia)).
    cbn [app read_len_loop]. rewrite cont_bit_set by lia. test_false.
    rewrite IH; [by rewrite <- app_assoc| |len_lia].
    split; [apply Z.div_pos; lia|]. apply Z.div_lt_upper_bound; lia.
Qed.

Lemma read_write_frame data rest :
  len data ≤ MAX_FRAME →
  read_frame (encode_uvarint (len data) ++ data ++ rest) = Ok (data, rest).
Proof.
  intros Hl. len_pos. unfold MAX_FRAME in *. unfold read_frame, encode_uvarint.
  rewrite (read_len_loop_encode 9 _ []) by (done || (apply u64_bits7; lia)).
  rewrite bind_Ok.
  change (encode_loop 10 (len data)) with (encode_uvarint (len data)). cbn [app].
  rewrite <- (app_nil_r (encode_uvarint _)), decode_encode, bind_Ok by lia.
  case_match eqn:E; [by apply Z.eqb_eq, len_zero_nil in E as ->|].
  unfold MAX_FRAME. test_false. unfold read_exact. test_false.
  unfold len. rewrite Nat2Z.id. by rewrite take_app_length, drop_app_length.
Qed.

(** Batching is only an optimisation of writing the frames one by one. *)
Lemma write_frames_batched_foldl writer frames :
  write_frames_batched writer frames = foldl write_frame writer frames.
Proof.
  assert (∀ w buf, w ++ foldl (λ buf f, (buf ++ encode_uvarint (len f)) ++ f) buf frames
    = foldl write_frame (w ++ buf) frames) as H.
  { induction frames as [|f fs IH]; intros w buf; cbn [foldl]; [done|].
    rewrite IH. f_equal. unfold write_frame. by rewrite <- !app_assoc. }
  destruct frames as [|f [|g fs]]; try done.
  unfold write_frames_batched. by rewrite H, app_nil_r.
Qed.

Lemma foldl_write_frame writer frames :
  foldl write_frame writer frames
  = writer ++ concat (map (λ f, encode_uvarint (len f) ++ f) frames).
Proof.
  revert writer. induction frames as [|f fs IH]; intros w; cbn; [by rewrite app_nil_r|].
  rewrite IH. unfold write_frame. by rewrite <- !app_assoc.
Qed.

Lemma read_frames_concat frames rest :
  Forall (λ f, len f ≤ MAX_FRAME) frames →
  read_frames (length frames)
    (concat (map (λ f, encode_uvarint (len f) ++ f) frames) ++ rest) = Ok (frames, rest).
Proof.
  induction 1 as [|f fs Hf _ IH]; [done|]. cbn [length read_frames map concat].
  rewrite <- !app_assoc, read_write_frame by done. by rewrite bind_Ok, IH.
Qed.

(** ** Properties *)

(** A [u64] written by [encode_uvarint] is read back by [decode_uvarint],
    whatever follows it in the buffer, and exactly its bytes are consumed. *)
Theorem uvarint_roundtrip v rest :
  u64_ok v → decode_uvarint (encode_uvarint v ++ rest) = Ok (v, len (encode_uvarint v)).
Proof. apply decode_encode. Qed.

Lemma uvarint_roundtrip_witness :
  decode_uvarint (encode_uvarint U64_MAX ++ [u8 7]) = Ok (U64_MAX, 10).
Proof. apply (uvarint_roundtrip U64_MAX [u8 7]). unfold U64_MAX. lia. Defined.

(** [decode_uvarint] never panics, and what it accepts is a [u64] read from
    between one and ten bytes of the input, never shorter than the encoder's
    own output for that value (the encoder is canonical and minimal). *)
Theorem decode_uvarint_sound data :
  no_panic (decode_uvarint data) ∧
  ∀ v n, decode_uvarint data = Ok (v, n) →
    u64_ok v ∧ 1 ≤ n ≤ 10 ∧ n ≤ len data ∧ len (encode_uvarint v) ≤ n.
Proof.
  split; [apply no_panic_decode_uvarint|]. intros v n H.
  pose proof (decode_uvarint_inv _ _ _ H) as (Hv & Hn & ?).
  split_and!; try lia. apply (decode_loop_bound _ 0) in H; [|lia..].
  destruct (Z.to_nat n) as [|j] eqn:E; [lia|].
  replace n with (Z.of_nat (S j)) in * by lia.
  apply encode_loop_short. unfold bits7. lia.
Qed.

(** A source route of at most 1024 hops, each below [u64::MAX], is read back
    by [decode_path] from any buffer that starts with its encoding. *)
Theorem path_roundtrip path rest :
  path_ok path → decode_path (encode_path path ++ rest) = Ok (path, len (encode_path path)).
Proof. apply decode_encode_path. Qed.

Lemma path_roundtrip_witness :
  decode_path (encode_path [0; 300; 7] ++ [u8 9]) = Ok ([0; 300; 7], 5).
Proof.
  apply (path_roundtrip [0; 300; 7] [u8 9]). split; [|done].
  repeat constructor; by vm_compute.
Defined.

(** Frames written in one coalesced buffer by [write_frames_batched] are read
    back one by one by [read_frame], in order, leaving the stream exactly after
    the last of them; the batch is the concatenation of single [write_frame]s. *)
Theorem frame_stream_roundtrip writer frames rest :
  Forall (λ f, len f ≤ MAX_FRAME) frames →
  write_frames_batched writer frames = foldl write_frame writer frames ∧
  read_frames (length frames) (write_frames_batched [] frames ++ rest) = Ok (frames, rest).
Proof.
  intros H. rewrite !write_frames_batched_foldl, (foldl_write_frame []).
  split; [done|]. by apply read_frames_concat.
Qed.

Lemma frame_stream_roundtrip_witness :
  read_frames 3 (write_frames_batched [] [[u8 1; u8 2]; []; fill 200 (u8 3)] ++ [u8 4])
  = Ok ([[u8 1; u8 2]; []; fill 200 (u8 3)], [u8 4]).
Proof.
  apply (frame_stream_roundtrip [] [[u8 1; u8 2]; []; fill 200 (u8 3)] [u8 4]).
  repeat constructor; by vm_compute.
Defined.
