(* ===== verification/Cuckoo.v ===== *)
(** * The cuckoo filter of [src/cuckoo.rs]

    512 buckets of 4 slots of 16-bit fingerprints, with partial-key cuckoo
    hashing.  The abstract contents of a filter is the multiset of its
    entries ([items]): an entry is a fingerprint with the (unordered) pair of
    buckets it may sit in.  The operations refine multiset insertion, removal
    and membership; what the kick cascades may lose is explicit.

    The random draws of [rand::thread_rng] are arguments: [coin] for
    [gen_bool(0.5)] and a function for the successive [gen_range(0..4)]. *)

From stdpp Require Import fin.
From S2P Require Import Prelude Crypto.

(** ** Constants and data *)

Definition NUM_BUCKETS : nat := 512.
Definition SLOTS_PER_BUCKET : nat := 4.
Definition MAX_KICKS : nat := 500.
Definition MERGE_KICKS : nat := 32.
Definition FILTER_BYTES : Z := 4096.

Module CuckooFilter.

(** A slot is a [u16]; 0 is the empty slot. *)
Abbreviation bucket := (list Z).

Record t := mk { buckets : list bucket; count : Z }.

Definition new : t :=
  {| buckets := replicate NUM_BUCKETS (replicate SLOTS_PER_BUCKET 0); count := 0 |}.

(** ** Hashing *)

Section Filter.
Context `{Blake2}.

Definition fingerprint (key : bytes) : Z :=
  let result := blake2b 8 key in
  let fp := from_le_bytes (take 2 result) in
  if fp =? 0 then 1 else fp.

Definition bucket1 (key : bytes) : nat :=
  let result := blake2b 8 (bstr "b1" ++ key) in
  let v := from_le_bytes (take 8 result) in
  Z.to_nat (v mod Z.of_nat NUM_BUCKETS).

Definition bucket2 (b1 : nat) (fp : Z) : nat :=
  let result := blake2b 8 (bstr "b2" ++ to_le_bytes 2 fp) in
  let v := from_le_bytes (take 8 result) in
  let offset := Z.land v (Z.of_nat NUM_BUCKETS - 1) in
  Z.to_nat (Z.land (Z.lxor (Z.of_nat b1) offset) (Z.of_nat NUM_BUCKETS - 1)).

(** ** Slots *)

(** [insert_slot] and [remove_slot] return whether they wrote, with the bucket
    as they leave it. *)
Fixpoint insert_slot (b : bucket) (fp : Z) : bool * bucket :=
  match b with
  | [] => (false, [])
  | slot :: b =>
      if slot =? 0 then (true, fp :: b)
      else let '(r, b) := insert_slot b fp in (r, slot :: b)
  end.

Fixpoint remove_slot (b : bucket) (fp : Z) : bool * bucket :=
  match b with
  | [] => (false, [])
  | slot :: b =>
      if slot =? fp then (true, 0 :: b)
      else let '(r, b) := remove_slot b fp in (r, slot :: b)
  end.

Definition contains_slot (b : bucket) (fp : Z) : bool :=
  existsb (Z.eqb fp) b.

(** ** Operations *)

(** [Self::insert_slot(&mut self.buckets[i], fp)] followed by [count += 1] when
    it succeeded. *)
Definition insert_at (f : t) (i : nat) (fp : Z) : bool * t :=
  let '(ok, b) := insert_slot (buckets f !!! i) fp in
  (ok, {| buckets := <[i := b]> (buckets f);
          count := if ok then count f + 1 else count f |}).

(** [std::mem::swap(&mut self.buckets[i][j], &mut cur_fp)] *)
Definition swap_at (f : t) (i j : nat) (cur_fp : Z) : Z * t :=
  let b := buckets f !!! i in
  (b !!! j, {| buckets := <[i := <[j := cur_fp]> b]> (buckets f); count := count f |}).

(** The kick cascade of [add] and of [merge], [n] kicks at most. *)
Fixpoint kick_loop (n : nat) (rng : nat → fin 4) (f : t)
    (cur_bucket : nat) (cur_fp : Z) : bool * t :=
  match n with
  | O => (false, f)
  | S n =>
      let slot_idx := fin_to_nat (rng n) in
      let '(cur_fp, f) := swap_at f cur_bucket slot_idx cur_fp in
      let alt := bucket2 cur_bucket cur_fp in
      let '(ok, f) := insert_at f alt cur_fp in
      if ok then (true, f) else kick_loop n rng f alt cur_fp
  end.

Definition add (coin : bool) (rng : nat → fin 4) (f : t) (key : bytes)
    : bool * t :=
  let fp := fingerprint key in
  let b1 := bucket1 key in
  let b2 := bucket2 b1 fp in
  let '(ok, f) := insert_at f b1 fp in
  if ok then (true, f) else
  let '(ok, f) := insert_at f b2 fp in
  if ok then (true, f) else
  kick_loop MAX_KICKS rng f (if coin then b1 else b2) fp.

(** [remove_slot] on bucket [i] followed by [count -= 1] when it succeeded. *)
Definition remove_at (f : t) (i : nat) (fp : Z) : bool * t :=
  let '(ok, b) := remove_slot (buckets f !!! i) fp in
  (ok, {| buckets := <[i := b]> (buckets f);
          count := if ok then count f - 1 else count f |}).

Definition remove (f : t) (key : bytes) : bool * t :=
  let fp := fingerprint key in
  let b1 := bucket1 key in
  let b2 := bucket2 b1 fp in
  let '(ok, f) := remove_at f b1 fp in
  if ok then (true, f) else remove_at f b2 fp.

Definition contains (f : t) (key : bytes) : bool :=
  let fp := fingerprint key in
  let b1 := bucket1 key in
  let b2 := bucket2 b1 fp in
  contains_slot (buckets f !!! b1) fp || contains_slot (buckets f !!! b2) fp.

(** The body of [merge]'s loops for the fingerprint [fp] of bucket [i]. *)
Definition merge_slot (rng : nat → fin 4) (f : t) (i : nat) (fp : Z)
    : t :=
  if fp =? 0 then f else
  let alt := bucket2 i fp in
  if contains_slot (buckets f !!! i) fp || contains_slot (buckets f !!! alt) fp then f else
  let '(ok, f) := insert_at f i fp in
  if ok then f else
  let '(ok, f) := insert_at f alt fp in
  if ok then f else
  snd (kick_loop MERGE_KICKS rng f i fp).

(** The slots of a filter in the order of the loops, with their bucket. *)
Definition slots (f : t) : list (nat * Z) :=
  concat (imap (λ i b, map (pair i) b) (buckets f)).

(** [merge]; the draws of a cascade are those of its step in the walk. *)
Definition merge (rng : nat → nat → fin 4) (f other : t) : t :=
  snd (foldl (λ '(k, f) '(i, fp), (S k, merge_slot (rng k) f i fp)) (O, f) (slots other)).

End Filter.

(** ** Wire form *)

(** [out[off..off + 2]] for [off = (i * 4 + j) * 2], in increasing order. *)
Definition encode (f : t) : bytes :=
  concat (map (λ b, concat (map (to_le_bytes 2) b)) (buckets f)).

Definition decode (data : bytes) : t :=
  let bs := map (λ i, map (λ j,
      let off := ((i * SLOTS_PER_BUCKET + j) * 2)%nat in
      from_le_bytes (take 2 (drop off data))) (seq 0 SLOTS_PER_BUCKET)) (seq 0 NUM_BUCKETS) in
  {| buckets := bs;
     count := len (filter (λ v, v ≠ 0) (concat bs)) |}.

(** ** Abstract contents *)

Section Items.
Context `{Blake2}.

(** The entry of a fingerprint found in bucket [i]: the pair of its buckets is
    named by the smaller one. *)
Definition canon (i : nat) (fp : Z) : Z * nat := (fp, Nat.min i (bucket2 i fp)).

Definition bucket_items (i : nat) (b : bucket) : list (Z * nat) :=
  canon i <$> filter (λ v, v ≠ 0) b.

Definition items (f : t) : list (Z * nat) :=
  concat (imap bucket_items (buckets f)).

(** The entry of a key. *)
Definition entry (key : bytes) : Z * nat := canon (bucket1 key) (fingerprint key).

Definition full (b : bucket) : Prop := Forall (λ v, v ≠ 0) b.

Definition bucket_wf (b : bucket) : Prop :=
  length b = SLOTS_PER_BUCKET ∧ Forall (λ v, u16_ok v) b.

Record filter_wf (f : t) : Prop := {
  wf_len : length (buckets f) = NUM_BUCKETS;
  wf_buckets : Forall bucket_wf (buckets f);
  wf_count : count f = len (items f) }.

(** The cascades never make room in a full bucket. *)
Definition keeps_full (f f' : t) : Prop :=
  ∀ i, full (buckets f !!! i) → full (buckets f' !!! i).

(** *** Hashing *)

Lemma fingerprint_range key : 0 < fingerprint key < 2 ^ 16.
Proof.
  unfold fingerprint. pose proof (from_le_range (take 2 (blake2b 8 key))) as [Hl Hu].
  assert (from_le_bytes (take 2 (blake2b 8 key)) < 2 ^ 16).
  { eapply Z.lt_le_trans; [exact Hu|]. apply Z.pow_le_mono_r; [lia|]. len_lia. }
  case_match eqn:E; [lia|]. apply Z.eqb_neq in E. lia.
Qed.

Lemma bucket1_lt key : (bucket1 key < NUM_BUCKETS)%nat.
Proof.
  unfold bucket1. set (v := from_le_bytes _).
  pose proof (Z.mod_pos_bound v 512 ltac:(lia)). unfold NUM_BUCKETS in *. lia.
Qed.

Lemma mask_mod z : Z.land z (Z.of_nat NUM_BUCKETS - 1) = z mod 2 ^ 9.
Proof. by apply (Z.land_ones z 9). Qed.

Lemma bucket2_lt b fp : (bucket2 b fp < NUM_BUCKETS)%nat.
Proof.
  unfold bucket2. rewrite !mask_mod.
  match goal with |- context [Z.to_nat (?x mod _)] =>
    pose proof (Z.mod_pos_bound x (2 ^ 9) ltac:(lia)) end.
  unfold NUM_BUCKETS. lia.
Qed.

(** The alternate bucket of the alternate bucket is the bucket itself. *)
Lemma bucket2_involutive b fp : (b < NUM_BUCKETS)%nat → bucket2 (bucket2 b fp) fp = b.
Proof.
  intros Hb. unfold bucket2. set (off := Z.land (from_le_bytes _) _).
  assert (0 ≤ off < 2 ^ 9) as Ho by (unfold off; rewrite mask_mod; apply Z.mod_pos_bound; lia).
  assert (∀ x, 0 ≤ x < 2 ^ 9 → 0 ≤ Z.lxor x off < 2 ^ 9) as Hx.
  { intros x Hx. assert (0 ≤ Z.lxor x off) by (apply Z.lxor_nonneg; lia). split; [done|].
    destruct (decide (Z.lxor x off = 0)) as [->|]; [done|]. apply Z.log2_lt_pow2; [lia|].
    eapply Z.le_lt_trans; [apply Z.log2_lxor; lia|].
    apply Z.max_lub_lt; apply log2_lt_pow2'; lia. }
  unfold NUM_BUCKETS in Hb. rewrite !mask_mod.
  rewrite (Z.mod_small (Z.lxor (Z.of_nat b) off)) by (apply Hx; lia).
  rewrite Z2Nat.id by (apply Hx; lia).
  rewrite Z.lxor_assoc, Z.lxor_nilpotent, Z.lxor_0_r.
  rewrite Z.mod_small by lia. by rewrite Nat2Z.id.
Qed.

Lemma canon_bucket2 b fp : (b < NUM_BUCKETS)%nat → canon (bucket2 b fp) fp = canon b fp.
Proof. intros. unfold canon. rewrite bucket2_involutive by done. f_equal. lia. Qed.

(** *** Buckets *)

Lemma bucket_items_perm i b b' : b ≡ₚ b' → bucket_items i b ≡ₚ bucket_items i b'.
Proof. intros Hp. unfold bucket_items. by rewrite Hp. Qed.

Lemma bucket_items_cons i v b :
  v ≠ 0 → bucket_items i (v :: b) = canon i v :: bucket_items i b.
Proof. intros. unfold bucket_items. by rewrite filter_cons_True. Qed.

Lemma bucket_items_zero i b : bucket_items i (0 :: b) = bucket_items i b.
Proof. unfold bucket_items. rewrite filter_cons_False; naive_solver. Qed.

Lemma insert_slot_spec b fp ok b' :
  insert_slot b fp = (ok, b') →
  if ok then ∃ r, b ≡ₚ 0 :: r ∧ b' ≡ₚ fp :: r else b' = b ∧ full b.
Proof.
  revert ok b'. induction b as [|s b IH]; intros ok b'; cbn.
  - intros [= <- <-]. by split; [|constructor].
  - case_match eqn:E; [apply Z.eqb_eq in E as ->; intros [= <- <-]; by exists b|].
    destruct (insert_slot b fp) as [r c]. intros [= <- <-].
    specialize (IH r c eq_refl). apply Z.eqb_neq in E. destruct r.
    + destruct IH as (q & Hb & Hc). exists (s :: q). rewrite Hb, Hc. split; apply perm_swap.
    + destruct IH as [-> ?]. split; [done|]. by constructor.
Qed.

Lemma remove_slot_spec b fp ok b' :
  remove_slot b fp = (ok, b') →
  if ok then ∃ r, b ≡ₚ fp :: r ∧ b' ≡ₚ 0 :: r else b' = b ∧ fp ∉ b.
Proof.
  revert ok b'. induction b as [|s b IH]; intros ok b'; cbn.
  - intros [= <- <-]. split; [done|]. apply not_elem_of_nil.
  - case_match eqn:E; [apply Z.eqb_eq in E as ->; intros [= <- <-]; by exists b|].
    destruct (remove_slot b fp) as [r c]. intros [= <- <-].
    specialize (IH r c eq_refl). apply Z.eqb_neq in E. destruct r.
    + destruct IH as (q & Hb & Hc). exists (s :: q). rewrite Hb, Hc. split; apply perm_swap.
    + destruct IH as [-> ?]. split; [done|]. by apply not_elem_of_cons.
Qed.

Lemma contains_slot_spec b fp : contains_slot b fp = true ↔ fp ∈ b.
Proof.
  unfold contains_slot. rewrite existsb_exists. setoid_rewrite Z.eqb_eq.
  rewrite list_elem_of_In. split; [by intros (? & ? & ->)|]. intros ?. by exists fp.
Qed.

(** Replacing slot [j] trades its fingerprint for the new one. *)
Lemma swap_slot_perm (b : bucket) j fp :
  (j < length b)%nat → b !!! j :: <[j := fp]> b ≡ₚ fp :: b.
Proof.
  intros Hj. destruct (lookup_lt_is_Some_2 b j Hj) as [v Hv].
  rewrite (list_lookup_total_correct _ _ _ Hv), insert_take_drop by done.
  rewrite <- (take_drop_middle b j v Hv) at 3. by rewrite <- !Permutation_middle, perm_swap.
Qed.

(** *** One bucket of a filter *)

(** Replacing bucket [i] replaces its share of the items. *)
Lemma items_update f i b' c :
  (i < length (buckets f))%nat → ∃ rest,
    items f ≡ₚ bucket_items i (buckets f !!! i) ++ rest ∧
    items {| buckets := <[i := b']> (buckets f); count := c |} ≡ₚ bucket_items i b' ++ rest.
Proof.
  intros Hi. destruct (lookup_lt_is_Some_2 (buckets f) i Hi) as [b Hb].
  rewrite (list_lookup_total_correct _ _ _ Hb).
  exists (concat (imap bucket_items (take i (buckets f)))
    ++ concat (imap (bucket_items ∘ (Nat.add i) ∘ S) (drop (S i) (buckets f)))).
  assert (∀ x, concat (imap bucket_items (take i (buckets f) ++ x :: drop (S i) (buckets f)))
    ≡ₚ bucket_items i x ++ concat (imap bucket_items (take i (buckets f)))
      ++ concat (imap (bucket_items ∘ (Nat.add i) ∘ S) (drop (S i) (buckets f)))) as Hx.
  { intros x. rewrite imap_app, concat_app. cbn.
    rewrite length_take_le, Nat.add_0_r by lia.
    rewrite !app_assoc. apply Permutation_app; [apply Permutation_app_comm|done]. }
  split; unfold items; cbn.
  - rewrite <- Hx. by rewrite take_drop_middle.
  - rewrite <- Hx. by rewrite insert_take_drop.
Qed.

Lemma wf_lookup f i :
  filter_wf f → (i < NUM_BUCKETS)%nat → bucket_wf (buckets f !!! i).
Proof.
  intros [Hl Hb _] Hi. destruct (lookup_lt_is_Some_2 (buckets f) i) as [b E]; [lia|].
  rewrite (list_lookup_total_correct _ _ _ E). by eapply Forall_lookup_1.
Qed.

Lemma bucket_wf_perm b b' v w :
  u16_ok w → bucket_wf b → (∃ r, b ≡ₚ v :: r ∧ b' ≡ₚ w :: r) → bucket_wf b'.
Proof.
  intros Hw [Hl Hf] (r & E & E'). split.
  - rewrite E in Hl. by rewrite E'.
  - rewrite E in Hf. rewrite E'. inversion_clear Hf. by constructor.
Qed.

Lemma filter_wf_update f i b' c :
  filter_wf f → (i < NUM_BUCKETS)%nat → bucket_wf b' →
  c = count f + (len (bucket_items i b') - len (bucket_items i (buckets f !!! i))) →
  filter_wf {| buckets := <[i := b']> (buckets f); count := c |}.
Proof.
  intros [Hl Hb Hc] Hi Hb' ->. split; cbn.
  - by rewrite length_insert.
  - by apply Forall_insert.
  - destruct (items_update f i b' 0) as (rest & E & E'); [lia|].
    apply Permutation_length in E, E'. rewrite Hc. unfold len, items in *. cbn in *.
    rewrite length_app in E, E'. lia.
Qed.

Lemma keeps_full_update f i b' c :
  (full (buckets f !!! i) → full b') →
  keeps_full f {| buckets := <[i := b']> (buckets f); count := c |}.
Proof.
  intros Hb j Hj. cbn. destruct (decide (i = j)) as [<-|].
  - destruct (decide (i < length (buckets f))%nat).
    + rewrite list_lookup_total_insert_eq by done. auto.
    + by rewrite list_insert_ge by lia.
  - by rewrite list_lookup_total_insert_ne.
Qed.

Lemma insert_at_spec f i fp ok f' :
  filter_wf f → (i < NUM_BUCKETS)%nat → 0 < fp < 2 ^ 16 →
  insert_at f i fp = (ok, f') →
  filter_wf f' ∧ keeps_full f f' ∧
  if ok then items f' ≡ₚ canon i fp :: items f else f' = f ∧ full (buckets f !!! i).
Proof.
  intros Hwf Hi Hfp. unfold insert_at. destruct (insert_slot _ fp) as [r b'] eqn:E.
  pose proof (wf_lookup f i Hwf Hi) as Hb. pose proof (wf_len f Hwf).
  apply insert_slot_spec in E. intros [= <- <-]. destruct r.
  - destruct E as (q & E1 & E2).
    assert (bucket_items i b' ≡ₚ canon i fp :: bucket_items i (buckets f !!! i)) as Hp.
    { by rewrite (bucket_items_perm i _ _ E2), (bucket_items_perm i _ _ E1),
        bucket_items_zero, bucket_items_cons by lia. }
    split_and!.
    + apply filter_wf_update; [done..| |].
      * eapply bucket_wf_perm; [|done|by exists q]. lia.
      * apply Permutation_length in Hp. unfold len. rewrite Hp. cbn [length]. lia.
    + apply keeps_full_update. unfold full. rewrite E1. intros [? _]%Forall_cons. done.
    + destruct (items_update f i b' (count f + 1)) as (rest & I1 & I2); [lia|].
      by rewrite I2, Hp, I1.
  - destruct E as [-> Hfull]. rewrite list_insert_id'; [|by intros; apply list_lookup_lookup_total_lt].
    replace {| buckets := _; count := _ |} with f by by destruct f.
    split_and!; [done|by intros ?|done..].
Qed.

Lemma swap_at_spec f i j fp v f' :
  filter_wf f → (i < NUM_BUCKETS)%nat → (j < SLOTS_PER_BUCKET)%nat →
  full (buckets f !!! i) → 0 < fp < 2 ^ 16 → swap_at f i j fp = (v, f') →
  filter_wf f' ∧ keeps_full f f' ∧ full (buckets f' !!! i) ∧ 0 < v < 2 ^ 16 ∧
  canon i v :: items f' ≡ₚ canon i fp :: items f.
Proof.
  intros Hwf Hi Hj Hfull Hfp. unfold swap_at. intros [= <- <-].
  pose proof (wf_lookup f i Hwf Hi) as [Hbl Hbf]. pose proof (wf_len f Hwf).
  set (b := buckets f !!! i) in *. set (b' := <[j:=fp]> b).
  pose proof (swap_slot_perm b j fp ltac:(lia)) as Hp. fold b' in Hp.
  assert (full b') as Hfull' by (apply Forall_insert; [done|]; lia).
  assert (u16_ok (b !!! j) ∧ b !!! j ≠ 0) as [Hv Hv0].
  { destruct (lookup_lt_is_Some_2 b j) as [w Hw]; [lia|].
    rewrite (list_lookup_total_correct _ _ _ Hw).
    split; [by eapply (Forall_lookup_1 _ _ _ _ Hbf)|by eapply (Forall_lookup_1 _ _ _ _ Hfull)]. }
  assert (canon i (b !!! j) :: bucket_items i b' ≡ₚ canon i fp :: bucket_items i b) as Hit.
  { rewrite <- !bucket_items_cons by lia. by apply bucket_items_perm. }
  split_and!; try lia.
  - apply filter_wf_update; [done..| |].
    + split; [by unfold b'; rewrite length_insert|]. apply Forall_insert; [done|lia].
    + apply Permutation_length in Hit. cbn in Hit. unfold len. fold b. lia.
  - apply keeps_full_update. done.
  - cbn. by rewrite list_lookup_total_insert_eq by lia.
  - destruct (items_update f i b' (count f)) as (rest & I1 & I2); [lia|].
    fold b in I1. rewrite I1, I2. by rewrite !app_comm_cons, Hit.
Qed.

Lemma kick_loop_spec n rng f cur fp ok f' :
  filter_wf f → (cur < NUM_BUCKETS)%nat → full (buckets f !!! cur) → 0 < fp < 2 ^ 16 →
  kick_loop n rng f cur fp = (ok, f') →
  filter_wf f' ∧ keeps_full f f' ∧ full (buckets f' !!! cur) ∧
  if ok then items f' ≡ₚ canon cur fp :: items f
  else ∃ lost, lost :: items f' ≡ₚ canon cur fp :: items f.
Proof.
  revert f cur fp. induction n as [|n IH]; intros f cur fp Hwf Hc Hfull Hfp; cbn [kick_loop].
  { intros [= <- <-]. split_and!; [done|by intros ?|done|]. by eexists. }
  destruct (swap_at _ _ _ _) as [v f1] eqn:E1.
  apply swap_at_spec in E1 as (Hwf1 & Hk1 & Hfull1 & Hv & Hi1);
    [|done|done|apply fin_to_nat_lt|done..].
  destruct (insert_at _ _ _) as [r f2] eqn:E2.
  apply insert_at_spec in E2 as (Hwf2 & Hk2 & H2); [|done|apply bucket2_lt|done].
  destruct r.
  - intros [= <- <-]. split_and!; [done|by intros ? ?%Hk1%Hk2|by apply Hk2|].
    by rewrite H2, canon_bucket2.
  - destruct H2 as [-> Hf2]. intros E3.
    apply IH in E3 as (Hwf3 & Hk3 & _ & H3); [|done|apply bucket2_lt|done..].
    rewrite canon_bucket2 in H3 by done.
    split_and!; [done|by intros ? ?%Hk1%Hk3|by apply Hk3|].
    destruct ok; [by rewrite H3|]. destruct H3 as [lost H3]. exists lost. by rewrite H3.
Qed.

Lemma remove_at_spec f i fp ok f' :
  filter_wf f → (i < NUM_BUCKETS)%nat → 0 < fp < 2 ^ 16 →
  remove_at f i fp = (ok, f') →
  filter_wf f' ∧ 
  if ok then items f ≡ₚ canon i fp :: items f' else f' = f ∧ fp ∉ buckets f !!! i.
Proof.
  intros Hwf Hi Hfp. unfold remove_at. destruct (remove_slot _ fp) as [r b'] eqn:E.
  pose proof (wf_lookup f i Hwf Hi) as Hb. pose proof (wf_len f Hwf).
  apply remove_slot_spec in E. intros [= <- <-]. destruct r.
  - destruct E as (q & E1 & E2).
    assert (bucket_items i (buckets f !!! i) ≡ₚ canon i fp :: bucket_items i b') as Hp.
    { by rewrite (bucket_items_perm i _ _ E2), (bucket_items_perm i _ _ E1),
        bucket_items_zero, bucket_items_cons by lia. }
    split.
    + apply filter_wf_update; [done..| |].
      * eapply bucket_wf_perm; [|done|by exists q]. lia.
      * apply Permutation_length in Hp. unfold len. rewrite Hp. cbn [length]. lia.
    + destruct (items_update f i b' (count f - 1)) as (rest & I1 & I2); [lia|].
      by rewrite I2, I1, Hp.
  - destruct E as [-> Hfull]. rewrite list_insert_id'; [|by intros; apply list_lookup_lookup_total_lt].
    replace {| buckets := _; count := _ |} with f by by destruct f. done.
Qed.

(** An entry is stored exactly when its fingerprint is in one of its buckets. *)
Lemma elem_of_items f i fp :
  filter_wf f → (i < NUM_BUCKETS)%nat → fp ≠ 0 →
  canon i fp ∈ items f ↔ fp ∈ buckets f !!! i ∨ fp ∈ buckets f !!! bucket2 i fp.
Proof.
  intros Hwf Hi Hfp. pose proof (wf_len f Hwf) as Hl.
  assert (∀ e, e ∈ items f ↔ ∃ k b, buckets f !! k = Some b ∧ e ∈ bucket_items k b) as Hin.
  { intros e. unfold items. rewrite elem_of_concat. split.
    - intros (l & He & (k & b & -> & Hk)%elem_of_lookup_imap_1). eauto.
    - intros (k & b & Hk & He). exists (bucket_items k b). split; [done|].
      by eapply elem_of_lookup_imap_2. }
  assert (∀ k, (k < NUM_BUCKETS)%nat → fp ∈ buckets f !!! k → canon k fp ∈ items f) as Hput.
  { intros k Hk Hk'. apply Hin. exists k, (buckets f !!! k).
    split; [apply list_lookup_lookup_total_lt; lia|].
    apply list_elem_of_fmap. exists fp. split; [done|]. by apply list_elem_of_filter. }
  split.
  - intros (k & b & Hk & (v & E & [_ Hv]%list_elem_of_filter)%list_elem_of_fmap)%Hin.
    apply lookup_lt_Some in Hk as Hkl. apply list_lookup_total_correct in Hk. subst b.
    injection E as <- Emin. pose proof (bucket2_involutive k fp ltac:(lia)) as Ek.
    pose proof (bucket2_involutive i fp Hi) as Ei.
    assert (k = i ∨ k = bucket2 i fp) as [->| ->]; [|by left|by right].
    destruct (Nat.min_dec i (bucket2 i fp)), (Nat.min_dec k (bucket2 k fp)); (left + right); congruence.
  - intros [?|?]; [by apply Hput|]. rewrite <- canon_bucket2 by done.
    apply Hput; [apply bucket2_lt|done].
Qed.


Lemma contains_items f key :
  filter_wf f → contains f key = true ↔ entry key ∈ items f.
Proof.
  intros Hwf. unfold contains, entry. pose proof (fingerprint_range key).
  rewrite elem_of_items by (done || apply bucket1_lt || lia).
  by rewrite orb_true_iff, !contains_slot_spec.
Qed.

(** *** Merging *)

Lemma elem_of_slots f e :
  e ∈ items f ↔ ∃ i fp, (i, fp) ∈ slots f ∧ fp ≠ 0 ∧ e = canon i fp.
Proof.
  unfold items, slots. rewrite elem_of_concat. setoid_rewrite elem_of_concat. split.
  - intros (l & He & (i & b & -> & Hb)%elem_of_lookup_imap_1).
    apply list_elem_of_fmap in He as (fp & -> & [??]%list_elem_of_filter).
    exists i, fp. split; [|done]. exists (pair i <$> b).
    split; [by apply list_elem_of_fmap_2|].
    by apply (elem_of_lookup_imap_2 (λ i b, map (pair i) b)).
  - intros (i & fp & (l & Hl & (k & b & -> & Hb)%elem_of_lookup_imap_1) & Hfp & ->).
    apply (list_elem_of_fmap (pair k)) in Hl as (v & [= -> ->] & Hin).
    exists (bucket_items k b). split; [|by apply elem_of_lookup_imap_2].
    apply list_elem_of_fmap. exists v. split; [done|]. by apply list_elem_of_filter.
Qed.

Lemma slots_wf f i fp : filter_wf f → (i, fp) ∈ slots f → (i < NUM_BUCKETS)%nat ∧ u16_ok fp.
Proof.
  intros Hwf (l & Hl & (k & b & -> & Hb)%elem_of_lookup_imap_1)%elem_of_concat.
  apply (list_elem_of_fmap (pair k)) in Hl as (? & [= -> ->] & Hin).
  pose proof (Forall_lookup_1 _ _ _ _ (wf_buckets f Hwf) Hb) as [_ Hb'].
  apply lookup_lt_Some in Hb. rewrite (wf_len f Hwf) in Hb.
  split; [done|]. by eapply Forall_forall in Hb'.
Qed.

(** What a part of a merge may do: [added] entries go in, [lost] ones drop out,
    and the latter only where a full bucket stays behind. *)
Definition merges (f f' : t) (added lost : list (Z * nat)) : Prop :=
  filter_wf f' ∧ keeps_full f f' ∧ items f ++ added ≡ₚ items f' ++ lost ∧
  (lost ≠ [] → ∃ i, (i < NUM_BUCKETS)%nat ∧ full (buckets f' !!! i)).

Lemma merge_slot_spec rng f i fp :
  filter_wf f → (i < NUM_BUCKETS)%nat → u16_ok fp →
  ∃ added lost, merges f (merge_slot rng f i fp) added lost ∧
    (added = [] ∨ fp ≠ 0 ∧ added = [canon i fp]) ∧
    (fp ≠ 0 → canon i fp ∈ items (merge_slot rng f i fp) ++ lost).
Proof.
  intros Hwf Hi Hfp. unfold merge_slot.
  assert (merges f f [] []) as Hrefl by by split_and!; [|intros ?|rewrite !app_nil_r|].
  destruct (Z.eqb_spec fp 0) as [->|Hz]; [exists [], []; split_and!; [done|by left|done]|].
  case_match eqn:Ec.
  { exists [], []. split_and!; [done|by left|]. intros _. rewrite app_nil_r.
    apply elem_of_items; [done..|]. by apply orb_true_iff in Ec as [?%contains_slot_spec|?%contains_slot_spec]; [left|right]. }
  destruct (insert_at f i fp) as [r1 f1] eqn:E1.
  apply insert_at_spec in E1 as (Hwf1 & Hk1 & H1); [|done|done|lia]. destruct r1.
  { exists [canon i fp], []. split_and!; [split_and!; try done|by right|].
    - rewrite H1, app_nil_r. by rewrite <- Permutation_cons_append.
    - intros _. rewrite H1, app_nil_r. apply list_elem_of_here. }
  destruct H1 as [-> Hfull1].
  destruct (insert_at f _ fp) as [r2 f2] eqn:E2.
  apply insert_at_spec in E2 as (Hwf2 & Hk2 & H2); [|done|apply bucket2_lt|lia]. destruct r2.
  { rewrite canon_bucket2 in H2 by done.
    exists [canon i fp], []. split_and!; [split_and!; try done|by right|].
    - rewrite H2, app_nil_r. by rewrite <- Permutation_cons_append.
    - intros _. rewrite H2, app_nil_r. apply list_elem_of_here. }
  destruct H2 as [-> Hfull2].
  destruct (kick_loop _ _ _ _ _) as [r3 f3] eqn:E3. cbn.
  apply kick_loop_spec in E3 as (Hwf3 & Hk3 & Hfull3 & H3); [|done|done|done|lia].
  assert (∃ lost, canon i fp :: items f ≡ₚ items f3 ++ lost) as [lost Hl].
  { destruct r3; [exists []; by rewrite app_nil_r|]. destruct H3 as [l H3].
    exists [l]. by rewrite <- H3, <- Permutation_cons_append. }
  exists [canon i fp], lost. split_and!; [split_and!; try done|by right|].
  - by rewrite <- Hl, <- Permutation_cons_append.
  - intros _. by exists i.
  - intros _. rewrite <- Hl. apply list_elem_of_here.
Qed.

Lemma merge_loop_spec rng l : ∀ k f,
  filter_wf f → (∀ i fp, (i, fp) ∈ l → (i < NUM_BUCKETS)%nat ∧ u16_ok fp) →
  let f' := snd (foldl (λ '(k, f) '(i, fp), (S k, merge_slot (rng k) f i fp)) (k, f) l) in
  ∃ added lost, merges f f' added lost ∧
    (∀ e, e ∈ added → ∃ i fp, (i, fp) ∈ l ∧ fp ≠ 0 ∧ e = canon i fp) ∧
    (∀ i fp, (i, fp) ∈ l → fp ≠ 0 → canon i fp ∈ items f' ++ lost).
Proof.
  induction l as [|[i fp] l IH]; intros k f Hwf Hl; cbn [foldl].
  { exists [], []. split_and!; [|by intros ? ?%elem_of_nil|by intros ?? ?%elem_of_nil].
    by split_and!; [|intros ?|rewrite !app_nil_r|]. }
  destruct (Hl i fp) as [Hi Hfp]; [apply list_elem_of_here|].
  destruct (merge_slot_spec (rng k) f i fp Hwf Hi Hfp)
    as (a1 & l1 & (Hwf1 & Hk1 & Hp1 & Hn1) & Ha1 & Hin1).
  set (f1 := merge_slot (rng k) f i fp) in *.
  destruct (IH (S k) f1 Hwf1) as (a2 & l2 & (Hwf2 & Hk2 & Hp2 & Hn2) & Ha2 & Hin2).
  { intros ???. apply Hl. by apply list_elem_of_further. }
  exists (a1 ++ a2), (l2 ++ l1). split_and!; [split_and!|..].
  - done.
  - by intros ? ?%Hk1%Hk2.
  - rewrite app_assoc, Hp1, <- app_assoc, (Permutation_app_comm l1), app_assoc, Hp2.
    by rewrite <- app_assoc.
  - intros Hne. destruct l2; [|by apply Hn2]. destruct Hn1 as (j & ? & ?); [done|].
    exists j. split; [done|]. by apply Hk2.
  - intros e [He|He]%elem_of_app.
    + destruct Ha1 as [->|[? ->]]; [by apply elem_of_nil in He|].
      apply list_elem_of_singleton in He as ->. exists i, fp. split; [|done].
      apply list_elem_of_here.
    + destruct (Ha2 e He) as (j & v & ? & ?). exists j, v.
      split; [by apply list_elem_of_further|done].
  - intros j v [[= -> ->]|Hj]%elem_of_cons Hv; [|rewrite app_assoc; apply elem_of_app; left; by apply Hin2].
    apply Hin1 in Hv as [Hv|Hv]%elem_of_app; [|rewrite !elem_of_app; tauto].
    rewrite app_assoc, <- Hp2, !elem_of_app. tauto.
Qed.

(** *** Wire form *)

Lemma length_items bs (g : nat → nat) :
  length (concat (imap (λ n, bucket_items (g n)) bs)) = length (filter (λ v, v ≠ 0) (concat bs)).
Proof.
  revert g. induction bs as [|b bs IH]; intros g; [done|].
  rewrite imap_cons. cbn [concat]. rewrite filter_app, !length_app.
  unfold bucket_items at 1. rewrite length_fmap. f_equal. apply (IH (g ∘ S)).
Qed.

Lemma decode_wf data : len data = FILTER_BYTES → filter_wf (decode data).
Proof.
  intros Hlen. split.
  - cbn [decode buckets]. by rewrite length_map, length_seq.
  - cbn [decode buckets]. apply Forall_forall. intros b (i & -> & _)%(list_elem_of_fmap _ (seq 0 NUM_BUCKETS)).
    split; [done|]. apply Forall_forall. intros v (j & -> & _)%(list_elem_of_fmap _ (seq 0 SLOTS_PER_BUCKET)).
    set (l := take 2 _). pose proof (from_le_range l) as [? Hu]. split; [done|].
    eapply Z.lt_le_trans; [exact Hu|]. apply Z.pow_le_mono_r; [lia|]. unfold l. len_lia.
  - unfold items, len. cbn [decode buckets count].
    by rewrite (length_items _ id).
Qed.

Lemma encode_flat f : encode f = concat (map (to_le_bytes 2) (concat (buckets f))).
Proof.
  unfold encode. induction (buckets f) as [|b bs IH]; cbn; [done|].
  by rewrite map_app, concat_app, IH.
Qed.

Lemma uniform_le2 (l : list Z) : Forall (λ x, length x = 2%nat) (map (to_le_bytes 2) l).
Proof. apply Forall_forall. intros x (v & -> & _)%(list_elem_of_fmap _ l). apply length_le_split. Qed.

Lemma decode_encode_buckets f : filter_wf f → buckets (decode (encode f)) = buckets f.
Proof.
  intros Hwf. pose proof (wf_len f Hwf) as Hl. pose proof (wf_buckets f Hwf) as Hb.
  cbn [decode buckets].
  assert (Forall (λ b, length b = SLOTS_PER_BUCKET) (buckets f)) as Hu
    by (eapply Forall_impl; [exact Hb|]; by intros ? [? _]).
  apply list_eq. intros i. destruct (decide (i < NUM_BUCKETS)%nat) as [Hi|];
    [|by rewrite !lookup_ge_None_2 by (rewrite ?length_map, ?length_seq; lia)].
  destruct (lookup_lt_is_Some_2 (buckets f) i) as [b Eb]; [lia|]. rewrite Eb.
  pose proof (Forall_lookup_1 _ _ _ _ Hb Eb) as [Hbl Hbf].
  rewrite list_lookup_fmap, lookup_seq_lt by done. cbn [fmap option_fmap option_map]. f_equal.
  apply list_eq. intros j. destruct (decide (j < SLOTS_PER_BUCKET)%nat) as [Hj|];
    [|by rewrite !lookup_ge_None_2 by (rewrite ?length_map, ?length_seq; lia)].
  destruct (lookup_lt_is_Some_2 b j) as [v Ev]; [lia|]. rewrite Ev.
  rewrite list_lookup_fmap, lookup_seq_lt by done. cbn [fmap option_fmap option_map]. f_equal.
  rewrite encode_flat, (take_drop_concat_uniform _ _ _ (to_le_bytes 2 v)).
  - apply from_to_le. by apply (Forall_lookup_1 _ _ _ _ Hbf Ev).
  - apply uniform_le2.
  - rewrite list_lookup_fmap. cbn [plus].
    by rewrite (lookup_concat_uniform _ SLOTS_PER_BUCKET) by done; rewrite Eb; cbn; rewrite Ev.
Qed.

Lemma decode_count data :
  count (decode data) = len (filter (λ v, v ≠ 0) (concat (buckets (decode data)))).
Proof. done. Qed.

Lemma filter_eq f g : buckets f = buckets g → count f = count g → f = g.
Proof. destruct f, g; cbn. by intros -> ->. Qed.

Lemma decode_encode_filter f : filter_wf f → decode (encode f) = f.
Proof.
  intros Hwf. apply filter_eq; [by apply decode_encode_buckets|].
  rewrite decode_count, decode_encode_buckets, (wf_count f Hwf) by done.
  unfold len. f_equal. symmetry. exact (length_items (buckets f) id).
Qed.

End Items.

(** ** Properties *)

Section Properties.
Context `{Blake2}.

Lemma new_wf : filter_wf new.
Proof.
  split; [done| |by vm_compute].
  apply Forall_forall. intros b [-> _]%elem_of_replicate. split; [done|].
  by repeat constructor.
Qed.

Lemma add_spec coin rng f key ok f' :
  filter_wf f → add coin rng f key = (ok, f') →
  filter_wf f' ∧ if ok then items f' ≡ₚ entry key :: items f
                 else ∃ lost, lost :: items f' ≡ₚ entry key :: items f.
Proof.
  intros Hwf. unfold add, entry. pose proof (fingerprint_range key) as Hfp.
  pose proof (bucket1_lt key) as Hb1. set (fp := fingerprint key) in *.
  destruct (insert_at f _ fp) as [r1 f1] eqn:E1.
  apply insert_at_spec in E1 as (Hwf1 & _ & H1); [|done..].
  destruct r1; [by intros [= <- <-]|]. destruct H1 as [-> Hfull1].
  destruct (insert_at f _ fp) as [r2 f2] eqn:E2.
  apply insert_at_spec in E2 as (Hwf2 & _ & H2); [|done|apply bucket2_lt|done].
  rewrite canon_bucket2 in H2 by done.
  destruct r2; [by intros [= <- <-]|]. destruct H2 as [-> Hfull2]. intros E3.
  assert (canon (if coin then bucket1 key else bucket2 (bucket1 key) fp) fp
    = canon (bucket1 key) fp) as <- by (destruct coin; [done|by apply canon_bucket2]).
  apply kick_loop_spec in E3 as (Hwf3 & _ & _ & H3); [done|done|..|done];
    destruct coin; done || apply bucket2_lt.
Qed.

Lemma remove_spec f key ok f' :
  filter_wf f → remove f key = (ok, f') →
  filter_wf f' ∧ if ok then items f ≡ₚ entry key :: items f'
                 else f' = f ∧ entry key ∉ items f.
Proof.
  intros Hwf. unfold remove, entry. pose proof (fingerprint_range key) as Hfp.
  pose proof (bucket1_lt key) as Hb1.
  destruct (remove_at f _ _) as [r1 f1] eqn:E1.
  apply remove_at_spec in E1 as (Hwf1 & H1); [|done..].
  destruct r1; [by intros [= <- <-]|]. destruct H1 as [-> Hn1]. intros E2.
  apply remove_at_spec in E2 as (Hwf2 & H2); [|done|apply bucket2_lt|done].
  rewrite canon_bucket2 in H2 by done. split; [done|].
  destruct ok; [done|]. destruct H2 as [-> Hn2]. split; [done|].
  rewrite elem_of_items by (done || lia). tauto.
Qed.

Lemma merge_spec rng f other :
  filter_wf f → filter_wf other →
  ∃ added lost, merges f (merge rng f other) added lost ∧
    (∀ e, e ∈ added → e ∈ items other) ∧
    (∀ e, e ∈ items other → e ∈ items (merge rng f other) ++ lost).
Proof.
  intros Hwf Hwo. unfold merge.
  destruct (merge_loop_spec rng (slots other) O f Hwf) as (a & l & Hm & Ha & Hin).
  { intros. by eapply slots_wf. }
  exists a, l. split_and!; [done| |].
  - intros e He. apply elem_of_slots. auto.
  - intros e (i & fp & ? & ? & ->)%elem_of_slots. auto.
Qed.

(** The filters the program can hold: a new one, a decoded one, and what the
    operations make of them, whatever the generator draws. *)
Inductive reachable : t → Prop :=
| reach_new : reachable new
| reach_decode data : len data = FILTER_BYTES → reachable (decode data)
| reach_add coin rng f key : reachable f → reachable (add coin rng f key).2
| reach_remove f key : reachable f → reachable (remove f key).2
| reach_merge rng f other : reachable f → reachable other → reachable (merge rng f other).

Lemma reachable_wf f : reachable f → filter_wf f.
Proof.
  induction 1 as [|data Hd|coin rng f key _ IH|f key _ IH|rng f o _ IHf _ IHo].
  - apply new_wf.
  - by apply decode_wf.
  - destruct (add coin rng f key) as [ok f'] eqn:E. by apply add_spec in E as [? _].
  - destruct (remove f key) as [ok f'] eqn:E. by apply remove_spec in E as [? _].
  - destruct (merge_spec rng f o IHf IHo) as (? & ? & (? & _) & _). done.
Qed.

(** Every filter the program can reach has 512 buckets of four 16-bit slots
    and counts exactly its occupied slots, so the [count -= 1] of a successful
    [remove] never underflows. *)
Theorem cuckoo_reachable_wf f :
  reachable f → filter_wf f ∧
  (∀ key f', remove f key = (true, f') → 1 ≤ count f ∧ count f' = count f - 1).
Proof.
  intros Hr%reachable_wf. split; [done|]. intros key f' [Hwf' Hp]%remove_spec; [|done].
  rewrite (wf_count f Hr), (wf_count f' Hwf'). apply Permutation_length in Hp.
  unfold len. rewrite Hp. cbn [length]. lia.
Qed.

(** C17: [add] refines multiset insertion.  When it returns [true] the contents
    gain exactly the key's entry, so the key is found and no key found before is
    lost, for every outcome of the random draws; when it returns [false] exactly
    one entry (possibly that of an earlier key) has been dropped. *)
Theorem cuckoo_add_refines coin rng f key ok f' :
  filter_wf f → add coin rng f key = (ok, f') →
  if ok then items f' ≡ₚ entry key :: items f ∧ contains f' key = true ∧
             (∀ k, contains f k = true → contains f' k = true)
  else ∃ lost, lost :: items f' ≡ₚ entry key :: items f.
Proof.
  intros Hwf [Hwf' Hp]%add_spec; [|done]. destruct ok; [|done].
  split; [done|]. setoid_rewrite contains_items; [|done..]. setoid_rewrite Hp.
  split; [apply list_elem_of_here|]. intros k. apply list_elem_of_further.
Qed.

(** [remove] refines multiset removal: it takes out exactly one copy of the
    key's entry, and does nothing when the key is not found. *)
Theorem cuckoo_remove_refines f key ok f' :
  filter_wf f → remove f key = (ok, f') →
  ok = contains f key ∧
  if ok then items f ≡ₚ entry key :: items f' else f' = f.
Proof.
  intros Hwf [Hwf' Hp]%remove_spec; [|done]. destruct ok.
  - split; [|done]. symmetry. apply contains_items; [done|]. rewrite Hp. apply list_elem_of_here.
  - destruct Hp as [-> Hn]. split; [|done].
    rewrite <- contains_items in Hn by done. by destruct (contains f key).
Qed.

(** C18: [merge] never invents an entry, keeps the filter well formed, and is the
    union of the two filters as soon as it leaves no bucket full. *)
Theorem cuckoo_merge_union rng f other :
  filter_wf f → filter_wf other →
  (∀ e, e ∈ items (merge rng f other) → e ∈ items f ∨ e ∈ items other) ∧
  ((∀ i, (i < NUM_BUCKETS)%nat → ¬ full (buckets (merge rng f other) !!! i)) →
   ∀ key, contains (merge rng f other) key = contains f key || contains other key).
Proof.
  intros Hwf Hwo. destruct (merge_spec rng f other Hwf Hwo)
    as (a & l & (Hwf' & _ & Hp & Hn) & Ha & Hin).
  assert (∀ e, e ∈ items (merge rng f other) → e ∈ items f ∨ e ∈ items other) as Hsub.
  { intros e He. assert (e ∈ items f ++ a) as [?|?]%elem_of_app; auto.
    rewrite Hp. apply elem_of_app. auto. }
  split; [done|]. intros Hnf key. assert (l = []) as ->.
  { destruct l; [done|]. destruct Hn as (i & ? & ?); [done|]. by destruct (Hnf i). }
  rewrite app_nil_r in *. apply eq_true_iff_eq.
  rewrite orb_true_iff, !contains_items by done. split; [auto|].
  intros [He|He]; [|auto]. rewrite <- Hp. apply elem_of_app. auto.
Qed.

(** A filter survives the wire: [decode] inverts [encode], and every
    4096-byte body decodes to a well-formed filter. *)
Theorem cuckoo_wire_roundtrip f data :
  filter_wf f → len data = FILTER_BYTES →
  decode (encode f) = f ∧ filter_wf (decode data).
Proof. intros. split; [by apply decode_encode_filter|by apply decode_wf]. Qed.

End Properties.

(** ** Witnesses *)

Section Witnesses.
Import Toy.

Let f1 : t := (add true (λ _, 0%fin) new (bstr "alice")).2.

Lemma f1_wf : filter_wf f1.
Proof. apply reachable_wf. apply reach_add, reach_new. Qed.

Lemma cuckoo_reachable_wf_witness :
  count f1 = 1 ∧ (remove f1 (bstr "alice")).1 = true ∧ count (remove f1 (bstr "alice")).2 = 0.
Proof.
  split; [by vm_compute|]. split; [by vm_compute|].
  apply (cuckoo_reachable_wf f1) with (key := bstr "alice").
  - apply reach_add, reach_new.
  - by vm_compute.
Defined.

Lemma cuckoo_add_refines_witness :
  contains (add true (λ _, 0%fin) f1 (bstr "bob")).2 (bstr "alice") = true.
Proof.
  pose proof (cuckoo_add_refines true (λ _, 0%fin) f1 (bstr "bob") true
    (add true (λ _, 0%fin) f1 (bstr "bob")).2 f1_wf) as (_ & _ & Hk); [by vm_compute|].
  apply Hk. by vm_compute.
Defined.

Lemma cuckoo_remove_refines_witness :
  (remove f1 (bstr "alice")).1 = contains f1 (bstr "alice").
Proof.
  apply (cuckoo_remove_refines f1 (bstr "alice") true (remove f1 (bstr "alice")).2 f1_wf).
  by vm_compute.
Defined.

Lemma cuckoo_merge_union_witness :
  contains (merge (λ _ _, 0%fin) new f1) (bstr "alice") = true.
Proof.
  rewrite (proj2 (cuckoo_merge_union (λ _ _, 0%fin) new f1 new_wf f1_wf)).
  - by vm_compute.
  - intros i Hi Hf.
    assert (forallb (existsb (Z.eqb 0)) (buckets (merge (λ _ _, 0%fin) new f1)) = true)
      as Hall by by vm_compute.
    rewrite forallb_forall in Hall.
    destruct (lookup_lt_is_Some_2 (buckets (merge (λ _ _, 0%fin) new f1)) i)
      as [b Hb]; [by vm_compute|].
    rewrite (list_lookup_total_correct _ _ _ Hb) in Hf.
    apply list_elem_of_lookup_2, list_elem_of_In in Hb.
    apply Hall, existsb_exists in Hb as (x & Hx%list_elem_of_In & <-%Z.eqb_eq).
    unfold full in Hf. rewrite Forall_forall in Hf. by apply (Hf _ Hx).
Defined.

Lemma cuckoo_wire_roundtrip_witness :
  decode (encode f1) = f1 ∧ filter_wf (decode (fill FILTER_BYTES (u8 7))).
Proof. apply (cuckoo_wire_roundtrip f1); [apply f1_wf|by vm_compute]. Defined.

End Witnesses.

End CuckooFilter.
