(* ===== verification/Packet.v ===== *)
(** * Wire structures of [src/packet.rs]

    One module per message type, with its record, its [encode] (type byte
    first), its [decode] (type byte already removed) and, for the signed ones,
    its [sign_bytes].  Fixed arrays are byte lists of the stated length ([ok]),
    integers are [Z] within their width.  The class [Wire] states what every
    codec promises; [Frame] is the sum of the messages with the type-byte
    switch of the router's [dispatch]. *)

From S2P Require Import Prelude Crypto Varint Cuckoo.

(** ** Packet type bytes *)

Definition DUMMY : Z := 0.
Definition KEEP_ALIVE : Z := 1.
Definition SIG_REQ : Z := 2.
Definition SIG_RES : Z := 3.
Definition ANNOUNCE : Z := 4.
Definition CUCKOO_FILTER : Z := 5.
Definition PATH_LOOKUP : Z := 6.
Definition PATH_NOTIFY : Z := 7.
Definition PATH_BROKEN : Z := 8.
Definition TRAFFIC : Z := 9.
Definition TYPE_COORD_ANNOUNCE : Z := 10.
Definition COORD_FORMAT_V5 : Z := 5.
Definition TYPE_ONION : Z := 11.
Definition TYPE_ONION_KEY_ANNOUNCE : Z := 12.
Definition TYPE_REPUTATION_REPORT : Z := 13.
Definition TYPE_HOLE_PUNCH : Z := 14.
Definition TYPE_PATH_NEGATIVE : Z := 15.
Definition TYPE_CAPABILITIES : Z := 0x11.
Definition PKT_CONTROL : Z := 0.
Definition PKT_DATA : Z := 1.

(** What a message codec promises: the body written after the type byte decodes
    to the message, and decoding never panics and yields only well-formed
    messages. *)
Class Wire (A : Type) := {
  wire_type : Z;
  wire_encode : A → bytes;
  wire_decode : bytes → res A;
  wire_ok : A → Prop }.

Class WireLaws (A : Type) `{Wire A} : Prop := {
  wire_roundtrip : ∀ a : A, wire_ok a →
    ∃ body, wire_encode a = u8 wire_type :: body ∧ wire_decode body = Ok a;
  wire_no_panic : ∀ data, no_panic (wire_decode (A := A) data);
  wire_decode_ok : ∀ data a,
    len data ≤ ISIZE_MAX → wire_decode data = Ok a → wire_ok a }.

(** ** Spanning-tree messages *)

Module SigReq.
Record t := mk { tree_id : byte; seq : Z; timestamp_ms : Z; pub_key : bytes }.

Definition ok (m : t) : Prop :=
  u64_ok (seq m) ∧ u64_ok (timestamp_ms m) ∧ len (pub_key m) = 32.

Definition encode (m : t) : bytes :=
  [u8 SIG_REQ; tree_id m] ++ encode_uvarint (seq m)
    ++ encode_uvarint (timestamp_ms m) ++ pub_key m.

Definition decode (data : bytes) : res t :=
  bail_if len data <? 2 with "SigReq too short";
  tree_id ← index data 0;
  let pos := 1 in
  '(seq, n) ← uvarint_at data pos;
  let pos := pos + n in
  '(timestamp_ms, n) ← uvarint_at data pos;
  let pos := pos + n in
  bail_if len data <? pos + 32 with "SigReq missing pub_key";
  pub_key ← slice data pos (pos + 32);
  Ok (mk tree_id seq timestamp_ms pub_key).
End SigReq.

Module SigRes.
Record t := mk { tree_id : byte; seq : Z; timestamp_ms : Z;
                 signature : bytes; pub_key : bytes }.

Definition ok (m : t) : Prop :=
  u64_ok (seq m) ∧ u64_ok (timestamp_ms m) ∧ len (signature m) = 64 ∧ len (pub_key m) = 32.

Definition encode (m : t) : bytes :=
  [u8 SIG_RES; tree_id m] ++ encode_uvarint (seq m)
    ++ encode_uvarint (timestamp_ms m) ++ signature m ++ pub_key m.

Definition decode (data : bytes) : res t :=
  bail_if len data <? 2 with "SigRes too short";
  tree_id ← index data 0;
  let pos := 1 in
  '(seq, n) ← uvarint_at data pos;
  let pos := pos + n in
  '(timestamp_ms, n) ← uvarint_at data pos;
  let pos := pos + n in
  bail_if len data <? pos + 64 + 32 with "SigRes missing sig/key";
  signature ← slice data pos (pos + 64);
  let pos := pos + 64 in
  pub_key ← slice data pos (pos + 32);
  Ok (mk tree_id seq timestamp_ms signature pub_key).
End SigRes.

Module Announce.
Record t := mk { tree_id : byte; root : bytes; root_seq : Z; path_cost : Z;
                 sender : bytes; signature : bytes; depth : Z }.

Definition ok (m : t) : Prop :=
  len (root m) = 32 ∧ u64_ok (root_seq m) ∧ u64_ok (path_cost m) ∧
  len (sender m) = 32 ∧ len (signature m) = 64 ∧ u32_ok (depth m).

Definition sign_bytes (m : t) : bytes :=
  [tree_id m] ++ root m ++ encode_uvarint (root_seq m)
    ++ encode_uvarint (path_cost m) ++ sender m ++ encode_uvarint (depth m).

Definition encode (m : t) : bytes :=
  [u8 ANNOUNCE; tree_id m] ++ root m ++ encode_uvarint (root_seq m)
    ++ encode_uvarint (path_cost m) ++ sender m ++ signature m
    ++ encode_uvarint (depth m).

Definition decode (data : bytes) : res t :=
  bail_if len data <? 1 + 32 with "Announce too short";
  tree_id ← index data 0;
  let pos := 1 in
  root ← slice data pos (pos + 32);
  let pos := pos + 32 in
  '(root_seq, n) ← uvarint_at data pos;
  let pos := pos + n in
  '(path_cost, n) ← uvarint_at data pos;
  let pos := pos + n in
  bail_if len data <? pos + 32 + 64 with "Announce missing sender/sig";
  sender ← slice data pos (pos + 32);
  let pos := pos + 32 in
  signature ← slice data pos (pos + 64);
  let pos := pos + 64 in
  depth ← (if pos <? len data then '(d, _) ← uvarint_at data pos; Ok (wrap32 d) else Ok 0);
  Ok (mk tree_id root root_seq path_cost sender signature depth).
End Announce.

Module CuckooMsg.
Record t := mk { tree_id : byte; generation : Z; data : bytes }.

Definition ok (m : t) : Prop := u64_ok (generation m) ∧ len (data m) = FILTER_BYTES.

Definition encode (m : t) : bytes :=
  [u8 CUCKOO_FILTER; tree_id m] ++ encode_uvarint (generation m) ++ data m.

Definition decode (data : bytes) : res t :=
  bail_if len data =? 0 with "CuckooMsg too short";
  tree_id ← index data 0;
  let pos := 1 in
  '(generation, n) ← uvarint_at data pos;
  let pos := pos + n in
  bail_if len data <? pos + FILTER_BYTES with "CuckooMsg data too short";
  cdata ← slice data pos (pos + FILTER_BYTES);
  Ok (mk tree_id generation cdata).
End CuckooMsg.

(** ** Path messages *)

Module PathLookup.
Record t := mk { target : bytes; source : bytes; id : Z; path : list Z }.

Definition ok (m : t) : Prop :=
  len (target m) = 32 ∧ len (source m) = 32 ∧ u64_ok (id m) ∧ path_ok (path m).

Definition encode (m : t) : bytes :=
  [u8 PATH_LOOKUP] ++ target m ++ source m ++ encode_uvarint (id m) ++ encode_path (path m).

Definition decode (data : bytes) : res t :=
  bail_if len data <? 64 with "PathLookup too short";
  target ← slice data 0 32;
  source ← slice data 32 64;
  let pos := 64 in
  '(id, n) ← uvarint_at data pos;
  let pos := pos + n in
  '(path, _) ← path_at data pos;
  Ok (mk target source id path).
End PathLookup.

Module PathNotify.
Record t := mk { target : bytes; source : bytes; id : Z; path : list Z }.

Definition ok (m : t) : Prop :=
  len (target m) = 32 ∧ len (source m) = 32 ∧ u64_ok (id m) ∧ path_ok (path m).

Definition encode (m : t) : bytes :=
  [u8 PATH_NOTIFY] ++ target m ++ source m ++ encode_uvarint (id m) ++ encode_path (path m).

Definition decode (data : bytes) : res t :=
  bail_if len data <? 64 with "PathNotify too short";
  target ← slice data 0 32;
  source ← slice data 32 64;
  let pos := 64 in
  '(id, n) ← uvarint_at data pos;
  let pos := pos + n in
  '(path, _) ← path_at data pos;
  Ok (mk target source id path).
End PathNotify.

Module PathBroken.
Record t := mk { target : bytes; source : bytes; id : Z }.

Definition ok (m : t) : Prop :=
  len (target m) = 32 ∧ len (source m) = 32 ∧ u64_ok (id m).

Definition encode (m : t) : bytes :=
  [u8 PATH_BROKEN] ++ target m ++ source m ++ encode_uvarint (id m).

Definition decode (data : bytes) : res t :=
  bail_if len data <? 64 with "PathBroken too short";
  target ← slice data 0 32;
  source ← slice data 32 64;
  '(id, _) ← uvarint_at data 64;
  Ok (mk target source id).
End PathBroken.

Module PathNegative.
Record t := mk { routing_tag : bytes; ttl : byte }.

Definition ok (m : t) : Prop := len (routing_tag m) = 16.

Definition encode (m : t) : bytes :=
  [u8 TYPE_PATH_NEGATIVE] ++ routing_tag m ++ [ttl m].

Definition decode (data : bytes) : res t :=
  bail_if len data <? 16 + 1 with "PathNegative too short";
  routing_tag ← slice data 0 16;
  ttl ← index data 16;
  Ok (mk routing_tag ttl).
End PathNegative.

(** ** Traffic *)

Module Traffic.
Record t := mk { path : list Z; from : bytes; enc_header : bytes; routing_tag : bytes;
                 pkt_type : byte; dest_coord : option bytes; watermark : Z;
                 payload : bytes }.

Definition ok (m : t) : Prop :=
  path_ok (path m) ∧ len (from m) = 32 ∧ len (enc_header m) = 128 ∧
  len (routing_tag m) = 16 ∧ (∀ c, dest_coord m = Some c → len c = 16) ∧
  u64_ok (watermark m) ∧ len (payload m) ≤ ISIZE_MAX.

Definition encode (m : t) : bytes :=
  [u8 TRAFFIC] ++ encode_path (path m) ++ from m ++ enc_header m ++ routing_tag m
    ++ [pkt_type m]
    ++ (match dest_coord m with Some c => [u8 1] ++ c | None => [u8 0] end)
    ++ encode_uvarint (watermark m) ++ encode_uvarint (len (payload m)) ++ payload m.

Definition decode (data : bytes) : res t :=
  let pos := 0 in
  '(path, path_len) ← decode_path data;
  let pos := pos + path_len in
  bail_if len data <? pos + 177 with "Traffic too short";
  from ← slice data pos (pos + 32);
  let pos := pos + 32 in
  enc_header ← slice data pos (pos + 128);
  let pos := pos + 128 in
  routing_tag ← slice data pos (pos + 16);
  let pos := pos + 16 in
  pkt_type ← index data pos;
  let pos := pos + 1 in
  bail_if len data <=? pos with "Traffic missing dest_coord presence byte";
  coord_present ← index data pos;
  let pos := pos + 1 in
  '(dest_coord, pos) ←
    (if negb (uz coord_present =? 0) then
       bail_if len data <? pos + 16 with "Traffic dest_coord truncated";
       arr ← slice data pos (pos + 16);
       Ok (Some arr, pos + 16)
     else Ok (None, pos));
  '(watermark, n) ← uvarint_at data pos;
  let pos := pos + n in
  '(payload_len, n) ← uvarint_at data pos;
  let pos := pos + n in
  payload_end ← ok_or (checked_add pos payload_len) "Traffic payload_len overflow";
  bail_if len data <? payload_end with "Traffic payload truncated";
  payload ← slice data pos payload_end;
  Ok (mk path from enc_header routing_tag pkt_type dest_coord watermark payload).
End Traffic.

(** [routing_tag(pub_key)]: the 16-byte routing tag of a key. *)
Definition routing_tag `{Blake2} (pub_key : bytes) : bytes :=
  blake2b 16 (bstr "norn:route" ++ pub_key).

(** ** Signed gossip *)

Module OnionKeyAnnounce.
Record t := mk { origin : bytes; seq : Z; valid_from_ms : Z; onion_eph_pub : bytes;
                 sig : bytes }.

Definition ok (m : t) : Prop :=
  len (origin m) = 32 ∧ u64_ok (seq m) ∧ u64_ok (valid_from_ms m) ∧
  len (onion_eph_pub m) = 32 ∧ len (sig m) = 64.

Definition sign_bytes (m : t) : bytes :=
  origin m ++ to_le_bytes 8 (seq m) ++ to_le_bytes 8 (valid_from_ms m) ++ onion_eph_pub m.

Definition encode (m : t) : bytes :=
  [u8 TYPE_ONION_KEY_ANNOUNCE] ++ origin m ++ to_le_bytes 8 (seq m)
    ++ to_le_bytes 8 (valid_from_ms m) ++ onion_eph_pub m ++ sig m.

Definition decode (data : bytes) : res t :=
  let need := 32 + 8 + 8 + 32 + 64 in
  bail_if len data <? need with "OnionKeyAnnounce too short";
  let pos := 0 in
  origin ← slice data pos (pos + 32); let pos := pos + 32 in
  seq ← slice data pos (pos + 8); let pos := pos + 8 in
  valid_from_ms ← slice data pos (pos + 8); let pos := pos + 8 in
  onion_eph_pub ← slice data pos (pos + 32); let pos := pos + 32 in
  sig ← slice data pos (pos + 64);
  Ok (mk origin (from_le_bytes seq) (from_le_bytes valid_from_ms) onion_eph_pub sig).
End OnionKeyAnnounce.

(** *** UTF-8, as [core::str::from_utf8] validates it *)

Definition in_range (lo hi : Z) (b : byte) : bool := (lo <=? uz b) && (uz b <=? hi).
Definition is_cont (b : byte) : bool := in_range 0x80 0xBF b.

(** One scalar per step; a sequence has at most four bytes. *)
Fixpoint utf8_valid (s : bytes) : bool :=
  match s with
  | [] => true
  | a :: s1 =>
      if uz a <? 0x80 then utf8_valid s1 else
      match s1 with
      | [] => false
      | b :: s2 =>
          if in_range 0xC2 0xDF a then is_cont b && utf8_valid s2 else
          match s2 with
          | [] => false
          | c :: s3 =>
              if in_range 0xE0 0xEF a then
                (if uz a =? 0xE0 then in_range 0xA0 0xBF b
                 else if uz a =? 0xED then in_range 0x80 0x9F b
                 else is_cont b) && is_cont c && utf8_valid s3
              else
              match s3 with
              | [] => false
              | d :: s4 =>
                  in_range 0xF0 0xF4 a &&
                  (if uz a =? 0xF0 then in_range 0x90 0xBF b
                   else if uz a =? 0xF4 then in_range 0x80 0x8F b
                   else is_cont b) && is_cont c && is_cont d && utf8_valid s4
              end
          end
      end
  end.

Module HolePunch.
(** [endpoint] is the bytes of a [String]. *)
Record t := mk { initiator : bytes; target : bytes; valid_from_ms : Z; endpoint : bytes;
                 sig : bytes }.

(** An endpoint longer than 255 bytes is cut on the wire. *)
Definition ok (m : t) : Prop :=
  len (initiator m) = 32 ∧ len (target m) = 32 ∧ u64_ok (valid_from_ms m) ∧
  len (endpoint m) ≤ 255 ∧ utf8_valid (endpoint m) = true ∧ len (sig m) = 64.

Definition clamp (endpoint : bytes) : Z := Z.min (len endpoint) 255.

Definition sign_bytes (m : t) : bytes :=
  let l := clamp (endpoint m) in
  initiator m ++ target m ++ to_le_bytes 8 (valid_from_ms m)
    ++ [u8 l] ++ take (Z.to_nat l) (endpoint m).

Definition encode (m : t) : bytes :=
  let l := clamp (endpoint m) in
  [u8 TYPE_HOLE_PUNCH] ++ initiator m ++ target m ++ to_le_bytes 8 (valid_from_ms m)
    ++ [u8 l] ++ take (Z.to_nat l) (endpoint m) ++ sig m.

Definition decode (data : bytes) : res t :=
  let min := 32 + 32 + 8 + 1 + 64 in
  bail_if len data <? min with "HolePunch too short";
  let pos := 0 in
  initiator ← slice data pos (pos + 32); let pos := pos + 32 in
  target ← slice data pos (pos + 32); let pos := pos + 32 in
  valid_from_ms ← slice data pos (pos + 8); let pos := pos + 8 in
  endpoint_len ← index data pos; let pos := pos + 1 in
  let endpoint_len := uz endpoint_len in
  bail_if len data <? pos + endpoint_len + 64 with "HolePunch truncated";
  endpoint ← slice data pos (pos + endpoint_len);
  bail_if negb (utf8_valid endpoint) with "HolePunch endpoint not UTF-8";
  let pos := pos + endpoint_len in
  sig ← slice data pos (pos + 64);
  Ok (mk initiator target (from_le_bytes valid_from_ms) endpoint sig).
End HolePunch.

Module ReputationReport.
Record t := mk { observer : bytes; observed : bytes; score_q16 : Z; seq : Z;
                 valid_from_ms : Z; sig : bytes }.

Definition ok (m : t) : Prop :=
  len (observer m) = 32 ∧ len (observed m) = 32 ∧ u16_ok (score_q16 m) ∧
  u64_ok (seq m) ∧ u64_ok (valid_from_ms m) ∧ len (sig m) = 64.

Definition sign_bytes (m : t) : bytes :=
  observer m ++ observed m ++ to_le_bytes 2 (score_q16 m) ++ to_le_bytes 8 (seq m)
    ++ to_le_bytes 8 (valid_from_ms m).

Definition encode (m : t) : bytes :=
  [u8 TYPE_REPUTATION_REPORT] ++ observer m ++ observed m ++ to_le_bytes 2 (score_q16 m)
    ++ to_le_bytes 8 (seq m) ++ to_le_bytes 8 (valid_from_ms m) ++ sig m.

Definition decode (data : bytes) : res t :=
  let need := 32 + 32 + 2 + 8 + 8 + 64 in
  bail_if len data <? need with "ReputationReport too short";
  let pos := 0 in
  observer ← slice data pos (pos + 32); let pos := pos + 32 in
  observed ← slice data pos (pos + 32); let pos := pos + 32 in
  score_q16 ← slice data pos (pos + 2); let pos := pos + 2 in
  seq ← slice data pos (pos + 8); let pos := pos + 8 in
  valid_from_ms ← slice data pos (pos + 8); let pos := pos + 8 in
  sig ← slice data pos (pos + 64);
  Ok (mk observer observed (from_le_bytes score_q16) (from_le_bytes seq)
         (from_le_bytes valid_from_ms) sig).
End ReputationReport.

Module CoordAnnounce.
Record t := mk { version : byte; coord : bytes; tree_depth : Z; onion_eph_pub : bytes;
                 sig : bytes }.

Definition ok (m : t) : Prop :=
  version m = u8 COORD_FORMAT_V5 ∧ len (coord m) = 16 ∧ u32_ok (tree_depth m) ∧
  len (onion_eph_pub m) = 32 ∧ len (sig m) = 64.

Definition sign_bytes (m : t) : bytes :=
  [version m] ++ coord m ++ to_le_bytes 4 (tree_depth m) ++ onion_eph_pub m.

Definition encode_into (m : t) (buf : bytes) : bytes :=
  buf ++ [version m] ++ coord m ++ to_le_bytes 4 (tree_depth m) ++ onion_eph_pub m ++ sig m.

Definition decode (data : bytes) : res t :=
  let need := 1 + 16 + 4 + 32 + 64 in
  bail_if len data <? need with "CoordAnnounce too short";
  version ← index data 0;
  bail_if negb (uz version =? COORD_FORMAT_V5) with "CoordAnnounce unsupported version";
  coord ← slice data 1 17;
  tree_depth ← slice data 17 21;
  onion_eph_pub ← slice data 21 53;
  sig ← slice data 53 117;
  Ok (mk version coord (from_le_bytes tree_depth) onion_eph_pub sig).
End CoordAnnounce.

Module CapabilityAnnounce.
Record t := mk { origin : bytes; caps : Z; seq : Z; valid_from_ms : Z; sig : bytes }.

Definition ok (m : t) : Prop :=
  len (origin m) = 32 ∧ u32_ok (caps m) ∧ u64_ok (seq m) ∧ u64_ok (valid_from_ms m) ∧
  len (sig m) = 64.

Definition sign_bytes (m : t) : bytes :=
  origin m ++ to_le_bytes 4 (caps m) ++ to_le_bytes 8 (seq m)
    ++ to_le_bytes 8 (valid_from_ms m).

Definition encode (m : t) : bytes :=
  [u8 TYPE_CAPABILITIES] ++ origin m ++ to_le_bytes 4 (caps m) ++ to_le_bytes 8 (seq m)
    ++ to_le_bytes 8 (valid_from_ms m) ++ sig m.

Definition decode (data : bytes) : res t :=
  let need := 32 + 4 + 8 + 8 + 64 in
  bail_if len data <? need with "CapabilityAnnounce too short";
  let pos := 0 in
  origin ← slice data pos (pos + 32); let pos := pos + 32 in
  caps ← slice data pos (pos + 4); let pos := pos + 4 in
  seq ← slice data pos (pos + 8); let pos := pos + 8 in
  valid_from_ms ← slice data pos (pos + 8); let pos := pos + 8 in
  sig ← slice data pos (pos + 64);
  Ok (mk origin (from_le_bytes caps) (from_le_bytes seq) (from_le_bytes valid_from_ms) sig).
End CapabilityAnnounce.

(** ** The sum of the messages *)

Module Frame.
(** What the first byte of a frame announces.  [Other] is the dispatcher's
    default arm; onion and Sphinx cells have their own files. *)
Inductive t :=
| Dummy
| KeepAlive
| ASigReq (m : SigReq.t)
| ASigRes (m : SigRes.t)
| AnAnnounce (m : Announce.t)
| ACuckoo (m : CuckooMsg.t)
| APathLookup (m : PathLookup.t)
| APathNotify (m : PathNotify.t)
| APathBroken (m : PathBroken.t)
| ATraffic (m : Traffic.t)
| ACoord (m : CoordAnnounce.t)
| AnOnionKey (m : OnionKeyAnnounce.t)
| ACapability (m : CapabilityAnnounce.t)
| AReputation (m : ReputationReport.t)
| AHolePunch (m : HolePunch.t)
| APathNegative (m : PathNegative.t)
| Other (ptype : Z) (data : bytes).

Definition encode (f : t) : bytes :=
  match f with
  | Dummy => [u8 DUMMY]
  | KeepAlive => [u8 KEEP_ALIVE]
  | ASigReq m => SigReq.encode m
  | ASigRes m => SigRes.encode m
  | AnAnnounce m => Announce.encode m
  | ACuckoo m => CuckooMsg.encode m
  | APathLookup m => PathLookup.encode m
  | APathNotify m => PathNotify.encode m
  | APathBroken m => PathBroken.encode m
  | ATraffic m => Traffic.encode m
  | ACoord m => CoordAnnounce.encode_into m [u8 TYPE_COORD_ANNOUNCE]
  | AnOnionKey m => OnionKeyAnnounce.encode m
  | ACapability m => CapabilityAnnounce.encode m
  | AReputation m => ReputationReport.encode m
  | AHolePunch m => HolePunch.encode m
  | APathNegative m => PathNegative.encode m
  | Other ptype data => u8 ptype :: data
  end.

(** The [match ptype] of [dispatch], up to the call of the handler. *)
Definition switch (ptype : Z) (data : bytes) : res t :=
  if ptype =? DUMMY then Ok Dummy
  else if ptype =? KEEP_ALIVE then Ok KeepAlive
  else if ptype =? SIG_REQ then ASigReq <$> SigReq.decode data
  else if ptype =? SIG_RES then ASigRes <$> SigRes.decode data
  else if ptype =? ANNOUNCE then AnAnnounce <$> Announce.decode data
  else if ptype =? CUCKOO_FILTER then ACuckoo <$> CuckooMsg.decode data
  else if ptype =? PATH_LOOKUP then APathLookup <$> PathLookup.decode data
  else if ptype =? PATH_NOTIFY then APathNotify <$> PathNotify.decode data
  else if ptype =? PATH_BROKEN then APathBroken <$> PathBroken.decode data
  else if ptype =? TRAFFIC then ATraffic <$> Traffic.decode data
  else if ptype =? TYPE_COORD_ANNOUNCE then ACoord <$> CoordAnnounce.decode data
  else if ptype =? TYPE_ONION_KEY_ANNOUNCE then AnOnionKey <$> OnionKeyAnnounce.decode data
  else if ptype =? TYPE_CAPABILITIES then ACapability <$> CapabilityAnnounce.decode data
  else if ptype =? TYPE_REPUTATION_REPORT then AReputation <$> ReputationReport.decode data
  else if ptype =? TYPE_HOLE_PUNCH then AHolePunch <$> HolePunch.decode data
  else if ptype =? TYPE_PATH_NEGATIVE then APathNegative <$> PathNegative.decode data
  else Ok (Other ptype data).

(** The head of [dispatch]: an empty frame is dropped, and one that fails to
    decode is ignored. *)
Definition decode (frame : bytes) : res t :=
  bail_if len frame =? 0 with "empty frame";
  ptype ← index frame 0;
  data ← slice_from frame 1;
  switch (uz ptype) data.

(** The signed messages: their type, the bytes the signature covers and the
    signature. *)
Definition tag (f : t) : Z := uz (hd (u8 0) (encode f)).
Definition sign_bytes (f : t) : option bytes :=
  match f with
  | AnAnnounce m => Some (Announce.sign_bytes m)
  | ACoord m => Some (CoordAnnounce.sign_bytes m)
  | AnOnionKey m => Some (OnionKeyAnnounce.sign_bytes m)
  | ACapability m => Some (CapabilityAnnounce.sign_bytes m)
  | AReputation m => Some (ReputationReport.sign_bytes m)
  | AHolePunch m => Some (HolePunch.sign_bytes m)
  | _ => None
  end.
Definition signature (f : t) : option bytes :=
  match f with
  | AnAnnounce m => Some (Announce.signature m)
  | ACoord m => Some (CoordAnnounce.sig m)
  | AnOnionKey m => Some (OnionKeyAnnounce.sig m)
  | ACapability m => Some (CapabilityAnnounce.sig m)
  | AReputation m => Some (ReputationReport.sig m)
  | AHolePunch m => Some (HolePunch.sig m)
  | _ => None
  end.

Definition known (ptype : Z) : bool :=
  (ptype <=? 15) && negb (ptype =? TYPE_ONION) || (ptype =? TYPE_CAPABILITIES).

Definition ok (f : t) : Prop :=
  match f with
  | Dummy | KeepAlive => True
  | ASigReq m => SigReq.ok m
  | ASigRes m => SigRes.ok m
  | AnAnnounce m => Announce.ok m
  | ACuckoo m => CuckooMsg.ok m
  | APathLookup m => PathLookup.ok m
  | APathNotify m => PathNotify.ok m
  | APathBroken m => PathBroken.ok m
  | ATraffic m => Traffic.ok m
  | ACoord m => CoordAnnounce.ok m
  | AnOnionKey m => OnionKeyAnnounce.ok m
  | ACapability m => CapabilityAnnounce.ok m
  | AReputation m => ReputationReport.ok m
  | AHolePunch m => HolePunch.ok m
  | APathNegative m => PathNegative.ok m
  | Other ptype _ => u8_ok ptype ∧ known ptype = false
  end.
End Frame.

(** ** Codec automation *)

(** The continuation of the read at hand is hidden while the read is stepped. *)
Ltac hide_cont :=
  match goal with
  | |- mbind ?f _ = _ => tryif is_var f then fail else let k := fresh "k" in set (k := f)
  end.
Ltac show_cont :=
  match goal with
  | |- mbind ?k (Ok _) = _ => is_var k; rewrite bind_Ok; subst k
  end.

Ltac codec_step :=
  first
  [ progress cbv beta iota zeta
  | show_cont | hide_cont
  | rewrite bind_Ok
  | test_false | test_true
  | rewrite index_head by len_lia | rewrite index_cons by len_lia
  | rewrite index_app by len_lia
  | rewrite slice_head by len_lia | rewrite slice_whole by len_lia
  | rewrite slice_cons by len_lia | rewrite slice_drop by len_lia
  | rewrite slice_from_start by len_lia | rewrite slice_from_cons by len_lia
  | rewrite slice_from_drop by len_lia
  | rewrite uvarint_at_head by len_lia | rewrite uvarint_at_last by len_lia
  | rewrite uvarint_at_cons by len_lia | rewrite uvarint_at_app by len_lia
  | rewrite path_at_last by (done || len_lia) | rewrite path_at_app by len_lia
  | rewrite path_at_cons by len_lia
  | rewrite from_to_le by len_lia | rewrite wrap32_small by len_lia ].

(** [codec decode m] runs [decode] over the body of a well-formed message. *)
Ltac codec := repeat codec_step; done.

(** Comparisons of the source as propositions. *)
Ltac zbool :=
  repeat match goal with
  | H : (_ <? _) = true |- _ => apply Z.ltb_lt in H
  | H : (_ <? _) = false |- _ => apply Z.ltb_ge in H
  | H : (_ <=? _) = true |- _ => apply Z.leb_le in H
  | H : (_ <=? _) = false |- _ => apply Z.leb_gt in H
  | H : (_ =? _) = true |- _ => apply Z.eqb_eq in H
  | H : (_ =? _) = false |- _ => apply Z.eqb_neq in H
  | H : negb _ = true |- _ => apply negb_true_iff in H
  | H : negb _ = false |- _ => apply negb_false_iff in H
  | H : _ && _ = true |- _ => apply andb_true_iff in H as [? ?]
  | H : _ || _ = false |- _ => apply orb_false_iff in H as [? ?]
  end.

(** What the primitive reads say about the buffer. *)
Ltac read_inv :=
  repeat match goal with
  | H : slice _ _ _ = Ok _ |- _ => apply slice_inv in H as (? & ? & ? & _)
  | H : index _ _ = Ok _ |- _ => apply index_inv in H as [? _]
  | H : uvarint_at _ _ = Ok (_, _) |- _ => apply uvarint_at_inv in H as (? & ? & ? & ?)
  | H : path_at _ _ = Ok (_, _) |- _ => apply path_at_inv in H as (? & ? & ? & ?)
  | H : decode_path _ = Ok (_, _) |- _ => apply decode_path_inv in H as (? & ?)
  | H : ok_or _ _ = Ok _ |- _ => apply ok_or_inv in H
  | H : checked_add _ _ = Some _ |- _ => apply checked_add_Some in H as [H ?]
  | H : Ok _ = Ok _ |- _ => injection H as H
  | H : (_, _) = (_, _) |- _ => injection H as H
  | b : Init.Byte.byte |- _ => lazymatch goal with
      | _ : 0 ≤ uz b < 256 |- _ => fail
      | _ => pose proof (uz_range b) end
  end.

(** A successful decode, inverted into its reads. *)
Ltac decode_inv :=
  repeat match goal with
  | H : (if ?c then Err _ else _) = Ok _ |- _ => destruct c eqn:?; [discriminate H|]
  | H : mbind _ _ = Ok _ |- _ =>
      let a := fresh "a" in let E := fresh "E" in
      apply bind_Ok_inv in H as (a & E & H); cbv beta zeta in H
  | H : (let '(_, _) := ?p in _) = Ok _ |- _ => destruct p; cbv beta iota zeta in H
  | H : (if ?c then _ else _) = Ok _ |- _ => destruct c eqn:?
  end.

(** [no_panic] of a decoder, read by read. *)
Ltac np_side :=
  unfold FILTER_BYTES in *; decode_inv; zbool; read_inv; subst; len_pos;
  first [ apply no_panic_ok_or |  apply no_panic_slice; lia | apply no_panic_index; lia
        | apply no_panic_uvarint_at; lia | apply no_panic_path_at; lia
        | apply no_panic_decode_path ].
Ltac np :=
  repeat first
  [ apply no_panic_Ok | apply no_panic_Err
  | progress cbv beta iota zeta
  | match goal with
    | |- no_panic (if ?c then _ else _) => destruct c eqn:?
    | |- no_panic (mbind _ ?m) =>
        apply no_panic_bind; [|let a := fresh "a" in intros a ?; try destruct a as [? ?]]
    | |- no_panic (let '(_, _) := ?p in _) => destruct p eqn:?
    end
  | np_side ].

Lemma from_le_bound s n : len s = n → 0 ≤ from_le_bytes s < 2 ^ (8 * n).
Proof. intros <-. apply from_le_range. Qed.

Ltac le_range :=
  match goal with
  | H : len ?s = _ |- context [from_le_bytes ?s] =>
      pose proof (from_le_bound s _ H)
  end.

Ltac decode_ok :=
  unfold FILTER_BYTES; intros; decode_inv; zbool; read_inv; subst; cbn; split_and?;
  try done; try lia; try apply wrap32_range; try (le_range; lia).

(** ** Codec laws *)

Ltac wire_laws dec okp :=
  split; cbn;
  [ let m := fresh "m" in let Hm := fresh "Hm" in
    intros m Hm; destruct m; unfold okp, FILTER_BYTES in *; cbn in Hm; destruct_and? Hm;
    eexists; split; [done|]; unfold dec, FILTER_BYTES; cbn; codec
  | let data := fresh "data" in intros data; unfold dec; np
  | unfold dec, okp; decode_ok ].

#[export] Instance SigReq_wire : Wire SigReq.t := {|
  wire_type := SIG_REQ; wire_encode := SigReq.encode;
  wire_decode := SigReq.decode; wire_ok := SigReq.ok |}.
#[export] Instance SigReq_laws : WireLaws SigReq.t.
Proof. wire_laws SigReq.decode SigReq.ok. Qed.

#[export] Instance SigRes_wire : Wire SigRes.t := {|
  wire_type := SIG_RES; wire_encode := SigRes.encode;
  wire_decode := SigRes.decode; wire_ok := SigRes.ok |}.
#[export] Instance SigRes_laws : WireLaws SigRes.t.
Proof. wire_laws SigRes.decode SigRes.ok. Qed.

#[export] Instance Announce_wire : Wire Announce.t := {|
  wire_type := ANNOUNCE; wire_encode := Announce.encode;
  wire_decode := Announce.decode; wire_ok := Announce.ok |}.
#[export] Instance Announce_laws : WireLaws Announce.t.
Proof. wire_laws Announce.decode Announce.ok. Qed.

#[export] Instance CuckooMsg_wire : Wire CuckooMsg.t := {|
  wire_type := CUCKOO_FILTER; wire_encode := CuckooMsg.encode;
  wire_decode := CuckooMsg.decode; wire_ok := CuckooMsg.ok |}.
#[export] Instance CuckooMsg_laws : WireLaws CuckooMsg.t.
Proof. wire_laws CuckooMsg.decode CuckooMsg.ok. Qed.

#[export] Instance PathLookup_wire : Wire PathLookup.t := {|
  wire_type := PATH_LOOKUP; wire_encode := PathLookup.encode;
  wire_decode := PathLookup.decode; wire_ok := PathLookup.ok |}.
#[export] Instance PathLookup_laws : WireLaws PathLookup.t.
Proof. wire_laws PathLookup.decode PathLookup.ok. Qed.

#[export] Instance PathNotify_wire : Wire PathNotify.t := {|
  wire_type := PATH_NOTIFY; wire_encode := PathNotify.encode;
  wire_decode := PathNotify.decode; wire_ok := PathNotify.ok |}.
#[export] Instance PathNotify_laws : WireLaws PathNotify.t.
Proof. wire_laws PathNotify.decode PathNotify.ok. Qed.

#[export] Instance PathBroken_wire : Wire PathBroken.t := {|
  wire_type := PATH_BROKEN; wire_encode := PathBroken.encode;
  wire_decode := PathBroken.decode; wire_ok := PathBroken.ok |}.
#[export] Instance PathBroken_laws : WireLaws PathBroken.t.
Proof. wire_laws PathBroken.decode PathBroken.ok. Qed.

#[export] Instance PathNegative_wire : Wire PathNegative.t := {|
  wire_type := TYPE_PATH_NEGATIVE; wire_encode := PathNegative.encode;
  wire_decode := PathNegative.decode; wire_ok := PathNegative.ok |}.
#[export] Instance PathNegative_laws : WireLaws PathNegative.t.
Proof. wire_laws PathNegative.decode PathNegative.ok. Qed.

#[export] Instance OnionKeyAnnounce_wire : Wire OnionKeyAnnounce.t := {|
  wire_type := TYPE_ONION_KEY_ANNOUNCE; wire_encode := OnionKeyAnnounce.encode;
  wire_decode := OnionKeyAnnounce.decode; wire_ok := OnionKeyAnnounce.ok |}.
#[export] Instance OnionKeyAnnounce_laws : WireLaws OnionKeyAnnounce.t.
Proof. wire_laws OnionKeyAnnounce.decode OnionKeyAnnounce.ok. Qed.

#[export] Instance ReputationReport_wire : Wire ReputationReport.t := {|
  wire_type := TYPE_REPUTATION_REPORT; wire_encode := ReputationReport.encode;
  wire_decode := ReputationReport.decode; wire_ok := ReputationReport.ok |}.
#[export] Instance ReputationReport_laws : WireLaws ReputationReport.t.
Proof. wire_laws ReputationReport.decode ReputationReport.ok. Qed.

#[export] Instance CapabilityAnnounce_wire : Wire CapabilityAnnounce.t := {|
  wire_type := TYPE_CAPABILITIES; wire_encode := CapabilityAnnounce.encode;
  wire_decode := CapabilityAnnounce.decode; wire_ok := CapabilityAnnounce.ok |}.
#[export] Instance CapabilityAnnounce_laws : WireLaws CapabilityAnnounce.t.
Proof. wire_laws CapabilityAnnounce.decode CapabilityAnnounce.ok. Qed.

#[export] Instance CoordAnnounce_wire : Wire CoordAnnounce.t := {|
  wire_type := TYPE_COORD_ANNOUNCE;
  wire_encode m := CoordAnnounce.encode_into m [u8 TYPE_COORD_ANNOUNCE];
  wire_decode := CoordAnnounce.decode; wire_ok := CoordAnnounce.ok |}.
#[export] Instance CoordAnnounce_laws : WireLaws CoordAnnounce.t.
Proof.
  split; cbn.
  - intros [v c d k s] (Hv & ? & ? & ? & ?). cbn in *. subst v.
    eexists. split; [done|]. unfold CoordAnnounce.decode. cbn. codec.
  - intros data. unfold CoordAnnounce.decode. np.
  - unfold CoordAnnounce.decode, CoordAnnounce.ok. decode_ok.
    apply byte.unsigned_inj. lia || done.
Qed.

Lemma clamp_small e : len e ≤ 255 → HolePunch.clamp e = len e.
Proof. unfold HolePunch.clamp. lia. Qed.

Lemma take_len {A} (l : list A) : take (Z.to_nat (len l)) l = l.
Proof. apply take_ge. unfold len. lia. Qed.

#[export] Instance HolePunch_wire : Wire HolePunch.t := {|
  wire_type := TYPE_HOLE_PUNCH; wire_encode := HolePunch.encode;
  wire_decode := HolePunch.decode; wire_ok := HolePunch.ok |}.
#[export] Instance HolePunch_laws : WireLaws HolePunch.t.
Proof.
  split; cbn.
  - intros [i t v e s] (? & ? & ? & He & Hu & ?). cbn in *.
    eexists. split; [done|]. cbn. rewrite clamp_small, take_len by done.
    pose proof (len_nonneg e). pose proof (uz_u8 (len e) ltac:(lia)) as Hl.
    unfold HolePunch.decode. repeat codec_step. by rewrite Hu.
  - intros data. unfold HolePunch.decode. np.
  - unfold HolePunch.decode, HolePunch.ok. decode_ok.
Qed.

#[export] Instance Traffic_wire : Wire Traffic.t := {|
  wire_type := TRAFFIC; wire_encode := Traffic.encode;
  wire_decode := Traffic.decode; wire_ok := Traffic.ok |}.
#[export] Instance Traffic_laws : WireLaws Traffic.t.
Proof.
  split; cbn.
  - intros [p f h tg k c w pl] (Hp & ? & ? & ? & Hc & ? & Hpl). cbn in *.
    pose proof (encode_path_len_ub p Hp). unfold ISIZE_MAX in *.
    eexists. split; [done|]. unfold Traffic.decode. rewrite decode_encode_path by done.
    destruct c as [c|].
    all: try specialize (Hc _ eq_refl); cbn [app]; repeat codec_step.
    + change (uz (u8 1) =? 0) with false. cbn [negb]. repeat codec_step.
      rewrite checked_add_small by len_lia. cbn [ok_or]. codec.
    + change (uz (u8 0) =? 0) with true. cbn [negb]. repeat codec_step.
      rewrite checked_add_small by len_lia. cbn [ok_or]. codec.
  - intros data. unfold Traffic.decode. np.
  - unfold Traffic.decode, Traffic.ok, ISIZE_MAX. decode_ok.
    intros c [= <-]. lia.
Qed.

(** ** Frames *)

Lemma Frame_decode_cons b body : Frame.decode (b :: body) = Frame.switch (uz b) body.
Proof. unfold Frame.decode. codec. Qed.

Lemma Frame_switch_other ptype data :
  Frame.known ptype = false → Frame.switch ptype data = Ok (Frame.Other ptype data).
Proof.
  intros Hk. unfold Frame.switch.
  repeat match goal with |- context [ptype =? ?c] =>
    destruct (Z.eqb_spec ptype c) as [->|_]; [discriminate Hk|] end.
  done.
Qed.

(** A message whose codec keeps its promises is recovered by the switch. *)
Lemma Frame_decode_wire {A} `{WireLaws A} (con : A → Frame.t) a :
  wire_ok a → u8_ok (wire_type (A := A)) →
  (∀ body, Frame.switch (wire_type (A := A)) body = con <$> wire_decode body) →
  Frame.decode (wire_encode a) = Ok (con a).
Proof.
  intros Hok Ht Hd. destruct (wire_roundtrip a Hok) as (body & -> & Hb).
  by rewrite Frame_decode_cons, uz_u8, Hd, Hb.
Qed.

Lemma no_panic_fmap {A B} (f : A → B) r : no_panic r → no_panic (f <$> r).
Proof. unfold no_panic. by destruct r. Qed.

Lemma fmap_Ok_inv {A B} (f : A → B) r b : f <$> r = Ok b → ∃ a, r = Ok a ∧ b = f a.
Proof. destruct r; naive_solver. Qed.

Lemma Frame_case {A} `{WireLaws A} (con : A → Frame.t) data :
  (∀ a, wire_ok a → Frame.ok (con a)) →
  no_panic (con <$> wire_decode data) ∧
  ∀ f, len data ≤ ISIZE_MAX → con <$> wire_decode data = Ok f → Frame.ok f.
Proof.
  intros Hc. split; [by apply no_panic_fmap, wire_no_panic|].
  intros f Hl (a & Ha & ->)%fmap_Ok_inv. eauto using wire_decode_ok.
Qed.

Lemma Frame_switch_sound ptype data :
  u8_ok ptype → no_panic (Frame.switch ptype data) ∧
  ∀ f, len data ≤ ISIZE_MAX → Frame.switch ptype data = Ok f → Frame.ok f.
Proof.
  intros Hp. destruct (Frame.known ptype) eqn:Hk.
  - unfold Frame.switch.
    repeat match goal with |- context [if ptype =? ?c then _ else _] =>
      destruct (Z.eqb_spec ptype c) as [->|?];
      [first [by split; [|intros ?? [= <-]]
             |match goal with |- no_panic (?con <$> _) ∧ _ => exact (Frame_case con data (λ a Ha, Ha)) end]
      |] end.
    exfalso. unfold Frame.known, DUMMY, KEEP_ALIVE, SIG_REQ, SIG_RES, ANNOUNCE, CUCKOO_FILTER,
      PATH_LOOKUP, PATH_NOTIFY, PATH_BROKEN, TRAFFIC, TYPE_COORD_ANNOUNCE, TYPE_ONION,
      TYPE_ONION_KEY_ANNOUNCE, TYPE_REPUTATION_REPORT, TYPE_HOLE_PUNCH, TYPE_PATH_NEGATIVE,
      TYPE_CAPABILITIES in *.
    apply orb_true_iff in Hk as [Hk|Hk]; zbool; lia.
  - rewrite Frame_switch_other by done. split; [done|]. by intros f _ [= <-].
Qed.

(** ** Signed bytes *)

Lemma app_inj_len {A} (x y r s : list A) :
  len x = len y → x ++ r = y ++ s → x = y ∧ r = s.
Proof. unfold len. intros Hl. apply app_inj_1. lia. Qed.

Lemma cons_inj_pair {A} (x y : A) r s : x :: r = y :: s → x = y ∧ r = s.
Proof. by intros [= -> ->]. Qed.

Lemma encode_uvarint_inj v w r s :
  u64_ok v → u64_ok w → encode_uvarint v ++ r = encode_uvarint w ++ s → v = w ∧ r = s.
Proof.
  intros Hv Hw E. pose proof (decode_encode v r Hv) as Dv. rewrite E, decode_encode in Dv by done.
  injection Dv as -> _. split; [done|]. by apply app_inv_head in E.
Qed.

Lemma le_bytes_inj n v w :
  0 ≤ v < 2 ^ (8 * Z.of_nat n) → 0 ≤ w < 2 ^ (8 * Z.of_nat n) →
  to_le_bytes n v = to_le_bytes n w → v = w.
Proof. intros ?? E. rewrite <- (from_to_le n v), <- (from_to_le n w) by done. by rewrite E. Qed.

Lemma le2_inj v w : u16_ok v → u16_ok w → to_le_bytes 2 v = to_le_bytes 2 w → v = w.
Proof. apply (le_bytes_inj 2). Qed.
Lemma le4_inj v w : u32_ok v → u32_ok w → to_le_bytes 4 v = to_le_bytes 4 w → v = w.
Proof. apply (le_bytes_inj 4). Qed.
Lemma le8_inj v w : u64_ok v → u64_ok w → to_le_bytes 8 v = to_le_bytes 8 w → v = w.
Proof. apply (le_bytes_inj 8). Qed.

(** Peel equal concatenations field by field. *)
Ltac fields_inj :=
  repeat match goal with
  | H : to_le_bytes _ _ = to_le_bytes _ _ |- _ =>
      first [apply le2_inj in H | apply le4_inj in H | apply le8_inj in H]; [|lia|lia]
  | H : _ :: _ = _ :: _ |- _ => apply cons_inj_pair in H as [? H]
  | H : ?x ++ _ = ?y ++ _ |- _ =>
      first [ apply encode_uvarint_inj in H as [? H]; [|lia|lia]
            | apply app_inj_len in H as [? H]; [|len_lia] ]
  end.

Ltac sign_inj okp sb :=
  intros Ha Hb E Hs; unfold okp in Ha, Hb; unfold sb in E; destruct_and? Ha; destruct_and? Hb;
  match goal with |- ?a = ?b => destruct a, b end; cbn in *; fields_inj; by subst.

Lemma announce_sign_inj a b :
  Announce.ok a → Announce.ok b → Announce.sign_bytes a = Announce.sign_bytes b →
  Announce.signature a = Announce.signature b → a = b.
Proof.
  unfold Announce.sign_bytes.
  rewrite <- (app_nil_r (encode_uvarint (Announce.depth a))),
    <- (app_nil_r (encode_uvarint (Announce.depth b))).
  sign_inj Announce.ok Announce.sign_bytes.
Qed.

Lemma coord_sign_inj a b :
  CoordAnnounce.ok a → CoordAnnounce.ok b →
  CoordAnnounce.sign_bytes a = CoordAnnounce.sign_bytes b →
  CoordAnnounce.sig a = CoordAnnounce.sig b → a = b.
Proof. sign_inj CoordAnnounce.ok CoordAnnounce.sign_bytes. Qed.

Lemma onion_key_sign_inj a b :
  OnionKeyAnnounce.ok a → OnionKeyAnnounce.ok b →
  OnionKeyAnnounce.sign_bytes a = OnionKeyAnnounce.sign_bytes b →
  OnionKeyAnnounce.sig a = OnionKeyAnnounce.sig b → a = b.
Proof. sign_inj OnionKeyAnnounce.ok OnionKeyAnnounce.sign_bytes. Qed.

Lemma capability_sign_inj a b :
  CapabilityAnnounce.ok a → CapabilityAnnounce.ok b →
  CapabilityAnnounce.sign_bytes a = CapabilityAnnounce.sign_bytes b →
  CapabilityAnnounce.sig a = CapabilityAnnounce.sig b → a = b.
Proof. sign_inj CapabilityAnnounce.ok CapabilityAnnounce.sign_bytes. Qed.

Lemma reputation_sign_inj a b :
  ReputationReport.ok a → ReputationReport.ok b →
  ReputationReport.sign_bytes a = ReputationReport.sign_bytes b →
  ReputationReport.sig a = ReputationReport.sig b → a = b.
Proof. sign_inj ReputationReport.ok ReputationReport.sign_bytes. Qed.

Lemma hole_punch_sign_inj a b :
  HolePunch.ok a → HolePunch.ok b →
  HolePunch.sign_bytes a = HolePunch.sign_bytes b →
  HolePunch.sig a = HolePunch.sig b → a = b.
Proof.
  intros Ha Hb. pose proof Ha as (_&_&_&Hla&_). pose proof Hb as (_&_&_&Hlb&_).
  unfold HolePunch.sign_bytes. rewrite !clamp_small, !take_len by done.
  revert Ha Hb. sign_inj HolePunch.ok HolePunch.sign_bytes.
Qed.

(** ** Properties *)

(** C15: every well-formed message, and every frame of an unknown type, is
    recovered by the receiver's type switch from the bytes its sender encodes:
    [Frame.decode] inverts [Frame.encode]. *)
Theorem frame_roundtrip f : Frame.ok f → Frame.decode (Frame.encode f) = Ok f.
Proof.
  destruct f; cbn [Frame.ok Frame.encode]; intros Hok;
    try match goal with |- _ = Ok (?con ?m) =>
      exact (Frame_decode_wire con m Hok ltac:(by vm_compute) (λ _, eq_refl)) end.
  1,2: by rewrite Frame_decode_cons.
  destruct Hok as [Hp Hk]. rewrite Frame_decode_cons, uz_u8 by lia.
  by apply Frame_switch_other.
Qed.

Definition sample_traffic : Traffic.t :=
  Traffic.mk [1; 200] (fill 32 (u8 1)) (fill 128 (u8 2)) (fill 16 (u8 3)) (u8 PKT_DATA)
    (Some (fill 16 (u8 4))) 70000 (bstr "payload").

Lemma sample_traffic_ok : Traffic.ok sample_traffic.
Proof.
  split_and!; try done.
  - repeat constructor; by vm_compute.
  - by intros c [= <-].
Qed.

Lemma frame_roundtrip_witness :
  Frame.decode (Frame.encode (Frame.ATraffic sample_traffic)) = Ok (Frame.ATraffic sample_traffic).
Proof. apply (frame_roundtrip (Frame.ATraffic sample_traffic)). apply sample_traffic_ok. Defined.

Lemma Frame_decode_sound frame :
  no_panic (Frame.decode frame) ∧
  ∀ f, len frame ≤ ISIZE_MAX → Frame.decode frame = Ok f → Frame.ok f.
Proof.
  destruct frame as [|b body]; [done|]. rewrite Frame_decode_cons.
  pose proof (uz_range b). destruct (Frame_switch_sound (uz b) body) as [Hn Hok]; [lia|].
  split; [done|]. intros f Hl. apply Hok. len_lia.
Qed.

(** C16: parsing a received frame never panics, whatever its bytes, and what it
    accepts is a well-formed message: fixed arrays have their length, integers
    their width, paths at most 1024 hops. *)
Theorem frame_decode_total frame :
  no_panic (Frame.decode frame) ∧
  ∀ f, len frame ≤ ISIZE_MAX → Frame.decode frame = Ok f → Frame.ok f.
Proof. apply Frame_decode_sound. Qed.

Lemma frame_decode_total_witness :
  Frame.ok (Frame.APathNegative (PathNegative.mk (fill 16 (u8 7)) (u8 3))).
Proof.
  apply (frame_decode_total (u8 TYPE_PATH_NEGATIVE :: fill 16 (u8 7) ++ [u8 3; u8 99]));
    by vm_compute.
Defined.

(** Within a message type the signed bytes determine the message: two
    well-formed messages of the same type with the same [sign_bytes] and the
    same signature are equal, so a signature vouches for every field. *)
Theorem sign_bytes_determine f g m :
  Frame.ok f → Frame.ok g → Frame.tag f = Frame.tag g →
  Frame.sign_bytes f = Some m → Frame.sign_bytes g = Some m →
  Frame.signature f = Frame.signature g → f = g.
Proof.
  intros Hf Hg Ht Ef Eg Hs.
  destruct f as [| |?|?|a|?|?|?|?|?|a|a|a|a|a|?|?]; try discriminate Ef;
    destruct g as [| |?|?|b|?|?|?|?|?|b|b|b|b|b|?|?]; try discriminate Ht;
    try discriminate Eg; f_equal; rewrite <- Eg in Ef;
    cbn [Frame.sign_bytes Frame.signature] in *; apply (inj Some) in Ef, Hs.
  - by apply announce_sign_inj.
  - by apply coord_sign_inj.
  - by apply onion_key_sign_inj.
  - by apply capability_sign_inj.
  - by apply reputation_sign_inj.
  - by apply hole_punch_sign_inj.
Qed.

Definition sample_announce : Announce.t :=
  Announce.mk (u8 1) (fill 32 (u8 9)) 5 300 (fill 32 (u8 8)) (fill 64 (u8 7)) 2.

Lemma sign_bytes_determine_witness :
  ∃ m, Frame.sign_bytes (Frame.AnAnnounce sample_announce) = Some m ∧
  (∀ d, Frame.ok (Frame.AnAnnounce (Announce.mk (u8 1) (fill 32 (u8 9)) 5 300 (fill 32 (u8 8))
           (fill 64 (u8 7)) d)) →
        Frame.sign_bytes (Frame.AnAnnounce (Announce.mk (u8 1) (fill 32 (u8 9)) 5 300
           (fill 32 (u8 8)) (fill 64 (u8 7)) d)) = Some m → d = 2).
Proof.
  eexists. split; [reflexivity|]. intros d Hok E.
  enough (Frame.AnAnnounce (Announce.mk (u8 1) (fill 32 (u8 9)) 5 300 (fill 32 (u8 8))
           (fill 64 (u8 7)) d) = Frame.AnAnnounce sample_announce) as [= ->]; [done|].
  refine (sign_bytes_determine _ (Frame.AnAnnounce sample_announce) _ Hok _
    eq_refl E eq_refl eq_refl).
  by split_and!.
Defined.

(** Across message types nothing separates the signed bytes: a hole-punch
    request for a nine-byte endpoint signs exactly the bytes of a reputation
    report, so its signature is also one of the initiator on that report. *)
Lemma hole_punch_signs_reputation (hp : HolePunch.t) :
  HolePunch.ok hp → len (HolePunch.endpoint hp) = 9 →
  ∃ r, ReputationReport.ok r ∧
    ReputationReport.observer r = HolePunch.initiator hp ∧
    ReputationReport.observed r = HolePunch.target hp ∧
    ReputationReport.sign_bytes r = HolePunch.sign_bytes hp ∧
    ReputationReport.sig r = HolePunch.sig hp.
Proof.
  destruct hp as [i t v e s]. intros (?&?&?&?&Hu&?) He. cbn in *.
  set (tail := to_le_bytes 8 v ++ [u8 9] ++ e).
  assert (len tail = 18) by (unfold tail; len_lia).
  exists (ReputationReport.mk i t (from_le_bytes (take 2 tail))
    (from_le_bytes (take 8 (drop 2 tail))) (from_le_bytes (drop 10 tail)) s).
  assert (len (take 2 tail) = 2 ∧ len (take 8 (drop 2 tail)) = 8 ∧ len (drop 10 tail) = 8)
    as (L1 & L2 & L3) by (split_and!; len_lia).
  pose proof (from_le_bound _ _ L1). pose proof (from_le_bound _ _ L2).
  pose proof (from_le_bound _ _ L3).
  split; [unfold ReputationReport.ok; cbn [Z.mul Pos.mul] in *; cbn; split_and!; lia|].
  split_and!; try done.
  unfold ReputationReport.sign_bytes, HolePunch.sign_bytes. cbn.
  rewrite clamp_small by done. rewrite take_len, He. do 2 f_equal.
  change (to_le_bytes 8 v ++ u8 9 :: e) with tail.
  rewrite !to_from_le by len_lia.
  by rewrite <- (drop_drop _ 8 2 : drop 8 (drop 2 tail) = drop 10 tail), take_drop, take_drop.
Qed.
