(* ===== verification/Header.v ===== *)
(** * Payload padding and the encrypted header ([src/router/header.rs])

    The padding that hides payload lengths, and the 128-byte header that hides
    source and destination from every node but the destination.  The ephemeral
    secret drawn by [encrypt_header] is an argument; [debug] says whether the
    build has [debug_assert!] on. *)

From S2P Require Import Prelude Crypto Varint Cuckoo Packet.

(** ** Padding *)

Definition PAD_BLOCK : Z := 256.
Definition U16_MAX : Z := 65535.

(** [a.div_ceil(b)] *)
Definition div_ceil (a b : Z) : Z := (a + b - 1) / b.

Definition pad_payload (debug : bool) (data : bytes) : res bytes :=
  if debug && (U16_MAX <? len data) then Panic else
  let orig_len := Z.min (len data) U16_MAX in
  data ← slice data 0 orig_len;
  let out := [u8 (Z.land orig_len 0xFF); u8 (Z.shiftr orig_len 8)] ++ data in
  let target := div_ceil (len out) PAD_BLOCK * PAD_BLOCK in
  Ok (out ++ fill (target - len out) (u8 0)).

Definition unpad_payload (padded : bytes) : res bytes :=
  bail_if len padded <? 2 with "unpad: too short";
  b0 ← index padded 0;
  b1 ← index padded 1;
  let orig_len := from_le_bytes [b0; b1] in
  bail_if len padded <? 2 + orig_len with "unpad: length field > available";
  slice padded 2 (2 + orig_len).

(** ** Header privacy *)

Section Header.
Context `{Blake2} `{Sha512} `{X25519} `{Ed25519} `{Aead}.

(** [header[a..b].copy_from_slice(x)]: panics unless the lengths agree. *)
Definition copied (n : Z) (x : bytes) : res bytes := if len x =? n then Ok x else Panic.

Definition zero_header : bytes * bytes := (fill 128 (u8 0), fill 16 (u8 0)).

Definition encrypt_header (epk_priv source_ed_pub dest_ed_pub : bytes) : res (bytes * bytes) :=
  let epk_pub := x25519_base epk_priv in
  match ed25519_pub_to_x25519 dest_ed_pub with
  | Ok dest_x =>
      let key := x25519 epk_priv dest_x in
      let aad := epk_pub in
      match aead_seal key (nonce_of 0) aad source_ed_pub with
      | None => Ok zero_header
      | Some src_buf =>
          match aead_seal key (nonce_of 1) aad dest_ed_pub with
          | None => Ok zero_header
          | Some dst_buf =>
              h0 ← copied 32 epk_pub;
              h1 ← copied 48 src_buf;
              h2 ← copied 48 dst_buf;
              Ok (h0 ++ h1 ++ h2, routing_tag dest_ed_pub)
          end
      end
  | _ => Ok zero_header
  end.

Definition decrypt_source_from_header (enc_header my_sk : bytes) : option bytes :=
  epk_pub ← res_ok (slice enc_header 0 32);
  let my_x := ed25519_priv_to_x25519 my_sk in
  let key := x25519 my_x epk_pub in
  buf ← res_ok (slice enc_header 32 80);
  buf ← aead_open key (nonce_of 0) epk_pub buf;
  if len buf =? 32 then Some buf else None.

Definition decrypt_dest_from_header (enc_header my_sk : bytes) : option bytes :=
  epk_pub ← res_ok (slice enc_header 0 32);
  let my_x := ed25519_priv_to_x25519 my_sk in
  let key := x25519 my_x epk_pub in
  buf ← res_ok (slice enc_header 80 128);
  buf ← aead_open key (nonce_of 1) epk_pub buf;
  if len buf =? 32 then Some buf else None.
End Header.

(** ** Lemmas *)

(** The two length bytes are the little-endian form of a [u16]. *)
Lemma len_bytes_le n :
  u16_ok n → from_le_bytes [u8 (Z.land n 0xFF); u8 (Z.shiftr n 8)] = n.
Proof.
  intros Hn. rewrite <- (from_to_le 2 n) at 3 by (cbn; lia). f_equal.
  unfold le_split. f_equal.
  apply byte.unsigned_inj. rewrite !byte.unsigned_of_Z. unfold byte.wrap.
  change 0xFF with (Z.ones 8). rewrite Z.land_ones by lia. by rewrite Z.mod_mod by lia.
Qed.

Lemma div_ceil_bounds a b : 0 < b → 0 ≤ a → a ≤ div_ceil a b * b < a + b.
Proof.
  intros. unfold div_ceil. pose proof (Z.div_mod (a + b - 1) b ltac:(lia)).
  pose proof (Z.mod_pos_bound (a + b - 1) b ltac:(lia)). nia.
Qed.

(** [pad_payload] on a payload that fits, in a shape the codec tactics read. *)
Lemma pad_payload_small debug data :
  len data ≤ U16_MAX →
  ∃ pad, pad_payload debug data
    = Ok (u8 (Z.land (len data) 0xFF) :: u8 (Z.shiftr (len data) 8) :: data ++ pad)
    ∧ len data + 2 + len pad = div_ceil (len data + 2) PAD_BLOCK * PAD_BLOCK.
Proof.
  intros Hl. len_pos. unfold pad_payload, U16_MAX in *.
  replace (65535 <? len data) with false by lia. rewrite andb_false_r.
  rewrite Z.min_l by lia. rewrite slice_all by done. rewrite bind_Ok.
  eexists. split; [cbn; reflexivity|].
  rewrite !len_cons.
  pose proof (div_ceil_bounds (len data + 2) PAD_BLOCK ltac:(done) ltac:(lia)).
  replace (1 + (1 + len data)) with (len data + 2) by lia.
  rewrite len_fill; lia.
Qed.

Lemma unpad_pad_small debug data :
  len data ≤ U16_MAX → pad_payload debug data ≫= unpad_payload = Ok data.
Proof.
  intros Hl. destruct (pad_payload_small debug data Hl) as (pad & -> & _).
  rewrite bind_Ok. unfold unpad_payload.
  pose proof (len_bytes_le (len data)) as Hb. unfold U16_MAX in *. len_pos.
  codec.
Qed.

Lemma no_panic_unpad padded : no_panic (unpad_payload padded).
Proof.
  unfold unpad_payload. np.
  pose proof (from_le_range [a; a0]). apply no_panic_slice; zbool; lia.
Qed.

Section HeaderLemmas.
Context `{Blake2} `{Sha512} `{X25519Laws} `{Ed25519Laws} `{AeadLaws}.

Lemma copied_ok n x : len x = n → copied n x = Ok x.
Proof. intros <-. unfold copied. by rewrite Z.eqb_refl. Qed.

(** The header a sender builds for any destination whose key decompresses. *)
Lemma encrypt_header_shape e src dst dx :
  len src = 32 → len dst = 32 → ed_to_montgomery dst = Some dx →
  ∃ c0 c1, aead_seal (x25519 e dx) (nonce_of 0) (x25519_base e) src = Some c0 ∧
    aead_seal (x25519 e dx) (nonce_of 1) (x25519_base e) dst = Some c1 ∧
    len c0 = 48 ∧ len c1 = 48 ∧
    encrypt_header e src dst = Ok (x25519_base e ++ c0 ++ c1, routing_tag dst).
Proof.
  intros Hs Hd Hx. unfold encrypt_header, ed25519_pub_to_x25519. rewrite Hx. cbn [ok_or].
  destruct (aead_seal_ok (x25519 e dx) (nonce_of 0) (x25519_base e) src) as (c0 & E0 & L0);
    [by rewrite Hs|].
  destruct (aead_seal_ok (x25519 e dx) (nonce_of 1) (x25519_base e) dst) as (c1 & E1 & L1);
    [by rewrite Hd|].
  exists c0, c1. split_and!; try done; try lia. rewrite E0, E1.
  by rewrite !copied_ok by (done || lia || apply x25519_base_len).
Qed.

Lemma encrypt_header_runs e src dst :
  len src = 32 → len dst = 32 → ∃ h, encrypt_header e src dst = Ok h.
Proof.
  intros Hs Hd. destruct (ed_to_montgomery dst) as [dx|] eqn:Hx.
  - destruct (encrypt_header_shape e src dst dx Hs Hd Hx) as (? & ? & _ & _ & _ & _ & ->).
    by eexists.
  - unfold encrypt_header, ed25519_pub_to_x25519. rewrite Hx. by eexists.
Qed.
End HeaderLemmas.

(** ** Properties *)

(** Padding is undone by unpadding for every payload of at most 65535 bytes,
    in both build profiles; the padded length is a positive multiple of 256 that
    depends on the payload's length only through its block count, and unpadding
    never panics on any input. *)
Theorem pad_unpad debug data :
  len data ≤ U16_MAX →
  ∃ padded, pad_payload debug data = Ok padded ∧ unpad_payload padded = Ok data ∧
    len padded = div_ceil (len data + 2) PAD_BLOCK * PAD_BLOCK ∧
    (∀ other, no_panic (unpad_payload other)).
Proof.
  intros Hl. destruct (pad_payload_small debug data Hl) as (pad & E & L).
  eexists. split; [exact E|]. split_and!.
  - pose proof (unpad_pad_small debug data Hl) as U. by rewrite E, bind_Ok in U.
  - rewrite !len_cons, len_app. lia.
  - apply no_panic_unpad.
Qed.

Lemma pad_unpad_witness :
  ∃ padded, pad_payload true (bstr "hello") = Ok padded ∧ unpad_payload padded = Ok (bstr "hello")
    ∧ len padded = 256 ∧ (∀ other, no_panic (unpad_payload other)).
Proof. apply (pad_unpad true (bstr "hello")). by vm_compute. Defined.

(** The header a sender encrypts for a destination is 128 bytes, carries the
    destination's routing tag, and gives the destination, and so both fields,
    back: only the holder of the destination's seed needs its key to read it. *)
Theorem header_roundtrip `{Blake2} `{Sha512} `{X25519Laws} `{Ed25519Laws} `{AeadLaws} `{!EdXLaws}
    e src sk :
  len src = 32 →
  ∃ h, encrypt_header e src (ed_public sk) = Ok (h, routing_tag (ed_public sk)) ∧ len h = 128 ∧
    decrypt_source_from_header h sk = Some src ∧
    decrypt_dest_from_header h sk = Some (ed_public sk).
Proof.
  intros Hs. pose proof (ed_public_len sk) as Hd. pose proof (x25519_base_len e) as He.
  destruct (encrypt_header_shape e src _ _ Hs Hd (ed_montgomery sk))
    as (c0 & c1 & E0 & E1 & L0 & L1 & ->).
  eexists. split; [done|]. split; [len_lia|].
  unfold decrypt_source_from_header, decrypt_dest_from_header.
  rewrite (slice_head (x25519_base e) _ 0 32) by len_lia.
  rewrite !(slice_drop (x25519_base e)) by len_lia.
  rewrite (slice_head c0 c1 (32 - _)) by len_lia.
  rewrite (slice_drop c0), (slice_whole c1) by len_lia. cbn.
  rewrite (x25519_comm _ e).
  apply aead_seal_open in E0, E1. rewrite E0, E1. cbn.
  rewrite Hs, Hd. done.
Qed.

Section HeaderWitness.
Import Toy.

Lemma header_roundtrip_witness :
  ∃ h, encrypt_header (fill 32 (u8 5)) (fill 32 (u8 6)) (ed_public (fill 32 (u8 7)))
         = Ok (h, routing_tag (ed_public (fill 32 (u8 7)))) ∧ len h = 128 ∧
    decrypt_source_from_header h (fill 32 (u8 7)) = Some (fill 32 (u8 6)) ∧
    decrypt_dest_from_header h (fill 32 (u8 7)) = Some (ed_public (fill 32 (u8 7))).
Proof. apply (header_roundtrip (fill 32 (u8 5)) (fill 32 (u8 6)) (fill 32 (u8 7))). done. Defined.
End HeaderWitness.
