(* ===== verification/Address.v ===== *)
(** * IPv6 addresses and subnets of a key ([src/address.rs])

    The address of a key is 0x02, the number of leading one bits of the key's
    64-byte hash, and the 112 bits that follow the terminating zero bit; the
    subnet is the same with 0x03 and 48 bits.  [hash[src_byte]] is a checked
    index, so the model panics where the code does. *)

From S2P Require Import Prelude Crypto.

(** ** Model *)

(** The inner loop over the bits of a byte, most significant first: the count
    so far, and whether the outer loop goes on. *)
Fixpoint count_bits (bits : list Z) (byte : byte) (ones : Z) : Z * bool :=
  match bits with
  | [] => (ones, true)
  | bit :: bits =>
      if negb (Z.land (uz byte) (Z.shiftl 1 bit) =? 0)
      then count_bits bits byte (ones + 1) else (ones, false)
  end.

Definition BITS : list Z := [7; 6; 5; 4; 3; 2; 1; 0].

(** The ['outer] loop. *)
Fixpoint count_ones (hash : bytes) (ones : Z) : Z :=
  match hash with
  | [] => ones
  | byte :: hash =>
      let '(ones, go) := count_bits BITS byte ones in
      if go then count_ones hash ones else ones
  end.

(** The copy loop: [n] bits of [hash] from bit [start_bit], into [out] from its
    third byte. *)
Fixpoint copy_bits (n : nat) (i start_bit : Z) (hash out : bytes) : res bytes :=
  match n with
  | O => Ok out
  | S n =>
      let src_bit := start_bit + i in
      let src_byte := src_bit / 8 in
      let src_bit_in_byte := 7 - src_bit mod 8 in
      h ← index hash src_byte;
      let bit := Z.land (Z.shiftr (uz h) src_bit_in_byte) 1 in
      let dst_byte := 2 + i / 8 in
      let dst_bit_in_byte := 7 - i mod 8 in
      let out := alter (λ b, or8 b (Z.shiftl bit dst_bit_in_byte)) (Z.to_nat dst_byte) out in
      copy_bits n (i + 1) start_bit hash out
  end.

Definition addr_from_hash (hash : bytes) : res bytes :=
  let ones := count_ones hash 0 in
  let addr := [u8 2; u8 ones] ++ fill 14 (u8 0) in
  let start_bit := ones + 1 in
  copy_bits 112 0 start_bit hash addr.

Definition subnet_from_hash (hash : bytes) : res bytes :=
  let ones := count_ones hash 0 in
  let subnet := [u8 3; u8 ones] ++ fill 6 (u8 0) in
  let start_bit := ones + 1 in
  copy_bits 48 0 start_bit hash subnet.

Section Keys.
Context `{Blake2}.

Definition key_hash (pub_key : bytes) : bytes := blake2b 64 pub_key.
Definition address_from_key (pub_key : bytes) : res bytes := addr_from_hash (key_hash pub_key).
Definition subnet_from_key (pub_key : bytes) : res bytes := subnet_from_hash (key_hash pub_key).
Definition key_difficulty_bits (pub_key : bytes) : Z := count_ones (key_hash pub_key) 0.
End Keys.

#[global] Arguments address_from_key {_} _ : simpl never.
#[global] Arguments subnet_from_key {_} _ : simpl never.

(** ** Bits of a byte string *)

(** Bit [k] of [l], the most significant bit of the first byte being bit 0. *)
Definition bit_of (l : bytes) (k : Z) : bool :=
  match l !! Z.to_nat (k / 8) with
  | Some b => Z.testbit (uz b) (7 - k mod 8)
  | None => false
  end.

Lemma bit_cons b l k : 8 ≤ k → bit_of (b :: l) k = bit_of l (k - 8).
Proof.
  intros. unfold bit_of. replace (k - 8) with (k + (-1) * 8) by lia.
  rewrite Z.div_add, Z.mod_add by lia.
  assert (1 ≤ k / 8) by (apply Z.div_le_lower_bound; lia).
  by replace (Z.to_nat (k / 8)) with (S (Z.to_nat (k / 8 + -1))) by lia.
Qed.

Lemma bit_head b l k : 0 ≤ k < 8 → bit_of (b :: l) k = Z.testbit (uz b) (7 - k).
Proof. intros. unfold bit_of. by rewrite Z.div_small, Z.mod_small by lia. Qed.

(** What the inner loop counts. *)
Lemma count_bits_spec b l ones :
  ∃ c go, count_bits BITS b ones = (ones + c, go) ∧ 0 ≤ c ≤ 8 ∧ (go = true ↔ c = 8) ∧
    (∀ k, 0 ≤ k < c → bit_of (b :: l) k = true) ∧ (c < 8 → bit_of (b :: l) c = false).
Proof.
  assert (∀ n bits (c : Z), Z.of_nat n + c = 8 → 0 ≤ c →
    bits = drop (Z.to_nat c) BITS →
    (∀ k, 0 ≤ k < c → bit_of (b :: l) k = true) →
    ∃ c' go, count_bits bits b (ones + c) = (ones + c', go) ∧ 0 ≤ c' ≤ 8 ∧ (go = true ↔ c' = 8) ∧
      (∀ k, 0 ≤ k < c' → bit_of (b :: l) k = true) ∧ (c' < 8 → bit_of (b :: l) c' = false)) as H.
  { induction n as [|n IH]; intros bits c Hc Hc0 Hb Hk.
    - assert (c = 8) as -> by lia. subst bits. exists 8, true.
      split_and!; try done; lia.
    - assert (bits = (7 - c) :: drop (Z.to_nat (c + 1)) BITS) as ->.
      { subst bits. assert (c = 0 ∨ c = 1 ∨ c = 2 ∨ c = 3 ∨ c = 4 ∨ c = 5 ∨ c = 6 ∨ c = 7)
          as Hcs by lia. destruct_or! Hcs; subst c; reflexivity. }
      cbn [count_bits]. rewrite land_pow2_testbit by lia.
      pose proof (bit_head b l c ltac:(lia)) as Hbit.
      destruct (Z.testbit (uz b) (7 - c)) eqn:E.
      + replace (ones + c + 1) with (ones + (c + 1)) by lia. apply IH; [lia|lia|done|].
        intros k Hk'. destruct (decide (k = c)) as [->|]; [done|]. apply Hk. lia.
      + exists c, false. split_and!; try done; lia. }
  destruct (H 8%nat BITS 0) as (c & go & E & ?); [done..|intros; lia|].
  exists c, go. by rewrite Z.add_0_r in E.
Qed.

Lemma count_ones_spec hash ones :
  ∃ c, count_ones hash ones = ones + c ∧ 0 ≤ c ≤ 8 * len hash ∧
    (∀ k, 0 ≤ k < c → bit_of hash k = true) ∧
    (c < 8 * len hash → bit_of hash c = false).
Proof.
  revert ones. induction hash as [|b hash IH]; intros ones; cbn [count_ones].
  { exists 0. split_and!; [lia|done|done|intros; lia|intros Hlt; by vm_compute in Hlt]. }
  destruct (count_bits_spec b hash ones) as (c & go & -> & Hc & Hgo & Hones & Hzero).
  rewrite len_cons. len_pos. destruct go.
  - assert (c = 8) as -> by by apply Hgo. destruct (IH (ones + 8)) as (d & -> & Hd & Ho & Hz).
    exists (8 + d). split_and!; try lia.
    + intros k Hk. destruct (decide (k < 8)); [apply Hones; lia|].
      rewrite bit_cons by lia. apply Ho. lia.
    + intros Hlt. rewrite bit_cons by lia. replace (8 + d - 8) with d by lia. apply Hz. lia.
  - exists c. split_and!; try lia; [done|]. intros _. apply Hzero.
    destruct (decide (c = 8)) as [E|]; [by apply Hgo in E|lia].
Qed.

(** [addr[dst_byte] |= bit << dst_bit_in_byte] sets bit [16 + i] to [bit]. *)
Lemma testbit_or8 b m j :
  0 ≤ m < 256 → 0 ≤ j < 8 → Z.testbit (uz (or8 b m)) j = Z.testbit (uz b) j || Z.testbit m j.
Proof.
  intros Hm Hj. unfold or8. pose proof (uz_range b).
  rewrite uz_u8; [apply Z.lor_spec|]. apply (lor_range _ _ 8); lia.
Qed.

Lemma shift_bit_range (x : bool) d : 0 ≤ d < 8 → 0 ≤ Z.shiftl (Z.b2z x) d < 256.
Proof.
  intros. rewrite Z.shiftl_mul_pow2 by lia.
  assert (0 < 2 ^ d ≤ 2 ^ 7) by (split; [lia|apply Z.pow_le_mono_r; lia]).
  destruct x; cbn [Z.b2z]; lia.
Qed.

Lemma bit_of_set out i (x : bool) k :
  0 ≤ i → 2 + i / 8 < len out → 0 ≤ k →
  bit_of (alter (λ b, or8 b (Z.shiftl (Z.b2z x) (7 - i mod 8))) (Z.to_nat (2 + i / 8)) out) k
  = bit_of out k || ((k =? 16 + i) && x).
Proof.
  intros Hi Hl Hk. unfold bit_of.
  pose proof (Z.mod_pos_bound i 8 ltac:(lia)). pose proof (Z.mod_pos_bound k 8 ltac:(lia)).
  pose proof (Z.div_mod i 8 ltac:(lia)). pose proof (Z.div_mod k 8 ltac:(lia)).
  pose proof (Z.div_pos i 8 ltac:(lia) ltac:(lia)). pose proof (Z.div_pos k 8 ltac:(lia) ltac:(lia)).
  destruct (decide (k / 8 = 2 + i / 8)) as [E|Hne].
  - rewrite E, list_lookup_alter_eq.
    destruct (lookup_lt_is_Some_2 out (Z.to_nat (2 + i / 8))) as [b Hb]; [unfold len in *; lia|].
    rewrite Hb. cbn [fmap option_fmap option_map].
    rewrite testbit_or8; [|apply shift_bit_range; lia|lia]. f_equal.
    rewrite Z.shiftl_spec by lia. destruct (Z.eqb_spec k (16 + i)) as [->|Hn].
    + replace (16 + i) with (i + 2 * 8) by lia. rewrite Z.mod_add by lia.
      rewrite Z.sub_diag. by destruct x.
    + destruct (Z.lt_ge_cases (7 - k mod 8 - (7 - i mod 8)) 0); [by rewrite Z.testbit_neg_r|].
      assert (0 < 7 - k mod 8 - (7 - i mod 8)) by lia.
      rewrite (Z.bits_above_log2 (Z.b2z x)); [done|by destruct x|by destruct x; cbn; lia].
  - rewrite list_lookup_alter_ne by lia.
    replace (k =? 16 + i) with false; [by rewrite orb_false_r|].
    symmetry. apply Z.eqb_neq. intros ->. apply Hne.
    replace (16 + i) with (i + 2 * 8) by lia. rewrite Z.div_add; lia.
Qed.

Lemma bit_value h s : 0 ≤ s → Z.land (Z.shiftr (uz h) s) 1 = Z.b2z (Z.testbit (uz h) s).
Proof.
  intros. change 1 with (Z.ones 1). rewrite Z.land_ones by lia.
  by rewrite <- Z.bit0_mod, Z.shiftr_spec.
Qed.

Lemma copy_bits_spec n : ∀ i start hash out,
  0 ≤ i → 0 ≤ start → start + i + Z.of_nat n ≤ 8 * len hash →
  16 + i + Z.of_nat n ≤ 8 * len out → (∀ k, 16 + i ≤ k → bit_of out k = false) →
  ∃ out', copy_bits n i start hash out = Ok out' ∧ len out' = len out ∧ take 2 out' = take 2 out ∧
    (∀ k, 0 ≤ k < 16 + i → bit_of out' k = bit_of out k) ∧
    (∀ k, i ≤ k < i + Z.of_nat n → bit_of out' (16 + k) = bit_of hash (start + k)).
Proof.
  induction n as [|n IH]; intros i start hash out Hi Hs Hh Ho Hz; cbn [copy_bits].
  { exists out. split_and!; try done. intros; lia. }
  pose proof (Z.mod_pos_bound (start + i) 8 ltac:(lia)).
  destruct (index_ok hash ((start + i) / 8)) as (h & -> & Hlk).
  { split; [apply Z.div_pos; lia|]. apply Z.div_lt_upper_bound; lia. }
  rewrite bind_Ok, bit_value by lia.
  assert (Z.testbit (uz h) (7 - (start + i) mod 8) = bit_of hash (start + i)) as ->
    by (unfold bit_of; by rewrite Hlk).
  assert (2 + i / 8 < len out) as Hlt.
  { enough (i / 8 < len out - 2) by lia. apply Z.div_lt_upper_bound; lia. }
  pose proof (bit_of_set out i (bit_of hash (start + i))) as Hset.
  set (out1 := alter _ _ out) in *.
  assert (len out1 = len out) as L1 by (unfold out1, len; by rewrite length_alter).
  destruct (IH (i + 1) start hash out1) as (out' & -> & L & T & Hlow & Hcopy); try lia.
  { intros k Hk. rewrite Hset by lia. rewrite Hz by lia.
    by replace (k =? 16 + i) with false by lia. }
  exists out'. split_and!; [done|lia| | |].
  - rewrite T. unfold out1. pose proof (Z.div_pos i 8 ltac:(lia) ltac:(lia)).
    apply take_alter_ge. lia.
  - intros k Hk. rewrite Hlow by lia. rewrite Hset by lia.
    replace (k =? 16 + i) with false by lia. apply orb_false_r.
  - intros k Hk. destruct (decide (k = i)) as [->|]; [|apply Hcopy; lia].
    rewrite Hlow by lia. rewrite Hset by lia. by rewrite Hz, Z.eqb_refl by lia.
Qed.

Lemma copy_bits_panic n : ∀ i start hash out,
  0 ≤ i → 0 ≤ start → (0 < n)%nat → 8 * len hash < start + i + Z.of_nat n →
  copy_bits n i start hash out = Panic.
Proof.
  induction n as [|n IH]; intros i start hash out Hi Hs Hn Hh; [lia|]. cbn [copy_bits].
  destruct (decide (8 * len hash ≤ start + i)) as [Hge|Hlt].
  - unfold index. rewrite (proj2 (Z.ltb_ge _ _)); [by rewrite andb_false_r|].
    apply Z.div_le_lower_bound; lia.
  - destruct (index_ok hash ((start + i) / 8)) as (h & -> & _).
    { split; [apply Z.div_pos; lia|]. apply Z.div_lt_upper_bound; lia. }
    rewrite bind_Ok. apply IH; lia.
Qed.

Lemma zero_tail_bits a b n k : 0 ≤ n → 16 ≤ k → bit_of ([a; b] ++ fill n (u8 0)) k = false.
Proof.
  intros Hn Hk. cbn [app]. rewrite !bit_cons by lia. unfold bit_of.
  case_match eqn:E; [|done]. apply lookup_replicate in E as [-> _]. apply Z.bits_0.
Qed.

(** ** Properties *)

(** The address of a 64-byte key hash with fewer than 400 leading ones is 16
    bytes: 0x02, the number of leading one bits (a zero bit follows them), and
    the 112 hash bits after that zero bit, bit for bit. *)
Theorem address_bits hash :
  len hash = 64 → count_ones hash 0 < 400 →
  let ones := count_ones hash 0 in
  ∃ addr, addr_from_hash hash = Ok addr ∧ len addr = 16 ∧ take 2 addr = [u8 2; u8 ones] ∧
    (∀ k, 0 ≤ k < ones → bit_of hash k = true) ∧ bit_of hash ones = false ∧
    (∀ k, 0 ≤ k < 112 → bit_of addr (16 + k) = bit_of hash (ones + 1 + k)).
Proof.
  intros Hl Hc ones. unfold ones in *. destruct (count_ones_spec hash 0) as (c & E & Hr & Ho & Hz).
  rewrite Z.add_0_l in E. unfold addr_from_hash. rewrite E in *. clear E.
  destruct (copy_bits_spec 112 0 (c + 1) hash ([u8 2; u8 c] ++ fill 14 (u8 0)))
    as (a & -> & L & T & _ & Hbits); [lia|lia|lia|len_lia| |].
  { intros. apply zero_tail_bits; lia. }
  exists a. split_and!; try done. apply Hz. lia.
Qed.

Lemma address_bits_witness :
  ∃ addr, addr_from_hash (fill 2 (u8 255) ++ fill 62 (u8 0x5A)) = Ok addr ∧ len addr = 16 ∧
    take 2 addr = [u8 2; u8 16] ∧
    (∀ k, 0 ≤ k < 16 → bit_of (fill 2 (u8 255) ++ fill 62 (u8 0x5A)) k = true) ∧
    bit_of (fill 2 (u8 255) ++ fill 62 (u8 0x5A)) 16 = false ∧
    (∀ k, 0 ≤ k < 112 →
      bit_of addr (16 + k) = bit_of (fill 2 (u8 255) ++ fill 62 (u8 0x5A)) (16 + 1 + k)).
Proof. apply (address_bits (fill 2 (u8 255) ++ fill 62 (u8 0x5A))); by vm_compute. Defined.

(** Deriving an address panics exactly when the hash starts with at least 400
    one bits (the copy runs past its 512 bits); deriving a subnet exactly from
    464 on. *)
Theorem address_panics hash :
  len hash = 64 →
  (addr_from_hash hash = Panic ↔ 400 ≤ count_ones hash 0) ∧
  (subnet_from_hash hash = Panic ↔ 464 ≤ count_ones hash 0).
Proof.
  intros Hl. destruct (count_ones_spec hash 0) as (c & E & Hr & _).
  rewrite Z.add_0_l in E. unfold addr_from_hash, subnet_from_hash. rewrite E in *. clear E.
  split; split.
  - intros Hp. destruct (Z.lt_ge_cases c 400); [exfalso|done].
    destruct (copy_bits_spec 112 0 (c + 1) hash ([u8 2; u8 c] ++ fill 14 (u8 0)))
      as (a & Ha & _); [lia|lia|lia|len_lia| |by rewrite Hp in Ha].
    intros. apply zero_tail_bits; lia.
  - intros. apply copy_bits_panic; lia.
  - intros Hp. destruct (Z.lt_ge_cases c 464); [exfalso|done].
    destruct (copy_bits_spec 48 0 (c + 1) hash ([u8 3; u8 c] ++ fill 6 (u8 0)))
      as (a & Ha & _); [lia|lia|lia|len_lia| |by rewrite Hp in Ha].
    intros. apply zero_tail_bits; lia.
  - intros. apply copy_bits_panic; lia.
Qed.

Lemma address_panics_witness :
  addr_from_hash (fill 64 (u8 255)) = Panic ∧ subnet_from_hash (fill 50 (u8 255) ++ fill 14 (u8 0)) ≠ Panic.
Proof.
  split.
  - apply (address_panics (fill 64 (u8 255)) eq_refl). by vm_compute.
  - intros Hp. apply (address_panics (fill 50 (u8 255) ++ fill 14 (u8 0)) eq_refl) in Hp.
    by vm_compute in Hp.
Defined.
