(* ===== verification/Text.v ===== *)
(** * Text

    The parts of Rust's standard library that turn numbers and addresses into text
    and back, as the configuration, the discovery and the administration use them:
    decimal and hexadecimal integers, [split], [trim], and the canonical text of an
    IPv6 address ([ipv6_string] in [src/tun.rs], [src/admin.rs], [src/node.rs] and
    [format_ipv6] in [src/bin/nornd.rs]).  The [hex] crate is a parameter. *)

From S2P Require Import Prelude Crypto Address.

(** ** Integers *)

Definition digit_char (d : Z) : byte := u8 (if d <? 10 then 48 + d else 87 + d).
Definition digit_val (base : Z) (b : byte) : option Z :=
  let c := uz b in
  let d := if (48 <=? c) && (c <=? 57) then Some (c - 48)
           else if (97 <=? c) && (c <=? 122) then Some (c - 87)
           else if (65 <=? c) && (c <=? 90) then Some (c - 55) else None in
  d ≫= λ d, if d <? base then Some d else None.

(** [{}] and [{:x}] of an unsigned integer; it has no more digits than bits. *)
Fixpoint number_loop (fuel : nat) (base n : Z) (acc : bytes) : bytes :=
  match fuel with
  | O => acc
  | S fuel =>
      let acc := digit_char (n mod base) :: acc in
      if n / base =? 0 then acc else number_loop fuel base (n / base) acc
  end.
Definition number (base n : Z) : bytes := number_loop (S (Z.to_nat (Z.log2 n))) base n [].
Definition decimal : Z → bytes := number 10.

(** [from_str_radix] of an unsigned type with the maximum [max]. *)
Fixpoint parse_digits (base max acc : Z) (l : bytes) : option Z :=
  match l with
  | [] => Some acc
  | b :: l =>
      d ← digit_val base b;
      if max <? acc * base + d then None else parse_digits base max (acc * base + d) l
  end.
Definition parse_number (base max : Z) (l : bytes) : option Z :=
  match l with
  | [] => None
  | b :: rest =>
      if uz b =? 43 then match rest with [] => None | _ => parse_digits base max 0 rest end
      else parse_digits base max 0 l
  end.

(** ** Splitting *)

(** [s.split(sep)] with a separator of one byte; it has at least one part. *)
Fixpoint split_on (sep : byte) (l : bytes) : list bytes :=
  match l with
  | [] => [[]]
  | b :: l =>
      if bool_decide (b = sep) then [] :: split_on sep l
      else match split_on sep l with
           | [] => [[b]]
           | part :: parts => (b :: part) :: parts
           end
  end.

Fixpoint join (sep : bytes) (parts : list bytes) : bytes :=
  match parts with
  | [] => []
  | [part] => part
  | part :: parts => part ++ sep ++ join sep parts
  end.

(** Text in double quotes. *)
Definition quote : byte := u8 34.
Definition quoted (s : bytes) : bytes := [quote] ++ s ++ [quote].

(** [s.strip_prefix(prefix)] *)
Definition strip_prefix (prefix s : bytes) : option bytes :=
  if bool_decide (take (length prefix) s = prefix) then Some (drop (length prefix) s) else None.
Definition starts_with (prefix s : bytes) : bool := bool_decide (is_Some (strip_prefix prefix s)).

(** [s.trim()]: the characters with the Unicode property [White_Space], as they are
    encoded. *)
Definition WHITE_SPACE : list bytes :=
  map (map u8)
    ([[9]; [10]; [11]; [12]; [13]; [32]; [0xc2; 0x85]; [0xc2; 0xa0]; [0xe1; 0x9a; 0x80]] ++
     map (λ z, [0xe2; 0x80; z]) [0x80; 0x81; 0x82; 0x83; 0x84; 0x85; 0x86; 0x87; 0x88; 0x89; 0x8a; 0xa8; 0xa9; 0xaf] ++
     [[0xe2; 0x81; 0x9f]; [0xe3; 0x80; 0x80]]).
Fixpoint strip_first (prefixes : list bytes) (l : bytes) : option bytes :=
  match prefixes with
  | [] => None
  | p :: prefixes => match strip_prefix p l with Some l => Some l | None => strip_first prefixes l end
  end.
Fixpoint strip_many (fuel : nat) (prefixes : list bytes) (l : bytes) : bytes :=
  match fuel with
  | O => l
  | S fuel => match strip_first prefixes l with Some l => strip_many fuel prefixes l | None => l end
  end.
Definition trim_start (l : bytes) : bytes := strip_many (length l) WHITE_SPACE l.
Definition trim_end (l : bytes) : bytes :=
  reverse (strip_many (length l) (map reverse WHITE_SPACE) (reverse l)).
Definition trim (l : bytes) : bytes := trim_end (trim_start l).

(** Whether bytes are a [str]: what [str::from_utf8] accepts. *)
Definition continuation (b : byte) : bool := (0x80 <=? uz b) && (uz b <=? 0xbf).
Definition second_byte (a b : Z) : bool :=
  let lo := if a =? 0xe0 then 0xa0 else if a =? 0xf0 then 0x90 else 0x80 in
  let hi := if a =? 0xed then 0x9f else if a =? 0xf4 then 0x8f else 0xbf in
  (lo <=? b) && (b <=? hi).
Fixpoint is_utf8 (l : bytes) : bool :=
  match l with
  | [] => true
  | a :: l =>
      if uz a <? 0x80 then is_utf8 l else
      match l with
      | [] => false
      | b :: l =>
          if (0xc2 <=? uz a) && (uz a <=? 0xdf) then continuation b && is_utf8 l else
          match l with
          | [] => false
          | c :: l =>
              if (0xe0 <=? uz a) && (uz a <=? 0xef)
              then second_byte (uz a) (uz b) && continuation c && is_utf8 l else
              match l with
              | [] => false
              | d :: l =>
                  (0xf0 <=? uz a) && (uz a <=? 0xf4) && second_byte (uz a) (uz b) &&
                  continuation c && continuation d && is_utf8 l
              end
          end
      end
  end.

(** The lines of [BufReader::lines] before one that is not text. *)
Definition chomp (l : bytes) : bytes :=
  match reverse l with b :: r => if uz b =? 13 then reverse r else l | [] => [] end.
Fixpoint terminated (parts : list bytes) : list bytes :=
  match parts with
  | [] => []
  | [rest] => if bool_decide (rest = []) then [] else [rest]
  | part :: parts => chomp part :: terminated parts
  end.
Fixpoint take_text (ls : list bytes) : list bytes :=
  match ls with
  | l :: ls => if is_utf8 l then l :: take_text ls else []
  | [] => []
  end.
Definition newline : byte := u8 10.
Definition lines (input : bytes) : list bytes := take_text (terminated (split_on newline input)).

(** ** The text of an IPv6 address *)

(** The eight 16-bit groups. *)
Fixpoint groups (addr : bytes) : list Z :=
  match addr with
  | hi :: lo :: addr => from_be_bytes [hi; lo] :: groups addr
  | _ => []
  end.

(** The first of the longest runs of zeros, as its start and its length: the loop of
    [Ipv6Addr]'s formatter. *)
Fixpoint zero_run (gs : list Z) (i : nat) (current longest : nat * nat) : nat * nat :=
  match gs with
  | [] => longest
  | g :: gs =>
      if g =? 0 then
        let current := (if decide (current.2 = 0%nat) then i else current.1, S current.2) in
        zero_run gs (S i) current (if decide (longest.2 < current.2)%nat then current else longest)
      else zero_run gs (S i) (0, 0)%nat longest
  end.

Definition colon : byte := u8 58.
Definition group_text (gs : list Z) : bytes := join [colon] (map (number 16) gs).

(** An IPv4-mapped address is shown with its last four bytes in decimal. *)
Definition mapped_v4 (addr : bytes) : option bytes :=
  if bool_decide (take 12 addr = fill 10 (u8 0) ++ [u8 255; u8 255]) then Some (drop 12 addr) else None.
Definition ipv4_string (v4 : bytes) : bytes := join [u8 46] (map (λ b, decimal (uz b)) v4).

Definition ipv6_string (addr : bytes) : bytes :=
  match mapped_v4 addr with
  | Some v4 => bstr "::ffff:" ++ ipv4_string v4
  | None =>
      let gs := groups addr in
      let '(start, n) := zero_run gs 0 (0, 0)%nat (0, 0)%nat in
      if decide (1 < n)%nat
      then group_text (take start gs) ++ [colon; colon] ++ group_text (drop (start + n) gs)
      else group_text gs
  end.

(** ** The [hex] crate *)

Class Hex := {
  hex_encode : bytes → bytes;
  hex_decode : bytes → option bytes }.
Definition ascii (l : bytes) : Prop := Forall (λ b, uz b < 128) l.
Definition graphic (b : byte) : Prop := 32 < uz b < 127.
Definition hex_digit (b : byte) : Prop := 48 ≤ uz b ≤ 57 ∨ 97 ≤ uz b ≤ 102.
Class HexLaws `{Hex} : Prop := {
  hex_decode_encode b : hex_decode (hex_encode b) = Some b;
  hex_encode_len b : len (hex_encode b) = 2 * len b;
  hex_encode_digits b : Forall hex_digit (hex_encode b) }.

Lemma hex_encode_graphic `{HexLaws} b : Forall graphic (hex_encode b).
Proof. apply (Forall_impl _ _ _ (hex_encode_digits b)). unfold hex_digit, graphic. lia. Qed.
Lemma graphic_ascii l : Forall graphic l → ascii l.
Proof. intros Hl. apply (Forall_impl _ _ _ Hl). unfold graphic. lia. Qed.

Lemma ascii_literal l : forallb (λ b, uz b <? 128) l = true → ascii l.
Proof.
  intros Hl. apply Forall_forall. intros b Hb. apply Z.ltb_lt.
  apply (proj1 (forallb_forall _ _) Hl). by apply list_elem_of_In.
Qed.

(** ** Text: proofs *)

(** A decidable fact about literals. *)
Ltac literal := apply (bool_decide_unpack _); by vm_compute.

Lemma strip_prefix_ne a b p l : a ≠ b → strip_prefix (a :: p) (b :: l) = None.
Proof. intros Hne. unfold strip_prefix. rewrite bool_decide_false; [done|]. cbn. congruence. Qed.

(** Text that starts with none of the prefixes is left as it is. *)
Lemma strip_many_graphic ps l fuel :
  Forall (λ p, match p with a :: _ => ¬ graphic a | [] => False end) ps →
  (∀ b, head l = Some b → graphic b) → strip_many fuel ps l = l.
Proof.
  intros Hps Hl. assert (strip_first ps l = None) as E; [|by destruct fuel; cbn; rewrite ?E].
  induction Hps as [|p ps Hp Hps IH]; [done|]. cbn. destruct p as [|a p]; [done|].
  destruct l as [|b l]; [by rewrite IH|]. specialize (Hl b eq_refl).
  by rewrite strip_prefix_ne, IH by (intros ->; done).
Qed.

Lemma white_space_not_graphic :
  Forall (λ p, match p with a :: _ => ¬ graphic a | [] => False end) WHITE_SPACE ∧
  Forall (λ p, match p with a :: _ => ¬ graphic a | [] => False end) (map reverse WHITE_SPACE).
Proof.
  assert (∀ b : byte, negb ((32 <? uz b) && (uz b <? 127)) = true → ¬ graphic b) as Hb by (unfold graphic; intros b; lia).
  split; repeat constructor; apply Hb; by vm_compute.
Qed.

Lemma trim_graphic l :
  (∀ b, head l = Some b → graphic b) → (∀ b, last l = Some b → graphic b) → trim l = l.
Proof.
  intros Hh Hl. destruct white_space_not_graphic as [Hw Hw']. unfold trim, trim_start.
  rewrite strip_many_graphic by done. unfold trim_end. rewrite strip_many_graphic; [apply reverse_involutive|done|].
  intros b. rewrite head_reverse. apply Hl.
Qed.

Lemma trim_all_graphic l : Forall graphic l → trim l = l.
Proof.
  rewrite Forall_forall. intros Hl. apply trim_graphic; intros b Hb; apply Hl.
  - by apply head_Some_elem_of.
  - by apply last_Some_elem_of.
Qed.

Lemma ascii_utf8 l : ascii l → is_utf8 l = true.
Proof. induction 1 as [|b l Hb _ IH]; [done|]. cbn [is_utf8]. by rewrite (proj2 (Z.ltb_lt _ _) Hb). Qed.

(** ** Numbers: proofs *)

Lemma digit_round base d : 0 ≤ d < base → base ≤ 36 → digit_val base (digit_char d) = Some d.
Proof.
  intros Hd Hb. unfold digit_val, digit_char.
  assert (uz (u8 (if d <? 10 then 48 + d else 87 + d)) = if d <? 10 then 48 + d else 87 + d) as ->.
  { rewrite byte.unsigned_of_Z. unfold byte.wrap. apply Z.mod_small. destruct (Z.ltb_spec d 10); lia. }
  destruct (Z.ltb_spec d 10).
  - replace ((48 <=? 48 + d) && (48 + d <=? 57)) with true by lia. cbn.
    replace (48 + d - 48) with d by lia. by replace (d <? base) with true by lia.
  - replace ((48 <=? 87 + d) && (87 + d <=? 57)) with false by lia.
    replace ((97 <=? 87 + d) && (87 + d <=? 122)) with true by lia. cbn.
    replace (87 + d - 87) with d by lia. by replace (d <? base) with true by lia.
Qed.

Lemma digit_char_val base b d : digit_val base b = Some d → uz b ≠ 43 ∧ b ≠ colon.
Proof.
  unfold digit_val, colon. intros Hd. split; intros E; [|subst b; done]. by rewrite E in Hd.
Qed.

(** The digits that [number_loop] puts in front of [acc] are read back. *)
Lemma parse_number_loop base max fuel : ∀ n acc,
  1 < base ≤ 36 → 0 ≤ n ≤ max → n < 2 ^ Z.of_nat fuel → (0 < fuel)%nat →
  ∃ ds, number_loop fuel base n acc = ds ++ acc ∧ ds ≠ [] ∧
    Forall (λ b, is_Some (digit_val base b)) ds ∧
    parse_digits base max 0 (number_loop fuel base n acc) = parse_digits base max n acc.
Proof.
  induction fuel as [|fuel IH]; intros n acc Hb [Hn Hm] Hf H0; [lia|]. cbn [number_loop].
  pose proof (Z.mod_pos_bound n base ltac:(lia)) as Hd. pose proof (Z.div_mod n base ltac:(lia)) as Hdm.
  pose proof (digit_round base (n mod base) Hd ltac:(lia)) as Hr.
  destruct (Z.eqb_spec (n / base) 0) as [E|E].
  - exists [digit_char (n mod base)]. split_and!; try done; [by constructor|].
    cbn [parse_digits]. rewrite Hr. cbn [mbind option_bind]. rewrite E in Hdm.
    replace (0 * base + n mod base) with n by lia. by replace (max <? n) with false by lia.
  - assert (0 < n / base) as Hpos by (pose proof (Z.div_pos n base Hn ltac:(lia)); lia).
    assert (n / base < 2 ^ Z.of_nat fuel) as Hlt.
    { apply Z.div_lt_upper_bound; [lia|]. rewrite Nat2Z.inj_succ, Z.pow_succ_r in Hf by lia. nia. }
    assert (0 < fuel)%nat by (destruct fuel; [change (2 ^ Z.of_nat 0) with 1 in Hlt|]; lia).
    assert (n / base ≤ max) by nia.
    destruct (IH (n / base) (digit_char (n mod base) :: acc) Hb ltac:(lia) Hlt ltac:(lia))
      as (ds & E' & Hne & Hall & Hp).
    exists (ds ++ [digit_char (n mod base)]). split_and!.
    + by rewrite E', <- app_assoc.
    + by destruct ds.
    + apply Forall_app. split; [done|]. by constructor.
    + rewrite Hp. cbn [parse_digits]. rewrite Hr. cbn [mbind option_bind].
      replace (n / base * base + n mod base) with n by lia. by replace (max <? n) with false by lia.
Qed.

Lemma number_digits base max n :
  1 < base ≤ 36 → 0 ≤ n ≤ max →
  number base n ≠ [] ∧ Forall (λ b, is_Some (digit_val base b)) (number base n) ∧
  parse_number base max (number base n) = Some n.
Proof.
  intros Hb Hn. unfold number.
  destruct (parse_number_loop base max (S (Z.to_nat (Z.log2 n))) n [] Hb Hn)
    as (ds & E & Hne & Hall & Hp); [|lia|].
  { rewrite Nat2Z.inj_succ, Z2Nat.id by apply Z.log2_nonneg. destruct (Z.eq_dec n 0) as [->|]; [done|].
    by apply Z.log2_spec; lia. }
  rewrite app_nil_r in E. rewrite E in *. split_and!; try done.
  destruct ds as [|b ds]; [done|]. unfold parse_number. apply Forall_cons in Hall as [[d Hd] _].
  destruct (digit_char_val _ _ _ Hd) as [Hplus _]. by destruct (Z.eqb_spec (uz b) 43).
Qed.

(** ** Splitting: proofs *)

Lemma split_on_cons_ne sep b l part parts :
  b ≠ sep → split_on sep l = part :: parts → split_on sep (b :: l) = (b :: part) :: parts.
Proof. intros Hb E. cbn. by rewrite bool_decide_false, E. Qed.

Lemma split_on_part sep part : sep ∉ part → ∀ rest,
  split_on sep (part ++ sep :: rest) = part :: split_on sep rest ∧ split_on sep part = [part].
Proof.
  induction part as [|b part IH]; intros Hn rest.
  - cbn. by rewrite bool_decide_true.
  - apply not_elem_of_cons in Hn as [Hb Hn]. destruct (IH Hn rest) as [E1 E2].
    split; [|by apply split_on_cons_ne]. by apply split_on_cons_ne.
Qed.

Lemma split_join sep parts :
  parts ≠ [] → Forall (λ p, sep ∉ p) parts → split_on sep (join [sep] parts) = parts.
Proof.
  intros Hne Hall. induction Hall as [|p parts Hp Hall IH]; [done|].
  destruct parts as [|q parts]; [by apply (split_on_part sep p Hp [])|].
  change (join [sep] (p :: q :: parts)) with (p ++ sep :: join [sep] (q :: parts)).
  rewrite (proj1 (split_on_part sep p Hp _)). f_equal. by apply IH.
Qed.

Lemma strip_prefix_app prefix s : strip_prefix prefix (prefix ++ s) = Some s.
Proof. unfold strip_prefix. by rewrite take_app_length, bool_decide_true, drop_app_length. Qed.

Lemma split_on_app sep p s : split_on sep (p ++ sep :: s) = split_on sep p ++ split_on sep s.
Proof.
  induction p as [|b p IH]; cbn; [by rewrite bool_decide_true|]. rewrite IH. case_bool_decide; [done|].
  destruct p as [|c p]; [done|]. cbn. case_bool_decide; [done|]. by destruct (split_on sep p).
Qed.

Lemma split_on_last sep p s : (sep ∉ s) → List.last (split_on sep (p ++ sep :: s)) [] = s.
Proof. intros Hs. rewrite split_on_app, (proj2 (split_on_part sep s Hs [])). apply List.last_last. Qed.

(** A line of text, terminated. *)
Lemma lines_one l :
  newline ∉ l → l ≠ [] → (∀ b, last l = Some b → graphic b) → ascii l → lines (l ++ [newline]) = [l].
Proof.
  intros Hn Hne Hl Ha. unfold lines. rewrite (proj1 (split_on_part newline l Hn [])). cbn [split_on terminated].
  rewrite bool_decide_true by done. assert (chomp l = l) as ->.
  { unfold chomp. rewrite <- head_reverse in Hl. destruct (reverse l) as [|b r] eqn:E.
    - by apply (f_equal reverse) in E; rewrite reverse_involutive in E.
    - specialize (Hl b eq_refl). unfold graphic in Hl. destruct (Z.eqb_spec (uz b) 13); [lia|done]. }
  cbn [take_text]. by rewrite ascii_utf8.
Qed.

(** Lines that are written one after the other are read one after the other. *)
Lemma omap_lines {A} (g : bytes → option A) ls :
  g [] = None → Forall (λ l, newline ∉ l) ls →
  omap g (split_on newline (concat (map (λ l, l ++ [newline]) ls))) = omap g ls.
Proof.
  intros Hg Hls. induction Hls as [|l ls Hl Hls IH]; [cbn; by rewrite Hg|].
  cbn [map concat]. rewrite <- (assoc_L (++)). cbn [app].
  rewrite (proj1 (split_on_part newline l Hl _)). cbn [omap list_omap]. by rewrite IH.
Qed.

Lemma decimal_no_colon n : 0 ≤ n → colon ∉ decimal n.
Proof.
  intros Hn Hin. destruct (number_digits 10 n n ltac:(lia) ltac:(lia)) as (_ & Hall & _).
  rewrite Forall_forall in Hall. destruct (Hall _ Hin) as [d Hd]. by apply digit_char_val in Hd as [_ ?].
Qed.

Lemma join_split sep l : join [sep] (split_on sep l) = l.
Proof.
  induction l as [|b l IH]; [done|]. cbn [split_on]. case_bool_decide as Hb.
  - subst. destruct (split_on sep l) as [|p ps] eqn:E; [by destruct l; cbn in E; repeat case_match|].
    change (join [sep] ([] :: p :: ps)) with (sep :: join [sep] (p :: ps)). by rewrite IH.
  - destruct (split_on sep l) as [|p ps]; [by rewrite <- IH|].
    destruct ps as [|q ps]; [by rewrite <- IH|].
    change (join [sep] ((b :: p) :: q :: ps)) with (b :: join [sep] (p :: q :: ps)). by rewrite IH.
Qed.

(** ** IPv6 text: proofs *)

(** A reader of the text: at the first [::], if there is one, the missing groups are
    zero. *)
Fixpoint cut (l : bytes) : option (bytes * bytes) :=
  match l with
  | a :: (b :: rest) as tl =>
      if bool_decide (a = colon) && bool_decide (b = colon) then Some ([], rest)
      else (λ p, (a :: p.1, p.2)) <$> cut tl
  | _ => None
  end.
Definition read_groups (l : bytes) : option (list Z) :=
  match l with [] => Some [] | _ => mapM (parse_number 16 65535) (split_on colon l) end.
Definition ungroup (gs : list Z) : bytes := concat (map (to_be_bytes 2) gs).
Definition read_ipv6 (l : bytes) : option bytes :=
  match cut l with
  | Some (x, y) =>
      gx ← read_groups x; gy ← read_groups y;
      if decide (length gx + length gy ≤ 8)%nat
      then Some (ungroup (gx ++ replicate (8 - (length gx + length gy)) 0 ++ gy)) else None
  | None => gs ← read_groups l; if decide (length gs = 8)%nat then Some (ungroup gs) else None
  end.

(** The groups of an address are 16-bit numbers, and determine it. *)
Lemma groups_spec n : ∀ addr, length addr = (2 * n)%nat →
  length (groups addr) = n ∧ Forall (λ g, 0 ≤ g < 65536) (groups addr) ∧ ungroup (groups addr) = addr.
Proof.
  induction n as [|n IH]; intros addr Hl; [by destruct addr|].
  destruct addr as [|hi [|lo addr]]; cbn [length] in Hl; [lia..|]. cbn [groups length].
  destruct (IH addr ltac:(lia)) as (E & Hall & Hu). split_and!; [by rewrite E| |].
  - constructor; [|done]. unfold from_be_bytes. pose proof (le_combine_bound (rev [hi; lo])) as Hb.
    by rewrite length_rev in Hb.
  - unfold ungroup. cbn [map concat]. fold (ungroup (groups addr)). rewrite Hu.
    unfold to_be_bytes, from_be_bytes. by rewrite to_from_le.
Qed.

Lemma group_number g :
  0 ≤ g < 65536 → number 16 g ≠ [] ∧ (colon ∉ number 16 g) ∧ parse_number 16 65535 (number 16 g) = Some g.
Proof.
  intros Hg. destruct (number_digits 16 65535 g ltac:(lia) ltac:(lia)) as (Hne & Hall & Hp).
  split_and!; try done. rewrite Forall_forall in Hall. intros [d Hd]%Hall. by apply digit_char_val in Hd as [_ ?].
Qed.

Lemma read_group_text gs : Forall (λ g, 0 ≤ g < 65536) gs → read_groups (group_text gs) = Some gs.
Proof.
  intros Hall. destruct gs as [|g gs]; [done|].
  assert (group_text (g :: gs) ≠ []) as Hne.
  { apply Forall_cons in Hall as [(Hne & _)%group_number _]. unfold group_text. cbn [map].
    destruct (number 16 g); [done|]. by destruct (map _ _). }
  unfold read_groups. destruct (group_text (g :: gs)) eqn:E; [done|]. rewrite <- E. unfold group_text.
  rewrite split_join; [| done |].
  - apply mapM_Some, Forall2_fmap_l, Forall_Forall2_diag. eapply Forall_impl; [exact Hall|].
    by intros x (_ & _ & ?)%group_number.
  - apply Forall_fmap. eapply Forall_impl; [exact Hall|]. by intros x (_ & ? & _)%group_number.
Qed.

(** Text without an empty part has no [::]. *)
Lemma cut_part p rest : p ≠ [] → colon ∉ p →
  (cut p = None) ∧ cut (p ++ colon :: colon :: rest) = Some (p, rest) ∧
  (∀ b tl, b ≠ colon → cut (p ++ colon :: b :: tl) = (λ q, (p ++ colon :: q.1, q.2)) <$> cut (b :: tl)).
Proof.
  induction p as [|a p IH]; intros Hne Hn; [done|]. apply not_elem_of_cons in Hn as [Ha Hn].
  destruct p as [|a' p].
  - split_and!; [done|cbn; by rewrite bool_decide_false|]. intros b tl Hb. cbn [app].
    assert (cut (a :: colon :: b :: tl) = (λ p, (a :: p.1, p.2)) <$> cut (colon :: b :: tl)) as ->
      by (cbn -[colon]; by rewrite bool_decide_false).
    assert (cut (colon :: b :: tl) = (λ p, (colon :: p.1, p.2)) <$> cut (b :: tl)) as ->
      by (cbn -[colon]; by rewrite (bool_decide_false (b = colon)), andb_false_r).
    by destruct (cut (b :: tl)).
  - destruct (IH ltac:(done) Hn) as (E1 & E2 & E3).
    assert (∀ l, cut (a :: a' :: l) = (λ p, (a :: p.1, p.2)) <$> cut (a' :: l)) as Hc
      by (intros l; cbn -[colon]; by rewrite bool_decide_false).
    split_and!; cbn [app] in *; rewrite ?Hc; [by rewrite E1|by rewrite E2|].
    intros b tl Hb. rewrite Hc, (E3 b tl Hb). by destruct (cut (b :: tl)).
Qed.

Lemma cut_group_text gs : Forall (λ g, 0 ≤ g < 65536) gs →
  cut (group_text gs) = None ∧
  ∀ rest, cut (group_text gs ++ colon :: colon :: rest) = Some (group_text gs, rest).
Proof.
  intros Hall. induction Hall as [|g gs Hg Hall IH].
  { split; [done|]. intros rest. cbn -[colon]. by rewrite bool_decide_true. }
  apply group_number in Hg as (Hne & Hn & _). destruct gs as [|h gs].
  { split; [by apply (cut_part _ [])|]. intros rest. by apply cut_part. }
  assert (∃ b tl, group_text (h :: gs) = b :: tl ∧ b ≠ colon) as (b & tl & E & Hb).
  { apply Forall_cons in Hall as [(Hne' & Hn' & _)%group_number _]. unfold group_text. cbn [map].
    destruct (number 16 h) as [|b p]; [done|]. apply not_elem_of_cons in Hn' as [? _].
    exists b. destruct (map _ gs); cbn; eauto. }
  change (group_text (g :: h :: gs)) with (number 16 g ++ colon :: group_text (h :: gs)).
  destruct IH as [IH1 IH2]. rewrite E in *. destruct (cut_part (number 16 g) [] Hne Hn) as (_ & _ & Hc). split.
  - by rewrite Hc, IH1.
  - intros rest. rewrite <- app_assoc. cbn [app]. rewrite Hc by done.
    specialize (IH2 rest). cbn [app] in IH2. by rewrite IH2.
Qed.

(** What [zero_run] finds is a run of zeros. *)
Definition is_run (gs : list Z) (r : nat * nat) : Prop :=
  ∀ j, (r.1 ≤ j < r.1 + r.2)%nat → gs !! j = Some 0.

Lemma zero_run_spec gs : ∀ pre current longest,
  (current.2 = 0 ∨ current.1 + current.2 = length pre)%nat →
  is_run (pre ++ gs) current → is_run (pre ++ gs) longest →
  is_run (pre ++ gs) (zero_run gs (length pre) current longest).
Proof.
  induction gs as [|g gs IH]; intros pre current longest Hc Hr Hl; [done|]. cbn [zero_run].
  specialize (IH (pre ++ [g])). rewrite <- app_assoc, length_app in IH. cbn [app length] in IH.
  rewrite Nat.add_1_r in IH. destruct (Z.eqb_spec g 0) as [->|_].
  - set (c := (if decide _ then _ else _, S current.2)).
    assert ((c.1 + c.2)%nat = S (length pre) ∧ is_run (pre ++ 0 :: gs) c) as [Hs Hrun].
    { unfold c. cbn. split; [case_decide; lia|]. intros j Hj. cbn in Hj.
      destruct (decide (j = length pre)) as [->|]; [by rewrite list_lookup_middle|].
      apply Hr. case_decide; lia. }
    apply IH; [by right|done|]. by case_decide.
  - apply IH; [by left| |done]. intros j. cbn. lia.
Qed.

Lemma run_split (gs : list Z) start n :
  is_run gs (start, n) → (0 < n)%nat →
  (start + n ≤ length gs)%nat ∧ gs = take start gs ++ replicate n 0 ++ drop (start + n) gs.
Proof.
  intros Hr Hn. assert (start + n ≤ length gs)%nat as Hl.
  { specialize (Hr (start + n - 1)%nat ltac:(cbn; lia)). apply lookup_lt_Some in Hr. lia. }
  split; [done|]. rewrite <- (take_drop start gs) at 1. f_equal.
  rewrite <- (take_drop n (drop start gs)), drop_drop. f_equal.
  apply list_eq_same_length with (n := n); [by rewrite length_replicate| |].
  - rewrite length_take, length_drop. lia.
  - intros i x y Hi Hx Hy. rewrite lookup_replicate_2 in Hy by lia.
    rewrite lookup_take_lt, lookup_drop, Hr in Hx by (cbn; lia). congruence.
Qed.

(** The text of an address that is not an IPv4-mapped one is read back. *)
Lemma ipv6_string_read addr :
  len addr = 16 → mapped_v4 addr = None → read_ipv6 (ipv6_string addr) = Some addr.
Proof.
  intros Hl Hm. unfold ipv6_string. rewrite Hm.
  destruct (groups_spec 8 addr ltac:(unfold len in Hl; lia)) as (Hg & Hall & Hu).
  pose proof (zero_run_spec (groups addr) [] (0, 0)%nat (0, 0)%nat) as Hz. cbn [app length] in Hz.
  destruct (zero_run _ _ _ _) as [start n]. case_decide as Hn.
  - destruct (run_split (groups addr) start n) as [Hs E]; [|lia|].
    { apply Hz; [by left|intros j; cbn; lia..]. }
    unfold read_ipv6. change ([colon; colon] ++ ?x) with (colon :: colon :: x).
    rewrite (proj2 (cut_group_text _ (Forall_take _ _ _ Hall))).
    rewrite (read_group_text _ (Forall_take _ _ _ Hall)), (read_group_text _ (Forall_drop _ _ _ Hall)). cbn [mbind option_bind].
    rewrite length_take, length_drop, Hg.
    rewrite decide_True by lia. replace (8 - _)%nat with n by lia. by rewrite <- E, Hu.
  - unfold read_ipv6. rewrite (proj1 (cut_group_text _ Hall)), (read_group_text _ Hall). cbn [mbind option_bind].
    by rewrite decide_True, Hu.
Qed.

Lemma digit_graphic base b : is_Some (digit_val base b) → graphic b.
Proof.
  intros [d Hd]. unfold digit_val in Hd. unfold graphic.
  destruct ((48 <=? uz b) && (uz b <=? 57)) eqn:E1; [lia|].
  destruct ((97 <=? uz b) && (uz b <=? 122)) eqn:E2; [lia|].
  destruct ((65 <=? uz b) && (uz b <=? 90)) eqn:E3; [lia|done].
Qed.

Lemma number_graphic base n : 1 < base ≤ 36 → 0 ≤ n → Forall graphic (number base n).
Proof.
  intros Hb Hn. destruct (number_digits base n n Hb ltac:(lia)) as (_ & Hall & _).
  apply (Forall_impl _ _ _ Hall), digit_graphic.
Qed.

Lemma decimal_graphic n : Forall graphic (decimal n).
Proof.
  unfold decimal, number. generalize (S (Z.to_nat (Z.log2 n))). intros fuel.
  assert (Forall graphic ([] : bytes)) as Hacc by constructor. revert n Hacc. generalize ([] : bytes).
  induction fuel as [|fuel IH]; intros acc n Hacc; [done|]. cbn [number_loop].
  assert (Forall graphic (digit_char (n mod 10) :: acc)).
  { constructor; [|done]. apply (digit_graphic 10). exists (n mod 10). apply digit_round; [by apply Z.mod_pos_bound|done]. }
  case_match; [done|]. by apply IH.
Qed.

Lemma join_graphic sep parts :
  Forall graphic sep → Forall (Forall graphic) parts → Forall graphic (join sep parts).
Proof.
  intros Hs Hp. induction Hp as [|p parts Hp Hps IH]; [constructor|]. destruct parts; [done|].
  change (join sep (p :: ?x)) with (p ++ sep ++ join sep x). by rewrite !Forall_app.
Qed.

Lemma group_text_graphic gs : Forall (λ g, 0 ≤ g < 65536) gs → Forall graphic (group_text gs).
Proof.
  intros Hgs. apply join_graphic; [by repeat constructor|]. apply Forall_fmap. apply (Forall_impl _ _ _ Hgs).
  intros g Hg. apply number_graphic; lia.
Qed.

Lemma ipv6_string_graphic addr : len addr = 16 → Forall graphic (ipv6_string addr).
Proof.
  intros Hl. unfold ipv6_string. destruct (mapped_v4 addr) as [v4|].
  - apply Forall_app. split; [by repeat constructor|]. apply join_graphic; [by repeat constructor|].
    apply Forall_fmap, Forall_forall. intros b _. apply number_graphic; [lia|]. apply byte.unsigned_range.
  - destruct (groups_spec 8 addr ltac:(unfold len in Hl; lia)) as (_ & Hall & _).
    destruct (zero_run _ _ _ _) as [start n]. case_decide; [|by apply group_text_graphic].
    rewrite !Forall_app. split_and!; [apply group_text_graphic, Forall_take; done|by repeat constructor|].
    by apply group_text_graphic, Forall_drop.
Qed.

(** The address of a node, as the tools show it, determines the address: it is read
    back from its text. *)
Theorem address_text `{Blake2Laws} key addr :
  address_from_key key = Ok addr → len addr = 16 ∧ read_ipv6 (ipv6_string addr) = Some addr.
Proof.
  unfold address_from_key. intros Ha. pose proof (blake2b_len 64 key) as Hl.
  destruct (Z.lt_ge_cases (count_ones (key_hash key) 0) 400) as [Hc|Hc].
  - destruct (address_bits (key_hash key) Hl Hc) as (a & E & H16 & Ht & _).
    rewrite Ha in E. injection E as <-. split; [done|]. apply ipv6_string_read; [done|].
    unfold mapped_v4. rewrite bool_decide_false; [done|]. intros E.
    assert (take 2 (take 12 addr) = [u8 0; u8 0]) as E2 by (by rewrite E).
    rewrite take_take in E2. change (2 `min` 12)%nat with 2%nat in E2. rewrite Ht in E2. by injection E2.
  - destruct (address_panics (key_hash key) Hl) as [[_ Hp] _]. by rewrite (Hp Hc) in Ha.
Qed.

(** ** Instances for the witnesses *)

Module ToyText.
Definition nibbles (b : byte) : bytes := [digit_char (uz b / 16); digit_char (uz b mod 16)].
Fixpoint unhex (l : bytes) : option bytes :=
  match l with
  | [] => Some []
  | hi :: lo :: l =>
      h ← digit_val 16 hi; d ← digit_val 16 lo; rest ← unhex l; Some (u8 (16 * h + d) :: rest)
  | _ => None
  end.
#[export] Instance toy_hex : Hex := {| hex_encode b := concat (map nibbles b); hex_decode := unhex |}.

Lemma digit_char_hex d : 0 ≤ d < 16 → hex_digit (digit_char d).
Proof.
  intros Hd. unfold hex_digit, digit_char. rewrite byte.unsigned_of_Z. unfold byte.wrap.
  destruct (Z.ltb_spec d 10); rewrite Z.mod_small; lia.
Qed.

#[export] Instance toy_hex_laws : HexLaws.
Proof.
  assert (∀ b : byte, 0 ≤ uz b / 16 < 16 ∧ 0 ≤ uz b mod 16 < 16) as Hb.
  { intros b. pose proof (byte.unsigned_range b). split; [|by apply Z.mod_pos_bound].
    split; [apply Z.div_pos; lia|]. apply Z.div_lt_upper_bound; lia. }
  split.
  - induction b as [|b l IH]; [done|]. cbn in *. destruct (Hb b).
    rewrite !digit_round by lia. cbn. rewrite IH. cbn. do 2 f_equal.
    rewrite <- (Z.div_mod (uz b) 16) by lia. apply byte.of_Z_unsigned.
  - induction b as [|b l IH]; [done|]. cbn in *. rewrite !len_cons, IH. lia.
  - induction b as [|b l IH]; [constructor|]. cbn in *. destruct (Hb b).
    constructor; [by apply digit_char_hex|]. by constructor; [apply digit_char_hex|].
Qed.

(** A serialisation of any countable type. *)
Fixpoint pos_bytes (p : positive) : bytes :=
  match p with xH => [] | xO p => u8 48 :: pos_bytes p | xI p => u8 49 :: pos_bytes p end.
Fixpoint bytes_pos (l : bytes) : positive :=
  match l with [] => xH | b :: l => if uz b =? 48 then xO (bytes_pos l) else xI (bytes_pos l) end.
Lemma bytes_pos_bytes p : bytes_pos (pos_bytes p) = p.
Proof.
  induction p as [p IH|p IH|]; cbn [pos_bytes bytes_pos]; [| |done]; rewrite IH.
  - by change (uz (u8 49) =? 48) with false.
  - by change (uz (u8 48) =? 48) with true.
Qed.

Definition serial `{Countable A} (x : A) : bytes := pos_bytes (encode x).
Definition unserial `{Countable A} (l : bytes) : option A := decode (bytes_pos l).
Lemma unserial_serial `{Countable A} (x : A) : unserial (serial x) = Some x.
Proof. unfold unserial, serial. by rewrite bytes_pos_bytes, decode_encode. Qed.
Lemma serial_digits `{Countable A} (x : A) : Forall (λ b, uz b = 48 ∨ uz b = 49) (serial x).
Proof. unfold serial. generalize (encode x). intros p. induction p; constructor; auto. Qed.
End ToyText.

Section TextWitness.
Import Toy.
Lemma address_text_witness :
  let key := fill 32 (u8 7) in
  ∃ addr, address_from_key key = Ok addr ∧ len addr = 16 ∧ read_ipv6 (ipv6_string addr) = Some addr.
Proof.
  destruct (address_from_key (fill 32 (u8 7))) as [addr| |] eqn:E; [|by vm_compute in E..].
  exists addr. split; [done|]. by apply (address_text (fill 32 (u8 7))).
Defined.
End TextWitness.
