(* ===== verification/Toml.v ===== *)
(** * TOML documents

    The text of a configuration file: what [nornd genconfig] writes and what the
    [toml] crate reads.  A document is a list of lines; the crate is a parameter that
    reads the documents of the forms used here, and rejects or reads anything else as
    it likes. *)

From S2P Require Import Prelude Text.

#[local] Unset Elimination Schemes.
Inductive TomlValue :=
| TStr (s : bytes) | TInt (n : Z) | TBool (b : bool) | TArr (l : list TomlValue)
| TTable (entries : list (bytes * TomlValue)) | TOther.
#[local] Set Elimination Schemes.

(** A table has every key once. *)
Definition TomlTable : Type := list (bytes * TomlValue).

Fixpoint toml_get (key : bytes) (t : TomlTable) : option TomlValue :=
  match t with
  | [] => None
  | (k, v) :: t => if bool_decide (k = key) then Some v else toml_get key t
  end.

(** ** Lines and their text *)

Inductive TomlLine := Blank | Comment (text : bytes) | Entry (key : bytes) (value : TomlValue).

Fixpoint value_text (v : TomlValue) : bytes :=
  match v with
  | TStr s => quoted s
  | TInt n => decimal n
  | TBool b => if b then bstr "true" else bstr "false"
  | TArr l => bstr "[" ++ join (bstr ", ") (map value_text l) ++ bstr "]"
  | TTable _ | TOther => []
  end.

Definition line_text (l : TomlLine) : bytes :=
  match l with
  | Blank => []
  | Comment text => bstr "#" ++ text
  | Entry key value => key ++ bstr " = " ++ value_text value
  end.

Definition doc_text (doc : list TomlLine) : bytes := concat (map (λ l, line_text l ++ [newline]) doc).

Definition entries (doc : list TomlLine) : TomlTable :=
  omap (λ l, match l with Entry k v => Some (k, v) | _ => None end) doc.

(** ** The crate *)

(** A character of a bare key, and one that a basic string holds as it is. *)
Definition key_char (b : byte) : bool :=
  let c := uz b in
  ((48 <=? c) && (c <=? 57)) || ((65 <=? c) && (c <=? 90)) || ((97 <=? c) && (c <=? 122)) || (c =? 45) || (c =? 95).
Definition string_char (b : byte) : bool :=
  let c := uz b in (32 <=? c) && (c <? 127) && negb (c =? 34) && negb (c =? 92).
Definition plain_string (s : bytes) : bool := forallb string_char s.

Definition value_ok (v : TomlValue) : bool :=
  match v with
  | TStr s => plain_string s
  | TInt n => (0 <=? n) && (n <? 2 ^ 63)
  | TBool _ => true
  | TArr l => forallb (λ v, match v with TStr s => plain_string s | _ => false end) l
  | TTable _ | TOther => false
  end.
Definition line_ok (l : TomlLine) : bool :=
  match l with
  | Blank => true
  | Comment text => is_utf8 text && forallb (λ b, (32 <=? uz b) && negb (uz b =? 127)) text
  | Entry key value => forallb key_char key && negb (bool_decide (key = [])) && value_ok value
  end.
Definition doc_ok (doc : list TomlLine) : bool :=
  forallb line_ok doc && bool_decide (NoDup (entries doc).*1).

Class Toml := toml_parse : bytes → option TomlTable.
Class TomlLaws `{Toml} : Prop :=
  toml_parse_doc doc : doc_ok doc = true → toml_parse (doc_text doc) = Some (entries doc).

(** ** A reader of these documents *)

Module ToyToml.
(** The second, fourth, ... part: what is between quotes. *)
Fixpoint inner_parts (l : list bytes) : list bytes :=
  match l with
  | _ :: s :: l => s :: inner_parts l
  | _ => []
  end.

Definition read_value (l : bytes) : TomlValue :=
  match parse_number 10 (2 ^ 63 - 1) l with
  | Some n => TInt n
  | None =>
      match l with
      | b :: rest =>
          if bool_decide (b = quote) then TStr (removelast rest)
          else if bool_decide (b = u8 91) then TArr (map TStr (inner_parts (split_on quote (removelast rest))))
          else TBool (bool_decide (l = bstr "true"))
      | [] => TOther
      end
  end.

Definition read_line (l : bytes) : option (bytes * TomlValue) :=
  match l with
  | [] => None
  | b :: _ =>
      if bool_decide (b = u8 35) then None else
      let key := List.hd [] (split_on (u8 32) l) in
      Some (key, read_value (drop (length key + 3) l))
  end.

#[export] Instance toy_toml : Toml := λ text, Some (omap read_line (split_on newline text)).

Lemma char_ne (P : byte → bool) c s : P c = false → forallb P s = true → c ∉ s.
Proof.
  intros Hc Hs Hin. apply list_elem_of_In in Hin. rewrite forallb_forall in Hs. by rewrite (Hs _ Hin) in Hc.
Qed.

Lemma split_quoted s t :
  plain_string s = true → split_on quote (quoted s ++ t) = [] :: s :: split_on quote t.
Proof.
  intros Hs. unfold quoted. change ([quote] ++ s ++ [quote]) with (quote :: (s ++ [quote])).
  cbn [app split_on]. rewrite bool_decide_true, <- (assoc_L (++)) by done. f_equal.
  apply (split_on_part quote s). by apply (char_ne string_char).
Qed.

Lemma inner_parts_strings ss :
  forallb plain_string ss = true →
  inner_parts (split_on quote (join (bstr ", ") (map quoted ss))) = ss.
Proof.
  induction ss as [|s ss IH]; [done|]. cbn [forallb]. intros [Hs Hss]%andb_true_iff.
  destruct ss as [|s' ss].
  - cbn [map join]. rewrite <- (app_nil_r (quoted s)), split_quoted by done. done.
  - change (join (bstr ", ") (map quoted (s :: s' :: ss)))
      with (quoted s ++ bstr ", " ++ join (bstr ", ") (map quoted (s' :: ss))).
    rewrite split_quoted by done. cbn [inner_parts]. f_equal.
    rewrite <- (IH Hss) at 2. assert (∃ t, join (bstr ", ") (map quoted (s' :: ss)) = quote :: t) as [t ->]
      by (destruct ss; by eexists).
    rewrite (proj1 (split_on_part quote (bstr ", ") ltac:(by literal) t)).
    cbn [split_on]. by rewrite bool_decide_true.
Qed.

Lemma read_value_text v : value_ok v = true → read_value (value_text v) = v.
Proof.
  destruct v as [s|n|b|l|es|]; cbn [value_ok]; intros Hv; try done.
  - unfold read_value, value_text, quoted. change ([quote] ++ s ++ [quote]) with (quote :: (s ++ [quote])).
    change (parse_number 10 (2 ^ 63 - 1) (quote :: _)) with (@None Z). cbn iota.
    by rewrite bool_decide_true, removelast_last by done.
  - apply andb_true_iff in Hv as [H1%Z.leb_le H2%Z.ltb_lt]. unfold read_value. cbn [value_text]. unfold decimal.
    by rewrite (proj2 (proj2 (number_digits 10 (2 ^ 63 - 1) n ltac:(lia) ltac:(lia)))).
  - by destruct b.
  - assert (∃ ss, l = map TStr ss ∧ forallb plain_string ss = true) as (ss & -> & Hss).
    { induction l as [|x l IH]; [by exists []|]. cbn in Hv. apply andb_true_iff in Hv as [Hx Hl].
      destruct x as [s| | | | |]; try done. destruct (IH Hl) as (ss & -> & Hss). exists (s :: ss). cbn. by rewrite Hx. }
    unfold read_value. cbn [value_text]. rewrite map_map. cbn [value_text].
    change (bstr "[" ++ ?x) with (u8 91 :: x).
    change (parse_number 10 (2 ^ 63 - 1) (u8 91 :: _)) with (@None Z). cbn iota.
    rewrite bool_decide_false, bool_decide_true by done. change (bstr "]") with [u8 93].
    rewrite removelast_last. by rewrite inner_parts_strings.
Qed.

(** No line has a newline in it. *)
Lemma quoted_line s : plain_string s = true → newline ∉ quoted s.
Proof.
  intros Hs. unfold quoted. rewrite !not_elem_of_app. split_and!; [|by apply (char_ne string_char)|];
    by rewrite list_elem_of_singleton.
Qed.
Lemma join_line parts : Forall (λ p, newline ∉ p) parts → newline ∉ join (bstr ", ") parts.
Proof.
  induction 1 as [|p parts Hp Hps IH]; [by apply not_elem_of_nil|]. destruct parts; [done|].
  change (join (bstr ", ") (p :: ?x)) with (p ++ bstr ", " ++ join (bstr ", ") x).
  rewrite !not_elem_of_app. split_and!; [done|by literal|done].
Qed.
Lemma value_text_line v : value_ok v = true → newline ∉ value_text v.
Proof.
  destruct v as [s|n|b|l|es|]; cbn [value_ok]; intros Hv; try done.
  - by apply quoted_line.
  - apply andb_true_iff in Hv as [Hn%Z.leb_le _]. cbn [value_text]. intros Hin.
    pose proof (number_graphic 10 n ltac:(lia) Hn) as Hg. rewrite Forall_forall in Hg. destruct (Hg _ Hin) as [Hlt _]. by vm_compute in Hlt.
  - destruct b; by literal.
  - cbn [value_text]. rewrite !not_elem_of_app. split_and!; [by literal| |by literal].
    apply join_line, Forall_fmap, Forall_forall. intros x Hx%list_elem_of_In. rewrite forallb_forall in Hv.
    specialize (Hv x Hx). destruct x; try done. by apply quoted_line.
Qed.

Lemma line_text_line l : line_ok l = true → newline ∉ line_text l.
Proof.
  destruct l as [|text|k v]; cbn [line_ok line_text]; [by intros _ ?%elem_of_nil| |].
  - intros [_ Hc]%andb_true_iff. rewrite not_elem_of_app. split; [by literal|].
    by apply (char_ne (λ b, (32 <=? uz b) && negb (uz b =? 127))).
  - intros [[Hk _]%andb_true_iff Hv]%andb_true_iff. rewrite !not_elem_of_app. split_and!.
    + by apply (char_ne key_char).
    + by literal.
    + by apply value_text_line.
Qed.

Lemma read_line_text l :
  line_ok l = true → read_line (line_text l) = match l with Entry k v => Some (k, v) | _ => None end.
Proof.
  destruct l as [|text|k v]; cbn [line_ok line_text]; [done| |].
  - intros _. done.
  - intros [[Hk Hne]%andb_true_iff Hv]%andb_true_iff. unfold read_line.
    assert (∃ b rest, k ++ bstr " = " ++ value_text v = b :: rest ∧ b ≠ u8 35) as (b & rest & E & Hb).
    { destruct k as [|b k]; [done|]. exists b. eexists. split; [done|]. intros ->. by cbn in Hk. }
    rewrite E, bool_decide_false, <- E by done.
    change (bstr " = " ++ value_text v) with (u8 32 :: bstr "= " ++ value_text v).
    rewrite (proj1 (split_on_part (u8 32) k ltac:(by apply (char_ne key_char)) _)). cbn [List.hd].
    change (u8 32 :: bstr "= " ++ value_text v) with (bstr " = " ++ value_text v).
    rewrite (assoc_L (++)), drop_app_length' by (by rewrite length_app). by rewrite read_value_text.
Qed.

#[export] Instance toy_toml_laws : TomlLaws.
Proof.
  intros doc [Hdoc _]%andb_true_iff. unfold toml_parse, toy_toml. f_equal. rewrite forallb_forall in Hdoc.
  unfold doc_text. rewrite <- (map_map line_text (λ l, l ++ [newline])), omap_lines; [|done|].
  - induction doc as [|l doc IH]; [done|]. cbn. rewrite read_line_text by (apply Hdoc; by left).
    rewrite IH by (intros x Hx; apply Hdoc; by right). by destruct l.
  - apply Forall_fmap, Forall_forall. intros l Hl%list_elem_of_In. by apply line_text_line, Hdoc.
Qed.
End ToyToml.
