(* ===== verification/PeerCache.v ===== *)
(** * The peer cache

    [src/peercache.rs]: the table of known peers, its file, and the write through a
    temporary file.  A disk maps paths to contents.  Every system call of [save] can
    succeed, fail, or be the point where the process dies; a write that does not
    succeed leaves any part of its data behind.  JSON ([serde_json]) and [hex] are
    parameters; times are milliseconds. *)

From S2P Require Import Prelude Collections Crypto Address Text.

Definition DEFAULT_MAX_AGE : Z := 30 * 24 * 60 * 60 * 1000.

Record PeerRecord := mkRecord { pub_key_hex : bytes; uri : bytes; last_seen_ms : Z }.
Record PeerCacheFile := mkFile { version : Z; file_peers : list PeerRecord }.

#[global] Instance PeerRecord_eq_dec : EqDecision PeerRecord.
Proof. solve_decision. Defined.
#[global] Instance PeerCacheFile_eq_dec : EqDecision PeerCacheFile.
Proof. solve_decision. Defined.

Definition default_version : Z := 1.

(** [serde_json] on the file's type.  It reads back what it wrote, for records of the
    Rust type; the law is stated for those in ASCII. *)
Definition record_ok (r : PeerRecord) : Prop :=
  ascii (pub_key_hex r) ∧ ascii (uri r) ∧ u64_ok (last_seen_ms r).
Class CacheJson := {
  to_string_pretty : PeerCacheFile → bytes;
  from_str : bytes → option PeerCacheFile }.
Class CacheJsonLaws `{CacheJson} : Prop :=
  from_str_pretty f : u32_ok (version f) → Forall record_ok (file_peers f) →
    from_str (to_string_pretty f) = Some f.

(** ** Paths *)

Definition slash : byte := u8 47.
Definition dot : byte := u8 46.

(** A path without the separators and [.] components at its end; the argument is
    reversed. *)
Fixpoint strip_tail (r : bytes) : bytes :=
  match r with
  | a :: (b :: _) as r' =>
      if bool_decide (a = slash) then strip_tail r'
      else if bool_decide (a = dot) && bool_decide (b = slash) then strip_tail r' else r
  | _ => r
  end.

Definition file_name (p : bytes) : option bytes :=
  let name := List.last (split_on slash p) [] in
  if bool_decide (name = []) || bool_decide (name = [dot]) || bool_decide (name = [dot; dot])
  then None else Some name.

Definition file_stem (name : bytes) : bytes :=
  match removelast (split_on dot name) with
  | [] => name
  | before => if bool_decide (join [dot] before = []) then name else join [dot] before
  end.

(** [path.with_extension("tmp")] *)
Definition with_extension_tmp (p : bytes) : bytes :=
  let p' := reverse (strip_tail (reverse p)) in
  match file_name p' with
  | None => p
  | Some name => take (length p' - length name) p' ++ file_stem name ++ bstr ".tmp"
  end.

(** ** The cache *)

Module PeerCache.
Record t := mk { path : bytes; entries : gmap bytes PeerRecord }.

Section PeerCache.
Context `{Hex} `{CacheJson}.

Abbreviation disk := (gmap bytes bytes).

(** [collect] into a map: a later record replaces an earlier one with its key. *)
Definition collect (rs : list PeerRecord) : gmap bytes PeerRecord :=
  foldl (λ m r, <[pub_key_hex r := r]> m) ∅ rs.

Definition load_with_max_age (now_ms max_age : Z) (path : bytes) (d : disk) : t :=
  mk path
    (match d !! path ≫= from_str with
     | Some file =>
         let cutoff_ms := sat_sub now_ms (wrap64 max_age) in
         collect (filter (λ p, cutoff_ms ≤ last_seen_ms p) (file_peers file))
     | None => ∅
     end).

Definition load (now_ms : Z) (path : bytes) (d : disk) : t :=
  load_with_max_age now_ms DEFAULT_MAX_AGE path d.

Definition cache_len (c : t) : Z := Z.of_nat (size (entries c)).
Definition is_empty (c : t) : bool := bool_decide (entries c = ∅).
Definition uris (ord : MapOrder bytes) (c : t) : list bytes := map (λ e, uri e.2) (map_iter ord (entries c)).

Definition record (now_ms : Z) (pub_key uri : bytes) (c : t) : t :=
  let pub_key_hex := hex_encode pub_key in
  mk (path c) (<[pub_key_hex := mkRecord pub_key_hex uri now_ms]> (entries c)).

(** What becomes of a system call. *)
Inductive call := Succeeds | Errs | Dies.
(** The calls of a [save]; a failing write leaves [written] bytes in the file, or
    does not open it. *)
Record Calls := { mkdir : call; write : call; written : option nat; rename : call }.

(** [None] when the process dies. *)
Definition save (ord : MapOrder bytes) (io : Calls) (c : t) (d : disk) : option (res unit) * disk :=
  let file := mkFile default_version (map snd (map_iter ord (entries c))) in
  let json := to_string_pretty file in
  match mkdir io with
  | Dies => (None, d)
  | Errs => (Some (Err "creating peer-cache dir"), d)
  | Succeeds =>
      let tmp_path := with_extension_tmp (path c) in
      let partial := match written io with Some n => <[tmp_path := take n json]> d | None => d end in
      match write io with
      | Dies => (None, partial)
      | Errs => (Some (Err "writing peer cache tmp"), partial)
      | Succeeds =>
          let d := <[tmp_path := json]> d in
          match rename io with
          | Dies => (None, d)
          | Errs => (Some (Err "rename"), d)
          | Succeeds => (Some (Ok tt), <[path c := json]> (delete tmp_path d))
          end
      end
  end.
End PeerCache.
End PeerCache.

(** ** Properties *)

Import PeerCache.

(** Records are filed under their key, and can be written to the file. *)
Definition cache_wf (c : t) : Prop :=
  ∀ k r, entries c !! k = Some r → pub_key_hex r = k ∧ record_ok r.

(** The entries that are not too old. *)
Definition fresh (now max_age : Z) (m : gmap bytes PeerRecord) : gmap bytes PeerRecord :=
  filter (λ e, sat_sub now (wrap64 max_age) ≤ last_seen_ms e.2) m.

Lemma collect_lookup rs : ∀ k r,
  collect rs !! k = Some r → r ∈ rs ∧ pub_key_hex r = k.
Proof.
  unfold collect. induction rs as [|x rs IH] using rev_ind; intros k r; [done|]. rewrite foldl_app. cbn.
  destruct (decide (pub_key_hex x = k)) as [<-|Hne].
  - rewrite lookup_insert_eq. intros [= <-]. set_solver.
  - rewrite lookup_insert_ne by done. intros [Hin E]%IH. set_solver.
Qed.

Lemma collect_nodup rs :
  NoDup (map pub_key_hex rs) → ∀ r, r ∈ rs → collect rs !! pub_key_hex r = Some r.
Proof.
  unfold collect. induction rs as [|x rs IH] using rev_ind; intros Hnd r Hr; [by apply elem_of_nil in Hr|].
  rewrite map_app, NoDup_app in Hnd. destruct Hnd as (Hnd & Hdis & _). rewrite foldl_app. cbn.
  apply elem_of_app in Hr as [Hr| ->%list_elem_of_singleton]; [|apply lookup_insert_eq].
  rewrite lookup_insert_ne; [by apply IH|]. intros E.
  apply (Hdis (pub_key_hex r)); [by apply (list_elem_of_fmap_2 pub_key_hex)|]. cbn. rewrite E. set_solver.
Qed.

Lemma sublist_map {A B} (f : A → B) l k : l `sublist_of` k → map f l `sublist_of` map f k.
Proof. induction 1; cbn; by constructor. Qed.

Lemma collect_file ord now max_age c :
  cache_wf c →
  collect (filter (λ p, sat_sub now (wrap64 max_age) ≤ last_seen_ms p) (map snd (map_iter ord (entries c))))
  = fresh now max_age (entries c).
Proof.
  intros Hwf. set (P := λ p, _ ≤ last_seen_ms p). set (rs := map snd _).
  assert (∀ r, r ∈ rs ↔ entries c !! pub_key_hex r = Some r) as Hin.
  { intros r. unfold rs. rewrite list_elem_of_fmap. split.
    - intros ([k r'] & -> & Hk%elem_of_map_iter). by destruct (Hwf _ _ Hk) as [<- _].
    - intros Hk. exists (pub_key_hex r, r). by rewrite elem_of_map_iter. }
  assert (NoDup (map pub_key_hex rs)) as Hnd.
  { replace (map pub_key_hex rs) with (map_iter ord (entries c)).*1; [apply NoDup_map_iter|].
    unfold rs. rewrite map_map. apply list_fmap_ext. intros i [k r] Hi%list_elem_of_lookup_2%elem_of_map_iter.
    by destruct (Hwf _ _ Hi). }
  apply map_eq. intros k. apply option_eq. intros r. unfold fresh. rewrite map_lookup_filter_Some. split.
  - intros [[HP Hr]%list_elem_of_filter <-]%collect_lookup. by rewrite <- Hin.
  - intros [Hk HP]. destruct (Hwf _ _ Hk) as [<- _]. apply collect_nodup.
    + apply (sublist_NoDup _ (map pub_key_hex rs)); [done|]. apply sublist_map, sublist_filter.
    + apply list_elem_of_filter. by rewrite Hin.
Qed.

(** Loading a file that [save] has written gives the entries that are still fresh. *)
Lemma load_written `{CacheJsonLaws} ord now max_age c d :
  cache_wf c →
  d !! path c = Some (to_string_pretty (mkFile default_version (map snd (map_iter ord (entries c))))) →
  load_with_max_age now max_age (path c) d = mk (path c) (fresh now max_age (entries c)).
Proof.
  intros Hwf Hd. unfold load_with_max_age. rewrite Hd. cbn [mbind option_bind].
  rewrite from_str_pretty; [by cbn [file_peers]; rewrite collect_file|done|].
  cbn [file_peers]. apply Forall_fmap, Forall_forall. intros [k r] Hk%elem_of_map_iter.
  by destruct (Hwf _ _ Hk).
Qed.

Lemma record_wf `{HexLaws} now key u c :
  cache_wf c → u64_ok now → ascii u → cache_wf (record now key u c).
Proof.
  intros Hwf Hn Hu k r. unfold record. cbn. rewrite lookup_insert_Some. intros [[<- <-]|[_ Hk]]; [|by apply Hwf].
  split; [done|]. split_and!; try done; cbn; [apply graphic_ascii, hex_encode_graphic|lia..].
Qed.

(** C31: the peer cache survives a crash: whatever call of [save] fails or kills the
    process, and whatever part of the file it had written, a later start loads
    either the cache as it was on disk before or all the fresh entries of the one
    that was being saved, never a mixture; the latter once [save] has returned
    without an error.  No file but the cache and its temporary is touched.  (The
    configured path must not itself end in [.tmp].) *)
Theorem cache_crash_safe `{CacheJsonLaws} ord io c d now max_age :
  cache_wf c → with_extension_tmp (path c) ≠ path c →
  let '(r, d') := save ord io c d in
  let before := load_with_max_age now max_age (path c) d in
  let saved := mk (path c) (fresh now max_age (entries c)) in
  let after := load_with_max_age now max_age (path c) d' in
  (after = before ∨ after = saved) ∧ (r = Some (Ok tt) → after = saved) ∧
  ∀ p, p ≠ path c → p ≠ with_extension_tmp (path c) → d' !! p = d !! p.
Proof.
  intros Hwf Hne. unfold save. set (json := to_string_pretty _). set (tmp := with_extension_tmp (path c)) in *.
  assert (∀ d', d' !! path c = d !! path c →
            load_with_max_age now max_age (path c) d' = load_with_max_age now max_age (path c) d) as Hsame.
  { intros d' E. unfold load_with_max_age. by rewrite E. }
  assert (∀ x, <[tmp := x]> d !! path c = d !! path c) as Htmp by (intros x; by apply lookup_insert_ne).
  assert (∀ x p, p ≠ tmp → <[tmp := x]> d !! p = d !! p) as Hother by (intros x p Hp; by apply lookup_insert_ne).
  destruct (mkdir io); [|split_and!; by auto..].
  destruct (write io).
  2,3: destruct (written io); split_and!; try (by auto); left; by apply Hsame.
  destruct (rename io).
  2,3: split_and!; [left; by apply Hsame|done|by auto].
  assert (∀ d', d' !! path c = Some json →
    load_with_max_age now max_age (path c) d' = mk (path c) (fresh now max_age (entries c))) as Hnew
    by (intros d'; by apply load_written).
  split_and!; [right; apply Hnew, lookup_insert_eq|intros _; apply Hnew, lookup_insert_eq|].
  intros p Hp Hq. rewrite lookup_insert_ne, lookup_delete_ne by done. by apply Hother.
Qed.

(** A path that ends in [.tmp] is its own temporary file, and is written in place. *)
Lemma tmp_path_in_place : with_extension_tmp (bstr "/var/lib/norn/peers.tmp") = bstr "/var/lib/norn/peers.tmp".
Proof. by vm_compute. Qed.

(** ** A concrete cache *)

Module ToyCache.
Import Toy ToyText.

#[export] Instance PeerRecord_countable : Countable PeerRecord.
Proof.
  refine (inj_countable' (λ r, (pub_key_hex r, uri r, last_seen_ms r)) (λ x, mkRecord x.1.1 x.1.2 x.2) _).
  by intros [].
Defined.
#[export] Instance PeerCacheFile_countable : Countable PeerCacheFile.
Proof. refine (inj_countable' (λ f, (version f, file_peers f)) (λ x, mkFile x.1 x.2) _). by intros []. Defined.
#[export] Instance toy_json : CacheJson := {| to_string_pretty := serial; from_str := unserial |}.
#[export] Instance toy_json_laws : CacheJsonLaws.
Proof. intros f _ _. apply unserial_serial. Qed.
End ToyCache.

Section CacheWitness.
Import Toy ToyText ToyCache.

Let ord := default_order bytes.
Let p := bstr "/var/lib/norn/peers.json".
Let c0 := record 1000 (fill 32 (u8 1)) (bstr "tcp://h:1") (mk p ∅).
Let io : Calls := {| mkdir := Succeeds; write := Dies; written := Some 3%nat; rename := Dies |}.

Lemma cache_crash_safe_witness :
  let '(r, d') := save ord io c0 ∅ in
  let before := load_with_max_age 2000 5000 (path c0) ∅ in
  let saved := mk (path c0) (fresh 2000 5000 (entries c0)) in
  let after := load_with_max_age 2000 5000 (path c0) d' in
  (after = before ∨ after = saved) ∧ (r = Some (Ok tt) → after = saved) ∧
  ∀ q, q ≠ path c0 → q ≠ with_extension_tmp (path c0) → d' !! q = (∅ : gmap bytes bytes) !! q.
Proof.
  apply (cache_crash_safe ord io c0 ∅ 2000 5000); [|by vm_compute].
  apply record_wf; [by intros k r|by vm_compute|].
  apply (bool_decide_unpack _). by vm_compute.
Defined.
End CacheWitness.
