(* ===== verification/Tun.v ===== *)
(** * The key store and the ICMPv6 errors of [src/tun.rs]

    The address-to-key map the TUN adapter consults, and the "destination
    unreachable" packet it answers with, including the internet checksum
    (RFC 1071).  The adapter's loops are in [TunLoop]. *)

From S2P Require Import Prelude Crypto Address.

(** ** KeyStore *)

Module KeyStore.
Section Store.
Context `{Blake2}.

Record t := mk { addr_to_key : gmap bytes bytes }.

Definition new : t := mk ∅.

(** [register] derives the address first, which may panic. *)
Definition register (s : t) (pub_key : bytes) : res (bytes * t) :=
  addr ← address_from_key pub_key;
  Ok (addr, mk (<[addr := pub_key]> (addr_to_key s))).

Definition key_for_addr (s : t) (addr : bytes) : option bytes := addr_to_key s !! addr.

(** A node that registers the keys of [keys] in order. *)
Definition register_all (keys : list bytes) : res t :=
  foldl (λ r k, s ← r; '(_, s) ← register s k; Ok s) (Ok new) keys.
End Store.
End KeyStore.

(** ** The internet checksum *)

(** [data.chunks_exact(2)] summed, then the odd byte shifted up; [sum] is a
    [u32], whose overflow is excluded below. *)
Fixpoint sum_words (data : bytes) (sum : Z) : Z :=
  match data with
  | a :: b :: data => sum_words data (sum + from_be_bytes [a; b])
  | [a] => sum + Z.shiftl (uz a) 8
  | [] => sum
  end.

(** [while sum >> 16 != 0]: two rounds bring a [u32] below [2^16]. *)
Fixpoint fold_carry (fuel : nat) (sum : Z) : Z :=
  match fuel with
  | O => sum
  | S fuel => if Z.shiftr sum 16 =? 0 then sum
              else fold_carry fuel (Z.land sum 0xFFFF + Z.shiftr sum 16)
  end.

Definition internet_checksum (data : bytes) : Z :=
  let sum := fold_carry 3 (sum_words data 0) in
  0xFFFF - wrap16 sum.

(** ** ICMPv6 *)

Definition MAX_TOTAL : Z := 1280.
Definition IPV6_HDR : Z := 40.
Definition ICMP_OVERHEAD : Z := 8.

(** The checksum input: pseudo-header and ICMPv6 body. *)
Definition csum_input (our_addr orig_src : bytes) (icmpv6_len : Z) (icmp : bytes) : bytes :=
  our_addr ++ orig_src ++ to_be_bytes 4 icmpv6_len ++ [u8 0; u8 0; u8 0; u8 58] ++ icmp.

Definition icmpv6_dest_unreachable (our_addr orig_pkt : bytes) : res (option bytes) :=
  if len orig_pkt <? 40 then Ok None else
  orig_src ← slice orig_pkt 8 24;
  let max_orig := MAX_TOTAL - IPV6_HDR - ICMP_OVERHEAD in
  let orig_len := Z.min (len orig_pkt) max_orig in
  let icmpv6_len := ICMP_OVERHEAD + orig_len in
  quoted ← slice orig_pkt 0 orig_len;
  let hdr := [u8 0x60] ++ fill 3 (u8 0) ++ to_be_bytes 2 icmpv6_len ++ [u8 58; u8 64]
             ++ our_addr ++ orig_src in
  let icmp_start := len hdr in
  let pkt := hdr ++ [u8 1; u8 0] ++ fill 2 (u8 0) ++ fill 4 (u8 0) ++ quoted in
  icmp ← slice_from pkt icmp_start;
  let checksum := internet_checksum (csum_input our_addr orig_src icmpv6_len icmp) in
  let pkt := <[Z.to_nat (icmp_start + 2) := u8 (Z.shiftr checksum 8)]> pkt in
  let pkt := <[Z.to_nat (icmp_start + 3) := u8 (Z.land checksum 0xFF)]> pkt in
  Ok (Some pkt).

(** ** Checksum lemmas *)

(** Induction by two, as [chunks_exact(2)] walks. *)
Lemma pair_ind (P : bytes → Prop) :
  P [] → (∀ a, P [a]) → (∀ a b l, P l → P (a :: b :: l)) → ∀ l, P l.
Proof.
  intros H0 H1 H2. fix IH 1. intros [|a [|b l]]; [done|apply H1|apply H2, IH].
Qed.

Lemma sum_words_acc data s : sum_words data s = s + sum_words data 0.
Proof.
  revert s. induction data as [|a|a b data IH] using pair_ind; intros s; cbn [sum_words]; [lia|lia|].
  rewrite IH, (IH (0 + _)). lia.
Qed.

Lemma sum_words_app x y :
  len x mod 2 = 0 → sum_words (x ++ y) 0 = sum_words x 0 + sum_words y 0.
Proof.
  induction x as [|a|a b x IH] using pair_ind; intros Hx; cbn [sum_words app];
    [done|by vm_compute in Hx|].
  rewrite (sum_words_acc (x ++ y)), (sum_words_acc x), IH; [lia|].
  rewrite !len_cons in Hx. replace (1 + (1 + len x)) with (len x + 1 * 2) in Hx by lia.
  by rewrite Z.mod_add in Hx.
Qed.

Lemma from_be_pair a b : from_be_bytes [a; b] = uz b + 256 * uz a.
Proof.
  unfold from_be_bytes. cbn. unfold le_combine.
  rewrite Z.shiftl_0_l, Z.lor_0_r.
  rewrite (lor_disjoint _ _ 8); [lia|lia|apply uz_range].
Qed.

Lemma sum_words_bound data : 0 ≤ sum_words data 0 ≤ 65535 * len data.
Proof.
  induction data as [|a|a b data IH] using pair_ind; cbn [sum_words]; [done| |].
  - pose proof (uz_range a). rewrite Z.shiftl_mul_pow2 by lia.
    change (len [a]) with 1. lia.
  - rewrite sum_words_acc, from_be_pair.
    pose proof (uz_range a). pose proof (uz_range b). rewrite !len_cons. lia.
Qed.

(** Folding the carries keeps the sum modulo [2^16 - 1], and a positive sum
    positive. *)
Lemma fold_step s :
  0 ≤ s → Z.land s 0xFFFF + Z.shiftr s 16 = s - 65535 * (s / 65536).
Proof.
  intros. replace (Z.land s 0xFFFF) with (s mod 65536)
    by (symmetry; apply (Z.land_ones s 16); lia).
  rewrite Z.shiftr_div_pow2 by lia. change (2 ^ 16) with 65536. pose proof (Z.div_mod s 65536 ltac:(lia)). lia.
Qed.

Lemma fold_carry_spec s :
  0 ≤ s < 2 ^ 32 → 0 ≤ fold_carry 3 s < 65536 ∧ fold_carry 3 s mod 65535 = s mod 65535 ∧
  (0 < s → 0 < fold_carry 3 s).
Proof.
  assert (∀ n t, 0 ≤ t → fold_carry (S n) t =
    if t / 65536 =? 0 then t else fold_carry n (t - 65535 * (t / 65536))) as Hs.
  { intros n t Ht. cbn [fold_carry]. rewrite fold_step by done.
    by rewrite Z.shiftr_div_pow2 by lia. }
  assert (∀ t q, (t - 65535 * q) mod 65535 = t mod 65535) as Hm.
  { intros t q. replace (t - 65535 * q) with (t + (- q) * 65535) by lia. by rewrite Z.mod_add. }
  assert (∀ t, 0 ≤ t → t / 65536 ≠ 0 → 0 < t - 65535 * (t / 65536)
    ∧ t - 65535 * (t / 65536) ≤ 65535 + t / 65536) as Hd.
  { intros t Ht Hq. pose proof (Z.div_mod t 65536 ltac:(lia)).
    pose proof (Z.mod_pos_bound t 65536 ltac:(lia)). pose proof (Z.div_pos t 65536 ltac:(lia) ltac:(lia)). lia. }
  intros Hr. assert (s / 65536 < 65536) by (apply Z.div_lt_upper_bound; lia).
  rewrite Hs by lia. destruct (Z.eqb_spec (s / 65536) 0) as [E|E].
  { apply Z.div_small_iff in E; lia. }
  destruct (Hd s) as [Hp Hb]; [lia|done|]. set (t := s - 65535 * (s / 65536)) in *.
  assert (t / 65536 < 2) by (apply Z.div_lt_upper_bound; lia).
  rewrite Hs by lia. destruct (Z.eqb_spec (t / 65536) 0) as [E'|E'].
  { apply Z.div_small_iff in E'; [|lia]. split_and!; try lia. unfold t. apply Hm. }
  destruct (Hd t) as [Hp' Hb']; [lia|done|].
  pose proof (Z.div_pos t 65536 ltac:(lia) ltac:(lia)).
  assert (t / 65536 = 1) as Et by lia. rewrite Et in *.
  rewrite Hs by lia. destruct (Z.eqb_spec ((t - 65535 * 1) / 65536) 0) as [E''|E''].
  - apply Z.div_small_iff in E''; [|lia]. split_and!; try lia. rewrite Hm. unfold t. apply Hm.
  - exfalso. apply E''. apply Z.div_small. lia.
Qed.

(** A checksum written over zeros at an even offset makes the total verify. *)
Lemma checksum_verifies s :
  0 < s < 2 ^ 32 - 65535 →
  let c := 0xFFFF - wrap16 (fold_carry 3 s) in
  0 ≤ c < 65536 ∧ 0xFFFF - wrap16 (fold_carry 3 (s + c)) = 0.
Proof.
  intros Hs c. destruct (fold_carry_spec s) as (Hr & Hm & Hp); [lia|].
  assert (wrap16 (fold_carry 3 s) = fold_carry 3 s) as Ew by by apply Z.mod_small.
  assert (0 ≤ c < 65536) as Hc by (unfold c; lia). split; [done|].
  destruct (fold_carry_spec (s + c)) as (Hr' & Hm' & Hp'); [lia|].
  unfold wrap16. rewrite Z.mod_small by done.
  assert ((s + c) mod 65535 = 0) as Hz.
  { unfold c. rewrite Ew. rewrite Z.add_mod, <- Hm, <- Z.add_mod by lia.
    by replace (fold_carry 3 s + (65535 - fold_carry 3 s)) with 65535 by lia. }
  rewrite Hz in Hm'. apply Z.mod_divide in Hm' as [q Hq]; [|lia]. lia.
Qed.

Lemma split_be16 c :
  0 ≤ c < 65536 → from_be_bytes [u8 (Z.shiftr c 8); u8 (Z.land c 0xFF)] = c.
Proof.
  intros Hc. replace (Z.land c 0xFF) with (c mod 256)
    by (symmetry; apply (Z.land_ones c 8); lia).
  rewrite Z.shiftr_div_pow2 by lia. change (2 ^ 8) with 256.
  pose proof (Z.div_mod c 256 ltac:(lia)). pose proof (Z.mod_pos_bound c 256 ltac:(lia)).
  assert (0 ≤ c / 256 < 256) by (split; [apply Z.div_pos|apply Z.div_lt_upper_bound]; lia).
  rewrite from_be_pair, !uz_u8 by lia. lia.
Qed.

(** The sum with the checksum in place of the zeros. *)
Lemma sum_with_checksum pre a b c rest :
  len pre mod 2 = 0 → 0 ≤ c < 65536 →
  sum_words (pre ++ a :: b :: u8 (Z.shiftr c 8) :: u8 (Z.land c 0xFF) :: rest) 0
  = sum_words (pre ++ a :: b :: u8 0 :: u8 0 :: rest) 0 + c.
Proof.
  intros Hp Hc. rewrite !sum_words_app by done. cbn [sum_words].
  rewrite split_be16 by done. change (from_be_bytes [u8 0; u8 0]) with 0.
  rewrite (sum_words_acc rest (_ + c)), (sum_words_acc rest (_ + 0)). lia.
Qed.

Lemma len_be n v : len (to_be_bytes n v) = Z.of_nat n.
Proof. unfold to_be_bytes. by rewrite len_rev, len_le_split. Qed.

Definition icmp_hdr (our_addr orig_src : bytes) (icmpv6_len : Z) : bytes :=
  [u8 0x60] ++ fill 3 (u8 0) ++ to_be_bytes 2 icmpv6_len ++ [u8 58; u8 64]
    ++ our_addr ++ orig_src.

(** The packet the function builds, with the checksum in its place. *)
Lemma icmp_shape our_addr orig_pkt :
  len our_addr = 16 → 40 ≤ len orig_pkt →
  ∃ src quoted c,
    slice orig_pkt 8 24 = Ok src ∧ len src = 16 ∧
    slice orig_pkt 0 (Z.min (len orig_pkt) 1232) = Ok quoted ∧
    len quoted = Z.min (len orig_pkt) 1232 ∧
    c = internet_checksum (csum_input our_addr src (8 + len quoted)
          (u8 1 :: u8 0 :: u8 0 :: u8 0 :: fill 4 (u8 0) ++ quoted)) ∧
    icmpv6_dest_unreachable our_addr orig_pkt
    = Ok (Some (icmp_hdr our_addr src (8 + len quoted) ++
        u8 1 :: u8 0 :: u8 (Z.shiftr c 8) :: u8 (Z.land c 0xFF) :: fill 4 (u8 0) ++ quoted)).
Proof.
  intros Ha Hp. unfold icmpv6_dest_unreachable. test_false.
  change (MAX_TOTAL - IPV6_HDR - ICMP_OVERHEAD) with 1232. unfold ICMP_OVERHEAD.
  destruct (slice orig_pkt 8 24) as [src|e|] eqn:Es;
    [|by apply slice_no_err in Es|by rewrite slice_ok in Es by lia].
  destruct (slice orig_pkt 0 _) as [quoted|e|] eqn:Eq;
    [|by apply slice_no_err in Eq|by rewrite slice_ok in Eq by lia].
  apply slice_inv in Es as (_ & _ & Ls & _). apply slice_inv in Eq as (_ & _ & Lq & _).
  exists src, quoted, (internet_checksum (csum_input our_addr src (8 + len quoted)
          (u8 1 :: u8 0 :: u8 0 :: u8 0 :: fill 4 (u8 0) ++ quoted))).
  split_and!; try done; try lia. rewrite !bind_Ok.
  replace (Z.min (len orig_pkt) 1232) with (len quoted) by lia.
  change ([u8 0x60] ++ fill 3 (u8 0) ++ to_be_bytes 2 (8 + len quoted) ++ [u8 58; u8 64]
    ++ our_addr ++ src) with (icmp_hdr our_addr src (8 + len quoted)).
  set (hdr := icmp_hdr our_addr src (8 + len quoted)).
  assert (len hdr = 40) as Lh by (unfold hdr, icmp_hdr; rewrite !len_app, len_be; len_lia).
  change ([u8 1; u8 0] ++ fill 2 (u8 0) ++ fill 4 (u8 0) ++ quoted)
    with (u8 1 :: u8 0 :: u8 0 :: u8 0 :: fill 4 (u8 0) ++ quoted).
  rewrite slice_from_at by done. rewrite bind_Ok. cbv zeta. do 2 f_equal.
  assert (length hdr = 40%nat) as Lh' by (unfold len in Lh; lia).
  rewrite Lh. change (Z.to_nat (40 + 2)) with 42%nat. change (Z.to_nat (40 + 3)) with 43%nat.
  rewrite !insert_app_r_alt by lia. by rewrite Lh'.
Qed.

(** ** Properties *)

(** The ICMPv6 error for any packet of at least 40 bytes is at most 1280
    bytes, goes to the packet's source, quotes its first bytes, and carries a
    checksum that verifies: the internet checksum of pseudo-header and body is
    zero.  Shorter packets get no answer, and nothing panics. *)
Theorem icmp_checksum_valid our_addr orig_pkt :
  len our_addr = 16 →
  if len orig_pkt <? 40 then icmpv6_dest_unreachable our_addr orig_pkt = Ok None
  else ∃ src quoted pkt body,
    slice orig_pkt 8 24 = Ok src ∧ slice orig_pkt 0 (Z.min (len orig_pkt) 1232) = Ok quoted ∧
    icmpv6_dest_unreachable our_addr orig_pkt = Ok (Some pkt) ∧
    pkt = icmp_hdr our_addr src (8 + len quoted) ++ body ∧
    len pkt = 48 + Z.min (len orig_pkt) 1232 ∧ len pkt ≤ 1280 ∧
    drop 8 body = quoted ∧
    internet_checksum (csum_input our_addr src (len body) body) = 0.
Proof.
  intros Ha. destruct (Z.ltb_spec (len orig_pkt) 40) as [Hs|Hl].
  { unfold icmpv6_dest_unreachable. by rewrite (proj2 (Z.ltb_lt _ _) Hs). }
  destruct (icmp_shape our_addr orig_pkt Ha Hl)
    as (src & quoted & c & Es & Ls & Eq & Lq & Hc & E).
  do 4 eexists. split; [done|]. split; [done|]. split; [exact E|]. split; [done|].
  assert (len (icmp_hdr our_addr src (8 + len quoted)) = 40) as Lh
    by (unfold icmp_hdr; rewrite !len_app, len_be; len_lia).
  pose proof (len_nonneg quoted). unfold csum_input in Hc |- *. rewrite !app_assoc in Hc |- *.
  set (pre := (((our_addr ++ src) ++ to_be_bytes 4 (8 + len quoted)) ++ _)) in Hc.
  assert (len pre = 40) as Lp by (unfold pre; rewrite !len_app, len_be; len_lia).
  set (s := sum_words (pre ++ u8 1 :: u8 0 :: u8 0 :: u8 0 :: fill 4 (u8 0) ++ quoted) 0).
  assert (0 < s < 2 ^ 32 - 65535) as Hs.
  { unfold s. rewrite sum_words_app by by rewrite Lp.
    pose proof (sum_words_bound pre). cbn [sum_words]. rewrite (sum_words_acc (_ ++ quoted)).
    pose proof (sum_words_bound (fill 4 (u8 0) ++ quoted)) as Hb. rewrite len_app, len_fill in Hb by lia.
    change (0 + from_be_bytes [u8 1; u8 0] + from_be_bytes [u8 0; u8 0]) with 256. lia. }
  destruct (checksum_verifies s Hs) as [Hr Hz].
  change (0xFFFF - wrap16 (fold_carry 3 s)) with (internet_checksum
    (pre ++ u8 1 :: u8 0 :: u8 0 :: u8 0 :: fill 4 (u8 0) ++ quoted)) in Hr, Hz.
  rewrite <- Hc in Hr, Hz.
  split_and!; [rewrite len_app, !len_cons, len_app, len_fill; lia
              |rewrite len_app, !len_cons, len_app, len_fill; lia|done|].
  rewrite !len_cons, len_app, len_fill by lia.
  replace (1 + (1 + (1 + (1 + (4 + len quoted))))) with (8 + len quoted) by lia. fold pre.
  unfold internet_checksum. rewrite sum_with_checksum by (done || by rewrite Lp). done.
Qed.

Lemma icmp_checksum_valid_witness :
  ∃ src quoted pkt body,
    slice (fill 60 (u8 0x61)) 8 24 = Ok src ∧ slice (fill 60 (u8 0x61)) 0 60 = Ok quoted ∧
    icmpv6_dest_unreachable (fill 16 (u8 2)) (fill 60 (u8 0x61)) = Ok (Some pkt) ∧
    pkt = icmp_hdr (fill 16 (u8 2)) src (8 + len quoted) ++ body ∧
    len pkt = 108 ∧ len pkt ≤ 1280 ∧ drop 8 body = quoted ∧
    internet_checksum (csum_input (fill 16 (u8 2)) src (len body) body) = 0.
Proof. apply (icmp_checksum_valid (fill 16 (u8 2)) (fill 60 (u8 0x61))). done. Defined.

(** A key store only answers with keys that were registered and that have
    the queried address, and it answers for the address of every registered
    key. *)
Theorem key_store_sound `{Blake2} keys s :
  KeyStore.register_all keys = Ok s →
  (∀ addr k, KeyStore.key_for_addr s addr = Some k → k ∈ keys ∧ address_from_key k = Ok addr) ∧
  (∀ k, k ∈ keys → ∃ addr k', address_from_key k = Ok addr ∧
     KeyStore.key_for_addr s addr = Some k' ∧ address_from_key k' = Ok addr).
Proof.
  unfold KeyStore.register_all, KeyStore.key_for_addr. revert s.
  induction keys as [|k keys IH] using rev_ind; intros s.
  { intros [= <-]. split; [|by intros ? ?%elem_of_nil].
    intros addr k. cbn. by rewrite lookup_empty. }
  rewrite foldl_app. cbn [foldl]. intros (s0 & E0 & (p & Hr & E1)%bind_Ok_inv)%bind_Ok_inv.
  destruct (IH s0 E0) as [Hs Hc]. apply bind_Ok_inv in Hr as (a & Ea & [= <-]).
  injection E1 as <-. cbn. setoid_rewrite elem_of_app. setoid_rewrite list_elem_of_singleton. split.
  - intros addr k' [[-> ->]|[_ Hk]]%lookup_insert_Some; [auto|].
    destruct (Hs _ _ Hk). auto.
  - intros k' [Hk| ->].
    + destruct (Hc k' Hk) as (a' & k'' & ? & ? & ?). destruct (decide (a = a')) as [<-|].
      * exists a, k. by rewrite lookup_insert_eq.
      * exists a', k''. by rewrite lookup_insert_ne.
    + exists a, k. by rewrite lookup_insert_eq.
Qed.

Section KeyStoreWitness.
Import Toy.

Lemma key_store_sound_witness :
  ∃ s addr, KeyStore.register_all [fill 32 (u8 1); fill 32 (u8 2)] = Ok s ∧
    address_from_key (fill 32 (u8 1)) = Ok addr ∧
    KeyStore.key_for_addr s addr = Some (fill 32 (u8 1)).
Proof.
  assert (is_ok (KeyStore.register_all [fill 32 (u8 1); fill 32 (u8 2)]) = true) as Hok
    by by vm_compute.
  destruct (KeyStore.register_all [fill 32 (u8 1); fill 32 (u8 2)]) as [s| |] eqn:E;
    [|discriminate Hok..].
  destruct (key_store_sound _ s E) as [_ Hc].
  destruct (Hc (fill 32 (u8 1))) as (addr & k' & Ha & Hk & _); [apply list_elem_of_here|].
  exists s, addr. split; [reflexivity|]. split; [exact Ha|]. rewrite Hk. f_equal.
  apply (key_store_sound _ s E) in Hk as [Hin Hk].
  apply elem_of_cons in Hin as [Hin|Hin]; [exact Hin|].
  apply list_elem_of_singleton in Hin as ->. rewrite <- Ha in Hk. by vm_compute in Hk.
Defined.
End KeyStoreWitness.
