(* ===== verification/Obfs.v ===== *)
(** * Transport obfuscation

    [src/obfs.rs]: the keystream that hides a TCP link, the nonce exchange that
    keys it, and the writer that keeps it in step with a socket that takes bytes
    as it likes.  A socket is modelled by the bytes that went into it and the
    answers it will give: each call of [poll_write], [poll_flush] or
    [poll_shutdown] takes the next answer, and a socket without answers left is
    pending. *)

From S2P Require Import Prelude Xor Crypto Varint.

Definition OBFS_NONCE_LEN : Z := 16.
Definition PSK_DOMAIN : bytes := bstr "norn-obfs-v1-psk".

(** ** Keystreams *)

Module KeyStream.
(** [base] is what the hasher has absorbed. *)
Record t := mk { base : bytes; counter : Z; block : bytes; pos : Z }.

Section KeyStream.
Context `{Blake2}.

Definition new (conn_key : bytes) : t := mk conn_key 0 (fill 64 (u8 0)) 64.

Definition refill (k : t) : t :=
  mk (base k) (wrap64 (counter k + 1)) (blake2b 64 (base k ++ to_le_bytes 8 (counter k))) 0.

(** The loop body of [apply]; the block has 64 bytes, so the position is in range. *)
Definition apply_byte (b : byte) (k : t) : byte * t :=
  let k := if 64 <=? pos k then refill k else k in
  (xor8 b (nth (Z.to_nat (pos k)) (block k) (u8 0)),
   mk (base k) (counter k) (block k) (pos k + 1)).

Fixpoint apply (data : bytes) (k : t) : bytes * t :=
  match data with
  | [] => ([], k)
  | b :: data =>
      let '(b, k) := apply_byte b k in
      let '(data, k) := apply data k in
      (b :: data, k)
  end.
End KeyStream.
End KeyStream.

(** ** The nonce exchange *)

Record ObfsHandshake := { tx : KeyStream.t; rx : KeyStream.t }.

Section Handshake.
Context `{Blake2}.

Definition derive_psk_key (psk : bytes) : option bytes :=
  if len psk =? 0 then None else Some (take 32 (blake2b 64 (PSK_DOMAIN ++ psk))).

Definition conn_key (psk_key nonce : bytes) : bytes := take 32 (blake2b 64 (psk_key ++ nonce)).

(** On a stream from which [input] arrives: what is written to it, and the
    keystreams with the input that is left. *)
Definition obfs_handshake (psk_key tx_nonce input : bytes) : bytes * res (ObfsHandshake * bytes) :=
  (tx_nonce,
   '(rx_nonce, input) ← read_exact OBFS_NONCE_LEN input;
   Ok ({| tx := KeyStream.new (conn_key psk_key tx_nonce);
          rx := KeyStream.new (conn_key psk_key rx_nonce) |}, input)).
End Handshake.

(** ** Sockets *)

Inductive poll (A : Type) := PReady (a : A) | PError | PPending.
Arguments PReady {A} a.
Arguments PError {A}.
Arguments PPending {A}.

(** A write is accepted up to a number of bytes, fails, or would block. *)
Inductive answer := Accepts (n : nat) | Fails | Blocks.
Record Sink := { wire : bytes; answers : list answer }.

Definition sink_poll_write (buf : bytes) (s : Sink) : poll Z * Sink :=
  match answers s with
  | Accepts n :: rest => (PReady (len (take n buf)), {| wire := wire s ++ take n buf; answers := rest |})
  | Fails :: rest => (PError, {| wire := wire s; answers := rest |})
  | Blocks :: rest => (PPending, {| wire := wire s; answers := rest |})
  | [] => (PPending, s)
  end.

(** [poll_flush] and [poll_shutdown] of the socket. *)
Definition sink_poll_flush (s : Sink) : poll () * Sink :=
  match answers s with
  | Accepts _ :: rest => (PReady (), {| wire := wire s; answers := rest |})
  | Fails :: rest => (PError, {| wire := wire s; answers := rest |})
  | Blocks :: rest => (PPending, {| wire := wire s; answers := rest |})
  | [] => (PPending, s)
  end.

(** ** The writer *)

Record CipherWriter := { inner : Sink; ks : KeyStream.t; pending : bytes; sent : Z }.
Inductive ObfsWriter := PlainWriter (w : Sink) | Obfuscated (w : CipherWriter).

(** The loop of [drain]: every iteration takes an answer of the socket. *)
Fixpoint drain_loop (todo : list answer) (out pending : bytes) (sent : Z) : poll () * Sink * Z :=
  if sent <? len pending then
    match todo with
    | Accepts n :: todo =>
        let buf := drop (Z.to_nat sent) pending in
        if len (take n buf) =? 0 then (PError, {| wire := out; answers := todo |}, sent)
        else drain_loop todo (out ++ take n buf) pending (sent + len (take n buf))
    | Fails :: todo => (PError, {| wire := out; answers := todo |}, sent)
    | Blocks :: todo => (PPending, {| wire := out; answers := todo |}, sent)
    | [] => (PPending, {| wire := out; answers := [] |}, sent)
    end
  else (PReady (), {| wire := out; answers := todo |}, sent).

Definition drain (w : CipherWriter) : poll () * CipherWriter :=
  let '(r, s, n) := drain_loop (answers (inner w)) (wire (inner w)) (pending w) (sent w) in
  match r with
  | PReady _ => (r, {| inner := s; ks := ks w; pending := []; sent := 0 |})
  | _ => (r, {| inner := s; ks := ks w; pending := pending w; sent := n |})
  end.

Section Writer.
Context `{Blake2}.

(** [ObfsHandshake::wrap] *)
Definition wrap_writer (h : ObfsHandshake) (s : Sink) : ObfsWriter :=
  Obfuscated {| inner := s; ks := tx h; pending := []; sent := 0 |}.

Definition poll_write (buf : bytes) (w : ObfsWriter) : poll Z * ObfsWriter :=
  match w with
  | PlainWriter s => let '(r, s) := sink_poll_write buf s in (r, PlainWriter s)
  | Obfuscated w =>
      match drain w with
      | (PReady _, w) =>
          if len buf =? 0 then (PReady 0, Obfuscated w) else
          let '(data, k) := KeyStream.apply (pending w ++ buf) (ks w) in
          match drain {| inner := inner w; ks := k; pending := data; sent := sent w |} with
          | (PError, w) => (PError, Obfuscated w)
          | (_, w) => (PReady (len buf), Obfuscated w)
          end
      | (PError, w) => (PError, Obfuscated w)
      | (PPending, w) => (PPending, Obfuscated w)
      end
  end.

Definition poll_flush (w : ObfsWriter) : poll () * ObfsWriter :=
  match w with
  | PlainWriter s => let '(r, s) := sink_poll_flush s in (r, PlainWriter s)
  | Obfuscated w =>
      match drain w with
      | (PReady _, w) =>
          let '(r, s) := sink_poll_flush (inner w) in
          (r, Obfuscated {| inner := s; ks := ks w; pending := pending w; sent := sent w |})
      | (r, w) => (r, Obfuscated w)
      end
  end.

(** [poll_shutdown] drains in the same way before it shuts the socket down. *)
Definition poll_shutdown (w : ObfsWriter) : poll () * ObfsWriter := poll_flush w.

(** ** The reader *)

(** [poll_read] of a chunk that the socket delivers. *)
Definition read_chunk (chunk : bytes) (k : KeyStream.t) : bytes * KeyStream.t :=
  KeyStream.apply chunk k.

Fixpoint read_chunks (chunks : list bytes) (k : KeyStream.t) : bytes * KeyStream.t :=
  match chunks with
  | [] => ([], k)
  | chunk :: chunks =>
      let '(x, k) := read_chunk chunk k in
      let '(y, k) := read_chunks chunks k in
      (x ++ y, k)
  end.
End Writer.

(** A link's user: writes, flushes and a shutdown, each retried when it is
    pending, until one fails.  The bytes accepted so far, and the buffer of the
    write that failed. *)
Inductive write_op := Write (buf : bytes) | Flush | Shutdown.

Definition wire_of (w : ObfsWriter) : bytes :=
  match w with PlainWriter s => wire s | Obfuscated w => wire (inner w) end.

Section Run.
Context `{Blake2}.

Fixpoint run_writer (ops : list write_op) (w : ObfsWriter) : bytes * bytes * ObfsWriter :=
  match ops with
  | [] => ([], [], w)
  | Write buf :: ops =>
      match poll_write buf w with
      | (PReady n, w) =>
          let '(acc, lost, w) := run_writer ops w in (take (Z.to_nat n) buf ++ acc, lost, w)
      | (PPending, w) => run_writer ops w
      | (PError, w) => ([], buf, w)
      end
  | Flush :: ops =>
      match poll_flush w with (PError, w) => ([], [], w) | (_, w) => run_writer ops w end
  | Shutdown :: ops =>
      match poll_shutdown w with (PError, w) => ([], [], w) | (_, w) => run_writer ops w end
  end.

(** ** Keystream lemmas *)

Lemma apply_nil k : KeyStream.apply [] k = ([], k).
Proof. done. Qed.

Lemma apply_app a b k :
  KeyStream.apply (a ++ b) k =
    ((KeyStream.apply a k).1 ++ (KeyStream.apply b (KeyStream.apply a k).2).1,
     (KeyStream.apply b (KeyStream.apply a k).2).2).
Proof.
  revert k. induction a as [|x a IH]; intros k; cbn [app KeyStream.apply].
  - cbn. by destruct (KeyStream.apply b k).
  - destruct (KeyStream.apply_byte x k) as [x' k']. rewrite IH. by destruct (KeyStream.apply a k').
Qed.

Lemma length_apply a k : length (KeyStream.apply a k).1 = length a.
Proof.
  revert k. induction a as [|x a IH]; intros k; [done|]. cbn [KeyStream.apply].
  destruct (KeyStream.apply_byte x k) as [x' k']. specialize (IH k').
  destruct (KeyStream.apply a k'). cbn in *. by rewrite IH.
Qed.

(** The keystream advances by the length of the data and undoes itself. *)
Lemma apply_cancel a k :
  KeyStream.apply (KeyStream.apply a k).1 k = (a, (KeyStream.apply a k).2).
Proof.
  revert k. induction a as [|x a IH]; intros k; [done|]. cbn [KeyStream.apply].
  destruct (KeyStream.apply_byte x k) as [x' k'] eqn:Ex. specialize (IH k').
  destruct (KeyStream.apply a k') as [a' k''] eqn:Ea. cbn [fst snd KeyStream.apply] in *.
  assert (KeyStream.apply_byte x' k = (x, k')) as ->.
  { unfold KeyStream.apply_byte in *. injection Ex as <- <-. by rewrite xor8_cancel. }
  by rewrite IH.
Qed.

Lemma read_chunks_concat chunks k : read_chunks chunks k = KeyStream.apply (concat chunks) k.
Proof.
  revert k. induction chunks as [|c chunks IH]; intros k; [done|]. cbn [read_chunks concat].
  rewrite apply_app. unfold read_chunk. destruct (KeyStream.apply c k) as [x k']. cbn [fst snd].
  rewrite IH. by destruct (KeyStream.apply (concat chunks) k').
Qed.

(** Reading back a prefix of what was written. *)
Lemma apply_prefix c a k :
  c `prefix_of` (KeyStream.apply a k).1 → (KeyStream.apply c k).1 `prefix_of` a.
Proof.
  intros [rest Hc]. pose proof (apply_cancel a k) as Hx. rewrite Hc, apply_app in Hx.
  injection Hx as <- _. by eexists.
Qed.

(** ** The writer's invariant *)

(** What went to the socket and what is pending is the encryption of the accepted
    bytes, and the keystream is where it left it. *)
Definition in_step (k0 : KeyStream.t) (acc : bytes) (w : CipherWriter) : Prop :=
  0 ≤ sent w ≤ len (pending w) ∧
  wire (inner w) ++ drop (Z.to_nat (sent w)) (pending w) = (KeyStream.apply acc k0).1 ∧
  ks w = (KeyStream.apply acc k0).2.

Lemma take_drop_length {A} m (l : list A) : take m l ++ drop (length (take m l)) l = l.
Proof.
  rewrite length_take. destruct (decide (m ≤ length l)%nat).
  - rewrite Nat.min_l by lia. apply take_drop.
  - rewrite Nat.min_r, take_ge, drop_all by lia. apply app_nil_r.
Qed.

Lemma drain_loop_spec todo : ∀ out pend n,
  0 ≤ n ≤ len pend →
  let '(r, s, n') := drain_loop todo out pend n in
  n ≤ n' ≤ len pend ∧ wire s ++ drop (Z.to_nat n') pend = out ++ drop (Z.to_nat n) pend ∧
  (r = PReady () → n' = len pend).
Proof.
  induction todo as [|a todo IH]; intros out pend n Hn; cbn [drain_loop];
    destruct (Z.ltb_spec n (len pend)).
  - split; [lia|]. by split.
  - split; [lia|]. split; [done|lia].
  - destruct a as [m| |]; [|split; [lia|by split]..].
    set (buf := drop (Z.to_nat n) pend).
    assert (len buf = len pend - n) as Hb by (unfold buf; rewrite len_drop; lia).
    destruct (Z.eqb_spec (len (take m buf)) 0); [split; [lia|by split]|].
    pose proof (len_nonneg (take m buf)).
    assert (len (take m buf) ≤ len buf) by (rewrite len_take; lia).
    specialize (IH (out ++ take m buf) pend (n + len (take m buf)) ltac:(lia)).
    destruct (drain_loop _ _ _ _) as [[r s] n']. destruct IH as (? & Hw & Hr). split; [lia|]. split; [|done].
    rewrite Hw, <- app_assoc. f_equal. fold buf.
    replace (Z.to_nat (n + len (take m buf))) with (Z.to_nat n + length (take m buf))%nat by (unfold len in *; lia).
    rewrite <- drop_drop. fold buf. apply take_drop_length.
  - split; [lia|]. split; [done|lia].
Qed.

Lemma drain_spec k0 acc w :
  in_step k0 acc w →
  let '(r, w') := drain w in
  in_step k0 acc w' ∧ (r = PReady () → pending w' = [] ∧ sent w' = 0).
Proof.
  intros (Hs & Hw & Hk). unfold drain.
  pose proof (drain_loop_spec (answers (inner w)) (wire (inner w)) (pending w) (sent w) Hs) as Hd.
  destruct (drain_loop _ _ _ _) as [[r s] n']. destruct Hd as (Hn & Hd & Hr). rewrite Hw in Hd.
  destruct r as [[]| |]; (split; [|done]); unfold in_step; cbn; split_and!; try done; try lia.
  rewrite Hr in Hd by done. rewrite drop_ge in Hd; [|unfold len; lia]. done.
Qed.

Lemma poll_write_spec k0 acc w buf :
  in_step k0 acc w →
  match poll_write buf (Obfuscated w) with
  | (PReady n, w') => n = len buf ∧ ∃ cw, w' = Obfuscated cw ∧ in_step k0 (acc ++ buf) cw
  | (PPending, w') => ∃ cw, w' = Obfuscated cw ∧ in_step k0 acc cw
  | (PError, w') => ∃ cw, w' = Obfuscated cw ∧ (in_step k0 acc cw ∨ in_step k0 (acc ++ buf) cw)
  end.
Proof.
  intros Hw. unfold poll_write. pose proof (drain_spec k0 acc w Hw) as Hd.
  destruct (drain w) as [[[]| |] w1]; destruct Hd as [Hw1 Hr]; [|by eauto..].
  destruct (Hr eq_refl) as [Hp Hs]. destruct (Z.eqb_spec (len buf) 0) as [Hz|].
  { split; [done|]. exists w1. split; [done|].
    assert (buf = []) as -> by (by apply len_zero_nil). by rewrite app_nil_r. }
  destruct Hw1 as (_ & Hw1 & Hk). rewrite Hp, Hs in *. cbn [app]. rewrite Hk.
  destruct (KeyStream.apply buf (KeyStream.apply acc k0).2) as [data k] eqn:Ea.
  set (w2 := {| inner := inner w1; ks := k; pending := data; sent := 0 |}).
  assert (in_step k0 (acc ++ buf) w2) as Hw2.
  { unfold in_step. cbn. rewrite apply_app, Ea. cbn. len_pos. split_and!; [lia..| |done].
    rewrite drop_0. f_equal. rewrite <- Hw1. cbn. by rewrite app_nil_r. }
  pose proof (drain_spec k0 _ w2 Hw2) as Hd.
  destruct (drain w2) as [[[]| |] w3]; destruct Hd as [Hw3 _]; eauto.
Qed.

Lemma poll_flush_spec k0 acc w :
  in_step k0 acc w →
  let '(r, w') := poll_flush (Obfuscated w) in
  ∃ cw, w' = Obfuscated cw ∧ in_step k0 acc cw ∧ (r = PReady () → wire (inner cw) = (KeyStream.apply acc k0).1).
Proof.
  intros Hw. unfold poll_flush. pose proof (drain_spec k0 acc w Hw) as Hd.
  destruct (drain w) as [[[]| |] w1]; destruct Hd as [Hw1 Hr]; [|by exists w1..].
  destruct (Hr eq_refl) as [Hp Hs]. destruct Hw1 as (Hb & Hw1 & Hk).
  assert (∀ s, wire s = wire (inner w1) →
    in_step k0 acc {| inner := s; ks := ks w1; pending := pending w1; sent := sent w1 |} ∧
    wire s = (KeyStream.apply acc k0).1) as Hs'.
  { intros s Es. rewrite Es. split; [|by rewrite Hp, drop_nil, app_nil_r in Hw1].
    split; [done|]. split; [cbn; by rewrite Es|done]. }
  unfold sink_poll_flush. destruct (answers (inner w1)) as [|[] rest];
    (eexists; split; [done|]; split; [by apply Hs'|by intros; apply Hs']).
Qed.

Lemma run_writer_spec k0 ops : ∀ acc0 w acc lost w',
  in_step k0 acc0 w → run_writer ops (Obfuscated w) = (acc, lost, w') →
  ∃ cw, w' = Obfuscated cw ∧ (in_step k0 (acc0 ++ acc) cw ∨ in_step k0 (acc0 ++ acc ++ lost) cw).
Proof.
  induction ops as [|op ops IH]; intros acc0 w acc lost w' Hw; cbn [run_writer].
  { intros [= <- <- <-]. exists w. by rewrite app_nil_r; auto. }
  assert (∀ r wf, poll_flush (Obfuscated w) = (r, wf) →
    match r with PError => ([], [], wf) | _ => run_writer ops wf end = (acc, lost, w') →
    ∃ cw, w' = Obfuscated cw ∧ (in_step k0 (acc0 ++ acc) cw ∨ in_step k0 (acc0 ++ acc ++ lost) cw)) as Hf.
  { intros r wf E. pose proof (poll_flush_spec k0 acc0 w Hw) as Hs. rewrite E in Hs.
    destruct Hs as (cw & -> & Hcw & _). destruct r as [[]| |]; [by apply IH| |by apply IH].
    intros [= <- <- <-]. exists cw. by rewrite app_nil_r; auto. }
  destruct op as [buf| |].
  - pose proof (poll_write_spec k0 acc0 w buf Hw) as Hs. destruct (poll_write buf (Obfuscated w)) as [[n| |] w1].
    + destruct Hs as [-> (cw & -> & Hcw)]. specialize (IH (acc0 ++ buf) cw).
      destruct (run_writer ops (Obfuscated cw)) as [[a l] w2]. intros [= <- <- <-].
      replace (take (Z.to_nat (len buf)) buf) with buf by (rewrite take_ge; [done|unfold len; lia]).
      destruct (IH a l w2 Hcw eq_refl) as (cw' & -> & Hc). exists cw'. by rewrite <- !app_assoc in Hc; rewrite <- app_assoc.
    + intros [= <- <- <-]. destruct Hs as (cw & -> & Hcw). exists cw. by rewrite app_nil_r.
    + destruct Hs as (cw & -> & Hcw). by apply IH.
  - destruct (poll_flush (Obfuscated w)) as [r wf] eqn:E. intros Hr. apply (Hf r wf); [done|]. by destruct r.
  - unfold poll_shutdown. destruct (poll_flush (Obfuscated w)) as [r wf] eqn:E. intros Hr. apply (Hf r wf); [done|]. by destruct r.
Qed.

(** ** Counter mode *)

(** The [i]-th block of the keystream of a key. *)
Definition ctr_block (key : bytes) (i : nat) : bytes := blake2b 64 (key ++ to_le_bytes 8 (Z.of_nat i)).

(** Within a block. *)
Lemma apply_block key c blk data : ∀ p,
  0 ≤ p → p + len data ≤ 64 → len blk = 64 →
  KeyStream.apply data (KeyStream.mk key c blk p) =
    (xor_into data (drop (Z.to_nat p) blk), KeyStream.mk key c blk (p + len data)).
Proof.
  induction data as [|b data IH]; intros p Hp Hl Hb.
  { by rewrite apply_nil, len_nil, Z.add_0_r. }
  rewrite len_cons in *. len_pos. cbn [KeyStream.apply]. unfold KeyStream.apply_byte.
  cbn [KeyStream.pos KeyStream.base KeyStream.counter KeyStream.block].
  destruct (Z.leb_spec 64 p); [lia|].
  cbn [KeyStream.pos KeyStream.base KeyStream.counter KeyStream.block]. rewrite IH by lia.
  destruct (drop (Z.to_nat p) blk) as [|x rest] eqn:Hd.
  { apply (f_equal length) in Hd. rewrite length_drop in Hd. cbn in Hd. unfold len in *. lia. }
  assert (blk !! Z.to_nat p = Some x) as Hx by (by rewrite <- (Nat.add_0_r (Z.to_nat p)), <- lookup_drop, Hd).
  rewrite (nth_lookup_Some _ _ _ _ Hx). cbn [xor_into].
  replace (Z.to_nat (p + 1)) with (Z.to_nat p + 1)%nat by lia. rewrite <- drop_drop, Hd.
  replace (p + 1 + len data) with (p + (1 + len data)) by lia. done.
Qed.

Lemma apply_blocks `{!Blake2Laws} key n : ∀ i blk data,
  len data ≤ 64 * Z.of_nat n → Z.of_nat (i + n) ≤ 2 ^ 64 →
  (KeyStream.apply data (KeyStream.mk key (Z.of_nat i) blk 64)).1 =
    xor_into data (concat (map (ctr_block key) (seq i n))).
Proof.
  induction n as [|n IH]; intros i blk data Hl Hi.
  { assert (data = []) as -> by (apply len_zero_nil; len_pos; lia). done. }
  destruct data as [|b data]; [done|].
  assert (∀ d, d ≠ [] → KeyStream.apply d (KeyStream.mk key (Z.of_nat i) blk 64) =
            KeyStream.apply d (KeyStream.mk key (wrap64 (Z.of_nat i + 1)) (ctr_block key i) 0)) as Hr.
  { intros [|x d] Hd; [done|]. cbn [KeyStream.apply]. unfold KeyStream.apply_byte. cbn [KeyStream.pos]. done. }
  rewrite Hr by done. assert (len (ctr_block key i) = 64) as Hb by (unfold ctr_block; by rewrite blake2b_len).
  set (d := b :: data) in *. rewrite <- (take_drop 64 d) at 1. rewrite apply_app. cbn [map seq concat].
  assert (len (take 64 d) ≤ 64) as Ht by (rewrite len_take; lia).
  rewrite apply_block by lia. cbn [fst snd]. rewrite drop_0.
  destruct (decide (64 < length d)%nat) as [Hlong|].
  - assert (len (take 64 d) = 64) as E by (rewrite len_take; unfold len; lia). rewrite E.
    unfold wrap64. destruct (decide (n = 0%nat)) as [->|]; [unfold len in *; lia|].
    rewrite Z.mod_small by lia. replace (Z.of_nat i + 1) with (Z.of_nat (S i)) by lia.
    rewrite IH; [|rewrite len_drop; lia|lia]. rewrite <- xor_into_app by lia. by rewrite take_drop.
  - rewrite take_ge, drop_ge by lia. rewrite apply_nil, app_nil_r. cbn [fst].
    rewrite xor_into_long; [done|]. unfold len in *. lia.
Qed.
End Run.

(** The incremental keystream is BLAKE2b in counter mode: however much data it is applied to (below
    the 2^64 blocks of the counter), the result is the data xored with the concatenation of the blocks
    [BLAKE2b(key, counter)] from counter 0, and applying it piecewise changes nothing. *)
Theorem keystream_ctr `{Blake2Laws} key n pieces :
  len (concat pieces) ≤ 64 * Z.of_nat n → Z.of_nat n ≤ 2 ^ 64 →
  (read_chunks pieces (KeyStream.new key)).1 =
    xor_into (concat pieces) (concat (map (ctr_block key) (seq 0 n))).
Proof. intros. rewrite read_chunks_concat. by apply (apply_blocks key n 0). Qed.

(** C27: obfuscation is transparent: after the nonce exchange, whatever the pattern of writes, flushes
    and retries of one end, however the socket takes, refuses or delays bytes, and however the other
    end's reads cut up what arrives, the bytes read are a prefix of the bytes accepted from the writer
    (followed at most by the buffer of the write that failed); and once a flush succeeds, everything
    that was accepted has been sent, exactly. *)
Theorem obfs_transparent `{Blake2} psk na nb ina inb hA hB resta todo ops acc lost w chunks :
  len na = OBFS_NONCE_LEN →
  obfs_handshake psk na ina = (na, Ok (hA, resta)) →
  obfs_handshake psk nb (na ++ inb) = (nb, Ok (hB, inb)) →
  run_writer ops (wrap_writer hA {| wire := []; answers := todo |}) = (acc, lost, w) →
  (concat chunks `prefix_of` wire_of w → (read_chunks chunks (rx hB)).1 `prefix_of` acc ++ lost) ∧
  (∀ w', lost = [] → poll_flush w = (PReady (), w') → concat chunks = wire_of w' →
     (read_chunks chunks (rx hB)).1 = acc).
Proof.
  intros Hn HA HB Hrun. rewrite read_chunks_concat.
  assert (tx hA = KeyStream.new (conn_key psk na)) as HtA.
  { unfold obfs_handshake in HA. destruct (read_exact _ _) as [[]| |]; [|done..]. by injection HA as <- _. }
  assert (rx hB = KeyStream.new (conn_key psk na)) as HrB.
  { unfold obfs_handshake, read_exact in HB. rewrite len_app in HB. len_pos.
    destruct (Z.ltb_spec (len na + len inb) OBFS_NONCE_LEN); [lia|]. cbn in HB.
    rewrite take_app_length' in HB by (unfold len in *; lia). by injection HB as <- _. }
  set (k0 := KeyStream.new (conn_key psk na)) in *. rewrite HrB.
  destruct (run_writer_spec k0 ops [] {| inner := {| wire := []; answers := todo |}; ks := tx hA; pending := []; sent := 0 |}
              acc lost w) as (cw & -> & Hcw); [by rewrite HtA|done|]. cbn [app] in Hcw. split.
  - intros Hp. apply apply_prefix. destruct Hcw as [(_ & Hw & _)|(_ & Hw & _)].
    + rewrite apply_app. cbn [fst]. etrans; [exact Hp|]. rewrite <- Hw, <- app_assoc. apply prefix_app_r; done.
    + rewrite <- Hw. etrans; [exact Hp|]. apply prefix_app_r. done.
  - intros w' -> Hf Hc. rewrite app_nil_r in Hcw. assert (in_step k0 acc cw) as Hi by (by destruct Hcw).
    pose proof (poll_flush_spec k0 acc cw Hi) as Hs. rewrite Hf in Hs. destruct Hs as (cw' & -> & _ & Hw).
    cbn in Hc. rewrite Hc, Hw by done. by rewrite apply_cancel.
Qed.

Section ObfsWitness.
Import Toy.

Let na : bytes := fill 16 (u8 9).
Let nb : bytes := fill 16 (u8 10).
Let psk : bytes := fill 32 (u8 1).
Let hA : ObfsHandshake :=
  {| tx := KeyStream.new (conn_key psk na); rx := KeyStream.new (conn_key psk nb) |}.
Let hB : ObfsHandshake :=
  {| tx := KeyStream.new (conn_key psk nb); rx := KeyStream.new (conn_key psk na) |}.
(** A socket that takes a few bytes at a time and blocks in between. *)
Let todo : list answer := [Accepts 3; Blocks; Accepts 2; Accepts 200; Blocks; Accepts 70; Accepts 1; Accepts 1].
Let ops : list write_op := [Write (bstr "hello"); Flush; Write (fill 70 (u8 3)); Flush].

Lemma obfs_transparent_witness :
  ∃ w, run_writer ops (wrap_writer hA {| wire := []; answers := todo |}) = (bstr "hello" ++ fill 70 (u8 3), [], w) ∧
    (read_chunks [take 40 (wire_of w); drop 40 (wire_of w)] (rx hB)).1 = bstr "hello" ++ fill 70 (u8 3).
Proof.
  destruct (run_writer ops (wrap_writer hA {| wire := []; answers := todo |})) as [[acc lost] w] eqn:E.
  destruct (obfs_transparent psk na nb nb [] hA hB [] todo ops acc lost w
    [take 40 (wire_of w); drop 40 (wire_of w)]) as [_ Hx]; [done|done|done|exact E|].
  specialize (Hx (poll_flush w).2). exists w. vm_compute in E. injection E as <- <- <-. split; [done|].
  apply Hx; by vm_compute.
Defined.

Lemma keystream_ctr_witness :
  (read_chunks [fill 60 (u8 7); fill 10 (u8 8)] (KeyStream.new (bstr "key"))).1 =
    xor_into (fill 60 (u8 7) ++ fill 10 (u8 8) ++ []) (ctr_block (bstr "key") 0 ++ ctr_block (bstr "key") 1 ++ []).
Proof. apply (keystream_ctr (bstr "key") 2 [fill 60 (u8 7); fill 10 (u8 8)]); by vm_compute. Defined.
End ObfsWitness.
