(* ===== verification/SessionWire.v ===== *)
(** * Handshake messages of [src/session.rs]

    [SessionInit] and [SessionAck]: layout, the bytes their two signatures
    cover, creation and verification.  The wall clock ([now_ms]) is an argument;
    [oc] says whether the build checks arithmetic overflow. *)

From S2P Require Import Prelude Crypto Varint Cuckoo Packet.

Definition SESSION_INIT_MAGIC : Z := 0x74.
Definition SESSION_ACK_MAGIC : Z := 0x62.
Definition HANDSHAKE_TIME_WINDOW_MS : Z := 5 * 60 * 1000.

Definition SESSION_INIT_WIRE_BYTES : Z :=
  1 + 32 + 64 + 32 + 8 + 32 + ML_KEM_PUB_BYTES + ML_DSA_PUB_BYTES + ML_DSA_SIG_BYTES + 16.
Definition SESSION_ACK_WIRE_BYTES : Z :=
  1 + 32 + 64 + 32 + 8 + 32 + ML_KEM_CT_BYTES + ML_DSA_PUB_BYTES + ML_DSA_SIG_BYTES + 16.

(** ** Signed bytes *)

Definition build_init_sign_bytes (ed_pub x25519_pub : bytes) (timestamp_ms : Z)
    (recipient_ed_pub ml_kem_pub ml_dsa_pub : bytes) : bytes :=
  [u8 SESSION_INIT_MAGIC] ++ ed_pub ++ x25519_pub ++ to_le_bytes 8 timestamp_ms
    ++ recipient_ed_pub ++ ml_kem_pub ++ ml_dsa_pub.

Definition build_ack_sign_bytes (ed_pub x25519_pub : bytes) (timestamp_ms : Z)
    (recipient_ed_pub ml_kem_ct ml_dsa_pub : bytes) : bytes :=
  [u8 SESSION_ACK_MAGIC] ++ ed_pub ++ x25519_pub ++ to_le_bytes 8 timestamp_ms
    ++ recipient_ed_pub ++ ml_kem_ct ++ ml_dsa_pub.

(** ** Clock skew *)

(** [z as i64] of a [u64]; [a - b] on [i64]. *)
Definition as_i64 (z : Z) : Z := if z <? 2 ^ 63 then z else z - 2 ^ 64.
Definition i64_sub (oc : bool) (a b : Z) : res Z :=
  let d := a - b in
  if (- 2 ^ 63 <=? d) && (d <? 2 ^ 63) then Ok d
  else if oc then Panic else Ok ((d + 2 ^ 63) mod 2 ^ 64 - 2 ^ 63).

(** [(now as i64 - ts as i64).unsigned_abs()] *)
Definition skew (oc : bool) (now ts : Z) : res Z :=
  d ← i64_sub oc (as_i64 now) (as_i64 ts); Ok (Z.abs d).

(** ** SessionInit *)

Module SessionInit.
Record t := mk {
  ed_pub : bytes; signature : bytes; x25519_pub : bytes; timestamp_ms : Z;
  recipient_ed_pub : bytes; ml_kem_pub : bytes; ml_dsa_pub : bytes; ml_dsa_sig : bytes;
  sender_coord : bytes }.

Definition ok (m : t) : Prop :=
  len (ed_pub m) = 32 ∧ len (signature m) = 64 ∧ len (x25519_pub m) = 32 ∧
  u64_ok (timestamp_ms m) ∧ len (recipient_ed_pub m) = 32 ∧
  len (ml_kem_pub m) = ML_KEM_PUB_BYTES ∧ len (ml_dsa_pub m) = ML_DSA_PUB_BYTES ∧
  len (ml_dsa_sig m) = ML_DSA_SIG_BYTES ∧ len (sender_coord m) = 16.

Definition signed_bytes (m : t) : bytes :=
  build_init_sign_bytes (ed_pub m) (x25519_pub m) (timestamp_ms m) (recipient_ed_pub m)
    (ml_kem_pub m) (ml_dsa_pub m).

Definition create `{Ed25519} `{MlDsa} (now_ms : Z) (signing_key x25519_pub recipient_ed_pub
    ml_kem_pub sender_coord pq_seed : bytes) : t :=
  let ed_pub := ed_public signing_key in
  let timestamp_ms := now_ms in
  let ml_dsa_pub := dsa_pub pq_seed in
  let sign_data := build_init_sign_bytes ed_pub x25519_pub timestamp_ms recipient_ed_pub
                     ml_kem_pub ml_dsa_pub in
  mk ed_pub (ed_sign signing_key sign_data) x25519_pub timestamp_ms recipient_ed_pub
     ml_kem_pub ml_dsa_pub (dsa_sign pq_seed sign_data) sender_coord.

Definition encode (m : t) : bytes :=
  [u8 SESSION_INIT_MAGIC] ++ ed_pub m ++ signature m ++ x25519_pub m
    ++ to_le_bytes 8 (timestamp_ms m) ++ recipient_ed_pub m ++ ml_kem_pub m
    ++ ml_dsa_pub m ++ ml_dsa_sig m ++ sender_coord m.

Definition decode (data : bytes) : res t :=
  bail_if negb (bool_decide (head data = Some (u8 SESSION_INIT_MAGIC)))
    with "invalid SessionInit magic";
  let need := SESSION_INIT_WIRE_BYTES in
  bail_if len data <? need with "SessionInit too short";
  let pos := 1 in
  ed_pub ← slice data pos (pos + 32); let pos := pos + 32 in
  signature ← slice data pos (pos + 64); let pos := pos + 64 in
  x25519_pub ← slice data pos (pos + 32); let pos := pos + 32 in
  ts_bytes ← slice data pos (pos + 8); let pos := pos + 8 in
  let timestamp_ms := from_le_bytes ts_bytes in
  recipient_ed_pub ← slice data pos (pos + 32); let pos := pos + 32 in
  ml_kem_pub ← slice data pos (pos + ML_KEM_PUB_BYTES); let pos := pos + ML_KEM_PUB_BYTES in
  ml_dsa_pub ← slice data pos (pos + ML_DSA_PUB_BYTES); let pos := pos + ML_DSA_PUB_BYTES in
  ml_dsa_sig ← slice data pos (pos + ML_DSA_SIG_BYTES); let pos := pos + ML_DSA_SIG_BYTES in
  sender_coord ← slice data pos (pos + 16);
  Ok (mk ed_pub signature x25519_pub timestamp_ms recipient_ed_pub ml_kem_pub ml_dsa_pub
         ml_dsa_sig sender_coord).

Definition verify `{Ed25519} (oc : bool) (now_ms : Z) (m : t) (expected_recipient : bytes)
    : res unit :=
  bail_if negb (bool_decide (recipient_ed_pub m = expected_recipient))
    with "SessionInit not addressed to us";
  skew ← skew oc now_ms (timestamp_ms m);
  bail_if HANDSHAKE_TIME_WINDOW_MS <? skew with "SessionInit timestamp outside window";
  bail_if negb (ed_valid (ed_pub m)) with "invalid verifying key";
  bail_if negb (ed_verify (ed_pub m) (signed_bytes m) (signature m)) with "signature error";
  Ok tt.
End SessionInit.

(** ** SessionAck *)

Module SessionAck.
Record t := mk {
  ed_pub : bytes; signature : bytes; x25519_pub : bytes; timestamp_ms : Z;
  recipient_ed_pub : bytes; ml_kem_ct : bytes; ml_dsa_pub : bytes; ml_dsa_sig : bytes;
  sender_coord : bytes }.

Definition ok (m : t) : Prop :=
  len (ed_pub m) = 32 ∧ len (signature m) = 64 ∧ len (x25519_pub m) = 32 ∧
  u64_ok (timestamp_ms m) ∧ len (recipient_ed_pub m) = 32 ∧
  len (ml_kem_ct m) = ML_KEM_CT_BYTES ∧ len (ml_dsa_pub m) = ML_DSA_PUB_BYTES ∧
  len (ml_dsa_sig m) = ML_DSA_SIG_BYTES ∧ len (sender_coord m) = 16.

Definition signed_bytes (m : t) : bytes :=
  build_ack_sign_bytes (ed_pub m) (x25519_pub m) (timestamp_ms m) (recipient_ed_pub m)
    (ml_kem_ct m) (ml_dsa_pub m).

Definition create `{Ed25519} `{MlDsa} (now_ms : Z) (signing_key x25519_pub recipient_ed_pub
    ml_kem_ct sender_coord pq_seed : bytes) : t :=
  let ed_pub := ed_public signing_key in
  let timestamp_ms := now_ms in
  let ml_dsa_pub := dsa_pub pq_seed in
  let sign_data := build_ack_sign_bytes ed_pub x25519_pub timestamp_ms recipient_ed_pub
                     ml_kem_ct ml_dsa_pub in
  mk ed_pub (ed_sign signing_key sign_data) x25519_pub timestamp_ms recipient_ed_pub
     ml_kem_ct ml_dsa_pub (dsa_sign pq_seed sign_data) sender_coord.

Definition encode (m : t) : bytes :=
  [u8 SESSION_ACK_MAGIC] ++ ed_pub m ++ signature m ++ x25519_pub m
    ++ to_le_bytes 8 (timestamp_ms m) ++ recipient_ed_pub m ++ ml_kem_ct m
    ++ ml_dsa_pub m ++ ml_dsa_sig m ++ sender_coord m.

Definition decode (data : bytes) : res t :=
  bail_if negb (bool_decide (head data = Some (u8 SESSION_ACK_MAGIC)))
    with "invalid SessionAck magic";
  let need := SESSION_ACK_WIRE_BYTES in
  bail_if len data <? need with "SessionAck too short";
  let pos := 1 in
  ed_pub ← slice data pos (pos + 32); let pos := pos + 32 in
  signature ← slice data pos (pos + 64); let pos := pos + 64 in
  x25519_pub ← slice data pos (pos + 32); let pos := pos + 32 in
  ts_bytes ← slice data pos (pos + 8); let pos := pos + 8 in
  let timestamp_ms := from_le_bytes ts_bytes in
  recipient_ed_pub ← slice data pos (pos + 32); let pos := pos + 32 in
  ml_kem_ct ← slice data pos (pos + ML_KEM_CT_BYTES); let pos := pos + ML_KEM_CT_BYTES in
  ml_dsa_pub ← slice data pos (pos + ML_DSA_PUB_BYTES); let pos := pos + ML_DSA_PUB_BYTES in
  ml_dsa_sig ← slice data pos (pos + ML_DSA_SIG_BYTES); let pos := pos + ML_DSA_SIG_BYTES in
  sender_coord ← slice data pos (pos + 16);
  Ok (mk ed_pub signature x25519_pub timestamp_ms recipient_ed_pub ml_kem_ct ml_dsa_pub
         ml_dsa_sig sender_coord).

Definition verify `{Ed25519} (oc : bool) (now_ms : Z) (m : t) (expected_recipient : bytes)
    : res unit :=
  bail_if negb (bool_decide (recipient_ed_pub m = expected_recipient))
    with "SessionAck not addressed to us";
  skew ← skew oc now_ms (timestamp_ms m);
  bail_if HANDSHAKE_TIME_WINDOW_MS <? skew with "SessionAck timestamp outside window";
  bail_if negb (ed_valid (ed_pub m)) with "invalid verifying key";
  bail_if negb (ed_verify (ed_pub m) (signed_bytes m) (signature m)) with "signature error";
  Ok tt.
End SessionAck.

(** ** Codec lemmas *)

Ltac unfold_sizes :=
  unfold SESSION_INIT_WIRE_BYTES, SESSION_ACK_WIRE_BYTES, ML_KEM_PUB_BYTES, ML_KEM_CT_BYTES,
    ML_DSA_PUB_BYTES, ML_DSA_SIG_BYTES in *.

Lemma init_decode_encode m :
  SessionInit.ok m → SessionInit.decode (SessionInit.encode m) = Ok m.
Proof.
  intros (?&?&?&?&?&?&?&?&?). unfold_sizes. destruct m. cbn in *.
  unfold SessionInit.decode, SessionInit.encode. unfold_sizes. cbn. codec.
Qed.

Lemma ack_decode_encode m :
  SessionAck.ok m → SessionAck.decode (SessionAck.encode m) = Ok m.
Proof.
  intros (?&?&?&?&?&?&?&?&?). unfold_sizes. destruct m. cbn in *.
  unfold SessionAck.decode, SessionAck.encode. unfold_sizes. cbn. codec.
Qed.

Lemma no_panic_init_decode data : no_panic (SessionInit.decode data).
Proof. unfold SessionInit.decode. unfold_sizes. np. Qed.
Lemma no_panic_ack_decode data : no_panic (SessionAck.decode data).
Proof. unfold SessionAck.decode. unfold_sizes. np. Qed.

Lemma init_decode_ok data m : SessionInit.decode data = Ok m → SessionInit.ok m.
Proof. unfold SessionInit.decode, SessionInit.ok. unfold_sizes. decode_ok. Qed.
Lemma ack_decode_ok data m : SessionAck.decode data = Ok m → SessionAck.ok m.
Proof. unfold SessionAck.decode, SessionAck.ok. unfold_sizes. decode_ok. Qed.

Lemma init_encode_len m : SessionInit.ok m → len (SessionInit.encode m) = SESSION_INIT_WIRE_BYTES.
Proof.
  intros (?&?&?&?&?&?&?&?&?). unfold SessionInit.encode. unfold_sizes.
  rewrite !len_app, len_le_split, len_cons, len_nil. lia.
Qed.
Lemma ack_encode_len m : SessionAck.ok m → len (SessionAck.encode m) = SESSION_ACK_WIRE_BYTES.
Proof.
  intros (?&?&?&?&?&?&?&?&?). unfold SessionAck.encode. unfold_sizes.
  rewrite !len_app, len_le_split, len_cons, len_nil. lia.
Qed.

(** ** Clock-skew lemmas *)

(** Between two times below [2^63] the skew is their distance. *)
Lemma skew_small oc now ts :
  0 ≤ now < 2 ^ 63 → 0 ≤ ts < 2 ^ 63 → skew oc now ts = Ok (Z.abs (now - ts)).
Proof.
  intros. unfold skew, as_i64, i64_sub. repeat test_true.
  by replace ((- 2 ^ 63 <=? now - ts) && (now - ts <? 2 ^ 63)) with true by lia.
Qed.

Lemma no_panic_skew now ts : no_panic (skew false now ts).
Proof. unfold skew, i64_sub. apply no_panic_bind; [by case_match|done]. Qed.

(** An accepted timestamp is within the window, once the clock itself is past the
    first five minutes of 1970. *)
Lemma skew_window oc now ts d :
  HANDSHAKE_TIME_WINDOW_MS < now < 2 ^ 62 → u64_ok ts → skew oc now ts = Ok d → d ≤ HANDSHAKE_TIME_WINDOW_MS →
  Z.abs (now - ts) ≤ HANDSHAKE_TIME_WINDOW_MS.
Proof.
  unfold HANDSHAKE_TIME_WINDOW_MS. intros Hn Ht. destruct (Z.lt_ge_cases ts (2 ^ 63)).
  - rewrite skew_small by lia. by intros [= <-].
  - unfold skew, as_i64, i64_sub. test_true. test_false.
    case_match eqn:E; [intros [= <-]; lia|]. destruct oc; [done|]. intros [= <-].
    assert (now - (ts - 2 ^ 64) + 2 ^ 63 = (now - ts + 2 ^ 63) + 1 * 2 ^ 64) as -> by lia.
    rewrite Z.mod_add by lia.
    destruct (Z.lt_ge_cases (now - ts + 2 ^ 63) 0).
    + rewrite <- (Z.mod_unique _ (2 ^ 64) (-1) (now - ts + 2 ^ 63 + 2 ^ 64)); lia.
    + rewrite Z.mod_small by lia. lia.
Qed.

Section Create.
Context `{Ed25519Laws} `{MlDsaLaws}.

Lemma init_create_ok now sk x rcpt kem coord seed :
  u64_ok now → len x = 32 → len rcpt = 32 → len kem = ML_KEM_PUB_BYTES → len coord = 16 →
  SessionInit.ok (SessionInit.create now sk x rcpt kem coord seed).
Proof.
  intros. unfold SessionInit.ok, SessionAck.ok. split_and!; cbn;
    first [apply ed_public_len | apply ed_sign_len | apply dsa_pub_len
          |apply dsa_sign_len | done | lia].
Qed.

Lemma ack_create_ok now sk x rcpt ct coord seed :
  u64_ok now → len x = 32 → len rcpt = 32 → len ct = ML_KEM_CT_BYTES → len coord = 16 →
  SessionAck.ok (SessionAck.create now sk x rcpt ct coord seed).
Proof.
  intros. unfold SessionInit.ok, SessionAck.ok. split_and!; cbn;
    first [apply ed_public_len | apply ed_sign_len | apply dsa_pub_len
          |apply dsa_sign_len | done | lia].
Qed.

Lemma init_create_verify oc now now' sk x rcpt kem coord seed :
  0 ≤ now < 2 ^ 63 → 0 ≤ now' < 2 ^ 63 → Z.abs (now' - now) ≤ HANDSHAKE_TIME_WINDOW_MS →
  SessionInit.verify oc now' (SessionInit.create now sk x rcpt kem coord seed) rcpt = Ok tt.
Proof.
  intros. unfold SessionInit.verify. cbn [SessionInit.create SessionInit.recipient_ed_pub
    SessionInit.timestamp_ms SessionInit.ed_pub SessionInit.signature].
  rewrite bool_decide_eq_true_2 by done. cbn [negb].
  rewrite skew_small, bind_Ok by done. test_false.
  by rewrite ed_public_valid, ed_sign_verify.
Qed.

Lemma ack_create_verify oc now now' sk x rcpt ct coord seed :
  0 ≤ now < 2 ^ 63 → 0 ≤ now' < 2 ^ 63 → Z.abs (now' - now) ≤ HANDSHAKE_TIME_WINDOW_MS →
  SessionAck.verify oc now' (SessionAck.create now sk x rcpt ct coord seed) rcpt = Ok tt.
Proof.
  intros. unfold SessionAck.verify. cbn [SessionAck.create SessionAck.recipient_ed_pub
    SessionAck.timestamp_ms SessionAck.ed_pub SessionAck.signature].
  rewrite bool_decide_eq_true_2 by done. cbn [negb].
  rewrite skew_small, bind_Ok by done. test_false.
  by rewrite ed_public_valid, ed_sign_verify.
Qed.
End Create.

(** What a successful verification establishes. *)
Lemma init_verify_inv `{Ed25519} oc now m me :
  SessionInit.verify oc now m me = Ok tt →
  SessionInit.recipient_ed_pub m = me ∧
  (∃ d, skew oc now (SessionInit.timestamp_ms m) = Ok d ∧ d ≤ HANDSHAKE_TIME_WINDOW_MS) ∧
  ed_verify (SessionInit.ed_pub m) (SessionInit.signed_bytes m) (SessionInit.signature m) = true.
Proof.
  unfold SessionInit.verify. intros Hv. decode_inv. zbool.
  match goal with Hb : bool_decide _ = true |- _ => apply bool_decide_eq_true_1 in Hb end.
  eauto.
Qed.

Lemma ack_verify_inv `{Ed25519} oc now m me :
  SessionAck.verify oc now m me = Ok tt →
  SessionAck.recipient_ed_pub m = me ∧
  (∃ d, skew oc now (SessionAck.timestamp_ms m) = Ok d ∧ d ≤ HANDSHAKE_TIME_WINDOW_MS) ∧
  ed_verify (SessionAck.ed_pub m) (SessionAck.signed_bytes m) (SessionAck.signature m) = true.
Proof.
  unfold SessionAck.verify. intros Hv. decode_inv. zbool.
  match goal with Hb : bool_decide _ = true |- _ => apply bool_decide_eq_true_1 in Hb end.
  eauto.
Qed.

(** ** Properties *)

(** Handshake messages survive the wire and have their documented sizes, an
    Ack never being larger than the Init that triggers it; decoding never panics
    and accepts only messages whose fields have their lengths. *)
Theorem handshake_wire_roundtrip init ack data :
  SessionInit.ok init → SessionAck.ok ack →
  SessionInit.decode (SessionInit.encode init) = Ok init ∧
  SessionAck.decode (SessionAck.encode ack) = Ok ack ∧
  len (SessionAck.encode ack) ≤ len (SessionInit.encode init) ∧
  no_panic (SessionInit.decode data) ∧ no_panic (SessionAck.decode data) ∧
  (∀ m, SessionInit.decode data = Ok m → SessionInit.ok m) ∧
  (∀ m, SessionAck.decode data = Ok m → SessionAck.ok m).
Proof.
  intros Hi Ha. rewrite init_encode_len, ack_encode_len by done.
  split_and!; eauto using init_decode_encode, ack_decode_encode, no_panic_init_decode,
    no_panic_ack_decode, init_decode_ok, ack_decode_ok. done.
Qed.

(** The bytes signed in an Init and in an Ack are never equal (the magic byte
    separates them), and in each of them the signed bytes determine every field
    they cover, so a signature cannot be moved to another message. *)
Theorem handshake_domain_separation (i i' : SessionInit.t) (a a' : SessionAck.t) :
  SessionInit.ok i → SessionInit.ok i' → SessionAck.ok a → SessionAck.ok a' →
  SessionInit.signed_bytes i ≠ SessionAck.signed_bytes a ∧
  (SessionInit.signed_bytes i = SessionInit.signed_bytes i' →
     SessionInit.ed_pub i = SessionInit.ed_pub i' ∧ SessionInit.x25519_pub i = SessionInit.x25519_pub i' ∧
     SessionInit.timestamp_ms i = SessionInit.timestamp_ms i' ∧
     SessionInit.recipient_ed_pub i = SessionInit.recipient_ed_pub i' ∧
     SessionInit.ml_kem_pub i = SessionInit.ml_kem_pub i' ∧
     SessionInit.ml_dsa_pub i = SessionInit.ml_dsa_pub i') ∧
  (SessionAck.signed_bytes a = SessionAck.signed_bytes a' →
     SessionAck.ed_pub a = SessionAck.ed_pub a' ∧ SessionAck.x25519_pub a = SessionAck.x25519_pub a' ∧
     SessionAck.timestamp_ms a = SessionAck.timestamp_ms a' ∧
     SessionAck.recipient_ed_pub a = SessionAck.recipient_ed_pub a' ∧
     SessionAck.ml_kem_ct a = SessionAck.ml_kem_ct a' ∧
     SessionAck.ml_dsa_pub a = SessionAck.ml_dsa_pub a').
Proof.
  unfold SessionInit.ok, SessionAck.ok. unfold_sizes.
  intros Hi Hi' Ha Ha'. destruct_and? Hi; destruct_and? Hi'; destruct_and? Ha; destruct_and? Ha'.
  unfold SessionInit.signed_bytes, SessionAck.signed_bytes, build_init_sign_bytes,
    build_ack_sign_bytes. cbn [app].
  split; [|split]; intros E; fields_inj; [|by split_and!..].
  match goal with Hm : u8 _ = u8 _ |- _ => by vm_compute in Hm end.
Qed.

Section WireWitness.
Import Toy.

Let sk := fill 32 (u8 1).
Let init := SessionInit.create 1000 sk (fill 32 (u8 2)) (fill 32 (u8 3)) (fill 1184 (u8 4))
  (fill 16 (u8 5)) (fill 32 (u8 6)).
Let ack := SessionAck.create 1000 sk (fill 32 (u8 2)) (fill 32 (u8 3)) (fill 1088 (u8 4))
  (fill 16 (u8 5)) (fill 32 (u8 6)).

Lemma sample_init_ok : SessionInit.ok init.
Proof. by apply init_create_ok. Qed.
Lemma sample_ack_ok : SessionAck.ok ack.
Proof. by apply ack_create_ok. Qed.

Lemma handshake_wire_roundtrip_witness : SessionInit.decode (SessionInit.encode init) = Ok init.
Proof. apply (handshake_wire_roundtrip init ack [] sample_init_ok sample_ack_ok). Defined.

Lemma handshake_domain_separation_witness :
  SessionInit.signed_bytes init ≠ SessionAck.signed_bytes ack.
Proof.
  apply (handshake_domain_separation init init ack ack);
    [apply sample_init_ok..|apply sample_ack_ok|apply sample_ack_ok].
Defined.
End WireWitness.
