(* ===== verification/Session.v ===== *)
(** * Session encryption: [SessionInfo] of [src/session.rs]

    The per-peer state, the memoised Diffie-Hellman secret, packet encryption and
    decryption with the 64-slot anti-replay window, the rotating ML-KEM keys, and
    the key derivation.  Instants and durations are milliseconds; the keys drawn
    from the generator are arguments.

    The window is proved to refine the set of the sequence numbers accepted so
    far ([Rep]). *)

From S2P Require Import Prelude Crypto Varint Cuckoo Packet SessionWire.

(** ** Rotating ML-KEM keys *)

Definition ML_KEM_KEY_ROTATION_MS : Z := 24 * 60 * 60 * 1000.
Definition ML_KEM_KEY_OVERLAP_MS : Z := 60000.

(** [secs.saturating_mul(k)] on [u64]. *)
Definition sat_mul (a b : Z) : Z := Z.min U64_MAX (a * b).

(** [accelerate] is the test knob [NORN_ACCELERATE_ROTATIONS_SECS]. *)
Definition effective_ml_kem_rotation_ms (accelerate : option Z) : Z :=
  match accelerate with Some secs => sat_mul secs 1000 | None => ML_KEM_KEY_ROTATION_MS end.
Definition effective_ml_kem_overlap_ms (accelerate : option Z) : Z :=
  match accelerate with
  | Some secs => Z.max (sat_mul secs 250) 1000
  | None => ML_KEM_KEY_OVERLAP_MS
  end.

Module PqKeys.
Section Keys.
Context `{MlKem}.

Record t := mk { dk : bytes; ek_bytes : bytes; prev_dk : option bytes; rotated_at : Z }.

Definition generate (now : Z) (dk : bytes) : t := mk dk (kem_ek dk) None now.

Definition pub_bytes (k : t) : bytes := ek_bytes k.

Definition decap (k : t) (ct : bytes) : res bytes :=
  bail_if negb (len ct =? ML_KEM_CT_BYTES) with "ml-kem: bad ct length";
  Ok (kem_decap (dk k) ct).

Definition decap_prev (k : t) (ct : bytes) : option bytes :=
  prev ← prev_dk k;
  if len ct =? ML_KEM_CT_BYTES then Some (kem_decap prev ct) else None.

(** Returns whether anything changed; [new_dk] is the key it may draw. *)
Definition rotate_if_due (accelerate : option Z) (now : Z) (new_dk : bytes) (k : t)
    : bool * t :=
  let elapsed_ms := now - rotated_at k in
  let '(changed, k) :=
    if bool_decide (is_Some (prev_dk k)) && (effective_ml_kem_overlap_ms accelerate <? elapsed_ms)
    then (true, mk (dk k) (ek_bytes k) None (rotated_at k)) else (false, k) in
  if effective_ml_kem_rotation_ms accelerate <? elapsed_ms
  then (true, mk new_dk (kem_ek new_dk) (Some (dk k)) now)
  else (changed, k).
End Keys.
End PqKeys.

(** [r] is the randomness of [ek.encapsulate()]. *)
Definition pq_encapsulate `{MlKem} (r ek_bytes : bytes) : res (bytes * bytes) :=
  bail_if negb (len ek_bytes =? ML_KEM_PUB_BYTES) with "ml-kem: bad ek length";
  bail_if negb (kem_ek_valid ek_bytes) with "ml-kem: invalid encapsulation key";
  Ok (kem_encap ek_bytes r).

Definition derive_packet_key `{Hkdf} (x25519_shared : bytes) (pq_shared : option bytes) : bytes :=
  hkdf32 pq_shared x25519_shared (bstr "norn:session-key:v3").

(** ** Per-session state *)

Record CachedDh := { local_fp : bytes; remote_fp : bytes; shared : bytes }.

Record SessionInfo := mkSessionInfo {
  remote_ed_pub : bytes;
  local_x25519_priv : bytes;
  local_x25519_pub : bytes;
  remote_x25519_pub : bytes;
  local_seq : Z;
  remote_seq_high : Z;
  remote_seq_window : Z;
  established : bool;
  last_used : Z;
  last_init_sent : Z;
  init_retx_count : Z;
  pq_shared : option bytes;
  pq_shared_fallback : option bytes;
  cached_dh : option CachedDh }.

#[global] Instance set_local_x25519_priv : SetField local_x25519_priv := λ v r,
  mkSessionInfo (remote_ed_pub r) v (local_x25519_pub r) (remote_x25519_pub r)
    (local_seq r) (remote_seq_high r) (remote_seq_window r) (established r) (last_used
    r) (last_init_sent r) (init_retx_count r) (pq_shared r) (pq_shared_fallback r)
    (cached_dh r).
#[global] Instance set_local_x25519_pub : SetField local_x25519_pub := λ v r,
  mkSessionInfo (remote_ed_pub r) (local_x25519_priv r) v (remote_x25519_pub r)
    (local_seq r) (remote_seq_high r) (remote_seq_window r) (established r) (last_used
    r) (last_init_sent r) (init_retx_count r) (pq_shared r) (pq_shared_fallback r)
    (cached_dh r).
#[global] Instance set_remote_x25519_pub : SetField remote_x25519_pub := λ v r,
  mkSessionInfo (remote_ed_pub r) (local_x25519_priv r) (local_x25519_pub r) v
    (local_seq r) (remote_seq_high r) (remote_seq_window r) (established r) (last_used
    r) (last_init_sent r) (init_retx_count r) (pq_shared r) (pq_shared_fallback r)
    (cached_dh r).
#[global] Instance set_local_seq : SetField local_seq := λ v r,
  mkSessionInfo (remote_ed_pub r) (local_x25519_priv r) (local_x25519_pub r)
    (remote_x25519_pub r) v (remote_seq_high r) (remote_seq_window r) (established r)
    (last_used r) (last_init_sent r) (init_retx_count r) (pq_shared r)
    (pq_shared_fallback r) (cached_dh r).
#[global] Instance set_remote_seq_high : SetField remote_seq_high := λ v r,
  mkSessionInfo (remote_ed_pub r) (local_x25519_priv r) (local_x25519_pub r)
    (remote_x25519_pub r) (local_seq r) v (remote_seq_window r) (established r)
    (last_used r) (last_init_sent r) (init_retx_count r) (pq_shared r)
    (pq_shared_fallback r) (cached_dh r).
#[global] Instance set_remote_seq_window : SetField remote_seq_window := λ v r,
  mkSessionInfo (remote_ed_pub r) (local_x25519_priv r) (local_x25519_pub r)
    (remote_x25519_pub r) (local_seq r) (remote_seq_high r) v (established r) (last_used
    r) (last_init_sent r) (init_retx_count r) (pq_shared r) (pq_shared_fallback r)
    (cached_dh r).
#[global] Instance set_established : SetField established := λ v r,
  mkSessionInfo (remote_ed_pub r) (local_x25519_priv r) (local_x25519_pub r)
    (remote_x25519_pub r) (local_seq r) (remote_seq_high r) (remote_seq_window r) v
    (last_used r) (last_init_sent r) (init_retx_count r) (pq_shared r)
    (pq_shared_fallback r) (cached_dh r).
#[global] Instance set_last_used : SetField last_used := λ v r,
  mkSessionInfo (remote_ed_pub r) (local_x25519_priv r) (local_x25519_pub r)
    (remote_x25519_pub r) (local_seq r) (remote_seq_high r) (remote_seq_window r)
    (established r) v (last_init_sent r) (init_retx_count r) (pq_shared r)
    (pq_shared_fallback r) (cached_dh r).
#[global] Instance set_last_init_sent : SetField last_init_sent := λ v r,
  mkSessionInfo (remote_ed_pub r) (local_x25519_priv r) (local_x25519_pub r)
    (remote_x25519_pub r) (local_seq r) (remote_seq_high r) (remote_seq_window r)
    (established r) (last_used r) v (init_retx_count r) (pq_shared r)
    (pq_shared_fallback r) (cached_dh r).
#[global] Instance set_init_retx_count : SetField init_retx_count := λ v r,
  mkSessionInfo (remote_ed_pub r) (local_x25519_priv r) (local_x25519_pub r)
    (remote_x25519_pub r) (local_seq r) (remote_seq_high r) (remote_seq_window r)
    (established r) (last_used r) (last_init_sent r) v (pq_shared r) (pq_shared_fallback
    r) (cached_dh r).
#[global] Instance set_pq_shared : SetField pq_shared := λ v r,
  mkSessionInfo (remote_ed_pub r) (local_x25519_priv r) (local_x25519_pub r)
    (remote_x25519_pub r) (local_seq r) (remote_seq_high r) (remote_seq_window r)
    (established r) (last_used r) (last_init_sent r) (init_retx_count r) v
    (pq_shared_fallback r) (cached_dh r).
#[global] Instance set_pq_shared_fallback : SetField pq_shared_fallback := λ v r,
  mkSessionInfo (remote_ed_pub r) (local_x25519_priv r) (local_x25519_pub r)
    (remote_x25519_pub r) (local_seq r) (remote_seq_high r) (remote_seq_window r)
    (established r) (last_used r) (last_init_sent r) (init_retx_count r) (pq_shared r) v
    (cached_dh r).
#[global] Instance set_cached_dh : SetField cached_dh := λ v r,
  mkSessionInfo (remote_ed_pub r) (local_x25519_priv r) (local_x25519_pub r)
    (remote_x25519_pub r) (local_seq r) (remote_seq_high r) (remote_seq_window r)
    (established r) (last_used r) (last_init_sent r) (init_retx_count r) (pq_shared r)
    (pq_shared_fallback r) v.

(** ** The anti-replay window *)

Definition WINDOW : Z := 64.

(** The two replay checks of [decrypt]. *)
Definition window_check (high window seq : Z) : res unit :=
  bail_if WINDOW <=? sat_sub high seq with "replay: seq too old";
  if seq <=? high then
    let offset := high - seq in
    bail_if negb (Z.land window (Z.shiftl 1 offset) =? 0) with "replay: seq already seen";
    Ok tt
  else Ok tt.

(** The update after a successful decryption: the new high and bitmask. *)
Definition window_update (high window seq : Z) : Z * Z :=
  if high <? seq then
    let shift := seq - high in
    (seq, if WINDOW <=? shift then 1 else Z.lor (wrap64 (Z.shiftl window shift)) 1)
  else
    let offset := high - seq in
    (high, Z.lor window (Z.shiftl 1 offset)).

Section Info.
Context `{X25519} `{Hkdf} `{Aead}.

Definition SessionInfo_new (now : Z) (remote_ed_pub local_priv remote_x : bytes) : SessionInfo :=
  mkSessionInfo remote_ed_pub local_priv (x25519_base local_priv) remote_x
    0 0 0 false now now 0 None None None.

Definition has_pq_shared (s : SessionInfo) : bool := bool_decide (is_Some (pq_shared s)).

Definition compute_key (local_priv remote_pub : bytes) : bytes := x25519 local_priv remote_pub.

Definition dh_shared (remote : bytes) : st SessionInfo bytes :=
  s ← get;
  let fp := local_x25519_pub s in
  let compute :=
    let shared := compute_key (local_x25519_priv s) remote in
    put (s <| cached_dh := Some (Build_CachedDh fp remote shared) |>);;
    mret shared in
  match cached_dh s with
  | Some c =>
      if bool_decide (local_fp c = fp) && bool_decide (remote_fp c = remote)
      then mret (shared c) else compute
  | None => compute
  end.

Definition encrypt (oc : bool) (now : Z) (plaintext : bytes) : st SessionInfo bytes :=
  s ← get;
  let sender_x_pub := local_x25519_pub s in
  let remote := remote_x25519_pub s in
  x25519_shared ← dh_shared remote;
  let key_bytes := derive_packet_key x25519_shared (pq_shared s) in
  let nonce := nonce_of (local_seq s) in
  buf ← lift (ok_or (aead_seal key_bytes nonce sender_x_pub plaintext) "encrypt error");
  let out := sender_x_pub ++ to_le_bytes 8 (local_seq s) ++ buf in
  next_seq ← lift (usize_add oc (local_seq s) 1);
  modify (λ s, s <| local_seq := next_seq |> <| last_used := now |>);;
  mret out.

Definition rotate_local_key (new_priv : bytes) (s : SessionInfo) : SessionInfo :=
  s <| local_x25519_pub := x25519_base new_priv |> <| local_x25519_priv := new_priv |>.

(** The AEAD step of [decrypt]: the primary post-quantum secret, then the
    fallback of a key rotation, which is promoted when it opens the packet. *)
Definition open_hybrid (x25519_shared nonce sender_x_pub raw_ct : bytes) : st SessionInfo bytes :=
  s ← get;
  let primary_key := derive_packet_key x25519_shared (pq_shared s) in
  match aead_open primary_key nonce sender_x_pub raw_ct with
  | Some buf => put (s <| pq_shared_fallback := None |>);; mret buf
  | None =>
      match pq_shared_fallback s with
      | Some fb =>
          let fb_key := derive_packet_key x25519_shared (Some fb) in
          match aead_open fb_key nonce sender_x_pub raw_ct with
          | Some fb_buf =>
              put (s <| pq_shared := Some fb |> <| pq_shared_fallback := None |>);;
              mret fb_buf
          | None => fail "decrypt error: AEAD failed with both primary and fallback PQ keys"
          end
      | None => fail "decrypt error: AEAD failed"
      end
  end.

Definition decrypt (now : Z) (ciphertext : bytes) : st SessionInfo bytes :=
  fail_if len ciphertext <? 32 + 8 + 16 with "ciphertext too short";
  sender_x_pub ← lift (slice ciphertext 0 32);
  seq_bytes ← lift (slice ciphertext 32 40);
  let seq := from_le_bytes seq_bytes in
  x25519_shared ← dh_shared sender_x_pub;
  let nonce := nonce_of seq in
  s ← get;
  lift (window_check (remote_seq_high s) (remote_seq_window s) seq);;
  raw_ct ← lift (slice_from ciphertext 40);
  buf ← open_hybrid x25519_shared nonce sender_x_pub raw_ct;
  modify (λ s,
    let '(high, window) := window_update (remote_seq_high s) (remote_seq_window s) seq in
    s <| remote_seq_high := high |> <| remote_seq_window := window |>
      <| remote_x25519_pub := sender_x_pub |> <| last_used := now |>);;
  mret buf.

(** What a completed handshake does to an existing session ([handle_init] and
    [handle_ack]): the peer's key is replaced and, when [adopt] says so, the
    post-quantum secret and its fallback. *)
Definition install (remote_x : bytes) (adopt : option (bytes * option bytes)) (s : SessionInfo)
    : SessionInfo :=
  let s := s <| remote_x25519_pub := remote_x |> <| established := true |> in
  match adopt with
  | Some (pq, fallback) => s <| pq_shared := Some pq |> <| pq_shared_fallback := fallback |>
  | None => s
  end.

(** Everything that can happen to a session, and the sequence number a step
    accepts. *)
Inductive event :=
| EvDecrypt (now : Z) (ciphertext : bytes)
| EvEncrypt (oc : bool) (now : Z) (plaintext : bytes)
| EvRotate (new_priv : bytes)
| EvInstall (remote_x : bytes) (adopt : option (bytes * option bytes)).

Definition packet_seq (ciphertext : bytes) : Z :=
  from_le_bytes (take 8 (drop 32 ciphertext)).

Definition run_event (e : event) (s : SessionInfo) : option Z * SessionInfo :=
  match e with
  | EvDecrypt now ct =>
      let '(r, s) := decrypt now ct s in ((if r is Ok _ then Some (packet_seq ct) else None), s)
  | EvEncrypt oc now pt => (None, (encrypt oc now pt s).2)
  | EvRotate p => (None, rotate_local_key p s)
  | EvInstall x adopt => (None, install x adopt s)
  end.

(** The sequence numbers accepted along a run. *)
Fixpoint accepted (evs : list event) (s : SessionInfo) : list Z :=
  match evs with
  | [] => []
  | e :: evs => let '(o, s) := run_event e s in option_list o ++ accepted evs s
  end.
End Info.

(** ** The window refines the set of accepted sequence numbers *)

Definition seqset := Z → Prop.

Record Rep (high window : Z) (A : seqset) : Prop := {
  rep_high : u64_ok high;
  rep_window : u64_ok window;
  rep_le : ∀ s, A s → 0 ≤ s ≤ high;
  rep_bit : ∀ i, 0 ≤ i < 64 → i ≤ high → Z.testbit window i = true ↔ A (high - i) }.

(** The abstract window: a number is fresh when it is not more than 63 behind the
    highest accepted one and was not accepted before. *)
Definition fresh (high : Z) (A : seqset) (seq : Z) : Prop := high - seq < WINDOW ∧ ¬ A seq.

Lemma window_check_spec high window A seq :
  Rep high window A → u64_ok seq →
  window_check high window seq = Ok tt ↔ fresh high A seq.
Proof.
  intros [Hh Hw Hle Hbit] Hs. unfold window_check, fresh, WINDOW, sat_sub.
  destruct (Z.leb_spec 64 (Z.max 0 (high - seq))); [split; [done|lia]|].
  destruct (Z.leb_spec seq high) as [Hsh|Hsh].
  - specialize (Hbit (high - seq) ltac:(lia) ltac:(lia)).
    replace (high - (high - seq)) with seq in Hbit by lia.
    rewrite land_pow2_testbit by lia.
    destruct (Z.testbit window (high - seq)).
    + split; [done|]. intros [_ Hn]. by destruct Hn; apply Hbit.
    + split; [|done]. intros _. split; [lia|]. intros ?%Hbit. done.
  - split; [|done]. intros _. split; [lia|]. intros ?%Hle. lia.
Qed.

Lemma window_update_spec high window A seq :
  Rep high window A → u64_ok seq → fresh high A seq →
  let '(high', window') := window_update high window seq in
  high' = Z.max high seq ∧ Rep high' window' (λ s, A s ∨ s = seq).
Proof.
  intros [Hh Hw Hle Hbit] Hs [Hr Hn]. unfold window_update, WINDOW in *.
  destruct (Z.ltb_spec high seq) as [Hlt|Hge].
  - split; [lia|]. split; [done| |intros s [?%Hle|]; lia|].
    + case_match; [lia|]. apply (lor_range _ _ 64); [lia|apply wrap64_range|lia].
    + intros i Hi Hi'. case_match eqn:E; zbool.
      * rewrite (testbit_1 i) by lia.
        destruct (Z.eqb_spec 0 i) as [<-|].
        { rewrite Z.sub_0_r. tauto. }
        split; [done|]. intros [?%Hle|]; lia.
      * rewrite Z.lor_spec, (testbit_1 i) by lia.
        unfold wrap64. rewrite Z.mod_pow2_bits_low, Z.shiftl_spec by lia.
        destruct (Z.eqb_spec 0 i) as [<-|]; [rewrite orb_true_r, Z.sub_0_r; tauto|].
        rewrite orb_false_r. destruct (Z.lt_ge_cases (i - (seq - high)) 0).
        { rewrite Z.testbit_neg_r by done. split; [done|]. intros [?%Hle|]; lia. }
        rewrite Hbit by lia. replace (high - (i - (seq - high))) with (seq - i) by lia.
        split; [tauto|]. intros [|]; [done|lia].
  - split; [lia|]. split; [done| |intros s [?%Hle|]; lia|].
    + apply (lor_range _ _ 64); [lia|done|]. rewrite Z.shiftl_1_l.
      split; [lia|]. apply Z.pow_lt_mono_r; lia.
    + intros i Hi Hi'. rewrite Z.lor_spec, Z.shiftl_1_l, Z.pow2_bits_eqb by lia.
      rewrite orb_true_iff, Hbit, Z.eqb_eq by lia.
      split; (intros [|]; [by left|right; lia]).
Qed.

Lemma Rep_init : Rep 0 0 (λ _, False).
Proof.
  split; [lia|lia|done|]. intros i _ _. by rewrite Z.bits_0.
Qed.

(** ** Lemmas on sessions *)

Section InfoLemmas.
Context `{X25519} `{Hkdf} `{Aead}.

(** The memoised secret is valid for the current local key. *)
Definition cache_ok (s : SessionInfo) : Prop :=
  ∀ c, cached_dh s = Some c → local_fp c = local_x25519_pub s →
    shared c = x25519 (local_x25519_priv s) (remote_fp c).

Lemma set_cached_id s : s <| cached_dh := cached_dh s |> = s.
Proof. by destruct s. Qed.

Lemma dh_shared_frame remote s :
  ∃ k c, dh_shared remote s = (Ok k, s <| cached_dh := c |>).
Proof.
  unfold dh_shared, get, put, mret, st_ret, mbind, st_bind. cbn beta iota.
  destruct (cached_dh s) as [c|] eqn:E; [case_match|]; try by do 2 eexists.
  exists (shared c), (Some c). rewrite <- E. by rewrite set_cached_id.
Qed.

Lemma dh_shared_ok remote s :
  cache_ok s → ∃ c, dh_shared remote s = (Ok (x25519 (local_x25519_priv s) remote), s <| cached_dh := c |>)
    ∧ cache_ok (s <| cached_dh := c |>).
Proof.
  intros Hc. unfold dh_shared, get, put, mret, st_ret, mbind, st_bind. cbn beta iota.
  assert (cache_ok (s <| cached_dh := Some (Build_CachedDh (local_x25519_pub s) remote
    (compute_key (local_x25519_priv s) remote)) |>)) as Hn by by intros c [= <-] _.
  destruct (cached_dh s) as [c|] eqn:E; [case_match eqn:Eb|]; try (eexists; by split; [reflexivity|]).
  apply andb_true_iff in Eb as [E1%bool_decide_eq_true_1 E2%bool_decide_eq_true_1].
  exists (Some c). rewrite <- E, set_cached_id. split; [|done]. subst remote.
  by rewrite (Hc c E E1).
Qed.

(** How [decrypt] treats the window. *)
Lemma decrypt_window now ct s :
  let '(r, s') := decrypt now ct s in
  if r is Ok _ then
    window_check (remote_seq_high s) (remote_seq_window s) (packet_seq ct) = Ok tt ∧
    window_update (remote_seq_high s) (remote_seq_window s) (packet_seq ct)
      = (remote_seq_high s', remote_seq_window s')
  else remote_seq_high s' = remote_seq_high s ∧ remote_seq_window s' = remote_seq_window s.
Proof.
  unfold decrypt. destruct (Z.ltb_spec (len ct) (32 + 8 + 16)); [done|].
  rewrite (slice_ok ct 0 32), (slice_ok ct 32 40) by lia.
  unfold lift, mbind, st_bind. cbn beta iota.
  change (from_le_bytes (take (Z.to_nat (40 - 32)) (drop (Z.to_nat 32) ct))) with (packet_seq ct).
  destruct (dh_shared_frame (take (Z.to_nat (32 - 0)) (drop (Z.to_nat 0) ct)) s) as (k & c & ->).
  cbn -[window_check window_update slice_from open_hybrid].
  destruct (window_check _ _ _) as [[]| |] eqn:Ew; [|done..].
  unfold slice_from. rewrite slice_ok by lia.
  unfold open_hybrid, get, put, mret, st_ret, mbind, st_bind, fail, modify.
  repeat case_match; simplify_eq; cbn in *; simplify_eq; by rewrite ?Ew.
Qed.

(** The other events leave the window alone. *)
Lemma run_event_window e s :
  let '(o, s') := run_event e s in
  match o with
  | Some q => 
      window_check (remote_seq_high s) (remote_seq_window s) q = Ok tt ∧
      window_update (remote_seq_high s) (remote_seq_window s) q
        = (remote_seq_high s', remote_seq_window s') ∧ u64_ok q
  | None => remote_seq_high s' = remote_seq_high s ∧ remote_seq_window s' = remote_seq_window s
  end.
Proof.
  destruct e as [now ct|oc now pt|p|x adopt]; cbn -[decrypt encrypt].
  - pose proof (decrypt_window now ct s) as Hd. destruct (decrypt now ct s) as [[b| |] s']; [|done..].
    destruct Hd as [Hc Hu]. split_and!; try done; unfold packet_seq; [apply from_le_range|].
    eapply Z.lt_le_trans; [apply from_le_range|]. apply Z.pow_le_mono_r; [lia|]. len_lia.
  - unfold encrypt, get, mbind, st_bind. cbn beta iota.
    destruct (dh_shared_frame (remote_x25519_pub s) s) as (k & c & ->). unfold lift, modify.
    repeat case_match; simplify_eq; done.
  - done.
  - by destruct adopt as [[??]|].
Qed.

Lemma accepted_fresh evs : ∀ s A,
  Rep (remote_seq_high s) (remote_seq_window s) A →
  NoDup (accepted evs s) ∧ ∀ q, q ∈ accepted evs s → ¬ A q.
Proof.
  induction evs as [|e evs IH]; intros s A HR; cbn [accepted].
  { split; [constructor|]. by intros q ?%elem_of_nil. }
  pose proof (run_event_window e s) as Hw. destruct (run_event e s) as [[q|] s']; cbn [option_list app].
  - destruct Hw as (Hc & Hu & Hq).
    apply (window_check_spec _ _ A) in Hc; [|done..].
    pose proof (window_update_spec _ _ _ _ HR Hq Hc) as Hup. rewrite Hu in Hup.
    destruct Hup as [_ HR']. destruct (IH s' _ HR') as [Hnd Hin]. split.
    + apply NoDup_cons. split; [|done]. intros Hq'. apply (Hin q Hq'). by right.
    + intros q' [->|Hq']%elem_of_cons; [apply Hc|]. intros HA. apply (Hin q' Hq'). by left.
  - destruct Hw as [-> ->] || (destruct Hw as [E1 E2]; rewrite <- E1, <- E2 in HR); by apply IH.
Qed.

(** Two ends that finished a handshake: [a] knows [b]'s current key, and they
    share the post-quantum secret. *)
Record paired (a b : SessionInfo) : Prop := {
  p_pub : local_x25519_pub a = x25519_base (local_x25519_priv a);
  p_remote : remote_x25519_pub a = x25519_base (local_x25519_priv b);
  p_pq : pq_shared a = pq_shared b;
  p_cache : cache_ok a }.

(** The key [a] seals with, in terms of the private keys of the two ends. *)
Definition direction_key (a b : SessionInfo) : bytes :=
  derive_packet_key (x25519 (local_x25519_priv a) (x25519_base (local_x25519_priv b)))
    (pq_shared a).

Lemma usize_add_small oc a b : a + b < 2 ^ 64 → usize_add oc a b = Ok (a + b).
Proof. intros. unfold usize_add. by test_true. Qed.

Lemma encrypt_shape oc now pt a b c :
  paired a b → local_seq a + 1 < 2 ^ 64 →
  aead_seal (direction_key a b) (nonce_of (local_seq a)) (local_x25519_pub a) pt = Some c →
  ∃ d, encrypt oc now pt a
    = (Ok (local_x25519_pub a ++ to_le_bytes 8 (local_seq a) ++ c),
       a <| cached_dh := d |> <| local_seq := local_seq a + 1 |> <| last_used := now |>)
    ∧ cache_ok (a <| cached_dh := d |>).
Proof.
  intros Hp Hs Hc. destruct (dh_shared_ok (remote_x25519_pub a) a (p_cache _ _ Hp)) as (d & E & Hd).
  exists d. split; [|done]. unfold encrypt.
  rewrite (st_bind_Ok _ _ _ _ _ (eq_refl : get a = (Ok a, a))).
  rewrite (st_bind_Ok _ _ _ _ _ E), (p_remote _ _ Hp).
  fold (direction_key a b). unfold lift. rewrite Hc, usize_add_small by done. done.
Qed.

Lemma direction_key_sym `{!X25519Laws} a b :
  paired a b → direction_key a b = direction_key b a.
Proof.
  intros Hp. unfold direction_key. by rewrite (p_pq _ _ Hp), x25519_comm.
Qed.

Lemma packet_roundtrip `{!X25519Laws} `{!AeadLaws} oc now now' pt a b :
  paired a b → cache_ok b → local_x25519_pub b = x25519_base (local_x25519_priv b) →
  u64_ok (local_seq a) → local_seq a + 1 < 2 ^ 64 → len pt ≤ AEAD_MAX →
  window_check (remote_seq_high b) (remote_seq_window b) (local_seq a) = Ok tt →
  ∃ ct a' b', encrypt oc now pt a = (Ok ct, a') ∧ decrypt now' ct b = (Ok pt, b') ∧
    local_seq a' = local_seq a + 1 ∧ paired a' b' ∧ paired b' a' ∧
    established a' = established a ∧ len ct = len pt + 56 ∧
    remote_seq_high b' = Z.max (remote_seq_high b) (local_seq a) ∧ paired a' b.
Proof.
  intros Hp Hb Hpb Hs0 Hs Hl Hw.
  destruct (aead_seal_ok (direction_key a b) (nonce_of (local_seq a)) (local_x25519_pub a) pt Hl)
    as (c & Ec & Lc).
  destruct (encrypt_shape oc now pt a b c Hp Hs Ec) as (d & Ee & Hd).
  assert (len (local_x25519_pub a) = 32) as Lp by (rewrite (p_pub _ _ Hp); apply x25519_base_len).
  destruct (dh_shared_ok (local_x25519_pub a) b Hb) as (d' & Ed & Hd').
  destruct (window_update (remote_seq_high b) (remote_seq_window b) (local_seq a)) as [h w] eqn:Eu.
  pose proof (len_nonneg pt). do 3 eexists. split; [exact Ee|].
  unfold decrypt. test_false. unfold lift.
  rewrite (slice_head _ _ 0 32), (slice_drop (local_x25519_pub a) _ 32 40), slice_head by len_lia.
  rewrite (st_bind_Ok _ _ _ _ _ eq_refl). rewrite (st_bind_Ok _ _ _ _ _ eq_refl).
  rewrite (st_bind_Ok _ _ _ _ _ Ed), from_to_le by (cbn; lia).
  rewrite (st_bind_Ok get _ _ _ _ eq_refl).
  rewrite (st_bind_Ok _ _ (b <| cached_dh := d' |>) tt (b <| cached_dh := d' |>)) by (cbn; by rewrite Hw).
  rewrite !slice_from_drop by len_lia. rewrite slice_from_start by len_lia.
  rewrite (st_bind_Ok _ _ _ _ _ eq_refl).
  apply aead_seal_open in Ec. unfold direction_key in Ec.
  rewrite (p_pq _ _ Hp), <- (x25519_comm (local_x25519_priv b)), <- (p_pub _ _ Hp) in Ec.
  unfold open_hybrid, get, put, modify, mret, st_ret, mbind, st_bind. cbn -[window_update].
  change (pq_shared (b <| cached_dh := d' |>)) with (pq_shared b). rewrite Ec. cbn -[window_update].
  rewrite Eu. split; [reflexivity|]. destruct Hp. split; [done|]. do 2 (split; [by split|]).
  split; [done|]. split; [len_lia|]. split; [|by split].
  unfold window_update in Eu. cbn. destruct (Z.ltb_spec (remote_seq_high b) (local_seq a)); simplify_eq; lia.
Qed.

(** Each rotation of a run draws a key whose public key is not the one the cached
    secret was computed for. *)
Fixpoint fresh_rotations (evs : list event) (s : SessionInfo) : Prop :=
  match evs with
  | [] => True
  | e :: evs =>
      match e, cached_dh s with
      | EvRotate p, Some c => local_fp c ≠ x25519_base p
      | _, _ => True
      end ∧ fresh_rotations evs (run_event e s).2
  end.

Definition run_events (evs : list event) (s : SessionInfo) : SessionInfo :=
  foldl (λ s e, (run_event e s).2) s evs.

Lemma encrypt_cache_ok oc now pt s : cache_ok s → cache_ok (encrypt oc now pt s).2.
Proof.
  intros Hc. destruct (dh_shared_ok (remote_x25519_pub s) s Hc) as (d & E & Hd).
  unfold encrypt. rewrite (st_bind_Ok get _ _ _ _ eq_refl), (st_bind_Ok _ _ _ _ _ E).
  unfold lift, modify, mbind, st_bind. repeat case_match; simplify_eq; exact Hd.
Qed.

Lemma open_hybrid_cache_ok k n p c s : cache_ok s → cache_ok (open_hybrid k n p c s).2.
Proof.
  intros Hc. unfold open_hybrid, get, put, fail, mbind, st_bind.
  repeat case_match; simplify_eq; exact Hc.
Qed.

Lemma decrypt_cache_ok now ct s : cache_ok s → cache_ok (decrypt now ct s).2.
Proof.
  intros Hc. unfold decrypt. case_match; [done|]. unfold lift, get, mbind, st_bind.
  destruct (slice ct 0 32) as [p| |]; [|done..]. destruct (slice ct 32 40); [|done..].
  cbn beta iota. destruct (dh_shared_ok p s Hc) as (d & -> & Hd).
  destruct (window_check _ _ _); [|exact Hd..]. destruct (slice_from ct 40) as [raw| |]; [|exact Hd..].
  match goal with |- context [open_hybrid ?k ?n ?q ?c ?s] =>
    pose proof (open_hybrid_cache_ok k n q c s Hd) as Ho; destruct (open_hybrid k n q c s) as [[]?] end;
  [|exact Ho..]. unfold modify. destruct (window_update _ _ _). exact Ho.
Qed.

Lemma run_events_cache_ok evs : ∀ s,
  cache_ok s → fresh_rotations evs s → cache_ok (run_events evs s).
Proof.
  induction evs as [|e evs IH]; intros s Hc; [done|]. intros [He Hf].
  apply IH; [|done]. destruct e as [now ct|oc now pt|p|x adopt]; cbn -[decrypt encrypt].
  - pose proof (decrypt_cache_ok now ct s Hc). by destruct (decrypt now ct s).
  - by apply encrypt_cache_ok.
  - intros c Ec Efp. cbn in *. rewrite Ec in He. done.
  - destruct adopt as [[??]|]; exact Hc.
Qed.
End InfoLemmas.

(** ** Properties *)

(** C20: along every run of a session (decryptions, encryptions, key rotations and
    re-handshakes in any order, with any received bytes), each sequence number
    is accepted at most once. *)
Theorem replay_at_most_once `{X25519} `{Hkdf} `{Aead} evs now ed priv rx :
  NoDup (accepted evs (SessionInfo_new now ed priv rx)).
Proof. apply (accepted_fresh evs _ (λ _, False)). apply Rep_init. Qed.

(** C19: the 64-slot bitmask window implements its specification: in a state that
    represents the set [A] of accepted numbers, a number passes the checks
    exactly when it is less than 64 behind the highest accepted one and not in
    [A], and the update then represents [A] with that number. *)
Theorem window_refines_set high window A seq :
  Rep high window A → u64_ok seq →
  (window_check high window seq = Ok tt ↔ fresh high A seq) ∧
  (fresh high A seq →
   let '(high', window') := window_update high window seq in
   high' = Z.max high seq ∧ Rep high' window' (λ s, A s ∨ s = seq)).
Proof.
  intros HR Hs. split; [by apply window_check_spec|]. by apply window_update_spec.
Qed.

Lemma window_refines_set_witness :
  let '(h1, w1) := window_update 0 0 70 in
  window_check h1 w1 7 = Ok tt ∧ Rep h1 w1 (λ s, False ∨ s = 70).
Proof.
  destruct (window_refines_set 0 0 (λ _, False) 70 Rep_init ltac:(lia)) as [_ Hu].
  specialize (Hu ltac:(split; [by vm_compute|tauto])).
  change (window_update 0 0 70) with (70, 1) in *. destruct Hu as [_ HR]. split; [|done].
  apply (window_refines_set 70 1 _ 7 HR); [lia|]. split; [by vm_compute|]. intros [|]; [done|lia].
Defined.

(** C10: what one end encrypts, the other decrypts to the same plaintext, whenever
    the packet's number is fresh for the receiver.  Afterwards both ends know
    each other's current key and share the secret, so that either can send next,
    even when the receiver held a stale key for the sender before. *)
Theorem session_roundtrip `{X25519Laws} `{Hkdf} `{AeadLaws} oc now now' pt a b :
  paired a b → cache_ok b → local_x25519_pub b = x25519_base (local_x25519_priv b) →
  u64_ok (local_seq a) → local_seq a + 1 < 2 ^ 64 → len pt ≤ AEAD_MAX →
  window_check (remote_seq_high b) (remote_seq_window b) (local_seq a) = Ok tt →
  ∃ ct a' b', encrypt oc now pt a = (Ok ct, a') ∧ decrypt now' ct b = (Ok pt, b') ∧
    local_seq a' = local_seq a + 1 ∧ paired a' b' ∧ paired b' a'.
Proof.
  intros. destruct (packet_roundtrip oc now now' pt a b) as (ct & a' & b' & ?); [done..|].
  exists ct, a', b'. naive_solver.
Qed.

(** The memoised secret is never stale: in every state reached by encryptions,
    decryptions, re-handshakes and rotations to keys whose public key differs
    from the one the cache was filled for, [dh_shared] returns the
    Diffie-Hellman secret of the current key and the requested peer key. *)
Theorem dh_cache_correct `{X25519} `{Hkdf} `{Aead} evs now ed priv rx remote :
  fresh_rotations evs (SessionInfo_new now ed priv rx) →
  let s := run_events evs (SessionInfo_new now ed priv rx) in
  ∃ c, dh_shared remote s = (Ok (x25519 (local_x25519_priv s) remote), s <| cached_dh := c |>).
Proof.
  intros Hf. cbn zeta. edestruct dh_shared_ok as (c & -> & _); [|by eexists].
  by apply run_events_cache_ok.
Qed.

(** A packet sealed under the previous post-quantum secret still opens after a
    key rotation: when the primary secret rejects it and the fallback is the
    sender's, the packet is accepted and the fallback becomes the secret. *)
Theorem fallback_promoted `{X25519} `{Hkdf} `{AeadLaws} dh nonce aad pt fb ct s :
  pq_shared_fallback s = Some fb →
  aead_seal (derive_packet_key dh (Some fb)) nonce aad pt = Some ct →
  aead_open (derive_packet_key dh (pq_shared s)) nonce aad ct = None →
  open_hybrid dh nonce aad ct s
    = (Ok pt, s <| pq_shared := Some fb |> <| pq_shared_fallback := None |>).
Proof.
  intros Hf Hs%aead_seal_open Ho. unfold open_hybrid, get, put, mret, st_ret, mbind, st_bind.
  by rewrite Ho, Hf, Hs.
Qed.

(** C40: the two directions of a session seal their n-th packets under the same key
    and the same nonce: two ends that are paired with each other derive equal
    keys, and both number their packets from the same start. *)
Theorem key_nonce_reuse `{X25519Laws} `{Hkdf} `{AeadLaws} oc now pa pb a b :
  paired a b → paired b a → local_seq a = local_seq b → local_seq a + 1 < 2 ^ 64 →
  len pa ≤ AEAD_MAX → len pb ≤ AEAD_MAX →
  ∃ key nonce ca cb, 
    aead_seal key nonce (local_x25519_pub a) pa = Some ca ∧
    aead_seal key nonce (local_x25519_pub b) pb = Some cb ∧
    (encrypt oc now pa a).1 = Ok (local_x25519_pub a ++ to_le_bytes 8 (local_seq a) ++ ca) ∧
    (encrypt oc now pb b).1 = Ok (local_x25519_pub b ++ to_le_bytes 8 (local_seq a) ++ cb).
Proof.
  intros Ha Hb Es Hs La Lb. exists (direction_key a b), (nonce_of (local_seq a)).
  destruct (aead_seal_ok (direction_key a b) (nonce_of (local_seq a)) (local_x25519_pub a) pa La)
    as (ca & Ca & _).
  destruct (aead_seal_ok (direction_key a b) (nonce_of (local_seq a)) (local_x25519_pub b) pb Lb)
    as (cb & Cb & _).
  exists ca, cb. split_and!; [done..| |].
  - by destruct (encrypt_shape oc now pa a b ca Ha Hs Ca) as (d & -> & _).
  - rewrite (direction_key_sym a b Ha), Es in Cb.
    destruct (encrypt_shape oc now pb b a cb Hb ltac:(lia) Cb) as (d & -> & _). by rewrite Es.
Qed.

(** A ciphertext made for the key that was published before a rotation still
    decapsulates: [rotate_if_due] keeps the old decapsulation key while the
    overlap lasts, and [decap_prev] recovers the secret with it. *)
Theorem kem_overlap `{MlKemLaws} accelerate now now' new_dk unused k r ct ss :
  PqKeys.ek_bytes k = kem_ek (PqKeys.dk k) →
  pq_encapsulate r (PqKeys.pub_bytes k) = Ok (ct, ss) →
  effective_ml_kem_rotation_ms accelerate < now - PqKeys.rotated_at k →
  now' - now ≤ effective_ml_kem_overlap_ms accelerate →
  now' - now ≤ effective_ml_kem_rotation_ms accelerate →
  let k1 := (PqKeys.rotate_if_due accelerate now new_dk k).2 in
  let k2 := (PqKeys.rotate_if_due accelerate now' unused k1).2 in
  PqKeys.decap k ct = Ok ss ∧ PqKeys.decap_prev k2 ct = Some ss ∧
  PqKeys.pub_bytes k2 = kem_ek new_dk.
Proof.
  intros He Hp H1 H2 H3. unfold pq_encapsulate, PqKeys.pub_bytes in Hp. rewrite He in Hp.
  repeat case_match; simplify_eq.
  pose proof (kem_ct_len (kem_ek (PqKeys.dk k)) r) as Hl. pose proof (kem_correct (PqKeys.dk k) r) as Hd.
  destruct (kem_encap _ r) as [ct0 ss0]; cbn in *; simplify_eq.
  assert (PqKeys.rotate_if_due accelerate now new_dk k
    = (true, PqKeys.mk new_dk (kem_ek new_dk) (Some (PqKeys.dk k)) now)) as ->.
  { unfold PqKeys.rotate_if_due. case_match; simplify_eq. case_match; simplify_eq; by test_true. }
  cbn zeta. unfold PqKeys.rotate_if_due at 1 2. cbn -[effective_ml_kem_rotation_ms].
  do 2 test_false. cbn. unfold PqKeys.decap, PqKeys.decap_prev. cbn. by rewrite Hl.
Qed.

Section SessionWitness.
Import Toy.

Let priv_a := fill 32 (u8 1).
Let priv_b := fill 32 (u8 2).
Let alice := SessionInfo_new 0 (fill 32 (u8 9)) priv_a (x25519_base priv_b).
Let bob := SessionInfo_new 0 (fill 32 (u8 8)) priv_b (x25519_base priv_a).

Lemma sample_paired : paired alice bob ∧ paired bob alice.
Proof. by split; split. Qed.

Lemma session_roundtrip_witness :
  ∃ ct a' b', encrypt true 5 (bstr "hello") alice = (Ok ct, a') ∧
    decrypt 6 ct bob = (Ok (bstr "hello"), b') ∧
    local_seq a' = 1 ∧ paired a' b' ∧ paired b' a'.
Proof. by apply (session_roundtrip true 5 6 (bstr "hello") alice bob); [apply sample_paired|..]. Defined.

Lemma dh_cache_correct_witness :
  let s := run_events [EvEncrypt true 1 (bstr "x"); EvRotate (fill 32 (u8 3))] alice in
  ∃ c, dh_shared (x25519_base priv_b) s
    = (Ok (x25519 (fill 32 (u8 3)) (x25519_base priv_b)), s <| cached_dh := c |>).
Proof.
  apply (dh_cache_correct [EvEncrypt true 1 (bstr "x"); EvRotate (fill 32 (u8 3))]
    0 (fill 32 (u8 9)) priv_a (x25519_base priv_b) (x25519_base priv_b)).
  split; [done|]. split; [|done]. by vm_compute.
Defined.

Let rotated := bob <| pq_shared := Some (fill 32 (u8 4)) |> <| pq_shared_fallback := Some (fill 32 (u8 5)) |>.

Lemma fallback_promoted_witness :
  ∃ ct, (open_hybrid (fill 32 (u8 6)) (nonce_of 3) (fill 32 (u8 7)) ct rotated).1 = Ok (bstr "hello").
Proof.
  destruct (aead_seal (derive_packet_key (fill 32 (u8 6)) (Some (fill 32 (u8 5)))) (nonce_of 3)
    (fill 32 (u8 7)) (bstr "hello")) as [ct|] eqn:E; [|by vm_compute in E].
  exists ct. rewrite (fallback_promoted (fill 32 (u8 6)) (nonce_of 3) (fill 32 (u8 7))
    (bstr "hello") (fill 32 (u8 5)) ct rotated); [done|done|done|].
  assert (ct = default [] (Some ct)) as -> by done. rewrite <- E. by vm_compute.
Defined.

Lemma key_nonce_reuse_witness :
  ∃ key nonce ca cb,
    aead_seal key nonce (local_x25519_pub alice) (bstr "ping") = Some ca ∧
    aead_seal key nonce (local_x25519_pub bob) (bstr "pong") = Some cb ∧
    (encrypt true 1 (bstr "ping") alice).1 = Ok (local_x25519_pub alice ++ to_le_bytes 8 0 ++ ca) ∧
    (encrypt true 1 (bstr "pong") bob).1 = Ok (local_x25519_pub bob ++ to_le_bytes 8 0 ++ cb).
Proof.
  by apply (key_nonce_reuse true 1 (bstr "ping") (bstr "pong") alice bob);
    [apply sample_paired|apply sample_paired|..].
Defined.

Let keys := PqKeys.generate 0 (fill 64 (u8 1)).

Lemma kem_overlap_witness :
  ∃ ct ss, pq_encapsulate (fill 32 (u8 2)) (PqKeys.pub_bytes keys) = Ok (ct, ss) ∧
    let k1 := (PqKeys.rotate_if_due None 86400001 (fill 64 (u8 3)) keys).2 in
    PqKeys.decap_prev (PqKeys.rotate_if_due None 86410001 [] k1).2 ct = Some ss.
Proof.
  destruct (pq_encapsulate (fill 32 (u8 2)) (PqKeys.pub_bytes keys)) as [[ct ss]| |] eqn:E;
    [|by apply (f_equal is_ok) in E; vm_compute in E..].
  exists ct, ss. split; [done|].
  by apply (kem_overlap None 86400001 86410001 (fill 64 (u8 3)) [] keys (fill 32 (u8 2)) ct ss).
Defined.
End SessionWitness.
