(* ===== verification/SessionManager.v ===== *)
(** * The session table: [SessionManager] of [src/session.rs]

    Handshake handling, trust-on-first-use pins of the post-quantum signing keys,
    the per-source rate limit, retransmission of handshakes, and encryption and
    decryption by peer.  The mutexes around each session are taken for the length
    of one operation and are not modelled.

    Times: [now] is the monotonic clock, [wall] the wall clock, both in
    milliseconds.  Keys and encapsulation randomness are arguments; [ord] is the
    iteration order of the hash maps. *)

From Stdlib Require Import Sorting.Sorted.
From S2P Require Import Prelude Collections Crypto Varint Cuckoo Packet SessionWire Session.

Definition INIT_RATE_WINDOW : Z := 10000.
Definition MAX_INITS_PER_WINDOW : Z := 4.
Definition MAX_INIT_RATE_LOG_ENTRIES : Z := 4096.
Definition MAX_PQ_PINS : Z := 8192.
Definition HANDSHAKE_RETX_BASE_MS : Z := 1000.
Definition HANDSHAKE_RETX_MAX_MS : Z := 30000.
Definition KEY_ROTATION_INTERVAL : Z := 100.
Definition SESSION_IDLE_EXPIRY : Z := 300000.

Module SessionManager.

Record t := mk {
  sessions : gmap bytes SessionInfo;
  our_signing_key : bytes;
  pq_keys : PqKeys.t;
  init_rate_log : gmap bytes (list Z);
  own_coord : bytes;
  pq_signer : bytes;
  pq_pins : gmap bytes bytes }.

#[global] Instance set_sessions : SetField sessions := λ v r,
  mk v (our_signing_key r) (pq_keys r) (init_rate_log r) (own_coord r) (pq_signer r) (pq_pins r).
#[global] Instance set_pq_keys : SetField pq_keys := λ v r,
  mk (sessions r) (our_signing_key r) v (init_rate_log r) (own_coord r) (pq_signer r) (pq_pins r).
#[global] Instance set_init_rate_log : SetField init_rate_log := λ v r,
  mk (sessions r) (our_signing_key r) (pq_keys r) v (own_coord r) (pq_signer r) (pq_pins r).
#[global] Instance set_own_coord' : SetField own_coord := λ v r,
  mk (sessions r) (our_signing_key r) (pq_keys r) (init_rate_log r) v (pq_signer r) (pq_pins r).
#[global] Instance set_pq_signer' : SetField pq_signer := λ v r,
  mk (sessions r) (our_signing_key r) (pq_keys r) (init_rate_log r) (own_coord r) v (pq_pins r).
#[global] Instance set_pq_pins : SetField pq_pins := λ v r,
  mk (sessions r) (our_signing_key r) (pq_keys r) (init_rate_log r) (own_coord r) (pq_signer r) v.

Section Manager.
Context `{X25519} `{Hkdf} `{Aead} `{Ed25519} `{MlDsa} `{MlKem}.

Definition new (now : Z) (signing_key dk signer_seed : bytes) : t :=
  mk ∅ signing_key (PqKeys.generate now dk) ∅ (fill 16 (u8 0)) signer_seed ∅.

Definition set_own_coord (coord : bytes) (m : t) : t := m <| own_coord := coord |>.
Definition set_pq_signer (signer : bytes) (m : t) : t := m <| pq_signer := signer |>.

Definition pq_verify_and_pin (ord : MapOrder bytes) (ed_pub ml_dsa_pub signed sig : bytes)
    : st t unit :=
  m ← get;
  fail_if (match pq_pins m !! ed_pub with
           | Some pinned => negb (bool_decide (pinned = ml_dsa_pub))
           | None => false
           end) with "PQ key mismatch for known identity";
  fail_if negb (dsa_verify ml_dsa_pub signed sig) with "invalid ML-DSA signature";
  match pq_pins m !! ed_pub with
  | Some _ => mret tt
  | None =>
      let pins :=
        if MAX_PQ_PINS <=? Z.of_nat (size (pq_pins m)) then
          match first_key ord (pq_pins m) with
          | Some victim => delete victim (pq_pins m)
          | None => pq_pins m
          end
        else pq_pins m in
      put (m <| pq_pins := <[ed_pub := ml_dsa_pub]> pins |>)
  end.

(** The end of [rate_limited], once the table has room for [source]: [true] is a
    rejection. *)
Definition rate_record (now cutoff : Z) (source : bytes) (log : gmap bytes (list Z))
    : bool * gmap bytes (list Z) :=
  let entry := filter (λ t, cutoff ≤ t) (default [] (log !! source)) in
  if MAX_INITS_PER_WINDOW <=? len entry then (true, <[source := entry]> log)
  else (false, <[source := entry ++ [now]]> log).

Definition rate_limited_log (ord : MapOrder bytes) (now : Z) (source : bytes)
    (log : gmap bytes (list Z)) : bool * gmap bytes (list Z) :=
  let cutoff := default now (instant_checked_sub now INIT_RATE_WINDOW) in
  if bool_decide (log !! source = None) && (MAX_INIT_RATE_LOG_ENTRIES <=? Z.of_nat (size log)) then
    match find_key ord (forallb (λ t, t <? cutoff)) log with
    | Some v => rate_record now cutoff source (delete v log)
    | None => (true, log)
    end
  else rate_record now cutoff source log.

Definition rate_limited (ord : MapOrder bytes) (now : Z) (source : bytes) : st t bool :=
  m ← get;
  let '(limited, log) := rate_limited_log ord now source (init_rate_log m) in
  put (m <| init_rate_log := log |>);;
  mret limited.

Definition maybe_rotate_pq_keys (accelerate : option Z) (now : Z) (new_dk : bytes) (m : t)
    : bool * t :=
  let '(changed, k) := PqKeys.rotate_if_due accelerate now new_dk (pq_keys m) in
  (changed, m <| pq_keys := k |>).

(** [kem_r] is the randomness of the encapsulation and [new_priv] the x25519 key
    drawn for a session that does not exist yet. *)
Definition handle_init (oc : bool) (ord : MapOrder bytes) (now wall : Z) (kem_r new_priv : bytes)
    (data : bytes) : st t bytes :=
  init ← lift (SessionInit.decode data);
  limited ← rate_limited ord now (SessionInit.ed_pub init);
  fail_if (limited : bool) with "handle_init: source rate-limited";
  m ← get;
  let our_pub := ed_public (our_signing_key m) in
  lift (SessionInit.verify oc wall init our_pub);;
  pq_verify_and_pin ord (SessionInit.ed_pub init) (SessionInit.ml_dsa_pub init)
    (SessionInit.signed_bytes init) (SessionInit.ml_dsa_sig init);;
  let remote_x25519_pub := SessionInit.x25519_pub init in
  '(ml_kem_ct, pq_shared') ← lift (pq_encapsulate kem_r (SessionInit.ml_kem_pub init));
  m ← get;
  match sessions m !! SessionInit.ed_pub init with
  | Some existing =>
      let adopt := negb (has_pq_shared existing)
                   || bytes_ltb (SessionInit.ed_pub init) our_pub in
      let existing := install remote_x25519_pub
                        (if adopt then Some (pq_shared', None) else None) existing in
      put (m <| sessions := <[SessionInit.ed_pub init := existing]> (sessions m) |>);;
      let local_pub := x25519_base (local_x25519_priv existing) in
      mret (SessionAck.encode (SessionAck.create wall (our_signing_key m) local_pub
        (SessionInit.ed_pub init) ml_kem_ct (own_coord m) (pq_signer m)))
  | None =>
      let local_priv := new_priv in
      let local_pub := x25519_base local_priv in
      let info := (SessionInfo_new now (SessionInit.ed_pub init) local_priv remote_x25519_pub)
                    <| established := true |> <| pq_shared := Some pq_shared' |> in
      put (m <| sessions := <[SessionInit.ed_pub init := info]> (sessions m) |>);;
      mret (SessionAck.encode (SessionAck.create wall (our_signing_key m) local_pub
        (SessionInit.ed_pub init) ml_kem_ct (own_coord m) (pq_signer m)))
  end.

Definition handle_ack (oc : bool) (ord : MapOrder bytes) (wall : Z) (data : bytes) : st t unit :=
  ack ← lift (SessionAck.decode data);
  m ← get;
  let our_pub := ed_public (our_signing_key m) in
  lift (SessionAck.verify oc wall ack our_pub);;
  pq_verify_and_pin ord (SessionAck.ed_pub ack) (SessionAck.ml_dsa_pub ack)
    (SessionAck.signed_bytes ack) (SessionAck.ml_dsa_sig ack);;
  let remote_x_pub := SessionAck.x25519_pub ack in
  pq_shared' ← lift (PqKeys.decap (pq_keys m) (SessionAck.ml_kem_ct ack));
  let pq_fallback := PqKeys.decap_prev (pq_keys m) (SessionAck.ml_kem_ct ack) in
  m ← get;
  match sessions m !! SessionAck.ed_pub ack with
  | Some info =>
      let adopt := negb (has_pq_shared info) || bytes_ltb our_pub (SessionAck.ed_pub ack) in
      let info := install remote_x_pub
                    (if adopt then Some (pq_shared', pq_fallback) else None) info in
      put (m <| sessions := <[SessionAck.ed_pub ack := info]> (sessions m) |>)
  | None => fail "unsolicited SessionAck (no pending init)"
  end.

Definition initiate (now wall : Z) (new_priv remote_ed_pub : bytes) (m : t) : bytes * t :=
  let local_priv := new_priv in
  let local_pub := x25519_base local_priv in
  let remote_x_placeholder := fill 32 (u8 0) in
  let info := SessionInfo_new now remote_ed_pub local_priv remote_x_placeholder in
  let m := m <| sessions := <[remote_ed_pub := info]> (sessions m) |> in
  (SessionInit.encode (SessionInit.create wall (our_signing_key m) local_pub remote_ed_pub
     (PqKeys.pub_bytes (pq_keys m)) (own_coord m) (pq_signer m)), m).

Definition get_session (remote_ed_pub : bytes) (m : t) : option SessionInfo :=
  sessions m !! remote_ed_pub.

(** One operation on the session of a peer. *)
Definition with_session {A} (remote_ed_pub : bytes) (op : st SessionInfo A) : st t A :=
  m ← get;
  info ← lift (ok_or (sessions m !! remote_ed_pub) "no session");
  fail_if negb (established info) with "session not established";
  let '(r, info) := op info in
  put (m <| sessions := <[remote_ed_pub := info]> (sessions m) |>);;
  lift r.

Definition encrypt (oc : bool) (now : Z) (remote_ed_pub plaintext : bytes) : st t bytes :=
  with_session remote_ed_pub (Session.encrypt oc now plaintext).
Definition decrypt (now : Z) (remote_ed_pub ciphertext : bytes) : st t bytes :=
  with_session remote_ed_pub (Session.decrypt now ciphertext).

Definition is_established (remote_ed_pub : bytes) (m : t) : bool :=
  default false (established <$> sessions m !! remote_ed_pub).

Definition remove (remote_ed_pub : bytes) (m : t) : t :=
  m <| sessions := delete remote_ed_pub (sessions m) |>.

Definition get_or_initiate_bytes (now wall : Z) (new_priv remote_ed_pub : bytes) (m : t)
    : option bytes * t :=
  match sessions m !! remote_ed_pub with
  | Some _ => (None, m)
  | None => let '(b, m) := initiate now wall new_priv remote_ed_pub m in (Some b, m)
  end.

(** The wait before retransmission number [count]. *)
Definition retx_interval (count : Z) : Z :=
  Z.min (Z.shiftl HANDSHAKE_RETX_BASE_MS (Z.min count 5)) HANDSHAKE_RETX_MAX_MS.

Definition retx_due (now : Z) (info : SessionInfo) : bool :=
  negb (established info)
  && negb (duration_since now (last_init_sent info) <? retx_interval (init_retx_count info)).

(** The body of the loop of [pending_handshake_inits]. *)
Definition retx_step (now wall : Z) (acc : list (bytes * bytes) * t) (e : bytes * SessionInfo)
    : list (bytes * bytes) * t :=
  let '(out, m) := acc in
  let '(ed_pub, info) := e in
  if retx_due now info then
    let info := info <| last_init_sent := now |>
                  <| init_retx_count := Z.min (2 ^ 32 - 1) (init_retx_count info + 1) |> in
    let init := SessionInit.encode (SessionInit.create wall (our_signing_key m)
                  (local_x25519_pub info) ed_pub (PqKeys.pub_bytes (pq_keys m))
                  (own_coord m) (pq_signer m)) in
    (out ++ [(ed_pub, init)], m <| sessions := <[ed_pub := info]> (sessions m) |>)
  else (out, m).

Definition pending_handshake_inits (ord : MapOrder bytes) (now wall : Z) (m : t)
    : list (bytes * bytes) * t :=
  foldl (retx_step now wall) ([], m) (map_iter ord (sessions m)).

(** Two maintenance passes of the router over the sessions; [new_priv ed] is the
    key drawn for the session of [ed]. *)
Definition rotate_session_keys (new_priv : bytes → bytes) (m : t) : t :=
  m <| sessions := map_imap (λ ed info, Some
         (if established info && (0 <? local_seq info)
             && (local_seq info mod KEY_ROTATION_INTERVAL =? 0)
          then rotate_local_key (new_priv ed) info else info)) (sessions m) |>.

Definition cleanup_stale_sessions (now : Z) (m : t) : t :=
  m <| sessions := filter (λ kv, duration_since now (last_used kv.2) < SESSION_IDLE_EXPIRY)
                     (sessions m) |>.

(** Everything that can happen to the table. *)
Inductive event :=
| Init (oc : bool) (ord : MapOrder bytes) (now wall : Z) (kem_r new_priv data : bytes)
| Ack (oc : bool) (ord : MapOrder bytes) (wall : Z) (data : bytes)
| Initiate (now wall : Z) (new_priv remote : bytes)
| GetOrInitiate (now wall : Z) (new_priv remote : bytes)
| Encrypt (oc : bool) (now : Z) (remote plaintext : bytes)
| Decrypt (now : Z) (remote ciphertext : bytes)
| Remove (remote : bytes)
| Retransmit (ord : MapOrder bytes) (now wall : Z)
| RotatePq (accelerate : option Z) (now : Z) (new_dk : bytes)
| RotateKeys (new_priv : bytes → bytes)
| Cleanup (now : Z)
| SetCoord (coord : bytes)
| SetSigner (signer : bytes).

Definition run_event (e : event) (m : t) : t :=
  match e with
  | Init oc ord now wall r p data => (handle_init oc ord now wall r p data m).2
  | Ack oc ord wall data => (handle_ack oc ord wall data m).2
  | Initiate now wall p ed => (initiate now wall p ed m).2
  | GetOrInitiate now wall p ed => (get_or_initiate_bytes now wall p ed m).2
  | Encrypt oc now ed pt => (encrypt oc now ed pt m).2
  | Decrypt now ed ct => (decrypt now ed ct m).2
  | Remove ed => remove ed m
  | Retransmit ord now wall => (pending_handshake_inits ord now wall m).2
  | RotatePq acc now dk => (maybe_rotate_pq_keys acc now dk m).2
  | RotateKeys p => rotate_session_keys p m
  | Cleanup now => cleanup_stale_sessions now m
  | SetCoord c => set_own_coord c m
  | SetSigner s => set_pq_signer s m
  end.

Definition run_events (evs : list event) (m : t) : t := foldl (λ m e, run_event e m) m evs.
End Manager.
End SessionManager.

(** ** Runs *)

(** A run of rate-limit queries, with the accepted ones. *)
Definition rate_step (st : gmap bytes (list Z) * list (bytes * Z))
    (call : MapOrder bytes * Z * bytes) : gmap bytes (list Z) * list (bytes * Z) :=
  let '(log, acc) := st in
  let '(ord, now, src) := call in
  let '(limited, log) := SessionManager.rate_limited_log ord now src log in
  (log, if limited : bool then acc else acc ++ [(src, now)]).

(** The times of the accepted queries of [src] in the window that ends at [t]. *)
Definition accepted_in (src : bytes) (t : Z) (acc : list (bytes * Z)) : list (bytes * Z) :=
  filter (λ e, e.1 = src ∧ t - INIT_RATE_WINDOW ≤ e.2 ≤ t) acc.

(** ** The rate limit *)

Section RateLimit.
Import SessionManager.

Definition recent (now : Z) (src : bytes) (log : gmap bytes (list Z)) : list Z :=
  filter (λ t, now - INIT_RATE_WINDOW ≤ t) (default [] (log !! src)).

Definition log_ok (log : gmap bytes (list Z)) : Prop :=
  Z.of_nat (size log) ≤ MAX_INIT_RATE_LOG_ENTRIES ∧
  map_Forall (λ _ ts, len ts ≤ MAX_INITS_PER_WINDOW) log.

Lemma recent_evict now src v log :
  (∀ ts, log !! v = Some ts → forallb (λ t, t <? now - INIT_RATE_WINDOW) ts = true) →
  recent now src (delete v log) = recent now src log.
Proof.
  intros Hv. unfold recent. destruct (decide (v = src)) as [->|]; [|by rewrite lookup_delete_ne].
  rewrite lookup_delete_eq. destruct (log !! src) as [ts|]; [|done]. specialize (Hv ts eq_refl).
  cbn. symmetry. induction ts as [|t ts IH]; [done|]. cbn in Hv.
  apply andb_true_iff in Hv as [Ht%Z.ltb_lt Hts].
  rewrite filter_cons_False by lia. by apply IH.
Qed.

(** What a query does: other sources are not affected, and the query is recorded
    exactly when it is accepted, which needs a free slot. *)
Definition query_spec (now : Z) (src : bytes) (log : gmap bytes (list Z))
    (out : bool * gmap bytes (list Z)) : Prop :=
  log_ok out.2 ∧ (∀ s, s ≠ src → recent now s out.2 = recent now s log) ∧
  recent now src out.2 = recent now src log ++ (if out.1 then [] else [now]) ∧
  (out.1 = false → len (recent now src log) < MAX_INITS_PER_WINDOW).

Lemma rate_record_spec now src log :
  map_Forall (λ _ ts, len ts ≤ MAX_INITS_PER_WINDOW) log →
  Z.of_nat (size (<[src := []]> log)) ≤ MAX_INIT_RATE_LOG_ENTRIES →
  query_spec now src log (rate_record now (now - INIT_RATE_WINDOW) src log).
Proof.
  intros Hlen Hsz. unfold rate_record, query_spec. fold (recent now src log).
  assert (len (recent now src log) ≤ MAX_INITS_PER_WINDOW) as Hr.
  { unfold recent. destruct (log !! src) as [ts|] eqn:E; [|done]. specialize (Hlen _ _ E).
    cbn in *. pose proof (length_filter (λ t, now - INIT_RATE_WINDOW ≤ t) ts). unfold len in *. lia. }
  assert (∀ s e, s ≠ src → recent now s (<[src := e]> log) = recent now s log) as Hne
    by (intros; unfold recent; by rewrite lookup_insert_ne).
  assert (∀ e, size (<[src := e]> log) = size (<[src := []]> log)) as Hse
    by (intros; by rewrite !map_size_insert).
  assert (∀ e, recent now src (<[src := e]> log) = filter (λ t, now - INIT_RATE_WINDOW ≤ t) e) as Heq
    by (intros; unfold recent; by rewrite lookup_insert_eq).
  assert (filter (λ t, now - INIT_RATE_WINDOW ≤ t) (recent now src log) = recent now src log) as Hff
    by (unfold recent; rewrite list_filter_filter; apply list_filter_iff; naive_solver).
  destruct (Z.leb_spec MAX_INITS_PER_WINDOW (len (recent now src log))); cbn [fst snd];
    (split_and!; [split; [by rewrite Hse|]|by auto|rewrite Heq|done]).
  - by apply map_Forall_insert_2.
  - by rewrite app_nil_r, Hff.
  - apply map_Forall_insert_2; [|done]. rewrite len_app. change (len [now]) with 1. lia.
  - rewrite filter_app, Hff, filter_cons_True by (unfold INIT_RATE_WINDOW; lia). done.
Qed.

Lemma rate_limited_log_spec ord now src log :
  0 ≤ now → log_ok log → query_spec now src log (rate_limited_log ord now src log).
Proof.
  intros Hn [Hsz Hlen]. unfold rate_limited_log.
  rewrite instant_checked_sub_ok by (unfold INIT_RATE_WINDOW; lia). cbn [default].
  case_bool_decide as Hnone; cbn [andb];
    [|apply rate_record_spec; [done|]; rewrite size_insert_Some; [done|]; by apply not_eq_None_Some].
  destruct (Z.leb_spec MAX_INIT_RATE_LOG_ENTRIES (Z.of_nat (size log)));
    [|apply rate_record_spec; [done|]; rewrite size_insert_None by done; lia].
  destruct (find_key ord _ log) as [v|] eqn:Ev; [|by split_and!; [..|rewrite app_nil_r|]].
  apply find_key_Some in Ev as (ts & Hv & Hts).
  assert (∀ s, recent now s (delete v log) = recent now s log) as Hdel
    by (intros s; apply recent_evict; rewrite Hv; by intros ? [= <-]).
  assert (delete v log !! src = None) as Hd by (apply lookup_delete_None; by right).
  unfold query_spec. setoid_rewrite <- Hdel. apply rate_record_spec.
  - intros k x [_ Hk]%lookup_delete_Some. by eapply Hlen.
  - rewrite size_insert_None by done. rewrite size_delete_Some by done. lia.
Qed.

(** The first two queries of a source pass. *)
Lemma rate_limited_twice ord ord' now now' src :
  (rate_limited_log ord now src ∅).1 = false ∧
  (rate_limited_log ord' now' src (rate_limited_log ord now src ∅).2).1 = false.
Proof.
  assert (rate_limited_log ord now src ∅ = (false, {[src := [now]]})) as ->.
  { unfold rate_limited_log, rate_record. by rewrite bool_decide_eq_true_2. }
  split; [done|]. unfold rate_limited_log, rate_record. cbn [snd].
  rewrite lookup_singleton_eq, bool_decide_eq_false_2 by done. change (default [] (Some [now])) with [now]. cbn [andb].
  rewrite filter_cons. by case_decide.
Qed.

(** The log and the accepted queries agree on the current window, and no window
    holds too many. *)
Record rate_inv (now : Z) (log : gmap bytes (list Z)) (acc : list (bytes * Z)) : Prop := {
  ri_log : log_ok log;
  ri_past : Forall (λ e, e.2 ≤ now) acc;
  ri_agree : ∀ src, recent now src log = (accepted_in src now acc).*2;
  ri_window : ∀ src t, len (accepted_in src t acc) ≤ MAX_INITS_PER_WINDOW }.

Lemma rate_inv_init now : rate_inv now ∅ [].
Proof. by split. Qed.

Lemma rate_inv_later now now' log acc : now ≤ now' → rate_inv now log acc → rate_inv now' log acc.
Proof.
  intros Hle [Hl Hp Ha Hw]. split; [done| | |done].
  { eapply Forall_impl; [done|]. cbn. intros. lia. }
  intros src. transitivity (filter (λ t, now' - INIT_RATE_WINDOW ≤ t) (recent now src log)).
  { unfold recent. rewrite list_filter_filter. apply list_filter_iff. intros t. lia. }
  rewrite Ha. clear -Hp Hle. unfold accepted_in. induction Hp as [|[s x] acc Hx _ IH]; [done|].
  cbn in Hx. rewrite !filter_cons. cbn [fst snd].
  destruct (decide (s = src)) as [->|]; [|by rewrite !decide_False by naive_solver].
  destruct (decide (now - INIT_RATE_WINDOW ≤ x));
    [rewrite (decide_True (P := _ ∧ now - _ ≤ x ∧ _)) by (split; [done|lia])
    |rewrite !decide_False by (intros [_ ?]; lia); done].
  cbn [fmap list_fmap snd]. rewrite filter_cons. destruct (decide (now' - INIT_RATE_WINDOW ≤ x));
    [rewrite decide_True by (split; [done|lia]); cbn; by rewrite IH
    |rewrite decide_False by (intros [_ ?]; lia); done].
Qed.

Lemma rate_step_inv ord now src log acc :
  0 ≤ now → rate_inv now log acc →
  let '(log', acc') := rate_step (log, acc) (ord, now, src) in rate_inv now log' acc'.
Proof.
  intros Hn [Hl Hp Ha Hw]. unfold rate_step.
  pose proof (rate_limited_log_spec ord now src log Hn Hl) as (Hl' & Hne & Heq & Hroom).
  destruct (rate_limited_log ord now src log) as [[] log']; cbn [fst snd] in *.
  { split; [done..| |done]. intros s. destruct (decide (s = src)) as [->|].
    - by rewrite Heq, app_nil_r. - by rewrite Hne. }
  assert (∀ s t, accepted_in s t (acc ++ [(src, now)]) = accepted_in s t acc
    ++ if decide (s = src ∧ now ≤ t ∧ t - INIT_RATE_WINDOW ≤ now) then [(src, now)] else []) as Happ.
  { intros. unfold accepted_in. rewrite filter_app. f_equal. rewrite filter_cons. cbn [fst snd].
    repeat case_decide; [done|naive_solver lia..|done]. }
  split; [done| | |].
  - by apply Forall_app; split; [|constructor].
  - intros s. rewrite Happ. case_decide as Hd.
    + destruct Hd as [-> _]. by rewrite Heq, fmap_app, Ha.
    + rewrite app_nil_r. rewrite Hne; [done|]. intros ->. apply Hd. unfold INIT_RATE_WINDOW. split; [done|lia].
  - intros s t. rewrite Happ. case_decide as Hd; [|by rewrite app_nil_r].
    destruct Hd as (-> & Ht & Ht'). rewrite len_app. change (len [(src, now)]) with 1.
    assert (len (accepted_in src t acc) ≤ len (recent now src log)); [|specialize (Hroom eq_refl); lia].
    rewrite Ha. unfold len. rewrite length_fmap. apply inj_le, submseteq_length.
    apply sublist_submseteq. clear -Hp Ht. unfold accepted_in.
    induction Hp as [|[s x] acc Hx _ IH]; [done|]. cbn in Hx. rewrite !filter_cons. cbn [fst snd].
    repeat case_decide; [by apply sublist_skip|naive_solver lia|by apply sublist_cons|done].
Qed.

Lemma rate_run_inv calls : ∀ now log acc,
  rate_inv now log acc → Forall (λ c, now ≤ c.1.2) calls →
  StronglySorted Z.le (map (λ c, c.1.2) calls) → Forall (λ c, 0 ≤ c.1.2) calls →
  let '(log', acc') := foldl rate_step (log, acc) calls in ∃ now', rate_inv now' log' acc'.
Proof.
  induction calls as [|[[ord t] src] calls IH]; intros now log acc Hi Hn Hs Hp; [by exists now|].
  apply Forall_cons in Hn as [Hn _]. apply Forall_cons in Hp as [H0 Hp]. cbn in Hn, H0, Hs.
  apply StronglySorted_inv in Hs as [Hs Hall]. cbn [foldl].
  pose proof (rate_step_inv ord t src log acc H0 (rate_inv_later _ _ _ _ Hn Hi)) as Hi'.
  destruct (rate_step (log, acc) (ord, t, src)) as [log' acc'].
  apply (IH t); [done| |done..]. exact (proj1 (Forall_map _ _ _) Hall).
Qed.
End RateLimit.

(** ** What the handlers do *)

Section Lemmas.
Context `{X25519} `{Hkdf} `{Aead} `{Ed25519} `{MlDsa} `{MlKem}.
Import SessionManager.
Implicit Types m : t.

(** What one handshake may do to the pins: a pin that is still held is the same,
    and the table stays bounded. *)
Record pins_step (pins pins' : gmap bytes bytes) : Prop := {
  pins_same : ∀ ed k k', pins !! ed = Some k → pins' !! ed = Some k' → k' = k;
  pins_bound : Z.of_nat (size pins) ≤ MAX_PQ_PINS → Z.of_nat (size pins') ≤ MAX_PQ_PINS }.

Lemma pins_step_refl pins : pins_step pins pins.
Proof. split; [congruence|done]. Qed.

Lemma pin_insert ord ed k pins :
  pins !! ed = None →
  let pins' := if MAX_PQ_PINS <=? Z.of_nat (size pins) then
                 match first_key ord pins with
                 | Some victim => delete victim pins | None => pins end
               else pins in
  pins_step pins (<[ed := k]> pins').
Proof.
  intros Hn. cbn zeta. match goal with |- context [<[ed := k]> ?x] => set (pins' := x) end.
  assert (∀ e, pins' !! e = pins !! e ∨ pins' !! e = None) as Hsub.
  { intros e. subst pins'. case_match; [|by left]. destruct (first_key ord pins) as [v|]; [|by left].
    destruct (decide (e = v)) as [->|]; [right; apply lookup_delete_eq|left; by apply lookup_delete_ne]. }
  split.
  - intros e k1 k2 He. destruct (decide (e = ed)) as [->|]; [congruence|].
    rewrite lookup_insert_ne by done. destruct (Hsub e) as [->| ->]; congruence.
  - intros Hsz. assert (pins' !! ed = None) as Hn' by (destruct (Hsub ed); congruence).
    rewrite size_insert_None by done. subst pins'.
    destruct (Z.leb_spec MAX_PQ_PINS (Z.of_nat (size pins))) as [Hle|]; [|lia].
    destruct (first_key ord pins) as [v|] eqn:Ev.
    + apply first_key_Some in Ev. rewrite size_delete_Some by done. lia.
    + apply first_key_None in Ev as ->. exfalso. clear -Hle. by vm_compute in Hle.
Qed.

Lemma pin_spec ord ed k signed sig m :
  let '(r, m') := pq_verify_and_pin ord ed k signed sig m in
  ∃ pins, m' = m <| pq_pins := pins |> ∧ pins_step (pq_pins m) pins ∧
    (r = Ok tt → (pq_pins m !! ed = None ∨ pq_pins m !! ed = Some k) ∧
                 dsa_verify k signed sig = true ∧ pins !! ed = Some k).
Proof.
  unfold pq_verify_and_pin, get, put, fail, mret, st_ret, mbind, st_bind. cbn beta iota.
  assert (m = m <| pq_pins := pq_pins m |>) as Hid by by destruct m.
  destruct (pq_pins m !! ed) as [k0|] eqn:Ep; cbn; [case_bool_decide; subst; cbn|];
    destruct (dsa_verify k signed sig); cbn;
    try (exists (pq_pins m); split_and!; [done|apply pins_step_refl|naive_solver]).
  eexists. split; [done|]. split; [by apply pin_insert|]. rewrite lookup_insert_eq. auto.
Qed.

(** The pin check passes for a key that is pinned already or not at all. *)
Lemma pin_ok ord ed k signed sig m :
  (pq_pins m !! ed = None ∨ pq_pins m !! ed = Some k) → dsa_verify k signed sig = true →
  ∃ pins, pq_verify_and_pin ord ed k signed sig m = (Ok tt, m <| pq_pins := pins |>) ∧
    pins !! ed = Some k.
Proof.
  intros Hp Hd. pose proof (pin_spec ord ed k signed sig m) as Hs.
  assert ((pq_verify_and_pin ord ed k signed sig m).1 = Ok tt) as E.
  { unfold pq_verify_and_pin, get, put, fail, mret, st_ret, mbind, st_bind. cbn beta iota.
    rewrite Hd. destruct Hp as [->| ->]; [done|]. by rewrite bool_decide_eq_true_2. }
  destruct (pq_verify_and_pin _ _ _ _ _ _) as [r m']. cbn in E. subst r.
  destruct Hs as (pins & -> & _ & Hs). exists pins. split; [done|]. by apply Hs.
Qed.

(** The session an accepted Init leaves. *)
Definition init_session (now : Z) (our_pub new_priv : bytes) (init : SessionInit.t) (ss : bytes)
    (o : option SessionInfo) : SessionInfo :=
  match o with
  | Some e =>
      install (SessionInit.x25519_pub init)
        (if negb (has_pq_shared e) || bytes_ltb (SessionInit.ed_pub init) our_pub
         then Some (ss, None) else None) e
  | None =>
      (SessionInfo_new now (SessionInit.ed_pub init) new_priv (SessionInit.x25519_pub init))
        <| established := true |> <| pq_shared := Some ss |>
  end.

Definition ack_session (our_pub : bytes) (ack : SessionAck.t) (ss : bytes) (fb : option bytes)
    (info : SessionInfo) : SessionInfo :=
  install (SessionAck.x25519_pub ack)
    (if negb (has_pq_shared info) || bytes_ltb our_pub (SessionAck.ed_pub ack)
     then Some (ss, fb) else None) info.

(** An Init this manager accepts. *)
Record good_init (oc : bool) (wall : Z) (data : bytes) (m : t) (init : SessionInit.t) : Prop := {
  gi_decode : SessionInit.decode data = Ok init;
  gi_verify : SessionInit.verify oc wall init (ed_public (our_signing_key m)) = Ok tt;
  gi_pin : pq_pins m !! SessionInit.ed_pub init = None ∨
           pq_pins m !! SessionInit.ed_pub init = Some (SessionInit.ml_dsa_pub init);
  gi_dsa : dsa_verify (SessionInit.ml_dsa_pub init) (SessionInit.signed_bytes init)
             (SessionInit.ml_dsa_sig init) = true }.

Record good_ack (oc : bool) (wall : Z) (data : bytes) (m : t) (ack : SessionAck.t) : Prop := {
  ga_decode : SessionAck.decode data = Ok ack;
  ga_verify : SessionAck.verify oc wall ack (ed_public (our_signing_key m)) = Ok tt;
  ga_pin : pq_pins m !! SessionAck.ed_pub ack = None ∨
           pq_pins m !! SessionAck.ed_pub ack = Some (SessionAck.ml_dsa_pub ack);
  ga_dsa : dsa_verify (SessionAck.ml_dsa_pub ack) (SessionAck.signed_bytes ack)
             (SessionAck.ml_dsa_sig ack) = true }.

Lemma set_id m :
  m = m <| init_rate_log := init_rate_log m |> <| pq_pins := pq_pins m |> <| sessions := sessions m |>.
Proof. by destruct m. Qed.

(** Whatever the outcome, [handle_init] only touches the rate log, the pins and
    the sender's session, and the session only when the Init is good. *)
Lemma handle_init_spec oc ord now wall r p data m :
  let '(res, m') := handle_init oc ord now wall r p data m in
  ∃ log pins sess,
    m' = m <| init_rate_log := log |> <| pq_pins := pins |> <| sessions := sess |> ∧
    pins_step (pq_pins m) pins ∧
    (log = init_rate_log m ∨ ∃ ed, log = (rate_limited_log ord now ed (init_rate_log m)).2) ∧
    match res with
    | Ok out => ∃ init ct ss,
        good_init oc wall data m init ∧ pq_encapsulate r (SessionInit.ml_kem_pub init) = Ok (ct, ss) ∧
        pins !! SessionInit.ed_pub init = Some (SessionInit.ml_dsa_pub init) ∧
        let s := init_session now (ed_public (our_signing_key m)) p init ss
                   (sessions m !! SessionInit.ed_pub init) in
        sess = <[SessionInit.ed_pub init := s]> (sessions m) ∧
        log = (rate_limited_log ord now (SessionInit.ed_pub init) (init_rate_log m)).2 ∧
        out = SessionAck.encode (SessionAck.create wall (our_signing_key m)
          (x25519_base (local_x25519_priv s)) (SessionInit.ed_pub init) ct (own_coord m) (pq_signer m))
    | _ => sess = sessions m
    end.
Proof.
  unfold handle_init, rate_limited, mbind, st_bind, lift, get, put, mret, st_ret. cbn beta iota.
  destruct (SessionInit.decode data) as [init| |] eqn:Edec;
    [|do 3 eexists; split; [apply set_id|]; by auto using pins_step_refl..].
  destruct (rate_limited_log _ _ _ _) as [lim log] eqn:El.
  assert (log = init_rate_log m ∨ ∃ ed, log = (rate_limited_log ord now ed (init_rate_log m)).2) as Hlog
    by (right; eexists; by rewrite El).
  assert (∃ log0 pins sess, m <| init_rate_log := log |>
      = m <| init_rate_log := log0 |> <| pq_pins := pins |> <| sessions := sess |> ∧
    pins_step (pq_pins m) pins ∧ 
    (log0 = init_rate_log m ∨ ∃ ed, log0 = (rate_limited_log ord now ed (init_rate_log m)).2) ∧
    sess = sessions m) as Hrej.
  { exists log, (pq_pins m), (sessions m). by auto using pins_step_refl. }
  destruct lim; [exact Hrej|].
  change (our_signing_key (m <| init_rate_log := log |>)) with (our_signing_key m).
  destruct (SessionInit.verify oc wall init _) as [[]| |] eqn:Ev; [|exact Hrej..].
  pose proof (pin_spec ord (SessionInit.ed_pub init) (SessionInit.ml_dsa_pub init)
    (SessionInit.signed_bytes init) (SessionInit.ml_dsa_sig init) (m <| init_rate_log := log |>)) as Hpin.
  destruct (pq_verify_and_pin _ _ _ _ _ _) as [[[]| |] m1]; destruct Hpin as (pins & -> & Hst & Hpin);
    [|exists log, pins, (sessions m); by auto..].
  destruct (Hpin eq_refl) as (Hp & Hd & Hp'). 
  assert (good_init oc wall data m init) as Hg by by split.
  destruct (pq_encapsulate r _) as [[ct ss]| |] eqn:Ek; [|exists log, pins, (sessions m); by auto..].
  change (sessions (m <| init_rate_log := log |> <| pq_pins := pins |>)) with (sessions m).
  destruct (sessions m !! SessionInit.ed_pub init) as [e|] eqn:Ee;
    exists log, pins; eexists; (split_and!; [reflexivity|done|done|exists init, ct, ss; by rewrite Ee, El]).
Qed.

Lemma handle_init_ok oc ord now wall r p data m init ct ss :
  good_init oc wall data m init →
  (rate_limited_log ord now (SessionInit.ed_pub init) (init_rate_log m)).1 = false →
  pq_encapsulate r (SessionInit.ml_kem_pub init) = Ok (ct, ss) →
  is_ok (handle_init oc ord now wall r p data m).1.
Proof.
  intros [Hd Hv Hp Hs] Hl Hk.
  unfold handle_init, rate_limited, mbind, st_bind, lift, get, put, mret, st_ret. cbn beta iota.
  rewrite Hd. destruct (rate_limited_log _ _ _ _) as [lim log]. cbn in Hl. subst lim.
  change (our_signing_key (m <| init_rate_log := log |>)) with (our_signing_key m). rewrite Hv.
  destruct (pin_ok ord (SessionInit.ed_pub init) (SessionInit.ml_dsa_pub init)
    (SessionInit.signed_bytes init) (SessionInit.ml_dsa_sig init) (m <| init_rate_log := log |>))
    as (pins & -> & _); [done..|].
  rewrite Hk. by case_match.
Qed.

(** [handle_ack] only touches the pins and the sender's session, and the session
    only when the Ack is good and was solicited. *)
Lemma handle_ack_spec oc ord wall data m :
  let '(res, m') := handle_ack oc ord wall data m in
  ∃ pins sess,
    m' = m <| pq_pins := pins |> <| sessions := sess |> ∧ pins_step (pq_pins m) pins ∧
    match res with
    | Ok _ => ∃ ack info ss,
        good_ack oc wall data m ack ∧ PqKeys.decap (pq_keys m) (SessionAck.ml_kem_ct ack) = Ok ss ∧
        pins !! SessionAck.ed_pub ack = Some (SessionAck.ml_dsa_pub ack) ∧
        sessions m !! SessionAck.ed_pub ack = Some info ∧
        sess = <[SessionAck.ed_pub ack := ack_session (ed_public (our_signing_key m)) ack ss
                  (PqKeys.decap_prev (pq_keys m) (SessionAck.ml_kem_ct ack)) info]> (sessions m)
    | _ => sess = sessions m
    end.
Proof.
  unfold handle_ack, mbind, st_bind, lift, get, put, fail. cbn beta iota.
  assert (∃ pins sess, m = m <| pq_pins := pins |> <| sessions := sess |> ∧
    pins_step (pq_pins m) pins ∧ sess = sessions m) as Hrej.
  { exists (pq_pins m), (sessions m). split; [by destruct m|]. auto using pins_step_refl. }
  destruct (SessionAck.decode data) as [ack| |] eqn:Edec; [|exact Hrej..].
  destruct (SessionAck.verify oc wall ack _) as [[]| |] eqn:Ev; [|exact Hrej..].
  pose proof (pin_spec ord (SessionAck.ed_pub ack) (SessionAck.ml_dsa_pub ack)
    (SessionAck.signed_bytes ack) (SessionAck.ml_dsa_sig ack) m) as Hpin.
  destruct (pq_verify_and_pin _ _ _ _ _ _) as [[[]| |] m1]; destruct Hpin as (pins & -> & Hst & Hpin);
    [|exists pins, (sessions m); by auto..].
  destruct (Hpin eq_refl) as (Hp & Hd & Hp').
  assert (good_ack oc wall data m ack) as Hg by by split.
  destruct (PqKeys.decap _ _) as [ss| |] eqn:Ek; [|exists pins, (sessions m); by auto..].
  change (sessions (m <| pq_pins := pins |>)) with (sessions m).
  destruct (sessions m !! SessionAck.ed_pub ack) as [info|] eqn:Ee;
    [|exists pins, (sessions m); by auto].
  exists pins. eexists. split; [reflexivity|]. split; [done|]. by exists ack, info, ss.
Qed.

Lemma handle_ack_ok oc ord wall data m ack ss :
  good_ack oc wall data m ack → PqKeys.decap (pq_keys m) (SessionAck.ml_kem_ct ack) = Ok ss →
  is_Some (sessions m !! SessionAck.ed_pub ack) →
  is_ok (handle_ack oc ord wall data m).1.
Proof.
  intros [Hd Hv Hp Hs] Hk [info Hi]. unfold handle_ack, mbind, st_bind, lift, get, put.
  cbn beta iota. rewrite Hd, Hv.
  destruct (pin_ok ord (SessionAck.ed_pub ack) (SessionAck.ml_dsa_pub ack)
    (SessionAck.signed_bytes ack) (SessionAck.ml_dsa_sig ack) m) as (pins & -> & _); [done..|].
  rewrite Hk. change (sessions (m <| pq_pins := pins |>)) with (sessions m). by rewrite Hi.
Qed.

(** ** The invariant of the table *)

(** Sessions are filed under their peer, the published key is that of the
    private key, and an established session has a post-quantum secret. *)
Definition session_ok (ed : bytes) (s : SessionInfo) : Prop :=
  remote_ed_pub s = ed ∧ local_x25519_pub s = x25519_base (local_x25519_priv s) ∧
  (established s = true → is_Some (pq_shared s)).

Record wf (m : t) : Prop := {
  wf_sessions : map_Forall session_ok (sessions m);
  wf_log : log_ok (init_rate_log m);
  wf_pins : Z.of_nat (size (pq_pins m)) ≤ MAX_PQ_PINS;
  wf_ek : PqKeys.ek_bytes (pq_keys m) = kem_ek (PqKeys.dk (pq_keys m)) }.

(** What packet encryption and decryption keep of a session. *)
Definition kept (s s' : SessionInfo) : Prop :=
  remote_ed_pub s' = remote_ed_pub s ∧ local_x25519_priv s' = local_x25519_priv s ∧
  local_x25519_pub s' = local_x25519_pub s ∧ established s' = established s ∧
  (is_Some (pq_shared s) → is_Some (pq_shared s')).

Lemma encrypt_kept oc now pt s : kept s (Session.encrypt oc now pt s).2.
Proof.
  unfold Session.encrypt, get, mbind, st_bind. cbn beta iota.
  destruct (dh_shared_frame (remote_x25519_pub s) s) as (k & c & ->). unfold lift, modify.
  repeat case_match; simplify_eq; done.
Qed.

Lemma decrypt_kept now ct s : kept s (Session.decrypt now ct s).2.
Proof.
  unfold Session.decrypt. case_match; [done|]. unfold lift, get, mbind, st_bind.
  destruct (slice ct 0 32) as [p| |]; [|done..]. destruct (slice ct 32 40); [|done..].
  cbn beta iota. destruct (dh_shared_frame p s) as (k & c & ->).
  destruct (window_check _ _ _); [|done..]. destruct (slice_from ct 40); [|done..].
  unfold open_hybrid, get, put, mret, st_ret, mbind, st_bind, fail, modify.
  repeat case_match; simplify_eq; cbn; repeat case_match; done.
Qed.

Lemma kept_ok ed s s' : kept s s' → session_ok ed s → session_ok ed s'.
Proof.
  intros (E1 & E2 & E3 & E4 & E5) (H1' & H2' & H3'). unfold session_ok.
  rewrite E1, E2, E3, E4. auto.
Qed.

Lemma with_session_spec {A} ed (op : st SessionInfo A) m :
  let '(r, m') := with_session ed op m in
  m' = m ∨ ∃ s, sessions m !! ed = Some s ∧ established s = true ∧ r = (op s).1 ∧
    m' = m <| sessions := <[ed := (op s).2]> (sessions m) |>.
Proof.
  unfold with_session, get, put, lift, fail, mbind, st_bind. cbn beta iota.
  destruct (sessions m !! ed) as [s|]; cbn [ok_or]; [|by left].
  destruct (established s) eqn:E; cbn [negb]; [|by left].
  destruct (op s) as [r s']  eqn:Eo. right. exists s. by rewrite Eo.
Qed.

Lemma with_session_run {A} ed (op : st SessionInfo A) m s :
  sessions m !! ed = Some s → established s = true →
  with_session ed op m = ((op s).1, m <| sessions := <[ed := (op s).2]> (sessions m) |>).
Proof.
  intros Hs He. unfold with_session, get, put, lift, mbind, st_bind. cbn beta iota.
  rewrite Hs. cbn [ok_or]. rewrite He. cbn [negb]. by destruct (op s).
Qed.

Lemma with_session_sessions {A} ed (op : st SessionInfo A) m :
  (∀ s, kept s (op s).2) →
  ∃ sess, (with_session ed op m).2 = m <| sessions := sess |> ∧
    (sess = sessions m ∨ ∃ s s', sessions m !! ed = Some s ∧ kept s s' ∧ sess = <[ed := s']> (sessions m)).
Proof.
  intros Hk. pose proof (with_session_spec ed op m) as Hs. destruct (with_session ed op m) as [r m'].
  destruct Hs as [->|(s & Hs & _ & _ & ->)]; eexists; (split; [|by eauto 10]); [by destruct m|done].
Qed.

Lemma install_ok ed x adopt s :
  (adopt = None → is_Some (pq_shared s)) → session_ok ed s → session_ok ed (install x adopt s).
Proof.
  intros Ha (? & ? & ?). destruct adopt as [[??]|]; (split_and!; cbn; [done..|]); eauto.
Qed.

Lemma init_session_ok now our p init ss o :
  (∀ s, o = Some s → session_ok (SessionInit.ed_pub init) s) →
  session_ok (SessionInit.ed_pub init) (init_session now our p init ss o).
Proof.
  intros Ho. destruct o as [s|]; cbn; [|by split_and!].
  apply install_ok; [|by apply Ho]. unfold has_pq_shared. case_bool_decide; [done|].
  by case_match.
Qed.

Lemma ack_session_ok our ack ss fb s :
  session_ok (SessionAck.ed_pub ack) s → session_ok (SessionAck.ed_pub ack) (ack_session our ack ss fb s).
Proof.
  intros Ho. apply install_ok; [|done]. unfold has_pq_shared. case_bool_decide; [done|]. by case_match.
Qed.

(** What a retransmission pass does to one session, and the Init it sends. *)
Definition bump (now : Z) (info : SessionInfo) : SessionInfo :=
  if retx_due now info then
    info <| last_init_sent := now |>
         <| init_retx_count := Z.min (2 ^ 32 - 1) (init_retx_count info + 1) |>
  else info.

Definition resent (wall : Z) (m : t) (e : bytes * SessionInfo) : bytes * bytes :=
  (e.1, SessionInit.encode (SessionInit.create wall (our_signing_key m) (local_x25519_pub e.2) e.1
          (PqKeys.pub_bytes (pq_keys m)) (own_coord m) (pq_signer m))).

Lemma retx_step_spec now wall out m ed info :
  sessions m !! ed = Some info →
  ∃ m', retx_step now wall (out, m) (ed, info)
      = (out ++ (if retx_due now info then [resent wall m (ed, info)] else []), m') ∧
    m' = m <| sessions := <[ed := bump now info]> (sessions m) |>.
Proof.
  intros Hed. unfold retx_step, bump. case_match; eexists; [by split|].
  rewrite app_nil_r, insert_id by done. split; [done|]. by destruct m.
Qed.

Lemma retx_fold_spec now wall l : ∀ out m,
  NoDup l.*1 → (∀ e, e ∈ l → sessions m !! e.1 = Some e.2) →
  ∃ sess, foldl (retx_step now wall) (out, m) l
      = (out ++ map (resent wall m) (filter (λ e, retx_due now e.2 = true) l),
         m <| sessions := sess |>) ∧
    ∀ ed, sess !! ed = (if decide (ed ∈ l.*1) then bump now else id) <$> sessions m !! ed.
Proof.
  induction l as [|[ed info] l IH]; intros out m Hnd Hin.
  { exists (sessions m). split; [rewrite app_nil_r; by destruct m|].
    intros ed. by rewrite option_fmap_id. }
  apply NoDup_cons in Hnd as [Hni Hnd]. cbn [fmap list_fmap fst] in *.
  pose proof (Hin _ (list_elem_of_here _ _)) as Hed. cbn in Hed. cbn [foldl].
  destruct (retx_step_spec now wall out m ed info Hed) as (m1 & -> & Em1).
  destruct (IH (out ++ (if retx_due now info then [resent wall m (ed, info)] else [])) m1 Hnd)
    as (sess & -> & Hl).
  { intros e He. subst m1. cbn. rewrite lookup_insert_ne; [by apply Hin; right|].
    intros ->. apply Hni. by apply list_elem_of_fmap_2. }
  subst m1. exists sess. split.
  - f_equal. rewrite filter_cons, <- app_assoc. f_equal. cbn. by destruct (retx_due now info).
  - intros e. rewrite Hl. cbn. destruct (decide (e = ed)) as [->|].
    + rewrite lookup_insert_eq, decide_False, decide_True by (done || by left). by rewrite Hed.
    + rewrite lookup_insert_ne by done. f_equal.
      destruct (decide (e ∈ l.*1)); [by rewrite decide_True by by right|].
      by rewrite decide_False by by intros [|]%elem_of_cons.
Qed.

(** A retransmission pass: every due session is bumped, and its Init is sent
    again with the key stored for it. *)
Lemma pending_spec ord now wall m :
  pending_handshake_inits ord now wall m
  = (map (resent wall m) (filter (λ e, retx_due now e.2 = true) (map_iter ord (sessions m))),
     m <| sessions := bump now <$> sessions m |>).
Proof.
  destruct (retx_fold_spec now wall (map_iter ord (sessions m)) [] m) as (sess & E & Hl).
  { apply NoDup_map_iter. }
  { intros [ed info] He. by apply (elem_of_map_iter ord). }
  unfold pending_handshake_inits. rewrite E. cbn [app]. do 2 f_equal. apply map_eq. intros ed.
  rewrite Hl, lookup_fmap. destruct (sessions m !! ed) as [s|] eqn:Es; [|done].
  rewrite decide_True; [done|]. apply list_elem_of_fmap. exists (ed, s). split; [done|].
  by apply elem_of_map_iter.
Qed.

(** Instants are not negative. *)
Definition event_ok (e : event) : Prop :=
  match e with Init _ _ now _ _ _ _ => 0 ≤ now | _ => True end.

Lemma wf_set_sessions m sess :
  wf m → map_Forall session_ok sess → wf (m <| sessions := sess |>).
Proof. intros [??? ?] ?. by split. Qed.

Lemma sessions_with (ed : bytes) m (sess : gmap bytes SessionInfo) :
  map_Forall session_ok (sessions m) →
  (sess = sessions m ∨ ∃ s s', sessions m !! ed = Some s ∧ kept s s' ∧ sess = <[ed := s']> (sessions m)) →
  map_Forall session_ok sess.
Proof.
  intros Hm [->|(s & s' & Hs & Hk & ->)]; [done|]. apply map_Forall_insert_2; [|done].
  eapply kept_ok; [done|]. by apply Hm.
Qed.

Lemma run_event_wf e m : event_ok e → wf m → wf (run_event e m).
Proof.
  intros He Hw. destruct (Hw) as [Hs Hl Hp Hk].
  destruct e as [oc ord now wall r p data|oc ord wall data|now wall p ed|now wall p ed|oc now ed pt
    |now ed ct|ed|ord now wall|acc now dk|p|now|c|s]; cbn [run_event]; cbn [event_ok] in He.
  - pose proof (handle_init_spec oc ord now wall r p data m) as Hi.
    destruct (handle_init _ _ _ _ _ _ _ _) as [res m'].
    destruct Hi as (log & pins & sess & -> & [_ Hb] & Hlog & Hres). split; cbn; [| |by apply Hb|done].
    + destruct res as [out| |]; [|by subst..]. destruct Hres as (init & ct & ss & _ & _ & _ & -> & _ & _).
      apply map_Forall_insert_2; [|done]. apply init_session_ok. intros s Es. by apply Hs.
    + destruct Hlog as [->|[ed ->]]; [done|]. by apply rate_limited_log_spec.
  - pose proof (handle_ack_spec oc ord wall data m) as Hi.
    destruct (handle_ack _ _ _ _ _) as [res m'].
    destruct Hi as (pins & sess & -> & [_ Hb] & Hres). split; cbn; [|done|by apply Hb|done].
    destruct res as [[]| |]; [|by subst..]. destruct Hres as (ack & info & ss & _ & _ & _ & Hi & ->).
    apply map_Forall_insert_2; [|done]. apply ack_session_ok. by apply Hs.
  - apply wf_set_sessions; [done|]. by apply map_Forall_insert_2.
  - unfold get_or_initiate_bytes. case_match; [done|].
    apply wf_set_sessions; [done|]. by apply map_Forall_insert_2.
  - destruct (with_session_sessions ed _ m (encrypt_kept oc now pt)) as (sess & E & Hsess).
    unfold encrypt. rewrite E. apply wf_set_sessions; [done|]. by eapply sessions_with.
  - destruct (with_session_sessions ed _ m (decrypt_kept now ct)) as (sess & E & Hsess).
    unfold decrypt. rewrite E. apply wf_set_sessions; [done|]. by eapply sessions_with.
  - apply wf_set_sessions; [done|]. by apply map_Forall_delete.
  - rewrite pending_spec. apply wf_set_sessions; [done|].
    apply map_Forall_fmap. eapply map_Forall_impl; [done|]. intros ed s Hok. cbn. unfold bump. by case_match.
  - unfold maybe_rotate_pq_keys, PqKeys.rotate_if_due. split; [by repeat case_match..|].
    repeat case_match; simplify_eq; done.
  - apply wf_set_sessions; [done|]. intros ed s Hi. rewrite map_lookup_imap in Hi.
    apply bind_Some in Hi as (s0 & Hs0 & [= <-]). pose proof (Hs _ _ Hs0) as (? & ? & ?). by case_match.
  - apply wf_set_sessions; [done|]. intros ed s [Hi _]%map_lookup_filter_Some.
    by apply Hs.
  - by split.
  - by split.
Qed.

(** An event that lets [ed] in: a handshake message for us, signed by [ed] within
    the time window, whose post-quantum key has a valid signature and does not
    contradict the pinned one; an Ack counts only for a session that exists. *)
Definition authenticated (e : event) (m : t) (ed : bytes) : Prop :=
  match e with
  | Init oc _ _ wall _ _ data => ∃ init d,
      SessionInit.decode data = Ok init ∧ SessionInit.ed_pub init = ed ∧
      SessionInit.recipient_ed_pub init = ed_public (our_signing_key m) ∧
      skew oc wall (SessionInit.timestamp_ms init) = Ok d ∧ d ≤ HANDSHAKE_TIME_WINDOW_MS ∧
      ed_verify ed (SessionInit.signed_bytes init) (SessionInit.signature init) = true ∧
      dsa_verify (SessionInit.ml_dsa_pub init) (SessionInit.signed_bytes init)
        (SessionInit.ml_dsa_sig init) = true ∧
      (∀ k, pq_pins m !! ed = Some k → k = SessionInit.ml_dsa_pub init)
  | Ack oc _ wall data => ∃ ack d,
      SessionAck.decode data = Ok ack ∧ SessionAck.ed_pub ack = ed ∧
      SessionAck.recipient_ed_pub ack = ed_public (our_signing_key m) ∧
      skew oc wall (SessionAck.timestamp_ms ack) = Ok d ∧ d ≤ HANDSHAKE_TIME_WINDOW_MS ∧
      ed_verify ed (SessionAck.signed_bytes ack) (SessionAck.signature ack) = true ∧
      dsa_verify (SessionAck.ml_dsa_pub ack) (SessionAck.signed_bytes ack)
        (SessionAck.ml_dsa_sig ack) = true ∧
      (∀ k, pq_pins m !! ed = Some k → k = SessionAck.ml_dsa_pub ack) ∧
      is_Some (sessions m !! ed)
  | _ => False
  end.

Lemma is_established_insert ed ed' s m :
  is_established ed (m <| sessions := <[ed' := s]> (sessions m) |>)
  = if decide (ed = ed') then established s else is_established ed m.
Proof.
  unfold is_established. cbn. case_decide as E; [subst; by rewrite lookup_insert_eq|].
  by rewrite lookup_insert_ne.
Qed.

Lemma with_session_established {A} ed ed' (op : st SessionInfo A) m :
  (∀ s, kept s (op s).2) →
  is_established ed (with_session ed' op m).2 = true → is_established ed m = true.
Proof.
  intros Hk. pose proof (with_session_spec ed' op m) as Hs. destruct (with_session ed' op m) as [r m'].
  destruct Hs as [->|(s & Hs & Es & _ & ->)]; [done|]. cbn [snd]. rewrite is_established_insert.
  case_decide; [|done]. subst. intros _. unfold is_established. by rewrite Hs.
Qed.

Lemma init_authenticated oc ord now wall r p data m ed :
  is_established ed (handle_init oc ord now wall r p data m).2 = true →
  is_established ed m = true ∨ authenticated (Init oc ord now wall r p data) m ed.
Proof.
  pose proof (handle_init_spec oc ord now wall r p data m) as Hi.
  destruct (handle_init _ _ _ _ _ _ _ _) as [res m'].
  destruct Hi as (log & pins & sess & -> & _ & _ & Hres).
  destruct res as [out| |]; [|by subst; left..].
  destruct Hres as (init & ct & ss & [Hd Hv Hp Hs] & _ & _ & -> & _).
  unfold is_established. cbn. destruct (decide (ed = SessionInit.ed_pub init)) as [->|];
    [|rewrite lookup_insert_ne by done; by left].
  intros _. right. apply init_verify_inv in Hv as (? & (d & ? & ?) & ?).
  exists init, d. split_and!; try done. intros k. destruct Hp; naive_solver.
Qed.

Lemma ack_authenticated oc ord wall data m ed :
  is_established ed (handle_ack oc ord wall data m).2 = true →
  is_established ed m = true ∨ authenticated (Ack oc ord wall data) m ed.
Proof.
  pose proof (handle_ack_spec oc ord wall data m) as Hi.
  destruct (handle_ack _ _ _ _ _) as [res m'].
  destruct Hi as (pins & sess & -> & _ & Hres).
  destruct res as [out| |]; [|by subst; left..].
  destruct Hres as (ack & info & ss & [Hd Hv Hp Hs] & _ & _ & Hi & ->).
  unfold is_established. cbn. destruct (decide (ed = SessionAck.ed_pub ack)) as [->|];
    [|rewrite lookup_insert_ne by done; by left].
  intros _. right. apply ack_verify_inv in Hv as (? & (d & ? & ?) & ?).
  exists ack, d. split_and!; try done. intros k. destruct Hp; naive_solver.
Qed.

Lemma run_event_pins e m ed k k' :
  pq_pins m !! ed = Some k → pq_pins (run_event e m) !! ed = Some k' → k' = k.
Proof.
  intros Hk. destruct e as [oc ord now wall r p data|oc ord wall data|now wall p ed'|now wall p ed'|oc now ed' pt
    |now ed' ct|ed'|ord now wall|acc now dk|p|now|c|s]; cbn [run_event].
  - pose proof (handle_init_spec oc ord now wall r p data m) as Hs.
    destruct (handle_init _ _ _ _ _ _ _ _) as [res m']. destruct Hs as (log & pins & sess & -> & [Hp _] & _).
    by apply Hp.
  - pose proof (handle_ack_spec oc ord wall data m) as Hs.
    destruct (handle_ack _ _ _ _ _) as [res m']. destruct Hs as (pins & sess & -> & [Hp _] & _). by apply Hp.
  - cbn. congruence.
  - unfold get_or_initiate_bytes. case_match; cbn; congruence.
  - destruct (with_session_sessions ed' _ m (encrypt_kept oc now pt)) as (sess & E & _).
    unfold encrypt. rewrite E. cbn. congruence.
  - destruct (with_session_sessions ed' _ m (decrypt_kept now ct)) as (sess & E & _).
    unfold decrypt. rewrite E. cbn. congruence.
  - cbn. congruence.
  - rewrite pending_spec. cbn. congruence.
  - unfold maybe_rotate_pq_keys. case_match. cbn. congruence.
  - cbn. congruence.
  - cbn. congruence.
  - cbn. congruence.
  - cbn. congruence.
Qed.

Lemma run_event_authenticated e m ed :
  is_established ed (run_event e m) = true →
  is_established ed m = true ∨ authenticated e m ed.
Proof.
  destruct e as [oc ord now wall r p data|oc ord wall data|now wall p ed'|now wall p ed'|oc now ed' pt
    |now ed' ct|ed'|ord now wall|acc now dk|p|now|c|s]; cbn [run_event];
    [apply init_authenticated|apply ack_authenticated|intros He; left..]; revert He.
  - unfold initiate. cbn [snd]. rewrite is_established_insert. by case_decide.
  - unfold get_or_initiate_bytes, initiate. case_match; [done|].
    cbn [snd]. rewrite is_established_insert. by case_decide.
  - apply with_session_established, encrypt_kept.
  - apply with_session_established, decrypt_kept.
  - unfold is_established. cbn. destruct (decide (ed = ed')) as [->|].
    + by rewrite lookup_delete_eq.
    + by rewrite lookup_delete_ne.
  - rewrite pending_spec. unfold is_established. cbn. rewrite lookup_fmap.
    destruct (sessions m !! ed) as [s|]; [|done]. cbn. unfold bump. by case_match.
  - unfold maybe_rotate_pq_keys. by case_match.
  - unfold is_established. cbn. rewrite map_lookup_imap. destruct (sessions m !! ed) as [s|]; [|done].
    cbn. by case_match.
  - unfold is_established. cbn. rewrite map_lookup_filter.
    destruct (sessions m !! ed) as [s|]; [|done]. cbn. by case_guard.
  - done.
  - done.
Qed.
End Lemmas.

(** ** Two managers that handshake *)

Section Handshake.
Context `{X25519Laws} `{Hkdf} `{Aead} `{Ed25519Laws} `{MlDsaLaws} `{MlKemLaws}.
Import SessionManager.
Implicit Types m : t.

(** Who a manager is. *)
Record ident := { id_sk : bytes; id_seed : bytes; id_keys : PqKeys.t; id_coord : bytes }.
Definition id_ed (i : ident) : bytes := ed_public (id_sk i).
Record ident_ok (i : ident) : Prop := {
  io_ek : PqKeys.ek_bytes (id_keys i) = kem_ek (PqKeys.dk (id_keys i));
  io_coord : len (id_coord i) = 16 }.

(** Manager [m] is that of [me] and has no pin that contradicts [peer]'s key. *)
Record owner (m : t) (me peer : ident) : Prop := {
  ow_sk : our_signing_key m = id_sk me;
  ow_seed : pq_signer m = id_seed me;
  ow_keys : pq_keys m = id_keys me;
  ow_coord : own_coord m = id_coord me;
  ow_pin : pq_pins m !! id_ed peer = None ∨ pq_pins m !! id_ed peer = Some (dsa_pub (id_seed peer)) }.

(** ... and has session [s] with [peer]. *)
Record endpoint (m : t) (me peer : ident) (s : SessionInfo) : Prop := {
  ep_owner : owner m me peer;
  ep_session : sessions m !! id_ed peer = Some s }.

Definition init_of (wall : Z) (i peer : ident) (priv : bytes) : SessionInit.t :=
  SessionInit.create wall (id_sk i) (x25519_base priv) (id_ed peer)
    (PqKeys.pub_bytes (id_keys i)) (id_coord i) (id_seed i).
Definition ack_of (wall : Z) (i peer : ident) (priv ct : bytes) : SessionAck.t :=
  SessionAck.create wall (id_sk i) (x25519_base priv) (id_ed peer) ct (id_coord i) (id_seed i).

(** Two clock readings that a handshake tolerates. *)
Definition close_clocks (w w' : Z) : Prop :=
  0 ≤ w < 2 ^ 63 ∧ 0 ≤ w' < 2 ^ 63 ∧ Z.abs (w' - w) ≤ HANDSHAKE_TIME_WINDOW_MS.

Lemma init_of_good oc w w' m me peer priv :
  owner m me peer → ident_ok peer → close_clocks w w' →
  good_init oc w' (SessionInit.encode (init_of w peer me priv)) m (init_of w peer me priv).
Proof.
  intros [E1 E2 E3 E4 E6] [Hek Hc] (Hw & Hw' & Hd). split.
  - apply init_decode_encode, init_create_ok; [lia|apply x25519_base_len|apply ed_public_len| |done].
    unfold PqKeys.pub_bytes. rewrite Hek. apply kem_ek_len.
  - rewrite E1. by apply init_create_verify.
  - exact E6.
  - apply dsa_sign_verify.
Qed.

Lemma ack_of_good oc w w' m me peer priv ct :
  owner m me peer → ident_ok peer → close_clocks w w' → len ct = ML_KEM_CT_BYTES →
  good_ack oc w' (SessionAck.encode (ack_of w peer me priv ct)) m (ack_of w peer me priv ct).
Proof.
  intros [E1 E2 E3 E4 E6] [Hek Hc] (Hw & Hw' & Hd) Hct. split.
  - by apply ack_decode_encode, ack_create_ok; [lia|apply x25519_base_len|apply ed_public_len|..].
  - rewrite E1. by apply ack_create_verify.
  - exact E6.
  - apply dsa_sign_verify.
Qed.

(** [me] handles the Init of [peer]. *)
Lemma endpoint_init oc ord now w w' r p m me peer s priv :
  endpoint m me peer s → ident_ok peer → close_clocks w w' →
  (rate_limited_log ord now (id_ed peer) (init_rate_log m)).1 = false →
  let '(ct, ss) := kem_encap (kem_ek (PqKeys.dk (id_keys peer))) r in
  ∃ m', handle_init oc ord now w' r p (SessionInit.encode (init_of w peer me priv)) m
      = (Ok (SessionAck.encode (ack_of w' me peer (local_x25519_priv s) ct)), m') ∧
    endpoint m' me peer (install (x25519_base priv)
      (if negb (has_pq_shared s) || bytes_ltb (id_ed peer) (id_ed me) then Some (ss, None) else None) s).
Proof.
  intros He Hp Hw Hl. pose proof (init_of_good oc w w' m me peer priv (ep_owner _ _ _ _ He) Hp Hw) as Hg.
  destruct (kem_encap _ r) as [ct ss] eqn:Ek.
  assert (pq_encapsulate r (SessionInit.ml_kem_pub (init_of w peer me priv)) = Ok (ct, ss)) as Hk.
  { unfold pq_encapsulate. cbn. unfold PqKeys.pub_bytes. rewrite (io_ek _ Hp), kem_ek_len, kem_ek_ok. cbn.
    by rewrite Ek. }
  pose proof (handle_init_ok oc ord now w' r p _ m _ ct ss Hg Hl Hk) as Hok.
  pose proof (handle_init_spec oc ord now w' r p (SessionInit.encode (init_of w peer me priv)) m) as Hs.
  destruct (handle_init _ _ _ _ _ _ _ _) as [[out| |] m']; [|done..].
  destruct Hs as (log & pins & sess & -> & _ & _ & init & ct' & ss' & Hg' & Hk' & Hpin & -> & Hlog & ->).
  destruct He as [[E1 E2 E3 E4 E6] E5].
  assert (init = init_of w peer me priv) as -> by (destruct Hg, Hg'; congruence).
  rewrite Hk in Hk'. injection Hk' as <- <-.
  change (SessionInit.ed_pub (init_of w peer me priv)) with (id_ed peer) in *. rewrite E5, E1, E2, E4.
  eexists. split.
  - do 3 f_equal. unfold ack_of, init_session. f_equal. unfold install. by repeat case_match.
  - split; [split; try done; by right|apply lookup_insert_eq].
Qed.

(** [me], without a session for [peer], handles the Init of [peer]. *)
Lemma endpoint_init_new oc ord now w w' r p m me peer priv :
  owner m me peer →
  sessions m !! id_ed peer = None → ident_ok peer → close_clocks w w' →
  (rate_limited_log ord now (id_ed peer) (init_rate_log m)).1 = false →
  let '(ct, ss) := kem_encap (kem_ek (PqKeys.dk (id_keys peer))) r in
  ∃ m', handle_init oc ord now w' r p (SessionInit.encode (init_of w peer me priv)) m
      = (Ok (SessionAck.encode (ack_of w' me peer p ct)), m') ∧
    init_rate_log m' = (rate_limited_log ord now (id_ed peer) (init_rate_log m)).2 ∧
    endpoint m' me peer ((SessionInfo_new now (id_ed peer) p (x25519_base priv))
      <| established := true |> <| pq_shared := Some ss |>).
Proof.
  intros He Hn Hp Hw Hl. pose proof (init_of_good oc w w' m me peer priv He Hp Hw) as Hg.
  destruct (kem_encap _ r) as [ct ss] eqn:Ek.
  assert (pq_encapsulate r (SessionInit.ml_kem_pub (init_of w peer me priv)) = Ok (ct, ss)) as Hk.
  { unfold pq_encapsulate. cbn. unfold PqKeys.pub_bytes. rewrite (io_ek _ Hp), kem_ek_len, kem_ek_ok. cbn.
    by rewrite Ek. }
  pose proof (handle_init_ok oc ord now w' r p _ m _ ct ss Hg Hl Hk) as Hok.
  pose proof (handle_init_spec oc ord now w' r p (SessionInit.encode (init_of w peer me priv)) m) as Hs.
  destruct (handle_init _ _ _ _ _ _ _ _) as [[out| |] m']; [|done..].
  destruct Hs as (log & pins & sess & -> & _ & _ & init & ct' & ss' & Hg' & Hk' & Hpin & -> & Hlog & ->).
  destruct He as [E1 E2 E3 E4 E6].
  assert (init = init_of w peer me priv) as -> by (destruct Hg, Hg'; congruence).
  rewrite Hk in Hk'. injection Hk' as <- <-.
  change (SessionInit.ed_pub (init_of w peer me priv)) with (id_ed peer) in *. rewrite Hn, E1, E2, E4.
  eexists. split; [done|]. split; [done|]. split; [split; try done; by right|apply lookup_insert_eq].
Qed.

(** [me] handles an Ack of [peer] made for [me]'s key. *)
Lemma endpoint_ack oc ord w w' r m me peer s priv :
  endpoint m me peer s → ident_ok me → ident_ok peer → close_clocks w w' →
  let '(ct, ss) := kem_encap (kem_ek (PqKeys.dk (id_keys me))) r in
  ∃ m', handle_ack oc ord w' (SessionAck.encode (ack_of w peer me priv ct)) m = (Ok tt, m') ∧
    init_rate_log m' = init_rate_log m ∧
    endpoint m' me peer (install (x25519_base priv)
      (if negb (has_pq_shared s) || bytes_ltb (id_ed me) (id_ed peer)
       then Some (ss, PqKeys.decap_prev (id_keys me) ct) else None) s).
Proof.
  intros He Hme Hp Hw. pose proof (kem_ct_len (kem_ek (PqKeys.dk (id_keys me))) r) as Hct.
  pose proof (kem_correct (PqKeys.dk (id_keys me)) r) as Hkc.
  destruct (kem_encap _ r) as [ct ss] eqn:Ek. cbn in Hct, Hkc.
  pose proof (ack_of_good oc w w' m me peer priv ct (ep_owner _ _ _ _ He) Hp Hw Hct) as Hg.
  destruct He as [[E1 E2 E3 E4 E6] E5].
  assert (PqKeys.decap (pq_keys m) (SessionAck.ml_kem_ct (ack_of w peer me priv ct)) = Ok ss) as Hk.
  { unfold PqKeys.decap. cbn. rewrite E3, Hct, Hkc. done. }
  pose proof (handle_ack_ok oc ord w' _ m _ ss Hg Hk (mk_is_Some _ _ E5)) as Hok.
  pose proof (handle_ack_spec oc ord w' (SessionAck.encode (ack_of w peer me priv ct)) m) as Hs.
  destruct (handle_ack _ _ _ _ _) as [[[]| |] m']; [|done..].
  destruct Hs as (pins & sess & -> & _ & ack & info & ss' & Hg' & Hk' & Hpin & Hi & ->).
  assert (ack = ack_of w peer me priv ct) as -> by (destruct Hg, Hg'; congruence).
  change (SessionAck.ed_pub (ack_of w peer me priv ct)) with (id_ed peer) in *.
  rewrite Hk in Hk'. injection Hk' as <-. rewrite E5 in Hi. injection Hi as <-.
  eexists. split; [done|]. split; [done|].
  split; [split; try done; by right|cbn; rewrite E1, E3; apply lookup_insert_eq].
Qed.

(** *** Crossing Inits

    Both ends initiate; then each handles the other's Init and, once the other
    has sent it, the other's Ack. *)
Inductive xstep := AInit | BInit | AAck | BAck.

Record exchange := { xa : t; xb : t; ack_a : option bytes; ack_b : option bytes }.

Section Crossing.
Context (oc : bool) (ord : MapOrder bytes) (now : Z) (clock : xstep → Z) (ra rb pa pb init_a init_b : bytes).

Definition xrun (step : xstep) (x : exchange) : option exchange :=
  match step with
  | AInit =>
      let '(r, m) := handle_init oc ord now (clock AInit) ra pa init_b (xa x) in
      out ← res_ok r; Some {| xa := m; xb := xb x; ack_a := Some out; ack_b := ack_b x |}
  | BInit =>
      let '(r, m) := handle_init oc ord now (clock BInit) rb pb init_a (xb x) in
      out ← res_ok r; Some {| xa := xa x; xb := m; ack_a := ack_a x; ack_b := Some out |}
  | AAck =>
      k ← ack_b x;
      let '(r, m) := handle_ack oc ord (clock AAck) k (xa x) in
      _ ← res_ok r; Some {| xa := m; xb := xb x; ack_a := ack_a x; ack_b := ack_b x |}
  | BAck =>
      k ← ack_a x;
      let '(r, m) := handle_ack oc ord (clock BAck) k (xb x) in
      _ ← res_ok r; Some {| xa := xa x; xb := m; ack_a := ack_a x; ack_b := ack_b x |}
  end.

Fixpoint xruns (steps : list xstep) (x : exchange) : option exchange :=
  match steps with [] => Some x | s :: steps => xrun s x ≫= xruns steps end.
End Crossing.

#[global] Instance xstep_eq_dec : EqDecision xstep.
Proof. solve_decision. Defined.

(** An Ack is handled after the Init it answers. *)
Fixpoint after (s : xstep) (steps : list xstep) : list xstep :=
  match steps with [] => [] | s' :: steps => if decide (s' = s) then steps else after s steps end.
Definition causal (steps : list xstep) : bool :=
  bool_decide (AAck ∈ after BInit steps) && bool_decide (BAck ∈ after AInit steps).

Lemma causal_orders steps :
  steps ≡ₚ [AInit; BInit; AAck; BAck] → causal steps = true →
  steps ∈ [[BInit; AInit; AAck; BAck]; [BInit; AInit; BAck; AAck]; [AInit; BInit; AAck; BAck];
           [AInit; BInit; BAck; AAck]; [BInit; AAck; AInit; BAck]; [AInit; BAck; BInit; AAck]].
Proof.
  intros Hp%Permutation_sym%permutations_Permutation Hc.
  assert (steps ∈ filter (λ l, causal l = true) (permutations [AInit; BInit; AAck; BAck])) as Hin
    by by apply list_elem_of_filter.
  vm_compute in Hin. vm_compute. set_solver.
Qed.

(** What the two ends agree on. *)
Definition agreed (m m' : t) (i i' : ident) : Prop :=
  ∃ s s', sessions m !! id_ed i' = Some s ∧ sessions m' !! id_ed i = Some s' ∧
    established s = true ∧ established s' = true ∧ is_Some (pq_shared s) ∧ paired s s' ∧ paired s' s.

Section CrossingProof.
Context (oc : bool) (ord : MapOrder bytes) (now w0 : Z) (clock : xstep → Z) (ra rb pa pb : bytes).
Context (A B : ident) (priv_a priv_b : bytes) (HA : ident_ok A) (HB : ident_ok B).
Context (Hclock : ∀ s, close_clocks w0 (clock s)) (Hclock' : ∀ s s', close_clocks (clock s) (clock s')).

Let kem_a := kem_encap (kem_ek (PqKeys.dk (id_keys B))) ra.
Let kem_b := kem_encap (kem_ek (PqKeys.dk (id_keys A))) rb.
Let lt_ab := bytes_ltb (id_ed A) (id_ed B).
Let lt_ba := bytes_ltb (id_ed B) (id_ed A).

(** The two sessions after a step. *)
Definition astep (step : xstep) (s : SessionInfo * SessionInfo) : SessionInfo * SessionInfo :=
  let '(sa, sb) := s in
  match step with
  | AInit => (install (x25519_base priv_b)
      (if negb (has_pq_shared sa) || lt_ba then Some (kem_a.2, None) else None) sa, sb)
  | BInit => (sa, install (x25519_base priv_a)
      (if negb (has_pq_shared sb) || lt_ab then Some (kem_b.2, None) else None) sb)
  | AAck => (install (x25519_base priv_b)
      (if negb (has_pq_shared sa) || lt_ab
       then Some (kem_b.2, PqKeys.decap_prev (id_keys A) kem_b.1) else None) sa, sb)
  | BAck => (sa, install (x25519_base priv_a)
      (if negb (has_pq_shared sb) || lt_ba
       then Some (kem_a.2, PqKeys.decap_prev (id_keys B) kem_a.1) else None) sb)
  end.

(** The exchange once A has ([ai]) and B has ([bi]) handled the other's Init. *)
Record xrel (ai bi : bool) (s : SessionInfo * SessionInfo) (x : exchange) : Prop := {
  xr_a : endpoint (xa x) A B s.1;
  xr_b : endpoint (xb x) B A s.2;
  xr_pa : local_x25519_priv s.1 = priv_a;
  xr_pb : local_x25519_priv s.2 = priv_b;
  xr_acka : ack_a x = if ai then Some (SessionAck.encode (ack_of (clock AInit) A B priv_a kem_a.1)) else None;
  xr_ackb : ack_b x = if bi then Some (SessionAck.encode (ack_of (clock BInit) B A priv_b kem_b.1)) else None;
  xr_la : ai = false → (rate_limited_log ord now (id_ed B) (init_rate_log (xa x))).1 = false;
  xr_lb : bi = false → (rate_limited_log ord now (id_ed A) (init_rate_log (xb x))).1 = false }.

Definition flags (step : xstep) (f : bool * bool) : option (bool * bool) :=
  match step, f with
  | AInit, (false, bi) => Some (true, bi)
  | BInit, (ai, false) => Some (ai, true)
  | AAck, (ai, true) => Some (ai, true)
  | BAck, (true, bi) => Some (true, bi)
  | _, _ => None
  end.

Lemma install_priv x a s : local_x25519_priv (install x a s) = local_x25519_priv s.
Proof. by destruct a as [[??]|]. Qed.

Lemma xrun_sim step ai bi ai' bi' s x :
  xrel ai bi s x → flags step (ai, bi) = Some (ai', bi') →
  ∃ x', xrun oc ord now clock ra rb pa pb (SessionInit.encode (init_of w0 A B priv_a))
      (SessionInit.encode (init_of w0 B A priv_b)) step x = Some x' ∧ xrel ai' bi' (astep step s) x'.
Proof.
  intros [Ha Hb Hpa Hpb Hka Hkb Hla Hlb] Hf. destruct s as [sa sb]. cbn in Ha, Hb, Hpa, Hpb.
  destruct step; [destruct ai|destruct bi|destruct bi|destruct ai]; try discriminate;
    injection Hf as <- <-; cbn [xrun].
  - pose proof (endpoint_init oc ord now w0 (clock AInit) ra pa _ A B sa priv_b Ha HB (Hclock _) (Hla eq_refl)) as Hi.
    fold kem_a in Hi. destruct kem_a as [ct ss] eqn:Ek. destruct Hi as (m' & -> & Hm). cbn.
    eexists. split; [done|]. by split; cbn; rewrite ?install_priv, ?Ek, ?Hpa, ?Hpb.
  - pose proof (endpoint_init oc ord now w0 (clock BInit) rb pb _ B A sb priv_a Hb HA (Hclock _) (Hlb eq_refl)) as Hi.
    fold kem_b in Hi. destruct kem_b as [ct ss] eqn:Ek. destruct Hi as (m' & -> & Hm). cbn.
    eexists. split; [done|]. by split; cbn; rewrite ?install_priv, ?Ek, ?Hpa, ?Hpb.
  - rewrite Hkb. cbn [mbind option_bind].
    pose proof (endpoint_ack oc ord (clock BInit) (clock AAck) rb _ A B sa priv_b
      Ha HA HB (Hclock' _ _)) as Hi.
    fold kem_b in Hi. destruct kem_b as [ct ss] eqn:Ek. destruct Hi as (m' & E & El & Hm).
    cbn [fst]. rewrite E. cbn.
    eexists. split; [done|]. by split; cbn; rewrite ?install_priv, ?Ek, ?El.
  - rewrite Hka. cbn [mbind option_bind].
    pose proof (endpoint_ack oc ord (clock AInit) (clock BAck) ra _ B A sb priv_a
      Hb HB HA (Hclock' _ _)) as Hi.
    fold kem_a in Hi. destruct kem_a as [ct ss] eqn:Ek. destruct Hi as (m' & E & El & Hm).
    cbn [fst]. rewrite E. cbn.
    eexists. split; [done|]. by split; cbn; rewrite ?install_priv, ?Ek, ?El.
Qed.

Lemma xruns_sim steps : ∀ ai bi f s x,
  xrel ai bi s x → foldl (λ f step, f ≫= flags step) (Some (ai, bi)) steps = Some f →
  ∃ x', xruns oc ord now clock ra rb pa pb (SessionInit.encode (init_of w0 A B priv_a))
      (SessionInit.encode (init_of w0 B A priv_b)) steps x = Some x' ∧
    xrel f.1 f.2 (foldl (λ s step, astep step s) s steps) x'.
Proof.
  induction steps as [|step steps IH]; intros ai bi f s x Hx Hf; cbn [foldl xruns] in *.
  { injection Hf as <-. eauto. }
  destruct (Some (ai, bi) ≫= flags step) as [[ai' bi']|] eqn:Ef; cbn [mbind option_bind] in *.
  - destruct (xrun_sim step ai bi ai' bi' s x Hx Ef) as (x1 & -> & Hx1). by eapply IH.
  - exfalso. clear -Hf. induction steps as [|?? IH]; [done|]. by apply IH.
Qed.

(** From fresh sessions every causal order leaves both ends paired. *)
Lemma xruns_agree ed_a ed_b x steps :
  xrel false false (SessionInfo_new now ed_b priv_a (fill 32 (u8 0)),
                    SessionInfo_new now ed_a priv_b (fill 32 (u8 0))) x →
  id_ed A ≠ id_ed B → steps ≡ₚ [AInit; BInit; AAck; BAck] → causal steps = true →
  ∃ x', xruns oc ord now clock ra rb pa pb (SessionInit.encode (init_of w0 A B priv_a))
      (SessionInit.encode (init_of w0 B A priv_b)) steps x = Some x' ∧ agreed (xa x') (xb x') A B.
Proof.
  intros Hx Hne Hp Hc. pose proof (causal_orders steps Hp Hc) as Hin.
  destruct (xruns_sim steps false false (true, true) _ x Hx) as (x' & Hx' & [[_ Ha] [_ Hb] _ _ _ _ _ _]).
  { rewrite !elem_of_cons, elem_of_nil in Hin. by destruct_or? Hin; subst. }
  exists x'. split; [done|]. do 2 eexists. split; [exact Ha|]. split; [exact Hb|].
  assert ((lt_ab = true ∧ lt_ba = false) ∨ (lt_ab = false ∧ lt_ba = true)) as Hlt.
  { destruct (bytes_ltb_total (id_ed A) (id_ed B)) as [|[E|E]]; [done|left|right];
      (split; [|]); try done; by apply bytes_ltb_asym. }
  clear - Hin Hlt. rewrite !elem_of_cons, elem_of_nil in Hin.
  destruct_or? Hin; subst; destruct Hlt as [[E1 E2]|[E1 E2]]; cbn; rewrite ?E1, ?E2; cbn;
    (split_and!; [done..|by eexists|split|split]); done.
Qed.
End CrossingProof.

(** [initiate] sends the Init of the fresh session it stores. *)
Lemma initiate_endpoint now wall priv m me peer (Ho : owner m me peer) init m' :
  initiate now wall priv (id_ed peer) m = (init, m') →
  init = SessionInit.encode (init_of wall me peer priv) ∧
  endpoint m' me peer (SessionInfo_new now (id_ed peer) priv (fill 32 (u8 0))) ∧
  init_rate_log m' = init_rate_log m.
Proof.
  destruct Ho as [E1 E2 E3 E4 E6]. unfold initiate, init_of. intros [= <- <-]. cbn -[SessionInit.encode].
  rewrite E1, E2, E3, E4. split; [done|]. split; [|done]. split; [done|]. apply lookup_insert_eq.
Qed.
End Handshake.

(** ** Retransmission schedule *)

(** The ticks at which the maintenance pass sends the Init of a session again. *)
Fixpoint retx_times (ticks : list Z) (info : SessionInfo) : list Z :=
  match ticks with
  | [] => []
  | now :: ticks =>
      if SessionManager.retx_due now info then now :: retx_times ticks (bump now info)
      else retx_times ticks info
  end.

Lemma retx_interval_bounds c :
  0 ≤ c → HANDSHAKE_RETX_BASE_MS ≤ SessionManager.retx_interval c ≤ HANDSHAKE_RETX_MAX_MS ∧
  (1 ≤ c → 2000 ≤ SessionManager.retx_interval c) ∧
  (2 ≤ c → 4000 ≤ SessionManager.retx_interval c) ∧ (3 ≤ c → 8000 ≤ SessionManager.retx_interval c).
Proof.
  intros Hc. unfold SessionManager.retx_interval, HANDSHAKE_RETX_BASE_MS, HANDSHAKE_RETX_MAX_MS.
  assert (c = 0 ∨ c = 1 ∨ c = 2 ∨ c = 3 ∨ c = 4 ∨ 5 ≤ c) as [->|[->|[->|[->|[->|]]]]] by lia;
    [..|replace (Z.min c 5) with 5 by lia]; split_and!; intros; (lia || (vm_compute; discriminate)).
Qed.

(** Sends after [last], the [c]-th retransmission first, respect the backoff. *)
Fixpoint spaced (c last : Z) (times : list Z) : Prop :=
  match times with
  | [] => True
  | t :: times => last + SessionManager.retx_interval c ≤ t ∧ spaced (Z.min (2 ^ 32 - 1) (c + 1)) t times
  end.

Lemma retx_times_spaced ticks : ∀ info, 0 ≤ init_retx_count info →
  spaced (init_retx_count info) (last_init_sent info) (retx_times ticks info).
Proof.
  induction ticks as [|now ticks IH]; intros info Hc; cbn; [done|].
  pose proof (retx_interval_bounds _ Hc) as [Hi _]. unfold HANDSHAKE_RETX_BASE_MS in Hi.
  destruct (SessionManager.retx_due now info) eqn:Hd; [|by apply IH]. split.
  - apply andb_true_iff in Hd as [_ Hd%negb_true_iff%Z.ltb_ge]. unfold duration_since, sat_sub in Hd. lia.
  - specialize (IH (bump now info)). unfold bump in *. rewrite Hd in *. cbn in IH. apply IH. lia.
Qed.

Lemma spaced_later times : ∀ c last, 0 ≤ c → spaced c last times → Forall (λ x, last ≤ x) times.
Proof.
  induction times as [|t times IH]; intros c last Hc; [done|]. intros [Ht Hs].
  pose proof (retx_interval_bounds _ Hc) as [Hi _]. unfold HANDSHAKE_RETX_BASE_MS in Hi.
  constructor; [lia|]. eapply Forall_impl; [eapply IH; [|done]; lia|]. cbn. lia.
Qed.

Lemma in_window_none a times : Forall (λ x, a + INIT_RATE_WINDOW < x) times →
  filter (λ x, a ≤ x ≤ a + INIT_RATE_WINDOW) times = [].
Proof.
  induction 1 as [|x times Hx _ IH]; [done|]. rewrite filter_cons_False by lia. done.
Qed.

(** Four backoff intervals in a row take longer than the rate window. *)
Lemma spaced_window a times : ∀ c last, 0 ≤ c → spaced c last times →
  len (filter (λ x, a ≤ x ≤ a + INIT_RATE_WINDOW) (last :: times)) ≤ MAX_INITS_PER_WINDOW.
Proof.
  induction times as [|t times IH]; intros c last Hc Hs.
  { rewrite filter_cons. by case_decide. }
  destruct (decide (a ≤ last)) as [Ha|];
    [|rewrite filter_cons_False by lia; destruct Hs; eapply IH; [|done]; lia].
  clear IH. assert (∀ l : list Z, len (filter (λ x, a ≤ x ≤ a + INIT_RATE_WINDOW) l) ≤ len l) as Hlen.
  { intros l. pose proof (length_filter (λ x, a ≤ x ≤ a + INIT_RATE_WINDOW) l). unfold len. lia. }
  change (t :: times) with ([t] ++ times) in *.
  destruct times as [|t2 [|t3 [|t4 times]]]; [etrans; [apply Hlen|done]..|].
  replace (last :: [t] ++ t2 :: t3 :: t4 :: times) with ([last; t; t2; t3] ++ (t4 :: times)) by done.
  cbn [app spaced] in Hs. destruct Hs as (H1 & H2 & H3 & H4 & Hs).
  apply spaced_later in Hs; [|lia]. rewrite filter_app, (in_window_none a (t4 :: times)).
  { rewrite app_nil_r. etrans; [apply Hlen|done]. }
  pose proof (retx_interval_bounds c Hc) as (? & _).
  pose proof (retx_interval_bounds (Z.min (2 ^ 32 - 1) (c + 1)) ltac:(lia)) as (_ & ? & _).
  pose proof (retx_interval_bounds (Z.min (2 ^ 32 - 1) (Z.min (2 ^ 32 - 1) (c + 1) + 1)) ltac:(lia)) as (_ & _ & ? & _).
  match type of H4 with _ + SessionManager.retx_interval ?k ≤ _ =>
    pose proof (retx_interval_bounds k ltac:(lia)) as (_ & _ & _ & ?) end.
  unfold INIT_RATE_WINDOW, HANDSHAKE_RETX_BASE_MS in *.
  constructor; [lia|]. eapply Forall_impl; [done|]. cbn. intros. lia.
Qed.

(** ** Properties *)

Section Properties.
Context `{X25519Laws} `{Hkdf} `{AeadLaws} `{Ed25519Laws} `{MlDsaLaws} `{MlKemLaws}.
Import SessionManager.

(** C22: in every reachable state of the session table, sessions are filed under
    their peer, an established session has a post-quantum secret and publishes
    the key of its private key, at most 8192 pins and 4096 rate-limit entries of
    at most 4 instants are held, and the published encapsulation key is that of
    the current decapsulation key. *)
Theorem manager_invariant evs now sk dk seed :
  Forall event_ok evs → wf (run_events evs (new now sk dk seed)).
Proof.
  assert (wf (new now sk dk seed)) as Hw by by split; [..|split].
  revert Hw. generalize (new now sk dk seed).
  induction evs as [|e evs IH]; intros m Hw Hok; [done|].
  apply Forall_cons in Hok as [He Hok]. apply IH; [|done]. by apply run_event_wf.
Qed.

(** C11: a session becomes established only by a handshake message that is
    addressed to us, fresh, and signed by the peer with its Ed25519 key and with
    the ML-DSA key pinned for it (if any); an Ack only completes a handshake
    that was started. *)
Theorem established_authenticated e m ed :
  is_established ed m = false → is_established ed (run_event e m) = true → authenticated e m ed.
Proof. intros Hn He%run_event_authenticated. destruct He; congruence. Qed.

(** C37: trust on first use: while a pin is held no event replaces it, and a
    handshake message that presents another ML-DSA key for a pinned identity
    fails and leaves every session as it was. *)
Theorem tofu_pin m ed k oc ord now wall r p data :
  pq_pins m !! ed = Some k →
  (∀ e k', pq_pins (run_event e m) !! ed = Some k' → k' = k) ∧
  (∀ init, SessionInit.decode data = Ok init → SessionInit.ed_pub init = ed →
    SessionInit.ml_dsa_pub init ≠ k →
    is_ok (handle_init oc ord now wall r p data m).1 = false ∧
    sessions (handle_init oc ord now wall r p data m).2 = sessions m) ∧
  (∀ ack, SessionAck.decode data = Ok ack → SessionAck.ed_pub ack = ed →
    SessionAck.ml_dsa_pub ack ≠ k →
    is_ok (handle_ack oc ord wall data m).1 = false ∧
    sessions (handle_ack oc ord wall data m).2 = sessions m).
Proof.
  intros Hk. split_and!.
  - intros e k'. by apply run_event_pins.
  - intros init Hd He Hne. pose proof (handle_init_spec oc ord now wall r p data m) as Hs.
    destruct (handle_init _ _ _ _ _ _ _ _) as [[out| |] m']; [|by destruct Hs as (?&?&?&->&_&_&->)..].
    destruct Hs as (?&?&?&_&_&_&init'&?&?&[Hd' _ Hp _]&_). rewrite Hd in Hd'. injection Hd' as <-.
    rewrite He, Hk in Hp. by destruct Hp; simplify_eq.
  - intros ack Hd He Hne. pose proof (handle_ack_spec oc ord wall data m) as Hs.
    destruct (handle_ack _ _ _ _ _) as [[out| |] m']; [|by destruct Hs as (?&?&->&_&->)..].
    destruct Hs as (?&?&_&_&ack'&?&?&[Hd' _ Hp _]&_). rewrite Hd in Hd'. injection Hd' as <-.
    rewrite He, Hk in Hp. by destruct Hp; simplify_eq.
Qed.

(** C38: whatever the sources do, the Inits accepted from one source in any window
    of ten seconds are at most four, and the log never exceeds its bound. *)
Theorem init_rate_bounded calls src t :
  StronglySorted Z.le (map (λ c, c.1.2) calls) → Forall (λ c, 0 ≤ c.1.2) calls →
  let '(log, acc) := foldl rate_step (∅, []) calls in
  len (accepted_in src t acc) ≤ MAX_INITS_PER_WINDOW ∧
  Z.of_nat (size log) ≤ MAX_INIT_RATE_LOG_ENTRIES.
Proof.
  intros Hs Hp. pose proof (rate_run_inv calls 0 ∅ [] (rate_inv_init 0) Hp Hs Hp) as Hi.
  destruct (foldl rate_step (∅, []) calls) as [log acc]. destruct Hi as (now & [[Hsz _] _ _ Hw]). auto.
Qed.

(** C21: when both ends initiate at once, the handshake converges: in every causal
    order of the four messages each one is accepted, and both ends finish
    established, with each other's keys and the same post-quantum secret. *)
Theorem crossing_init_converges oc ord now w0 clock ra rb pa pb A B mA mB priv_a priv_b steps :
  owner mA A B → owner mB B A → ident_ok A → ident_ok B → id_ed A ≠ id_ed B →
  (∀ s, close_clocks w0 (clock s)) → (∀ s s', close_clocks (clock s) (clock s')) →
  (rate_limited_log ord now (id_ed B) (init_rate_log mA)).1 = false →
  (rate_limited_log ord now (id_ed A) (init_rate_log mB)).1 = false →
  steps ≡ₚ [AInit; BInit; AAck; BAck] → causal steps = true →
  let '(init_a, mA') := initiate now w0 priv_a (id_ed B) mA in
  let '(init_b, mB') := initiate now w0 priv_b (id_ed A) mB in
  ∃ x, xruns oc ord now clock ra rb pa pb init_a init_b steps
         {| xa := mA'; xb := mB'; ack_a := None; ack_b := None |} = Some x ∧
       agreed (xa x) (xb x) A B.
Proof.
  intros HA HB Hia Hib Hne Hc Hc' Hla Hlb Hp Hcs.
  destruct (initiate now w0 priv_a (id_ed B) mA) as [init_a mA'] eqn:Ea.
  destruct (initiate now w0 priv_b (id_ed A) mB) as [init_b mB'] eqn:Eb.
  destruct (initiate_endpoint now w0 priv_a mA A B HA init_a mA' Ea) as (-> & HA' & Ela).
  destruct (initiate_endpoint now w0 priv_b mB B A HB init_b mB' Eb) as (-> & HB' & Elb).
  eapply (xruns_agree oc ord now w0 clock ra rb pa pb A B priv_a priv_b); try done.
  split; cbn; rewrite ?Ela, ?Elb; done.
Qed.

(** The two sessions that a handshake creates. *)
Record fresh_pair (sa sb : SessionInfo) : Prop := {
  fp_established : established sa = true ∧ established sb = true;
  fp_pq : is_Some (pq_shared sa);
  fp_there : paired sa sb;
  fp_back : paired sb sa;
  fp_seq : local_seq sa = 0 ∧ local_seq sb = 0;
  fp_high : remote_seq_high sa = 0 ∧ remote_seq_high sb = 0;
  fp_window : remote_seq_window sa = 0 ∧ remote_seq_window sb = 0 }.

(** The two messages of a plain handshake, and what they leave behind. *)
Lemma handshake_sessions oc ord ord' now now' w0 w1 w2 r pb A B mA mB priv_a :
  owner mA A B → owner mB B A → ident_ok A → ident_ok B → sessions mB !! id_ed A = None →
  close_clocks w0 w1 → close_clocks w1 w2 →
  (rate_limited_log ord now' (id_ed A) (init_rate_log mB)).1 = false →
  let '(init, mA1) := initiate now w0 priv_a (id_ed B) mA in
  let ack := SessionAck.encode (ack_of w1 B A pb (kem_encap (kem_ek (PqKeys.dk (id_keys A))) r).1) in
  init = SessionInit.encode (init_of w0 A B priv_a) ∧
  ∃ mA2 mB1 sa sb,
    handle_init oc ord now' w1 r pb init mB = (Ok ack, mB1) ∧
    handle_ack oc ord' w2 ack mA1 = (Ok tt, mA2) ∧
    sessions mA2 !! id_ed B = Some sa ∧ sessions mB1 !! id_ed A = Some sb ∧ fresh_pair sa sb.
Proof.
  intros HA HB Hia Hib Hn Hc Hc' Hr.
  destruct (initiate now w0 priv_a (id_ed B) mA) as [init mA1] eqn:Ea.
  destruct (initiate_endpoint now w0 priv_a mA A B HA init mA1 Ea) as (-> & HA1 & _).
  pose proof (endpoint_init_new oc ord now' w0 w1 r pb mB B A priv_a HB Hn Hia Hc Hr) as Hi.
  pose proof (endpoint_ack oc ord' w1 w2 r mA1 A B _ pb HA1 Hia Hib Hc') as Hk.
  destruct (kem_encap _ r) as [ct ss]. destruct Hi as (mB1 & Ei & _ & [_ Hb]), Hk as (mA2 & Ek & _ & [_ Ha]).
  match type of Ha with context [has_pq_shared ?x] => change (has_pq_shared x) with false in Ha end.
  cbn [negb orb] in Ha. split; [done|]. do 4 eexists. split; [exact Ei|]. split; [exact Ek|].
  split; [exact Ha|]. split; [exact Hb|]. split; try done; by split.
Qed.

(** A plain handshake works end to end: the Init of A, handled by a B that had
    no session, produces an Ack that A accepts; both ends are then established
    and agree, and what A encrypts for B afterwards B decrypts. *)
Theorem handshake_end_to_end oc ord now w0 w1 w2 r pb A B mA mB priv_a pt :
  owner mA A B → owner mB B A → ident_ok A → ident_ok B → sessions mB !! id_ed A = None →
  close_clocks w0 w1 → close_clocks w1 w2 → len pt ≤ AEAD_MAX →
  (rate_limited_log ord now (id_ed A) (init_rate_log mB)).1 = false →
  let '(init, mA1) := initiate now w0 priv_a (id_ed B) mA in
  ∃ ack ct mA2 mA3 mB1 mB2,
    handle_init oc ord now w1 r pb init mB = (Ok ack, mB1) ∧
    handle_ack oc ord w2 ack mA1 = (Ok tt, mA2) ∧ agreed mA2 mB1 A B ∧
    encrypt oc now (id_ed B) pt mA2 = (Ok ct, mA3) ∧
    decrypt now (id_ed A) ct mB1 = (Ok pt, mB2).
Proof.
  intros HA HB Hia Hib Hn Hc Hc' Hl Hr.
  pose proof (handshake_sessions oc ord ord now now w0 w1 w2 r pb A B mA mB priv_a HA HB Hia Hib Hn Hc Hc' Hr) as Hh.
  destruct (initiate now w0 priv_a (id_ed B) mA) as [init mA1].
  destruct Hh as (_ & mA2 & mB1 & sa & sb & Ei & Ek & Ha & Hb & [[He He'] Hpq Hab Hba [Es _] [_ Eh] [_ Ew]]).
  destruct (packet_roundtrip oc now now pt sa sb Hab) as (c & sa' & sb' & Ee & Ed & _); try (done || lia).
  { by apply p_cache in Hba. }
  { by apply p_pub in Hba. }
  { by rewrite Es, Eh, Ew. }
  pose proof (with_session_run (id_ed B) (Session.encrypt oc now pt) mA2 sa Ha He) as Re.
  pose proof (with_session_run (id_ed A) (Session.decrypt now c) mB1 sb Hb He') as Rd.
  rewrite Ee in Re. rewrite Ed in Rd. do 6 eexists. split; [exact Ei|]. split; [exact Ek|]. split.
  { by exists sa, sb. }
  split; [exact Re|exact Rd].
Qed.

(** C39: an initiator with the larger key whose first Ack is lost retransmits its
    Init, and is left with another post-quantum secret than the responder,
    although both ends are established: the responder keeps the first secret
    while it answers with a ciphertext for a second one. *)
Theorem lost_ack_splits_secret oc ord ord' now now' w0 w1 w2 w3 w4 r1 r2 pb pb' A B mA mB priv_a :
  owner mA A B → owner mB B A → ident_ok A → ident_ok B → sessions mB !! id_ed A = None →
  bytes_ltb (id_ed B) (id_ed A) = true → sessions mA = ∅ →
  close_clocks w0 w1 → close_clocks w2 w3 → close_clocks w3 w4 →
  init_rate_log mB = ∅ → HANDSHAKE_RETX_BASE_MS ≤ now' - now →
  let '(init, mA1) := initiate now w0 priv_a (id_ed B) mA in
  let '(res1, mB1) := handle_init oc ord now w1 r1 pb init mB in
  let '(out, mA2) := pending_handshake_inits ord now' w2 mA1 in
  ∃ init2 ack2 mB2 mA3 sa sb,
    out = [(id_ed B, init2)] ∧ handle_init oc ord' now' w3 r2 pb' init2 mB1 = (Ok ack2, mB2) ∧
    handle_ack oc ord w4 ack2 mA2 = (Ok tt, mA3) ∧
    sessions mA3 !! id_ed B = Some sa ∧ sessions mB2 !! id_ed A = Some sb ∧
    established sa = true ∧ established sb = true ∧
    pq_shared sb = Some (kem_encap (kem_ek (PqKeys.dk (id_keys A))) r1).2 ∧
    pq_shared sa = Some (kem_encap (kem_ek (PqKeys.dk (id_keys A))) r2).2.
Proof.
  intros HA HB Hia Hib Hn Hlt Hemp Hc1 Hc2 Hc3 Hr Hd.
  destruct (initiate now w0 priv_a (id_ed B) mA) as [init mA1] eqn:Ea.
  assert (sessions mA1 = {[id_ed B := SessionInfo_new now (id_ed B) priv_a (fill 32 (u8 0))]}) as Hs1
    by (injection Ea as <- <-; cbn; by rewrite Hemp).
  destruct (initiate_endpoint now w0 priv_a mA A B HA init mA1 Ea) as (-> & HA1 & _).
  pose proof (rate_limited_twice ord ord' now now' (id_ed A)) as [Hr1 Hr']. rewrite <- Hr in Hr1, Hr'.
  pose proof (endpoint_init_new oc ord now w0 w1 r1 pb mB B A priv_a HB Hn Hia Hc1 Hr1) as Hi.
  destruct (kem_encap _ r1) as [ct1 ss1]. destruct Hi as (mB1 & -> & El & HB1). rewrite <- El in Hr'.
  rewrite pending_spec. set (mA2 := mA1 <| sessions := _ |>).
  pose proof (endpoint_init oc ord' now' w2 w3 r2 pb' mB1 B A _ priv_a HB1 Hia Hc2 Hr') as Hi.
  assert (endpoint mA2 A B (bump now' (SessionInfo_new now (id_ed B) priv_a (fill 32 (u8 0))))) as HA2.
  { destruct HA1 as [[?????] Es]. split; [by split|]. cbn. by rewrite lookup_fmap, Es. }
  pose proof (endpoint_ack oc ord w3 w4 r2 mA2 A B _ pb HA2 Hia Hib Hc3) as Hk.
  destruct (kem_encap _ r2) as [ct2 ss2].
  destruct Hi as (mB2 & Ei & [_ Hb]), Hk as (mA3 & Ek & _ & [_ Ha]).
  assert (retx_due now' (SessionInfo_new now (id_ed B) priv_a (fill 32 (u8 0))) = true) as Hdue.
  { unfold retx_due. cbn -[duration_since retx_interval]. apply negb_true_iff, Z.ltb_ge.
    unfold duration_since, sat_sub. change (retx_interval 0) with HANDSHAKE_RETX_BASE_MS. lia. }
  do 6 eexists. split.
  - rewrite Hs1. 
    assert (map_iter ord {[id_ed B := SessionInfo_new now (id_ed B) priv_a (fill 32 (u8 0))]}
      = [(id_ed B, SessionInfo_new now (id_ed B) priv_a (fill 32 (u8 0)))]) as ->
      by (apply Permutation_singleton_r; rewrite map_iter_perm; by rewrite map_to_list_singleton).
    rewrite filter_cons_True by exact Hdue. cbn -[SessionInit.encode]. unfold resent. cbn -[SessionInit.encode].
    reflexivity.
  - destruct HA1 as [[E1 E2 E3 E4 _] _]. rewrite E1, E2, E3, E4. split; [exact Ei|].
    split; [exact Ek|]. split; [exact Ha|]. split; [exact Hb|].
    unfold bump. rewrite Hdue. cbn. rewrite (bytes_ltb_asym _ _ Hlt). done.
Qed.

(** A retransmission pass resends the Init of exactly the sessions that are
    still in their handshake and due, with the key stored for each, and leaves
    every other session alone; a session whose last Init is 30 seconds old is
    always due; and the Inits that a session sends in any ten seconds, however
    often the pass runs, are at most the four that the responder's rate limit
    accepts. *)
Theorem retransmission ord now wall m ticks start ed priv a :
  (∀ e init, (e, init) ∈ (pending_handshake_inits ord now wall m).1 ↔
     ∃ s, sessions m !! e = Some s ∧ retx_due now s = true ∧ (e, init) = resent wall m (e, s)) ∧
  (∀ e, sessions (pending_handshake_inits ord now wall m).2 !! e = bump now <$> sessions m !! e) ∧
  (∀ s, 0 ≤ init_retx_count s → established s = false → HANDSHAKE_RETX_MAX_MS ≤ now - last_init_sent s →
     retx_due now s = true) ∧
  len (filter (λ x, a ≤ x ≤ a + INIT_RATE_WINDOW)
    (start :: retx_times ticks (SessionInfo_new start ed priv (fill 32 (u8 0))))) ≤ MAX_INITS_PER_WINDOW.
Proof.
  rewrite pending_spec. cbn [fst snd]. split_and!.
  - intros e init. rewrite list_elem_of_In, in_map_iff. split.
    + intros ([e' s] & [= -> <-] & [Hd Hin%elem_of_map_iter]%list_elem_of_In%list_elem_of_filter). eauto.
    + intros (s & Hs & Hd & ->). exists (e, s). split; [done|]. apply list_elem_of_In, list_elem_of_filter.
      split; [done|]. by apply elem_of_map_iter.
  - intros e. cbn. by rewrite lookup_fmap.
  - intros s Hc He Hm. unfold retx_due. rewrite He. apply negb_true_iff, Z.ltb_ge.
    pose proof (retx_interval_bounds _ Hc) as [Hi _]. unfold duration_since, sat_sub. lia.
  - apply (spaced_window a _ 0 start); [done|].
    by apply (retx_times_spaced ticks (SessionInfo_new start ed priv (fill 32 (u8 0)))).
Qed.
End Properties.

(** ** Witnesses *)

Section ManagerWitness.
Import Toy SessionManager.

Let sk_a := fill 32 (u8 1).
Let sk_b := fill 32 (u8 2).
Let alice := {| id_sk := sk_a; id_seed := fill 32 (u8 3); id_keys := PqKeys.generate 0 (fill 64 (u8 5));
                id_coord := fill 16 (u8 0) |}.
Let bob := {| id_sk := sk_b; id_seed := fill 32 (u8 4); id_keys := PqKeys.generate 0 (fill 64 (u8 6));
              id_coord := fill 16 (u8 0) |}.
Let m_a := new 0 sk_a (fill 64 (u8 5)) (fill 32 (u8 3)).
Let m_b := new 0 sk_b (fill 64 (u8 6)) (fill 32 (u8 4)).
Let ord := default_order bytes.
Let priv := fill 32 (u8 7).
Let wall : Z := 1700000000000.

Lemma sample_owners : owner m_a alice bob ∧ owner m_b bob alice.
Proof. by split; split; try done; left. Qed.
Lemma sample_idents : ident_ok alice ∧ ident_ok bob.
Proof. by split; split. Qed.
Lemma sample_clocks : close_clocks wall wall.
Proof. by vm_compute. Qed.
Lemma sample_order : bytes_ltb (id_ed alice) (id_ed bob) = true.
Proof. by vm_compute. Qed.
Lemma sample_rate ed : (rate_limited_log ord 0 ed ∅).1 = false.
Proof. unfold rate_limited_log. by rewrite bool_decide_eq_true_2. Qed.

Lemma manager_invariant_witness :
  wf (run_events [Initiate 0 wall priv (id_ed bob); Retransmit ord 2000 wall] m_a).
Proof.
  apply (manager_invariant [Initiate 0 wall priv (id_ed bob); Retransmit ord 2000 wall] 0 sk_a
    (fill 64 (u8 5)) (fill 32 (u8 3))).
  by repeat constructor.
Defined.

Lemma established_authenticated_witness :
  let e := Init true ord 0 wall (fill 32 (u8 8)) (fill 32 (u8 9))
             (SessionInit.encode (init_of wall alice bob priv)) in
  authenticated e m_b (id_ed alice).
Proof.
  apply (established_authenticated _ m_b (id_ed alice)); [done|].
  pose proof (endpoint_init_new true ord 0 wall wall (fill 32 (u8 8)) (fill 32 (u8 9)) m_b bob alice priv
    (proj2 sample_owners) eq_refl (proj1 sample_idents) sample_clocks (sample_rate _)) as Hi.
  destruct (kem_encap _ _) as [ct ss]. destruct Hi as (m' & E & _ & [_ Hs]).
  cbn [run_event]. rewrite E. unfold is_established. cbn [snd]. by rewrite Hs.
Defined.

Lemma tofu_pin_witness :
  let m := m_a <| pq_pins := {[ priv := sk_a ]} |> in
  pq_pins m !! priv = Some sk_a ∧ (∀ e k', pq_pins (run_event e m) !! priv = Some k' → k' = sk_a).
Proof.
  split; [exact (lookup_singleton_eq _ _)|].
  refine (proj1 (tofu_pin (m_a <| pq_pins := {[ priv := sk_a ]} |>) priv sk_a true ord 0 0 [] [] [] _)).
  exact (lookup_singleton_eq _ _).
Defined.

Let burst := map (λ t, (ord, t, priv)) [0; 1; 2; 3; 4; 10004].

Lemma init_rate_bounded_witness :
  (foldl rate_step (∅, []) burst).2 = [(priv, 0); (priv, 1); (priv, 2); (priv, 3); (priv, 10004)] ∧
  let '(log, acc) := foldl rate_step (∅, []) burst in
  len (accepted_in priv 4 acc) ≤ 4 ∧ Z.of_nat (size log) ≤ 4096.
Proof.
  split; [by vm_compute|]. apply (init_rate_bounded burst priv 4).
  - repeat constructor; cbn; lia.
  - repeat constructor; cbn; lia.
Defined.

Lemma crossing_init_converges_witness :
  let '(init_a, mA') := initiate 0 wall priv (id_ed bob) m_a in
  let '(init_b, mB') := initiate 0 wall (fill 32 (u8 8)) (id_ed alice) m_b in
  ∃ x, xruns true ord 0 (λ _, wall) (fill 32 (u8 1)) (fill 32 (u8 2)) [] [] init_a init_b
         [BInit; AAck; AInit; BAck] {| xa := mA'; xb := mB'; ack_a := None; ack_b := None |} = Some x ∧
       agreed (xa x) (xb x) alice bob.
Proof.
  apply (crossing_init_converges true ord 0 wall (λ _, wall) (fill 32 (u8 1)) (fill 32 (u8 2)) [] []
    alice bob m_a m_b priv (fill 32 (u8 8)) [BInit; AAck; AInit; BAck]);
    try first [apply sample_owners | apply sample_idents | apply sample_rate | intros; apply sample_clocks].
  - intros E. pose proof sample_order as Hl. rewrite E, bytes_ltb_irrefl in Hl. done.
  - apply permutations_Permutation. vm_compute. set_solver.
  - done.
Defined.

Lemma handshake_end_to_end_witness :
  let '(init, mA1) := initiate 0 wall priv (id_ed bob) m_a in
  ∃ ack ct mA2 mA3 mB1 mB2,
    handle_init true ord 0 wall (fill 32 (u8 1)) (fill 32 (u8 9)) init m_b = (Ok ack, mB1) ∧
    handle_ack true ord wall ack mA1 = (Ok tt, mA2) ∧ agreed mA2 mB1 alice bob ∧
    encrypt true 0 (id_ed bob) (bstr "hello") mA2 = (Ok ct, mA3) ∧
    decrypt 0 (id_ed alice) ct mB1 = (Ok (bstr "hello"), mB2).
Proof.
  apply (handshake_end_to_end true ord 0 wall wall wall (fill 32 (u8 1)) (fill 32 (u8 9)) alice bob
    m_a m_b priv (bstr "hello")); 
    try first [apply sample_owners | apply sample_idents | apply sample_rate | apply sample_clocks]; done.
Defined.

Lemma lost_ack_splits_secret_witness :
  let '(init, mA1) := initiate 0 wall priv (id_ed alice) m_b in
  let '(res1, mB1) := handle_init true ord 0 wall (fill 32 (u8 1)) (fill 32 (u8 9)) init m_a in
  let '(out, mA2) := pending_handshake_inits ord 1000 wall mA1 in
  ∃ init2 ack2 mB2 mA3 sa sb,
    out = [(id_ed alice, init2)] ∧
    handle_init true ord 1000 wall (fill 32 (u8 2)) [] init2 mB1 = (Ok ack2, mB2) ∧
    handle_ack true ord wall ack2 mA2 = (Ok tt, mA3) ∧
    sessions mA3 !! id_ed alice = Some sa ∧ sessions mB2 !! id_ed bob = Some sb ∧
    established sa = true ∧ established sb = true ∧
    pq_shared sb = Some (kem_encap (kem_ek (PqKeys.dk (id_keys bob))) (fill 32 (u8 1))).2 ∧
    pq_shared sa = Some (kem_encap (kem_ek (PqKeys.dk (id_keys bob))) (fill 32 (u8 2))).2.
Proof.
  apply (lost_ack_splits_secret true ord ord 0 1000 wall wall wall wall wall (fill 32 (u8 1))
    (fill 32 (u8 2)) (fill 32 (u8 9)) [] bob alice m_b m_a priv);
    try first [apply sample_owners | apply sample_idents | apply sample_order | apply sample_clocks]; done.
Defined.
End ManagerWitness.
