(* ===== verification/Onion.v ===== *)
(** * Layered onion packets: [src/onion.rs]

    The rotating key chain of a relay, the cell format, peeling and building.
    The keys a layer draws are arguments.  The receive path of a cell is
    [decode] on the frame without its type byte, then [peel]; a relay sends
    [encode] of the inner packet it decodes. *)

From S2P Require Import Prelude Crypto Varint Cuckoo Packet.

Definition ONION_FORWARD : Z := 0x01.
Definition ONION_DELIVER : Z := 0x00.
Definition ONION_CELL_SIZE : Z := 1280.
Definition ONION_KEY_ROTATION_INTERVAL : Z := 3600 * 1000.

Module OnionKeyChain.
Section Chain.
Context `{X25519} `{Aead} `{Sha512}.

Record t := mk {
  current_priv : bytes;
  current_pub : bytes;
  previous_priv : option bytes;
  rotated_at : Z;
  identity_x_priv : option bytes }.

Definition new (now : Z) (priv : bytes) : t := mk priv (x25519_base priv) None now None.

Definition with_identity_fallback (now : Z) (priv signing_key : bytes) : t :=
  let k := new now priv in
  mk (current_priv k) (current_pub k) (previous_priv k) (rotated_at k)
     (Some (ed25519_priv_to_x25519 signing_key)).

Definition pub_key (k : t) : bytes := current_pub k.

Definition sphinx_privs (k : t) : list bytes :=
  current_priv k :: option_list (previous_priv k) ++ option_list (identity_x_priv k).

Definition rotate (now : Z) (new_priv : bytes) (k : t) : t :=
  mk new_priv (x25519_base new_priv) (Some (current_priv k)) now (identity_x_priv k).

Definition due_for_rotation (now : Z) (k : t) : bool :=
  ONION_KEY_ROTATION_INTERVAL <=? sat_sub now (rotated_at k).

(** One attempt of [try_decrypt]. *)
Definition open_with (priv epk aead_payload : bytes) : option bytes :=
  aead_open (x25519 priv epk) (fill 12 (u8 0)) epk aead_payload.

Definition try_decrypt (k : t) (epk aead_payload : bytes) : res bytes :=
  match open_with (current_priv k) epk aead_payload with
  | Some buf => Ok buf
  | None =>
      match previous_priv k ≫= (λ prev, open_with prev epk aead_payload) with
      | Some buf => Ok buf
      | None =>
          match identity_x_priv k ≫= (λ id_priv, open_with id_priv epk aead_payload) with
          | Some buf => Ok buf
          | None => Err "onion peel: AEAD authentication failed against all available keys"
          end
      end
  end.
End Chain.
End OnionKeyChain.

Inductive PeeledOnion :=
| PForward (inner : bytes)
| PDeliver (traffic : bytes).

Module OnionPacket.
Record t := mk { routing_tag : bytes; epk : bytes; aead_payload : bytes }.

Definition encode_unpadded (p : t) (include_type_byte : bool) : bytes :=
  (if include_type_byte then [u8 TYPE_ONION] else [])
    ++ routing_tag p ++ epk p ++ encode_uvarint (len (aead_payload p)) ++ aead_payload p.

Definition encode (p : t) : bytes :=
  let buf := encode_unpadded p true in
  if len buf <? ONION_CELL_SIZE then buf ++ fill (ONION_CELL_SIZE - len buf) (u8 0) else buf.

Definition encode_inner (p : t) : bytes := encode_unpadded p false.

Definition decode (data : bytes) : res t :=
  bail_if len data <? 48 with "OnionPacket too short";
  routing_tag ← slice data 0 16;
  epk ← slice data 16 48;
  let pos := 48 in
  '(aead_len, n) ← uvarint_at data pos;
  let pos := pos + n in
  bail_if ONION_CELL_SIZE <? aead_len with "OnionPacket aead_len exceeds cell size";
  aead_end ← ok_or (checked_add pos aead_len) "OnionPacket aead_len overflow";
  bail_if len data <? aead_end with "OnionPacket aead_payload truncated";
  aead_payload ← slice data pos aead_end;
  Ok (mk routing_tag epk aead_payload).

(** The length-prefixed content after the type byte of a peeled layer. *)
Definition content (oc : bool) (msg : string) (buf : bytes) : res bytes :=
  '(inner_len, n) ← uvarint_at buf 1;
  end_ ← usize_add oc (1 + n) inner_len;
  bail_if len buf <? end_ with msg;
  slice buf (1 + n) end_.

Definition peel `{X25519} `{Aead} (oc : bool) (p : t) (keys : OnionKeyChain.t) : res PeeledOnion :=
  buf ← OnionKeyChain.try_decrypt keys (epk p) (aead_payload p);
  bail_if len buf =? 0 with "empty onion payload after decrypt";
  ty ← index buf 0;
  if uz ty =? ONION_FORWARD then
    PForward <$> content oc "onion forward payload truncated" buf
  else if uz ty =? ONION_DELIVER then
    PDeliver <$> content oc "onion deliver payload truncated" buf
  else Err "unknown onion type byte".
End OnionPacket.

Record OnionHop := { identity_ed_pub : bytes; ephemeral_x_pub : bytes }.

Section Build.
Context `{X25519} `{Aead} `{Blake2}.

Definition build_layer (epk_priv : bytes) (target : OnionHop) (layer_type : Z) (content : bytes)
    : res OnionPacket.t :=
  let tag := routing_tag (identity_ed_pub target) in
  let epk_pub := x25519_base epk_priv in
  let shared := x25519 epk_priv (ephemeral_x_pub target) in
  let nonce := fill 12 (u8 0) in
  let plaintext := [u8 layer_type] ++ encode_uvarint (len content) ++ content in
  sealed ← ok_or (aead_seal shared nonce epk_pub plaintext) "onion encrypt layer";
  Ok (OnionPacket.mk tag epk_pub sealed).

(** [draws k] is the key drawn for the [k]-th layer built. *)
Fixpoint build_relays (draws : nat → bytes) (k : nat) (rev_relays : list OnionHop)
    (current : OnionPacket.t) : res OnionPacket.t :=
  match rev_relays with
  | [] => Ok current
  | relay :: rev_relays =>
      let inner_bytes := OnionPacket.encode_inner current in
      current ← build_layer (draws k) relay ONION_FORWARD inner_bytes;
      build_relays draws (S k) rev_relays current
  end.

Definition build_onion (draws : nat → bytes) (relays : list OnionHop) (dest : OnionHop)
    (traffic_bytes : bytes) : res OnionPacket.t :=
  current ← build_layer (draws 0%nat) dest ONION_DELIVER traffic_bytes;
  build_relays draws 1 (rev relays) current.
End Build.

(** ** A cell on its way

    [route keys frame] is what the hops that hold [keys], in order, make of a
    received frame: each peels it and, on a relay, sends the next cell.  The
    cells sent between the hops are returned with the delivered bytes. *)
Fixpoint route `{X25519} `{Aead} (oc : bool) (keys : list OnionKeyChain.t) (frame : bytes)
    : res (list bytes * bytes) :=
  match keys with
  | [] => Err "no hop left"
  | k :: keys =>
      data ← slice_from frame 1;
      pkt ← OnionPacket.decode data;
      peeled ← OnionPacket.peel oc pkt k;
      match peeled with
      | PDeliver traffic => Ok ([], traffic)
      | PForward inner_bytes =>
          inner ← OnionPacket.decode inner_bytes;
          let cell := OnionPacket.encode inner in
          '(cells, traffic) ← route oc keys cell;
          Ok (cell :: cells, traffic)
      end
  end.

(** ** Codec *)

Module OnionWire.
Import OnionPacket.

Definition ok (p : t) : Prop :=
  len (routing_tag p) = 16 ∧ len (epk p) = 32 ∧ len (aead_payload p) ≤ ONION_CELL_SIZE.

Lemma decode_encode_inner p rest : ok p → decode (encode_inner p ++ rest) = Ok p.
Proof.
  intros (Ht & He & Hp). unfold ONION_CELL_SIZE in Hp. destruct p as [tag ep pay]. cbn in *.
  unfold encode_inner, encode_unpadded, decode, ONION_CELL_SIZE. cbn.
  rewrite <- !app_assoc. repeat codec_step. rewrite checked_add_small by len_lia. cbn [ok_or]. codec.
Qed.

Lemma len_encode_unpadded p b :
  len (encode_unpadded p b)
  = (if b : bool then 1 else 0) + len (routing_tag p) + len (epk p)
    + len (encode_uvarint (len (aead_payload p))) + len (aead_payload p).
Proof. unfold encode_unpadded. destruct b; rewrite !len_app; len_simpl; lia. Qed.

Lemma len_encode p : len (encode_unpadded p true) ≤ ONION_CELL_SIZE → len (encode p) = ONION_CELL_SIZE.
Proof.
  intros Hl. unfold encode. destruct (Z.ltb_spec (len (encode_unpadded p true)) ONION_CELL_SIZE); [|lia].
  rewrite len_app, len_fill by lia. lia.
Qed.

(** The frame a hop receives decodes to the packet that was sent. *)
Lemma receive p :
  len (routing_tag p) = 16 → len (epk p) = 32 → len (encode_unpadded p true) ≤ ONION_CELL_SIZE →
  slice_from (encode p) 1 ≫= decode = Ok p.
Proof.
  intros Ht He Hl. pose proof (len_encode_unpadded p true) as Hu. cbn iota in Hu.
  pose proof (encode_uvarint_len (len (aead_payload p))).
  assert (∃ pad, encode p = u8 TYPE_ONION :: encode_inner p ++ pad) as [pad ->].
  { unfold encode. change (encode_unpadded p true) with (u8 TYPE_ONION :: encode_inner p).
    destruct (_ <? _); [by eexists|]. exists []. by rewrite app_nil_r. }
  rewrite slice_from_cons, slice_from_start by lia. rewrite bind_Ok.
  apply decode_encode_inner. split_and!; [done..|]. lia.
Qed.

Lemma no_panic_decode_onion data : no_panic (decode data).
Proof. unfold decode. np. Qed.
End OnionWire.

(** ** Layers *)

Section Layers.
Context `{X25519Laws} `{AeadLaws} `{Blake2Laws}.

Lemma build_layer_inv d target ty content p :
  build_layer d target ty content = Ok p →
  OnionPacket.routing_tag p = routing_tag (identity_ed_pub target) ∧ OnionPacket.epk p = x25519_base d ∧
  aead_seal (x25519 d (ephemeral_x_pub target)) (fill 12 (u8 0)) (x25519_base d)
    ([u8 ty] ++ encode_uvarint (len content) ++ content) = Some (OnionPacket.aead_payload p).
Proof. unfold build_layer. intros (s & Hs%ok_or_inv & [= <-])%bind_Ok_inv. done. Qed.

Lemma build_layer_shape d target ty content p :
  build_layer d target ty content = Ok p →
  len (OnionPacket.routing_tag p) = 16 ∧ len (OnionPacket.epk p) = 32 ∧
  len (OnionPacket.aead_payload p) = 1 + len (encode_uvarint (len content)) + len content + 16.
Proof.
  intros (-> & -> & Hs)%build_layer_inv. split_and!.
  - unfold routing_tag. apply blake2b_len.
  - apply x25519_base_len.
  - apply aead_seal_len in Hs. rewrite Hs, !len_app. change (len [u8 ty]) with 1. lia.
Qed.

(** The owner of the key a layer was built for peels it. *)
Lemma peel_layer oc d target ty content p k :
  build_layer d target ty content = Ok p → 0 ≤ len content < 2 ^ 62 →
  ty = ONION_FORWARD ∨ ty = ONION_DELIVER →
  ephemeral_x_pub target = x25519_base (OnionKeyChain.current_priv k) →
  OnionPacket.peel oc p k = Ok (if ty =? ONION_FORWARD then PForward content else PDeliver content).
Proof.
  intros (_ & He & Hs)%build_layer_inv Hl Hty Hk. apply aead_seal_open in Hs.
  unfold OnionPacket.peel, OnionKeyChain.try_decrypt, OnionKeyChain.open_with.
  rewrite Hk, <- x25519_comm in Hs. rewrite He, Hs, bind_Ok.
  pose proof (encode_uvarint_len (len content)).
  assert (∀ msg, OnionPacket.content oc msg (u8 ty :: encode_uvarint (len content) ++ content) = Ok content) as Hc.
  { intros msg. unfold OnionPacket.content. rewrite uvarint_at_cons by lia.
    rewrite uvarint_at_head by lia. cbn [mbind res_bind]. unfold usize_add. test_true.
    cbn [mbind res_bind]. test_false. rewrite slice_cons, slice_drop by lia. by apply slice_whole; lia. }
  test_false. cbn [app]. rewrite index_head by done. rewrite bind_Ok.
  destruct Hty as [-> | ->]; rewrite uz_u8 by (unfold ONION_FORWARD, ONION_DELIVER; lia); cbn [Z.eqb];
    unfold ONION_FORWARD, ONION_DELIVER; cbn -[OnionPacket.content encode_uvarint]; by rewrite Hc.
Qed.

(** A packet that the hops holding [keys] deliver, in cells of constant size. *)
Definition delivered (oc : bool) (keys : list OnionKeyChain.t) (p : OnionPacket.t) (traffic : bytes) : Prop :=
  ∃ cells, route oc keys (OnionPacket.encode p) = Ok (cells, traffic) ∧
    len cells = len keys - 1 ∧ Forall (λ c, len c = ONION_CELL_SIZE) cells.

Lemma delivered_exit oc d target traffic p k keys :
  build_layer d target ONION_DELIVER traffic = Ok p →
  len (OnionPacket.encode_unpadded p true) ≤ ONION_CELL_SIZE →
  ephemeral_x_pub target = x25519_base (OnionKeyChain.current_priv k) → keys = [k] →
  delivered oc keys p traffic.
Proof.
  intros Hb Hl Hk ->. destruct (build_layer_shape _ _ _ _ _ Hb) as (Ht & He & Hp).
  pose proof (OnionWire.receive p Ht He Hl) as (data & Hd & Hr)%bind_Ok_inv.
  exists []. unfold route. rewrite Hd, bind_Ok, Hr, bind_Ok.
  rewrite OnionWire.len_encode_unpadded in Hl. unfold ONION_CELL_SIZE in Hl.
  pose proof (encode_uvarint_len (len (OnionPacket.aead_payload p))).
  pose proof (encode_uvarint_len (len traffic)). pose proof (len_nonneg traffic).
  rewrite (peel_layer oc d target ONION_DELIVER traffic p k Hb) by (lia || done || by right).
  by split_and!.
Qed.

Lemma delivered_relay oc d relay current p k keys traffic :
  build_layer d relay ONION_FORWARD (OnionPacket.encode_inner current) = Ok p →
  len (OnionPacket.encode_unpadded p true) ≤ ONION_CELL_SIZE →
  len (OnionPacket.routing_tag current) = 16 → len (OnionPacket.epk current) = 32 →
  ephemeral_x_pub relay = x25519_base (OnionKeyChain.current_priv k) →
  delivered oc keys current traffic → delivered oc (k :: keys) p traffic.
Proof.
  intros Hb Hl Ht' He' Hk (cells & Hr & Hlen & Hc).
  destruct (build_layer_shape _ _ _ _ _ Hb) as (Ht & He & Hp).
  pose proof (OnionWire.receive p Ht He Hl) as (data & Hd & Hdec)%bind_Ok_inv.
  rewrite OnionWire.len_encode_unpadded in Hl. unfold OnionPacket.encode_inner in Hp.
  pose proof (OnionWire.len_encode_unpadded current false) as Hi.
  pose proof (OnionWire.len_encode_unpadded current true) as Hi'. unfold OnionPacket.encode_inner in Hp.
  pose proof (encode_uvarint_len (len (OnionPacket.aead_payload p))).
  pose proof (encode_uvarint_len (len (OnionPacket.encode_unpadded current false))).
  pose proof (encode_uvarint_len (len (OnionPacket.aead_payload current))). unfold ONION_CELL_SIZE in *.
  exists (OnionPacket.encode current :: cells). cbn [route]. rewrite Hd, bind_Ok, Hdec, bind_Ok.
  pose proof (len_nonneg (OnionPacket.encode_inner current)) as Hnn.
  rewrite (peel_layer oc d relay ONION_FORWARD _ p k Hb)
    by (done || (unfold OnionPacket.encode_inner in *; lia) || by left).
  rewrite bind_Ok. change (ONION_FORWARD =? ONION_FORWARD) with true. cbn iota.
  rewrite <- (app_nil_r (OnionPacket.encode_inner current)), OnionWire.decode_encode_inner
    by (split_and!; [done..|unfold ONION_CELL_SIZE; lia]).
  rewrite bind_Ok, Hr, bind_Ok. split; [done|]. rewrite !len_cons. split; [lia|].
  constructor; [|done]. apply OnionWire.len_encode. unfold ONION_CELL_SIZE. lia.
Qed.

(** Each layer is larger than what it wraps. *)
Lemma build_relays_grow draws rr : ∀ k current p,
  build_relays draws k rr current = Ok p →
  len (OnionPacket.routing_tag current) = 16 → len (OnionPacket.epk current) = 32 →
  len (OnionPacket.encode_unpadded current true) ≤ len (OnionPacket.encode_unpadded p true).
Proof.
  induction rr as [|r rr IH]; intros k current p Hb Ht He; [by injection Hb as <-|].
  cbn [build_relays] in Hb. apply bind_Ok_inv in Hb as (c & Hc & Hb).
  destruct (build_layer_shape _ _ _ _ _ Hc) as (Ht' & He' & Hp).
  etrans; [|by eapply IH]. unfold OnionPacket.encode_inner in Hp.
  pose proof (OnionWire.len_encode_unpadded current false).
  rewrite (OnionWire.len_encode_unpadded current), (OnionWire.len_encode_unpadded c).
  cbn iota in *. pose proof (encode_uvarint_len (len (OnionPacket.aead_payload c))).
  pose proof (encode_uvarint_len (len (OnionPacket.encode_unpadded current false))). lia.
Qed.

Lemma build_relays_delivered oc draws traffic rr : ∀ krr k current keys p,
  build_relays draws k rr current = Ok p →
  len (OnionPacket.encode_unpadded p true) ≤ ONION_CELL_SIZE →
  Forall2 (λ r kc, ephemeral_x_pub r = x25519_base (OnionKeyChain.current_priv kc)) rr krr →
  len (OnionPacket.routing_tag current) = 16 → len (OnionPacket.epk current) = 32 →
  delivered oc keys current traffic → delivered oc (rev krr ++ keys) p traffic.
Proof.
  induction rr as [|r rr IH]; intros krr k current keys p Hb Hl Hf Ht He Hd.
  { apply Forall2_nil_inv_l in Hf as ->. by injection Hb as <-. }
  apply Forall2_cons_inv_l in Hf as (kc & krr' & Hk & Hf & ->).
  cbn [build_relays] in Hb. apply bind_Ok_inv in Hb as (c & Hc & Hb).
  destruct (build_layer_shape _ _ _ _ _ Hc) as (Ht' & He' & _).
  cbn [rev]. rewrite <- app_assoc. eapply IH; [done..|].
  eapply delivered_relay; [done| |done..]. etrans; [|done]. by eapply build_relays_grow.
Qed.

Lemma build_onion_delivered oc draws relays dest traffic p krelays kdest :
  build_onion draws relays dest traffic = Ok p →
  len (OnionPacket.encode_unpadded p true) ≤ ONION_CELL_SIZE →
  Forall2 (λ r kc, ephemeral_x_pub r = x25519_base (OnionKeyChain.current_priv kc)) relays krelays →
  ephemeral_x_pub dest = x25519_base (OnionKeyChain.current_priv kdest) →
  delivered oc (krelays ++ [kdest]) p traffic.
Proof.
  intros (c & Hc & Hb)%bind_Ok_inv Hl Hf Hk.
  destruct (build_layer_shape _ _ _ _ _ Hc) as (Ht & He & _).
  pose proof (build_relays_delivered oc draws traffic (rev relays) (rev krelays) 1 c [kdest] p Hb Hl) as Hd.
  rewrite rev_involutive in Hd. apply Hd; [|done..|].
  - rewrite !rev_alt. by apply Forall2_reverse.
  - eapply delivered_exit; [done| |done..]. etrans; [|done]. by eapply build_relays_grow.
Qed.

(** A layer built for a key that has rotated out, or for the identity key, still
    opens, as long as the keys tried first reject it. *)
Lemma try_decrypt_previous k prev epk ct pt :
  OnionKeyChain.previous_priv k = Some prev →
  OnionKeyChain.open_with (OnionKeyChain.current_priv k) epk ct = None →
  OnionKeyChain.open_with prev epk ct = Some pt → OnionKeyChain.try_decrypt k epk ct = Ok pt.
Proof. intros Hp Hc Ho. unfold OnionKeyChain.try_decrypt. rewrite Hc, Hp. cbn. by rewrite Ho. Qed.
End Layers.

(** ** Properties *)

(** An onion reaches its destination: for every list of relays whose current
    keys the sender used, a packet that [build_onion] returns and that fits
    into a cell is forwarded by each relay in turn and delivered by the
    destination with exactly the sender's bytes, and every cell on the wire
    has the constant size of 1280 bytes. *)
Theorem onion_delivery `{X25519Laws} `{AeadLaws} `{Blake2Laws} oc draws relays dest traffic p krelays kdest :
  build_onion draws relays dest traffic = Ok p →
  len (OnionPacket.encode_unpadded p true) ≤ ONION_CELL_SIZE →
  Forall2 (λ r kc, ephemeral_x_pub r = x25519_base (OnionKeyChain.current_priv kc)) relays krelays →
  ephemeral_x_pub dest = x25519_base (OnionKeyChain.current_priv kdest) →
  len (OnionPacket.encode p) = ONION_CELL_SIZE ∧
  ∃ cells, route oc (krelays ++ [kdest]) (OnionPacket.encode p) = Ok (cells, traffic) ∧
    len cells = len relays ∧ Forall (λ c, len c = ONION_CELL_SIZE) cells.
Proof.
  intros Hb Hl Hf Hk. split; [by apply OnionWire.len_encode|].
  destruct (build_onion_delivered oc _ _ _ _ _ _ _ Hb Hl Hf Hk) as (cells & Hr & Hc & Hs).
  exists cells. split; [done|]. split; [|done]. rewrite Hc, len_app.
  apply Forall2_length in Hf. unfold len. cbn. lia.
Qed.

(** A rotation keeps the previous key for exactly one period: right after it,
    layers for the old key still open when the new key rejects them, and the
    next rotation forgets that key. *)
Theorem onion_key_rotation `{X25519Laws} `{AeadLaws} k now now' p1 p2 epk ct pt :
  let k1 := OnionKeyChain.rotate now p1 k in
  let k2 := OnionKeyChain.rotate now' p2 k1 in
  OnionKeyChain.pub_key k1 = x25519_base p1 ∧
  (OnionKeyChain.open_with (OnionKeyChain.current_priv k) epk ct = Some pt →
   OnionKeyChain.open_with p1 epk ct = None → OnionKeyChain.try_decrypt k1 epk ct = Ok pt) ∧
  OnionKeyChain.sphinx_privs k2 = [p2; p1] ++ option_list (OnionKeyChain.identity_x_priv k) ∧
  (OnionKeyChain.due_for_rotation now' k1 = true ↔ ONION_KEY_ROTATION_INTERVAL ≤ now' - now).
Proof.
  cbn zeta. split_and!; [done| |done|].
  - intros Ho Hn. by eapply try_decrypt_previous.
  - unfold OnionKeyChain.due_for_rotation, sat_sub. cbn. rewrite Z.leb_le.
    unfold ONION_KEY_ROTATION_INTERVAL. lia.
Qed.

(** A sender who knows a relay's key can make it panic: a layer whose content
    length is declared as [2^64 - 1] overflows [1 + n + len], with overflow
    checks or without. *)
Theorem onion_peel_overflow `{X25519Laws} `{AeadLaws} oc d k tag ct :
  aead_seal (x25519 d (x25519_base (OnionKeyChain.current_priv k))) (fill 12 (u8 0)) (x25519_base d)
    (u8 ONION_FORWARD :: encode_uvarint U64_MAX) = Some ct →
  OnionPacket.peel oc (OnionPacket.mk tag (x25519_base d) ct) k = Panic.
Proof.
  intros Hs%aead_seal_open. unfold OnionPacket.peel, OnionKeyChain.try_decrypt, OnionKeyChain.open_with.
  cbn [OnionPacket.epk OnionPacket.aead_payload]. rewrite <- x25519_comm in Hs. rewrite Hs, bind_Ok.
  by destruct oc; vm_compute.
Qed.

Section OnionWitness.
Import Toy.

Let chain (n : Z) := OnionKeyChain.new 0 (fill 32 (u8 n)).
Let hop (n : Z) := {| identity_ed_pub := fill 32 (u8 (n + 100));
                      ephemeral_x_pub := x25519_base (fill 32 (u8 n)) |}.
Let draws (k : nat) := fill 32 (u8 (Z.of_nat k + 50)).

Lemma onion_delivery_witness :
  ∃ p cells, build_onion draws [hop 1; hop 2] (hop 3) (bstr "traffic") = Ok p ∧
    route true [chain 1; chain 2; chain 3] (OnionPacket.encode p) = Ok (cells, bstr "traffic") ∧ len cells = 2.
Proof.
  destruct (build_onion draws [hop 1; hop 2] (hop 3) (bstr "traffic")) as [p| |] eqn:E;
    [|by apply (f_equal is_ok) in E; vm_compute in E..].
  destruct (onion_delivery true draws [hop 1; hop 2] (hop 3) (bstr "traffic") p [chain 1; chain 2] (chain 3) E)
    as (_ & cells & Hr & Hl & _).
  - assert (p = match build_onion draws [hop 1; hop 2] (hop 3) (bstr "traffic") with Ok p => p | _ => p end) as ->
      by by rewrite E.
    clear E. by vm_compute.
  - by repeat constructor.
  - done.
  - by exists p, cells.
Defined.

Lemma onion_peel_overflow_witness :
  ∃ ct, OnionPacket.peel false (OnionPacket.mk [] (x25519_base (draws 0)) ct) (chain 1) = Panic.
Proof.
  destruct (aead_seal (x25519 (draws 0) (x25519_base (OnionKeyChain.current_priv (chain 1))))
    (fill 12 (u8 0)) (x25519_base (draws 0)) (u8 ONION_FORWARD :: encode_uvarint U64_MAX)) as [ct|] eqn:E;
    [|by vm_compute in E].
  exists ct. by apply (onion_peel_overflow false (draws 0) (chain 1) [] ct).
Defined.
End OnionWitness.
