(* ===== verification/Sphinx.v ===== *)
(** * Fixed-size onion cells: [src/sphinx.rs]

    The constant-size routing header kept by the filler construction, the LIONESS
    wide-block cipher over the payload, [build_sphinx], [process_sphinx] and
    the replay digest.  Random bytes are the fields of [Draws]; [debug] says
    whether [debug_assert!] is compiled in.

    The main theorem follows a cell through all its hops: the header that a hop
    unwraps is exactly the header the sender authenticated for the next one. *)

From S2P Require Import Prelude Xor Crypto Varint Cuckoo Packet Onion.

Definition TYPE_ONION_SPHINX : Z := 0x10.
Definition MAX_HOPS : Z := 5.
Definition EPK_LEN : Z := 32.
Definition TAG_LEN : Z := 16.
Definition MAC_LEN : Z := 16.
Definition FLAGS_LEN : Z := 1.
Definition HOP_PAYLOAD : Z := FLAGS_LEN + TAG_LEN + EPK_LEN.
Definition PER_HOP : Z := HOP_PAYLOAD + MAC_LEN.
Definition BETA_LEN : Z := PER_HOP * MAX_HOPS.
Definition HEADER_LEN : Z := EPK_LEN + MAC_LEN + BETA_LEN.
Definition CELL_SIZE : Z := ONION_CELL_SIZE.
Definition PAYLOAD_LEN : Z := CELL_SIZE - 1 - TAG_LEN - HEADER_LEN.
Definition FLAG_FORWARD : Z := 0x00.
Definition FLAG_EXIT : Z := 0x01.
Definition OFF_TAG : Z := 1.
Definition OFF_EPK : Z := OFF_TAG + TAG_LEN.
Definition OFF_GAMMA : Z := OFF_EPK + EPK_LEN.
Definition OFF_BETA : Z := OFF_GAMMA + MAC_LEN.
Definition OFF_PAYLOAD : Z := OFF_BETA + BETA_LEN.
Definition MAX_TRAFFIC_LEN : Z := PAYLOAD_LEN - 2.
Definition LIONESS_L : Z := 32.

Record SphinxHop := { hop_tag : bytes; onion_pub : bytes }.

Inductive SphinxPeeled :=
| SForward (next_tag cell : bytes)
| SDeliver (traffic : bytes).

(** The random bytes a build draws: the ephemeral keys, the initial header, the
    body of the exit's routing block and the padding of the payload. *)
Record Draws := { eph : nat → bytes; beta_rnd : bytes; exit_rnd : bytes; pad_rnd : bytes }.

Section Sphinx.
Context `{Blake2} `{Blake2Mac} `{ChaCha20} `{X25519}.

(** ** Key schedule *)

Definition kdf (label s : bytes) : bytes := blake2b 32 (label ++ s).
Definition rho_key (s : bytes) : bytes := kdf (bstr "norn-sphinx:rho:v1") s.
Definition mu_key (s : bytes) : bytes := kdf (bstr "norn-sphinx:mu:v1") s.
Definition lioness_keys (s : bytes) : bytes * bytes * bytes * bytes :=
  (kdf (bstr "norn-sphinx:lion1:v1") s, kdf (bstr "norn-sphinx:lion2:v1") s,
   kdf (bstr "norn-sphinx:lion3:v1") s, kdf (bstr "norn-sphinx:lion4:v1") s).

Definition chacha_apply (key buf : bytes) : bytes :=
  xor_into buf (chacha20 key (fill 12 (u8 0)) (length buf)).
Definition chacha_keystream (key : bytes) (n : Z) : bytes := chacha_apply key (fill n (u8 0)).
Definition mac16 (key msg : bytes) : bytes := blake2b_mac 16 key msg.
Definition mac32 (key msg : bytes) : bytes := blake2b_mac 32 key msg.

(** ** LIONESS *)

(** [a[i] ^ b[i]] for [i] below 32. *)
Definition xor32 (a b : bytes) : bytes := xor_into a b.

Definition lion_enc (s l r : bytes) : bytes * bytes :=
  let '(k1, k2, k3, k4) := lioness_keys s in
  let r := xor_into r (chacha_keystream (xor32 l k1) (len r)) in
  let l := xor_into l (mac32 k2 r) in
  let r := xor_into r (chacha_keystream (xor32 l k3) (len r)) in
  let l := xor_into l (mac32 k4 r) in
  (l, r).

Definition lion_dec (s l r : bytes) : bytes * bytes :=
  let '(k1, k2, k3, k4) := lioness_keys s in
  let l := xor_into l (mac32 k4 r) in
  let r := xor_into r (chacha_keystream (xor32 l k3) (len r)) in
  let l := xor_into l (mac32 k2 r) in
  let r := xor_into r (chacha_keystream (xor32 l k1) (len r)) in
  (l, r).

(** [split_at_mut] panics on a buffer shorter than the left half. *)
Definition on_halves (debug : bool) (f : bytes → bytes → bytes * bytes) (buf : bytes) : res bytes :=
  if debug && (len buf <=? LIONESS_L) then Panic else
  l ← slice buf 0 LIONESS_L;
  r ← slice_from buf LIONESS_L;
  let '(l, r) := f l r in Ok (l ++ r).

Definition lioness_encrypt (debug : bool) (s buf : bytes) : res bytes :=
  on_halves debug (lion_enc s) buf.
Definition lioness_decrypt (debug : bool) (s buf : bytes) : res bytes :=
  on_halves debug (lion_dec s) buf.

Definition x25519_shared (local remote_pub : bytes) : bytes := x25519 local remote_pub.

(** ** Building a cell *)

(** One iteration of the filler loop; [filler] never outgrows the stream. *)
Definition filler_step (filler s : bytes) : bytes :=
  let filler := filler ++ fill PER_HOP (u8 0) in
  let stream := chacha_keystream (rho_key s) (BETA_LEN + PER_HOP) in
  xor_into filler (drop (Z.to_nat (BETA_LEN + PER_HOP - len filler)) stream).

(** A hop with its ephemeral key and shared secret. *)
Record HopKeys := { hk_hop : SphinxHop; hk_epk : bytes; hk_secret : bytes }.

Definition hop_keys (d : Draws) (hops : list SphinxHop) : list HopKeys :=
  imap (λ i hop, {| hk_hop := hop; hk_epk := x25519_base (eph d i);
                    hk_secret := x25519_shared (eph d i) (onion_pub hop) |}) hops.

(** The loop over the hops from the last to the first: the header of the first
    hop of [hops] and its MAC. *)
Fixpoint build_beta (d : Draws) (filler : bytes) (hops : list HopKeys) : bytes * bytes :=
  match hops with
  | [] => (beta_rnd d, fill MAC_LEN (u8 0))
  | h :: rest =>
      let '(beta, mac_acc) := build_beta d filler rest in
      let hop_payload :=
        match rest with
        | [] => [u8 FLAG_EXIT] ++ exit_rnd d
        | next :: _ => [u8 FLAG_FORWARD] ++ hop_tag (hk_hop next) ++ hk_epk next
        end in
      let newbeta := hop_payload ++ mac_acc ++ take (Z.to_nat (BETA_LEN - PER_HOP)) beta in
      let stream := chacha_keystream (rho_key (hk_secret h)) BETA_LEN in
      let newbeta := xor_into newbeta stream in
      let newbeta :=
        match rest with
        | [] => if len filler =? 0 then newbeta
                else take (Z.to_nat (BETA_LEN - len filler)) newbeta ++ filler
        | _ => newbeta
        end in
      (newbeta, mac16 (mu_key (hk_secret h)) newbeta)
  end.

Fixpoint encrypt_payload (debug : bool) (hops : list HopKeys) (payload : bytes) : res bytes :=
  match hops with
  | [] => Ok payload
  | h :: hops =>
      payload ← encrypt_payload debug hops payload;
      lioness_encrypt debug (hk_secret h) payload
  end.

Definition cell_of (tag epk gamma beta payload : bytes) : bytes :=
  [u8 TYPE_ONION_SPHINX] ++ tag ++ epk ++ gamma ++ beta ++ payload.

Definition build_sphinx (debug : bool) (d : Draws) (hops : list SphinxHop) (traffic : bytes)
    : res bytes :=
  let nu := len hops in
  bail_if (nu =? 0) || (MAX_HOPS <? nu) with "sphinx build: hop count out of range";
  bail_if MAX_TRAFFIC_LEN <? len traffic with "sphinx build: traffic too long";
  let keys := hop_keys d hops in
  let filler := foldl filler_step [] (take (Z.to_nat (nu - 1)) (map hk_secret keys)) in
  let '(beta, mac_acc) := build_beta d filler keys in
  let payload := to_le_bytes 2 (wrap16 (len traffic)) ++ traffic ++ pad_rnd d in
  payload ← encrypt_payload debug keys payload;
  match keys with
  | [] => Panic
  | k0 :: _ =>
      let cell := cell_of (hop_tag (hk_hop k0)) (hk_epk k0) mac_acc beta payload in
      if debug && negb (len cell =? CELL_SIZE) then Panic else Ok cell
  end.

(** ** Processing a cell *)

(** The key whose MAC authenticates the header. *)
Fixpoint find_secret (onion_privs : list bytes) (epk gamma beta : bytes) : option bytes :=
  match onion_privs with
  | [] => None
  | priv :: onion_privs =>
      let s := x25519_shared priv epk in
      if bool_decide (mac16 (mu_key s) beta = gamma) then Some s
      else find_secret onion_privs epk gamma beta
  end.

(** The rest of [process_sphinx], once the secret is known: unwrap one layer of the
    header and of the payload. *)
Definition peel_cell (debug : bool) (s beta payload : bytes) : res SphinxPeeled :=
  let stream := chacha_keystream (rho_key s) (BETA_LEN + PER_HOP) in
  let b := xor_into (beta ++ fill PER_HOP (u8 0)) stream in
  flags ← index b 0;
  next_tag ← slice b FLAGS_LEN (FLAGS_LEN + TAG_LEN);
  next_epk ← slice b (FLAGS_LEN + TAG_LEN) HOP_PAYLOAD;
  next_mac ← slice b HOP_PAYLOAD PER_HOP;
  beta2 ← slice b PER_HOP (PER_HOP + BETA_LEN);
  pl ← lioness_decrypt debug s payload;
  if uz flags =? FLAG_EXIT then
    len_bytes ← slice pl 0 2;
    let orig_len := from_le_bytes len_bytes in
    bail_if len pl <? 2 + orig_len with "sphinx process: bad inner payload length";
    SDeliver <$> slice pl 2 (2 + orig_len)
  else if uz flags =? FLAG_FORWARD then
    let next_cell := cell_of next_tag next_epk next_mac beta2 pl in
    if debug && negb (len next_cell =? CELL_SIZE) then Panic
    else Ok (SForward next_tag next_cell)
  else Err "sphinx process: unknown flags byte".

Definition process_sphinx (debug : bool) (cell : bytes) (onion_privs : list bytes)
    : res SphinxPeeled :=
  bail_if negb (len cell =? CELL_SIZE) with "sphinx process: wrong cell size";
  ty ← index cell 0;
  bail_if negb (uz ty =? TYPE_ONION_SPHINX) with "sphinx process: wrong type byte";
  epk ← slice cell OFF_EPK (OFF_EPK + EPK_LEN);
  gamma ← slice cell OFF_GAMMA (OFF_GAMMA + MAC_LEN);
  beta ← slice cell OFF_BETA (OFF_BETA + BETA_LEN);
  payload ← slice_from cell OFF_PAYLOAD;
  s ← ok_or (find_secret onion_privs epk gamma beta) "sphinx process: MAC mismatch (not for us)";
  peel_cell debug s beta payload.

Definition replay_digest (cell : bytes) : res (option bytes) :=
  if negb (len cell =? CELL_SIZE) then Ok None else
  epk ← slice cell OFF_EPK (OFF_EPK + EPK_LEN);
  beta16 ← slice cell OFF_BETA (OFF_BETA + 16);
  Ok (Some (blake2b 32 (bstr "norn:sphinx-replay" ++ epk ++ beta16))).

(** ** A cell on its way

    Each hop, with the keys it tries, processes the cell and sends the result to
    the tag it found; the sent cells are returned with the delivered bytes. *)
Fixpoint sphinx_route (debug : bool) (privs : list (list bytes)) (cell : bytes)
    : res (list (bytes * bytes) * bytes) :=
  match privs with
  | [] => Err "no hop left"
  | p :: privs =>
      peeled ← process_sphinx debug cell p;
      match peeled with
      | SDeliver traffic => Ok ([], traffic)
      | SForward tag cell =>
          '(cells, traffic) ← sphinx_route debug privs cell;
          Ok ((tag, cell) :: cells, traffic)
      end
  end.
End Sphinx.

Ltac sizes :=
  unfold CELL_SIZE, ONION_CELL_SIZE, MAX_TRAFFIC_LEN, OFF_PAYLOAD, OFF_BETA, OFF_GAMMA, OFF_EPK, OFF_TAG,
    PAYLOAD_LEN, HEADER_LEN, BETA_LEN, PER_HOP, HOP_PAYLOAD, FLAGS_LEN, TAG_LEN, MAC_LEN, EPK_LEN,
    MAX_HOPS, LIONESS_L, CELL_SIZE, ONION_CELL_SIZE in *.

Section Lemmas.
Context `{Blake2Laws} `{Blake2MacLaws} `{ChaCha20Laws} `{X25519Laws}.

(** ** Keystreams and the wide-block cipher *)

Lemma chacha_keystream_eq k n : 0 ≤ n → chacha_keystream k n = chacha20 k (fill 12 (u8 0)) (Z.to_nat n).
Proof.
  intros Hn. unfold chacha_keystream, chacha_apply.
  assert (length (fill n (u8 0)) = Z.to_nat n) as -> by apply length_replicate.
  apply xor_into_zero. rewrite chacha20_len. lia.
Qed.

Lemma len_keystream k n : 0 ≤ n → len (chacha_keystream k n) = n.
Proof. intros. rewrite chacha_keystream_eq, chacha20_len by done. lia. Qed.

Lemma keystream_prefix k n m :
  0 ≤ n ≤ m → take (Z.to_nat n) (chacha_keystream k m) = chacha_keystream k n.
Proof. intros. rewrite !chacha_keystream_eq by lia. apply chacha20_prefix. lia. Qed.

Lemma lion_dec_enc s l r : let '(l', r') := lion_enc s l r in lion_dec s l' r' = (l, r).
Proof.
  unfold lion_enc, lion_dec. destruct (lioness_keys s) as [[[k1 k2] k3] k4].
  rewrite !xor_into_cancel, !len_xor_into, !xor_into_cancel. done.
Qed.

Lemma lion_enc_len s l r :
  let '(l', r') := lion_enc s l r in len l' = len l ∧ len r' = len r.
Proof.
  unfold lion_enc. destruct (lioness_keys s) as [[[k1 k2] k3] k4]. by rewrite !len_xor_into.
Qed.
Lemma lion_dec_len s l r :
  let '(l', r') := lion_dec s l r in len l' = len l ∧ len r' = len r.
Proof.
  unfold lion_dec. destruct (lioness_keys s) as [[[k1 k2] k3] k4]. by rewrite !len_xor_into.
Qed.

Lemma on_halves_app debug f l r :
  len l = LIONESS_L → 0 < len r → on_halves debug f (l ++ r) = Ok ((f l r).1 ++ (f l r).2).
Proof.
  intros Hl Hr. unfold on_halves.
  assert ((len (l ++ r) <=? LIONESS_L) = false) as -> by (apply Z.leb_gt; rewrite len_app; lia).
  rewrite andb_false_r, slice_take by done. rewrite bind_Ok, slice_from_at by done.
  rewrite bind_Ok. by destruct (f l r).
Qed.

Lemma split_32 (buf : bytes) : LIONESS_L < len buf → ∃ l r, buf = l ++ r ∧ len l = LIONESS_L ∧ 0 < len r.
Proof.
  intros Hb. exists (take 32 buf), (drop 32 buf). rewrite take_drop, len_take, len_drop.
  sizes. split; [done|]. lia.
Qed.

(** The wide-block cipher is length-preserving and decryption inverts it. *)
Lemma lioness_roundtrip debug s buf :
  LIONESS_L < len buf →
  ∃ c, lioness_encrypt debug s buf = Ok c ∧ len c = len buf ∧ lioness_decrypt debug s c = Ok buf.
Proof.
  intros (l & r & -> & Hl & Hr)%split_32. unfold lioness_encrypt, lioness_decrypt.
  rewrite on_halves_app by done. pose proof (lion_enc_len s l r) as Hlen.
  pose proof (lion_dec_enc s l r) as Hdec. destruct (lion_enc s l r) as [l' r']. destruct Hlen as [El Er].
  cbn [fst snd]. eexists. split; [done|]. split; [rewrite !len_app; lia|].
  rewrite on_halves_app by lia. by rewrite Hdec.
Qed.

Lemma lioness_decrypt_total debug s buf :
  LIONESS_L < len buf → ∃ p, lioness_decrypt debug s buf = Ok p ∧ len p = len buf.
Proof.
  intros (l & r & -> & Hl & Hr)%split_32. unfold lioness_decrypt. rewrite on_halves_app by done.
  pose proof (lion_dec_len s l r) as Hlen. destruct (lion_dec s l r) as [l' r'].
  eexists. split; [done|]. cbn. rewrite !len_app. lia.
Qed.

(** ** The filler *)

Lemma len_filler_step f s : len (filler_step f s) = len f + PER_HOP.
Proof. unfold filler_step. rewrite len_xor_into, len_app, len_fill by (sizes; lia). lia. Qed.

(** The stream of a hop, as the sender and the hop cut it. *)
Abbreviation stream s := (chacha_keystream (rho_key s) (BETA_LEN + PER_HOP)).

Lemma filler_step_split f s i :
  len f = i * PER_HOP → 0 ≤ i < MAX_HOPS →
  filler_step f s
  = xor_into f (take (Z.to_nat (i * PER_HOP)) (drop (Z.to_nat (BETA_LEN - i * PER_HOP)) (stream s)))
    ++ drop (Z.to_nat BETA_LEN) (stream s).
Proof.
  intros Hf Hi. unfold filler_step.
  assert (len (stream s) = BETA_LEN + PER_HOP) as Hs by (apply len_keystream; sizes; lia).
  rewrite len_app, len_fill, Hf by (sizes; lia).
  replace (BETA_LEN + PER_HOP - (i * PER_HOP + PER_HOP)) with (BETA_LEN - i * PER_HOP) by lia.
  set (tail := drop (Z.to_nat (BETA_LEN - i * PER_HOP)) (stream s)).
  rewrite <- (take_drop (Z.to_nat (i * PER_HOP)) tail) at 1.
  rewrite xor_into_app.
  - f_equal. unfold tail. rewrite drop_drop.
    replace (Z.to_nat (BETA_LEN - i * PER_HOP) + Z.to_nat (i * PER_HOP))%nat with (Z.to_nat BETA_LEN)
      by (sizes; lia).
    apply xor_into_zero. rewrite len_drop, Hs. sizes. lia.
  - unfold tail. rewrite len_take, len_drop, Hs. sizes. lia.
Qed.

(** ** The header *)

Definition hk_ok (h : HopKeys) : Prop := len (hop_tag (hk_hop h)) = TAG_LEN ∧ len (hk_epk h) = EPK_LEN.
Record draws_ok (d : Draws) : Prop := {
  do_beta : len (beta_rnd d) = BETA_LEN;
  do_exit : len (exit_rnd d) = HOP_PAYLOAD - FLAGS_LEN }.

(** The routing block of a hop, before encryption. *)
Definition block (d : Draws) (rest : list HopKeys) : bytes :=
  match rest with
  | [] => [u8 FLAG_EXIT] ++ exit_rnd d
  | next :: _ => [u8 FLAG_FORWARD] ++ hop_tag (hk_hop next) ++ hk_epk next
  end.

Lemma len_block d rest : draws_ok d → Forall hk_ok rest → len (block d rest) = HOP_PAYLOAD.
Proof.
  intros [_ He] Hr. destruct rest as [|n rest]; cbn [block].
  - rewrite len_app, He. change (len [u8 FLAG_EXIT]) with 1. sizes. lia.
  - apply Forall_cons in Hr as [[Ht Hk] _]. rewrite !len_app, Ht, Hk. by change (len [u8 FLAG_FORWARD]) with 1.
Qed.

Lemma build_beta_len d filler hops :
  draws_ok d → Forall hk_ok hops → len filler ≤ BETA_LEN →
  len (build_beta d filler hops).1 = BETA_LEN ∧ len (build_beta d filler hops).2 = MAC_LEN.
Proof.
  intros Hd Hh Hf. induction Hh as [|h rest Hh Hr IH]; [by destruct Hd|].
  cbn [build_beta]. fold (block d rest). destruct (build_beta d filler rest) as [beta mac].
  destruct IH as [Hb Hm]. cbn [fst snd] in *. split; [|apply blake2b_mac_len].
  pose proof (len_block d rest Hd Hr) as Hbl.
  set (nb := xor_into _ _).
  assert (len nb = BETA_LEN) as Hnb.
  { unfold nb. rewrite len_xor_into, !len_app, len_take, Hbl, Hm, Hb. sizes. lia. }
  destruct rest; [|done]. case_match; [done|]. pose proof (len_nonneg filler).
  rewrite len_app, len_take, Hnb. lia.
Qed.

(** Header of a relay: the encrypted block, MAC and header of the next hop. *)
Lemma build_beta_relay d filler h n rest :
  let '(beta', mac') := build_beta d filler (n :: rest) in
  (build_beta d filler (h :: n :: rest)).1
  = xor_into (block d (n :: rest) ++ mac' ++ take (Z.to_nat (BETA_LEN - PER_HOP)) beta')
      (take (Z.to_nat BETA_LEN) (stream (hk_secret h))).
Proof.
  change (build_beta d filler (h :: n :: rest)) with
    (let '(beta, mac_acc) := build_beta d filler (n :: rest) in
     let newbeta := xor_into (block d (n :: rest) ++ mac_acc ++ take (Z.to_nat (BETA_LEN - PER_HOP)) beta)
       (chacha_keystream (rho_key (hk_secret h)) BETA_LEN) in
     (newbeta, mac16 (mu_key (hk_secret h)) newbeta)).
  destruct (build_beta d filler (n :: rest)) as [beta' mac']. cbn [fst].
  rewrite keystream_prefix by (sizes; lia). done.
Qed.

(** Header of the exit: a block of its own, and the filler at its end. *)
Lemma build_beta_exit d f h i :
  draws_ok d → hk_ok h → len f = i * PER_HOP → 0 ≤ i < MAX_HOPS →
  ∃ x, (build_beta d f [h]).1 = xor_into (block d []) (stream (hk_secret h)) ++ x ++ f ∧
    len x = BETA_LEN - HOP_PAYLOAD - i * PER_HOP.
Proof.
  intros Hd Hh Hf Hi. pose proof (len_block d [] Hd ltac:(done)) as Hb.
  assert (len (stream (hk_secret h)) = BETA_LEN + PER_HOP) as Hs by (apply len_keystream; sizes; lia).
  cbn [build_beta]. fold (block d []). rewrite <- (keystream_prefix _ BETA_LEN (BETA_LEN + PER_HOP)) by (sizes; lia).
  set (ks := take (Z.to_nat BETA_LEN) (stream (hk_secret h))).
  assert (len ks = BETA_LEN) as Hks by (unfold ks; rewrite len_take, Hs; sizes; lia).
  set (tl := fill MAC_LEN (u8 0) ++ take (Z.to_nat (BETA_LEN - PER_HOP)) (beta_rnd d)).
  assert (len tl = BETA_LEN - HOP_PAYLOAD) as Htl.
  { unfold tl. rewrite len_app, len_fill, len_take, (do_beta _ Hd) by (sizes; lia). sizes. lia. }
  set (k1 := take (Z.to_nat HOP_PAYLOAD) ks). set (k2 := drop (Z.to_nat HOP_PAYLOAD) ks).
  assert (xor_into (block d [] ++ tl) ks = xor_into (block d []) (stream (hk_secret h)) ++ xor_into tl k2) as ->.
  { rewrite <- (take_drop (Z.to_nat HOP_PAYLOAD) ks). fold k1 k2. rewrite xor_into_app.
    - f_equal. unfold k1, ks. rewrite take_take. rewrite <- (take_drop (Z.to_nat HOP_PAYLOAD) (stream (hk_secret h))) at 2.
      rewrite xor_into_long; [do 2 f_equal; sizes; lia|]. rewrite len_take, Hs, Hb. sizes. lia.
    - unfold k1. rewrite len_take, Hb, Hks. sizes. lia. }
  cbn [fst]. destruct (Z.eqb_spec (len f) 0) as [E|E].
  - apply len_zero_nil in E as ->. rewrite len_nil in Hf. assert (i = 0) as -> by (sizes; lia).
    exists (xor_into tl k2). rewrite app_nil_r. split; [done|]. rewrite len_xor_into, Htl. lia.
  - exists (take (Z.to_nat (BETA_LEN - HOP_PAYLOAD - i * PER_HOP)) (xor_into tl k2)). split.
    + rewrite take_app, Hf. rewrite take_ge by (apply Nat2Z.inj_le; fold (len (xor_into (block d []) (stream (hk_secret h))));
        rewrite len_xor_into, Hb; sizes; lia).
      rewrite <- app_assoc. do 2 f_equal. f_equal.
      assert (Z.of_nat (length (xor_into (block d []) (stream (hk_secret h)))) = HOP_PAYLOAD) as El
        by (fold (len (xor_into (block d []) (stream (hk_secret h)))); by rewrite len_xor_into).
      sizes. lia.
    + rewrite len_take, len_xor_into, Htl. sizes. lia.
Qed.

Lemma len_filler secrets : ∀ f, len (foldl filler_step f secrets) = len f + len secrets * PER_HOP.
Proof.
  induction secrets as [|s secrets IH]; intros f; cbn [foldl]; [change (len []) with 0; lia|].
  rewrite IH, len_filler_step, len_cons. lia.
Qed.

(** Unwrapping a relay's header yields the next hop's block, MAC and header,
    when the end of that header is the filler of the hops so far. *)
Lemma unwrap_relay d filler h n rest f i :
  draws_ok d → Forall hk_ok (n :: rest) → len filler ≤ BETA_LEN → len f = i * PER_HOP → 0 ≤ i → i + 1 < MAX_HOPS →
  let '(beta', mac') := build_beta d filler (n :: rest) in
  drop (Z.to_nat (BETA_LEN - (i + 1) * PER_HOP)) beta' = filler_step f (hk_secret h) →
  xor_into ((build_beta d filler (h :: n :: rest)).1 ++ fill PER_HOP (u8 0)) (stream (hk_secret h))
    = block d (n :: rest) ++ mac' ++ beta' ∧
  drop (Z.to_nat (BETA_LEN - i * PER_HOP)) (build_beta d filler (h :: n :: rest)).1 = f.
Proof.
  intros Hd Hr Hfl Hf Hi Hi'. destruct (build_beta_len d filler (n :: rest) Hd Hr Hfl) as [Hb Hm].
  pose proof (build_beta_relay d filler h n rest) as Hrel.
  destruct (build_beta d filler (n :: rest)) as [beta' mac']. cbn [fst snd] in Hb, Hm. intros Htail.
  assert (len (stream (hk_secret h)) = BETA_LEN + PER_HOP) as Hs by (apply len_keystream; sizes; lia).
  pose proof (len_block d (n :: rest) Hd Hr) as Hbl. rewrite Hrel. clear Hrel.
  set (S := stream (hk_secret h)) in *. set (bl := block d (n :: rest)) in *.
  pose proof (filler_step_split f (hk_secret h) i Hf ltac:(sizes; lia)) as Hfs. fold S in Hfs.
  set (inner := bl ++ mac' ++ take (Z.to_nat (BETA_LEN - PER_HOP)) beta').
  assert (len inner = BETA_LEN) as Hin.
  { unfold inner. rewrite !len_app, len_take, Hbl, Hm, Hb. sizes. lia. }
  set (K := take (Z.to_nat (i * PER_HOP)) (drop (Z.to_nat (BETA_LEN - i * PER_HOP)) S)) in *.
  rewrite Hfs in Htail. split.
  - rewrite <- (take_drop (Z.to_nat BETA_LEN) S) at 2.
    rewrite xor_into_app by (rewrite len_xor_into, len_take, Hin, Hs; sizes; lia).
    rewrite xor_into_cancel, xor_into_zero by (rewrite len_drop, Hs; sizes; lia).
    unfold inner. rewrite <- !app_assoc. do 2 f_equal.
    rewrite <- (take_drop (Z.to_nat (BETA_LEN - PER_HOP)) beta') at 2. f_equal.
    apply (f_equal (drop (Z.to_nat (i * PER_HOP)))) in Htail.
    rewrite drop_app_length' in Htail by (rewrite length_xor_into; unfold len in Hf; lia).
    rewrite <- Htail, drop_drop. f_equal. sizes. lia.
  - rewrite xor_into_drop. unfold inner. rewrite app_assoc.
    assert (length (bl ++ mac') = Z.to_nat PER_HOP) as Hl
      by (apply Nat2Z.inj; fold (len (bl ++ mac')); rewrite len_app, Hbl, Hm; sizes; lia).
    rewrite drop_app_ge by (rewrite Hl; sizes; lia). rewrite Hl.
    rewrite skipn_firstn_comm, (skipn_firstn_comm _ (Z.to_nat BETA_LEN)).
    apply (f_equal (take (Z.to_nat (i * PER_HOP)))) in Htail.
    rewrite take_app_length' in Htail by (rewrite length_xor_into; unfold len in Hf; lia).
    replace (Z.to_nat BETA_LEN - Z.to_nat (BETA_LEN - i * PER_HOP))%nat with (Z.to_nat (i * PER_HOP))
      by (sizes; lia). fold K.
    rewrite <- (xor_into_cancel f K), <- Htail. f_equal. f_equal; [sizes; lia|f_equal; sizes; lia].
Qed.

(** The sender and the hops agree on the filler: after [i] hops the last
    [i * PER_HOP] bytes of the header are the filler of those hops. *)
Lemma beta_tail d filler hops : ∀ f i,
  hops ≠ [] → draws_ok d → Forall hk_ok hops → len f = i * PER_HOP → 0 ≤ i → i + len hops ≤ MAX_HOPS →
  filler = foldl filler_step f (removelast (map hk_secret hops)) →
  drop (Z.to_nat (BETA_LEN - i * PER_HOP)) (build_beta d filler hops).1 = f.
Proof.
  induction hops as [|h rest IH]; intros f i Hne Hd Hh Hf Hi Hlen Hfil; [done|]. clear Hne.
  pose proof (Forall_cons_1 _ _ _ Hh) as [Hh1 Hr]. rewrite len_cons in Hlen. pose proof (len_nonneg rest).
  destruct rest as [|n rest].
  - cbn in Hfil. subst filler. destruct (build_beta_exit d f h i) as (x & -> & Hx); [done..|lia|].
    rewrite app_assoc. apply drop_app_length'. apply Nat2Z.inj.
    fold (len (xor_into (block d []) (stream (hk_secret h)) ++ x)).
    rewrite len_app, len_xor_into, len_block, Hx by done. sizes. lia.
  - rewrite len_cons in Hlen. pose proof (len_nonneg rest).
    assert (len filler ≤ BETA_LEN) as Hfl.
    { rewrite Hfil, len_filler, Hf, removelast_firstn_len, len_take. unfold len in *.
      rewrite length_map in *. cbn [length] in *. sizes. lia. }
    pose proof (unwrap_relay d filler h n rest f i Hd Hr Hfl Hf Hi ltac:(lia)) as Hu.
    specialize (IH (filler_step f (hk_secret h)) (i + 1)). rewrite len_filler_step, Hf in IH.
    destruct (build_beta d filler (n :: rest)) as [beta' mac']. apply Hu. cbn [fst] in IH.
    apply IH; [done..|lia|lia|rewrite len_cons; lia|exact Hfil].
Qed.

(** ** Processing *)

Lemma len_cell_of tag epk gamma beta payload :
  len tag = TAG_LEN → len epk = EPK_LEN → len gamma = MAC_LEN → len beta = BETA_LEN →
  len payload = PAYLOAD_LEN → len (cell_of tag epk gamma beta payload) = CELL_SIZE.
Proof.
  intros Ht He Hg Hb Hp. unfold cell_of. rewrite !len_app, Ht, He, Hg, Hb, Hp.
  change (len [u8 TYPE_ONION_SPHINX]) with 1. sizes. lia.
Qed.

(** A hop finds its secret by the MAC of the header and peels with it. *)
Lemma process_cell debug priv privs tag epk gamma beta payload :
  len tag = TAG_LEN → len epk = EPK_LEN → len gamma = MAC_LEN → len beta = BETA_LEN →
  len payload = PAYLOAD_LEN → mac16 (mu_key (x25519_shared priv epk)) beta = gamma →
  process_sphinx debug (cell_of tag epk gamma beta payload) (priv :: privs)
  = peel_cell debug (x25519_shared priv epk) beta payload.
Proof.
  intros Ht He Hg Hb Hp Hmac.
  pose proof (len_cell_of tag epk gamma beta payload Ht He Hg Hb Hp) as Hc.
  assert (find_secret (priv :: privs) epk gamma beta = Some (x25519_shared priv epk)) as Hfs
    by (cbn; by rewrite bool_decide_eq_true_2).
  unfold process_sphinx. rewrite Hc, Z.eqb_refl. cbn [negb]. clear Hc.
  change (cell_of tag epk gamma beta payload) with (u8 16 :: tag ++ epk ++ gamma ++ beta ++ payload).
  sizes. repeat codec_step. rewrite uz_u8 by lia. change (negb (16 =? TYPE_ONION_SPHINX)) with false.
  repeat codec_step. rewrite Hfs. done.
Qed.

(** Peeling a header that unwraps to a routing block, a MAC and a header. *)
Lemma peel_cell_eq debug s beta payload fl tag' epk' mac' beta' pl :
  xor_into (beta ++ fill PER_HOP (u8 0)) (stream s) = (u8 fl :: tag' ++ epk') ++ mac' ++ beta' →
  len tag' = TAG_LEN → len epk' = EPK_LEN → len mac' = MAC_LEN → len beta' = BETA_LEN → u8_ok fl →
  lioness_decrypt debug s payload = Ok pl → len pl = PAYLOAD_LEN →
  peel_cell debug s beta payload =
  if fl =? FLAG_EXIT then
    len_bytes ← slice pl 0 2;
    let orig_len := from_le_bytes len_bytes in
    bail_if len pl <? 2 + orig_len with "sphinx process: bad inner payload length";
    SDeliver <$> slice pl 2 (2 + orig_len)
  else if fl =? FLAG_FORWARD then Ok (SForward tag' (cell_of tag' epk' mac' beta' pl))
  else Err "sphinx process: unknown flags byte".
Proof.
  intros Hx Ht He Hm Hb Hfl Hdec Hpl.
  pose proof (len_cell_of tag' epk' mac' beta' pl Ht He Hm Hb Hpl) as Hc.
  unfold peel_cell. rewrite Hx, Hdec. cbn [app]. rewrite <- !app_assoc.
  change (index (u8 fl :: tag' ++ epk' ++ mac' ++ beta') 0) with (Ok (u8 fl)).
  sizes. repeat codec_step. rewrite uz_u8 by lia. cbn [mbind res_bind].
  destruct (fl =? FLAG_EXIT); [done|]. destruct (fl =? FLAG_FORWARD); [|done].
  rewrite Hc. by rewrite andb_false_r.
Qed.

(** Unwrapping the exit's header yields its block first. *)
Lemma unwrap_exit d f h i :
  draws_ok d → hk_ok h → len f = i * PER_HOP → 0 ≤ i < MAX_HOPS →
  ∃ tag' epk' mac' beta',
    xor_into ((build_beta d f [h]).1 ++ fill PER_HOP (u8 0)) (stream (hk_secret h))
      = (u8 FLAG_EXIT :: tag' ++ epk') ++ mac' ++ beta' ∧
    len tag' = TAG_LEN ∧ len epk' = EPK_LEN ∧ len mac' = MAC_LEN ∧ len beta' = BETA_LEN.
Proof.
  intros Hd Hh Hf Hi. destruct (build_beta_exit d f h i Hd Hh Hf Hi) as (x & -> & Hx).
  pose proof (len_block d [] Hd ltac:(done)) as Hb.
  assert (len (stream (hk_secret h)) = BETA_LEN + PER_HOP) as Hs by (apply len_keystream; sizes; lia).
  set (S := stream (hk_secret h)) in *.
  assert (len (take (Z.to_nat HOP_PAYLOAD) S) = HOP_PAYLOAD) as Ht by (rewrite len_take, Hs; sizes; lia).
  set (z := xor_into ((x ++ f) ++ fill PER_HOP (u8 0)) (drop (Z.to_nat HOP_PAYLOAD) S)).
  assert (len z = MAC_LEN + BETA_LEN) as Hz.
  { unfold z. rewrite len_xor_into, !len_app, Hx, Hf, len_fill by (sizes; lia). sizes. lia. }
  exists (take 16 (exit_rnd d)), (drop 16 (exit_rnd d)), (take 16 z), (drop 16 z).
  rewrite !take_drop, !len_take, !len_drop, (do_exit _ Hd), Hz. split; [|sizes; lia].
  rewrite <- (take_drop (Z.to_nat HOP_PAYLOAD) S). rewrite (xor_into_long (block d [])) by lia.
  rewrite <- app_assoc, xor_into_app by (rewrite len_xor_into; lia).
  rewrite xor_into_cancel. done.
Qed.

Lemma encrypt_payload_ok debug hops payload :
  len payload = PAYLOAD_LEN →
  ∃ c, encrypt_payload debug hops payload = Ok c ∧ len c = PAYLOAD_LEN.
Proof.
  intros Hp. induction hops as [|h hops (c & Hc & Hl)]; cbn [encrypt_payload]; [by exists payload|].
  rewrite Hc, bind_Ok. destruct (lioness_roundtrip debug (hk_secret h) c) as (c' & -> & Hl' & _);
    [rewrite Hl; by vm_compute|]. exists c'. split; [done|lia].
Qed.

(** The cell that the first of [hops] receives. *)
Definition cell_at (d : Draws) (filler : bytes) (hops : list HopKeys) (payload : bytes) : bytes :=
  match hops with
  | [] => []
  | h :: _ => cell_of (hop_tag (hk_hop h)) (hk_epk h) (build_beta d filler hops).2
                (build_beta d filler hops).1 payload
  end.

(** A hop holds the key the sender used for it. *)
Definition holds (h : HopKeys) (privs : list bytes) : Prop :=
  ∃ p ps, privs = p :: ps ∧ x25519_shared p (hk_epk h) = hk_secret h.

Definition inner_payload (d : Draws) (traffic : bytes) : bytes :=
  to_le_bytes 2 (wrap16 (len traffic)) ++ traffic ++ pad_rnd d.

Lemma len_cell_at d filler h rest payload :
  draws_ok d → Forall hk_ok (h :: rest) → len filler ≤ BETA_LEN → len payload = PAYLOAD_LEN →
  len (cell_at d filler (h :: rest) payload) = CELL_SIZE.
Proof.
  intros Hd Hh Hf Hp. destruct (build_beta_len d filler (h :: rest) Hd Hh Hf) as [Hb Hm].
  apply Forall_cons in Hh as [[Ht He] _]. by apply len_cell_of.
Qed.

Lemma process_cell_at debug d filler h rest payload ps :
  draws_ok d → Forall hk_ok (h :: rest) → len filler ≤ BETA_LEN → len payload = PAYLOAD_LEN → holds h ps →
  process_sphinx debug (cell_at d filler (h :: rest) payload) ps
  = peel_cell debug (hk_secret h) (build_beta d filler (h :: rest)).1 payload.
Proof.
  intros Hd Hh Hf Hp (p & ps' & -> & Hs).
  destruct (build_beta_len d filler (h :: rest) Hd Hh Hf) as [Hb Hm].
  apply Forall_cons in Hh as [[Ht He] _]. unfold cell_at. rewrite process_cell; [by rewrite Hs|done..|].
  rewrite Hs. cbn [build_beta]. by destruct (build_beta d filler rest).
Qed.

(** One hop: what it makes of the cell the sender prepared for it. *)
Lemma exit_step debug d f h i payload ps traffic :
  draws_ok d → hk_ok h → len f = i * PER_HOP → 0 ≤ i < MAX_HOPS → holds h ps →
  len (inner_payload d traffic) = PAYLOAD_LEN → len traffic ≤ MAX_TRAFFIC_LEN →
  encrypt_payload debug [h] (inner_payload d traffic) = Ok payload →
  process_sphinx debug (cell_at d f [h] payload) ps = Ok (SDeliver traffic).
Proof.
  intros Hd Hh Hf Hi Hps Hin Ht Henc. cbn in Henc.
  destruct (lioness_roundtrip debug (hk_secret h) (inner_payload d traffic)) as (c & Hc & Hl & Hdec);
    [rewrite Hin; by vm_compute|]. rewrite Hc in Henc. injection Henc as <-.
  rewrite process_cell_at by (done || lia || (rewrite Hf; sizes; lia) || by constructor).
  destruct (unwrap_exit d f h i Hd Hh Hf Hi) as (tag' & epk' & mac' & beta' & Hx & ? & ? & ? & ?).
  rewrite (peel_cell_eq debug _ _ _ FLAG_EXIT tag' epk' mac' beta' (inner_payload d traffic))
    by (done || (unfold FLAG_EXIT; lia)).
  rewrite Z.eqb_refl. unfold inner_payload in *. pose proof (len_nonneg traffic).
  rewrite !len_app, len_le_split in Hin. sizes.
  rewrite slice_head by len_lia. rewrite bind_Ok. cbv zeta.
  unfold wrap16. rewrite Z.mod_small, from_to_le by lia.
  test_false. rewrite slice_drop by len_lia. rewrite slice_head by len_lia. done.
Qed.

Lemma relay_step debug d filler h n rest f i payload ps inner :
  draws_ok d → Forall hk_ok (h :: n :: rest) → len filler ≤ BETA_LEN → len f = i * PER_HOP → 0 ≤ i →
  i + 1 < MAX_HOPS → holds h ps → len inner = PAYLOAD_LEN →
  drop (Z.to_nat (BETA_LEN - (i + 1) * PER_HOP)) (build_beta d filler (n :: rest)).1
    = filler_step f (hk_secret h) →
  lioness_encrypt debug (hk_secret h) inner = Ok payload →
  process_sphinx debug (cell_at d filler (h :: n :: rest) payload) ps
  = Ok (SForward (hop_tag (hk_hop n)) (cell_at d filler (n :: rest) inner)).
Proof.
  intros Hd Hh Hfl Hf Hi Hi' Hps Hin Htail Henc.
  destruct (lioness_roundtrip debug (hk_secret h) inner) as (c & Hc & Hl & Hdec);
    [rewrite Hin; by vm_compute|]. rewrite Hc in Henc. injection Henc as <-.
  rewrite process_cell_at by (done || lia).
  pose proof (Forall_cons_1 _ _ _ Hh) as [Hh1 Hr]. pose proof (Forall_cons_1 _ _ _ Hr) as [[Ht He] _].
  destruct (build_beta_len d filler (n :: rest) Hd Hr Hfl) as [Hb Hm].
  pose proof (unwrap_relay d filler h n rest f i Hd Hr Hfl Hf Hi Hi') as Hu.
  unfold cell_at. destruct (build_beta d filler (n :: rest)) as [beta' mac']. cbn [fst snd] in *.
  destruct (Hu Htail) as [Hx _].
  by rewrite (peel_cell_eq debug _ _ _ FLAG_FORWARD (hop_tag (hk_hop n)) (hk_epk n) mac' beta' inner)
    by (done || (unfold FLAG_FORWARD; lia)).
Qed.

Lemma route_suffix debug d traffic filler hops : ∀ f i privs payload,
  hops ≠ [] → draws_ok d → Forall hk_ok hops → len f = i * PER_HOP → 0 ≤ i → i + len hops ≤ MAX_HOPS →
  filler = foldl filler_step f (removelast (map hk_secret hops)) → Forall2 holds hops privs →
  len (inner_payload d traffic) = PAYLOAD_LEN → len traffic ≤ MAX_TRAFFIC_LEN →
  encrypt_payload debug hops (inner_payload d traffic) = Ok payload →
  ∃ cells, sphinx_route debug privs (cell_at d filler hops payload) = Ok (cells, traffic) ∧
    map fst cells = map (λ h, hop_tag (hk_hop h)) (tail hops) ∧ Forall (λ c, len c.2 = CELL_SIZE) cells.
Proof.
  induction hops as [|h rest IH]; intros f i privs payload Hne Hd Hh Hf Hi Hlen Hfil Hp Hin Ht Henc; [done|].
  clear Hne. apply Forall2_cons_inv_l in Hp as (ps & privs' & Hps & Hp & ->).
  pose proof (Forall_cons_1 _ _ _ Hh) as [Hh1 Hr]. rewrite len_cons in Hlen. pose proof (len_nonneg rest).
  cbn [sphinx_route]. destruct rest as [|n rest].
  - cbn in Hfil. subst filler. rewrite (exit_step debug d f h i payload ps traffic) by (done || lia).
    exists []. by split_and!.
  - cbn [encrypt_payload] in Henc. apply bind_Ok_inv in Henc as (inner & Hinner & Henc).
    destruct (encrypt_payload_ok debug (n :: rest) (inner_payload d traffic) Hin) as (c & Hc & Hlc).
    cbn [encrypt_payload] in Hc. rewrite Hc in Hinner. injection Hinner as <-.
    assert (len filler ≤ BETA_LEN) as Hfl.
    { rewrite Hfil, len_filler, Hf, removelast_firstn_len, len_take. unfold len in *.
      rewrite length_map in *. cbn [length] in *. sizes. lia. }
    rewrite len_cons in *. pose proof (len_nonneg rest).
    rewrite (relay_step debug d filler h n rest f i payload ps c); try done; try lia.
    2:{ apply beta_tail; try done; [rewrite len_filler_step; lia|lia|rewrite len_cons; lia]. }
    destruct (IH (filler_step f (hk_secret h)) (i + 1) privs' c) as (cells & Hcells & Hm & Hs); try done;
      [rewrite len_filler_step; lia|lia|lia|].
    rewrite bind_Ok, Hcells, bind_Ok. eexists. split; [done|]. split; [cbn; by rewrite Hm|].
    constructor; [|done]. by apply len_cell_at.
Qed.
End Lemmas.

(** ** Properties *)

Section Properties.
Context `{Blake2Laws} `{Blake2MacLaws} `{ChaCha20Laws} `{X25519Laws}.

(** A hop of the path: its tag, and the first key it tries is the announced one. *)
Definition hop_ok (hop : SphinxHop) (privs : list bytes) : Prop :=
  len (hop_tag hop) = TAG_LEN ∧ ∃ p ps, privs = p :: ps ∧ onion_pub hop = x25519_base p.

Lemma hop_keys_ok (e : nat → bytes) hops privs :
  Forall2 hop_ok hops privs →
  let keys := imap (λ i hop, {| hk_hop := hop; hk_epk := x25519_base (e i);
                                hk_secret := x25519_shared (e i) (onion_pub hop) |}) hops in
  Forall hk_ok keys ∧ Forall2 holds keys privs ∧ map hk_hop keys = hops.
Proof.
  intros Hf. revert e. induction Hf as [|hop ps hops privs [Ht (p & ps' & -> & Hp)] _ IH]; intros e; [done|].
  cbn. destruct (IH (λ i, e (S i))) as (? & ? & ?). split_and!.
  - constructor; [|done]. split; [done|apply x25519_base_len].
  - constructor; [|done]. exists p, ps'. split; [done|]. cbn. rewrite Hp. unfold x25519_shared.
    apply x25519_comm.
  - by f_equal.
Qed.

(** C12: a Sphinx cell reaches its destination: for one to five hops that hold the
    announced keys and for every choice of random bytes, [build_sphinx]
    succeeds; each relay authenticates the header, learns the tag of its
    successor and sends a cell of the same constant size, and the last hop
    delivers exactly the sender's bytes. *)
Theorem sphinx_delivery debug d hops traffic privs :
  Forall2 hop_ok hops privs → 1 ≤ len hops ≤ MAX_HOPS → len traffic ≤ MAX_TRAFFIC_LEN →
  draws_ok d → len (pad_rnd d) = MAX_TRAFFIC_LEN - len traffic →
  ∃ cell cells, build_sphinx debug d hops traffic = Ok cell ∧ len cell = CELL_SIZE ∧
    sphinx_route debug privs cell = Ok (cells, traffic) ∧
    map fst cells = map hop_tag (tail hops) ∧ Forall (λ c, len c.2 = CELL_SIZE) cells.
Proof.
  intros Hf Hn Ht Hd Hpad. destruct (hop_keys_ok (eph d) hops privs Hf) as (Hk & Hh & Hm).
  fold (hop_keys d hops) in Hk, Hh, Hm.
  assert (len (hop_keys d hops) = len hops) as Hlen by (rewrite <- (len_map hk_hop), Hm; done).
  assert (len (inner_payload d traffic) = PAYLOAD_LEN) as Hin
    by (unfold inner_payload; rewrite !len_app, len_le_split, Hpad; sizes; lia).
  destruct (encrypt_payload_ok debug (hop_keys d hops) _ Hin) as (payload & Hp & Hpl).
  unfold build_sphinx. rewrite (proj2 (Z.eqb_neq _ _)), (proj2 (Z.ltb_ge _ _)) by lia. cbn [orb].
  test_false. set (filler := foldl filler_step [] _).
  assert (filler = foldl filler_step [] (removelast (map hk_secret (hop_keys d hops)))) as Hfil.
  { unfold filler. rewrite removelast_firstn_len, length_map. do 2 f_equal. unfold len in *. lia. }
  assert (len filler ≤ BETA_LEN) as Hfl.
  { unfold filler. rewrite len_filler, len_take, len_map, Hlen, len_nil. sizes. lia. }
  fold (inner_payload d traffic). rewrite Hp.
  destruct (route_suffix debug d traffic filler (hop_keys d hops) [] 0 privs payload) as (cells & Hr & Ht' & Hs);
    try done; try lia; [intros E; rewrite E in Hlen; change (len []) with 0 in Hlen; lia|].
  destruct (hop_keys d hops) as [|k0 ks] eqn:Eks; [change (len []) with 0 in Hlen; lia|].
  pose proof (len_cell_at d filler k0 ks payload Hd Hk Hfl Hpl) as Hcl. unfold cell_at in Hcl, Hr.
  destruct (build_beta d filler (k0 :: ks)) as [beta mac]. cbn [fst snd] in *. rewrite bind_Ok.
  rewrite Hcl, Z.eqb_refl, andb_false_r. do 2 eexists. split; [done|]. split; [done|]. split; [done|].
  split; [|done]. rewrite Ht'. cbn [tail]. rewrite <- Hm. cbn. by rewrite map_map.
Qed.

Lemma split_header (b : bytes) :
  len b = BETA_LEN + PER_HOP →
  ∃ fl tag epk mac beta, b = (u8 fl :: tag ++ epk) ++ mac ++ beta ∧ u8_ok fl ∧
    len tag = TAG_LEN ∧ len epk = EPK_LEN ∧ len mac = MAC_LEN ∧ len beta = BETA_LEN.
Proof.
  intros Hb. destruct b as [|x b]; [by vm_compute in Hb|]. rewrite len_cons in Hb.
  exists (uz x), (take 16 b), (take 32 (drop 16 b)), (take 16 (drop 48 b)), (drop 64 b).
  rewrite !len_take, !len_drop. pose proof (uz_range x). split_and!; [|sizes; lia..].
  rewrite byte.of_Z_unsigned. cbn. f_equal. rewrite <- app_assoc.
  rewrite <- (take_drop 16 b) at 1. f_equal. rewrite <- (take_drop 32 (drop 16 b)) at 1. f_equal.
  rewrite drop_drop. rewrite <- (take_drop 16 (drop (16 + 32) b)) at 1. f_equal. by rewrite drop_drop.
Qed.

(** Processing is total: whatever the bytes of a cell and the candidate keys,
    [process_sphinx] does not panic, and a cell it forwards always has the
    constant size. *)
Lemma process_sphinx_total debug cell privs :
  no_panic (process_sphinx debug cell privs) ∧
  (∀ tag next, process_sphinx debug cell privs = Ok (SForward tag next) →
     len tag = TAG_LEN ∧ len next = CELL_SIZE).
Proof.
  unfold process_sphinx. destruct (Z.eqb_spec (len cell) CELL_SIZE) as [Hc|]; [|done]. cbn [negb].
  assert (∃ ty, index cell 0 = Ok ty) as [ty ->].
  { destruct cell as [|y cell]; [by vm_compute in Hc|]. exists y. by apply index_head. }
  rewrite bind_Ok. case_match; [done|].
  rewrite (slice_ok cell OFF_EPK), (slice_ok cell OFF_GAMMA), (slice_ok cell OFF_BETA) by (sizes; lia).
  rewrite !bind_Ok. unfold slice_from. rewrite slice_ok by (sizes; lia). rewrite bind_Ok.
  set (beta := take _ (drop (Z.to_nat OFF_BETA) cell)). set (payload := take _ (drop (Z.to_nat OFF_PAYLOAD) cell)).
  assert (len beta = BETA_LEN) as Hb by (unfold beta; rewrite len_take, len_drop; sizes; lia).
  assert (len payload = PAYLOAD_LEN) as Hp by (unfold payload; rewrite len_take, len_drop; sizes; lia).
  destruct (find_secret _ _ _ _) as [s|]; [|done]. cbn [ok_or]. rewrite bind_Ok.
  destruct (split_header (xor_into (beta ++ fill PER_HOP (u8 0)) (chacha_keystream (rho_key s) (BETA_LEN + PER_HOP))))
    as (fl & tag & epk & mac & beta' & Hx & Hfl & Ht & He & Hm & Hb').
  { rewrite len_xor_into, len_app, len_fill, Hb by (sizes; lia). done. }
  destruct (lioness_decrypt_total debug s payload) as (pl & Hdec & Hpl); [rewrite Hp; by vm_compute|].
  rewrite Hp in Hpl. rewrite (peel_cell_eq debug s beta payload fl tag epk mac beta' pl) by done.
  case_match; [|case_match; [|done]].
  - rewrite slice_ok by (rewrite ?Hpl; sizes; lia). rewrite bind_Ok. cbv zeta.
    set (n := from_le_bytes _). assert (0 ≤ n) by apply from_le_range.
    destruct (Z.ltb_spec (len pl) (2 + n)); [done|]. rewrite slice_ok by lia. by split.
  - split; [done|]. intros tag' next [= <- <-]. split; [done|]. by apply len_cell_of.
Qed.

(** The replay digest does not depend on the routing tag. *)
Lemma replay_digest_tag tag tag' epk gamma beta payload :
  len tag = TAG_LEN → len tag' = TAG_LEN → len epk = EPK_LEN → len gamma = MAC_LEN → len beta = BETA_LEN →
  replay_digest (cell_of tag epk gamma beta payload) = replay_digest (cell_of tag' epk gamma beta payload).
Proof.
  intros Ht Ht' He Hg Hb. unfold replay_digest.
  assert (∀ t, len t = TAG_LEN → len (cell_of t epk gamma beta payload) = 390 + len payload) as Hl.
  { intros t Hlt. unfold cell_of. rewrite !len_app, Hlt, He, Hg, Hb.
    change (len [u8 TYPE_ONION_SPHINX]) with 1. sizes. lia. }
  rewrite !Hl by done. case_match; [done|].
  assert (∀ t a b, len t = TAG_LEN → OFF_EPK ≤ a →
    slice (cell_of t epk gamma beta payload) a b = slice (epk ++ gamma ++ beta ++ payload) (a - 17) (b - 17)) as Hsl.
  { intros t a b Hlt Ha. unfold cell_of. rewrite (slice_drop [_]) by (change (len [_]) with 1; sizes; lia).
    change (len [_]) with 1. rewrite (slice_drop t) by (sizes; lia). f_equal; sizes; lia. }
  by rewrite !Hsl by (done || (sizes; lia)).
Qed.
End Properties.

Section SphinxWitness.
Import Toy.

Let priv (n : Z) := fill 32 (u8 n).
Let hop (n : Z) := {| hop_tag := fill 16 (u8 (n + 100)); onion_pub := x25519_base (priv n) |}.
Let draws := {| eph := λ k, fill 32 (u8 (Z.of_nat k + 50)); beta_rnd := fill 325 (u8 7);
                exit_rnd := fill 48 (u8 8); pad_rnd := fill 881 (u8 9) |}.

Lemma sphinx_delivery_witness :
  ∃ cell cells, build_sphinx true draws [hop 1; hop 2; hop 3] (bstr "traffic") = Ok cell ∧
    sphinx_route true [[priv 1]; [priv 2]; [priv 3]] cell = Ok (cells, bstr "traffic") ∧
    map fst cells = [fill 16 (u8 102); fill 16 (u8 103)].
Proof.
  destruct (sphinx_delivery true draws [hop 1; hop 2; hop 3] (bstr "traffic")
    [[priv 1]; [priv 2]; [priv 3]]) as (cell & cells & Hb & _ & Hr & Ht & _).
  - do 3 (constructor; [split; [by vm_compute|eexists _, []; by split]|]). constructor.
  - by vm_compute.
  - by vm_compute.
  - split; by vm_compute.
  - by vm_compute.
  - exists cell, cells. exact (conj Hb (conj Hr Ht)).
Defined.
End SphinxWitness.
