(* ===== verification/Router.v ===== *)
(** * The router's state and its trees: [src/router/mod.rs] and
    [src/router/treemath.rs]

    The whole of [RouterState] under its mutex: neighbours with their links, the
    three spanning trees, the gossip tables, and the operations on neighbours,
    links and trees.  The handlers of the frames are in [Handlers], the gossip and
    the routing decisions in [Routing], the theorems in [RouterProps].

    Times: instants and durations are microseconds, the wall clock is in
    milliseconds; an operation reads each clock once.  Counters wrap around, as
    they do in release builds.  What the environment decides during an operation
    (clocks, iteration orders of the hash maps, random draws) is the argument
    [env]; the channels of the links are third-party code, the class [Channels].
    Log messages and metric counters are not modelled. *)

From Stdlib Require Import Floats.SpecFloat.
From S2P Require Import Prelude Collections Xor Floats Crypto Hyperbolic Varint Cuckoo Packet.
From S2P Require Import Header Address SessionWire Session SessionManager Onion Sphinx.

(** ** Constants *)

Definition K : nat := 3.
Definition TREE_SEEDS : list bytes := [fill 8 (u8 0); bstr "Verdandi"; bstr "Skuld___"].

Definition SECS : Z := 1000 * 1000.
Definition ANNOUNCE_EXPIRY : Z := 30 * SECS.
Definition CONTROL_MIN_INTERVAL : Z := 1.
Definition CONTROL_MAX_INTERVAL : Z := 8.
Definition CONVERGENCE_GRACE_TICKS : Z := 8.
Definition PARENT_SWITCH_MARGIN_US : Z := 1000.
Definition KEEPALIVE_TICKS : Z := 5.
Definition PEER_TIMEOUT : Z := 60 * SECS.
Definition CUCKOO_GEN_TICKS : Z := 300.
Definition MAX_PENDING_LOOKUPS : Z := 10000.
Definition MAX_FORWARD_HOPS : Z := 32.
Definition MAX_COORD_TABLE_SIZE : Z := 16384.
Definition ONION_REPLAY_CACHE_SIZE : Z := 4096.
Definition ONION_KEY_ROTATION_TICKS : Z := 3600.
Definition REPUTATION_REPORT_TICKS : Z := 60.
Definition REPUTATION_VALIDITY_MS : Z := 60 * 60 * 1000.
Definition MAX_REPUTATION_OBSERVATIONS : Z := 16384.
Definition ONION_KEY_ANNOUNCE_TICKS : Z := 300.
Definition ONION_KEY_VALIDITY_MS : Z := 24 * 60 * 60 * 1000.
Definition MAX_REMOTE_ONION_KEYS : Z := 16384.
Definition CAPABILITY_BROADCAST_TICKS : Z := 60.
Definition CAPABILITY_VALIDITY_MS : Z := 24 * 60 * 60 * 1000.
Definition MAX_CAPABILITY_ENTRIES : Z := 16384.
Definition PROBE_INTERVAL_TICKS : Z := 15.
Definition PATH_NEG_TTL : Z := 60 * SECS.
Definition MAX_PATH_NEG_CACHE : Z := 16384.
Definition PATH_NEG_INITIAL_TTL : Z := 4.
Definition REPUTATION_MIN_QUORUM : Z := 3.
Definition REPUTATION_TRIM_FRAC : float := f64_lit 1 4.
Definition REPUTATION_WEIGHT_BITS : Z := 16.
Definition REPUTATION_WEIGHT_FLOOR : float := f64_lit 1 16.
Definition PROBE_TIMEOUT : Z := 10 * SECS.
Definition MAX_PARALLEL_LINKS_PER_PEER : Z := 8.
Definition TRUST_INITIAL : float := f32_of_Z 1.
Definition TRUST_MIN : float := f32_lit 1 100.
Definition TRUST_MAX : float := f32_of_Z 4.

(** ** Costs and metrics *)

(** [lag] in microseconds *)
Definition effective_cost (lag : Z) (loss_rate : float) : Z :=
  let base_us := f64_of_Z lag in
  let effective :=
    f64_mul base_us (f64_add (f64_of_Z 1) (f64_mul (f32_to_f64 loss_rate) (f64_of_Z 9))) in
  to_u64 effective.

Definition TREE_EPOCH_SECS : Z := 24 * 60 * 60.
Definition current_tree_epoch (wall : Z) : Z := wall / 1000 / TREE_EPOCH_SECS.

Definition tree_metric_at `{Blake2} (pub_key seed : bytes) (epoch : Z) : bytes :=
  let salt := blake2b 32 (bstr "norn:tree-epoch" ++ seed ++ to_le_bytes 8 epoch) in
  xor_into pub_key salt.
Definition tree_metric `{Blake2} (pub_key seed : bytes) : bytes := tree_metric_at pub_key seed 0.

Definition metric_less (a b : bytes) : bool := bytes_ltb a b.
Definition routing_tag_eq (a b : bytes) : bool := bool_decide (a = b).

(** ** Links

    A link is the sending half of a bounded channel.  What the channels and the
    callbacks saw so far decides the outcome of the next attempt. *)
Definition LinkId := Z.
Inductive try_result := Sent | Full | Closed.
Inductive io_event :=
| TrySend (link : LinkId) (frame : bytes) (r : try_result)
| Delivered (from payload : bytes) (ok : bool)
| PathNotifyCb (target : bytes)
| HolePunchCb (initiator endpoint : bytes).

Class Channels := {
  link_try_send : list io_event → LinkId → bytes → try_result;
  link_is_closed : list io_event → LinkId → bool;
  traffic_try_send : list io_event → bytes → bytes → bool }.

(** ** The state *)

Module TreeAnnounce.
Record t := mk { root : bytes; path_cost : Z; received_at : Z; depth : Z }.
End TreeAnnounce.

Module TreeState.
Record t := mk { parent : option bytes; root : bytes; root_seq : Z; parent_cost : Z }.
#[global] Instance inhabited : Inhabited t := populate (mk None [] 0 0).
End TreeState.

Module ControlDigest.
Record t := mk {
  trees : list (bytes * Z * option bytes);
  own_depth : Z;
  onion_eph_pub : bytes;
  peer_count : Z }.
#[global] Instance eq_dec : EqDecision t.
Proof. solve_decision. Defined.
End ControlDigest.

#[global] Instance cuckoo_inhabited : Inhabited CuckooFilter.t := populate CuckooFilter.new.

Module PeerData.
Record t := mk {
  pub_key : bytes;
  lag : Z;
  jitter : Z;
  loss_rate : float;
  last_rx_time : Z;
  last_tx_time : Z;
  cuckoo : list CuckooFilter.t;
  peer_cuckoo_gen : list Z;
  trees : list (option TreeAnnounce.t);
  txs : list LinkId;
  next_tx : Z;
  priority : Z;
  rx_bytes : Z;
  tx_bytes : Z;
  connected_at : Z;
  pending_sig_req_time : option (Z * Z);
  sig_req_seq : Z;
  onion_eph_pub : option bytes;
  trust : float }.

#[global] Instance set_pub_key : SetField pub_key := λ v r,
  mk v (lag r) (jitter r) (loss_rate r) (last_rx_time r) (last_tx_time r) (cuckoo r)
    (peer_cuckoo_gen r) (trees r) (txs r) (next_tx r) (priority r) (rx_bytes r)
    (tx_bytes r) (connected_at r) (pending_sig_req_time r) (sig_req_seq r)
    (onion_eph_pub r) (trust r).
#[global] Instance set_lag : SetField lag := λ v r,
  mk (pub_key r) v (jitter r) (loss_rate r) (last_rx_time r) (last_tx_time r) (cuckoo r)
    (peer_cuckoo_gen r) (trees r) (txs r) (next_tx r) (priority r) (rx_bytes r)
    (tx_bytes r) (connected_at r) (pending_sig_req_time r) (sig_req_seq r)
    (onion_eph_pub r) (trust r).
#[global] Instance set_jitter : SetField jitter := λ v r,
  mk (pub_key r) (lag r) v (loss_rate r) (last_rx_time r) (last_tx_time r) (cuckoo r)
    (peer_cuckoo_gen r) (trees r) (txs r) (next_tx r) (priority r) (rx_bytes r)
    (tx_bytes r) (connected_at r) (pending_sig_req_time r) (sig_req_seq r)
    (onion_eph_pub r) (trust r).
#[global] Instance set_loss_rate : SetField loss_rate := λ v r,
  mk (pub_key r) (lag r) (jitter r) v (last_rx_time r) (last_tx_time r) (cuckoo r)
    (peer_cuckoo_gen r) (trees r) (txs r) (next_tx r) (priority r) (rx_bytes r)
    (tx_bytes r) (connected_at r) (pending_sig_req_time r) (sig_req_seq r)
    (onion_eph_pub r) (trust r).
#[global] Instance set_last_rx_time : SetField last_rx_time := λ v r,
  mk (pub_key r) (lag r) (jitter r) (loss_rate r) v (last_tx_time r) (cuckoo r)
    (peer_cuckoo_gen r) (trees r) (txs r) (next_tx r) (priority r) (rx_bytes r)
    (tx_bytes r) (connected_at r) (pending_sig_req_time r) (sig_req_seq r)
    (onion_eph_pub r) (trust r).
#[global] Instance set_last_tx_time : SetField last_tx_time := λ v r,
  mk (pub_key r) (lag r) (jitter r) (loss_rate r) (last_rx_time r) v (cuckoo r)
    (peer_cuckoo_gen r) (trees r) (txs r) (next_tx r) (priority r) (rx_bytes r)
    (tx_bytes r) (connected_at r) (pending_sig_req_time r) (sig_req_seq r)
    (onion_eph_pub r) (trust r).
#[global] Instance set_cuckoo : SetField cuckoo := λ v r,
  mk (pub_key r) (lag r) (jitter r) (loss_rate r) (last_rx_time r) (last_tx_time r) v
    (peer_cuckoo_gen r) (trees r) (txs r) (next_tx r) (priority r) (rx_bytes r)
    (tx_bytes r) (connected_at r) (pending_sig_req_time r) (sig_req_seq r)
    (onion_eph_pub r) (trust r).
#[global] Instance set_peer_cuckoo_gen : SetField peer_cuckoo_gen := λ v r,
  mk (pub_key r) (lag r) (jitter r) (loss_rate r) (last_rx_time r) (last_tx_time r)
    (cuckoo r) v (trees r) (txs r) (next_tx r) (priority r) (rx_bytes r) (tx_bytes r)
    (connected_at r) (pending_sig_req_time r) (sig_req_seq r) (onion_eph_pub r) (trust
    r).
#[global] Instance set_trees : SetField trees := λ v r,
  mk (pub_key r) (lag r) (jitter r) (loss_rate r) (last_rx_time r) (last_tx_time r)
    (cuckoo r) (peer_cuckoo_gen r) v (txs r) (next_tx r) (priority r) (rx_bytes r)
    (tx_bytes r) (connected_at r) (pending_sig_req_time r) (sig_req_seq r)
    (onion_eph_pub r) (trust r).
#[global] Instance set_txs : SetField txs := λ v r,
  mk (pub_key r) (lag r) (jitter r) (loss_rate r) (last_rx_time r) (last_tx_time r)
    (cuckoo r) (peer_cuckoo_gen r) (trees r) v (next_tx r) (priority r) (rx_bytes r)
    (tx_bytes r) (connected_at r) (pending_sig_req_time r) (sig_req_seq r)
    (onion_eph_pub r) (trust r).
#[global] Instance set_next_tx : SetField next_tx := λ v r,
  mk (pub_key r) (lag r) (jitter r) (loss_rate r) (last_rx_time r) (last_tx_time r)
    (cuckoo r) (peer_cuckoo_gen r) (trees r) (txs r) v (priority r) (rx_bytes r)
    (tx_bytes r) (connected_at r) (pending_sig_req_time r) (sig_req_seq r)
    (onion_eph_pub r) (trust r).
#[global] Instance set_priority : SetField priority := λ v r,
  mk (pub_key r) (lag r) (jitter r) (loss_rate r) (last_rx_time r) (last_tx_time r)
    (cuckoo r) (peer_cuckoo_gen r) (trees r) (txs r) (next_tx r) v (rx_bytes r)
    (tx_bytes r) (connected_at r) (pending_sig_req_time r) (sig_req_seq r)
    (onion_eph_pub r) (trust r).
#[global] Instance set_rx_bytes : SetField rx_bytes := λ v r,
  mk (pub_key r) (lag r) (jitter r) (loss_rate r) (last_rx_time r) (last_tx_time r)
    (cuckoo r) (peer_cuckoo_gen r) (trees r) (txs r) (next_tx r) (priority r) v
    (tx_bytes r) (connected_at r) (pending_sig_req_time r) (sig_req_seq r)
    (onion_eph_pub r) (trust r).
#[global] Instance set_tx_bytes : SetField tx_bytes := λ v r,
  mk (pub_key r) (lag r) (jitter r) (loss_rate r) (last_rx_time r) (last_tx_time r)
    (cuckoo r) (peer_cuckoo_gen r) (trees r) (txs r) (next_tx r) (priority r) (rx_bytes
    r) v (connected_at r) (pending_sig_req_time r) (sig_req_seq r) (onion_eph_pub r)
    (trust r).
#[global] Instance set_connected_at : SetField connected_at := λ v r,
  mk (pub_key r) (lag r) (jitter r) (loss_rate r) (last_rx_time r) (last_tx_time r)
    (cuckoo r) (peer_cuckoo_gen r) (trees r) (txs r) (next_tx r) (priority r) (rx_bytes
    r) (tx_bytes r) v (pending_sig_req_time r) (sig_req_seq r) (onion_eph_pub r) (trust
    r).
#[global] Instance set_pending_sig_req_time : SetField pending_sig_req_time := λ v r,
  mk (pub_key r) (lag r) (jitter r) (loss_rate r) (last_rx_time r) (last_tx_time r)
    (cuckoo r) (peer_cuckoo_gen r) (trees r) (txs r) (next_tx r) (priority r) (rx_bytes
    r) (tx_bytes r) (connected_at r) v (sig_req_seq r) (onion_eph_pub r) (trust r).
#[global] Instance set_sig_req_seq : SetField sig_req_seq := λ v r,
  mk (pub_key r) (lag r) (jitter r) (loss_rate r) (last_rx_time r) (last_tx_time r)
    (cuckoo r) (peer_cuckoo_gen r) (trees r) (txs r) (next_tx r) (priority r) (rx_bytes
    r) (tx_bytes r) (connected_at r) (pending_sig_req_time r) v (onion_eph_pub r) (trust
    r).
#[global] Instance set_onion_eph_pub : SetField onion_eph_pub := λ v r,
  mk (pub_key r) (lag r) (jitter r) (loss_rate r) (last_rx_time r) (last_tx_time r)
    (cuckoo r) (peer_cuckoo_gen r) (trees r) (txs r) (next_tx r) (priority r) (rx_bytes
    r) (tx_bytes r) (connected_at r) (pending_sig_req_time r) (sig_req_seq r) v (trust
    r).
#[global] Instance set_trust : SetField trust := λ v r,
  mk (pub_key r) (lag r) (jitter r) (loss_rate r) (last_rx_time r) (last_tx_time r)
    (cuckoo r) (peer_cuckoo_gen r) (trees r) (txs r) (next_tx r) (priority r) (rx_bytes
    r) (tx_bytes r) (connected_at r) (pending_sig_req_time r) (sig_req_seq r)
    (onion_eph_pub r) v.

(** A neighbour that just connected over link [tx]. *)
Definition new (now : Z) (pub_key : bytes) (tx : LinkId) (priority : Z) : t :=
  mk pub_key 100000 0 (S754_zero false) now now (replicate K CuckooFilter.new)
    (replicate K 0) (replicate K None) [tx] 0 priority 0 0 now None 0 None TRUST_INITIAL.

Definition effective_cost (p : t) : Z := effective_cost (lag p) (loss_rate p).

Definition trust_adjusted_cost_with (p : t) (trust : float) : Z :=
  let base := f64_of_Z (effective_cost p) in
  let trust := f32_to_f64 (fclamp trust TRUST_MIN TRUST_MAX) in
  let adjusted := f64_div base trust in
  if SFleb (f64_of_Z U64_MAX) adjusted then U64_MAX else to_u64 adjusted.
Definition trust_adjusted_cost (p : t) : Z := trust_adjusted_cost_with p (trust p).

Definition decay_trust (p : t) : t :=
  p <| trust := fmax (f32_mul (trust p) (f32_lit 1 2)) TRUST_MIN |>.
Definition boost_trust (p : t) : t :=
  p <| trust := fmin (f32_mul (trust p) (f32_lit 12 10)) TRUST_MAX |>.

(** [(0..K).any(|t| self.cuckoo[t].contains(tag))] *)
Definition claims `{Blake2} (tag : bytes) (p : t) : bool :=
  existsb (λ f, CuckooFilter.contains f tag) (cuckoo p).
End PeerData.

(** (seq, score, recorded_at) *)
Definition ReputationEntry : Type := Z * float * Z.

(** The policies of [config.rs] that the router stores. *)
Inductive OnionFormat := Auto | Legacy | SphinxFormat.
Inductive CoverTraffic := Off | Light | Constant.

Module RouterState.
Record t := mk {
  signing_key : bytes;
  pub_key : bytes;
  peers : gmap bytes PeerData.t;
  trees : list TreeState.t;
  sessions : SessionManager.t;
  path_notify : bool;
  landmarks : gmap bytes ();
  pending_lookups : gmap Z Z;
  coord_table : gmap bytes HypCoord.t;
  own_coord : HypCoord.t;
  own_depth : Z;
  tick : Z;
  cuckoo_generation : list Z;
  onion_keys : OnionKeyChain.t;
  onion_seen : list bytes;
  onion_seen_set : gset bytes;
  remote_onion_keys : gmap bytes (Z * bytes * Z);
  own_onion_key_seq : Z;
  peer_capabilities : gmap bytes (Z * Z * Z);
  own_caps_seq : Z;
  onion_format : OnionFormat;
  cover_mode : CoverTraffic;
  pending_probes : gmap Z (bytes * Z);
  reputation : gmap bytes (gmap bytes ReputationEntry);
  own_reputation_seq : Z;
  hole_punch_cb : bool;
  path_negative_cache : gmap (bytes * bytes) Z;
  last_control_digest : option ControlDigest.t;
  last_control_tick : Z;
  control_interval : Z;
  last_topology_change_tick : Z;
  io : list io_event }.

#[global] Instance set_signing_key : SetField signing_key := λ v r,
  mk v (pub_key r) (peers r) (trees r) (sessions r) (path_notify r) (landmarks r)
    (pending_lookups r) (coord_table r) (own_coord r) (own_depth r) (tick r)
    (cuckoo_generation r) (onion_keys r) (onion_seen r) (onion_seen_set r)
    (remote_onion_keys r) (own_onion_key_seq r) (peer_capabilities r) (own_caps_seq r)
    (onion_format r) (cover_mode r) (pending_probes r) (reputation r)
    (own_reputation_seq r) (hole_punch_cb r) (path_negative_cache r)
    (last_control_digest r) (last_control_tick r) (control_interval r)
    (last_topology_change_tick r) (io r).
#[global] Instance set_pub_key : SetField pub_key := λ v r,
  mk (signing_key r) v (peers r) (trees r) (sessions r) (path_notify r) (landmarks r)
    (pending_lookups r) (coord_table r) (own_coord r) (own_depth r) (tick r)
    (cuckoo_generation r) (onion_keys r) (onion_seen r) (onion_seen_set r)
    (remote_onion_keys r) (own_onion_key_seq r) (peer_capabilities r) (own_caps_seq r)
    (onion_format r) (cover_mode r) (pending_probes r) (reputation r)
    (own_reputation_seq r) (hole_punch_cb r) (path_negative_cache r)
    (last_control_digest r) (last_control_tick r) (control_interval r)
    (last_topology_change_tick r) (io r).
#[global] Instance set_peers : SetField peers := λ v r,
  mk (signing_key r) (pub_key r) v (trees r) (sessions r) (path_notify r) (landmarks r)
    (pending_lookups r) (coord_table r) (own_coord r) (own_depth r) (tick r)
    (cuckoo_generation r) (onion_keys r) (onion_seen r) (onion_seen_set r)
    (remote_onion_keys r) (own_onion_key_seq r) (peer_capabilities r) (own_caps_seq r)
    (onion_format r) (cover_mode r) (pending_probes r) (reputation r)
    (own_reputation_seq r) (hole_punch_cb r) (path_negative_cache r)
    (last_control_digest r) (last_control_tick r) (control_interval r)
    (last_topology_change_tick r) (io r).
#[global] Instance set_trees : SetField trees := λ v r,
  mk (signing_key r) (pub_key r) (peers r) v (sessions r) (path_notify r) (landmarks r)
    (pending_lookups r) (coord_table r) (own_coord r) (own_depth r) (tick r)
    (cuckoo_generation r) (onion_keys r) (onion_seen r) (onion_seen_set r)
    (remote_onion_keys r) (own_onion_key_seq r) (peer_capabilities r) (own_caps_seq r)
    (onion_format r) (cover_mode r) (pending_probes r) (reputation r)
    (own_reputation_seq r) (hole_punch_cb r) (path_negative_cache r)
    (last_control_digest r) (last_control_tick r) (control_interval r)
    (last_topology_change_tick r) (io r).
#[global] Instance set_sessions : SetField sessions := λ v r,
  mk (signing_key r) (pub_key r) (peers r) (trees r) v (path_notify r) (landmarks r)
    (pending_lookups r) (coord_table r) (own_coord r) (own_depth r) (tick r)
    (cuckoo_generation r) (onion_keys r) (onion_seen r) (onion_seen_set r)
    (remote_onion_keys r) (own_onion_key_seq r) (peer_capabilities r) (own_caps_seq r)
    (onion_format r) (cover_mode r) (pending_probes r) (reputation r)
    (own_reputation_seq r) (hole_punch_cb r) (path_negative_cache r)
    (last_control_digest r) (last_control_tick r) (control_interval r)
    (last_topology_change_tick r) (io r).
#[global] Instance set_path_notify : SetField path_notify := λ v r,
  mk (signing_key r) (pub_key r) (peers r) (trees r) (sessions r) v (landmarks r)
    (pending_lookups r) (coord_table r) (own_coord r) (own_depth r) (tick r)
    (cuckoo_generation r) (onion_keys r) (onion_seen r) (onion_seen_set r)
    (remote_onion_keys r) (own_onion_key_seq r) (peer_capabilities r) (own_caps_seq r)
    (onion_format r) (cover_mode r) (pending_probes r) (reputation r)
    (own_reputation_seq r) (hole_punch_cb r) (path_negative_cache r)
    (last_control_digest r) (last_control_tick r) (control_interval r)
    (last_topology_change_tick r) (io r).
#[global] Instance set_landmarks : SetField landmarks := λ v r,
  mk (signing_key r) (pub_key r) (peers r) (trees r) (sessions r) (path_notify r) v
    (pending_lookups r) (coord_table r) (own_coord r) (own_depth r) (tick r)
    (cuckoo_generation r) (onion_keys r) (onion_seen r) (onion_seen_set r)
    (remote_onion_keys r) (own_onion_key_seq r) (peer_capabilities r) (own_caps_seq r)
    (onion_format r) (cover_mode r) (pending_probes r) (reputation r)
    (own_reputation_seq r) (hole_punch_cb r) (path_negative_cache r)
    (last_control_digest r) (last_control_tick r) (control_interval r)
    (last_topology_change_tick r) (io r).
#[global] Instance set_pending_lookups : SetField pending_lookups := λ v r,
  mk (signing_key r) (pub_key r) (peers r) (trees r) (sessions r) (path_notify r)
    (landmarks r) v (coord_table r) (own_coord r) (own_depth r) (tick r)
    (cuckoo_generation r) (onion_keys r) (onion_seen r) (onion_seen_set r)
    (remote_onion_keys r) (own_onion_key_seq r) (peer_capabilities r) (own_caps_seq r)
    (onion_format r) (cover_mode r) (pending_probes r) (reputation r)
    (own_reputation_seq r) (hole_punch_cb r) (path_negative_cache r)
    (last_control_digest r) (last_control_tick r) (control_interval r)
    (last_topology_change_tick r) (io r).
#[global] Instance set_coord_table : SetField coord_table := λ v r,
  mk (signing_key r) (pub_key r) (peers r) (trees r) (sessions r) (path_notify r)
    (landmarks r) (pending_lookups r) v (own_coord r) (own_depth r) (tick r)
    (cuckoo_generation r) (onion_keys r) (onion_seen r) (onion_seen_set r)
    (remote_onion_keys r) (own_onion_key_seq r) (peer_capabilities r) (own_caps_seq r)
    (onion_format r) (cover_mode r) (pending_probes r) (reputation r)
    (own_reputation_seq r) (hole_punch_cb r) (path_negative_cache r)
    (last_control_digest r) (last_control_tick r) (control_interval r)
    (last_topology_change_tick r) (io r).
#[global] Instance set_own_coord : SetField own_coord := λ v r,
  mk (signing_key r) (pub_key r) (peers r) (trees r) (sessions r) (path_notify r)
    (landmarks r) (pending_lookups r) (coord_table r) v (own_depth r) (tick r)
    (cuckoo_generation r) (onion_keys r) (onion_seen r) (onion_seen_set r)
    (remote_onion_keys r) (own_onion_key_seq r) (peer_capabilities r) (own_caps_seq r)
    (onion_format r) (cover_mode r) (pending_probes r) (reputation r)
    (own_reputation_seq r) (hole_punch_cb r) (path_negative_cache r)
    (last_control_digest r) (last_control_tick r) (control_interval r)
    (last_topology_change_tick r) (io r).
#[global] Instance set_own_depth : SetField own_depth := λ v r,
  mk (signing_key r) (pub_key r) (peers r) (trees r) (sessions r) (path_notify r)
    (landmarks r) (pending_lookups r) (coord_table r) (own_coord r) v (tick r)
    (cuckoo_generation r) (onion_keys r) (onion_seen r) (onion_seen_set r)
    (remote_onion_keys r) (own_onion_key_seq r) (peer_capabilities r) (own_caps_seq r)
    (onion_format r) (cover_mode r) (pending_probes r) (reputation r)
    (own_reputation_seq r) (hole_punch_cb r) (path_negative_cache r)
    (last_control_digest r) (last_control_tick r) (control_interval r)
    (last_topology_change_tick r) (io r).
#[global] Instance set_tick : SetField tick := λ v r,
  mk (signing_key r) (pub_key r) (peers r) (trees r) (sessions r) (path_notify r)
    (landmarks r) (pending_lookups r) (coord_table r) (own_coord r) (own_depth r) v
    (cuckoo_generation r) (onion_keys r) (onion_seen r) (onion_seen_set r)
    (remote_onion_keys r) (own_onion_key_seq r) (peer_capabilities r) (own_caps_seq r)
    (onion_format r) (cover_mode r) (pending_probes r) (reputation r)
    (own_reputation_seq r) (hole_punch_cb r) (path_negative_cache r)
    (last_control_digest r) (last_control_tick r) (control_interval r)
    (last_topology_change_tick r) (io r).
#[global] Instance set_cuckoo_generation : SetField cuckoo_generation := λ v r,
  mk (signing_key r) (pub_key r) (peers r) (trees r) (sessions r) (path_notify r)
    (landmarks r) (pending_lookups r) (coord_table r) (own_coord r) (own_depth r) (tick
    r) v (onion_keys r) (onion_seen r) (onion_seen_set r) (remote_onion_keys r)
    (own_onion_key_seq r) (peer_capabilities r) (own_caps_seq r) (onion_format r)
    (cover_mode r) (pending_probes r) (reputation r) (own_reputation_seq r)
    (hole_punch_cb r) (path_negative_cache r) (last_control_digest r) (last_control_tick
    r) (control_interval r) (last_topology_change_tick r) (io r).
#[global] Instance set_onion_keys : SetField onion_keys := λ v r,
  mk (signing_key r) (pub_key r) (peers r) (trees r) (sessions r) (path_notify r)
    (landmarks r) (pending_lookups r) (coord_table r) (own_coord r) (own_depth r) (tick
    r) (cuckoo_generation r) v (onion_seen r) (onion_seen_set r) (remote_onion_keys r)
    (own_onion_key_seq r) (peer_capabilities r) (own_caps_seq r) (onion_format r)
    (cover_mode r) (pending_probes r) (reputation r) (own_reputation_seq r)
    (hole_punch_cb r) (path_negative_cache r) (last_control_digest r) (last_control_tick
    r) (control_interval r) (last_topology_change_tick r) (io r).
#[global] Instance set_onion_seen : SetField onion_seen := λ v r,
  mk (signing_key r) (pub_key r) (peers r) (trees r) (sessions r) (path_notify r)
    (landmarks r) (pending_lookups r) (coord_table r) (own_coord r) (own_depth r) (tick
    r) (cuckoo_generation r) (onion_keys r) v (onion_seen_set r) (remote_onion_keys r)
    (own_onion_key_seq r) (peer_capabilities r) (own_caps_seq r) (onion_format r)
    (cover_mode r) (pending_probes r) (reputation r) (own_reputation_seq r)
    (hole_punch_cb r) (path_negative_cache r) (last_control_digest r) (last_control_tick
    r) (control_interval r) (last_topology_change_tick r) (io r).
#[global] Instance set_onion_seen_set : SetField onion_seen_set := λ v r,
  mk (signing_key r) (pub_key r) (peers r) (trees r) (sessions r) (path_notify r)
    (landmarks r) (pending_lookups r) (coord_table r) (own_coord r) (own_depth r) (tick
    r) (cuckoo_generation r) (onion_keys r) (onion_seen r) v (remote_onion_keys r)
    (own_onion_key_seq r) (peer_capabilities r) (own_caps_seq r) (onion_format r)
    (cover_mode r) (pending_probes r) (reputation r) (own_reputation_seq r)
    (hole_punch_cb r) (path_negative_cache r) (last_control_digest r) (last_control_tick
    r) (control_interval r) (last_topology_change_tick r) (io r).
#[global] Instance set_remote_onion_keys : SetField remote_onion_keys := λ v r,
  mk (signing_key r) (pub_key r) (peers r) (trees r) (sessions r) (path_notify r)
    (landmarks r) (pending_lookups r) (coord_table r) (own_coord r) (own_depth r) (tick
    r) (cuckoo_generation r) (onion_keys r) (onion_seen r) (onion_seen_set r) v
    (own_onion_key_seq r) (peer_capabilities r) (own_caps_seq r) (onion_format r)
    (cover_mode r) (pending_probes r) (reputation r) (own_reputation_seq r)
    (hole_punch_cb r) (path_negative_cache r) (last_control_digest r) (last_control_tick
    r) (control_interval r) (last_topology_change_tick r) (io r).
#[global] Instance set_own_onion_key_seq : SetField own_onion_key_seq := λ v r,
  mk (signing_key r) (pub_key r) (peers r) (trees r) (sessions r) (path_notify r)
    (landmarks r) (pending_lookups r) (coord_table r) (own_coord r) (own_depth r) (tick
    r) (cuckoo_generation r) (onion_keys r) (onion_seen r) (onion_seen_set r)
    (remote_onion_keys r) v (peer_capabilities r) (own_caps_seq r) (onion_format r)
    (cover_mode r) (pending_probes r) (reputation r) (own_reputation_seq r)
    (hole_punch_cb r) (path_negative_cache r) (last_control_digest r) (last_control_tick
    r) (control_interval r) (last_topology_change_tick r) (io r).
#[global] Instance set_peer_capabilities : SetField peer_capabilities := λ v r,
  mk (signing_key r) (pub_key r) (peers r) (trees r) (sessions r) (path_notify r)
    (landmarks r) (pending_lookups r) (coord_table r) (own_coord r) (own_depth r) (tick
    r) (cuckoo_generation r) (onion_keys r) (onion_seen r) (onion_seen_set r)
    (remote_onion_keys r) (own_onion_key_seq r) v (own_caps_seq r) (onion_format r)
    (cover_mode r) (pending_probes r) (reputation r) (own_reputation_seq r)
    (hole_punch_cb r) (path_negative_cache r) (last_control_digest r) (last_control_tick
    r) (control_interval r) (last_topology_change_tick r) (io r).
#[global] Instance set_own_caps_seq : SetField own_caps_seq := λ v r,
  mk (signing_key r) (pub_key r) (peers r) (trees r) (sessions r) (path_notify r)
    (landmarks r) (pending_lookups r) (coord_table r) (own_coord r) (own_depth r) (tick
    r) (cuckoo_generation r) (onion_keys r) (onion_seen r) (onion_seen_set r)
    (remote_onion_keys r) (own_onion_key_seq r) (peer_capabilities r) v (onion_format r)
    (cover_mode r) (pending_probes r) (reputation r) (own_reputation_seq r)
    (hole_punch_cb r) (path_negative_cache r) (last_control_digest r) (last_control_tick
    r) (control_interval r) (last_topology_change_tick r) (io r).
#[global] Instance set_onion_format : SetField onion_format := λ v r,
  mk (signing_key r) (pub_key r) (peers r) (trees r) (sessions r) (path_notify r)
    (landmarks r) (pending_lookups r) (coord_table r) (own_coord r) (own_depth r) (tick
    r) (cuckoo_generation r) (onion_keys r) (onion_seen r) (onion_seen_set r)
    (remote_onion_keys r) (own_onion_key_seq r) (peer_capabilities r) (own_caps_seq r) v
    (cover_mode r) (pending_probes r) (reputation r) (own_reputation_seq r)
    (hole_punch_cb r) (path_negative_cache r) (last_control_digest r) (last_control_tick
    r) (control_interval r) (last_topology_change_tick r) (io r).
#[global] Instance set_cover_mode : SetField cover_mode := λ v r,
  mk (signing_key r) (pub_key r) (peers r) (trees r) (sessions r) (path_notify r)
    (landmarks r) (pending_lookups r) (coord_table r) (own_coord r) (own_depth r) (tick
    r) (cuckoo_generation r) (onion_keys r) (onion_seen r) (onion_seen_set r)
    (remote_onion_keys r) (own_onion_key_seq r) (peer_capabilities r) (own_caps_seq r)
    (onion_format r) v (pending_probes r) (reputation r) (own_reputation_seq r)
    (hole_punch_cb r) (path_negative_cache r) (last_control_digest r) (last_control_tick
    r) (control_interval r) (last_topology_change_tick r) (io r).
#[global] Instance set_pending_probes : SetField pending_probes := λ v r,
  mk (signing_key r) (pub_key r) (peers r) (trees r) (sessions r) (path_notify r)
    (landmarks r) (pending_lookups r) (coord_table r) (own_coord r) (own_depth r) (tick
    r) (cuckoo_generation r) (onion_keys r) (onion_seen r) (onion_seen_set r)
    (remote_onion_keys r) (own_onion_key_seq r) (peer_capabilities r) (own_caps_seq r)
    (onion_format r) (cover_mode r) v (reputation r) (own_reputation_seq r)
    (hole_punch_cb r) (path_negative_cache r) (last_control_digest r) (last_control_tick
    r) (control_interval r) (last_topology_change_tick r) (io r).
#[global] Instance set_reputation : SetField reputation := λ v r,
  mk (signing_key r) (pub_key r) (peers r) (trees r) (sessions r) (path_notify r)
    (landmarks r) (pending_lookups r) (coord_table r) (own_coord r) (own_depth r) (tick
    r) (cuckoo_generation r) (onion_keys r) (onion_seen r) (onion_seen_set r)
    (remote_onion_keys r) (own_onion_key_seq r) (peer_capabilities r) (own_caps_seq r)
    (onion_format r) (cover_mode r) (pending_probes r) v (own_reputation_seq r)
    (hole_punch_cb r) (path_negative_cache r) (last_control_digest r) (last_control_tick
    r) (control_interval r) (last_topology_change_tick r) (io r).
#[global] Instance set_own_reputation_seq : SetField own_reputation_seq := λ v r,
  mk (signing_key r) (pub_key r) (peers r) (trees r) (sessions r) (path_notify r)
    (landmarks r) (pending_lookups r) (coord_table r) (own_coord r) (own_depth r) (tick
    r) (cuckoo_generation r) (onion_keys r) (onion_seen r) (onion_seen_set r)
    (remote_onion_keys r) (own_onion_key_seq r) (peer_capabilities r) (own_caps_seq r)
    (onion_format r) (cover_mode r) (pending_probes r) (reputation r) v (hole_punch_cb
    r) (path_negative_cache r) (last_control_digest r) (last_control_tick r)
    (control_interval r) (last_topology_change_tick r) (io r).
#[global] Instance set_hole_punch_cb : SetField hole_punch_cb := λ v r,
  mk (signing_key r) (pub_key r) (peers r) (trees r) (sessions r) (path_notify r)
    (landmarks r) (pending_lookups r) (coord_table r) (own_coord r) (own_depth r) (tick
    r) (cuckoo_generation r) (onion_keys r) (onion_seen r) (onion_seen_set r)
    (remote_onion_keys r) (own_onion_key_seq r) (peer_capabilities r) (own_caps_seq r)
    (onion_format r) (cover_mode r) (pending_probes r) (reputation r)
    (own_reputation_seq r) v (path_negative_cache r) (last_control_digest r)
    (last_control_tick r) (control_interval r) (last_topology_change_tick r) (io r).
#[global] Instance set_path_negative_cache : SetField path_negative_cache := λ v r,
  mk (signing_key r) (pub_key r) (peers r) (trees r) (sessions r) (path_notify r)
    (landmarks r) (pending_lookups r) (coord_table r) (own_coord r) (own_depth r) (tick
    r) (cuckoo_generation r) (onion_keys r) (onion_seen r) (onion_seen_set r)
    (remote_onion_keys r) (own_onion_key_seq r) (peer_capabilities r) (own_caps_seq r)
    (onion_format r) (cover_mode r) (pending_probes r) (reputation r)
    (own_reputation_seq r) (hole_punch_cb r) v (last_control_digest r)
    (last_control_tick r) (control_interval r) (last_topology_change_tick r) (io r).
#[global] Instance set_last_control_digest : SetField last_control_digest := λ v r,
  mk (signing_key r) (pub_key r) (peers r) (trees r) (sessions r) (path_notify r)
    (landmarks r) (pending_lookups r) (coord_table r) (own_coord r) (own_depth r) (tick
    r) (cuckoo_generation r) (onion_keys r) (onion_seen r) (onion_seen_set r)
    (remote_onion_keys r) (own_onion_key_seq r) (peer_capabilities r) (own_caps_seq r)
    (onion_format r) (cover_mode r) (pending_probes r) (reputation r)
    (own_reputation_seq r) (hole_punch_cb r) (path_negative_cache r) v
    (last_control_tick r) (control_interval r) (last_topology_change_tick r) (io r).
#[global] Instance set_last_control_tick : SetField last_control_tick := λ v r,
  mk (signing_key r) (pub_key r) (peers r) (trees r) (sessions r) (path_notify r)
    (landmarks r) (pending_lookups r) (coord_table r) (own_coord r) (own_depth r) (tick
    r) (cuckoo_generation r) (onion_keys r) (onion_seen r) (onion_seen_set r)
    (remote_onion_keys r) (own_onion_key_seq r) (peer_capabilities r) (own_caps_seq r)
    (onion_format r) (cover_mode r) (pending_probes r) (reputation r)
    (own_reputation_seq r) (hole_punch_cb r) (path_negative_cache r)
    (last_control_digest r) v (control_interval r) (last_topology_change_tick r) (io r).
#[global] Instance set_control_interval : SetField control_interval := λ v r,
  mk (signing_key r) (pub_key r) (peers r) (trees r) (sessions r) (path_notify r)
    (landmarks r) (pending_lookups r) (coord_table r) (own_coord r) (own_depth r) (tick
    r) (cuckoo_generation r) (onion_keys r) (onion_seen r) (onion_seen_set r)
    (remote_onion_keys r) (own_onion_key_seq r) (peer_capabilities r) (own_caps_seq r)
    (onion_format r) (cover_mode r) (pending_probes r) (reputation r)
    (own_reputation_seq r) (hole_punch_cb r) (path_negative_cache r)
    (last_control_digest r) (last_control_tick r) v (last_topology_change_tick r) (io
    r).
#[global] Instance set_last_topology_change_tick : SetField last_topology_change_tick := λ v r,
  mk (signing_key r) (pub_key r) (peers r) (trees r) (sessions r) (path_notify r)
    (landmarks r) (pending_lookups r) (coord_table r) (own_coord r) (own_depth r) (tick
    r) (cuckoo_generation r) (onion_keys r) (onion_seen r) (onion_seen_set r)
    (remote_onion_keys r) (own_onion_key_seq r) (peer_capabilities r) (own_caps_seq r)
    (onion_format r) (cover_mode r) (pending_probes r) (reputation r)
    (own_reputation_seq r) (hole_punch_cb r) (path_negative_cache r)
    (last_control_digest r) (last_control_tick r) (control_interval r) v (io r).
#[global] Instance set_io : SetField io := λ v r,
  mk (signing_key r) (pub_key r) (peers r) (trees r) (sessions r) (path_notify r)
    (landmarks r) (pending_lookups r) (coord_table r) (own_coord r) (own_depth r) (tick
    r) (cuckoo_generation r) (onion_keys r) (onion_seen r) (onion_seen_set r)
    (remote_onion_keys r) (own_onion_key_seq r) (peer_capabilities r) (own_caps_seq r)
    (onion_format r) (cover_mode r) (pending_probes r) (reputation r)
    (own_reputation_seq r) (hole_punch_cb r) (path_negative_cache r)
    (last_control_digest r) (last_control_tick r) (control_interval r)
    (last_topology_change_tick r) v.
End RouterState.

(** What the environment decides during one operation. *)
Record Env := {
  now : Z;
  wall : Z;
  ord : MapOrder bytes;
  ord_id : MapOrder Z;
  ord_neg : MapOrder (bytes * bytes);
  (** [NORN_ACCELERATE_ROTATIONS_SECS], when set *)
  accelerate : option Z;
  (** the draws of [CuckooFilter::add] and of each neighbour's [merge] *)
  cuckoo_coin : bool;
  cuckoo_rng : nat → fin 4;
  merge_rng : bytes → nat → nat → fin 4;
  (** the tags of [NORN_MALICIOUS_MODE], none in production *)
  poison_tags : list (bytes * bool * (nat → fin 4));
  (** fresh keys: a session's, an ML-KEM decapsulation key, the onion key, the
      ephemeral key of the header for each destination *)
  kem_rand : bytes;
  session_priv : bytes → bytes;
  pq_dk : bytes;
  onion_priv : bytes;
  header_priv : bytes → bytes;
  (** the candidate picked by [probe_cuckoo_claim] and the identifier of the probe *)
  probe_pick : nat;
  probe_id : Z }.

(** The monotonic clock in milliseconds, as the sessions use it. *)
Definition now_ms (env : Env) : Z := now env / 1000.

Import RouterState.

Section Router.
Context `{Channels} `{Libm} `{Blake2} `{Sha512} `{X25519} `{Hkdf} `{Aead} `{Ed25519} `{MlDsa} `{MlKem}.

Definition new (env : Env) (signing_key dk signer_seed : bytes) : t :=
  let pub_key := ed_public signing_key in
  {| signing_key := signing_key;
     pub_key := pub_key;
     peers := ∅;
     trees := replicate K (TreeState.mk None pub_key 0 0);
     sessions := SessionManager.new (now_ms env) signing_key dk signer_seed;
     path_notify := false;
     landmarks := ∅;
     pending_lookups := ∅;
     coord_table := {[ pub_key := HypCoord.origin ]};
     own_coord := HypCoord.origin;
     own_depth := 0;
     tick := 0;
     cuckoo_generation := replicate K 0;
     onion_keys := OnionKeyChain.with_identity_fallback (now_ms env) (onion_priv env) signing_key;
     onion_seen := [];
     onion_seen_set := ∅;
     remote_onion_keys := ∅;
     own_onion_key_seq := 0;
     peer_capabilities := ∅;
     own_caps_seq := 0;
     onion_format := Auto;
     cover_mode := Light;
     pending_probes := ∅;
     reputation := ∅;
     own_reputation_seq := 0;
     hole_punch_cb := false;
     path_negative_cache := ∅;
     last_control_digest := None;
     last_control_tick := 0;
     control_interval := CONTROL_MIN_INTERVAL;
     last_topology_change_tick := 0;
     io := [] |}.

(** [if let Some(peer) = self.peers.get_mut(k) { ... }] *)
Definition with_peer (k : bytes) (f : PeerData.t → PeerData.t) (s : t) : t :=
  s <| peers := alter f k (peers s) |>.
(** [peer.last_rx_time = Instant::now()] for a connected peer *)
Definition touch (env : Env) (from : bytes) (s : t) : t :=
  with_peer from (λ p, p <| PeerData.last_rx_time := now env |>) s.
(** [self.peers.keys().copied().collect()] *)
Definition peer_keys (env : Env) (s : t) : list bytes := (map_iter (ord env) (peers s)).*1.

(** ** Neighbours *)

Definition update_landmarks (s : t) : t :=
  let own := if 2 <? Z.of_nat (size (peers s)) then {[ pub_key s := () ]} else ∅ in
  let near (p : PeerData.t) :=
    existsb (λ ann, match ann with Some a => TreeAnnounce.depth a <=? 1 | None => false end)
      (PeerData.trees p) in
  s <| landmarks := own ∪ omap (λ p, if near p then Some () else None) (peers s) |>.

Definition add_peer (env : Env) (key : bytes) (tx : LinkId) (priority : Z) (s : t) : t :=
  match peers s !! key with
  | Some existing =>
      if MAX_PARALLEL_LINKS_PER_PEER <=? len (PeerData.txs existing) then s
      else with_peer key (λ p, p <| PeerData.txs := PeerData.txs p ++ [tx] |>) s
  | None =>
      update_landmarks (s <| peers := <[key := PeerData.new (now env) key tx priority]> (peers s) |>)
  end.

Definition remove_peer (key : bytes) (s : t) : t :=
  let s := s <| peers := delete key (peers s) |> in
  let s := s <| coord_table := delete key (coord_table s) |> in
  let s := update_landmarks s in
  let reset (tree : TreeState.t) :=
    if bool_decide (TreeState.parent tree = Some key)
    then TreeState.mk None (pub_key s) (TreeState.root_seq tree) 0 else tree in
  let s := s <| trees := reset <$> trees s |> in
  s <| sessions := SessionManager.remove key (sessions s) |>.

Definition expire_peers (env : Env) (s : t) : t :=
  let expired := (filter (λ e, PEER_TIMEOUT < duration_since (now env) (PeerData.last_rx_time e.2))
                    (map_iter (ord env) (peers s))).*1 in
  foldl (λ s key, remove_peer key s) s expired.

(** ** Sending *)

(** The attempts over the links in order: whether one took the frame. *)
Fixpoint try_links (data : bytes) (links : list LinkId) (log : list io_event)
    : bool * list io_event :=
  match links with
  | [] => (false, log)
  | tx :: links =>
      let r := link_try_send log tx data in
      let log := log ++ [TrySend tx data r] in
      match r with
      | Sent => (true, log)
      | Full | Closed => try_links data links log
      end
  end.

Definition send_to_peer (env : Env) (peer_key : bytes) (data : bytes) (s : t) : t :=
  match peers s !! peer_key with
  | None => s
  | Some peer =>
      let links := PeerData.txs peer in
      if len links =? 0 then s else
      let start := Z.to_nat (PeerData.next_tx peer mod len links) in
      let peer := peer <| PeerData.next_tx := wrap64 (PeerData.next_tx peer + 1) |> in
      let '(sent, log) := try_links data (drop start links ++ take start links) (io s) in
      let peer :=
        if sent then
          peer <| PeerData.tx_bytes := wrap64 (PeerData.tx_bytes peer + len data) |>
               <| PeerData.last_tx_time := now env |>
        else
          peer <| PeerData.txs := filter (λ tx, link_is_closed log tx = false) links |> in
      s <| peers := <[peer_key := peer]> (peers s) |> <| io := log |>
  end.

(** The same frame to each of a list of neighbours, in order. *)
Definition send_each (env : Env) (keys : list bytes) (data : bytes) (s : t) : t :=
  foldl (λ s key, send_to_peer env key data s) s keys.

(** ** Trees *)

(** The best candidate so far: the four [best_*] variables, which [fix_tree] sets
    together. *)
Record Best := {
  best_root : bytes;
  best_root_metric : bytes;
  best_cost : Z;
  best_parent : bytes }.

Definition set_tree (tree_id : nat) (tree : TreeState.t) (s : t) : t :=
  s <| trees := <[tree_id := tree]> (trees s) |>.

(** One neighbour in the loop of [fix_tree]. *)
Definition fix_tree_step (env : Env) (tree_id : nat) (epoch : Z) (prev_parent : option bytes)
    (acc : option Best * option (bytes * Z)) (e : bytes * PeerData.t)
    : option Best * option (bytes * Z) :=
  let '(best, incumbent) := acc in
  let '(peer_key, peer) := e in
  match PeerData.trees peer !!! tree_id with
  | None => acc
  | Some ann =>
      if ANNOUNCE_EXPIRY <? duration_since (now env) (TreeAnnounce.received_at ann) then acc else
      let root_metric := tree_metric_at (TreeAnnounce.root ann) (TREE_SEEDS !!! tree_id) epoch in
      let peer_cost := PeerData.effective_cost peer in
      let total_cost := sat_add (TreeAnnounce.path_cost ann) peer_cost in
      let incumbent :=
        if bool_decide (Some peer_key = prev_parent) then Some (root_metric, total_cost)
        else incumbent in
      let better :=
        match best with
        | None => true
        | Some b =>
            if metric_less root_metric (best_root_metric b) then true
            else if bool_decide (root_metric = best_root_metric b) then total_cost <? best_cost b
            else false
        end in
      (if better then Some (Build_Best (TreeAnnounce.root ann) root_metric total_cost peer_key)
       else best, incumbent)
  end.

(** The hysteresis: the parent and the cost that are kept. *)
Definition damped (prev_parent : option bytes) (b : Best) (incumbent : option (bytes * Z))
    : option bytes * Z :=
  match incumbent with
  | Some (inc_rm, inc_cost) =>
      if bool_decide (inc_rm = best_root_metric b)
         && bool_decide (Some (best_parent b) ≠ prev_parent)
         && (inc_cost <=? sat_add (best_cost b) PARENT_SWITCH_MARGIN_US)
      then (prev_parent, inc_cost) else (Some (best_parent b), best_cost b)
  | None => (Some (best_parent b), best_cost b)
  end.

Definition fix_tree (env : Env) (tree_id : nat) (s : t) : t :=
  let epoch := current_tree_epoch (wall env) in
  let my_metric := tree_metric_at (pub_key s) (TREE_SEEDS !!! tree_id) epoch in
  let tree := trees s !!! tree_id in
  let prev_parent := TreeState.parent tree in
  let '(best, incumbent) :=
    foldl (fix_tree_step env tree_id epoch prev_parent) (None, None)
      (map_iter (ord env) (peers s)) in
  let adopted :=
    match best with
    | None => None
    | Some b => if metric_less my_metric (best_root_metric b) then None else Some b
    end in
  let '(new_parent, s) :=
    match adopted with
    | None =>
        let s := set_tree tree_id
                   (TreeState.mk None (pub_key s) (wrap64 (TreeState.root_seq tree + 1)) 0) s in
        (None, if bool_decide (tree_id = 0%nat) then s <| own_depth := 0 |> else s)
    | Some b =>
        let '(parent, cost) := damped prev_parent b incumbent in
        let s := set_tree tree_id
                   (TreeState.mk parent (best_root b) (TreeState.root_seq tree) cost) s in
        let depth :=
          p ← parent; peer ← peers s !! p; ann ← PeerData.trees peer !!! 0%nat;
          Some (wrap32 (TreeAnnounce.depth ann + 1)) in
        (parent, if bool_decide (tree_id = 0%nat)
                 then s <| own_depth := default (own_depth s) depth |> else s)
    end in
  if bool_decide (new_parent = prev_parent) then s
  else s <| last_topology_change_tick := tick s |>.

Definition send_announces (env : Env) (tree_id : nat) (s : t) : t :=
  let tree := trees s !!! tree_id in
  let depth := if bool_decide (tree_id = 0%nat) then own_depth s else 0 in
  let ann sig := Announce.mk (u8 (Z.of_nat tree_id)) (TreeState.root tree)
                   (TreeState.root_seq tree) (TreeState.parent_cost tree) (pub_key s) sig depth in
  let signature := ed_sign (signing_key s) (Announce.sign_bytes (ann (fill 64 (u8 0)))) in
  send_each env (peer_keys env s) (Announce.encode (ann signature)) s.

Definition broadcast_coord (env : Env) (s : t) : t :=
  let ann sig := CoordAnnounce.mk (u8 COORD_FORMAT_V5) (HypCoord.encode (own_coord s))
                   (own_depth s) (OnionKeyChain.pub_key (onion_keys s)) sig in
  let sig := ed_sign (signing_key s) (CoordAnnounce.sign_bytes (ann (fill 64 (u8 0)))) in
  let frame := CoordAnnounce.encode_into (ann sig) [u8 TYPE_COORD_ANNOUNCE] in
  send_each env (peer_keys env s) frame s.

(** ** Cadence of the control broadcasts *)

Definition control_digest (s : t) : ControlDigest.t :=
  ControlDigest.mk
    ((λ tr, (TreeState.root tr, TreeState.root_seq tr, TreeState.parent tr)) <$> trees s)
    (own_depth s) (OnionKeyChain.pub_key (onion_keys s)) (Z.of_nat (size (peers s))).

Definition convergence_active (s : t) : bool :=
  wrap32 (tick s - last_topology_change_tick s) <? CONVERGENCE_GRACE_TICKS.

Definition maybe_broadcast_control (env : Env) (s : t) : t :=
  let digest := control_digest s in
  let changed := bool_decide (last_control_digest s ≠ Some digest) in
  let s := if changed then s <| last_topology_change_tick := tick s |> else s in
  let active := convergence_active s in
  let s := s <| control_interval :=
    if changed || active then CONTROL_MIN_INTERVAL
    else Z.min (wrap32 (control_interval s + 1)) CONTROL_MAX_INTERVAL |> in
  let due := changed || active
             || (control_interval s <=? wrap32 (tick s - last_control_tick s)) in
  if negb due then s else
  let s := foldl (λ s i, send_announces env i s) s (seq 0 K) in
  let s := broadcast_coord env s in
  s <| last_control_digest := Some digest |> <| last_control_tick := tick s |>.

(** ** Reachability filters *)

Definition cuckoo_do_maintenance (env : Env) (tree_id : nat) (s : t) : t :=
  let interval := default CUCKOO_GEN_TICKS ((λ n, wrap32 (Z.max n 1)) <$> accelerate env) in
  let s := if (tick s mod interval =? 0) && (0 <? tick s)
           then s <| cuckoo_generation := alter (λ g, wrap64 (g + 1)) tree_id (cuckoo_generation s) |>
           else s in
  let generation := cuckoo_generation s !!! tree_id in
  let parent := TreeState.parent (trees s !!! tree_id) in
  let my_tag := routing_tag (pub_key s) in
  let merged := snd (CuckooFilter.add (cuckoo_coin env) (cuckoo_rng env) CuckooFilter.new my_tag) in
  let merged :=
    foldl (λ f '(key, peer),
             if bool_decide (Some key = parent) then f
             else CuckooFilter.merge (merge_rng env key) f (PeerData.cuckoo peer !!! tree_id))
      merged (map_iter (ord env) (peers s)) in
  let merged :=
    foldl (λ f '(tag, coin, rng), snd (CuckooFilter.add coin rng f tag)) merged (poison_tags env) in
  let frame f := CuckooMsg.encode
                   (CuckooMsg.mk (u8 (Z.of_nat tree_id)) generation (CuckooFilter.encode f)) in
  let s := match parent with
           | Some parent_key => send_to_peer env parent_key (frame merged) s
           | None => s
           end in
  let full_merged :=
    match parent with
    | Some parent_key =>
        match peers s !! parent_key with
        | Some peer =>
            CuckooFilter.merge (merge_rng env parent_key) merged (PeerData.cuckoo peer !!! tree_id)
        | None => merged
        end
    | None => merged
    end in
  send_each env (filter (λ key, Some key ≠ parent) (peer_keys env s)) (frame full_merged) s.

(** ** Keep-alives *)

Definition send_keepalive (env : Env) (s : t) (peer_key : bytes) : t :=
  let ping (p : PeerData.t) :=
    let p := match PeerData.pending_sig_req_time p with
             | Some _ =>
                 let loss := f32_add (f32_mul (PeerData.loss_rate p) (f32_lit 875 1000))
                               (f32_lit 125 1000) in
                 PeerData.decay_trust (p <| PeerData.loss_rate := loss |>)
             | None => p
             end in
    let seq := wrap64 (PeerData.sig_req_seq p + 1) in
    p <| PeerData.sig_req_seq := seq |> <| PeerData.pending_sig_req_time := Some (seq, now env) |> in
  let s := with_peer peer_key ping s in
  match peers s !! peer_key with
  | Some p =>
      let req := SigReq.mk (u8 0) (PeerData.sig_req_seq p) (wall env) (pub_key s) in
      send_to_peer env peer_key (SigReq.encode req) s
  | None => s
  end.

Definition send_keepalives (env : Env) (s : t) : t :=
  foldl (send_keepalive env) s (peer_keys env s).
End Router.
