(* ===== verification/Routing.v ===== *)
(** * Routing decisions and gossip tables of the router

    The reputation table and the trust derived from it, the cache of negative
    routes, the choice of the next hop (by coordinate, by reachability filter, by
    key distance), the replay cache of onion cells, and the tables filled by signed
    floods: [src/router/reputation.rs], [path_negative.rs], [onion.rs], [coords.rs],
    [capabilities.rs], and the lookups of [handlers.rs]. *)

From Stdlib Require Import Floats.SpecFloat.
From S2P Require Import Prelude Collections Xor Floats Crypto Hyperbolic Varint Cuckoo Packet.
From S2P Require Import Header Address SessionWire Session SessionManager Onion Sphinx Router.
Import RouterState.

Definition CAP_ONION_SPHINX : Z := 1.

(** [r.score()] *)
Definition report_score (r : ReputationReport.t) : float :=
  f32_div (f32_of_Z (ReputationReport.score_q16 r)) (f32_of_Z U16_MAX).

(** [sort_by] with the order of a key: stable. *)
Fixpoint insert_by {A} (lt : A → A → bool) (x : A) (l : list A) : list A :=
  match l with
  | [] => [x]
  | y :: l' => if lt x y then x :: l else y :: insert_by lt x l'
  end.
Definition sort_by {A} (lt : A → A → bool) (l : list A) : list A :=
  foldl (λ acc x, insert_by lt x acc) [] l.

Definition F64_EPSILON : float := f64_from_bits 0x3CB0000000000000.
Definition f64_sum (l : list float) : float := foldl f64_add (S754_zero true) l.

Section Routing.
Context `{Channels} `{Libm} `{Blake2} `{Sha512} `{X25519} `{Hkdf} `{Aead} `{Ed25519} `{MlDsa} `{MlKem}.

(** ** Reputation *)

(** The entry of a table that is evicted for a new one: not a neighbour's and not
    ours. *)
Definition stranger {A} (env : Env) (s : t) (m : gmap bytes A) : option bytes :=
  fst <$> head (filter (λ e, peers s !! e.1 = None ∧ e.1 ≠ pub_key s) (map_iter (ord env) m)).

Definition observations (s : t) : Z :=
  map_fold (λ _ (m : gmap bytes ReputationEntry) n, Z.of_nat (size m) + n) 0 (reputation s).

Definition insert_observation (observed observer : bytes) (e : ReputationEntry) (s : t) : t :=
  s <| reputation := <[observed := <[observer := e]> (default ∅ (reputation s !! observed))]>
                       (reputation s) |>.

Definition record_reputation (env : Env) (observer observed : bytes) (seq : Z) (score : float)
    (s : t) : t :=
  let e := (seq, score, now env) in
  if (MAX_REPUTATION_OBSERVATIONS <=? observations s)
     && bool_decide (reputation s !! observed = None) then
    match stranger env s (reputation s) with
    | Some v => insert_observation observed observer e
                  (s <| reputation := delete v (reputation s) |>)
    | None => s
    end
  else insert_observation observed observer e s.

(** The weight and the trust of an observation. *)
Definition weighted_observation (observer_pub : bytes) (score : float) : float * float :=
  let real_trust := f32_add TRUST_MIN (f32_mul score (f32_sub TRUST_MAX TRUST_MIN)) in
  let bits := key_difficulty_bits observer_pub in
  let w := fclamp (f64_div (f64_of_Z bits) (f64_of_Z REPUTATION_WEIGHT_BITS))
             REPUTATION_WEIGHT_FLOOR (f64_of_Z 1) in
  (w, f32_to_f64 real_trust).

(** [v[lo..hi]] of the sorted observations without the trimmed ends. *)
Definition trimmed (weighted : list (float * float)) : list (float * float) :=
  let n := len weighted in
  let trim := to_u64 (f64_mul (f64_of_Z n) REPUTATION_TRIM_FRAC) in
  let hi := Z.max (sat_sub n trim) (trim + 1) in
  drop (Z.to_nat trim) (take (Z.to_nat hi) weighted).

Definition fresh_observations (env : Env) (bucket : gmap bytes ReputationEntry)
    : list (float * float) :=
  let cutoff := default (now env) (instant_checked_sub (now env) (REPUTATION_VALIDITY_MS * 1000)) in
  (λ '(observer_pub, (_, score, _)), weighted_observation observer_pub score) <$>
    filter (λ '(_, (_, _, at_)), cutoff ≤ at_) (map_iter (ord env) bucket).

Definition consensus_trust (env : Env) (s : t) (observed : bytes) : option float :=
  bucket ← reputation s !! observed;
  let weighted := fresh_observations env bucket in
  if len weighted <? REPUTATION_MIN_QUORUM then None else
  let kept := trimmed (sort_by (λ a b, SFltb a.2 b.2) weighted) in
  if len kept =? 0 then None else
  let total_w := f64_sum kept.*1 in
  if SFleb total_w F64_EPSILON then None else
  let weighted_sum := f64_sum ((λ '(w, x), f64_mul w x) <$> kept) in
  Some (f64_to_f32 (f64_div weighted_sum total_w)).

Definition combined_trust (env : Env) (s : t) (peer_key : bytes) (local : float) : float :=
  match consensus_trust env s peer_key with
  | Some c => f32_mul (f32_add local c) (f32_lit 1 2)
  | None => local
  end.

(** A neighbour's cost as every lookup ranks it. *)
Definition route_cost (env : Env) (s : t) (e : bytes * PeerData.t) : Z :=
  PeerData.trust_adjusted_cost_with e.2 (combined_trust env s e.1 (PeerData.trust e.2)).

(** ** Negative routes *)

Definition is_path_negative (env : Env) (s : t) (peer tag : bytes) : bool :=
  match path_negative_cache s !! (peer, tag) with
  | Some at_ => duration_since (now env) at_ <? PATH_NEG_TTL
  | None => false
  end.

Definition record_path_negative (env : Env) (peer tag : bytes) (s : t) : t :=
  let cache := path_negative_cache s in
  let cache :=
    if MAX_PATH_NEG_CACHE <=? Z.of_nat (size cache) then
      let cutoff := default (now env) (instant_checked_sub (now env) PATH_NEG_TTL) in
      let victim :=
        match find_key (ord_neg env) (λ at_, at_ <? cutoff) cache with
        | Some k => Some k
        | None => first_key (ord_neg env) cache
        end in
      match victim with Some v => delete v cache | None => cache end
    else cache in
  s <| path_negative_cache := <[(peer, tag) := now env]> cache |>.

Definition cleanup_path_negative_cache (env : Env) (s : t) : t :=
  s <| path_negative_cache :=
         filter (λ e, duration_since (now env) e.2 < PATH_NEG_TTL) (path_negative_cache s) |>.

Definition send_path_negative (env : Env) (to tag : bytes) (ttl : Z) (s : t) : t :=
  if ttl =? 0 then s
  else send_to_peer env to (PathNegative.encode (PathNegative.mk tag (u8 ttl))) s.

(** ** The next hop *)

(** [if slot.is_none_or(|(_, c)| cost < c) { *slot = Some((key, cost)) }] *)
Definition cheaper (key : bytes) (cost : Z) (slot : option (bytes * Z)) : option (bytes * Z) :=
  match slot with
  | None => Some (key, cost)
  | Some (_, bc) => if cost <? bc then Some (key, cost) else slot
  end.

Definition lookup_step (env : Env) (s : t) (tag : bytes) (exclude : option bytes)
    (acc : option (bytes * Z) * option (bytes * Z)) (e : bytes * PeerData.t)
    : option (bytes * Z) * option (bytes * Z) :=
  let '(best, best_neg) := acc in
  let '(peer_key, peer) := e in
  if bool_decide (exclude = Some peer_key) then acc else
  if negb (PeerData.claims tag peer) then acc else
  let cost := route_cost env s e in
  if is_path_negative env s peer_key tag
  then (best, cheaper peer_key cost best_neg)
  else (cheaper peer_key cost best, best_neg).

Definition lookup_by_tag_excluding (env : Env) (s : t) (tag : bytes) (exclude : option bytes)
    : option bytes :=
  let '(best, best_neg) :=
    foldl (lookup_step env s tag exclude) (None, None) (map_iter (ord env) (peers s)) in
  fst <$> (match best with Some b => Some b | None => best_neg end).

(** A neighbour's distance to a coordinate and its trust-adjusted score, when it is
    strictly closer than [own_dist]. *)
Definition greedy_score (env : Env) (s : t) (dst_coord : HypCoord.t) (own_dist : float)
    (e : bytes * PeerData.t) : option float :=
  peer_coord ← coord_table s !! PeerData.pub_key e.2;
  let d := HypCoord.distance peer_coord dst_coord in
  if SFltb d own_dist then
    let trust := f32_to_f64 (fclamp (combined_trust env s e.1 (PeerData.trust e.2))
                               TRUST_MIN TRUST_MAX) in
    Some (f64_div d trust)
  else None.

(** One neighbour in the loop of [greedy_next_hop]. *)
Definition greedy_step (env : Env) (s : t) (dst_coord : HypCoord.t) (exclude : option bytes)
    (acc : option bytes * float) (e : bytes * PeerData.t) : option bytes * float :=
  let '(best_peer, best_score) := acc in
  if bool_decide (exclude = Some e.1) then acc else
  match greedy_score env s dst_coord (HypCoord.distance (own_coord s) dst_coord) e with
  | Some score => if SFltb score best_score then (Some e.1, score) else acc
  | None => acc
  end.

Definition greedy_next_hop (env : Env) (s : t) (dst_coord : HypCoord.t) (exclude : option bytes)
    : option bytes :=
  fst (foldl (greedy_step env s dst_coord exclude) (None, S754_infinity false)
         (map_iter (ord env) (peers s))).

(** The cuckoo-filter fallback of [lookup]. *)
Definition cuckoo_hop (env : Env) (s : t) (dst_tag : bytes) : option (bytes * Z) :=
  foldl (λ best e, if PeerData.claims dst_tag e.2 then cheaper e.1 (route_cost env s e) best
                   else best) None (map_iter (ord env) (peers s)).

(** The last resort of [lookup]: the neighbour nearest in key distance. *)
Definition xor_hop (env : Env) (s : t) (dst : bytes) : option (bytes * (bytes * Z)) :=
  foldl (λ best e,
           let dist := xor_into e.1 dst in
           let cost := route_cost env s e in
           let better :=
             match best with
             | None => true
             | Some (_, (bd, bc)) =>
                 bytes_ltb dist bd || (bool_decide (dist = bd) && (cost <? bc))
             end in
           if better then Some (e.1, (dist, cost)) else best)
    None (map_iter (ord env) (peers s)).

Definition lookup (env : Env) (s : t) (dst : bytes) : option bytes :=
  let greedy := dst_coord ← coord_table s !! dst; greedy_next_hop env s dst_coord None in
  match greedy with
  | Some p => Some p
  | None =>
      match cuckoo_hop env s (routing_tag dst) with
      | Some (k, _) => Some k
      | None => fst <$> xor_hop env s dst
      end
  end.

(** ** Replay of onion cells *)

Definition onion_digest_seen (digest : bytes) (s : t) : bool * t :=
  if bool_decide (digest ∈ onion_seen_set s) then (true, s) else
  let s := s <| onion_seen_set := {[ digest ]} ∪ onion_seen_set s |> in
  let s :=
    if ONION_REPLAY_CACHE_SIZE <=? len (onion_seen s) then
      match onion_seen s with
      | evicted :: rest =>
          s <| onion_seen := rest |> <| onion_seen_set := onion_seen_set s ∖ {[ evicted ]} |>
      | [] => s
      end
    else s in
  (false, s <| onion_seen := onion_seen s ++ [digest] |>).

Definition is_onion_replay (pkt : OnionPacket.t) (s : t) : bool * t :=
  onion_digest_seen
    (blake2b 32 (bstr "norn:onion-replay" ++ OnionPacket.epk pkt
                 ++ take 16 (OnionPacket.aead_payload pkt))) s.

(** ** Signed floods *)

(** The tables of [record_remote_onion_key] and [record_capability]: the table, or
    [None] when there is no room for [origin]. *)
Definition make_room {A} (env : Env) (s : t) (cap : Z) (origin : bytes) (m : gmap bytes A)
    : option (gmap bytes A) :=
  if bool_decide (m !! origin = None) && (cap <=? Z.of_nat (size m)) then
    (λ v, delete v m) <$> stranger env s m
  else Some m.

Definition record_remote_onion_key (env : Env) (origin : bytes) (seq : Z) (eph : bytes) (s : t) : t :=
  match make_room env s MAX_REMOTE_ONION_KEYS origin (remote_onion_keys s) with
  | Some m => s <| remote_onion_keys := <[origin := (seq, eph, now env)]> m |>
  | None => s
  end.

Definition record_capability (env : Env) (origin : bytes) (caps seq : Z) (s : t) : t :=
  match make_room env s MAX_CAPABILITY_ENTRIES origin (peer_capabilities s) with
  | Some m => s <| peer_capabilities := <[origin := (caps, seq, now env)]> m |>
  | None => s
  end.

Definition note_coord (env : Env) (peer : bytes) (coord : HypCoord.t) (s : t) : option t :=
  m ← make_room env s MAX_COORD_TABLE_SIZE peer (coord_table s);
  Some (s <| coord_table := <[peer := coord]> m |>).

(** The freshness window of a flood: at most [validity] old and at most a minute
    ahead. *)
Definition in_window (wall validity valid_from_ms : Z) : bool :=
  (sat_sub wall valid_from_ms <=? validity) && (valid_from_ms <=? sat_add wall 60000).

(** [vk.verify_strict(..)] with a key that [VerifyingKey::from_bytes] accepts. *)
Definition signed_by (key msg sig : bytes) : bool := ed_valid key && ed_verify key msg sig.

(** To every neighbour but [from]. *)
Definition flood (env : Env) (from frame : bytes) (s : t) : t :=
  send_each env (filter (λ k, k ≠ from) (peer_keys env s)) frame s.

Definition handle_onion_key_announce (env : Env) (from : bytes) (ann : OnionKeyAnnounce.t) (s : t)
    : t :=
  let origin := OnionKeyAnnounce.origin ann in
  if bool_decide (origin = pub_key s) then s else
  if negb (signed_by origin (OnionKeyAnnounce.sign_bytes ann) (OnionKeyAnnounce.sig ann)) then s else
  if negb (in_window (wall env) ONION_KEY_VALIDITY_MS (OnionKeyAnnounce.valid_from_ms ann)) then s else
  let is_newer :=
    match remote_onion_keys s !! origin with
    | Some (prev_seq, _, _) => prev_seq <? OnionKeyAnnounce.seq ann
    | None => true
    end in
  if negb is_newer then s else
  let s := record_remote_onion_key env origin (OnionKeyAnnounce.seq ann)
             (OnionKeyAnnounce.onion_eph_pub ann) s in
  let s := with_peer origin
             (λ p, p <| PeerData.onion_eph_pub := Some (OnionKeyAnnounce.onion_eph_pub ann) |>) s in
  flood env from (OnionKeyAnnounce.encode ann) s.

Definition handle_capabilities (env : Env) (from : bytes) (ann : CapabilityAnnounce.t) (s : t) : t :=
  let origin := CapabilityAnnounce.origin ann in
  if bool_decide (origin = pub_key s) then s else
  if negb (signed_by origin (CapabilityAnnounce.sign_bytes ann) (CapabilityAnnounce.sig ann)) then s else
  if negb (in_window (wall env) CAPABILITY_VALIDITY_MS (CapabilityAnnounce.valid_from_ms ann)) then s else
  let is_newer :=
    match peer_capabilities s !! origin with
    | Some (_, prev_seq, _) => prev_seq <? CapabilityAnnounce.seq ann
    | None => true
    end in
  if negb is_newer then s else
  let s := record_capability env origin (CapabilityAnnounce.caps ann) (CapabilityAnnounce.seq ann) s in
  flood env from (CapabilityAnnounce.encode ann) s.

Definition handle_reputation_report (env : Env) (from : bytes) (r : ReputationReport.t) (s : t) : t :=
  let observer := ReputationReport.observer r in
  let observed := ReputationReport.observed r in
  if bool_decide (observer = observed) then s else
  if bool_decide (observer = pub_key s) then s else
  if negb (signed_by observer (ReputationReport.sign_bytes r) (ReputationReport.sig r)) then s else
  if negb (in_window (wall env) REPUTATION_VALIDITY_MS (ReputationReport.valid_from_ms r)) then s else
  let is_newer :=
    match (reputation s !! observed ≫= λ m, m !! observer) with
    | Some (prev_seq, _, _) => prev_seq <? ReputationReport.seq r
    | None => true
    end in
  if negb is_newer then s else
  let s := record_reputation env observer observed (ReputationReport.seq r) (report_score r) s in
  flood env from (ReputationReport.encode r) s.

(** ** Our own floods *)

Definition broadcast_onion_key_announce (env : Env) (s : t) : t :=
  let s := s <| own_onion_key_seq := wrap64 (own_onion_key_seq s + 1) |> in
  let seq := own_onion_key_seq s in
  let eph := OnionKeyChain.pub_key (onion_keys s) in
  let ann sig := OnionKeyAnnounce.mk (pub_key s) seq (wall env) eph sig in
  let sig := ed_sign (signing_key s) (OnionKeyAnnounce.sign_bytes (ann (fill 64 (u8 0)))) in
  let s := s <| remote_onion_keys := <[pub_key s := (seq, eph, now env)]> (remote_onion_keys s) |> in
  send_each env (peer_keys env s) (OnionKeyAnnounce.encode (ann sig)) s.

Definition broadcast_capabilities (env : Env) (s : t) : t :=
  let s := s <| own_caps_seq := wrap64 (own_caps_seq s + 1) |> in
  let seq := own_caps_seq s in
  let caps := CAP_ONION_SPHINX in
  let ann sig := CapabilityAnnounce.mk (pub_key s) caps seq (wall env) sig in
  let sig := ed_sign (signing_key s) (CapabilityAnnounce.sign_bytes (ann (fill 64 (u8 0)))) in
  let s := s <| peer_capabilities := <[pub_key s := (caps, seq, now env)]> (peer_capabilities s) |> in
  send_each env (peer_keys env s) (CapabilityAnnounce.encode (ann sig)) s.

(** [(frac * u16::MAX as f32) as u16] *)
Definition quantise (trust : float) : Z :=
  let frac := fclamp (f32_div (f32_sub trust TRUST_MIN) (f32_sub TRUST_MAX TRUST_MIN))
                (S754_zero false) (f32_of_Z 1) in
  Z.min U16_MAX (to_u64 (f32_mul frac (f32_of_Z U16_MAX))).

Definition broadcast_reputation_of (env : Env) (s : t) (e : bytes * float) : t :=
  let '(observed, trust) := e in
  let observer := pub_key s in
  let s := s <| own_reputation_seq := wrap64 (own_reputation_seq s + 1) |> in
  let seq := own_reputation_seq s in
  let rep sig := ReputationReport.mk observer observed (quantise trust) seq (wall env) sig in
  let sig := ed_sign (signing_key s) (ReputationReport.sign_bytes (rep (fill 64 (u8 0)))) in
  let s := record_reputation env observer observed seq (report_score (rep sig)) s in
  send_each env (peer_keys env s) (ReputationReport.encode (rep sig)) s.

Definition broadcast_reputation (env : Env) (s : t) : t :=
  foldl (broadcast_reputation_of env) s
    ((λ e, (PeerData.pub_key e.2, PeerData.trust e.2)) <$> map_iter (ord env) (peers s)).

(** Does every hop advertise the Sphinx format, recently enough? *)
Definition path_supports_sphinx (env : Env) (s : t) (relays : list OnionHop) (dst : bytes) : bool :=
  if MAX_HOPS <? len relays + 1 then false else
  let supported id :=
    match peer_capabilities s !! id with
    | Some (caps, _, recorded) =>
        negb (Z.land caps CAP_ONION_SPHINX =? 0)
        && (duration_since (now env) recorded <? CAPABILITY_VALIDITY_MS * 1000)
    | None => false
    end in
  forallb (λ h, supported (identity_ed_pub h)) relays && supported dst.
End Routing.
