(* ===== verification/Handlers.v ===== *)
(** * Frame handlers, dispatch and maintenance of the router

    [src/router/handlers.rs], the handlers of [onion.rs], [coords.rs],
    [path_negative.rs] and [reputation.rs], and [dispatch], [do_maintenance] and
    [encrypt_and_dispatch] of [src/router/mod.rs].

    A handler that can panic returns a [res]; the others return the new state.  The
    tasks that [dispatch] spawns run when the frame arrives: the random delay before
    a forward is not modelled.  A callback or a delivery to the application is an
    event of [io]. *)

From Stdlib Require Import Floats.SpecFloat.
From S2P Require Import Prelude Collections Xor Floats Crypto Hyperbolic Varint Cuckoo Packet.
From S2P Require Import Header Address SessionWire Session SessionManager Onion Sphinx Router Routing.
Import RouterState.

(** [a as i64 - b as i64] in a release build *)
Definition to_i64 (z : Z) : Z := let w := wrap64 z in if w <? 2 ^ 63 then w else w - 2 ^ 64.

Section Handlers.
Context `{Channels} `{Libm} `{Blake2} `{Blake2Mac} `{ChaCha20} `{Sha512} `{X25519} `{Hkdf}
  `{Aead} `{Ed25519} `{MlDsa} `{MlKem}.

(** ** Round trips *)

(** What a [SigRes] signs. *)
Definition sig_res_data (tree_id : byte) (seq timestamp_ms : Z) (req_pub_key : bytes) : bytes :=
  [tree_id] ++ encode_uvarint seq ++ encode_uvarint timestamp_ms ++ req_pub_key.

Definition handle_sig_req (env : Env) (from : bytes) (req : SigReq.t) (s : t) : t :=
  let s := touch env from s in
  let sign_data := sig_res_data (SigReq.tree_id req) (SigReq.seq req) (wall env)
                     (SigReq.pub_key req) in
  let signature := ed_sign (signing_key s) sign_data in
  let res := SigRes.mk (SigReq.tree_id req) (SigReq.seq req) (wall env) signature (pub_key s) in
  send_to_peer env from (SigRes.encode res) s.

Definition measure_rtt (env : Env) (res : SigRes.t) (p : PeerData.t) : PeerData.t :=
  let p' := p <| PeerData.last_rx_time := now env |> <| PeerData.pending_sig_req_time := None |> in
  match PeerData.pending_sig_req_time p with
  | Some (pending_seq, sent_time) =>
      if pending_seq =? SigRes.seq res then
        let new_lag_us := duration_since (now env) sent_time / 2 in
        let old_lag_us := PeerData.lag p in
        let diff := Z.abs (new_lag_us - old_lag_us) in
        PeerData.boost_trust
          (p' <| PeerData.jitter := PeerData.jitter p * 7 / 8 + diff / 8 |>
              <| PeerData.lag := old_lag_us * 7 / 8 + new_lag_us / 8 |>
              <| PeerData.loss_rate := f32_mul (PeerData.loss_rate p) (f32_lit 875 1000) |>)
      else p'
  | None => p'
  end.

Definition handle_sig_res (env : Env) (from : bytes) (res : SigRes.t) (s : t) : t :=
  let sign_data := sig_res_data (SigRes.tree_id res) (SigRes.seq res) (SigRes.timestamp_ms res)
                     (pub_key s) in
  if negb (signed_by (SigRes.pub_key res) sign_data (SigRes.signature res)) then s else
  with_peer from (measure_rtt env res) s.

(** ** Tree and filter gossip *)

Definition handle_announce (env : Env) (from : bytes) (ann : Announce.t) (s : t) : t :=
  if negb (signed_by (Announce.sender ann) (Announce.sign_bytes ann) (Announce.signature ann))
  then s else
  let tree_id := Z.to_nat (uz (Announce.tree_id ann)) in
  if (K <=? tree_id)%nat then s else
  let structural_change :=
    match peers s !! from with
    | Some peer =>
        match PeerData.trees peer !!! tree_id with
        | Some prev =>
            negb (bool_decide (TreeAnnounce.root prev = Announce.root ann))
            || negb (TreeAnnounce.depth prev =? Announce.depth ann)
        | None => true
        end
    | None => false
    end in
  let entry := TreeAnnounce.mk (Announce.root ann) (Announce.path_cost ann) (now env)
                 (Announce.depth ann) in
  let s := with_peer from
             (λ p, p <| PeerData.last_rx_time := now env |>
                     <| PeerData.trees := <[tree_id := Some entry]> (PeerData.trees p) |>) s in
  let s := if structural_change then s <| last_topology_change_tick := tick s |> else s in
  update_landmarks s.

Definition handle_cuckoo (env : Env) (from : bytes) (msg : CuckooMsg.t) (s : t) : t :=
  let tree_id := Z.to_nat (uz (CuckooMsg.tree_id msg)) in
  if (K <=? tree_id)%nat then s else
  let replace (p : PeerData.t) :=
    p <| PeerData.cuckoo := <[tree_id := CuckooFilter.decode (CuckooMsg.data msg)]> (PeerData.cuckoo p) |> in
  with_peer from
    (λ p, let p := p <| PeerData.last_rx_time := now env |> in
          if PeerData.peer_cuckoo_gen p !!! tree_id <? CuckooMsg.generation msg then
            replace (p <| PeerData.peer_cuckoo_gen :=
                            <[tree_id := CuckooMsg.generation msg]> (PeerData.peer_cuckoo_gen p) |>)
          else replace p) s.

Definition note_peer_coord (env : Env) (peer coord_bytes : bytes) (s : t) : t :=
  let coord := HypCoord.decode coord_bytes in
  if negb (is_finite (HypCoord.rho coord)) || negb (is_finite (HypCoord.theta coord)) then s else
  default s (note_coord env peer coord s).

Definition update_own_coord (s : t) : t :=
  let parent_theta :=
    default (S754_zero false)
      (p ← TreeState.parent (trees s !!! 0%nat); HypCoord.theta <$> coord_table s !! p) in
  let coord := HypCoord.from_tree_position (own_depth s) parent_theta (pub_key s) in
  s <| own_coord := coord |>
    <| coord_table := <[pub_key s := coord]> (coord_table s) |>
    <| sessions := SessionManager.set_own_coord (HypCoord.encode coord) (sessions s) |>.

Definition handle_coord_announce (env : Env) (from_key : bytes) (ann : CoordAnnounce.t) (s : t) : t :=
  if negb (signed_by from_key (CoordAnnounce.sign_bytes ann) (CoordAnnounce.sig ann)) then s else
  let coord := HypCoord.decode (CoordAnnounce.coord ann) in
  if negb (is_finite (HypCoord.rho coord)) || negb (is_finite (HypCoord.theta coord)) then s else
  let expected_rho :=
    HypCoord.rho (HypCoord.from_tree_position (CoordAnnounce.tree_depth ann) (S754_zero false) from_key) in
  if SFltb (f64_lit 1 1000000000) (SFabs (f64_sub (HypCoord.rho coord) expected_rho)) then
    with_peer from_key PeerData.decay_trust s
  else
  let depth_lies :=
    match peers s !! from_key ≫= λ p, PeerData.trees p !!! 0%nat with
    | Some t0 => 2 <? Z.abs (TreeAnnounce.depth t0 - CoordAnnounce.tree_depth ann)
    | None => false
    end in
  if depth_lies then with_peer from_key PeerData.decay_trust s else
  match note_coord env from_key coord s with
  | Some s => with_peer from_key
                (λ p, p <| PeerData.onion_eph_pub := Some (CoordAnnounce.onion_eph_pub ann) |>) s
  | None => s
  end.

(** ** Paths *)

Definition handle_path_negative (env : Env) (from : bytes) (neg : PathNegative.t) (s : t) : t :=
  let s := touch env from s in
  let tag := PathNegative.routing_tag neg in
  let ttl := uz (PathNegative.ttl neg) in
  let s := record_path_negative env from tag s in
  if 1 <? ttl then
    match lookup_by_tag_excluding env s tag (Some from) with
    | Some next => send_path_negative env next tag (ttl - 1) s
    | None => s
    end
  else s.

Definition handle_path_lookup (env : Env) (from : bytes) (lk : PathLookup.t) (s : t) : t :=
  let id := PathLookup.id lk in
  if bool_decide (is_Some (pending_lookups s !! id)) then s else
  if MAX_PENDING_LOOKUPS <=? Z.of_nat (size (pending_lookups s)) then s else
  let s := s <| pending_lookups := <[id := now env]> (pending_lookups s) |> in
  if bool_decide (PathLookup.target lk = pub_key s) then
    send_to_peer env from
      (PathNotify.encode (PathNotify.mk (pub_key s) (PathLookup.source lk) id (PathLookup.path lk))) s
  else
  let target_tag := routing_tag (PathLookup.target lk) in
  let candidates :=
    (λ e, (e.1, PeerData.effective_cost e.2)) <$>
      filter (λ e, PeerData.claims target_tag e.2 = true) (map_iter (ord env) (peers s)) in
  match sort_by (λ a b, a.2 <? b.2) candidates with
  | (best_peer, _) :: _ =>
      let fwd := PathLookup.mk (PathLookup.target lk) (PathLookup.source lk) id
                   (PathLookup.path lk ++ [0]) in
      send_to_peer env best_peer (PathLookup.encode fwd) s
  | [] =>
      let marks := (map_iter (ord env) (landmarks s)).*1 in
      let s := send_each env (filter (λ k, k ≠ from) marks) (PathLookup.encode lk) s in
      if bool_decide (landmarks s = ∅) then flood env from (PathLookup.encode lk) s else s
  end.

Definition handle_path_notify (env : Env) (from : bytes) (notify : PathNotify.t) (s : t) : t :=
  let s := touch env from s in
  if bool_decide (PathNotify.source notify = pub_key s) then
    let s :=
      match pending_probes s !! PathNotify.id notify with
      | Some (via, _) =>
          with_peer via PeerData.boost_trust
            (s <| pending_probes := delete (PathNotify.id notify) (pending_probes s) |>)
      | None => s
      end in
    if path_notify s then s <| io := io s ++ [PathNotifyCb (PathNotify.target notify)] |> else s
  else
    match lookup env s (PathNotify.source notify) with
    | Some next_hop => send_to_peer env next_hop (PathNotify.encode notify) s
    | None => s
    end.

Definition handle_path_broken (env : Env) (from : bytes) (broken : PathBroken.t) (s : t) : t :=
  let s := touch env from s in
  if bool_decide (PathBroken.source broken = pub_key s) then s else
  match lookup env s (PathBroken.source broken) with
  | Some next_hop => send_to_peer env next_hop (PathBroken.encode broken) s
  | None => s
  end.

Definition handle_hole_punch (env : Env) (hp : HolePunch.t) (s : t) : t :=
  if negb (signed_by (HolePunch.initiator hp) (HolePunch.sign_bytes hp) (HolePunch.sig hp)) then s else
  let skew := Z.abs (to_i64 (wall env - HolePunch.valid_from_ms hp)) in
  if 60000 <? skew then s else
  if bool_decide (HolePunch.target hp = pub_key s) then
    if hole_punch_cb s
    then s <| io := io s ++ [HolePunchCb (HolePunch.initiator hp) (HolePunch.endpoint hp)] |> else s
  else
    match lookup env s (HolePunch.target hp) with
    | Some next_hop => send_to_peer env next_hop (HolePunch.encode hp) s
    | None => s
    end.

(** ** Traffic *)

Definition send_traffic_to (env : Env) (dst payload : bytes) (s : t) : res t :=
  '(enc_header, tag) ← encrypt_header (header_priv env dst) (pub_key s) dst;
  padded ← pad_payload false payload;
  let traffic := Traffic.mk [] (pub_key s) enc_header tag (u8 PKT_CONTROL)
                   (HypCoord.encode <$> coord_table s !! dst) 0 padded in
  match lookup env s dst with
  | Some next_hop => Ok (send_to_peer env next_hop (Traffic.encode traffic) s)
  | None => Ok s
  end.

(** A session operation inside a handler: the table changes whatever the result,
    and a panic is a panic of the handler. *)
Definition with_sessions {A} (op : st SessionManager.t A) (s : t) (k : option A → t → res t) : res t :=
  let '(r, sm) := op (sessions s) in
  let s := s <| sessions := sm |> in
  match r with
  | Ok a => k (Some a) s
  | Err _ => k None s
  | Panic => Panic
  end.

Definition handle_control (env : Env) (raw : bytes) (s : t) : res t :=
  match raw with
  | [] => Ok s
  | magic :: _ =>
      if uz magic =? SESSION_INIT_MAGIC then
        let sender := take 32 (drop 1 raw) in
        with_sessions
          (SessionManager.handle_init false (ord env) (now_ms env) (wall env) (kem_rand env)
             (session_priv env sender) raw) s
          (λ ack_opt s,
             match ack_opt with
             | None => Ok s
             | Some ack_bytes =>
                 let s := match SessionInit.decode raw with
                          | Ok init => note_peer_coord env (SessionInit.ed_pub init)
                                         (SessionInit.sender_coord init) s
                          | _ => s
                          end in
                 if 33 <=? len raw then send_traffic_to env sender ack_bytes s else Ok s
             end)
      else if uz magic =? SESSION_ACK_MAGIC then
        with_sessions (SessionManager.handle_ack false (ord env) (wall env) raw) s
          (λ done s,
             match done, SessionAck.decode raw with
             | Some _, Ok ack => Ok (note_peer_coord env (SessionAck.ed_pub ack)
                                       (SessionAck.sender_coord ack) s)
             | _, _ => Ok s
             end)
      else Ok s
  end.

(** [h.lock().unwrap().decrypt(..)] on the handle of a session of the table. *)
Definition decrypt_from (env : Env) (source payload : bytes) : st SessionManager.t bytes :=
  m ← get;
  info ← lift (ok_or (SessionManager.get_session source m) "no session");
  let '(r, info) := Session.decrypt (now_ms env) payload info in
  put (m <| SessionManager.sessions := <[source := info]> (SessionManager.sessions m) |>);;
  lift r.

Definition handle_data (env : Env) (traffic : Traffic.t) (s : t) : res t :=
  match decrypt_source_from_header (Traffic.enc_header traffic) (signing_key s) with
  | None => Ok s
  | Some source =>
      with_sessions (decrypt_from env source (Traffic.payload traffic)) s
        (λ padded_pt s,
           match unpad_payload <$> padded_pt with
           | Some (Ok payload) =>
               let ok := traffic_try_send (io s) source payload in
               Ok (s <| io := io s ++ [Delivered source payload ok] |>)
           | Some Panic => Panic
           | _ => Ok s
           end)
  end.

(** The next hop of a packet in transit. *)
Definition transit_hop (env : Env) (from : bytes) (traffic : Traffic.t) (s : t) : option bytes :=
  let greedy_hop :=
    c ← Traffic.dest_coord traffic; greedy_next_hop env s (HypCoord.decode c) (Some from) in
  match greedy_hop with
  | Some h => Some h
  | None => lookup_by_tag_excluding env s (Traffic.routing_tag traffic) (Some from)
  end.

(** A packet in transit as it leaves: one more hop, and us as its sender. *)
Definition forwarded (own : bytes) (traffic : Traffic.t) : Traffic.t :=
  Traffic.mk (Traffic.path traffic) own (Traffic.enc_header traffic)
    (Traffic.routing_tag traffic) (Traffic.pkt_type traffic) (Traffic.dest_coord traffic)
    (sat_add (Traffic.watermark traffic) 1) (Traffic.payload traffic).

Definition forward_traffic (env : Env) (from : bytes) (traffic : Traffic.t) (s : t) : t :=
  let tag := Traffic.routing_tag traffic in
  if MAX_FORWARD_HOPS <=? Traffic.watermark traffic then
    send_path_negative env from tag PATH_NEG_INITIAL_TTL s
  else
  match transit_hop env from traffic s with
  | Some next_hop => send_to_peer env next_hop (Traffic.encode (forwarded (pub_key s) traffic)) s
  | None =>
      if convergence_active s then s
      else send_path_negative env from tag PATH_NEG_INITIAL_TTL s
  end.

Definition handle_traffic (env : Env) (from : bytes) (traffic : Traffic.t) (s : t) : res t :=
  let s := with_peer from
             (λ p, p <| PeerData.last_rx_time := now env |>
                     <| PeerData.rx_bytes :=
                          wrap64 (PeerData.rx_bytes p + len (Traffic.payload traffic)) |>) s in
  if routing_tag_eq (Traffic.routing_tag traffic) (routing_tag (pub_key s)) then
    let ty := uz (Traffic.pkt_type traffic) in
    if ty =? PKT_CONTROL then
      match unpad_payload (Traffic.payload traffic) with
      | Ok raw => handle_control env raw s
      | Err _ => Ok s
      | Panic => Panic
      end
    else if ty =? PKT_DATA then handle_data env traffic s
    else Ok s
  else Ok (forward_traffic env from traffic s).

(** ** Onion cells *)

(** An exit relay dispatches the inner packet. *)
Definition exit_traffic (env : Env) (from traffic_bytes : bytes) (s : t) : res t :=
  match traffic_bytes with
  | [] => Ok s
  | ptype :: data =>
      if uz ptype =? TRAFFIC then
        match Traffic.decode data with
        | Ok traffic => handle_traffic env from traffic s
        | Err _ => Ok s
        | Panic => Panic
        end
      else Ok s
  end.

(** Towards a tag, or a [PathNegative] back to where the cell came from. *)
Definition relay (env : Env) (from tag frame : bytes) (s : t) : t :=
  match lookup_by_tag_excluding env s tag (Some from) with
  | Some next => send_to_peer env next frame s
  | None => send_path_negative env from tag PATH_NEG_INITIAL_TTL s
  end.

Definition handle_onion (env : Env) (from : bytes) (pkt : OnionPacket.t) (s : t) : res t :=
  let s := touch env from s in
  let '(replay, s) := is_onion_replay pkt s in
  if replay : bool then Ok s else
  match OnionPacket.peel false pkt (onion_keys s) with
  | Ok (PForward inner_bytes) =>
      match OnionPacket.decode inner_bytes with
      | Ok inner => Ok (relay env from (OnionPacket.routing_tag inner) (OnionPacket.encode inner) s)
      | Err _ => Ok s
      | Panic => Panic
      end
  | Ok (PDeliver traffic_bytes) => exit_traffic env from traffic_bytes s
  | Err _ => Ok s
  | Panic => Panic
  end.

Definition handle_sphinx (env : Env) (from cell : bytes) (s : t) : res t :=
  let s := touch env from s in
  digest ← replay_digest cell;
  let '(replay, s) := match digest with
                      | Some d => onion_digest_seen d s
                      | None => (false, s)
                      end in
  if replay : bool then Ok s else
  match process_sphinx false cell (OnionKeyChain.sphinx_privs (onion_keys s)) with
  | Ok (SForward next_tag cell) => Ok (relay env from next_tag cell s)
  | Ok (SDeliver traffic_bytes) => exit_traffic env from traffic_bytes s
  | Err _ => Ok s
  | Panic => Panic
  end.

(** ** Dispatch *)

Definition dispatch_onion (env : Env) (from data : bytes) (s : t) : res t :=
  match OnionPacket.decode data with
  | Ok pkt =>
      if routing_tag_eq (OnionPacket.routing_tag pkt) (routing_tag (pub_key s))
      then handle_onion env from pkt s
      else Ok (relay env from (OnionPacket.routing_tag pkt) (OnionPacket.encode pkt) s)
  | Err _ => Ok s
  | Panic => Panic
  end.

Definition dispatch_sphinx (env : Env) (from frame : bytes) (s : t) : res t :=
  if negb (len frame =? CELL_SIZE) then Ok s else
  cell_tag ← slice frame 1 17;
  if routing_tag_eq cell_tag (routing_tag (pub_key s)) then handle_sphinx env from frame s
  else Ok (relay env from cell_tag frame s).

Definition dispatch (env : Env) (from frame : bytes) (s : t) : res t :=
  match Frame.decode frame with
  | Err _ => Ok s
  | Panic => Panic
  | Ok Frame.Dummy => Ok s
  | Ok Frame.KeepAlive => Ok (touch env from s)
  | Ok (Frame.ASigReq m) => Ok (handle_sig_req env from m s)
  | Ok (Frame.ASigRes m) => Ok (handle_sig_res env from m s)
  | Ok (Frame.AnAnnounce m) => Ok (handle_announce env from m s)
  | Ok (Frame.ACuckoo m) => Ok (handle_cuckoo env from m s)
  | Ok (Frame.APathLookup m) => Ok (handle_path_lookup env from m s)
  | Ok (Frame.APathNotify m) => Ok (handle_path_notify env from m s)
  | Ok (Frame.APathBroken m) => Ok (handle_path_broken env from m s)
  | Ok (Frame.ATraffic m) => handle_traffic env from m s
  | Ok (Frame.ACoord m) => Ok (handle_coord_announce env from m s)
  | Ok (Frame.AnOnionKey m) => Ok (handle_onion_key_announce env from m s)
  | Ok (Frame.ACapability m) => Ok (handle_capabilities env from m s)
  | Ok (Frame.AReputation m) => Ok (handle_reputation_report env from m s)
  | Ok (Frame.AHolePunch m) => Ok (handle_hole_punch env m s)
  | Ok (Frame.APathNegative m) => Ok (handle_path_negative env from m s)
  | Ok (Frame.Other ptype data) =>
      if ptype =? TYPE_ONION then dispatch_onion env from data s
      else if ptype =? TYPE_ONION_SPHINX then dispatch_sphinx env from frame s
      else Ok s
  end.

(** ** Maintenance *)

Definition rotate_onion_keys_if_due (env : Env) (s : t) : t :=
  let interval := default ONION_KEY_ROTATION_TICKS ((λ n, wrap32 (Z.max n 1)) <$> accelerate env) in
  if (tick s mod interval =? 0) && (0 <? tick s) then
    broadcast_onion_key_announce env
      (s <| onion_keys := OnionKeyChain.rotate (now_ms env) (onion_priv env) (onion_keys s) |>)
  else s.

Definition probe_candidates (env : Env) (s : t) : list (bytes * bytes) :=
  let known := filter (λ id, id ≠ pub_key s)
                 (peer_keys env s ++ (map_iter (ord env) (remote_onion_keys s)).*1) in
  peer ← map_iter (ord env) (peers s);
  pair peer.1 <$> filter (λ target, target ≠ peer.1 ∧ PeerData.claims (routing_tag target) peer.2 = true)
                    known.

Definition probe_cuckoo_claim (env : Env) (s : t) : t :=
  let candidates := probe_candidates env s in
  match candidates !! (probe_pick env `mod` length candidates)%nat with
  | Some (via, target) =>
      let id := probe_id env in
      let s := send_to_peer env via (PathLookup.encode (PathLookup.mk target (pub_key s) id [])) s in
      s <| pending_probes := <[id := (via, now env)]> (pending_probes s) |>
  | None => s
  end.

Definition cleanup_stale_probes (env : Env) (s : t) : t :=
  let expired := filter (λ e, PROBE_TIMEOUT < duration_since (now env) e.2.2)
                   (map_iter (ord_id env) (pending_probes s)) in
  foldl (λ s e, with_peer e.2.1 PeerData.decay_trust
                  (s <| pending_probes := delete e.1 (pending_probes s) |>)) s expired.

Definition cleanup_stale_lookups (env : Env) (s : t) : t :=
  s <| pending_lookups := filter (λ e, duration_since (now env) e.2 < 10 * SECS) (pending_lookups s) |>.

(** The retransmitted handshakes go out one after the other. *)
Fixpoint send_inits (env : Env) (inits : list (bytes * bytes)) (s : t) : res t :=
  match inits with
  | [] => Ok s
  | (dst, init) :: inits => s ← send_traffic_to env dst init s; send_inits env inits s
  end.

(** [do_maintenance] up to the retransmission of handshakes. *)
Definition maintain_topology (env : Env) (s : t) : t :=
  let s := s <| tick := wrap32 (tick s + 1) |> in
  let s := expire_peers env s in
  let s := foldl (λ s i, cuckoo_do_maintenance env i (fix_tree env i s)) s (seq 0 K) in
  let s := update_own_coord s in
  let s := maybe_broadcast_control env s in
  let s := if tick s mod KEEPALIVE_TICKS =? 0 then send_keepalives env s else s in
  let s := s <| sessions := SessionManager.rotate_session_keys (session_priv env) (sessions s) |> in
  let s := rotate_onion_keys_if_due env s in
  s <| sessions := snd (SessionManager.maybe_rotate_pq_keys (accelerate env) (now_ms env)
                          (pq_dk env) (sessions s)) |>.

(** [do_maintenance] after the retransmission of handshakes. *)
Definition maintain_gossip (env : Env) (s : t) : t :=
  let every n := tick s mod n =? 0 in
  let s := if (tick s =? 1) || every ONION_KEY_ANNOUNCE_TICKS
           then broadcast_onion_key_announce env s else s in
  let s := if (tick s =? 1) || every CAPABILITY_BROADCAST_TICKS
           then broadcast_capabilities env s else s in
  let s := if every PROBE_INTERVAL_TICKS && (0 <? tick s) then probe_cuckoo_claim env s else s in
  let s := if every REPUTATION_REPORT_TICKS && (0 <? tick s) then broadcast_reputation env s else s in
  let s := cleanup_stale_probes env s in
  let s := cleanup_stale_lookups env s in
  let s := s <| sessions := SessionManager.cleanup_stale_sessions (now_ms env) (sessions s) |> in
  cleanup_path_negative_cache env s.

Definition do_maintenance (env : Env) (s : t) : res t :=
  let s := maintain_topology env s in
  let '(inits, sm) := SessionManager.pending_handshake_inits (ord env) (now_ms env) (wall env) (sessions s) in
  s ← send_inits env inits (s <| sessions := sm |>);
  Ok (maintain_gossip env s).

(** ** Sending application data *)

Definition encrypt_and_dispatch (env : Env) (own payload dst : bytes) : st t unit :=
  padded ← lift (pad_payload false payload);
  s ← get;
  info ← lift (ok_or (SessionManager.get_session dst (sessions s)) "session not established");
  let '(r, info) := Session.encrypt false (now_ms env) padded info in
  let sm := sessions s in
  put (s <| sessions := sm <| SessionManager.sessions := <[dst := info]> (SessionManager.sessions sm) |> |>);;
  ciphertext ← lift r;
  '(enc_header, tag) ← lift (encrypt_header (header_priv env dst) own dst);
  s ← get;
  let traffic := Traffic.mk [] own enc_header tag (u8 PKT_DATA)
                   (HypCoord.encode <$> coord_table s !! dst) 0 ciphertext in
  match lookup env s dst with
  | Some next_hop => put (send_to_peer env next_hop (Traffic.encode traffic) s)
  | None => fail "no route"
  end.
End Handlers.
