(* ===== verification/RouterToy.v ===== *)
(** * A concrete router

    Instances of the router's parameters and a router with two neighbours, on which
    the witnesses of the router's theorems are evaluated: channels that always have
    room, and a distance that compares depths only. *)

From Stdlib Require Import Floats.SpecFloat.
From S2P Require Import Prelude Collections Floats Crypto Hyperbolic Cuckoo Packet.
From S2P Require Import SessionManager Onion Router Routing Handlers.
Import RouterState.

Module ToyRouter.
Export Toy.

#[export] Instance toy_channels : Channels := {|
  link_try_send _ _ _ := Sent;
  link_is_closed _ _ := false;
  traffic_try_send _ _ _ := true |}.

(** With these, the distance of two coordinates is the difference of their depths. *)
#[export] Instance toy_libm : Libm := {|
  f64_sin _ := S754_zero false;
  f64_sinh _ := S754_zero false;
  f64_cosh x := f64_add (SFabs x) (f64_of_Z 1);
  f64_acosh x := f64_sub x (f64_of_Z 1);
  f64_powi x n := x |}.

Definition env_at (now wall : Z) : Env := {|
  Router.now := now; Router.wall := wall; ord := default_order _; ord_id := default_order _; ord_neg := default_order _;
  accelerate := None; cuckoo_coin := true; cuckoo_rng := λ _, 0%fin;
  merge_rng := λ _ _ _, 0%fin; poison_tags := [];
  kem_rand := fill 32 (u8 11); session_priv := λ _, fill 32 (u8 12); pq_dk := fill 64 (u8 13);
  onion_priv := fill 32 (u8 14); header_priv := λ _, fill 32 (u8 15);
  probe_pick := 0; probe_id := 99 |}.

Definition wall0 : Z := 1700000000000.
Definition env : Env := env_at 5000000 wall0.

Definition sk_me := fill 32 (u8 0xF1).
Definition sk_a := fill 32 (u8 0xA1).
Definition sk_b := fill 32 (u8 0xB1).
Definition key_me := ed_public sk_me.
Definition key_a := ed_public sk_a.
Definition key_b := ed_public sk_b.

Definition router0 : t := new env sk_me (fill 64 (u8 1)) (fill 32 (u8 2)).
(** Two neighbours, the second over two links. *)
Definition router : t :=
  add_peer env key_b 3 0 (add_peer env key_b 2 0 (add_peer env key_a 1 0 router0)).

(** An announce of [sender], as its own router sends it. *)
Definition announce (sk root : bytes) (cost depth : Z) : Announce.t :=
  let ann sig := Announce.mk (u8 0) root 0 cost (ed_public sk) sig depth in
  ann (ed_sign sk (Announce.sign_bytes (ann (fill 64 (u8 0))))).
End ToyRouter.
