(* ===== verification/RouterProps.v ===== *)
(** * Theorems about the router

    What the router promises, on the definitions of [Router], [Routing] and
    [Handlers]. *)

From Stdlib Require Import Floats.SpecFloat.
From S2P Require Import Prelude Collections Xor Floats Crypto Hyperbolic Varint Cuckoo Packet.
From S2P Require Import Header Address SessionWire Session SessionManager Onion Sphinx.
From S2P Require Import Router Routing Handlers RouterToy.
Import RouterState.

(** ** What sending changes

    Sending touches the counters and the links of neighbours, and the log. *)

Record link_rel (p p' : PeerData.t) : Prop := {
  link_txs : PeerData.txs p' `sublist_of` PeerData.txs p;
  link_rest : ∃ n b l, p' = p <| PeerData.txs := PeerData.txs p' |> <| PeerData.next_tx := n |>
                            <| PeerData.tx_bytes := b |> <| PeerData.last_tx_time := l |> }.

#[global] Instance link_rel_preorder : PreOrder link_rel.
Proof.
  split.
  - intros p. split; [done|]. destruct p. cbn. eauto.
  - intros p p' p'' [H1 (n & b & l & ->)] [H2 (n' & b' & l' & ->)]. split; cbn in *.
    + by etrans.
    + eauto.
Qed.

Definition peers_rel (m m' : gmap bytes PeerData.t) : Prop :=
  ∀ k, option_Forall2 link_rel (m !! k) (m' !! k).

#[global] Instance peers_rel_preorder : PreOrder peers_rel.
Proof.
  split.
  - intros m k. destruct (m !! k); constructor. done.
  - intros m m' m'' H1 H2 k. specialize (H1 k). specialize (H2 k).
    destruct H1; inversion H2; subst; constructor. by etrans.
Qed.

Definition sends (s s' : t) : Prop :=
  peers_rel (peers s) (peers s') ∧ (∃ l, io s' = io s ++ l) ∧
  s' = s <| peers := peers s' |> <| io := io s' |>.

#[global] Instance sends_preorder : PreOrder sends.
Proof.
  split.
  - intros s. split_and!; [done|by exists []; rewrite app_nil_r|by destruct s].
  - intros s s' s'' (H1 & (l & E1) & H1') (H2 & (l' & E2) & H2'). split_and!.
    + by etrans.
    + exists (l ++ l'). by rewrite E2, E1, app_assoc.
    + rewrite H2'. rewrite H1' at 1. by destruct s, s', s''.
Qed.

Section Sends.
Context `{Channels}.

Lemma try_links_log data links log :
  ∃ l, snd (try_links data links log) = log ++ l.
Proof.
  revert log. induction links as [|tx links IH]; intros log; cbn.
  - exists []. by rewrite app_nil_r.
  - destruct (link_try_send log tx data); [by eexists|..];
      match goal with |- context [try_links _ _ ?L] => destruct (IH L) as [l' E'] end;
      rewrite E', <- app_assoc; by eexists.
Qed.

Lemma send_to_peer_sends env k data s : sends s (send_to_peer env k data s).
Proof.
  unfold send_to_peer. destruct (peers s !! k) as [p|] eqn:Hp; [|done].
  destruct (len (PeerData.txs p) =? 0); [done|].
  destruct (try_links_log data
    (drop (Z.to_nat (PeerData.next_tx p mod len (PeerData.txs p))) (PeerData.txs p)
     ++ take (Z.to_nat (PeerData.next_tx p mod len (PeerData.txs p))) (PeerData.txs p)) (io s)) as [l Hl].
  destruct (try_links _ _ _) as [sent log]. cbn in Hl.
  split_and!; [|by exists l|by destruct s].
  intros k'. cbn. destruct (decide (k' = k)) as [->|]; [|by rewrite lookup_insert_ne].
  rewrite Hp, lookup_insert_eq. constructor. destruct p, sent; split; cbn; eauto.
  apply sublist_filter.
Qed.

Lemma send_each_sends env keys data s : sends s (send_each env keys data s).
Proof.
  unfold send_each. revert s. induction keys as [|k keys IH]; intros s; cbn; [done|].
  etrans; [apply send_to_peer_sends|apply IH].
Qed.
End Sends.

(** ** The replay cache *)

Definition lastn {A} (n : nat) (l : list A) : list A := drop (length l - n) l.

Lemma lastn_length {A} n (l : list A) : length (lastn n l) = Nat.min n (length l).
Proof. unfold lastn. rewrite length_drop. lia. Qed.

Lemma lastn_snoc {A} n (l : list A) x :
  (0 < n)%nat →
  lastn n (l ++ [x]) =
    (if decide (n ≤ length (lastn n l))%nat then drop 1 (lastn n l) else lastn n l) ++ [x].
Proof.
  intros Hn. rewrite lastn_length. unfold lastn. rewrite length_app. cbn.
  destruct (decide _).
  - rewrite drop_app_le by lia. rewrite drop_drop. f_equal. f_equal. lia.
  - replace (length l + 1 - n)%nat with 0%nat by lia. by replace (length l - n)%nat with 0%nat by lia.
Qed.

(** The set mirrors the queue, which holds the last digests accepted. *)
Record seen_ok (s : t) : Prop := {
  seen_nodup : NoDup (onion_seen s);
  seen_mirror : onion_seen_set s = list_to_set (onion_seen s);
  seen_bound : len (onion_seen s) ≤ ONION_REPLAY_CACHE_SIZE }.

(** The cells that go through the replay check of a router, and those accepted. *)
Fixpoint replay_run (digests : list bytes) (s : t) : list bytes * t :=
  match digests with
  | [] => ([], s)
  | d :: digests =>
      let '(seen, s) := onion_digest_seen d s in
      let '(acc, s) := replay_run digests s in
      (if seen : bool then acc else d :: acc, s)
  end.

Definition cache_size : nat := Z.to_nat ONION_REPLAY_CACHE_SIZE.

Lemma onion_digest_seen_spec d s hist :
  seen_ok s → onion_seen s = lastn cache_size hist →
  let '(seen, s') := onion_digest_seen d s in
  seen_ok s' ∧ seen = bool_decide (d ∈ lastn cache_size hist) ∧
  onion_seen s' = lastn cache_size (if seen then hist else hist ++ [d]).
Proof.
  intros [Hnd Hm Hb] E. unfold onion_digest_seen.
  assert (bool_decide (d ∈ onion_seen_set s) = bool_decide (d ∈ lastn cache_size hist)) as ->.
  { apply bool_decide_ext. rewrite Hm, E. by rewrite elem_of_list_to_set. }
  destruct (bool_decide_reflect (d ∈ lastn cache_size hist)) as [|Hd]; [by split_and!|].
  rewrite <- E in Hd.
  assert (onion_seen s = lastn cache_size hist → 
    lastn cache_size (hist ++ [d]) =
      (if decide (cache_size ≤ length (onion_seen s))%nat then drop 1 (onion_seen s)
       else onion_seen s) ++ [d]) as Hl.
  { intros ->. apply lastn_snoc. unfold cache_size, ONION_REPLAY_CACHE_SIZE. lia. }
  rewrite (Hl E). clear Hl E hist. unfold len, cache_size in *.
  set (N := ONION_REPLAY_CACHE_SIZE) in *. assert (0 < N) by (unfold N, ONION_REPLAY_CACHE_SIZE; lia).
  cbn. destruct (Z.leb_spec N (Z.of_nat (length (onion_seen s)))) as [Hf|Hf].
  - rewrite decide_True by lia.
    destruct (onion_seen s) as [|e rest] eqn:Es; [cbn in *; lia|].
    cbn. apply NoDup_cons in Hnd as [He Hnd]. rewrite not_elem_of_cons in Hd. destruct Hd as [Hde Hd].
    split_and!; [split; cbn|done|by rewrite drop_0].
    + apply NoDup_app. split_and!; [done|set_solver|apply NoDup_singleton].
    + rewrite Hm, list_to_set_app_L. cbn. set_solver.
    + unfold len. rewrite length_app. cbn in *. lia.
  - rewrite decide_False by lia. split_and!; [split; cbn|done|done].
    + apply NoDup_app. split_and!; [done|set_solver|apply NoDup_singleton].
    + rewrite Hm, list_to_set_app_L. cbn. set_solver.
    + unfold len. rewrite length_app. cbn. lia.
Qed.

(** Two acceptances of the same digest are more than a cache apart. *)
Definition replay_spaced (acc : list bytes) : Prop :=
  ∀ i j d, acc !! i = Some d → acc !! j = Some d → (i < j)%nat → (cache_size < j - i)%nat.

Lemma replay_spaced_snoc hist d :
  replay_spaced hist → d ∉ lastn cache_size hist → replay_spaced (hist ++ [d]).
Proof.
  intros Hs Hd i j d' Hi Hj Hij.
  apply lookup_app_Some in Hi as [Hi|[Hle Hi]]; apply lookup_app_Some in Hj as [Hj|[Hle' Hj]].
  - eauto.
  - apply list_lookup_singleton_Some in Hj as [Hj ->].
    destruct (decide (i < length hist - cache_size)%nat); [lia|]. exfalso. apply Hd.
    apply list_elem_of_lookup. exists (i - (length hist - cache_size))%nat. unfold lastn.
    rewrite lookup_drop. rewrite <- Hi. f_equal. lia.
  - apply lookup_lt_Some in Hj. lia.
  - apply list_lookup_singleton_Some in Hj as [Hj _]. lia.
Qed.

Lemma replay_run_spec ds : ∀ s hist,
  seen_ok s → onion_seen s = lastn cache_size hist → replay_spaced hist →
  let '(acc, s') := replay_run ds s in
  seen_ok s' ∧ onion_seen s' = lastn cache_size (hist ++ acc) ∧ replay_spaced (hist ++ acc).
Proof.
  induction ds as [|d ds IH]; intros s hist Hok E Hs; cbn.
  - by rewrite app_nil_r.
  - pose proof (onion_digest_seen_spec d s hist Hok E) as Hd.
    destruct (onion_digest_seen d s) as [seen s1]. destruct Hd as (Hok1 & Hseen & E1).
    specialize (IH s1 (if seen then hist else hist ++ [d])).
    destruct (replay_run ds s1) as [acc s2]. destruct seen.
    + by apply IH.
    + replace (hist ++ d :: acc) with ((hist ++ [d]) ++ acc) by by rewrite <- app_assoc.
      apply IH; [done..|]. apply replay_spaced_snoc; [done|]. symmetry in Hseen.
      by apply bool_decide_eq_false in Hseen.
Qed.

Lemma new_seen_ok `{Ed25519} `{X25519} `{MlKem} `{Sha512} env sk dk seed :
  seen_ok (new env sk dk seed).
Proof. split; [constructor|done|cbn; unfold len, ONION_REPLAY_CACHE_SIZE; cbn; lia]. Qed.


(** ** Choosing a parent *)

Lemma elem_of_snoc {A} (l : list A) x y : y ∈ l ++ [x] ↔ y ∈ l ∨ y = x.
Proof. rewrite elem_of_app, list_elem_of_singleton. done. Qed.

Section FixTree.
Context `{Blake2} (env : Env) (tree_id : nat).

Let epoch := current_tree_epoch (wall env).
Definition root_metric (root : bytes) : bytes :=
  tree_metric_at root (TREE_SEEDS !!! tree_id) (current_tree_epoch (wall env)).

(** A neighbour with an announce that has not expired, and the cost through it. *)
Definition live (s : t) (k : bytes) (p : PeerData.t) (a : TreeAnnounce.t) : Prop :=
  peers s !! k = Some p ∧ PeerData.trees p !!! tree_id = Some a ∧
  duration_since (now env) (TreeAnnounce.received_at a) ≤ ANNOUNCE_EXPIRY.
Definition cost_through (p : PeerData.t) (a : TreeAnnounce.t) : Z :=
  sat_add (TreeAnnounce.path_cost a) (PeerData.effective_cost p).

Definition candidate (e : bytes * PeerData.t) : option Best :=
  a ← PeerData.trees e.2 !!! tree_id;
  if ANNOUNCE_EXPIRY <? duration_since (now env) (TreeAnnounce.received_at a) then None
  else Some (Build_Best (TreeAnnounce.root a) (root_metric (TreeAnnounce.root a))
               (cost_through e.2 a) e.1).

Definition beats (c b : Best) : bool :=
  metric_less (best_root_metric c) (best_root_metric b)
  || (bool_decide (best_root_metric c = best_root_metric b) && (best_cost c <? best_cost b)).

Lemma beats_trans a b c : beats a b = true → beats b c = true → beats a c = true.
Proof.
  unfold beats, metric_less. rewrite !orb_true_iff, !andb_true_iff, !bool_decide_eq_true, !Z.ltb_lt.
  intros [H1|[E1 H1]] [H2|[E2 H2]].
  - left. by eapply bytes_ltb_trans.
  - left. by rewrite <- E2.
  - left. by rewrite E1.
  - right. split; [congruence|lia].
Qed.

Lemma fix_tree_step_candidate prev acc e :
  fix_tree_step env tree_id epoch prev acc e =
    match candidate e with
    | None => acc
    | Some c =>
        (if match acc.1 with None => true | Some b => beats c b end then Some c else acc.1,
         if bool_decide (Some (best_parent c) = prev) then Some (best_root_metric c, best_cost c)
         else acc.2)
    end.
Proof.
  destruct acc as [best inc], e as [k p]. unfold fix_tree_step, candidate, beats. cbn.
  destruct (PeerData.trees p !!! tree_id) as [a|]; cbn; [|done].
  by destruct (_ <? _).
Qed.

(** What the loop has found after the neighbours [l]. *)
Record loop_ok (prev : option bytes) (l : list (bytes * PeerData.t))
    (acc : option Best * option (bytes * Z)) : Prop := {
  loop_best : match acc.1 with
              | None => ∀ e, e ∈ l → candidate e = None
              | Some b => (∃ e, e ∈ l ∧ candidate e = Some b) ∧
                          ∀ e c, e ∈ l → candidate e = Some c → beats c b = false
              end;
  loop_inc : match acc.2 with
             | None => ∀ e c, e ∈ l → candidate e = Some c → Some (best_parent c) ≠ prev
             | Some (m, cost) => ∃ e c, e ∈ l ∧ candidate e = Some c ∧ Some (best_parent c) = prev ∧
                                        m = best_root_metric c ∧ cost = best_cost c
             end }.

Lemma fix_tree_loop prev l : loop_ok prev l (foldl (fix_tree_step env tree_id epoch prev) (None, None) l).
Proof.
  induction l as [|e l IH] using rev_ind; [split; cbn; intros ? *; by rewrite elem_of_nil|].
  rewrite foldl_snoc, fix_tree_step_candidate.
  set (acc := foldl _ _ _) in *. destruct acc as [best inc], IH as [Hb Hi]. cbn in Hb, Hi.
  destruct (candidate e) as [c|] eqn:Hc; split; cbn.
  - assert (beats c c = false) as Hcc.
    { unfold beats, metric_less. by rewrite bytes_ltb_irrefl, Z.ltb_irrefl, andb_false_r. }
    destruct best as [b|]; [destruct (beats c b) eqn:Hcb|]; setoid_rewrite elem_of_snoc; [|naive_solver..].
    split; [naive_solver|]. intros e' c' [He'| ->] Hc'; [|naive_solver].
    destruct (beats c' c) eqn:E; [|done]. destruct Hb as [_ Hall].
    by rewrite <- (Hall e' c' He' Hc'), (beats_trans c' c b).
  - destruct (bool_decide_reflect (Some (best_parent c) = prev)) as [E|E].
    + exists e, c. split_and!; [apply elem_of_snoc; by right|done..].
    + destruct inc as [[m cost]|]; setoid_rewrite elem_of_snoc.
      * destruct Hi as (e' & c' & ? & ?). exists e', c'. auto.
      * intros e' c' [He'| ->] Hc'; [eauto|congruence].
  - destruct best; setoid_rewrite elem_of_snoc; naive_solver.
  - destruct inc as [[m cost]|]; setoid_rewrite elem_of_snoc.
    + destruct Hi as (e' & c' & ? & ?). exists e', c'. auto.
    + intros e' c' [He'| ->] Hc'; [eauto|congruence].
Qed.

Definition best_of (k : bytes) (p : PeerData.t) (a : TreeAnnounce.t) : Best :=
  Build_Best (TreeAnnounce.root a) (root_metric (TreeAnnounce.root a)) (cost_through p a) k.

Lemma candidate_live s e c :
  e ∈ map_iter (ord env) (peers s) ∧ candidate e = Some c ↔
  ∃ a, live s e.1 e.2 a ∧ c = best_of e.1 e.2 a.
Proof.
  destruct e as [k p]. rewrite elem_of_map_iter. unfold candidate, live. cbn. split.
  - intros [Hp Hc]. destruct (PeerData.trees p !!! tree_id) as [a|]; [|done]. cbn in Hc.
    destruct (Z.ltb_spec ANNOUNCE_EXPIRY (duration_since (now env) (TreeAnnounce.received_at a)));
      [done|]. simplify_eq. by exists a.
  - intros (a & (Hp & -> & Hl) & ->). cbn. by test_false.
Qed.

(** The tree that [fix_tree] installs. *)
Definition chosen (s : t) : TreeState.t :=
  let tree := trees s !!! tree_id in
  let acc := foldl (fix_tree_step env tree_id epoch (TreeState.parent tree)) (None, None)
               (map_iter (ord env) (peers s)) in
  let self := TreeState.mk None (pub_key s) (wrap64 (TreeState.root_seq tree + 1)) 0 in
  match acc.1 with
  | None => self
  | Some b =>
      if metric_less (root_metric (pub_key s)) (best_root_metric b) then self
      else let d := damped (TreeState.parent tree) b acc.2 in
           TreeState.mk d.1 (best_root b) (TreeState.root_seq tree) d.2
  end.

Lemma fix_tree_trees s : trees (fix_tree env tree_id s) = <[tree_id := chosen s]> (trees s).
Proof.
  unfold fix_tree, chosen. fold epoch. fold (root_metric (pub_key s)).
  destruct (foldl _ _ _) as [[b|] inc]; cbn [fst snd].
  - destruct (metric_less _ _).
    + by destruct (bool_decide (_ = _)), (bool_decide (_ = _)).
    + destruct (damped _ _ _) as [parent cost]. cbn [fst snd].
      by destruct (bool_decide (_ = _)), (bool_decide (_ = _)).
  - by destruct (bool_decide (_ = _)), (bool_decide (_ = _)).
Qed.
End FixTree.

Lemma sat_add_mono a b m : a ≤ b → sat_add a m ≤ sat_add b m.
Proof. unfold sat_add. lia. Qed.
Lemma cost_through_le p a m : 0 ≤ m → cost_through p a ≤ sat_add (cost_through p a) m.
Proof. unfold cost_through, sat_add. lia. Qed.

Lemma live_fun `{Blake2} env tree_id s k p a p' a' :
  live env tree_id s k p a → live env tree_id s k p' a' → p = p' ∧ a = a'.
Proof. unfold live. naive_solver congruence. Qed.

Section FixTreeChoice.
Context `{Blake2} (env : Env) (tree_id : nat) (s : t).

Abbreviation metric := (root_metric env tree_id).

(** The neighbours that could be the parent under the winning root. *)
Definition rival (root : bytes) (p : PeerData.t) (a : TreeAnnounce.t) : Prop :=
  (∃ k, live env tree_id s k p a) ∧ metric (TreeAnnounce.root a) = metric root.

Record choice_ok (tr : TreeState.t) : Prop := {
  choice_self : metric_less (metric (pub_key s)) (metric (TreeState.root tr)) = false;
  choice_best : ∀ k p a, live env tree_id s k p a →
    metric_less (metric (TreeAnnounce.root a)) (metric (TreeState.root tr)) = false;
  choice_parent :
    match TreeState.parent tr with
    | None => TreeState.root tr = pub_key s ∧ TreeState.parent_cost tr = 0
    | Some k => ∃ p a, live env tree_id s k p a ∧ metric (TreeAnnounce.root a) = metric (TreeState.root tr) ∧
        TreeState.parent_cost tr = cost_through p a ∧
        ∀ p' a', rival (TreeState.root tr) p' a' →
          TreeState.parent_cost tr ≤ sat_add (cost_through p' a') PARENT_SWITCH_MARGIN_US
    end;
  choice_stable : ∀ k p a,
    TreeState.parent (trees s !!! tree_id) = Some k → live env tree_id s k p a →
    metric (TreeAnnounce.root a) = metric (TreeState.root tr) →
    (∀ p' a', rival (TreeState.root tr) p' a' →
       cost_through p a ≤ sat_add (cost_through p' a') PARENT_SWITCH_MARGIN_US) →
    TreeState.parent tr = Some k }.

Lemma loop_live prev :
  let acc := foldl (fix_tree_step env tree_id (current_tree_epoch (wall env)) prev) (None, None)
               (map_iter (ord env) (peers s)) in
  match acc.1 with
  | None => ∀ k p a, ¬ live env tree_id s k p a
  | Some b => (∃ k p a, live env tree_id s k p a ∧ b = best_of env tree_id k p a) ∧
              ∀ k p a, live env tree_id s k p a → beats (best_of env tree_id k p a) b = false
  end ∧
  match acc.2 with
  | None => ∀ k p a, live env tree_id s k p a → Some k ≠ prev
  | Some (m, c) => ∃ k p a, live env tree_id s k p a ∧ Some k = prev ∧
                            m = metric (TreeAnnounce.root a) ∧ c = cost_through p a
  end.
Proof.
  intros acc. pose proof (fix_tree_loop env tree_id prev (map_iter (ord env) (peers s))) as [Hb Hi].
  fold acc in Hb, Hi.
  assert (∀ k p a, live env tree_id s k p a → (k, p) ∈ map_iter (ord env) (peers s) ∧
            candidate env tree_id (k, p) = Some (best_of env tree_id k p a)) as Hl.
  { intros k p a Hl. apply candidate_live. by exists a. }
  split.
  - destruct (acc.1) as [b|].
    + destruct Hb as [([k p] & Hin & Hc) Hall]. split.
      * destruct (proj1 (candidate_live env tree_id s (k, p) b) (conj Hin Hc)) as (a & ? & ?).
        by exists k, p, a.
      * intros k' p' a' [Hin' Hc']%Hl. eauto.
    + intros k p a [Hin Hc]%Hl. by rewrite Hb in Hc.
  - destruct (acc.2) as [[m c]|].
    + destruct Hi as ([k p] & b & Hin & Hc & Hp & -> & ->).
      destruct (proj1 (candidate_live env tree_id s (k, p) b) (conj Hin Hc)) as (a & ? & ->).
      by exists k, p, a.
    + intros k p a [Hin Hc]%Hl. by apply (Hi _ _ Hin Hc).
Qed.

Lemma beats_false k p a b :
  beats (best_of env tree_id k p a) b = false →
  metric_less (metric (TreeAnnounce.root a)) (best_root_metric b) = false ∧
  (metric (TreeAnnounce.root a) = best_root_metric b → best_cost b ≤ cost_through p a).
Proof.
  unfold beats. intros [Hm Hc]%orb_false_iff. split; [done|]. cbn in Hc. intros E.
  rewrite bool_decide_true in Hc by done. cbn in Hc. by apply Z.ltb_ge.
Qed.

(** The parent and the cost after the hysteresis. *)
Lemma damped_ok b inc :
  (∃ k p a, live env tree_id s k p a ∧ b = best_of env tree_id k p a) →
  (∀ k p a, live env tree_id s k p a → beats (best_of env tree_id k p a) b = false) →
  match inc with
  | None => True
  | Some (m, c) => ∃ k p a, live env tree_id s k p a ∧
                     Some k = TreeState.parent (trees s !!! tree_id) ∧
                     m = metric (TreeAnnounce.root a) ∧ c = cost_through p a
  end →
  let d := damped (TreeState.parent (trees s !!! tree_id)) b inc in
  ∃ k p a, live env tree_id s k p a ∧ metric (TreeAnnounce.root a) = best_root_metric b ∧
    d.1 = Some k ∧ d.2 = cost_through p a ∧
    ∀ p' a', rival (best_root b) p' a' → d.2 ≤ sat_add (cost_through p' a') PARENT_SWITCH_MARGIN_US.
Proof.
  intros (kb & pb & ab & Hlb & ->) Hall Hi d.
  assert (∀ p' a', rival (TreeAnnounce.root ab) p' a' → cost_through pb ab ≤ cost_through p' a') as Hmin.
  { intros p' a' [[k' Hl'] E]. by apply (beats_false k' p' a' _ (Hall _ _ _ Hl')). }
  assert (∃ k p a, live env tree_id s k p a ∧ metric (TreeAnnounce.root a) = metric (TreeAnnounce.root ab) ∧
    Some (best_parent (best_of env tree_id kb pb ab)) = Some k ∧ cost_through pb ab = cost_through p a ∧
    ∀ p' a', rival (TreeAnnounce.root ab) p' a' →
      cost_through pb ab ≤ sat_add (cost_through p' a') PARENT_SWITCH_MARGIN_US) as Hbest.
  { exists kb, pb, ab. split_and!; try done. intros p' a' Hr. etrans; [by apply Hmin|].
    by apply cost_through_le. }
  unfold d, damped. destruct inc as [[m c]|]; [|exact Hbest].
  destruct Hi as (k & p & a & Hl & Hk & -> & ->).
  destruct (_ && _) eqn:E; [|exact Hbest].
  apply andb_true_iff in E as [[Em%bool_decide_eq_true _]%andb_true_iff Hc%Z.leb_le].
  exists k, p, a. split_and!; try done. cbn. intros p' a' Hr.
  etrans; [exact Hc|]. apply sat_add_mono. by apply Hmin.
Qed.

Lemma chosen_ok : choice_ok (chosen env tree_id s).
Proof.
  unfold chosen.
  pose proof (loop_live (TreeState.parent (trees s !!! tree_id))) as [Hb Hi].
  destruct (foldl _ _ _) as [best inc]. cbn [fst snd] in *.
  destruct best as [b|]; cycle 1.
  { split; cbn; [apply bytes_ltb_irrefl|..]; naive_solver. }
  destruct Hb as [Hex Hall].
  destruct (metric_less (metric (pub_key s)) (best_root_metric b)) eqn:Hself.
  - assert (∀ k p a, live env tree_id s k p a →
      metric_less (metric (pub_key s)) (metric (TreeAnnounce.root a)) = true) as Hlt.
    { intros k p a Hl. destruct (beats_false k p a b (Hall _ _ _ Hl)) as [Hm _].
      apply bytes_ltb_ge in Hm as [->|Hm]; [done|]. by eapply bytes_ltb_trans. }
    split; cbn; [apply bytes_ltb_irrefl|..|done|].
    + intros k p a Hl. by apply bytes_ltb_asym, (Hlt k p).
    + intros k p a _ Hl E. specialize (Hlt _ _ _ Hl). rewrite E in Hlt.
      unfold metric_less in Hlt. by rewrite bytes_ltb_irrefl in Hlt.
  - assert (best_root_metric b = metric (best_root b)) as Em by naive_solver.
    destruct (damped_ok b inc Hex Hall) as (k & p & a & Hl & Ea & Hd1 & Hd2 & Hle).
    { destruct inc as [[m c]|]; naive_solver. }
    split; cbn [TreeState.root TreeState.parent TreeState.parent_cost].
    + by rewrite <- Em.
    + intros k' p' a' Hl'. rewrite <- Em. apply (beats_false k' p' a' b). eauto.
    + rewrite Hd1. exists p, a. rewrite <- Em. by split_and!.
    + intros k' p' a' Hprev Hl' E' Hnear. unfold damped. rewrite Hprev in *.
      destruct inc as [[m c]|]; [|by destruct (Hi _ _ _ Hl')].
      destruct Hi as (k2 & p2 & a2 & Hl2 & [= ->] & -> & ->).
      destruct (live_fun env tree_id s _ _ _ _ _ Hl' Hl2) as [<- <-].
      rewrite bool_decide_true by congruence.
      destruct (bool_decide_reflect (Some (best_parent b) ≠ Some k')) as [|Hn]; cbn [andb].
      * destruct Hex as (kb & pb & ab & Hlb & ->).
        assert ((cost_through p' a' <=? sat_add (cost_through pb ab) PARENT_SWITCH_MARGIN_US) = true) as Hn.
        { apply Z.leb_le, Hnear. by split; [exists kb|]. }
        cbn [best_of best_cost]. by rewrite Hn.
      * cbn. by apply dec_stable.
Qed.
End FixTreeChoice.

Lemma choice_root_le `{Blake2} env env' tree_id s tr tr' :
  now env' = now env → wall env' = wall env →
  choice_ok env tree_id s tr → choice_ok env' tree_id s tr' →
  metric_less (root_metric env tree_id (TreeState.root tr')) (root_metric env tree_id (TreeState.root tr))
  = false.
Proof.
  intros Hnow Hwall [Hs Hb _ _] [_ _ Hp' _].
  destruct (TreeState.parent tr') as [k|]; [|by destruct Hp' as [-> _]].
  destruct Hp' as (p & a & Hl & E & _).
  unfold root_metric in *. rewrite Hwall in E. rewrite <- E. apply (Hb k p).
  unfold live in *. by rewrite Hnow in Hl.
Qed.

Lemma choice_root_unique `{Blake2} env env' tree_id s tr tr' :
  now env' = now env → wall env' = wall env →
  choice_ok env tree_id s tr → choice_ok env' tree_id s tr' →
  root_metric env tree_id (TreeState.root tr') = root_metric env tree_id (TreeState.root tr).
Proof.
  intros Hnow Hwall H1 H2. pose proof (choice_root_le env env' tree_id s tr tr' Hnow Hwall H1 H2) as Hle.
  pose proof (choice_root_le env' env tree_id s tr' tr (eq_sym Hnow) (eq_sym Hwall) H2 H1) as Hge.
  unfold root_metric in *. rewrite Hwall in Hge.
  apply bytes_ltb_ge in Hle as [Hle|Hle]; [done|]. unfold metric_less in Hge. congruence.
Qed.

(** C9: [fix_tree] picks the right root and a near-cheapest parent, whatever the
    iteration order of the neighbours.  After it, no unexpired announce names a
    better root than the tree's, nor is our own key better; with no parent the
    router is its own root at cost 0; a parent is a neighbour with an unexpired
    announce of the winning root, the cost recorded is the cost through it, and no
    neighbour announcing that root is cheaper by more than the switching margin.
    An incumbent parent that still announces the winning root and is within the
    margin of every rival is kept.  Routers that see the same announces agree on
    the root's metric. *)
Theorem tree_parent_choice `{Blake2} env tree_id s :
  (tree_id < length (trees s))%nat →
  let tr := trees (fix_tree env tree_id s) !!! tree_id in
  choice_ok env tree_id s tr ∧
  ∀ env', now env' = now env → wall env' = wall env →
    root_metric env tree_id (TreeState.root (trees (fix_tree env' tree_id s) !!! tree_id)) =
    root_metric env tree_id (TreeState.root tr).
Proof.
  intros Hlt.
  assert (∀ env, trees (fix_tree env tree_id s) !!! tree_id = chosen env tree_id s) as E.
  { intros e. rewrite fix_tree_trees. by apply list_lookup_total_insert_eq. }
  rewrite E. split; [apply chosen_ok|]. intros env' Hnow Hwall. rewrite E.
  apply (choice_root_unique env env' tree_id s); [done..| |]; apply chosen_ok.
Qed.

(** An announce is filed under the neighbour it came from, whoever signed it: a
    neighbour can repeat the announce of any other node as its own position in the
    tree. *)
Theorem announce_sender_unchecked `{Ed25519} env from ann s p :
  signed_by (Announce.sender ann) (Announce.sign_bytes ann) (Announce.signature ann) = true →
  (Z.to_nat (uz (Announce.tree_id ann)) < K)%nat →
  peers s !! from = Some p → length (PeerData.trees p) = K →
  ∃ p', peers (handle_announce env from ann s) !! from = Some p' ∧
    PeerData.trees p' !!! Z.to_nat (uz (Announce.tree_id ann)) =
      Some (TreeAnnounce.mk (Announce.root ann) (Announce.path_cost ann) (now env) (Announce.depth ann)).
Proof.
  intros Hsig Ht Hp Hl. unfold handle_announce. rewrite Hsig. cbn [negb].
  rewrite (proj2 (Nat.leb_gt _ _)) by done.
  match goal with |- context [if ?c then _ else _] => destruct c end;
    (eexists; split; [cbn; by rewrite lookup_alter_eq, Hp|]);
    cbn; apply list_lookup_total_insert_eq; lia.
Qed.

Section RouterWitness.
Import ToyRouter.

Let wit_state : t :=
  handle_announce env key_b (announce sk_b key_b 10 1)
    (handle_announce env key_a (announce sk_a key_b 20 1) router).

Lemma tree_parent_choice_witness :
  (0 < length (trees wit_state))%nat ∧
  choice_ok env 0 wit_state (trees (fix_tree env 0 wit_state) !!! 0%nat) ∧
  TreeState.parent (trees (fix_tree env 0 wit_state) !!! 0%nat) = Some key_b.
Proof.
  split; [by vm_compute; lia|]. split; [|by vm_compute].
  apply (tree_parent_choice env 0 wit_state). vm_compute. lia.
Defined.

(** [ann.depth + 1] wraps around: under a parent that announces the depth
    [u32::MAX], the router takes itself for a root. *)
Theorem announced_depth_wraps :
  let s := fix_tree env 0 (handle_announce env key_a (announce sk_a key_a 0 (2 ^ 32 - 1)) router) in
  TreeState.parent (trees s !!! 0%nat) = Some key_a ∧ own_depth s = 0.
Proof. by vm_compute. Qed.
End RouterWitness.
