(* ===== verification/RoutingProps.v ===== *)
(** * Theorems about routing decisions

    The choice of a next hop, the links a frame is tried on, and packets in
    transit. *)

From Stdlib Require Import Floats.SpecFloat.
From S2P Require Import Prelude Collections Xor Floats Crypto Hyperbolic Varint Cuckoo Packet.
From S2P Require Import Header Address SessionWire Session SessionManager Onion Sphinx.
From S2P Require Import Router Routing Handlers RouterToy RouterProps.
Import RouterState.

(** ** The cheapest neighbour *)

Section Lookup.
Context `{Blake2} (env : Env) (s : t) (tag : bytes) (exclude : option bytes).

(** A neighbour that may be used for [tag]. *)
Definition claimer (e : bytes * PeerData.t) : Prop :=
  exclude ≠ Some e.1 ∧ PeerData.claims tag e.2 = true.
Definition negative (e : bytes * PeerData.t) : bool := is_path_negative env s e.1 tag.

(** [slot] holds a cheapest entry of [l] that satisfies [P]. *)
Definition slot_ok (P : bytes * PeerData.t → Prop) (l : list (bytes * PeerData.t))
    (slot : option (bytes * Z)) : Prop :=
  match slot with
  | None => ∀ e, e ∈ l → ¬ P e
  | Some (k, c) => ∃ e, e ∈ l ∧ P e ∧ k = e.1 ∧ c = route_cost env s e ∧
                        ∀ e', e' ∈ l → P e' → c ≤ route_cost env s e'
  end.

Lemma slot_skip (P : bytes * PeerData.t → Prop) l e slot :
  ¬ P e → slot_ok P l slot → slot_ok P (l ++ [e]) slot.
Proof.
  intros Hn. unfold slot_ok. destruct slot as [[k c]|]; setoid_rewrite elem_of_snoc.
  - intros (e' & ? & ? & ? & ? & Hmin). exists e'. split_and!; [by left|done..|].
    intros e'' [| ->] ?; [eauto|done].
  - intros Hno e' [| ->]; [eauto|done].
Qed.

Lemma slot_cheaper (P : bytes * PeerData.t → Prop) l e slot :
  P e → slot_ok P l slot → slot_ok P (l ++ [e]) (cheaper e.1 (route_cost env s e) slot).
Proof.
  intros HP Hs. unfold cheaper. destruct slot as [[k c]|].
  - destruct Hs as (e0 & He0 & HP0 & -> & -> & Hmin).
    destruct (Z.ltb_spec (route_cost env s e) (route_cost env s e0)) as [Hlt|Hge].
    + exists e. setoid_rewrite elem_of_snoc. split_and!; [by right|done..|].
      intros e' [He'| ->] HP'; [specialize (Hmin _ He' HP'); lia|lia].
    + exists e0. setoid_rewrite elem_of_snoc. split_and!; [by left|done..|].
      intros e' [He'| ->] HP'; [eauto|lia].
  - exists e. setoid_rewrite elem_of_snoc. split_and!; [by right|done..|].
    intros e' [He'| ->] HP'; [by destruct (Hs _ He')|lia].
Qed.

Lemma lookup_fold l :
  let acc := foldl (lookup_step env s tag exclude) (None, None) l in
  slot_ok (λ e, claimer e ∧ negative e = false) l acc.1 ∧
  slot_ok (λ e, claimer e ∧ negative e = true) l acc.2.
Proof.
  induction l as [|e l IH] using rev_ind; cbn; [split; intros e; by rewrite elem_of_nil|].
  rewrite foldl_snoc. cbn in IH. destruct (foldl _ _ _) as [best best_neg]. destruct IH as [H1 H2].
  unfold lookup_step. destruct e as [k p]. cbn [fst snd] in *.
  destruct (bool_decide_reflect (exclude = Some k)) as [->|Hex].
  { split; apply slot_skip; try done; by intros [[Hx _] _]. }
  destruct (PeerData.claims tag p) eqn:Hc; cbn [negb]; cycle 1.
  { split; apply slot_skip; try done; intros [[_ Hx] _]; cbn in Hx; congruence. }
  assert (claimer (k, p)) as Hcl by done.
  destruct (is_path_negative env s k tag) eqn:Hn; cbn [fst snd].
  - split; [apply slot_skip; [intros [_ Hx]; unfold negative in Hx; cbn in Hx; congruence|done]|].
    by apply (slot_cheaper _ l (k, p)).
  - split; [by apply (slot_cheaper _ l (k, p))|].
    apply slot_skip; [intros [_ Hx]; unfold negative in Hx; cbn in Hx; congruence|done].
Qed.
End Lookup.

Lemma lookup_by_tag_spec `{Blake2} env s tag exclude :
  let neg k := is_path_negative env s k tag in
  let usable k p := peers s !! k = Some p ∧ claimer tag exclude (k, p) in
  match lookup_by_tag_excluding env s tag exclude with
  | None => ∀ k p, ¬ usable k p
  | Some k => ∃ p, usable k p ∧ ∀ k' p', usable k' p' →
      (neg k = true → neg k' = true) ∧
      (neg k = neg k' → route_cost env s (k, p) ≤ route_cost env s (k', p'))
  end.
Proof.
  intros neg usable. unfold lookup_by_tag_excluding.
  pose proof (lookup_fold env s tag exclude (map_iter (ord env) (peers s))) as [H1 H2].
  destruct (foldl _ _ _) as [best best_neg]. cbn [fst snd] in *.
  assert (∀ k p, usable k p ↔ (k, p) ∈ map_iter (ord env) (peers s) ∧ claimer tag exclude (k, p)) as Hu.
  { intros k p. unfold usable. by rewrite elem_of_map_iter. }
  destruct best as [[k c]|]; cbn.
  - destruct H1 as ([k1 p] & Hin & [Hcl Hn] & -> & -> & Hmin). exists p. split; [by apply Hu|].
    unfold negative in *. cbn in *. intros k' p' [Hin' Hcl']%Hu. unfold neg. split; [congruence|].
    intros E. apply (Hmin (k', p')); [done|]. split; [done|]. cbn. congruence.
  - destruct best_neg as [[k c]|]; cbn.
    + destruct H2 as ([k1 p] & Hin & [Hcl Hn] & -> & -> & Hmin). exists p. split; [by apply Hu|].
      unfold negative in *. cbn in *. intros k' p' [Hin' Hcl']%Hu. unfold neg.
      assert (is_path_negative env s k' tag = true) as Hn'.
      { destruct (is_path_negative env s k' tag) eqn:E; [done|]. destruct (H1 (k', p')); [done|]. by split. }
      split; [done|]. intros _. by apply (Hmin (k', p')).
    + intros k p [Hin Hcl]%Hu. destruct (negative env s tag (k, p)) eqn:E.
      * by destruct (H2 (k, p)).
      * by destruct (H1 (k, p)).
Qed.

(** C23: the next hop for a routing tag is found whenever a neighbour other than the
    excluded one claims the tag, and it is the best of them: a neighbour that has
    recently reported the tag as unreachable is used only when every claimer has,
    and among its class the chosen one has the lowest trust-adjusted cost.  A
    negative report therefore never cuts off the only route. *)
Theorem lookup_prefers `{Blake2} env s tag exclude :
  let neg k := is_path_negative env s k tag in
  let usable k p := peers s !! k = Some p ∧ claimer tag exclude (k, p) in
  match lookup_by_tag_excluding env s tag exclude with
  | None => ∀ k p, ¬ usable k p
  | Some k => ∃ p, usable k p ∧ ∀ k' p', usable k' p' →
      (neg k = true → neg k' = true) ∧
      (neg k = neg k' → route_cost env s (k, p) ≤ route_cost env s (k', p'))
  end.
Proof. apply lookup_by_tag_spec. Qed.

(** ** Links *)

(** The attempts over [links], in order, none of which took the frame. *)
Fixpoint refused `{Channels} (data : bytes) (links : list LinkId) (log : list io_event) : list io_event :=
  match links with
  | [] => log
  | tx :: links => refused data links (log ++ [TrySend tx data (link_try_send log tx data)])
  end.

Fixpoint all_refuse `{Channels} (data : bytes) (links : list LinkId) (log : list io_event) : Prop :=
  match links with
  | [] => True
  | tx :: links =>
      link_try_send log tx data ≠ Sent ∧
      all_refuse data links (log ++ [TrySend tx data (link_try_send log tx data)])
  end.

Lemma try_links_spec `{Channels} data links : ∀ log,
  match try_links data links log with
  | (true, log') => ∃ pre tx post, links = pre ++ tx :: post ∧ all_refuse data pre log ∧
      link_try_send (refused data pre log) tx data = Sent ∧
      log' = refused data pre log ++ [TrySend tx data Sent]
  | (false, log') => all_refuse data links log ∧ log' = refused data links log
  end.
Proof.
  induction links as [|tx links IH]; intros log; cbn; [done|].
  specialize (IH (log ++ [TrySend tx data (link_try_send log tx data)])).
  destruct (link_try_send log tx data) eqn:Hr.
  - exists [], tx, links. done.
  - destruct (try_links _ _ _) as [[] log'].
    + destruct IH as (pre & tx' & post & -> & ? & ? & ?). exists (tx :: pre), tx', post. cbn. by rewrite Hr.
    + by destruct IH.
  - destruct (try_links _ _ _) as [[] log'].
    + destruct IH as (pre & tx' & post & -> & ? & ? & ?). exists (tx :: pre), tx', post. cbn. by rewrite Hr.
    + by destruct IH.
Qed.

(** Sending a frame to a neighbour tries each of its links at most once,
    starting at the round-robin cursor, and spills over to the next link when one
    is full or closed: the frame is lost only if every link refuses it, and then
    exactly the closed links are dropped.  The first link that has room takes the
    frame, its bytes are counted, and the cursor advances by one.  Nothing else of
    the router changes. *)
Theorem send_spillover `{Channels} env k data s p :
  peers s !! k = Some p → PeerData.txs p ≠ [] →
  let links := PeerData.txs p in
  let start := Z.to_nat (PeerData.next_tx p mod len links) in
  let order := drop start links ++ take start links in
  let s' := send_to_peer env k data s in
  sends s s' ∧ order ≡ₚ links ∧
  ∃ p', peers s' !! k = Some p' ∧ PeerData.next_tx p' = wrap64 (PeerData.next_tx p + 1) ∧
    ((∃ pre tx post, order = pre ++ tx :: post ∧ all_refuse data pre (io s) ∧
        io s' = refused data pre (io s) ++ [TrySend tx data Sent] ∧
        PeerData.txs p' = links ∧
        PeerData.tx_bytes p' = wrap64 (PeerData.tx_bytes p + len data)) ∨
     (all_refuse data order (io s) ∧ io s' = refused data order (io s) ∧
        PeerData.tx_bytes p' = PeerData.tx_bytes p ∧
        PeerData.txs p' = filter (λ tx, link_is_closed (io s') tx = false) links)).
Proof.
  intros Hp Hne links start order s'. split; [apply send_to_peer_sends|]. split.
  { unfold order. rewrite Permutation_app_comm. by rewrite take_drop. }
  unfold s', send_to_peer. rewrite Hp. fold links.
  rewrite (proj2 (Z.eqb_neq _ _)); cycle 1.
  { unfold links, len in *. destruct (PeerData.txs p); [done|cbn; lia]. }
  fold start. fold order. pose proof (try_links_spec data order (io s)) as Ht.
  destruct (try_links data order (io s)) as [[] log]; cbn; rewrite lookup_insert_eq;
    (eexists; split; [done|]; split; [done|]).
  - left. destruct Ht as (pre & tx & post & ? & ? & ? & ?). by exists pre, tx, post.
  - right. destruct Ht as [? ?]. by split_and!.
Qed.

(** ** Greedy forwarding *)

Section Greedy.
Context `{Libm} `{Blake2}.

(** The neighbours a greedy hop may go to. *)
Definition closer (env : Env) (s : t) (dst : HypCoord.t) (e : bytes * PeerData.t) : Prop :=
  ∃ c, coord_table s !! PeerData.pub_key e.2 = Some c ∧
       SFltb (HypCoord.distance c dst) (HypCoord.distance (own_coord s) dst) = true.

Lemma greedy_score_closer env s dst e x :
  greedy_score env s dst (HypCoord.distance (own_coord s) dst) e = Some x → closer env s dst e.
Proof.
  unfold greedy_score, closer. destruct (coord_table s !! _) as [c|]; cbn; [|done].
  destruct (SFltb _ _) eqn:E; [|done]. by exists c.
Qed.

Lemma greedy_fold env s dst exclude l k : ∀ acc,
  (foldl (greedy_step env s dst exclude) acc l).1 = Some k →
  acc.1 = Some k ∨ ∃ p, (k, p) ∈ l ∧ exclude ≠ Some k ∧ closer env s dst (k, p).
Proof.
  induction l as [|[k' p'] l IH]; intros acc; cbn; [by left|].
  intros [Hs|(p & Hin & Hex & Hc)]%IH; [|right; exists p; by split; [right|]].
  unfold greedy_step in Hs. destruct acc as [r x]. cbn [fst] in *.
  destruct (bool_decide_reflect (exclude = Some k')) as [|Hex]; [by left|].
  destruct (greedy_score _ _ _ _ _) as [sc|] eqn:Hsc; [|by left].
  destruct (SFltb sc x); [|by left]. cbn in Hs. simplify_eq. right. exists p'.
  split_and!; [by left|done|]. by eapply greedy_score_closer.
Qed.

Lemma greedy_next_hop_closer env s dst exclude k :
  greedy_next_hop env s dst exclude = Some k →
  ∃ p, peers s !! k = Some p ∧ exclude ≠ Some k ∧ closer env s dst (k, p).
Proof.
  unfold greedy_next_hop. intros [?|(p & Hin & ?)]%greedy_fold; [done|]. exists p. by rewrite <- (elem_of_map_iter (ord env)).
Qed.

(** A packet that travels by greedy hops towards [dst], between routers that know
    each other's current coordinate. *)
Fixpoint greedy_chain (dst : HypCoord.t) (s : t) (hops : list (Env * option bytes * t)) : Prop :=
  match hops with
  | [] => True
  | (env, exclude, s') :: hops =>
      (∃ k p, greedy_next_hop env s dst exclude = Some k ∧ peers s !! k = Some p ∧
              coord_table s !! PeerData.pub_key p = Some (own_coord s')) ∧
      greedy_chain dst s' hops
  end.

Lemma greedy_chain_decreases dst hops : ∀ s,
  greedy_chain dst s hops →
  Forall (λ h, SFltb (HypCoord.distance (own_coord h.2) dst)
                     (HypCoord.distance (own_coord s) dst) = true) hops.
Proof.
  induction hops as [|[[env ex] s'] hops IH]; intros s; [constructor|].
  intros [(k & p & Hk & Hp & Hc) Hch].
  assert (SFltb (HypCoord.distance (own_coord s') dst) (HypCoord.distance (own_coord s) dst) = true) as Hd.
  { destruct (greedy_next_hop_closer _ _ _ _ _ Hk) as (p' & Hp' & _ & c & Hc' & Hlt).
    cbn in Hc'. congruence. }
  constructor; [done|]. eapply Forall_impl; [by apply IH|]. intros h Hh. exact (SFltb_trans _ _ _ Hh Hd).
Qed.

End Greedy.

(** ** Packets in transit *)

Section Transit.
Context `{Channels} `{Libm} `{Blake2} `{Blake2Mac} `{ChaCha20} `{Sha512} `{X25519} `{Hkdf}
  `{Aead} `{Ed25519} `{MlDsa} `{MlKem}.

(** The receive counters of the neighbour a packet came from. *)
Definition counted (env : Env) (from : bytes) (tr : Traffic.t) (s : t) : t :=
  with_peer from
    (λ p, p <| PeerData.last_rx_time := now env |>
            <| PeerData.rx_bytes := wrap64 (PeerData.rx_bytes p + len (Traffic.payload tr)) |>) s.

(** The frames offered to links between two states. *)
Definition offered (s s' : t) : list bytes :=
  omap (λ e, match e with TrySend _ f _ => Some f | _ => None end) (drop (length (io s)) (io s')).

Definition is_traffic (f : bytes) : bool :=
  match Frame.decode f with Ok (Frame.ATraffic _) => true | _ => false end.

(** The frame a router sends on when it is handed a packet that is not for it: the
    first traffic frame that its [dispatch] offers to a link. *)
Definition relayed (env : Env) (from frame : bytes) (s : t) : option bytes :=
  match Frame.decode frame with
  | Ok (Frame.ATraffic tr) =>
      if routing_tag_eq (Traffic.routing_tag tr) (routing_tag (pub_key s)) then None
      else match dispatch env from frame s with
           | Ok s' => head (filter (λ f, is_traffic f = true) (offered s s'))
           | _ => None
           end
  | _ => None
  end.

(** How many of the routers on a route, each with the neighbour the frame comes
    from, send it on. *)
Fixpoint relays (frame : bytes) (route : list (Env * bytes * t)) : nat :=
  match route with
  | [] => 0
  | (env, from, s) :: route =>
      match relayed env from frame s with
      | Some frame' => S (relays frame' route)
      | None => 0
      end
  end.

Lemma transit_hop_neighbour env from tr s h :
  transit_hop env from tr s = Some h → h ≠ from ∧ is_Some (peers s !! h).
Proof.
  unfold transit_hop. intros Hh.
  assert (∀ r, lookup_by_tag_excluding env s (Traffic.routing_tag tr) (Some from) = Some r →
            r ≠ from ∧ is_Some (peers s !! r)) as Hl.
  { intros r Hr. pose proof (lookup_by_tag_spec env s (Traffic.routing_tag tr) (Some from)) as Hs.
    rewrite Hr in Hs. destruct Hs as (p & [Hp [Hne _]] & _). cbn in Hne. split; [congruence|by exists p]. }
  destruct (Traffic.dest_coord tr) as [c|]; cbn in Hh; [|by apply Hl].
  destruct (greedy_next_hop _ _ _ _) as [g|] eqn:Hg; [|by apply Hl]. simplify_eq.
  destruct (greedy_next_hop_closer _ _ _ _ _ Hg) as (p & Hp & Hne & _).
  split; [congruence|by exists p].
Qed.

Lemma forwarded_ok own tr :
  Traffic.ok tr → len own = 32 → Traffic.watermark tr < MAX_FORWARD_HOPS →
  Traffic.ok (forwarded own tr) ∧ Traffic.watermark (forwarded own tr) = Traffic.watermark tr + 1.
Proof.
  intros (? & ? & ? & ? & ? & ? & ?) Hl Hw.
  assert (sat_add (Traffic.watermark tr) 1 = Traffic.watermark tr + 1) as E.
  { unfold sat_add, U64_MAX, MAX_FORWARD_HOPS in *. lia. }
  split; [|done]. split_and!; try done; cbn; rewrite ?E;
  unfold MAX_FORWARD_HOPS in *; lia.
Qed.

Lemma offered_send env k data s f : f ∈ offered s (send_to_peer env k data s) → f = data.
Proof.
  unfold offered, send_to_peer. destruct (peers s !! k) as [p|]; [|by rewrite drop_all; intros ?%not_elem_of_nil].
  destruct (_ =? 0); [by rewrite drop_all; intros ?%not_elem_of_nil|].
  generalize (drop (Z.to_nat (PeerData.next_tx p mod len (PeerData.txs p))) (PeerData.txs p)
    ++ take (Z.to_nat (PeerData.next_tx p mod len (PeerData.txs p))) (PeerData.txs p)). intros links.
  assert (∃ l, (try_links data links (io s)).2 = io s ++ l ∧
            Forall (λ e, ∃ tx r, e = TrySend tx data r) l) as (l & Hl & Hf).
  { generalize (io s). induction links as [|tx links IH]; intros log; cbn; [by exists []; rewrite app_nil_r|].
    destruct (link_try_send log tx data) eqn:Hr; [by eexists; split; [|repeat econstructor]|..];
      (destruct (IH (log ++ [TrySend tx data (link_try_send log tx data)])) as (l & El & Hf);
       rewrite Hr in El; rewrite El, <- app_assoc; eexists; split; [done|]; constructor; eauto). }
  destruct (try_links data links (io s)) as [sent log]. cbn in Hl |- *. rewrite Hl, drop_app_length.
  intros (e & He & Hd)%list_elem_of_omap. rewrite Forall_forall in Hf.
  destruct (Hf e He) as (tx & r & ->). by injection Hd.
Qed.

Lemma negative_not_traffic m : is_traffic (PathNegative.encode m) = false.
Proof.
  unfold is_traffic, PathNegative.encode. cbn [app]. rewrite Frame_decode_cons.
  generalize (PathNegative.routing_tag m ++ [PathNegative.ttl m]). intros data.
  change (Frame.switch _ data) with (Frame.APathNegative <$> PathNegative.decode data).
  by destruct (PathNegative.decode data).
Qed.

Lemma relayed_decodes env from frame s frame' :
  relayed env from frame s = Some frame' →
  ∃ tr, Frame.decode frame = Ok (Frame.ATraffic tr) ∧
    routing_tag_eq (Traffic.routing_tag tr) (routing_tag (pub_key s)) = false ∧
    Traffic.watermark tr < MAX_FORWARD_HOPS ∧
    frame' = Traffic.encode (forwarded (pub_key s) tr) ∧
    ∃ h, transit_hop env from tr (counted env from tr s) = Some h.
Proof.
  unfold relayed. intros Hr.
  destruct (Frame.decode frame) as [f| |] eqn:Hd; [|done..]. destruct f; try done.
  destruct (routing_tag_eq _ _) eqn:Ht; [done|]. unfold dispatch in Hr. rewrite Hd in Hr.
  unfold handle_traffic in Hr. fold (counted env from m s) in Hr.
  change (pub_key (counted env from m s)) with (pub_key s) in Hr. rewrite Ht in Hr.
  apply head_Some_elem_of, list_elem_of_filter in Hr as [Htr Hin].
  change (offered s) with (offered (counted env from m s)) in Hin.
  assert (∀ ttl, frame' ∉ offered (counted env from m s)
            (send_path_negative env from (Traffic.routing_tag m) ttl (counted env from m s))) as Hneg.
  { intros ttl. unfold send_path_negative. destruct (_ =? 0).
    - unfold offered. rewrite drop_all. apply not_elem_of_nil.
    - intros ->%offered_send. by rewrite negative_not_traffic in Htr. }
  unfold forward_traffic in Hin. destruct (Z.leb_spec MAX_FORWARD_HOPS (Traffic.watermark m)); [by apply Hneg in Hin|].
  destruct (transit_hop _ _ _ _) as [h|] eqn:Hh.
  - apply offered_send in Hin. exists m. split_and!; try done. by exists h.
  - destruct (convergence_active _); [|by apply Hneg in Hin].
    unfold offered in Hin. rewrite drop_all in Hin. by apply not_elem_of_nil in Hin.
Qed.

Lemma traffic_frame tr : Traffic.ok tr → Frame.decode (Traffic.encode tr) = Ok (Frame.ATraffic tr).
Proof. intros Hok. exact (Frame_decode_wire Frame.ATraffic tr Hok ltac:(by vm_compute) (λ _, eq_refl)). Qed.

(** The bound for a frame that decodes to [tr]. *)
Lemma relays_bound route : ∀ frame tr,
  Frame.decode frame = Ok (Frame.ATraffic tr) → Traffic.ok tr →
  Forall (λ r, len (pub_key r.2) = 32) route →
  Z.of_nat (relays frame route) ≤ Z.max 0 (MAX_FORWARD_HOPS - Traffic.watermark tr).
Proof.
  induction route as [|[[env from] s] route IH]; intros frame tr Hd Hok Hr; cbn [relays]; [lia|].
  apply Forall_cons in Hr as [Hk Hr]. cbn in Hk.
  destruct (relayed env from frame s) as [frame'|] eqn:Hrel; [|lia].
  apply relayed_decodes in Hrel as (tr' & Hd' & _ & Hw & -> & _).
  rewrite Hd in Hd'. injection Hd' as <-.
  destruct (forwarded_ok (pub_key s) tr Hok Hk Hw) as [Hok' Ew].
  specialize (IH _ _ (traffic_frame _ Hok') Hok' Hr). rewrite Ew in IH. lia.
Qed.

End Transit.

Section RoutingWitness.
Import ToyRouter.

(** A router whose neighbour [a] announced our tag's filter. *)
Let packet : Traffic.t :=
  Traffic.mk [] key_b (fill 128 (u8 0)) (routing_tag key_a) (u8 PKT_DATA) None 7 (fill 300 (u8 5)).
Let filter_of (key : bytes) : CuckooFilter.t :=
  snd (CuckooFilter.add true (λ _, 0%fin) CuckooFilter.new (routing_tag key)).
Let s1 : t :=
  handle_cuckoo env key_a (CuckooMsg.mk (u8 0) 1 (CuckooFilter.encode (filter_of key_a))) router.


Lemma send_spillover_witness : sends router (send_to_peer env key_b (fill 5 (u8 1)) router).
Proof.
  destruct (peers router !! key_b) as [p|] eqn:E; [|by vm_compute in E].
  apply (send_spillover env key_b (fill 5 (u8 1)) router p); [done|].
  vm_compute in E. by injection E as <-.
Defined.

Let at_depth (d : Z) (s : t) : t := s <| own_coord := HypCoord.from_tree_position d (S754_zero false) key_me |>.
(** [a] is at depth 2 and we are at depth 5. *)
Let s5 : t := at_depth 5 (s1 <| coord_table := {[ key_a := HypCoord.from_tree_position 2 (S754_zero false) key_me ]} |>).

End RoutingWitness.
