(* ===== verification/RouterSafety.v ===== *)
(** * The router's invariant

    Everything that can happen to a router is a [step]; [wf] holds in every state
    reachable from a new router, whatever frames arrive and whatever the channels
    and the environment do. *)

From Stdlib Require Import Floats.SpecFloat.
From S2P Require Import Prelude Collections Xor Floats Crypto Hyperbolic Varint Cuckoo Packet.
From S2P Require Import Header Address SessionWire Session SessionManager Onion Sphinx.
From S2P Require Import Router Routing Handlers RouterToy RouterProps RoutingProps.
Import RouterState.

(** ** The invariant *)

Record peer_ok (k : bytes) (p : PeerData.t) : Prop := {
  peer_key_ok : PeerData.pub_key p = k;
  peer_cuckoo_ok : length (PeerData.cuckoo p) = K;
  peer_gen_ok : length (PeerData.peer_cuckoo_gen p) = K;
  peer_trees_ok : length (PeerData.trees p) = K;
  peer_links_ok : len (PeerData.txs p) ≤ MAX_PARALLEL_LINKS_PER_PEER }.

(** A table with at most [cap] entries beside the router's own. *)
Definition room_ok {A} (own : bytes) (cap : Z) (m : gmap bytes A) : Prop :=
  Z.of_nat (size (delete own m)) ≤ cap.

(** [gap] bounds the ticks since the last control broadcast. *)
Record router_ok (gap : Z) (s : t) : Prop := {
  wf_peers : map_Forall peer_ok (peers s);
  wf_trees : length (trees s) = K;
  wf_gen : length (cuckoo_generation s) = K;
  (** a parent is a neighbour *)
  wf_parents : Forall (λ tr, ∀ k, TreeState.parent tr = Some k → is_Some (peers s !! k)) (trees s);
  (** a landmark is a neighbour or the router itself *)
  wf_landmarks : ∀ k, is_Some (landmarks s !! k) → k = pub_key s ∨ is_Some (peers s !! k);
  wf_nodup : NoDup (onion_seen s);
  wf_mirror : onion_seen_set s = list_to_set (onion_seen s);
  wf_seen : len (onion_seen s) ≤ ONION_REPLAY_CACHE_SIZE;
  wf_neg : Z.of_nat (size (path_negative_cache s)) ≤ MAX_PATH_NEG_CACHE;
  wf_keys : room_ok (pub_key s) MAX_REMOTE_ONION_KEYS (remote_onion_keys s);
  wf_caps : room_ok (pub_key s) MAX_CAPABILITY_ENTRIES (peer_capabilities s);
  wf_coords : room_ok (pub_key s) MAX_COORD_TABLE_SIZE (coord_table s);
  wf_lookups : Z.of_nat (size (pending_lookups s)) ≤ MAX_PENDING_LOOKUPS;
  wf_control : CONTROL_MIN_INTERVAL ≤ control_interval s ≤ CONTROL_MAX_INTERVAL;
  wf_gap : wrap32 (tick s - last_control_tick s) ≤ gap }.

Create HintDb wf.

(** A field that [router_ok] does not read was set, or one conjunct is left. *)
Ltac wf_set :=
  match goal with H : router_ok _ ?s |- router_ok _ _ => destruct H; split; cbn; try assumption; try done end.

Section Preservation.
Context {gap : Z}.
#[local] Abbreviation wf := (router_ok gap).

Lemma link_rel_ok k p p' : link_rel p p' → peer_ok k p → peer_ok k p'.
Proof.
  intros [Hs (n & b & l & ->)] []. split; cbn; try done.
  apply sublist_length in Hs. unfold len in *. cbn in Hs. lia.
Qed.

Lemma peers_rel_Some m m' k : peers_rel m m' → is_Some (m !! k) ↔ is_Some (m' !! k).
Proof. intros Hr. specialize (Hr k). inversion Hr; split; intros [? ?]; try done; by eexists. Qed.

Lemma wf_sends s s' : sends s s' → wf s → wf s'.
Proof.
  intros (Hr & _ & ->). revert Hr. generalize (peers s') as P, (io s') as L. clear s'. intros P L Hr [].
  split; cbn; try done.
  - intros k p' Hp'. specialize (Hr k). rewrite Hp' in Hr. inversion Hr as [p ? Hl E|]; subst.
    by eapply link_rel_ok; [|apply wf_peers0].
  - eapply Forall_impl; [done|]. intros tr Htr k Hk. by apply (peers_rel_Some _ _ _ Hr), Htr.
  - intros k [|Hk]%wf_landmarks0; [by left|right]. by apply (peers_rel_Some _ _ _ Hr).
Qed.

Lemma wf_with_peer k f s :
  (∀ p, peer_ok k p → peer_ok k (f p)) → wf s → wf (with_peer k f s).
Proof.
  intros Hf []. unfold with_peer. split; cbn; try done.
  - intros k' p. rewrite lookup_alter_Some. intros [(-> & p0 & Hp & ->)|[_ Hp]]; [|by apply wf_peers0].
    apply Hf. by apply wf_peers0.
  - eapply Forall_impl; [done|]. intros tr Htr k' Hk'. apply lookup_alter_is_Some. by apply Htr.
  - intros k' [|Hk']%wf_landmarks0; [by left|right]. by apply lookup_alter_is_Some.
Qed.

Lemma peer_ok_same k p p' :
  PeerData.pub_key p' = PeerData.pub_key p → PeerData.cuckoo p' = PeerData.cuckoo p →
  PeerData.peer_cuckoo_gen p' = PeerData.peer_cuckoo_gen p → PeerData.trees p' = PeerData.trees p →
  PeerData.txs p' = PeerData.txs p → peer_ok k p → peer_ok k p'.
Proof. intros E1 E2 E3 E4 E5 []. split; congruence. Qed.

(** [with_peer] with a function that leaves what [peer_ok] reads. *)
Ltac wf_peer := apply wf_with_peer; [intros ?; by apply peer_ok_same|].

Lemma touch_wf env from s : wf s → wf (touch env from s).
Proof. intros. unfold touch. by wf_peer. Qed.

Lemma update_landmarks_wf s :
  wf s ∨ (wf (s <| landmarks := ∅ |>)) → wf (update_landmarks s).
Proof.
  intros [[]|[]]; unfold update_landmarks; split; cbn; try done; intros k [[] Hk];
    apply lookup_union_Some_raw in Hk as [Hk|[_ Hk]].
  1,3: destruct (_ <? _); [apply lookup_singleton_Some in Hk as [<- _]; by left|by rewrite lookup_empty in Hk].
  all: apply lookup_omap_Some in Hk as (p & _ & Hp); right; by exists p.
Qed.

(** ** Neighbours *)

Lemma room_delete {A} (own : bytes) (cap : Z) (m : gmap bytes A) (k : bytes) : room_ok own cap m → room_ok own cap (delete k m).
Proof.
  unfold room_ok. intros Hm. rewrite delete_delete. etrans; [|exact Hm].
  apply Nat2Z.inj_le. rewrite map_size_delete. destruct (_ !! _); cbn; lia.
Qed.

Lemma room_own {A} (own : bytes) (cap : Z) (m : gmap bytes A) x : room_ok own cap m → room_ok own cap (<[own := x]> m).
Proof. unfold room_ok. by rewrite delete_insert_eq. Qed.

Lemma new_peer_ok env k tx prio : peer_ok k (PeerData.new (now env) k tx prio).
Proof. by split. Qed.

Lemma add_peer_wf env k tx prio s : wf s → wf (add_peer env k tx prio s).
Proof.
  intros Hs. unfold add_peer. destruct (peers s !! k) as [p|] eqn:Hp.
  - destruct (Z.leb_spec MAX_PARALLEL_LINKS_PER_PEER (len (PeerData.txs p))); [done|].
    destruct Hs. split; cbn; try done.
    + intros k' p'. rewrite lookup_alter_Some. intros [(-> & p0 & Hp0 & ->)|[_ Hp']]; [|by apply wf_peers0].
      destruct (wf_peers0 _ _ Hp0). split; cbn; try done. unfold len in *. rewrite length_app. cbn.
      simplify_eq. lia.
    + eapply Forall_impl; [done|]. intros tr Htr k' Hk'. apply lookup_alter_is_Some. by apply Htr.
    + intros k' [|Hk']%wf_landmarks0; [by left|right]. by apply lookup_alter_is_Some.
  - apply update_landmarks_wf. left. destruct Hs. split; cbn; try done.
    + apply map_Forall_insert_2; [apply new_peer_ok|done].
    + eapply Forall_impl; [done|]. intros tr Htr k' Hk'. apply lookup_insert_is_Some'. right. by apply Htr.
    + intros k' [|Hk']%wf_landmarks0; [by left|right]. apply lookup_insert_is_Some'. by right.
Qed.

Definition unparent (own key : bytes) (tree : TreeState.t) : TreeState.t :=
  if bool_decide (TreeState.parent tree = Some key)
  then TreeState.mk None own (TreeState.root_seq tree) 0 else tree.

Lemma remove_peer_wf k s : wf s → wf (remove_peer k s).
Proof.
  intros Hs. change (remove_peer k s) with
    ((update_landmarks (s <| trees := unparent (pub_key s) k <$> trees s |>
        <| peers := delete k (peers s) |> <| coord_table := delete k (coord_table s) |>))
       <| sessions := SessionManager.remove k (sessions s) |>).
  match goal with |- wf (set_field _ ?s') => assert (wf s') as Hs'; [|wf_set] end.
  apply update_landmarks_wf. right. destruct Hs. split; cbn; try done.
  - by apply map_Forall_delete.
  - by rewrite length_fmap.
  - apply Forall_fmap. eapply Forall_impl; [done|]. intros tr Htr k' Hk'. cbn in Hk'. unfold unparent in Hk'.
    destruct (bool_decide_reflect (TreeState.parent tr = Some k)) as [|Hne]; [done|].
    rewrite lookup_delete_ne by congruence. by apply Htr.
  - intros k' [? Hk']. by rewrite lookup_empty in Hk'.
  - by apply room_delete.
Qed.

Lemma foldl_wf {A} (f : t → A → t) l : (∀ s x, wf s → wf (f s x)) → ∀ s, wf s → wf (foldl f s l).
Proof. intros Hf. induction l as [|x l IH]; intros s Hs; cbn; [done|]. by apply IH, Hf. Qed.

Lemma expire_peers_wf env s : wf s → wf (expire_peers env s).
Proof. intros Hs. unfold expire_peers. apply foldl_wf; [intros; by apply remove_peer_wf|done]. Qed.

(** ** Trees *)

Lemma fix_tree_same `{Blake2} env i s :
  let s' := fix_tree env i s in
  s' = s <| trees := trees s' |> <| own_depth := own_depth s' |>
         <| last_topology_change_tick := last_topology_change_tick s' |>.
Proof.
  unfold fix_tree. destruct (foldl _ _ _) as [best inc]. cbn.
  destruct (match best with None => None | Some b => if metric_less _ _ then None else Some b end) as [b|].
  - destruct (damped _ _ _) as [par cost].
    destruct (bool_decide (par = _)), (bool_decide (i = _)); by destruct s.
  - destruct (bool_decide (None = _)), (bool_decide (i = _)); by destruct s.
Qed.

Lemma fix_tree_wf `{Blake2} env i s : (i < K)%nat → wf s → wf (fix_tree env i s).
Proof.
  intros Hi Hs. rewrite (fix_tree_same env i s), fix_tree_trees.
  destruct Hs. split; cbn; try done.
  - by rewrite length_insert.
  - apply Forall_insert; [done|]. intros k Hk. destruct (chosen_ok env i s) as [_ _ Hp _].
    rewrite Hk in Hp. destruct Hp as (p & a & [Hp _] & _). by exists p.
Qed.

(** ** Broadcasts and tables *)

Context `{Channels} `{Libm} `{Blake2} `{Blake2Mac} `{ChaCha20} `{Sha512} `{X25519} `{Hkdf}
  `{Aead} `{Ed25519} `{MlDsa} `{MlKem}.

Lemma send_to_peer_wf env k data s : wf s → wf (send_to_peer env k data s).
Proof. apply wf_sends, send_to_peer_sends. Qed.
Lemma send_each_wf env ks data s : wf s → wf (send_each env ks data s).
Proof. apply wf_sends, send_each_sends. Qed.
Lemma flood_wf env from data s : wf s → wf (flood env from data s).
Proof. apply send_each_wf. Qed.
Lemma send_path_negative_wf env to tag ttl s : wf s → wf (send_path_negative env to tag ttl s).
Proof. unfold send_path_negative. intros. destruct (_ =? _); [done|]. by apply send_to_peer_wf. Qed.

#[local] Hint Resolve send_to_peer_wf send_each_wf flood_wf send_path_negative_wf touch_wf
  remove_peer_wf add_peer_wf expire_peers_wf fix_tree_wf : wf.

Lemma send_announces_wf env i s : wf s → wf (send_announces env i s).
Proof. unfold send_announces. auto with wf. Qed.
Lemma broadcast_coord_wf env s : wf s → wf (broadcast_coord env s).
Proof. unfold broadcast_coord. auto with wf. Qed.

Lemma cuckoo_do_maintenance_wf env i s : wf s → wf (cuckoo_do_maintenance env i s).
Proof.
  intros Hs. unfold cuckoo_do_maintenance. apply send_each_wf.
  set (s0 := if _ && _ then _ else s).
  assert (wf s0) as Hs0 by (unfold s0; destruct (_ && _); [wf_set; by rewrite length_alter|done]).
  destruct (TreeState.parent _); auto with wf.
Qed.

Lemma send_keepalives_wf env s : wf s → wf (send_keepalives env s).
Proof.
  unfold send_keepalives. apply foldl_wf. clear s. intros s k Hs. unfold send_keepalive.
  set (s1 := with_peer k _ s).
  assert (wf s1) as Hs1.
  { unfold s1. apply wf_with_peer; [|done]. intros p Hp. eapply peer_ok_same; [..|exact Hp];
      by destruct (PeerData.pending_sig_req_time p). }
  destruct (peers s1 !! k); auto with wf.
Qed.

Lemma update_own_coord_wf s : wf s → wf (update_own_coord s).
Proof. intros Hs. unfold update_own_coord. wf_set. by apply room_own. Qed.

Lemma stranger_spec {A} (env : Env) (s : t) (m : gmap bytes A) (v : bytes) :
  stranger env s m = Some v → is_Some (m !! v) ∧ v ≠ pub_key s.
Proof.
  unfold stranger. destruct (filter _ _) as [|[k x] l] eqn:E; [done|]. intros [= <-].
  assert ((k, x) ∈ filter (λ e, peers s !! e.1 = None ∧ e.1 ≠ pub_key s) (map_iter (ord env) m)) as Hin
    by (rewrite E; by left).
  apply list_elem_of_filter in Hin as [[_ Hne] Hin%elem_of_map_iter]. by split; [exists x|].
Qed.

Lemma make_room_ok {A} (env : Env) (s : t) (cap : Z) (origin : bytes) (m m' : gmap bytes A) (x : A) :
  room_ok (pub_key s) cap m → make_room env s cap origin m = Some m' →
  room_ok (pub_key s) cap (<[origin := x]> m').
Proof.
  unfold make_room, room_ok. intros Hm.
  destruct (decide (origin = pub_key s)) as [->|Hne].
  { rewrite delete_insert_eq. destruct (_ && _); [|naive_solver].
    destruct (stranger env s m) as [v|]; [|done]. intros [= <-].
    by apply (room_delete (pub_key s) cap m v). }
  rewrite delete_insert_ne by done.
  destruct (bool_decide_reflect (m !! origin = None)) as [Ho|Ho]; cbn [andb]; cycle 1.
  { intros [= <-]. rewrite size_insert_Some; [done|]. rewrite lookup_delete_ne by done.
    by destruct (m !! origin); [eexists|]. }
  destruct (Z.leb_spec cap (Z.of_nat (size m))) as [Hf|Hf].
  - destruct (stranger env s m) as [v|] eqn:Hv; [|done]. intros [= <-].
    apply stranger_spec in Hv as [Hv Hvn].
    rewrite size_insert_None, delete_delete, size_delete_Some.
    + lia.
    + by rewrite lookup_delete_ne.
    + rewrite lookup_delete_ne, lookup_delete_None by done. by right.
  - intros [= <-]. rewrite size_insert_None by by rewrite lookup_delete_ne.
    pose proof (map_size_delete (pub_key s) m). destruct (m !! pub_key s); cbn in *; lia.
Qed.

Lemma note_coord_wf env k c s s' : wf s → note_coord env k c s = Some s' → wf s'.
Proof.
  unfold note_coord. intros Hs. destruct (make_room _ _ _ _ _) as [m|] eqn:E; [|done]. cbn. intros [= <-].
  wf_set. by eapply make_room_ok.
Qed.
Lemma note_peer_coord_wf env k c s : wf s → wf (note_peer_coord env k c s).
Proof.
  unfold note_peer_coord. intros Hs. destruct (_ || _); [done|].
  destruct (note_coord _ _ _ _) eqn:E; cbn; [|done]. by eapply note_coord_wf.
Qed.
Lemma record_remote_onion_key_wf env o q e s : wf s → wf (record_remote_onion_key env o q e s).
Proof.
  unfold record_remote_onion_key. intros Hs. destruct (make_room _ _ _ _ _) as [m|] eqn:E; [|done].
  wf_set. by eapply make_room_ok.
Qed.
Lemma record_capability_wf env o c q s : wf s → wf (record_capability env o c q s).
Proof.
  unfold record_capability. intros Hs. destruct (make_room _ _ _ _ _) as [m|] eqn:E; [|done].
  wf_set. by eapply make_room_ok.
Qed.
Lemma record_reputation_wf env a b q x s : wf s → wf (record_reputation env a b q x s).
Proof.
  unfold record_reputation, insert_observation. intros Hs. destruct (_ && _); [|wf_set].
  destruct (stranger _ _ _); [wf_set|done].
Qed.

#[local] Hint Resolve send_announces_wf broadcast_coord_wf
  cuckoo_do_maintenance_wf send_keepalives_wf update_own_coord_wf note_peer_coord_wf
  record_remote_onion_key_wf record_capability_wf record_reputation_wf : wf.

Lemma record_path_negative_wf env k tag s : wf s → wf (record_path_negative env k tag s).
Proof.
  unfold record_path_negative. intros Hs. wf_set.
  set (cache := path_negative_cache s) in *. set (M := MAX_PATH_NEG_CACHE) in *.
  assert (∀ c : gmap (bytes * bytes) Z, Z.of_nat (size c) < M → Z.of_nat (size (<[(k, tag) := now env]> c)) ≤ M) as Hins.
  { intros c Hc. rewrite map_size_insert. destruct (c !! _); cbn; lia. }
  destruct (Z.leb_spec M (Z.of_nat (size cache))); [|by apply Hins].
  assert (∀ v, is_Some (cache !! v) → Z.of_nat (size (delete v cache)) < M) as Hdel.
  { intros v Hv. rewrite size_delete_Some by done. lia. }
  destruct (find_key _ _ _) as [v|] eqn:Ev.
  - apply Hins, Hdel. destruct (find_key_Some _ _ _ _ Ev) as (x & Hx & _). by exists x.
  - destruct (first_key _ _) as [v|] eqn:Ev'; [by apply Hins, Hdel, (first_key_Some (ord_neg env))|].
    apply first_key_None in Ev'. rewrite Ev', map_size_insert, lookup_empty, map_size_empty. done.
Qed.

(** ** Handlers *)

#[local] Hint Resolve record_path_negative_wf : wf.

Lemma handle_sig_req_wf env from m s : wf s → wf (handle_sig_req env from m s).
Proof. unfold handle_sig_req. auto with wf. Qed.

Lemma handle_sig_res_wf env from m s : wf s → wf (handle_sig_res env from m s).
Proof.
  unfold handle_sig_res. intros Hs. destruct (negb _); [done|]. apply wf_with_peer; [|done].
  intros p Hp. eapply peer_ok_same; [..|exact Hp]; unfold measure_rtt;
    destruct (PeerData.pending_sig_req_time p) as [[q x]|]; try destruct (_ =? _); done.
Qed.

Lemma handle_announce_wf env from m s : wf s → wf (handle_announce env from m s).
Proof.
  unfold handle_announce. intros Hs. destruct (negb _); [done|]. destruct (_ <=? _)%nat; [done|].
  apply update_landmarks_wf. left. set (s1 := with_peer _ _ _).
  assert (wf s1) as Hs1.
  { apply wf_with_peer; [|done]. intros p []. split; cbn; try done. by rewrite length_insert. }
  match goal with |- wf (if ?c then _ else _) => destruct c end; [wf_set|done].
Qed.

Lemma handle_cuckoo_wf env from m s : wf s → wf (handle_cuckoo env from m s).
Proof.
  unfold handle_cuckoo. intros Hs. destruct (_ <=? _)%nat; [done|]. apply wf_with_peer; [|done].
  intros p []. destruct (_ <? _); split; cbn; try done; by rewrite length_insert.
Qed.

Lemma handle_coord_announce_wf env from m s : wf s → wf (handle_coord_announce env from m s).
Proof.
  unfold handle_coord_announce. intros Hs. destruct (negb _); [done|]. destruct (_ || _); [done|].
  destruct (SFltb _ _); [by wf_peer|]. set (lies := match _ with Some t0 => _ | None => _ end).
  destruct lies; [by wf_peer|]. destruct (note_coord _ _ _ _) eqn:E; [|done].
  apply note_coord_wf in E; [|done]. by wf_peer.
Qed.

Lemma handle_path_negative_wf env from m s : wf s → wf (handle_path_negative env from m s).
Proof.
  unfold handle_path_negative. intros Hs. destruct (_ <? _); [|auto with wf].
  destruct (lookup_by_tag_excluding _ _ _ _); auto with wf.
Qed.

Lemma handle_path_lookup_wf env from m s : wf s → wf (handle_path_lookup env from m s).
Proof.
  unfold handle_path_lookup. intros Hs. destruct (bool_decide (is_Some _)); [done|].
  destruct (Z.leb_spec MAX_PENDING_LOOKUPS (Z.of_nat (size (pending_lookups s)))); [done|].
  set (s1 := s <| pending_lookups := _ |>).
  assert (wf s1) as Hs1.
  { unfold s1. wf_set. rewrite map_size_insert. destruct (_ !! _); cbn; lia. }
  destruct (bool_decide _); [auto with wf|]. destruct (sort_by _ _) as [|[b c] l]; [|auto with wf].
  destruct (bool_decide _); auto with wf.
Qed.

Lemma handle_path_notify_wf env from m s : wf s → wf (handle_path_notify env from m s).
Proof.
  unfold handle_path_notify. intros Hs. apply (touch_wf env from) in Hs.
  set (s1 := touch env from s) in *. destruct (bool_decide _).
  - set (s2 := match _ with Some _ => _ | None => _ end). assert (wf s2) as Hs2.
    { unfold s2. destruct (pending_probes s1 !! _) as [[via x]|]; [|done]. wf_peer. wf_set. }
    destruct (path_notify s2); [wf_set|done].
  - destruct (lookup _ _ _); auto with wf.
Qed.

Lemma handle_path_broken_wf env from m s : wf s → wf (handle_path_broken env from m s).
Proof.
  unfold handle_path_broken. intros Hs. destruct (bool_decide _); [auto with wf|].
  destruct (lookup _ _ _); auto with wf.
Qed.

Lemma handle_hole_punch_wf env m s : wf s → wf (handle_hole_punch env m s).
Proof.
  unfold handle_hole_punch. intros Hs. destruct (negb _); [done|]. destruct (_ <? _); [done|].
  destruct (bool_decide _); [destruct (hole_punch_cb s); [wf_set|done]|].
  destruct (lookup _ _ _); auto with wf.
Qed.

Lemma handle_onion_key_announce_wf env from m s : wf s → wf (handle_onion_key_announce env from m s).
Proof.
  unfold handle_onion_key_announce. intros Hs. destruct (bool_decide _); [done|].
  destruct (negb (signed_by _ _ _)); [done|]. destruct (negb (in_window _ _ _)); [done|].
  destruct (negb _); [done|]. apply flood_wf. wf_peer. auto with wf.
Qed.

Lemma handle_capabilities_wf env from m s : wf s → wf (handle_capabilities env from m s).
Proof.
  unfold handle_capabilities. intros Hs. destruct (bool_decide _); [done|].
  destruct (negb (signed_by _ _ _)); [done|]. destruct (negb (in_window _ _ _)); [done|].
  destruct (negb _); [done|]. auto with wf.
Qed.

Lemma handle_reputation_report_wf env from m s : wf s → wf (handle_reputation_report env from m s).
Proof.
  unfold handle_reputation_report. intros Hs. destruct (bool_decide (ReputationReport.observer m = _)); [done|].
  destruct (bool_decide _); [done|].
  destruct (negb (signed_by _ _ _)); [done|]. destruct (negb (in_window _ _ _)); [done|].
  destruct (negb _); [done|]. auto with wf.
Qed.

(** ** Traffic, onions, dispatch *)

Definition res_wf (r : res t) : Prop := match r with Ok s => wf s | _ => True end.

Lemma res_wf_bind {A} (m : res A) (k : A → res t) : (∀ a, m = Ok a → res_wf (k a)) → res_wf (m ≫= k).
Proof. destruct m; cbn; [|done..]. intros Hk. by apply Hk. Qed.

Lemma send_traffic_to_wf env dst pl s : wf s → res_wf (send_traffic_to env dst pl s).
Proof.
  intros Hs. unfold send_traffic_to. apply res_wf_bind. intros [h tag] _. apply res_wf_bind. intros pd _.
  destruct (lookup _ _ _); cbn [res_wf]; auto with wf.
Qed.

Lemma with_sessions_wf {A} (op : st SessionManager.t A) s k :
  wf s → (∀ a s', wf s' → res_wf (k a s')) → res_wf (with_sessions op s k).
Proof.
  intros Hs Hk. unfold with_sessions. destruct (op (sessions s)) as [r sm].
  assert (wf (s <| sessions := sm |>)) as Hs' by wf_set. destruct r; [by apply Hk..|done].
Qed.

Lemma handle_control_wf env raw s : wf s → res_wf (handle_control env raw s).
Proof.
  intros Hs. unfold handle_control. destruct raw as [|magic raw]; [done|].
  destruct (_ =? SESSION_INIT_MAGIC).
  - apply with_sessions_wf; [done|]. intros [ack|] s' Hs'; [|done].
    assert (wf (match SessionInit.decode (magic :: raw) with
                | Ok init => note_peer_coord env (SessionInit.ed_pub init) (SessionInit.sender_coord init) s'
                | _ => s'
                end)) by (destruct (SessionInit.decode _); auto with wf).
    destruct (_ <=? _); [by apply send_traffic_to_wf|done].
  - destruct (_ =? SESSION_ACK_MAGIC); [|done]. apply with_sessions_wf; [done|].
    intros [[]|] s' Hs'; [|done]. destruct (SessionAck.decode _); cbn; auto with wf.
Qed.

Lemma handle_data_wf env tr s : wf s → res_wf (handle_data env tr s).
Proof.
  intros Hs. unfold handle_data. destruct (decrypt_source_from_header _ _); [|done].
  apply with_sessions_wf; [done|]. intros [pt|] s' Hs'; [|done]. cbn.
  destruct (unpad_payload pt); [|done..]. cbn. wf_set.
Qed.

Lemma forward_traffic_wf env from tr s : wf s → wf (forward_traffic env from tr s).
Proof.
  intros Hs. unfold forward_traffic. destruct (_ <=? _); [auto with wf|].
  destruct (transit_hop _ _ _ _); [auto with wf|]. destruct (convergence_active s); auto with wf.
Qed.

Lemma handle_traffic_wf env from tr s : wf s → res_wf (handle_traffic env from tr s).
Proof.
  intros Hs. unfold handle_traffic. set (s1 := with_peer _ _ _). assert (wf s1) as Hs1 by (unfold s1; by wf_peer).
  destruct (routing_tag_eq _ _); [|by apply forward_traffic_wf].
  destruct (_ =? _).
  - destruct (unpad_payload _); [by apply handle_control_wf|done..].
  - destruct (_ =? _); [by apply handle_data_wf|done].
Qed.

Lemma exit_traffic_wf env from data s : wf s → res_wf (exit_traffic env from data s).
Proof.
  intros Hs. unfold exit_traffic. destruct data as [|b data]; [done|]. destruct (_ =? _); [|done].
  destruct (Traffic.decode data); [by apply handle_traffic_wf|done..].
Qed.

Lemma relay_wf env from tag frame s : wf s → wf (relay env from tag frame s).
Proof. intros Hs. unfold relay. destruct (lookup_by_tag_excluding _ _ _ _); auto with wf. Qed.

Lemma onion_digest_seen_wf d s : wf s → wf (onion_digest_seen d s).2.
Proof.
  intros Hs. assert (seen_ok s) as Hok by by destruct Hs.
  pose proof (onion_digest_seen_spec d s (onion_seen s) Hok) as Hd.
  unfold lastn in Hd. replace (length (onion_seen s) - cache_size)%nat with 0%nat in Hd; cycle 1.
  { destruct Hok. unfold len, cache_size in *. lia. }
  specialize (Hd eq_refl). destruct (onion_digest_seen d s) as [seen s'] eqn:E. destruct Hd as [[] _].
  assert (s' = s <| onion_seen := onion_seen s' |> <| onion_seen_set := onion_seen_set s' |>) as ->.
  { unfold onion_digest_seen in E. destruct (bool_decide _); injection E as <- <-; [by destruct s|].
    destruct (_ <=? _); [|by destruct s]. cbn. by destruct (onion_seen s), s. }
  cbn. wf_set.
Qed.

Lemma handle_onion_wf env from pkt s : wf s → res_wf (handle_onion env from pkt s).
Proof.
  intros Hs. unfold handle_onion, is_onion_replay. set (s1 := touch env from s).
  match goal with |- context [onion_digest_seen ?d s1] => pose proof (onion_digest_seen_wf d s1 (touch_wf env from s Hs)) as Hs2;
    destruct (onion_digest_seen d s1) as [[] s2] end; cbn in Hs2; [done|].
  destruct (OnionPacket.peel _ _ _) as [[]| |]; [|by apply exit_traffic_wf|done..].
  destruct (OnionPacket.decode _); cbn; [by apply relay_wf|done..].
Qed.

Lemma handle_sphinx_wf env from cell s : wf s → res_wf (handle_sphinx env from cell s).
Proof.
  intros Hs. unfold handle_sphinx. apply res_wf_bind. intros digest _.
  set (r := match digest with Some d => _ | None => _ end).
  assert (wf r.2) as Hr.
  { unfold r. destruct digest; cbn; [apply onion_digest_seen_wf|]; auto with wf. }
  destruct r as [[] s2]; cbn in Hr; [done|].
  destruct (process_sphinx _ _ _) as [[]| |]; [by apply relay_wf|by apply exit_traffic_wf|done..].
Qed.

Lemma dispatch_wf env from frame s : wf s → res_wf (dispatch env from frame s).
Proof.
  intros Hs. unfold dispatch. destruct (Frame.decode frame) as [f| |]; [|done..].
  destruct f; cbn [res_wf]; auto using touch_wf, handle_sig_req_wf, handle_sig_res_wf, handle_announce_wf,
    handle_cuckoo_wf, handle_path_lookup_wf, handle_path_notify_wf, handle_path_broken_wf,
    handle_traffic_wf, handle_coord_announce_wf, handle_onion_key_announce_wf, handle_capabilities_wf,
    handle_reputation_report_wf, handle_hole_punch_wf, handle_path_negative_wf.
  destruct (_ =? TYPE_ONION).
  - unfold dispatch_onion. destruct (OnionPacket.decode data); [|done..].
    destruct (routing_tag_eq _ _); [by apply handle_onion_wf|by apply relay_wf].
  - destruct (_ =? TYPE_ONION_SPHINX); [|done]. unfold dispatch_sphinx. destruct (negb _); [done|].
    apply res_wf_bind. intros tag _.
    destruct (routing_tag_eq _ _); [by apply handle_sphinx_wf|by apply relay_wf].
Qed.

(** ** Maintenance *)

Lemma broadcast_onion_key_announce_wf env s : wf s → wf (broadcast_onion_key_announce env s).
Proof. intros Hs. unfold broadcast_onion_key_announce. apply send_each_wf. wf_set. by apply room_own. Qed.
Lemma broadcast_capabilities_wf env s : wf s → wf (broadcast_capabilities env s).
Proof. intros Hs. unfold broadcast_capabilities. apply send_each_wf. wf_set. by apply room_own. Qed.

Lemma broadcast_reputation_wf env s : wf s → wf (broadcast_reputation env s).
Proof.
  unfold broadcast_reputation. apply foldl_wf. clear s. intros s [observed trust] Hs.
  unfold broadcast_reputation_of. apply send_each_wf, record_reputation_wf. wf_set.
Qed.

Lemma rotate_onion_keys_if_due_wf env s : wf s → wf (rotate_onion_keys_if_due env s).
Proof.
  intros Hs. unfold rotate_onion_keys_if_due. destruct (_ && _); [|done].
  apply broadcast_onion_key_announce_wf. wf_set.
Qed.

Lemma probe_cuckoo_claim_wf env s : wf s → wf (probe_cuckoo_claim env s).
Proof.
  intros Hs. unfold probe_cuckoo_claim. destruct (_ !! _) as [[via target]|]; [|done].
  match goal with |- wf (set_field _ ?s') => assert (wf s') as Hs' by auto with wf end. wf_set.
Qed.

Lemma cleanup_stale_probes_wf env s : wf s → wf (cleanup_stale_probes env s).
Proof.
  unfold cleanup_stale_probes. apply foldl_wf. clear s. intros s [id [via x]] Hs. cbn. wf_peer. wf_set.
Qed.

Lemma size_filter_le `{Countable Ix} {A} (P : Ix * A → Prop) `{!∀ x, Decision (P x)} (m : gmap Ix A) (c : Z) :
  Z.of_nat (size m) ≤ c → Z.of_nat (size (filter P m)) ≤ c.
Proof. pose proof (map_size_filter P m). lia. Qed.

Lemma cleanup_stale_lookups_wf env s : wf s → wf (cleanup_stale_lookups env s).
Proof. intros Hs. unfold cleanup_stale_lookups. wf_set. by apply size_filter_le. Qed.
Lemma cleanup_path_negative_cache_wf env s : wf s → wf (cleanup_path_negative_cache env s).
Proof. intros Hs. unfold cleanup_path_negative_cache. wf_set. by apply size_filter_le. Qed.

Lemma send_inits_wf env inits : ∀ s, wf s → res_wf (send_inits env inits s).
Proof.
  induction inits as [|[dst init] inits IH]; intros s Hs; cbn; [done|].
  pose proof (send_traffic_to_wf env dst init s Hs) as Hr.
  apply res_wf_bind. intros s' E. rewrite E in Hr. by apply IH.
Qed.

#[local] Hint Resolve broadcast_onion_key_announce_wf broadcast_capabilities_wf broadcast_reputation_wf
  rotate_onion_keys_if_due_wf probe_cuckoo_claim_wf cleanup_stale_probes_wf cleanup_stale_lookups_wf
  cleanup_path_negative_cache_wf : wf.

Lemma sessions_wf sm s : wf s → wf (s <| sessions := sm |>).
Proof. intros Hs. wf_set. Qed.
Lemma if_wf (b : bool) s s' : wf s → wf s' → wf (if b then s else s').
Proof. by destruct b. Qed.

Lemma trees_maintenance_wf env s :
  wf s → wf (foldl (λ s i, cuckoo_do_maintenance env i (fix_tree env i s)) s (seq 0 K)).
Proof. intros Hs. cbn. by repeat (apply cuckoo_do_maintenance_wf, fix_tree_wf; [unfold K; lia|]). Qed.

Lemma announce_all_wf env s :
  wf s → wf (broadcast_coord env (foldl (λ s i, send_announces env i s) s (seq 0 K))).
Proof. intros Hs. apply broadcast_coord_wf, foldl_wf; [|done]. intros; by apply send_announces_wf. Qed.

Lemma maintain_gossip_wf env s : wf s → wf (maintain_gossip env s).
Proof.
  intros Hs. unfold maintain_gossip.
  apply cleanup_path_negative_cache_wf, sessions_wf, cleanup_stale_lookups_wf, cleanup_stale_probes_wf.
  set (s1 := if _ || _ then broadcast_onion_key_announce env s else s).
  assert (wf s1) as Hs1 by (apply if_wf; auto with wf). clearbody s1.
  set (s2 := if _ || _ then broadcast_capabilities env s1 else s1).
  assert (wf s2) as Hs2 by (apply if_wf; auto with wf). clearbody s2.
  set (s3 := if _ && _ then probe_cuckoo_claim env s2 else s2).
  assert (wf s3) as Hs3 by (apply if_wf; auto with wf). clearbody s3.
  apply if_wf; auto with wf.
Qed.

(** An operation that keeps [wf] whatever its result, from a given state. *)
Lemma bind_wf {A B} (m : st t A) (k : A → st t B) s :
  wf (m s).2 → (∀ a, (m s).1 = Ok a → wf (m s).2 → wf (k a (m s).2).2) → wf ((m ≫= k) s).2.
Proof. intros Hm Hk. unfold mbind, st_bind. destruct (m s) as [[] s']; cbn in *; auto. Qed.

Lemma encrypt_and_dispatch_wf env own pl dst s : wf s → wf (encrypt_and_dispatch env own pl dst s).2.
Proof.
  intros Hs. unfold encrypt_and_dispatch. apply bind_wf; [done|]. intros pd _ _. cbn [lift snd].
  apply bind_wf; [done|]. intros s1 [= <-] _. cbn [get snd].
  apply bind_wf; [done|]. intros info _ _. cbn [lift snd].
  destruct (Session.encrypt _ _ _ _) as [r info']. apply bind_wf; [by apply sessions_wf|]. intros _ _ Hs1.
  apply bind_wf; [done|]. intros ct _ _. apply bind_wf; [done|]. intros [h tag] _ _.
  apply bind_wf; [done|]. intros s2 [= <-] _. destruct (lookup _ _ _); cbn; [|done].
  by apply send_to_peer_wf.
Qed.

End Preservation.

(** ** Reachable routers *)

Section Reachable.
Context `{Channels} `{Libm} `{Blake2} `{Blake2Mac} `{ChaCha20} `{Sha512} `{X25519} `{Hkdf}
  `{Aead} `{Ed25519} `{MlDsa} `{MlKem}.

(** Between two operations the last control broadcast is less than the longest
    interval old. *)
Abbreviation wf := (router_ok (CONTROL_MAX_INTERVAL - 1)).

Lemma wrap32_succ a b : 0 ≤ wrap32 (a - b) < 2 ^ 32 - 1 → wrap32 (wrap32 (a + 1) - b) = wrap32 (a - b) + 1.
Proof.
  intros Hr. change (wrap32 (wrap32 (a + 1) - b)) with ((((a + 1) mod 2 ^ 32) - b) mod 2 ^ 32).
  change (wrap32 (a - b)) with ((a - b) mod 2 ^ 32) in *.
  rewrite Zminus_mod_idemp_l, <- (Z.mod_small ((a - b) mod 2 ^ 32 + 1) (2 ^ 32)) by lia.
  rewrite Zplus_mod_idemp_l. f_equal. lia.
Qed.

Lemma tick_wf s : wf s → router_ok CONTROL_MAX_INTERVAL (s <| tick := wrap32 (tick s + 1) |>).
Proof.
  intros []. split; cbn; try done.
  assert (0 ≤ wrap32 (tick s - last_control_tick s)) by by apply Z.mod_pos_bound.
  unfold CONTROL_MAX_INTERVAL in *. rewrite wrap32_succ; lia.
Qed.

(** What [maybe_broadcast_control] does: an interval in its range, and a broadcast
    whenever one is due. *)
Lemma maybe_broadcast_control_wf env s :
  router_ok CONTROL_MAX_INTERVAL s → wf (maybe_broadcast_control env s).
Proof.
  intros Hs. unfold maybe_broadcast_control.
  set (s0 := if bool_decide _ then _ else s).
  assert (router_ok CONTROL_MAX_INTERVAL s0) as Hs0 by (unfold s0; case_match; [wf_set|done]).
  set (s1 := s0 <| control_interval := _ |>).
  assert (router_ok CONTROL_MAX_INTERVAL s1) as Hs1.
  { unfold s1. destruct Hs0. split; cbn; try done. unfold CONTROL_MIN_INTERVAL, CONTROL_MAX_INTERVAL in *.
    destruct (_ || _); [lia|]. change (wrap32 (control_interval s0 + 1)) with ((control_interval s0 + 1) mod 2 ^ 32).
    rewrite Z.mod_small by lia. lia. }
  destruct (negb _) eqn:Hdue.
  - apply negb_true_iff, orb_false_iff in Hdue as [_ Hdue%Z.leb_gt]. destruct Hs1. split; try done. lia.
  - pose proof (announce_all_wf env s1 Hs1) as Hs2. destruct Hs2. split; cbn; try done. by rewrite Z.sub_diag.
Qed.

Lemma maybe_broadcast_now env s :
  last_control_digest s ≠ Some (control_digest s) ∨ convergence_active s = true →
  let s' := maybe_broadcast_control env s in
  last_control_tick s' = tick s ∧ tick s' = tick s ∧
  last_control_digest s' = Some (control_digest s) ∧ control_interval s' = CONTROL_MIN_INTERVAL.
Proof.
  intros Hc. unfold maybe_broadcast_control.
  set (changed := bool_decide _). set (s0 := if changed then _ else s).
  assert (changed || convergence_active s0 = true) as Hd.
  { unfold s0, changed. destruct (bool_decide_reflect (last_control_digest s ≠ Some (control_digest s))); [done|].
    by destruct Hc. }
  rewrite Hd. cbn [orb negb]. set (s1 := s0 <| control_interval := _ |>).
  assert (sends s1 (broadcast_coord env (foldl (λ s i, send_announces env i s) s1 (seq 0 K)))) as (_ & _ & E).
  { unfold broadcast_coord. etrans; [|apply send_each_sends]. cbn. unfold send_announces.
    repeat (etrans; [|apply send_each_sends]). done. }
  rewrite E. by destruct changed.
Qed.

Lemma maintain_topology_wf env s : wf s → wf (maintain_topology env s).
Proof.
  intros Hs. unfold maintain_topology. apply sessions_wf, rotate_onion_keys_if_due_wf, sessions_wf.
  match goal with |- wf (if _ then send_keepalives env ?s' else _) => assert (wf s') as Hs' end.
  { apply maybe_broadcast_control_wf, update_own_coord_wf, trees_maintenance_wf, expire_peers_wf, tick_wf. exact Hs. }
  destruct (_ =? 0); [by apply send_keepalives_wf|done].
Qed.

Lemma do_maintenance_wf env s : wf s → res_wf (gap := CONTROL_MAX_INTERVAL - 1) (do_maintenance env s).
Proof.
  intros Hs. unfold do_maintenance. pose proof (maintain_topology_wf env s Hs) as Hs1.
  set (s1 := maintain_topology env s) in *. destruct (SessionManager.pending_handshake_inits _ _ _ _) as [inits sm].
  pose proof (send_inits_wf env inits _ (sessions_wf sm s1 Hs1)) as Hs2.
  apply res_wf_bind. intros s2 E2. rewrite E2 in Hs2. by apply maintain_gossip_wf.
Qed.



Inductive step : t → t → Prop :=
| step_frame env from frame s s' : dispatch env from frame s = Ok s' → step s s'
| step_tick env s s' : do_maintenance env s = Ok s' → step s s'
| step_connect env key tx prio s : step s (add_peer env key tx prio s)
| step_disconnect key s : step s (remove_peer key s)
| step_write env payload dst s : step s (encrypt_and_dispatch env (pub_key s) payload dst s).2.

Lemma step_wf s s' : step s s' → wf s → wf s'.
Proof.
  intros [env from frame s1 s1' E|env s1 s1' E|env key tx prio s1|key s1|env pl dst s1] Hs.
  - pose proof (dispatch_wf env from frame s1 Hs) as Hr. by rewrite E in Hr.
  - pose proof (do_maintenance_wf env s1 Hs) as Hr. by rewrite E in Hr.
  - by apply add_peer_wf.
  - by apply remove_peer_wf.
  - by apply encrypt_and_dispatch_wf.
Qed.

Lemma router_new_wf env sk dk seed : wf (new env sk dk seed).
Proof.
  unfold new. split; cbn; try done.
  - by repeat constructor.
  - intros k [? Hk]. by rewrite lookup_empty in Hk.
  - constructor.
  - unfold room_ok. by rewrite delete_singleton_eq, map_size_empty.
Qed.

Lemma router_reachable_wf env sk dk seed s : rtc step (new env sk dk seed) s → wf s.
Proof.
  intros Hr. pose proof (router_new_wf env sk dk seed) as Hn. induction Hr as [|s1 s2 s3 Hs _ IH]; [done|].
  by apply IH, (step_wf s1).
Qed.


(** The adaptive cadence of the control broadcasts.  In every reachable state
    the last broadcast is less than 8 ticks old, and 8 ticks of a second are well
    under the 30 seconds an announce lives, so an idle neighbour is always refreshed
    in time.  A tick on which the topology digest changed, or within the grace
    period of a topology change, broadcasts at once, remembers the digest and snaps
    the interval back to one tick. *)
Theorem control_cadence env sk dk seed s :
  rtc step (new env sk dk seed) s →
  wrap32 (tick s - last_control_tick s) < CONTROL_MAX_INTERVAL ∧
  CONTROL_MIN_INTERVAL ≤ control_interval s ≤ CONTROL_MAX_INTERVAL ∧
  CONTROL_MAX_INTERVAL * SECS < ANNOUNCE_EXPIRY ∧
  ∀ env', last_control_digest s ≠ Some (control_digest s) ∨ convergence_active s = true →
    let s' := maybe_broadcast_control env' s in
    last_control_tick s' = tick s ∧ tick s' = tick s ∧
    last_control_digest s' = Some (control_digest s) ∧ control_interval s' = CONTROL_MIN_INTERVAL.
Proof.
  intros []%router_reachable_wf. split; [lia|]. split; [done|]. split; [done|].
  intros env'. apply maybe_broadcast_now.
Qed.
End Reachable.

Section SafetyWitness.
Import ToyRouter.

Lemma router_reachable : rtc step router0 router.
Proof.
  unfold router. eapply rtc_l; [apply step_connect|]. eapply rtc_l; [apply step_connect|].
  apply rtc_once. apply step_connect.
Qed.


Lemma control_cadence_witness : wrap32 (tick router - last_control_tick router) < CONTROL_MAX_INTERVAL.
Proof. apply (control_cadence env sk_me (fill 64 (u8 1)) (fill 32 (u8 2)) router). apply router_reachable. Defined.
End SafetyWitness.
