(* ===== verification/Dispatch.v ===== *)
(** * Theorems about received frames

    What an arbitrary frame can do to a router: whether it can make it panic, and
    which frames change the gossip tables. *)

From Stdlib Require Import Floats.SpecFloat.
From S2P Require Import Prelude Collections Xor Floats Crypto Hyperbolic Varint Cuckoo Packet.
From S2P Require Import Header Address SessionWire Session SessionManager Onion Sphinx.
From S2P Require Import Router Routing Handlers RouterToy RouterProps RoutingProps RouterSafety.
Import RouterState.

(** ** No panic in the sessions *)

Definition st_safe {S A} (m : st S A) : Prop := ∀ s, no_panic (m s).1.

Lemma st_safe_bind {S A B} (m : st S A) (k : A → st S B) :
  st_safe m → (∀ a, st_safe (k a)) → st_safe (m ≫= k).
Proof. intros Hm Hk s. specialize (Hm s). unfold mbind, st_bind. destruct (m s) as [[] s']; cbn in *; [by apply Hk|done|by destruct Hm]. Qed.
Lemma st_safe_lift {S A} (r : res A) : no_panic r → st_safe (S := S) (lift r).
Proof. by intros Hr s. Qed.
Lemma st_safe_ret {S A} (a : A) : st_safe (S := S) (mret a).
Proof. by intros s. Qed.
Lemma st_safe_put {S} (s : S) : st_safe (put s).
Proof. by intros s'. Qed.
Lemma st_safe_get {S} : st_safe (S := S) get.
Proof. by intros s'. Qed.
Lemma st_safe_fail {S A} msg : st_safe (S := S) (A := A) (fail msg).
Proof. by intros s'. Qed.
Lemma st_safe_modify {S} (f : S → S) : st_safe (modify f).
Proof. by intros s'. Qed.

Create HintDb safe.
#[export] Hint Resolve st_safe_lift st_safe_ret st_safe_put st_safe_get st_safe_fail st_safe_modify
  no_panic_init_decode no_panic_ack_decode no_panic_unpad : safe.

(** Read a computation from its head. *)
Ltac st_safe :=
  repeat first
  [ solve [auto with safe]
  | apply st_safe_bind; [|intros ?]
  | match goal with
    | |- st_safe (if ?c then _ else _) => destruct c
    | |- st_safe (match ?c with _ => _ end) => destruct c
    | |- st_safe (let '(_, _) := ?p in _) => destruct p
    end ].

Section Sessions.
Context `{X25519} `{Hkdf} `{Aead} `{Ed25519} `{MlDsa} `{MlKem}.

Lemma no_panic_init_verify wall m our : no_panic (SessionInit.verify false wall m our).
Proof. unfold SessionInit.verify. np. apply no_panic_skew. Qed.
Lemma no_panic_ack_verify wall m our : no_panic (SessionAck.verify false wall m our).
Proof. unfold SessionAck.verify. np. apply no_panic_skew. Qed.
Lemma no_panic_encapsulate r ek : no_panic (pq_encapsulate r ek).
Proof. unfold pq_encapsulate. np. Qed.
Lemma no_panic_decap k ct : no_panic (PqKeys.decap k ct).
Proof. unfold PqKeys.decap. np. Qed.
Lemma no_panic_window_check h w q : no_panic (window_check h w q).
Proof. unfold window_check. np. Qed.
#[local] Hint Resolve no_panic_init_verify no_panic_ack_verify no_panic_encapsulate no_panic_decap
  no_panic_window_check : safe.

Lemma pq_verify_and_pin_safe ord a b c d : st_safe (SessionManager.pq_verify_and_pin ord a b c d).
Proof. unfold SessionManager.pq_verify_and_pin. st_safe. Qed.
Lemma rate_limited_safe ord now a : st_safe (SessionManager.rate_limited ord now a).
Proof. unfold SessionManager.rate_limited. st_safe. Qed.
#[local] Hint Resolve pq_verify_and_pin_safe rate_limited_safe : safe.

Lemma handle_init_safe ord now wall r p data : st_safe (SessionManager.handle_init false ord now wall r p data).
Proof. unfold SessionManager.handle_init. st_safe. Qed.
Lemma handle_ack_safe ord wall data : st_safe (SessionManager.handle_ack false ord wall data).
Proof. unfold SessionManager.handle_ack. st_safe. Qed.

Lemma dh_shared_safe r : st_safe (dh_shared r).
Proof. unfold dh_shared. st_safe. Qed.
Lemma open_hybrid_safe a b c d : st_safe (open_hybrid a b c d).
Proof. unfold open_hybrid. st_safe. Qed.
#[local] Hint Resolve dh_shared_safe open_hybrid_safe : safe.

Lemma decrypt_safe now ct : st_safe (Session.decrypt now ct).
Proof.
  unfold Session.decrypt. destruct (Z.ltb_spec (len ct) (32 + 8 + 16)); [st_safe|].
  assert (no_panic (slice ct 0 32)) by (apply no_panic_slice; lia).
  assert (no_panic (slice ct 32 40)) by (apply no_panic_slice; lia).
  assert (no_panic (slice_from ct 40)) by (unfold slice_from; apply no_panic_slice; lia).
  st_safe.
Qed.
End Sessions.

(** ** No panic in the handlers *)

(** A computation that returns. *)
Definition runs {A} (r : res A) : Prop := ∃ a, r = Ok a.
Lemma runs_Ok {A} (a : A) : runs (Ok a).
Proof. by exists a. Qed.
Ltac runs := solve [apply runs_Ok | done].

(** A computation that panics when [P] and returns otherwise. *)
Definition panics_iff {A} (P : Prop) (r : res A) : Prop := (P → r = Panic) ∧ (¬ P → runs r).
Lemma panics_never {A} (P : Prop) (r : res A) : ¬ P → runs r → panics_iff P r.
Proof. by intros HP Hr. Qed.
Lemma panics_always {A} (P : Prop) : P → panics_iff P (Panic : res A).
Proof. by intros HP. Qed.
Lemma panics_proper {A} (P Q : Prop) (r : res A) : (P ↔ Q) → panics_iff P r → panics_iff Q r.
Proof. unfold panics_iff. tauto. Qed.

(** A peeled layer whose declared content length overflows the position after it. *)
Definition len_overflows (buf : bytes) : Prop :=
  ∃ l n, uvarint_at buf 1 = Ok (l, n) ∧ 2 ^ 64 ≤ 1 + n + l.

Section NoPanic.
Context `{Channels} `{Libm} `{Blake2Laws} `{Blake2MacLaws} `{ChaCha20Laws} `{Sha512} `{X25519Laws} `{Hkdf}
  `{AeadLaws} `{Ed25519Laws} `{MlDsa} `{MlKem}.

Lemma pad_runs data : ∃ pd, pad_payload false data = Ok pd.
Proof.
  unfold pad_payload. cbn [andb]. rewrite slice_ok by (unfold len, U16_MAX; lia). by eexists.
Qed.

Lemma send_traffic_to_total env dst pl s :
  len (pub_key s) = 32 → len dst = 32 → runs (send_traffic_to env dst pl s).
Proof.
  intros Hk Hd. unfold send_traffic_to.
  destruct (encrypt_header_runs (header_priv env dst) (pub_key s) dst) as [[h tag] ->]; [done..|].
  destruct (pad_runs pl) as [pd ->]. rewrite !bind_Ok. destruct (lookup _ _ _); runs.
Qed.

Lemma with_sessions_total {A} (op : st SessionManager.t A) s k :
  st_safe op → (∀ a sm, runs (k a (s <| sessions := sm |>))) → runs (with_sessions op s k).
Proof.
  intros Hop Hk. unfold with_sessions. specialize (Hop (sessions s)).
  destruct (op (sessions s)) as [[] sm]; cbn in Hop; [apply Hk..|by destruct Hop].
Qed.

Lemma note_peer_coord_pub env k c s : pub_key (note_peer_coord env k c s) = pub_key s.
Proof.
  unfold note_peer_coord, note_coord. destruct (_ || _); [done|]. by destruct (make_room _ _ _ _ _).
Qed.

Lemma handle_control_total env raw s : len (pub_key s) = 32 → runs (handle_control env raw s).
Proof.
  intros Hk. unfold handle_control. destruct raw as [|magic raw]; [runs|].
  destruct (_ =? SESSION_INIT_MAGIC).
  - apply with_sessions_total; [apply handle_init_safe|]. intros [ack|] sm; [|runs].
    destruct (Z.leb_spec 33 (len (magic :: raw))); [|runs].
    apply send_traffic_to_total; [|rewrite len_take, len_drop; lia].
    destruct (SessionInit.decode _); rewrite ?note_peer_coord_pub; done.
  - destruct (_ =? SESSION_ACK_MAGIC); [|runs].
    apply with_sessions_total; [apply handle_ack_safe|]. intros [[]|] sm; [|runs].
    destruct (SessionAck.decode _); runs.
Qed.

Lemma decrypt_from_safe env src pl : st_safe (decrypt_from env src pl).
Proof.
  unfold decrypt_from. apply st_safe_bind; [auto with safe|]. intros m.
  apply st_safe_bind; [apply st_safe_lift, no_panic_ok_or|]. intros info.
  pose proof (decrypt_safe (now_ms env) pl info) as Hd. destruct (Session.decrypt _ _ _) as [r info'].
  st_safe.
Qed.

Lemma handle_traffic_total env from tr s : len (pub_key s) = 32 → runs (handle_traffic env from tr s).
Proof.
  intros Hk. unfold handle_traffic. destruct (routing_tag_eq _ _); [|runs]. destruct (_ =? PKT_CONTROL).
  - pose proof (no_panic_unpad (Traffic.payload tr)).
    destruct (unpad_payload _); [by apply handle_control_total|runs|done].
  - destruct (_ =? PKT_DATA); [|runs]. unfold handle_data.
    destruct (decrypt_source_from_header _ _); [|runs].
    apply with_sessions_total; [apply decrypt_from_safe|]. intros [pt|] sm; [|runs]. cbn.
    pose proof (no_panic_unpad pt). destruct (unpad_payload pt); runs.
Qed.

Lemma exit_traffic_total env from data s : len (pub_key s) = 32 → runs (exit_traffic env from data s).
Proof.
  intros Hk. unfold exit_traffic. destruct data as [|b data]; [runs|]. destruct (_ =? _); [|runs].
  pose proof (wire_no_panic (A := Traffic.t) data) as Hn. cbn in Hn.
  destruct (Traffic.decode data); [by apply handle_traffic_total|runs|done].
Qed.

Lemma try_decrypt_total k e c : no_panic (OnionKeyChain.try_decrypt k e c).
Proof. unfold OnionKeyChain.try_decrypt. by repeat case_match. Qed.

(** Reading the content of a layer panics exactly when the declared length
    overflows the end of the content. *)
Lemma content_panic msg b buf :
  OnionPacket.content false msg (b :: buf) = Panic ↔ len_overflows (b :: buf).
Proof.
  unfold OnionPacket.content, len_overflows. split.
  - pose proof (no_panic_uvarint_at (b :: buf) 1) as Hn. rewrite len_cons in Hn. len_pos.
    destruct (uvarint_at (b :: buf) 1) as [[l n]| |] eqn:E; [|done|by destruct Hn; [lia..|]].
    apply uvarint_at_inv in E. rewrite bind_Ok. unfold usize_add.
    destruct (Z.ltb_spec (1 + n + l) (2 ^ 64)); rewrite bind_Ok; [|by exists l, n].
    destruct (Z.ltb_spec (len (b :: buf)) (1 + n + l)); [done|].
    intros Hp. exfalso. revert Hp. apply no_panic_slice; lia.
  - intros (l & n & E & Ho). rewrite E, bind_Ok. apply uvarint_at_inv in E. unfold usize_add.
    destruct (Z.ltb_spec (1 + n + l) (2 ^ 64)); [lia|]. rewrite bind_Ok.
    assert (wrap64 (1 + n + l) = 1 + n + l - 2 ^ 64) as ->.
    { unfold wrap64. rewrite <- (Z_mod_plus_full _ (-1)). apply Z.mod_small. lia. }
    destruct (Z.ltb_spec (len (b :: buf)) (1 + n + l - 2 ^ 64)); [lia|].
    unfold slice. destruct (Z.leb_spec (1 + n) (1 + n + l - 2 ^ 64)); [lia|]. by rewrite andb_false_r.
Qed.

Lemma peel_panic pkt keys :
  OnionPacket.peel false pkt keys = Panic ↔
  ∃ ty buf, OnionKeyChain.try_decrypt keys (OnionPacket.epk pkt) (OnionPacket.aead_payload pkt) = Ok (ty :: buf) ∧
    (uz ty = ONION_FORWARD ∨ uz ty = ONION_DELIVER) ∧ len_overflows (ty :: buf).
Proof.
  unfold OnionPacket.peel.
  pose proof (try_decrypt_total keys (OnionPacket.epk pkt) (OnionPacket.aead_payload pkt)) as Hn.
  destruct (OnionKeyChain.try_decrypt _ _ _) as [buf| |]; [|by split; [|intros (? & ? & ? & ?)]|by destruct Hn].
  rewrite bind_Ok. destruct buf as [|ty buf]; [by split; [|intros (? & ? & ? & ?)]|].
  rewrite len_cons. len_pos. destruct (Z.eqb_spec (1 + len buf) 0); [lia|]. rewrite index_head, bind_Ok by done.
  assert (∀ f msg, f <$> OnionPacket.content false msg (ty :: buf) = (Panic : res PeeledOnion) ↔
            len_overflows (ty :: buf)) as Hc.
  { intros f msg. rewrite <- (content_panic msg). by destruct (OnionPacket.content _ _ _). }
  destruct (Z.eqb_spec (uz ty) ONION_FORWARD) as [E|E]; [|destruct (Z.eqb_spec (uz ty) ONION_DELIVER) as [E'|E']].
  1-2: rewrite Hc; split; [by exists ty, buf; auto|by intros (? & ? & [= <- <-] & _ & ?)].
  split; [done|]. intros (? & ? & [= <- <-] & [] & _); done.
Qed.

Lemma onion_digest_seen_pub d s : pub_key (onion_digest_seen d s).2 = pub_key s.
Proof.
  unfold onion_digest_seen. destruct (bool_decide _); [done|]. cbn.
  destruct (_ <=? _); [|done]. by destruct (onion_seen s).
Qed.
Lemma onion_digest_seen_keys d s : onion_keys (onion_digest_seen d s).2 = onion_keys s.
Proof.
  unfold onion_digest_seen. destruct (bool_decide _); [done|]. cbn.
  destruct (_ <=? _); [|done]. by destruct (onion_seen s).
Qed.

Lemma handle_sphinx_total env from cell s : len (pub_key s) = 32 → runs (handle_sphinx env from cell s).
Proof.
  intros Hk. unfold handle_sphinx.
  assert (∃ d, replay_digest cell = Ok d) as [digest ->].
  { unfold replay_digest. destruct (Z.eqb_spec (len cell) CELL_SIZE); cbn [negb]; [|by eexists].
    rewrite !slice_ok by (sizes; lia). by eexists. }
  rewrite bind_Ok.
  assert (∃ r s', (match digest with Some d => onion_digest_seen d (touch env from s)
                   | None => (false, touch env from s) end) = (r, s') ∧ pub_key s' = pub_key s)
    as (r & s' & -> & Hp).
  { destruct digest as [d|]; [|by eexists _, _]. eexists _, _. split; [apply surjective_pairing|].
    by rewrite onion_digest_seen_pub. }
  destruct r; [runs|].
  destruct (process_sphinx_total false cell (OnionKeyChain.sphinx_privs (onion_keys s'))) as [Hn _].
  destruct (process_sphinx _ _ _) as [[]| |]; [runs| |runs|done]. apply exit_traffic_total. by rewrite Hp.
Qed.

Lemma handle_onion_panic env from pkt s :
  len (pub_key s) = 32 →
  panics_iff ((is_onion_replay pkt (touch env from s)).1 = false ∧
              OnionPacket.peel false pkt (onion_keys s) = Panic) (handle_onion env from pkt s).
Proof.
  intros Hk. unfold handle_onion, is_onion_replay. set (d := blake2b 32 _).
  pose proof (onion_digest_seen_pub d (touch env from s)) as Hp.
  pose proof (onion_digest_seen_keys d (touch env from s)) as Hc.
  destruct (onion_digest_seen d (touch env from s)) as [[] s']; [by apply panics_never; [intros []|runs]|].
  cbn [fst snd] in *. rewrite Hc. change (onion_keys (touch env from s)) with (onion_keys s).
  change (pub_key (touch env from s)) with (pub_key s) in Hp.
  destruct (OnionPacket.peel false pkt (onion_keys s)) as [[inner|data]| |].
  - apply panics_never; [by intros []|]. pose proof (OnionWire.no_panic_decode_onion inner).
    destruct (OnionPacket.decode inner); runs.
  - apply panics_never; [by intros []|]. apply exit_traffic_total. congruence.
  - apply panics_never; [by intros []|]. runs.
  - by apply panics_always.
Qed.

Lemma dispatch_sphinx_total env from frame s : len (pub_key s) = 32 → runs (dispatch_sphinx env from frame s).
Proof.
  intros Hk. unfold dispatch_sphinx. destruct (Z.eqb_spec (len frame) CELL_SIZE); cbn [negb]; [|runs].
  rewrite slice_ok by (sizes; lia). rewrite bind_Ok.
  destruct (routing_tag_eq _ _); [by apply handle_sphinx_total|runs].
Qed.

(** What panics a relay: an onion packet addressed to it, not seen before, one of
    whose layers is sealed to it and declares an overflowing length. *)
Definition onion_overflow (env : Env) (from frame : bytes) (s : t) : Prop :=
  ∃ body pkt ty buf,
    frame = u8 TYPE_ONION :: body ∧ OnionPacket.decode body = Ok pkt ∧
    routing_tag_eq (OnionPacket.routing_tag pkt) (routing_tag (pub_key s)) = true ∧
    (is_onion_replay pkt (touch env from s)).1 = false ∧
    OnionKeyChain.try_decrypt (onion_keys s) (OnionPacket.epk pkt) (OnionPacket.aead_payload pkt) = Ok (ty :: buf) ∧
    (uz ty = ONION_FORWARD ∨ uz ty = ONION_DELIVER) ∧ len_overflows (ty :: buf).

Lemma dispatch_onion_panic env from body s :
  len (pub_key s) = 32 →
  panics_iff (onion_overflow env from (u8 TYPE_ONION :: body) s) (dispatch_onion env from body s).
Proof.
  intros Hk. unfold dispatch_onion, onion_overflow. pose proof (OnionWire.no_panic_decode_onion body) as Hn.
  destruct (OnionPacket.decode body) as [pkt| |] eqn:E; [|apply panics_never; [|runs]|by destruct Hn].
  2: { intros (? & ? & ? & ? & [= <-] & ? & _). congruence. }
  destruct (routing_tag_eq _ _) eqn:Et; [|apply panics_never; [|runs]].
  - eapply panics_proper; [|by apply handle_onion_panic]. rewrite peel_panic. split.
    + intros (Hr & ty & buf & ?). by exists body, pkt, ty, buf.
    + intros (? & pkt' & ty & buf & Hb & Hd & ? & ? & ?). injection Hb as <-. rewrite E in Hd. injection Hd as <-.
      split; [done|]. by exists ty, buf.
  - intros (? & ? & ? & ? & [= <-] & ? & ? & _). congruence.
Qed.

Lemma Frame_other_inv frame ptype data :
  Frame.decode frame = Ok (Frame.Other ptype data) → frame = u8 ptype :: data.
Proof.
  destruct frame as [|b body]; [done|]. rewrite Frame_decode_cons. unfold Frame.switch.
  repeat (case_match; [first [done | intros (? & _ & ?)%fmap_Ok_inv; done]|]).
  intros [= <- <-]. by rewrite byte.of_Z_unsigned.
Qed.

(** A frame that decodes to another message is not an onion packet. *)
Lemma overflow_frame env from frame s :
  onion_overflow env from frame s → ∃ body, Frame.decode frame = Ok (Frame.Other TYPE_ONION body).
Proof.
  intros (body & pkt & ty & buf & -> & _). exists body. rewrite Frame_decode_cons. by vm_compute.
Qed.
End NoPanic.

(** C1: no frame panics a router but one: a [dispatch] of an arbitrary frame from
    an arbitrary neighbour, in any state whose own key has its 32 bytes, returns a
    state, unless the frame is an onion packet addressed to this router whose layer
    for it declares a content length that overflows; and such a frame does panic. *)
Theorem dispatch_total `{Channels} `{Libm} `{Blake2Laws} `{Blake2MacLaws} `{ChaCha20Laws} `{Sha512} `{X25519Laws} `{Hkdf}
    `{AeadLaws} `{Ed25519Laws} `{MlDsa} `{MlKem} env from frame s :
  len (pub_key s) = 32 →
  panics_iff (onion_overflow env from frame s) (dispatch env from frame s).
Proof.
  intros Hk. unfold dispatch. destruct (Frame_decode_sound frame) as [Hn _].
  pose proof (overflow_frame env from frame s) as Ho.
  destruct (Frame.decode frame) as [f| |] eqn:E; [|apply panics_never; [naive_solver|runs]|done].
  destruct f; try (apply panics_never; [naive_solver|]); try runs; [by apply handle_traffic_total|].
  apply Frame_other_inv in E as ->.
  destruct (Z.eqb_spec ptype TYPE_ONION) as [->|Hne]; [by apply dispatch_onion_panic|].
  apply panics_never; [naive_solver|].
  destruct (ptype =? TYPE_ONION_SPHINX); [by apply dispatch_sphinx_total|runs].
Qed.

(** ** What the gossip tables learn *)

Section Gossip.
Context `{Channels} `{Libm} `{Blake2} `{Blake2Mac} `{ChaCha20} `{Sha512} `{X25519} `{Hkdf}
  `{Aead} `{Ed25519} `{MlDsa} `{MlKem}.

Definition tables (s : t) := (remote_onion_keys s, peer_capabilities s, reputation s).

Lemma tables_sends s s' : sends s s' → tables s' = tables s.
Proof. by intros (_ & _ & ->). Qed.
Lemma tables_send_to_peer env k data s : tables (send_to_peer env k data s) = tables s.
Proof. apply tables_sends, send_to_peer_sends. Qed.
Lemma tables_send_each env ks data s : tables (send_each env ks data s) = tables s.
Proof. apply tables_sends, send_each_sends. Qed.
Lemma tables_flood env from data s : tables (flood env from data s) = tables s.
Proof. apply tables_send_each. Qed.
Lemma tables_with_peer k f s : tables (with_peer k f s) = tables s.
Proof. done. Qed.
Lemma tables_touch env k s : tables (touch env k s) = tables s.
Proof. done. Qed.
Lemma tables_update_landmarks s : tables (update_landmarks s) = tables s.
Proof. done. Qed.
Lemma tables_note_coord env k c s : tables (default s (note_coord env k c s)) = tables s.
Proof. unfold note_coord. by destruct (make_room _ _ _ _ _). Qed.
Lemma tables_path_negative env k tag s : tables (record_path_negative env k tag s) = tables s.
Proof. done. Qed.
Lemma tables_digest_seen d s : tables (onion_digest_seen d s).2 = tables s.
Proof.
  unfold onion_digest_seen. destruct (bool_decide _); [done|]. cbn.
  destruct (_ <=? _); [|done]. by destruct (onion_seen s).
Qed.
Create Rewrite HintDb tables.
Create HintDb tables.
#[local] Hint Rewrite tables_send_to_peer tables_send_each tables_flood tables_with_peer tables_touch
  tables_update_landmarks tables_note_coord tables_path_negative tables_digest_seen : tables.

Ltac keep := repeat first [progress autorewrite with tables | case_match; simplify_eq | done].

Lemma tables_send_path_negative env to tag ttl s : tables (send_path_negative env to tag ttl s) = tables s.
Proof. unfold send_path_negative. keep. Qed.
Lemma tables_note_peer_coord env k c s : tables (note_peer_coord env k c s) = tables s.
Proof. unfold note_peer_coord. keep. Qed.
#[local] Hint Rewrite tables_send_path_negative tables_note_peer_coord : tables.
Lemma tables_relay env from tag frame s : tables (relay env from tag frame s) = tables s.
Proof. unfold relay. keep. Qed.
Lemma tables_forward env from tr s : tables (forward_traffic env from tr s) = tables s.
Proof. unfold forward_traffic. keep. Qed.
#[local] Hint Rewrite tables_relay tables_forward : tables.

Lemma tables_sig_res env from m s : tables (handle_sig_res env from m s) = tables s.
Proof. unfold handle_sig_res. keep. Qed.
Lemma tables_announce env from m s : tables (handle_announce env from m s) = tables s.
Proof. unfold handle_announce. keep. Qed.
Lemma tables_cuckoo env from m s : tables (handle_cuckoo env from m s) = tables s.
Proof. unfold handle_cuckoo. keep. Qed.
Lemma tables_coord env from m s : tables (handle_coord_announce env from m s) = tables s.
Proof.
  unfold handle_coord_announce. cbv zeta. do 4 (case_match; [done|]).
  pose proof (tables_note_coord env from (HypCoord.decode (CoordAnnounce.coord m)) s) as Hn.
  by destruct (note_coord _ _ _ _).
Qed.
Lemma tables_lookup env from m s : tables (handle_path_lookup env from m s) = tables s.
Proof. unfold handle_path_lookup. keep. Qed.
Lemma tables_negative env from m s : tables (handle_path_negative env from m s) = tables s.
Proof. unfold handle_path_negative. keep. Qed.
Lemma tables_notify env from m s : tables (handle_path_notify env from m s) = tables s.
Proof. unfold handle_path_notify. keep. Qed.
Lemma tables_broken env from m s : tables (handle_path_broken env from m s) = tables s.
Proof. unfold handle_path_broken. keep. Qed.
Lemma tables_hole_punch env m s : tables (handle_hole_punch env m s) = tables s.
Proof. unfold handle_hole_punch. keep. Qed.

(** The handlers that may panic. *)
Definition keeps_tables (s : t) (r : res t) : Prop := ∀ s', r = Ok s' → tables s' = tables s.

Lemma keeps_Ok s s' : tables s' = tables s → keeps_tables s (Ok s').
Proof. by intros Ht ? [= <-]. Qed.
Lemma keeps_Err s msg : keeps_tables s (Err msg).
Proof. by intros s'. Qed.
Lemma keeps_Panic s : keeps_tables s Panic.
Proof. by intros s'. Qed.
Lemma keeps_from s s1 r : tables s1 = tables s → keeps_tables s1 r → keeps_tables s r.
Proof. unfold keeps_tables. by intros ->. Qed.
#[local] Hint Resolve keeps_Ok keeps_Err keeps_Panic : tables.

Lemma keeps_send_traffic env dst pl s : keeps_tables s (send_traffic_to env dst pl s).
Proof.
  intros s' ([h tag] & _ & (pd & _ & Hs)%bind_Ok_inv)%bind_Ok_inv.
  destruct (lookup _ _ _); injection Hs as <-; keep.
Qed.

Lemma keeps_with_sessions {A} (op : st SessionManager.t A) s k :
  (∀ a sm, keeps_tables s (k a (s <| sessions := sm |>))) → keeps_tables s (with_sessions op s k).
Proof. intros Hk. unfold with_sessions. destruct (op (sessions s)) as [[] sm]; auto with tables. Qed.

Lemma keeps_control env raw s : keeps_tables s (handle_control env raw s).
Proof.
  unfold handle_control. destruct raw as [|magic raw]; [auto with tables|].
  destruct (_ =? SESSION_INIT_MAGIC).
  - apply keeps_with_sessions. intros [ack|] sm; [|auto with tables].
    assert (∀ init, tables (note_peer_coord env (SessionInit.ed_pub init) (SessionInit.sender_coord init)
              (s <| sessions := sm |>)) = tables s) as Hn by (intros; by rewrite tables_note_peer_coord).
    destruct (33 <=? _); [|destruct (SessionInit.decode _); auto with tables].
    eapply keeps_from, keeps_send_traffic. by destruct (SessionInit.decode _).
  - destruct (_ =? SESSION_ACK_MAGIC); [|auto with tables].
    apply keeps_with_sessions. intros [[]|] sm; [|auto with tables].
    destruct (SessionAck.decode _); apply keeps_Ok; rewrite ?tables_note_peer_coord; done.
Qed.

Lemma keeps_traffic env from tr s : keeps_tables s (handle_traffic env from tr s).
Proof.
  unfold handle_traffic. set (s1 := with_peer _ _ s). apply (keeps_from s s1); [done|].
  destruct (routing_tag_eq _ _); [|by apply keeps_Ok, tables_forward]. destruct (_ =? PKT_CONTROL).
  - destruct (unpad_payload _); auto using keeps_control with tables.
  - destruct (_ =? PKT_DATA); [|auto with tables]. unfold handle_data.
    destruct (decrypt_source_from_header _ _); [|auto with tables].
    apply keeps_with_sessions. intros [pt|] sm; cbn; [|auto with tables].
    destruct (unpad_payload pt); auto with tables.
Qed.

Lemma keeps_exit env from data s : keeps_tables s (exit_traffic env from data s).
Proof.
  unfold exit_traffic. destruct data as [|b data]; [auto with tables|]. destruct (_ =? _); [|auto with tables].
  destruct (Traffic.decode data); auto using keeps_traffic with tables.
Qed.

Lemma keeps_onion env from data s : keeps_tables s (dispatch_onion env from data s).
Proof.
  unfold dispatch_onion. destruct (OnionPacket.decode data) as [pkt| |]; [|auto with tables..].
  destruct (routing_tag_eq _ _); [|by apply keeps_Ok, tables_relay]. unfold handle_onion, is_onion_replay.
  pose proof (tables_digest_seen (blake2b 32 (bstr "norn:onion-replay" ++ OnionPacket.epk pkt
    ++ take 16 (OnionPacket.aead_payload pkt))) (touch env from s)) as Hd.
  destruct (onion_digest_seen _ _) as [[] s1]; cbn in Hd; [auto with tables|].
  apply (keeps_from s s1); [done|].
  destruct (OnionPacket.peel _ _ _) as [[inner|tr]| |]; [|auto using keeps_exit with tables..].
  destruct (OnionPacket.decode inner); [by apply keeps_Ok, tables_relay|auto with tables..].
Qed.

Lemma keeps_sphinx env from cell s : keeps_tables s (dispatch_sphinx env from cell s).
Proof.
  unfold dispatch_sphinx. destruct (negb _); [auto with tables|].
  destruct (slice cell 1 17) as [tag| |]; [rewrite bind_Ok|by intros ?..].
  destruct (routing_tag_eq _ _); [|by apply keeps_Ok, tables_relay]. unfold handle_sphinx.
  destruct (replay_digest cell) as [digest| |]; [rewrite bind_Ok|by intros ?..].
  assert (∃ r s1, (match digest with Some d => onion_digest_seen d (touch env from s)
                   | None => (false, touch env from s) end) = (r, s1) ∧ tables s1 = tables s)
    as (r & s1 & -> & Ht).
  { destruct digest as [d|]; [|by eexists _, _]. eexists _, _. split; [apply surjective_pairing|].
    by rewrite tables_digest_seen. }
  destruct r; [auto with tables|]. apply (keeps_from s s1); [done|].
  destruct (process_sphinx _ _ _) as [[]| |]; [by apply keeps_Ok, tables_relay|auto using keeps_exit with tables..].
Qed.

(** Any other frame leaves the tables alone. *)
Definition is_flood (f : Frame.t) : bool :=
  match f with Frame.AnOnionKey _ | Frame.ACapability _ | Frame.AReputation _ => true | _ => false end.

Lemma dispatch_keeps env from frame f s :
  Frame.decode frame = Ok f → is_flood f = false → keeps_tables s (dispatch env from frame s).
Proof.
  intros E Hf. unfold dispatch. rewrite E.
  destruct f; try done; try (apply keeps_Ok; done).
  - apply keeps_Ok. by etrans; [apply tables_send_to_peer|].
  - apply keeps_Ok, tables_sig_res.
  - apply keeps_Ok, tables_announce.
  - apply keeps_Ok, tables_cuckoo.
  - apply keeps_Ok, tables_lookup.
  - apply keeps_Ok, tables_notify.
  - apply keeps_Ok, tables_broken.
  - apply keeps_traffic.
  - apply keeps_Ok, tables_coord.
  - apply keeps_Ok, tables_hole_punch.
  - apply keeps_Ok, tables_negative.
  - destruct (_ =? TYPE_ONION); [apply keeps_onion|].
    destruct (_ =? TYPE_ONION_SPHINX); [apply keeps_sphinx|auto with tables].
Qed.

(** What a router requires of a flood before it records it: another's signature, a
    date within the window, and a sequence number above the recorded one. *)
Record attested (env : Env) (s : t) (signer msg sig : bytes) (validity date : Z) (prev : option Z) (seq : Z)
    : Prop := {
  att_other : signer ≠ pub_key s;
  att_signed : signed_by signer msg sig = true;
  att_window : in_window (wall env) validity date = true;
  att_newer : ∀ q, prev = Some q → q < seq }.

Lemma make_room_lookup {A} (env : Env) (s : t) (cap : Z) (origin : bytes) (m m' : gmap bytes A) (k : bytes) (e : A) :
  make_room env s cap origin m = Some m' → m' !! k = Some e → m !! k = Some e.
Proof.
  unfold make_room. destruct (_ && _); [|by intros [= <-]].
  intros (v & _ & ->)%fmap_Some. by intros [_ ?]%lookup_delete_Some.
Qed.

Lemma onion_key_attested env from ann s k e :
  let s' := handle_onion_key_announce env from ann s in
  (peer_capabilities s', reputation s') = (peer_capabilities s, reputation s) ∧
  (remote_onion_keys s' !! k = Some e → remote_onion_keys s !! k = Some e ∨
   k = OnionKeyAnnounce.origin ann ∧
   e = (OnionKeyAnnounce.seq ann, OnionKeyAnnounce.onion_eph_pub ann, now env) ∧
   attested env s k (OnionKeyAnnounce.sign_bytes ann) (OnionKeyAnnounce.sig ann) ONION_KEY_VALIDITY_MS
     (OnionKeyAnnounce.valid_from_ms ann) ((λ x, x.1.1) <$> remote_onion_keys s !! k) (OnionKeyAnnounce.seq ann)).
Proof.
  cbv zeta. unfold handle_onion_key_announce.
  destruct (bool_decide_reflect (OnionKeyAnnounce.origin ann = pub_key s)); [by auto|].
  destruct (signed_by _ _ _) eqn:Hs; [|by auto]. destruct (in_window _ _ _) eqn:Hw; [|by auto]. cbn [negb].
  destruct (match remote_onion_keys s !! _ with Some _ => _ | None => _ end) eqn:Hq; [|by auto]. cbn [negb].
  pose proof (tables_flood env from (OnionKeyAnnounce.encode ann)
    (with_peer (OnionKeyAnnounce.origin ann)
      (λ p, p <| PeerData.onion_eph_pub := Some (OnionKeyAnnounce.onion_eph_pub ann) |>)
      (record_remote_onion_key env (OnionKeyAnnounce.origin ann) (OnionKeyAnnounce.seq ann)
        (OnionKeyAnnounce.onion_eph_pub ann) s))) as [= -> -> ->].
  cbn. unfold record_remote_onion_key.
  destruct (make_room _ _ _ _ _) as [m|] eqn:Hm; [|by auto]. cbn. split; [done|].
  intros [[<- <-]|[Hne Hl]]%lookup_insert_Some; [right|left; by eapply make_room_lookup].
  split_and!; [done..|]. split; [done..|]. intros q (x & Hx & ->)%fmap_Some. rewrite Hx in Hq.
  destruct x as [[? ?] ?]. cbn in *. lia.
Qed.

Lemma capability_attested env from ann s k e :
  let s' := handle_capabilities env from ann s in
  (remote_onion_keys s', reputation s') = (remote_onion_keys s, reputation s) ∧
  (peer_capabilities s' !! k = Some e → peer_capabilities s !! k = Some e ∨
   k = CapabilityAnnounce.origin ann ∧ e = (CapabilityAnnounce.caps ann, CapabilityAnnounce.seq ann, now env) ∧
   attested env s k (CapabilityAnnounce.sign_bytes ann) (CapabilityAnnounce.sig ann) CAPABILITY_VALIDITY_MS
     (CapabilityAnnounce.valid_from_ms ann) ((λ x, x.1.2) <$> peer_capabilities s !! k) (CapabilityAnnounce.seq ann)).
Proof.
  cbv zeta. unfold handle_capabilities.
  destruct (bool_decide_reflect (CapabilityAnnounce.origin ann = pub_key s)); [by auto|].
  destruct (signed_by _ _ _) eqn:Hs; [|by auto]. destruct (in_window _ _ _) eqn:Hw; [|by auto]. cbn [negb].
  destruct (match peer_capabilities s !! _ with Some _ => _ | None => _ end) eqn:Hq; [|by auto]. cbn [negb].
  pose proof (tables_flood env from (CapabilityAnnounce.encode ann)
    (record_capability env (CapabilityAnnounce.origin ann) (CapabilityAnnounce.caps ann)
      (CapabilityAnnounce.seq ann) s)) as [= -> -> ->].
  unfold record_capability.
  destruct (make_room _ _ _ _ _) as [m|] eqn:Hm; [|by auto]. cbn. split; [done|].
  intros [[<- <-]|[Hne Hl]]%lookup_insert_Some; [right|left; by eapply make_room_lookup].
  split_and!; [done..|]. split; [done..|]. intros q (x & Hx & ->)%fmap_Some. rewrite Hx in Hq.
  destruct x as [[? ?] ?]. cbn in *. lia.
Qed.

(** An observer's entry about a node. *)
Definition opinion (s : t) (observed observer : bytes) : option ReputationEntry :=
  m ← reputation s !! observed; m !! observer.

Lemma insert_opinion a b e s a' b' e' :
  opinion (insert_observation a b e s) a' b' = Some e' →
  opinion s a' b' = Some e' ∨ a' = a ∧ b' = b ∧ e' = e.
Proof.
  unfold opinion, insert_observation. cbn. destruct (decide (a' = a)) as [->|]; [|by rewrite lookup_insert_ne; auto].
  rewrite lookup_insert_eq. cbn. intros [[<- <-]|[_ Hl]]%lookup_insert_Some; [by auto|]. left.
  by destruct (reputation s !! a).
Qed.

Lemma record_reputation_opinion env b a q x s a' b' e' :
  opinion (record_reputation env b a q x s) a' b' = Some e' →
  opinion s a' b' = Some e' ∨ a' = a ∧ b' = b ∧ e' = (q, x, now env).
Proof.
  unfold record_reputation. destruct (_ && _); [|apply insert_opinion].
  destruct (stranger _ _ _) as [v|]; [|by auto]. intros [Ho|Ho]%insert_opinion; [left|by auto].
  revert Ho. unfold opinion. cbn. destruct (decide (a' = v)) as [->|]; [by rewrite lookup_delete_eq|].
  by rewrite lookup_delete_ne.
Qed.

Lemma reputation_attested env from r s a b e :
  let s' := handle_reputation_report env from r s in
  (remote_onion_keys s', peer_capabilities s') = (remote_onion_keys s, peer_capabilities s) ∧
  (opinion s' a b = Some e → opinion s a b = Some e ∨
   a = ReputationReport.observed r ∧ b = ReputationReport.observer r ∧ a ≠ b ∧
   e = (ReputationReport.seq r, report_score r, now env) ∧
   attested env s b (ReputationReport.sign_bytes r) (ReputationReport.sig r) REPUTATION_VALIDITY_MS
     (ReputationReport.valid_from_ms r) ((λ x, x.1.1) <$> opinion s a b) (ReputationReport.seq r)).
Proof.
  cbv zeta. unfold handle_reputation_report.
  destruct (bool_decide_reflect (ReputationReport.observer r = ReputationReport.observed r)); [by auto|].
  destruct (bool_decide_reflect (ReputationReport.observer r = pub_key s)); [by auto|].
  destruct (signed_by _ _ _) eqn:Hs; [|by auto]. destruct (in_window _ _ _) eqn:Hw; [|by auto]. cbn [negb].
  change (reputation s !! ReputationReport.observed r ≫= (λ m, m !! ReputationReport.observer r))
    with (opinion s (ReputationReport.observed r) (ReputationReport.observer r)).
  destruct (match opinion s _ _ with Some _ => _ | None => _ end) eqn:Hq; [|by auto]. cbn [negb].
  set (s1 := record_reputation _ _ _ _ _ s).
  pose proof (tables_flood env from (ReputationReport.encode r) s1) as [= -> -> Hr].
  assert (tables s1 = (remote_onion_keys s, peer_capabilities s, reputation s1)) as [= -> ->].
  { unfold s1, record_reputation. destruct (_ && _); [|done]. by destruct (stranger _ _ _). }
  split; [done|]. unfold opinion at 1. rewrite Hr. fold (opinion s1 a b).
  intros [?|(-> & -> & ->)]%record_reputation_opinion; [by auto|right].
  split_and!; [done..|]. split; [done..|]. intros q (x & Hx & ->)%fmap_Some. rewrite Hx in Hq.
  destruct x as [[? ?] ?]. cbn in *. lia.
Qed.
End Gossip.

(** C7: gossip is authentic: after any received frame, an entry of the onion-key, capability or
    reputation table is the one that was there, or it is what the frame itself announces, and then
    the node it is about (the observer, for a reputation) is not this router, signed it, dated it
    within the validity window, and numbered it above the entry it replaces. *)
Theorem gossip_authentic `{Channels} `{Libm} `{Blake2} `{Blake2Mac} `{ChaCha20} `{Sha512} `{X25519} `{Hkdf}
    `{Aead} `{Ed25519} `{MlDsa} `{MlKem} env from frame s s' :
  dispatch env from frame s = Ok s' →
  (∀ origin e, remote_onion_keys s' !! origin = Some e → remote_onion_keys s !! origin = Some e ∨
     ∃ ann, Frame.decode frame = Ok (Frame.AnOnionKey ann) ∧ origin = OnionKeyAnnounce.origin ann ∧
       e = (OnionKeyAnnounce.seq ann, OnionKeyAnnounce.onion_eph_pub ann, now env) ∧
       attested env s origin (OnionKeyAnnounce.sign_bytes ann) (OnionKeyAnnounce.sig ann) ONION_KEY_VALIDITY_MS
         (OnionKeyAnnounce.valid_from_ms ann) ((λ x, x.1.1) <$> remote_onion_keys s !! origin)
         (OnionKeyAnnounce.seq ann)) ∧
  (∀ origin e, peer_capabilities s' !! origin = Some e → peer_capabilities s !! origin = Some e ∨
     ∃ ann, Frame.decode frame = Ok (Frame.ACapability ann) ∧ origin = CapabilityAnnounce.origin ann ∧
       e = (CapabilityAnnounce.caps ann, CapabilityAnnounce.seq ann, now env) ∧
       attested env s origin (CapabilityAnnounce.sign_bytes ann) (CapabilityAnnounce.sig ann) CAPABILITY_VALIDITY_MS
         (CapabilityAnnounce.valid_from_ms ann) ((λ x, x.1.2) <$> peer_capabilities s !! origin)
         (CapabilityAnnounce.seq ann)) ∧
  (∀ observed observer e, opinion s' observed observer = Some e → opinion s observed observer = Some e ∨
     ∃ r, Frame.decode frame = Ok (Frame.AReputation r) ∧ observed = ReputationReport.observed r ∧
       observer = ReputationReport.observer r ∧ observed ≠ observer ∧
       e = (ReputationReport.seq r, report_score r, now env) ∧
       attested env s observer (ReputationReport.sign_bytes r) (ReputationReport.sig r) REPUTATION_VALIDITY_MS
         (ReputationReport.valid_from_ms r) ((λ x, x.1.1) <$> opinion s observed observer)
         (ReputationReport.seq r)).
Proof.
  intros Hd. destruct (Frame.decode frame) as [f| |] eqn:E;
    [|unfold dispatch in Hd; rewrite E in Hd; simplify_eq; by auto..].
  destruct (is_flood f) eqn:Ef.
  - unfold dispatch in Hd. rewrite E in Hd. destruct f; try done; injection Hd as <-.
    + split_and!; intros.
      * destruct (onion_key_attested env from m s origin e) as [_ Ho]. destruct (Ho ltac:(done)); eauto.
      * destruct (onion_key_attested env from m s origin (0, [], 0)) as [Ho _]. left. congruence.
      * destruct (onion_key_attested env from m s [] (0, [], 0)) as [Ho _]. left. unfold opinion in *. congruence.
    + split_and!; intros.
      * destruct (capability_attested env from m s [] (0, 0, 0)) as [Ho _]. left. congruence.
      * destruct (capability_attested env from m s origin e) as [_ Ho]. destruct (Ho ltac:(done)); eauto.
      * destruct (capability_attested env from m s [] (0, 0, 0)) as [Ho _]. left. unfold opinion in *. congruence.
    + split_and!; intros.
      * destruct (reputation_attested env from m s [] [] (0, S754_nan, 0)) as [Ho _]. left. congruence.
      * destruct (reputation_attested env from m s [] [] (0, S754_nan, 0)) as [Ho _]. left. congruence.
      * destruct (reputation_attested env from m s observed observer e) as [_ Ho].
        destruct (Ho ltac:(done)); [by left|right; naive_solver].
  - pose proof (dispatch_keeps env from frame f s E Ef s' Hd) as [= -> -> Hr].
    split_and!; [by auto..|]. unfold opinion. rewrite Hr. by auto.
Qed.

(** ** Floods stop *)

Section Floods.
Context `{Channels} `{Libm} `{Blake2} `{Blake2Mac} `{ChaCha20} `{Sha512} `{X25519} `{Hkdf}
  `{Aead} `{Ed25519} `{MlDsa} `{MlKem}.

(** The router holds this announcement, or a later one of the same origin. *)
Definition recorded (f : Frame.t) (s : t) : Prop :=
  match f with
  | Frame.AnOnionKey m =>
      ∃ e, remote_onion_keys s !! OnionKeyAnnounce.origin m = Some e ∧ OnionKeyAnnounce.seq m ≤ e.1.1
  | Frame.ACapability m =>
      ∃ e, peer_capabilities s !! CapabilityAnnounce.origin m = Some e ∧ CapabilityAnnounce.seq m ≤ e.1.2
  | Frame.AReputation m =>
      ∃ e, opinion s (ReputationReport.observed m) (ReputationReport.observer m) = Some e ∧
           ReputationReport.seq m ≤ e.1.1
  | _ => False
  end.

(** The table has room for the announcement without an eviction. *)
Definition room_for (f : Frame.t) (s : t) : Prop :=
  match f with
  | Frame.AnOnionKey _ => Z.of_nat (size (remote_onion_keys s)) < MAX_REMOTE_ONION_KEYS
  | Frame.ACapability _ => Z.of_nat (size (peer_capabilities s)) < MAX_CAPABILITY_ENTRIES
  | Frame.AReputation _ => observations s < MAX_REPUTATION_OBSERVATIONS
  | _ => False
  end.

Lemma recorded_idle env from frame f s :
  Frame.decode frame = Ok f → recorded f s → dispatch env from frame s = Ok s.
Proof.
  intros E Hr. unfold dispatch. rewrite E. destruct f; try done; destruct Hr as (((a & b) & c) & Hl & Hq); cbn in Hq.
  - unfold handle_onion_key_announce. rewrite Hl. destruct (Z.ltb_spec a (OnionKeyAnnounce.seq m)); [lia|].
    by repeat case_match.
  - unfold handle_capabilities. rewrite Hl. destruct (Z.ltb_spec b (CapabilityAnnounce.seq m)); [lia|].
    by repeat case_match.
  - unfold handle_reputation_report.
    change (reputation s !! ReputationReport.observed m ≫= (λ m', m' !! ReputationReport.observer m))
      with (opinion s (ReputationReport.observed m) (ReputationReport.observer m)).
    rewrite Hl. destruct (Z.ltb_spec a (ReputationReport.seq m)); [lia|]. by repeat case_match.
Qed.

Lemma make_room_free {A} (env : Env) (s : t) (cap : Z) (origin : bytes) (m : gmap bytes A) :
  Z.of_nat (size m) < cap → make_room env s cap origin m = Some m.
Proof. intros Hs. unfold make_room. destruct (Z.leb_spec cap (Z.of_nat (size m))); [lia|]. by rewrite andb_false_r. Qed.

Lemma accepted_recorded env from frame f s s' :
  Frame.decode frame = Ok f → room_for f s → dispatch env from frame s = Ok s' → s' = s ∨ recorded f s'.
Proof.
  intros E Hr. unfold dispatch. rewrite E. destruct f; try done; intros [= <-]; cbn in Hr |- *.
  - unfold handle_onion_key_announce. do 4 (case_match; [by auto|]). right.
    pose proof (tables_flood env from (OnionKeyAnnounce.encode m)
      (with_peer (OnionKeyAnnounce.origin m)
        (λ p, p <| PeerData.onion_eph_pub := Some (OnionKeyAnnounce.onion_eph_pub m) |>)
        (record_remote_onion_key env (OnionKeyAnnounce.origin m) (OnionKeyAnnounce.seq m)
          (OnionKeyAnnounce.onion_eph_pub m) s))) as [= -> _ _].
    cbn. unfold record_remote_onion_key. rewrite make_room_free by done. cbn.
    rewrite lookup_insert_eq. by eexists.
  - unfold handle_capabilities. do 4 (case_match; [by auto|]). right.
    pose proof (tables_flood env from (CapabilityAnnounce.encode m)
      (record_capability env (CapabilityAnnounce.origin m) (CapabilityAnnounce.caps m)
        (CapabilityAnnounce.seq m) s)) as [= _ -> _].
    unfold record_capability. rewrite make_room_free by done. cbn. rewrite lookup_insert_eq. by eexists.
  - unfold handle_reputation_report. do 5 (case_match; [by auto|]). right.
    pose proof (tables_flood env from (ReputationReport.encode m)
      (record_reputation env (ReputationReport.observer m) (ReputationReport.observed m)
        (ReputationReport.seq m) (report_score m) s)) as [= _ _ Hf].
    unfold opinion. rewrite Hf. unfold record_reputation.
    destruct (Z.leb_spec MAX_REPUTATION_OBSERVATIONS (observations s)); [lia|]. cbn.
    rewrite lookup_insert_eq. cbn. rewrite lookup_insert_eq. by eexists.
Qed.

(** The same frame received again and again, over any links and at any times. *)
Fixpoint redeliver (frame : bytes) (ds : list (Env * bytes)) (s : t) : res t :=
  match ds with
  | [] => Ok s
  | (env, from) :: ds => s ← dispatch env from frame s; redeliver frame ds s
  end.

Lemma redeliver_recorded frame f ds s : Frame.decode frame = Ok f → recorded f s → redeliver frame ds s = Ok s.
Proof.
  intros E Hr. induction ds as [|[env from] ds IH]; [done|]. cbn. by erewrite recorded_idle by done.
Qed.
End Floods.

(** C25: a flood stops: however often, from whichever neighbours and at whatever times one onion-key,
    capability or reputation announcement reaches a router, all the deliveries together do what one
    of them does, so the router forwards it at most once, as long as its table has room for it. *)
Theorem flood_once `{Channels} `{Libm} `{Blake2} `{Blake2Mac} `{ChaCha20} `{Sha512} `{X25519} `{Hkdf}
    `{Aead} `{Ed25519} `{MlDsa} `{MlKem} frame f ds s :
  Frame.decode frame = Ok f → room_for f s →
  redeliver frame ds s = Ok s ∨
  ∃ env from, (env, from) ∈ ds ∧ redeliver frame ds s = dispatch env from frame s.
Proof.
  intros E Hr. induction ds as [|[env from] ds IH]; [by left|]. cbn.
  assert (∃ s1, dispatch env from frame s = Ok s1) as [s1 Hd].
  { unfold dispatch. rewrite E. destruct f; try done; by eexists. }
  rewrite Hd, bind_Ok. destruct (accepted_recorded env from frame f s s1 E Hr Hd) as [->|Hrec].
  - destruct IH as [->|(env' & from' & Hin & ->)]; [by left|right].
    exists env', from'. split; [by right|done].
  - right. exists env, from. split; [by left|]. rewrite Hd. by eapply redeliver_recorded.
Qed.

Section DispatchWitness.
Import ToyRouter.

(** A layer for the router that declares [2^64 - 1] bytes. *)
Definition overflow_frame_of (d : bytes) : bytes :=
  OnionPacket.encode (OnionPacket.mk (routing_tag key_me) (x25519_base d)
    (default [] (aead_seal (x25519 d (x25519_base (OnionKeyChain.current_priv (onion_keys router))))
       (fill 12 (u8 0)) (x25519_base d) (u8 ONION_FORWARD :: encode_uvarint U64_MAX)))).

Lemma dispatch_total_witness :
  (∃ s, dispatch env key_a [u8 KEEP_ALIVE] router = Ok s) ∧
  dispatch env key_a (overflow_frame_of (fill 32 (u8 77))) router = Panic.
Proof.
  split.
  - destruct (dispatch_total env key_a [u8 KEEP_ALIVE] router) as [_ Hr]; [by vm_compute|].
    apply Hr. intros (? & ? & ? & ? & ? & _). discriminate.
  - destruct (dispatch_total env key_a (overflow_frame_of (fill 32 (u8 77))) router) as [Hp _]; [by vm_compute|].
    apply Hp.
    exists (drop 1 (overflow_frame_of (fill 32 (u8 77)))).
    eexists _, (u8 ONION_FORWARD), (encode_uvarint U64_MAX).
    split_and!; [by vm_compute|by vm_compute|by vm_compute|by vm_compute|by vm_compute|by left|].
    exists U64_MAX, 10. split; [by vm_compute|]. by vm_compute.
Defined.

(** The key announce of the first neighbour. *)
Definition key_announce (seq : Z) : OnionKeyAnnounce.t :=
  let ann sig := OnionKeyAnnounce.mk key_a seq wall0 (fill 32 (u8 5)) sig in
  ann (ed_sign sk_a (OnionKeyAnnounce.sign_bytes (ann (fill 64 (u8 0))))).
Definition key_frame : bytes := OnionKeyAnnounce.encode (key_announce 7).

Lemma gossip_authentic_witness :
  ∃ s', dispatch env key_b key_frame router = Ok s' ∧
    remote_onion_keys s' !! key_a = Some (7, fill 32 (u8 5), now env) ∧
    signed_by key_a (OnionKeyAnnounce.sign_bytes (key_announce 7)) (OnionKeyAnnounce.sig (key_announce 7)) = true.
Proof.
  destruct (dispatch env key_b key_frame router) as [s'| |] eqn:E;
    [|by apply (f_equal is_ok) in E; vm_compute in E..].
  exists s'. split; [done|].
  assert (remote_onion_keys s' !! key_a = Some (7, fill 32 (u8 5), now env)) as Hl.
  { apply (f_equal (λ r, match r with Ok s => remote_onion_keys s !! key_a | _ => None end)) in E.
    rewrite <- E. by vm_compute. }
  split; [done|].
  destruct (gossip_authentic env key_b key_frame router s' E) as (Hk & _ & _).
  destruct (Hk key_a _ Hl) as [Hn|(ann & Ha & _ & _ & Hatt)]; [by vm_compute in Hn|].
  assert (ann = key_announce 7) as ->.
  { assert (Frame.decode key_frame = Ok (Frame.AnOnionKey (key_announce 7))) as Hf by by vm_compute.
    rewrite Hf in Ha. by injection Ha. }
  apply Hatt.
Defined.

Lemma flood_once_witness :
  let ds := [(env, key_b); (env_at 6000000 wall0, key_a); (env, key_b)] in
  redeliver key_frame ds router = Ok router ∨
  ∃ env from, (env, from) ∈ ds ∧ redeliver key_frame ds router = dispatch env from key_frame router.
Proof. apply (flood_once key_frame (Frame.AnOnionKey (key_announce 7))); by vm_compute. Defined.
End DispatchWitness.
