(* ===== verification/Conn.v ===== *)
(** * The connection handle

    [src/router/conn.rs]: the operations of [PacketConn] on the router's state
    (writing plainly, in batches and through onions, relay selection, hole
    punching, lookups, link statistics and decoys), the life of a connection, and
    the crypto worker pool of [src/router/mod.rs].  Each operation runs on the
    router behind its mutex; [own] is the handle's copy of the public key. *)

From Stdlib Require Import Floats.SpecFloat.
From S2P Require Import Prelude Collections Floats Crypto Hyperbolic Varint Cuckoo Packet.
From S2P Require Import Header Address SessionWire Session SessionManager Onion Sphinx Obfs.
From S2P Require Import Router Routing Handlers.
Import RouterState.

(** Decoys come in the sizes of real frames, in blocks of [PAD_BLOCK]. *)
Definition cover_frame_blocks (roll : Z) : Z :=
  if roll <=? 79 then 2 else if roll <=? 94 then 3 else 4.

Definition cover_frame (roll : Z) : bytes :=
  u8 DUMMY :: fill (cover_frame_blocks roll * PAD_BLOCK - 1) (u8 0).

Record TreeStat := {
  ts_tree_id : Z; ts_root : bytes; ts_parent : option bytes; ts_depth : Z;
  ts_parent_cost : Z; ts_is_root : bool }.

Record PeerStats := {
  key : bytes; ps_lag : Z; ps_jitter : Z; ps_loss_rate : float; ps_priority : Z;
  ps_rx_bytes : Z; ps_tx_bytes : Z; uptime : Z; ps_trust : float }.

Section Conn.
Context `{Channels} `{Libm} `{Blake2} `{Blake2Mac} `{ChaCha20} `{Sha512} `{X25519} `{Hkdf}
  `{Aead} `{Ed25519} `{MlDsa} `{MlKem}.

(** ** Decoys *)

(** The delay before a cycle: [draw] is the number drawn for the light mode. *)
Definition cover_delay_ms (mode : CoverTraffic) (draw : Z) : Z :=
  match mode with Off => 5000 | Light => draw | Constant => 1000 end.

(** One cycle of the cover loop after its delay, in the [mode] read before it:
    [choice k] are the draws for peer [k], whether it gets a decoy in the light mode
    and the size roll. *)
Definition cover_cycle (env : Env) (mode : CoverTraffic) (choice : bytes → bool * Z) (s : t) : t :=
  match mode with
  | Off => s
  | _ =>
      foldl (λ s k, let '(pick, roll) := choice k in
               if (match mode with Constant => true | _ => pick end)
               then send_to_peer env k (cover_frame roll) s else s)
        s (peer_keys env s)
  end.

(** ** Writing *)

(** The session check that opens every write: without an established session, start
    the handshake if there is none yet, and fail. *)
Definition ensure_session (env : Env) (dst : bytes) : st t unit :=
  s ← get;
  if SessionManager.is_established dst (sessions s) then mret tt else
  let '(init, sm) :=
    SessionManager.get_or_initiate_bytes (now_ms env) (wall env) (session_priv env dst) dst (sessions s) in
  put (s <| sessions := sm |>);;
  let init_data := default [] init in
  (if len init_data =? 0 then mret tt
   else s ← get; s ← lift (send_traffic_to env dst init_data s); put s);;
  fail "session not established".

(** The loop of [PacketConn.write_to_batch] under the lock of one session. *)
Fixpoint encrypt_frames (env : Env) (frame : bytes → bytes) (payloads : list bytes)
    : st SessionInfo (list bytes) :=
  match payloads with
  | [] => mret []
  | p :: payloads =>
      padded ← lift (pad_payload false p);
      ciphertext ← Session.encrypt false (now_ms env) padded;
      out ← encrypt_frames env frame payloads;
      mret (frame ciphertext :: out)
  end.

Definition data_frame (own enc_header tag : bytes) (dest_coord : option bytes) (ciphertext : bytes)
    : bytes :=
  Traffic.encode (Traffic.mk [] own enc_header tag (u8 PKT_DATA) dest_coord 0 ciphertext).

Definition batch_dispatch (env : Env) (own : bytes) (payloads : list bytes) (dst : bytes) : st t Z :=
  match payloads with
  | [] => mret 0
  | _ =>
      ensure_session env dst;;
      '(enc_header, tag) ← lift (encrypt_header (header_priv env dst) own dst);
      s ← get;
      let dest_coord := HypCoord.encode <$> coord_table s !! dst in
      info ← lift (ok_or (SessionManager.get_session dst (sessions s)) "session not established");
      let '(r, info) := encrypt_frames env (data_frame own enc_header tag dest_coord) payloads info in
      let sm := sessions s in
      put (s <| sessions := sm <| SessionManager.sessions := <[dst := info]> (SessionManager.sessions sm) |> |>);;
      frames ← lift r;
      s ← get;
      match lookup env s dst with
      | Some next_hop =>
          put (foldl (λ s f, send_to_peer env next_hop f s) s frames);;
          mret (len frames)
      | None => fail "no route"
      end
  end.

(** ** Onions *)

(** [shuffle] is the draw: a permutation of any list. *)
Definition select_relays (env : Env) (shuffle : list OnionHop → list OnionHop) (n : nat) (s : t)
    : list OnionHop :=
  let hops := omap (λ e, (λ eph, {| identity_ed_pub := PeerData.pub_key e.2; ephemeral_x_pub := eph |})
                           <$> PeerData.onion_eph_pub e.2) (map_iter (ord env) (peers s)) in
  take n (shuffle hops).

Definition onion_hop_for (s : t) (identity : bytes) : option OnionHop :=
  let hop eph := Some {| identity_ed_pub := identity; ephemeral_x_pub := eph |} in
  if bool_decide (identity = pub_key s) then hop (OnionKeyChain.pub_key (onion_keys s)) else
  match peers s !! identity ≫= PeerData.onion_eph_pub with
  | Some eph => hop eph
  | None =>
      match remote_onion_keys s !! identity with
      | Some (_, eph, _) => hop eph
      | None => match ed25519_pub_to_x25519 identity with
                | Ok x => hop x
                | _ => None
                end
      end
  end.

(** The encrypted traffic packet that an onion carries. *)
Definition onion_traffic (env : Env) (own payload dst : bytes) : st t bytes :=
  ensure_session env dst;;
  padded ← lift (pad_payload false payload);
  s ← get;
  let dest_coord := HypCoord.encode <$> coord_table s !! dst in
  let '(r, sm) := SessionManager.encrypt false (now_ms env) dst padded (sessions s) in
  put (s <| sessions := sm |>);;
  ciphertext ← lift r;
  '(enc_header, tag) ← lift (encrypt_header (header_priv env dst) own dst);
  mret (data_frame own enc_header tag dest_coord ciphertext).

(** Towards the first relay. *)
Definition send_first (env : Env) (first_relay frame : bytes) : st t unit :=
  s ← get;
  match lookup env s first_relay with
  | Some next => put (send_to_peer env next frame s)
  | None => fail "no route to first relay"
  end.

(** The bodies of [PacketConn.write_to_onion_sphinx] and [PacketConn.write_to_onion]
    for a list of relays that starts with [first].  [draws] are the ephemeral keys of
    a Sphinx cell, respectively of the layers of an onion. *)
Definition sphinx_dispatch (env : Env) (draws : Draws) (own payload dst : bytes)
    (first : OnionHop) (relays : list OnionHop) : st t unit :=
  fail_if MAX_HOPS <? len relays + 1 with "sphinx onion: relays + dst exceeds MAX_HOPS";
  s ← get;
  dest_hop ← lift (ok_or (onion_hop_for s dst) "no onion ephemeral pub known for dst");
  traffic_bytes ← onion_traffic env own payload dst;
  fail_if MAX_TRAFFIC_LEN <? len traffic_bytes with "sphinx onion: Traffic exceeds payload budget";
  let hops := map (λ h, {| hop_tag := routing_tag (identity_ed_pub h); onion_pub := ephemeral_x_pub h |})
                (relays ++ [dest_hop]) in
  cell ← lift (build_sphinx false draws hops traffic_bytes);
  send_first env (identity_ed_pub first) cell.

Definition onion_dispatch (env : Env) (draws : nat → bytes) (own payload dst : bytes)
    (first : OnionHop) (relays : list OnionHop) : st t unit :=
  s ← get;
  dest_hop ← lift (ok_or (onion_hop_for s dst) "no onion ephemeral pub known for dst");
  traffic_bytes ← onion_traffic env own payload dst;
  onion_pkt ← lift (build_onion draws relays dest_hop traffic_bytes);
  send_first env (identity_ed_pub first) (OnionPacket.encode onion_pkt).

(** ** Control *)

Definition close (s : t) : t := s <| peers := ∅ |>.

Definition record_kernel_link_stats (peer : bytes) (rtt : Z) (loss_rate : float) (s : t) : t :=
  with_peer peer
    (λ p, let clamped := fclamp loss_rate (f32_of_Z 0) (f32_of_Z 1) in
          p <| PeerData.lag := rtt |>
            <| PeerData.loss_rate :=
                 f32_add (f32_mul (PeerData.loss_rate p) (f32_lit 75 100))
                         (f32_mul clamped (f32_lit 25 100)) |>) s.

Definition get_tree_state (s : t) : list TreeStat :=
  imap (λ tree_id tree,
          {| ts_tree_id := Z.of_nat tree_id mod 2 ^ 8; ts_root := TreeState.root tree;
             ts_parent := TreeState.parent tree;
             ts_depth := if bool_decide (tree_id = 0%nat) then own_depth s else 0;
             ts_parent_cost := TreeState.parent_cost tree;
             ts_is_root := bool_decide (TreeState.parent tree = None) |}) (trees s).

Definition get_peer_stats (env : Env) (s : t) : list PeerStats :=
  map (λ e, let p := e.2 in
        {| key := PeerData.pub_key p; ps_lag := PeerData.lag p; ps_jitter := PeerData.jitter p;
           ps_loss_rate := PeerData.loss_rate p; ps_priority := PeerData.priority p;
           ps_rx_bytes := PeerData.rx_bytes p; ps_tx_bytes := PeerData.tx_bytes p;
           uptime := duration_since (now env) (PeerData.connected_at p);
           ps_trust := PeerData.trust p |}) (map_iter (ord env) (peers s)).

Definition send_hole_punch (env : Env) (own rendezvous target endpoint : bytes) (s : t) : t :=
  if 255 <? len endpoint then s else
  let hp sig := HolePunch.mk own target (wall env) endpoint sig in
  let sig := ed_sign (signing_key s) (HolePunch.sign_bytes (hp (fill 64 (u8 0)))) in
  send_to_peer env rendezvous (HolePunch.encode (hp sig)) s.

Definition mtu : Z := 65000.

(** The target is the partial key, padded with zeros. *)
Definition send_lookup (env : Env) (id : Z) (own partial : bytes) (s : t) : t :=
  let n := Z.min (len partial) 32 in
  let target := take (Z.to_nat n) partial ++ fill (32 - n) (u8 0) in
  send_each env (peer_keys env s) (PathLookup.encode (PathLookup.mk target own id [])) s.

(** ** A connection *)

(** [handle_conn] up to its read loop: register the link and start a session. *)
Definition open_conn (env : Env) (remote_pub_key : bytes) (tx : LinkId) (priority : Z) (s : t) : res t :=
  let s := add_peer env remote_pub_key tx priority s in
  let '(init, sm) :=
    SessionManager.get_or_initiate_bytes (now_ms env) (wall env) (session_priv env remote_pub_key)
      remote_pub_key (sessions s) in
  let s := s <| sessions := sm |> in
  match init with
  | Some init_data => send_traffic_to env remote_pub_key init_data s
  | None => Ok s
  end.

(** The read loop on the bytes that arrive before the stream ends or fails: each
    frame is dispatched (in an environment of its own), and the first error removes
    the peer.  The reader consumes at least a byte per frame, so the length of the
    input bounds the loop. *)
Fixpoint read_loop (fuel : nat) (envs : nat → Env) (remote_pub_key reader : bytes) (s : t) : res t :=
  match fuel with
  | O => Ok (remove_peer remote_pub_key s)
  | S fuel =>
      match read_frame reader with
      | Ok (frame, reader) =>
          s ← dispatch (envs 0%nat) remote_pub_key frame s;
          read_loop fuel (λ i, envs (S i)) remote_pub_key reader s
      | Err _ => Ok (remove_peer remote_pub_key s)
      | Panic => Panic
      end
  end.

(** The writer task: the frames queued on a link, and the bytes written so far.  A
    turn takes the first frame and those queued behind it, at most
    [MAX_WRITE_BATCH], and writes them at once. *)
Definition MAX_WRITE_BATCH : nat := 32.

Inductive link_event := Enqueue (frame : bytes) | WriterTurn.

Definition writer_task (c : list bytes * bytes) (e : link_event) : list bytes * bytes :=
  let '(rx, writer) := c in
  match e with
  | Enqueue frame => (rx ++ [frame], writer)
  | WriterTurn =>
      match rx with
      | [] => (rx, writer)
      | _ => (drop MAX_WRITE_BATCH rx, write_frames_batched writer (take MAX_WRITE_BATCH rx))
      end
  end.

Definition handle_conn (env : Env) (envs : nat → Env) (remote_pub_key : bytes) (tx : LinkId) (priority : Z)
    (reader : bytes) (s : t) : res t :=
  s ← open_conn env remote_pub_key tx priority s;
  read_loop (S (length reader)) envs remote_pub_key reader s.
End Conn.

(** ** The crypto pool *)

Record CryptoJob := { job_payload : bytes; job_dst : bytes }.

Module CryptoPool.
Definition QUEUE_DEPTH : Z := 8192.

(** The queue of each worker. *)
Record t := mk { queues : list (list CryptoJob) }.

Definition worker_of (workers : Z) (dst : bytes) : Z := from_le_bytes (take 8 dst) mod workers.

Definition try_submit (payload dst : bytes) (p : t) : bool * t :=
  if len (queues p) =? 0 then (false, p) else
  let idx := Z.to_nat (worker_of (len (queues p)) dst) in
  match queues p !! idx with
  | Some q => if QUEUE_DEPTH <=? len q then (false, p)
              else (true, mk (<[idx := q ++ [{| job_payload := payload; job_dst := dst |}]]> (queues p)))
  | None => (false, p)
  end.

(** A worker takes its next job. *)
Definition recv (worker : nat) (p : t) : option (CryptoJob * t) :=
  match queues p !! worker with
  | Some (job :: q) => Some (job, mk (<[worker := q]> (queues p)))
  | _ => None
  end.
End CryptoPool.

(** ** The handle *)

Module PacketConn.
Record t := mk {
  inner : RouterState.t;
  pub_key : bytes;
  signing_key : bytes;
  min_peer_difficulty_bits : Z;
  crypto_pool : option CryptoPool.t;
  obfs_key : option bytes }.

#[global] Instance set_inner : SetField inner := λ v r,
  mk v (pub_key r) (signing_key r) (min_peer_difficulty_bits r) (crypto_pool r)
    (obfs_key r).
#[global] Instance set_difficulty_bits : SetField min_peer_difficulty_bits := λ v r,
  mk (inner r) (pub_key r) (signing_key r) v (crypto_pool r) (obfs_key r).
#[global] Instance set_crypto_pool : SetField crypto_pool := λ v r,
  mk (inner r) (pub_key r) (signing_key r) (min_peer_difficulty_bits r) v (obfs_key r).
#[global] Instance set_obfs_key : SetField obfs_key := λ v r,
  mk (inner r) (pub_key r) (signing_key r) (min_peer_difficulty_bits r) (crypto_pool r)
    v.

(** An operation on the router behind the handle's mutex. *)
Definition on_inner {A} (op : st RouterState.t A) : st t A := λ c,
  let '(r, s) := op (inner c) in (r, c <| inner := s |>).
Definition with_inner (f : RouterState.t → RouterState.t) (c : t) : t := c <| inner := f (inner c) |>.

Section PacketConn.
Context `{Channels} `{Libm} `{Blake2} `{Blake2Mac} `{ChaCha20} `{Sha512} `{X25519} `{Hkdf}
  `{Aead} `{Ed25519} `{MlDsa} `{MlKem}.

Definition new (env : Env) (signing_key dk signer_seed : bytes) : t :=
  mk (Router.new env signing_key dk signer_seed) (ed_public signing_key) signing_key 0 None None.

(** *** Settings *)

Definition set_min_peer_difficulty_bits (bits : Z) (c : t) : t := c <| min_peer_difficulty_bits := bits |>.

Definition set_obfuscation_psk (psk : bytes) (c : t) : t :=
  match derive_psk_key psk with
  | Some key => match obfs_key c with
                | None => c <| obfs_key := Some key |>
                | Some _ => c
                end
  | None => c
  end.

Definition set_onion_format (fmt : OnionFormat) : t → t := with_inner (λ s, s <| onion_format := fmt |>).
Definition set_cover_traffic (mode : CoverTraffic) : t → t := with_inner (λ s, s <| cover_mode := mode |>).
Definition set_pq_signer (seed : bytes) : t → t :=
  with_inner (λ s, s <| sessions := SessionManager.set_pq_signer seed (sessions s) |>).
Definition set_path_notify : t → t := with_inner (λ s, s <| path_notify := true |>).
Definition set_on_hole_punch : t → t := with_inner (λ s, s <| hole_punch_cb := true |>).

Definition enable_crypto_pool (workers : Z) (c : t) : t :=
  match crypto_pool c with
  | Some _ => c
  | None => if workers =? 0 then c
            else c <| crypto_pool := Some (CryptoPool.mk (fill workers [])) |>
  end.

(** *** Writing *)

(** With a pool the packet goes to a worker, unless the worker's queue is full. *)
Definition write_to (env : Env) (payload dst : bytes) : st t unit :=
  on_inner (ensure_session env dst);;
  c ← get;
  let '(submitted, pool) :=
    match crypto_pool c with
    | Some pool => let '(b, pool) := CryptoPool.try_submit payload dst pool in (b, Some pool)
    | None => (false, None)
    end in
  put (c <| crypto_pool := pool |>);;
  if submitted then mret tt else on_inner (encrypt_and_dispatch env (pub_key c) payload dst).

(** One turn of worker [worker]; an error drops the packet. *)
Definition crypto_worker (env : Env) (worker : nat) (c : t) : t :=
  match crypto_pool c ≫= CryptoPool.recv worker with
  | Some (job, pool) =>
      (on_inner (encrypt_and_dispatch env (pub_key c) (job_payload job) (job_dst job))
         (c <| crypto_pool := Some pool |>)).2
  | None => c
  end.

Definition write_to_batch (env : Env) (payloads : list bytes) (dst : bytes) : st t Z :=
  c ← get; on_inner (batch_dispatch env (pub_key c) payloads dst).

Definition write_to_onion_sphinx (env : Env) (draws : Draws) (payload dst : bytes)
    (relays : list OnionHop) : st t unit :=
  match relays with
  | [] => write_to env payload dst
  | first :: _ => c ← get; on_inner (sphinx_dispatch env draws (pub_key c) payload dst first relays)
  end.

Definition write_to_onion (env : Env) (draws : nat → bytes) (sphinx_draws : Draws)
    (payload dst : bytes) (relays : list OnionHop) : st t unit :=
  match relays with
  | [] => write_to env payload dst
  | first :: _ =>
      c ← get;
      let use_sphinx := match onion_format (inner c) with
                        | Legacy => false
                        | SphinxFormat => true
                        | Auto => path_supports_sphinx env (inner c) relays dst
                        end in
      if use_sphinx then write_to_onion_sphinx env sphinx_draws payload dst relays
      else on_inner (onion_dispatch env draws (pub_key c) payload dst first relays)
  end.
End PacketConn.
End PacketConn.

(** ** Lemmas *)

Lemma ensure_established `{Channels} `{Libm} `{Blake2} `{Sha512} `{X25519} `{Hkdf} `{Aead} `{Ed25519}
    `{MlDsa} `{MlKem} env dst c info :
  SessionManager.sessions (sessions (PacketConn.inner c)) !! dst = Some info → established info = true →
  ensure_session env dst (PacketConn.inner c) = (Ok tt, PacketConn.inner c) ∧
  PacketConn.on_inner (ensure_session env dst) c = (Ok tt, c).
Proof.
  intros Hs He.
  assert (ensure_session env dst (PacketConn.inner c) = (Ok tt, PacketConn.inner c)) as E.
  { unfold ensure_session, SessionManager.is_established, get, mbind, st_bind. rewrite Hs. cbn. by rewrite He. }
  split; [done|]. unfold PacketConn.on_inner. rewrite E. by destruct c.
Qed.
