(* ===== verification/Config.v ===== *)
(** * Configuration

    [src/config.rs]: the settings of a node, their defaults, the permission check of
    the file that holds the private key, the keys and the port that are read from
    them, and the file that [nornd genconfig] writes.  TOML and [hex] are parameters;
    what the operating system and the random generator give are arguments. *)

From S2P Require Import Prelude Crypto Address Text Toml Router.

Module NodeConfig.
Record t := mk {
  private_key : option bytes;
  ml_dsa_seed : option bytes;
  listen : list bytes;
  peers : list bytes;
  tun_name : option bytes;
  admin_socket : bytes;
  multicast_enabled : bool;
  multicast_port : Z;
  log_level : bytes;
  peer_cache_path : bytes;
  metrics_addr : bytes;
  min_peer_difficulty_bits : Z;
  mdns_enabled : bool;
  crypto_workers : Z;
  obfuscation_psk : bytes;
  cover_traffic : CoverTraffic;
  onion_format : OnionFormat }.

Definition default : t :=
  mk None None [bstr "tcp://0.0.0.0:9001"] [] (Some (bstr "norn0")) (bstr "/var/run/norn.sock")
    true 9001 (bstr "info") (bstr "/var/lib/norn/peers.json") [] 0 true 0 [] Light Auto.
End NodeConfig.

(** ** Reading *)

(** A field with a default: it may be missing, but not of another type. *)
Definition field {A} (read : TomlValue → option A) (default : A) (key : bytes) (t : TomlTable) : option A :=
  match toml_get key t with None => Some default | Some v => read v end.

Definition read_str (v : TomlValue) : option bytes := if v is TStr s then Some s else None.
Definition read_some (v : TomlValue) : option (option bytes) := Some <$> read_str v.
Definition read_strs (v : TomlValue) : option (list bytes) := if v is TArr l then mapM read_str l else None.
Definition read_bool (v : TomlValue) : option bool := if v is TBool b then Some b else None.
Definition read_uint (max : Z) (v : TomlValue) : option Z :=
  if v is TInt n then if (0 <=? n) && (n <=? max) then Some n else None else None.
(** A variant without fields: its name, or a table from its name to nothing. *)
Definition read_variant {A} (variants : list (bytes * A)) (v : TomlValue) : option A :=
  let named (name : bytes) := snd <$> head (filter (λ x, x.1 = name) variants) in
  match v with
  | TStr name | TTable [(name, TArr [])] | TTable [(name, TTable [])] => named name
  | _ => None
  end.
Definition cover_variants : list (bytes * CoverTraffic) :=
  [(bstr "off", Off); (bstr "light", Light); (bstr "constant", Constant)].
Definition format_variants : list (bytes * OnionFormat) :=
  [(bstr "auto", Auto); (bstr "sphinx", SphinxFormat); (bstr "legacy", Legacy)].

(** The visitor that [serde] derives; keys it does not know are ignored. *)
Definition config_of_table (t : TomlTable) : option NodeConfig.t :=
  private_key ← field read_some None (bstr "private_key") t;
  ml_dsa_seed ← field read_some None (bstr "ml_dsa_seed") t;
  listen ← field read_strs [bstr "tcp://0.0.0.0:9001"] (bstr "listen") t;
  peers ← field read_strs [] (bstr "peers") t;
  tun_name ← field read_some (Some (bstr "norn0")) (bstr "tun_name") t;
  admin_socket ← field read_str (bstr "/var/run/norn.sock") (bstr "admin_socket") t;
  multicast_enabled ← field read_bool true (bstr "multicast_enabled") t;
  multicast_port ← field (read_uint 65535) 9001 (bstr "multicast_port") t;
  log_level ← field read_str (bstr "info") (bstr "log_level") t;
  peer_cache_path ← field read_str (bstr "/var/lib/norn/peers.json") (bstr "peer_cache_path") t;
  metrics_addr ← field read_str [] (bstr "metrics_addr") t;
  min_bits ← field (read_uint (2 ^ 32 - 1)) 0 (bstr "min_peer_difficulty_bits") t;
  mdns_enabled ← field read_bool true (bstr "mdns_enabled") t;
  crypto_workers ← field (read_uint 255) 0 (bstr "crypto_workers") t;
  obfuscation_psk ← field read_str [] (bstr "obfuscation_psk") t;
  cover_traffic ← field (read_variant cover_variants) Light (bstr "cover_traffic") t;
  onion_format ← field (read_variant format_variants) Auto (bstr "onion_format") t;
  Some (NodeConfig.mk private_key ml_dsa_seed listen peers tun_name admin_socket multicast_enabled multicast_port
          log_level peer_cache_path metrics_addr min_bits mdns_enabled crypto_workers obfuscation_psk
          cover_traffic onion_format).

Definition toml_from_str `{Toml} (text : bytes) : option NodeConfig.t := toml_parse text ≫= config_of_table.

Section Config.
Context `{Hex}.

(** [mode] is that of the file, [None] when it cannot be inspected, and [text] its
    contents, [None] when they cannot be read. *)
Definition load_config `{Toml} (mode : option Z) (text : option bytes) : res NodeConfig.t :=
  meta ← ok_or mode "stat'ing config";
  let mode := Z.land meta 0x1ff in
  bail_if negb (Z.land mode 0x3f =? 0) with "refusing to load config: it contains the private key";
  text ← ok_or text "reading config";
  ok_or (toml_from_str text) "parsing TOML config".

(** [allow_ephemeral] says whether [NORN_ALLOW_EPHEMERAL_KEY] is set; [draw] is a
    fresh random key. *)
Definition config_signing_key (allow_ephemeral : bool) (draw : bytes) (c : NodeConfig.t) : res bytes :=
  match NodeConfig.private_key c with
  | Some hex_key =>
      key ← ok_or (hex_decode hex_key) "decoding private_key hex";
      bail_if negb (len key =? 32) with "private_key must be 32 bytes";
      Ok key
  | None =>
      bail_if negb allow_ephemeral with "no private_key in config and NORN_ALLOW_EPHEMERAL_KEY is not set";
      Ok draw
  end.

Definition config_pq_signer (draw : bytes) (c : NodeConfig.t) : res bytes :=
  match NodeConfig.ml_dsa_seed c with
  | Some hex_seed =>
      seed ← ok_or (hex_decode hex_seed) "decoding ml_dsa_seed hex";
      bail_if negb (len seed =? 32) with "ml_dsa_seed must be 32 bytes";
      Ok seed
  | None => Ok draw
  end.

(** ** Writing *)

Definition config_doc (key_hex ml_dsa_seed_hex : bytes) : list TomlLine :=
  [Comment (bstr " norn-rs configuration"); Blank;
   Comment (bstr " Your node's private key (ed25519, 32 bytes hex).");
   Comment (bstr " KEEP THIS SECRET. Regenerate to get a new identity and address.");
   Entry (bstr "private_key") (TStr key_hex); Blank;
   Comment (bstr " Seed (32 bytes hex) for the node's long-term ML-DSA-65 signing key — the");
   Comment (bstr " post-quantum half of session authentication (independent of private_key).");
   Comment (bstr " KEEP THIS SECRET. Stable across restarts so peers' PQ TOFU pins hold.");
   Entry (bstr "ml_dsa_seed") (TStr ml_dsa_seed_hex); Blank;
   Comment (bstr " TCP addresses to listen on for incoming peer connections.");
   Entry (bstr "listen") (TArr [TStr (bstr "tcp://0.0.0.0:9001")]); Blank;
   Comment (bstr " Static peers to dial on startup.");
   Comment (bstr " peers = [" ++ quoted (bstr "tcp://peer.example.com:9001") ++ bstr "]");
   Entry (bstr "peers") (TArr []); Blank;
   Comment (bstr " TUN interface name. Comment out or set to null to disable.");
   Entry (bstr "tun_name") (TStr (bstr "norn0")); Blank;
   Comment (bstr " Admin socket (UNIX). Use with nornctl.");
   Entry (bstr "admin_socket") (TStr (bstr "/var/run/norn.sock")); Blank;
   Comment (bstr " Enable multicast peer discovery on the local network.");
   Entry (bstr "multicast_enabled") (TBool true);
   Entry (bstr "multicast_port") (TInt 9001); Blank;
   Comment (bstr " Logging verbosity: error | warn | info | debug | trace");
   Entry (bstr "log_level") (TStr (bstr "info")); Blank;
   Comment (bstr " Decoy (" ++ quoted (bstr "cover") ++ bstr ") traffic policy: off | light | constant");
   Comment (bstr "   off      — no decoys (lowest bandwidth; real send pattern is fully visible)");
   Comment (bstr "   light    — sparse randomised decoys, size-matched to real frames (default)");
   Comment (bstr "   constant — a continuous decoy floor to every peer (higher bandwidth; opt in)");
   Comment (bstr " None of these is full traffic-analysis resistance against a global passive");
   Comment (bstr " observer — they raise the noise floor only.");
   Entry (bstr "cover_traffic") (TStr (bstr "light"))].

(** [sk] and [seed] are drawn. *)
Definition generate_toml (sk seed : bytes) : bytes := doc_text (config_doc (hex_encode sk) (hex_encode seed)).

(** [nornd genconfig --output]: the mode and the contents of the file, which must not
    exist yet. *)
Definition genconfig (umask : Z) (exists_file : bool) (toml : bytes) : res (Z * bytes) :=
  bail_if exists_file with "creating config (refusing to overwrite)";
  Ok (Z.ldiff 0x180 umask, toml).
End Config.

Definition tcp_listen_port (c : NodeConfig.t) : option Z :=
  uri ← head (NodeConfig.listen c);
  addr ← strip_prefix (bstr "tcp://") uri;
  parse_number 10 65535 (List.last (split_on colon addr) []).

(** ** Properties *)

(** The port that is announced is the one of the first listen address, whatever the
    host. *)
Lemma listen_port host port c :
  0 ≤ port ≤ 65535 →
  head (NodeConfig.listen c) = Some (bstr "tcp://" ++ host ++ colon :: decimal port) →
  tcp_listen_port c = Some port.
Proof.
  intros Hp Hl. unfold tcp_listen_port. rewrite Hl. cbn [mbind option_bind].
  rewrite strip_prefix_app. cbn [mbind option_bind]. rewrite split_on_last by (apply decimal_no_colon; lia).
  by apply (number_digits 10 65535 port).
Qed.

(** A node only starts with an identity of its own and a private file: loading
    succeeds exactly when the file can be read, gives nothing to group and others,
    and parses; the signing key is exactly the 32 bytes whose hexadecimal text is
    configured, every other text is refused, and without one only an explicit
    permission gives a random key; the post-quantum seed likewise, but for the
    permission. *)
Theorem config_identity `{HexLaws} `{Toml} mode text allow draw c sk :
  (∀ c', load_config mode text = Ok c' ↔
     ∃ m bytes, mode = Some m ∧ text = Some bytes ∧ Z.land m 0x3f = 0 ∧ toml_from_str bytes = Some c') ∧
  (config_signing_key allow draw c = Ok sk ↔
     match NodeConfig.private_key c with
     | Some hex => hex_decode hex = Some sk ∧ len sk = 32
     | None => allow = true ∧ sk = draw
     end) ∧
  (config_pq_signer draw c = Ok sk ↔
     match NodeConfig.ml_dsa_seed c with
     | Some hex => hex_decode hex = Some sk ∧ len sk = 32
     | None => sk = draw
     end) ∧
  (NodeConfig.private_key c = Some (hex_encode sk) → len sk = 32 → config_signing_key allow draw c = Ok sk).
Proof.
  assert (∀ m, Z.land (Z.land m 0x1ff) 0x3f = Z.land m 0x3f) as Hm by (intros m; by rewrite <- Z.land_assoc).
  split_and!.
  - intros c'. unfold load_config. destruct mode as [m|]; cbn; [|naive_solver]. rewrite Hm.
    destruct (Z.eqb_spec (Z.land m 0x3f) 0); cbn; [|naive_solver].
    destruct text as [bytes|]; cbn; [|naive_solver]. destruct (toml_from_str bytes) eqn:E; naive_solver.
  - unfold config_signing_key. destruct (NodeConfig.private_key c) as [hex|].
    + destruct (hex_decode hex) as [k|]; cbn; [|naive_solver]. destruct (Z.eqb_spec (len k) 32); naive_solver.
    + destruct allow; naive_solver.
  - unfold config_pq_signer. destruct (NodeConfig.ml_dsa_seed c) as [hex|]; [|naive_solver].
    destruct (hex_decode hex) as [k|]; cbn; [|naive_solver]. destruct (Z.eqb_spec (len k) 32); naive_solver.
  - intros E Hl. unfold config_signing_key. rewrite E, hex_decode_encode. cbn. by rewrite Hl.
Qed.

(** A file cannot switch the TUN device off: what the file says or leaves out, the
    name is set. *)
Lemma tun_always_named `{Toml} text c : toml_from_str text = Some c → is_Some (NodeConfig.tun_name c).
Proof.
  unfold toml_from_str. destruct (toml_parse text) as [t|]; [|done]. cbn [mbind option_bind]. intros E.
  unfold config_of_table in E.
  repeat match type of E with
  | (?m ≫= _) = Some _ => let x := fresh "x" in let Ex := fresh "Ex" in destruct m as [x|] eqn:Ex; [cbn [mbind option_bind] in E|done]
  end.
  injection E as <-. cbn [NodeConfig.tun_name]. revert Ex3. unfold field, read_some, read_str.
  destruct (toml_get _ t) as [[]|]; cbn; naive_solver.
Qed.

Lemma hex_plain `{HexLaws} b : plain_string (hex_encode b) = true.
Proof.
  apply forallb_forall. intros x Hx%list_elem_of_In. pose proof (hex_encode_digits b) as Hd.
  rewrite Forall_forall in Hd. specialize (Hd x Hx). unfold hex_digit in Hd. unfold string_char. lia.
Qed.

Lemma config_doc_ok `{HexLaws} sk seed : doc_ok (config_doc (hex_encode sk) (hex_encode seed)) = true.
Proof.
  unfold doc_ok. apply andb_true_iff. split.
  - assert (∀ d, line_ok (Entry (bstr "private_key") (TStr (hex_encode d))) = true ∧
                 line_ok (Entry (bstr "ml_dsa_seed") (TStr (hex_encode d))) = true) as Hd.
    { intros d. cbn [line_ok value_ok]. by rewrite hex_plain. }
    apply forallb_forall. intros l Hl. repeat (destruct Hl as [<-|Hl]; [first [by vm_compute|apply Hd]|]). done.
  - apply bool_decide_eq_true.
    change ((entries (config_doc (hex_encode sk) (hex_encode seed))).*1) with (entries (config_doc [] [])).*1.
    apply (bool_decide_unpack _). by vm_compute.
Qed.

(** The defaults, with keys. *)
Definition with_keys (key_hex seed_hex : bytes) (c : NodeConfig.t) : NodeConfig.t :=
  let '(NodeConfig.mk _ _ ls ps tun sock mc port lvl cache metrics bits mdns workers psk cover format) := c in
  NodeConfig.mk (Some key_hex) (Some seed_hex) ls ps tun sock mc port lvl cache metrics bits mdns workers psk cover
    format.

(** A generated configuration works as it is: whatever the umask, the file that
    [genconfig] creates is one that the daemon loads, with exactly the generated
    identity and post-quantum seed and every other setting at its default; and an
    existing file is not overwritten. *)
Lemma genconfig_loads `{HexLaws} `{TomlLaws} umask sk seed allow draw :
  len sk = 32 → len seed = 32 →
  ∃ mode, genconfig umask false (generate_toml sk seed) = Ok (mode, generate_toml sk seed) ∧
  let c := with_keys (hex_encode sk) (hex_encode seed) NodeConfig.default in
  load_config (Some mode) (Some (generate_toml sk seed)) = Ok c ∧
  config_signing_key allow draw c = Ok sk ∧ config_pq_signer draw c = Ok seed ∧
  genconfig umask true (generate_toml sk seed) = Err "creating config (refusing to overwrite)".
Proof.
  intros Hsk Hseed. exists (Z.ldiff 0x180 umask). split; [done|]. cbn zeta. split_and!.
  - unfold load_config. cbn [ok_or mbind res_bind].
    assert (Z.land (Z.land (Z.ldiff 0x180 umask) 0x1ff) 0x3f = 0) as ->.
    { apply Z.bits_inj'. intros i Hi. rewrite !Z.land_spec, Z.ldiff_spec, Z.bits_0.
      destruct (Z.lt_ge_cases i 6); [|by rewrite (Z.bits_above_log2 0x3f i) by (vm_compute (Z.log2 0x3f); lia); rewrite andb_false_r].
      assert (Z.testbit 0x180 i = false) as -> by (assert (i = 0 ∨ i = 1 ∨ i = 2 ∨ i = 3 ∨ i = 4 ∨ i = 5) as Hc by lia;
        destruct_or! Hc; by subst). done. }
    cbn [Z.eqb negb]. unfold toml_from_str, generate_toml. rewrite toml_parse_doc by apply config_doc_ok.
    reflexivity.
  - unfold config_signing_key. cbn [with_keys NodeConfig.default NodeConfig.private_key]. rewrite hex_decode_encode. cbn. by rewrite Hsk.
  - unfold config_pq_signer. cbn [with_keys NodeConfig.default NodeConfig.ml_dsa_seed]. rewrite hex_decode_encode. cbn. by rewrite Hseed.
  - done.
Qed.

Section ConfigWitness.
Import Toy ToyText ToyToml.

Lemma config_identity_witness :
  (∀ c', load_config (Some 0x81a0) (Some []) = Ok c' ↔
     ∃ m bytes, Some 0x81a0 = Some m ∧ Some [] = Some bytes ∧ Z.land m 0x3f = 0 ∧ toml_from_str bytes = Some c') ∧
  ¬ ∃ c', load_config (Some 0x81a0) (Some []) = Ok c'.
Proof.
  split.
  - exact (proj1 (config_identity (Some 0x81a0) (Some []) false [] NodeConfig.default [])).
  - intros [c' E]. by vm_compute in E.
Defined.
End ConfigWitness.
