(* ===== verification/TcpInfo.v ===== *)
(** * Kernel link statistics

    [src/tcp_info.rs] and the task of [transport.rs] that polls it: what is read from
    the kernel's [tcp_info], the loss rate derived from it, and the router's state
    after a poll.  The buffer the system call fills and the length it reports are
    arguments. *)

From Stdlib Require Import Floats.SpecFloat.
From S2P Require Import Prelude Floats Crypto Hyperbolic Router Conn.

Record TcpLinkStats := { rtt_us : Z; rttvar_us : Z; segs_out : Z; total_retrans : Z }.

Definition stats_loss_rate (s : TcpLinkStats) : float :=
  if segs_out s =? 0 then f32_of_Z 0
  else fclamp (f32_div (f32_of_Z (total_retrans s)) (f32_of_Z (segs_out s))) (f32_of_Z 0) (f32_of_Z 1).

(** A [Duration], in microseconds. *)
Definition stats_rtt (s : TcpLinkStats) : Z := rtt_us s.

Definition BUF_LEN : Z := 512.

(** [buf] has [BUF_LEN] bytes, of which the kernel wrote [length]; the words are in
    the byte order of a little-endian machine. *)
Definition read_u32 (buf : bytes) (length off : Z) : option Z :=
  if length <? off + 4 then None else Some (from_le_bytes (take 4 (drop (Z.to_nat off) buf))).

(** [None] is a failed system call. *)
Definition read_tcp_info (answer : option (bytes * Z)) : option TcpLinkStats :=
  '(buf, length) ← answer;
  let rtt_us := default 0 (read_u32 buf length 68) in
  let rttvar_us := default 0 (read_u32 buf length 72) in
  let cur_retrans := default 0 (read_u32 buf length 36) in
  let total_retrans := default cur_retrans (read_u32 buf length 100) in
  let segs_out := default (Z.min (total_retrans + 1024) (2 ^ 32 - 1)) (read_u32 buf length 112) in
  Some {| rtt_us := rtt_us; rttvar_us := rttvar_us; segs_out := segs_out; total_retrans := total_retrans |}.

(** A turn of the polling task: [None] is its end. *)
Definition poll_tcp_info (answer : option (bytes * Z)) (peer : bytes) (s : RouterState.t) : option RouterState.t :=
  stats ← read_tcp_info answer;
  Some (record_kernel_link_stats peer (stats_rtt stats) (stats_loss_rate stats) s).

(** ** Properties *)

Lemma fclamp_range x : SFltb (fclamp x (f32_of_Z 0) (f32_of_Z 1)) (f32_of_Z 0) = false ∧
  SFltb (f32_of_Z 1) (fclamp x (f32_of_Z 0) (f32_of_Z 1)) = false.
Proof.
  unfold fclamp. destruct (SFltb x (f32_of_Z 0)) eqn:E0; [by vm_compute|].
  destruct (SFltb (f32_of_Z 1) x) eqn:E1; [by vm_compute|done].
Qed.

Lemma read_u32_range buf n off z : read_u32 buf n off = Some z → 0 ≤ z < 2 ^ 32.
Proof.
  unfold read_u32. case_match; [done|]. intros [= <-].
  pose proof (from_le_range (take 4 (drop (Z.to_nat off) buf))).
  assert (2 ^ (8 * len (take 4 (drop (Z.to_nat off) buf))) ≤ 2 ^ 32); [|lia].
  apply Z.pow_le_mono_r; [lia|]. unfold len. rewrite length_take. lia.
Qed.

(** Whatever the kernel answers, the counters are 32-bit words, the loss rate is
    between 0 and 1, only what the kernel wrote is used, and a poll touches no other
    peer. *)
Theorem link_stats_bounded buf n stats :
  0 ≤ n → read_tcp_info (Some (buf, n)) = Some stats →
  (0 ≤ rtt_us stats < 2 ^ 32 ∧ 0 ≤ segs_out stats < 2 ^ 32 ∧ 0 ≤ total_retrans stats < 2 ^ 32) ∧
  SFltb (stats_loss_rate stats) (f32_of_Z 0) = false ∧ SFltb (f32_of_Z 1) (stats_loss_rate stats) = false ∧
  (∀ buf', take (Z.to_nat n) buf' = take (Z.to_nat n) buf → read_tcp_info (Some (buf', n)) = Some stats) ∧
  ∀ peer k s s', k ≠ peer → poll_tcp_info (Some (buf, n)) peer s = Some s' →
    RouterState.peers s' !! k = RouterState.peers s !! k.
Proof.
  intros Hn E.
  assert (∀ d off, 0 ≤ d < 2 ^ 32 → 0 ≤ default d (read_u32 buf n off) < 2 ^ 32) as Hd.
  { intros d off Hd. destruct (read_u32 buf n off) eqn:E'; [by eapply read_u32_range|done]. }
  assert (∀ buf' off, 0 ≤ off → take (Z.to_nat n) buf' = take (Z.to_nat n) buf →
    read_u32 buf' n off = read_u32 buf n off) as Hbuf.
  { intros buf' off Ho Hb. unfold read_u32. destruct (Z.ltb_spec n (off + 4)); [done|]. do 2 f_equal.
    assert (∀ b : bytes, take 4 (drop (Z.to_nat off) b) = take 4 (drop (Z.to_nat off) (take (Z.to_nat n) b))) as Ht.
    { intros b. rewrite skipn_firstn_comm, take_take. f_equal. lia. }
    by rewrite Ht, Hb, <- Ht. }
  split; [|split; [|split; [|split]]].
  - injection E as <-. cbn [rtt_us segs_out total_retrans]. pose proof (Hd 0 36 ltac:(lia)) as H36.
    pose proof (Hd _ 100 H36) as H100. split; [by apply Hd|]. split; [|done]. apply Hd. lia.
  - unfold stats_loss_rate. destruct (segs_out stats =? 0); [by vm_compute|apply fclamp_range].
  - unfold stats_loss_rate. destruct (segs_out stats =? 0); [by vm_compute|apply fclamp_range].
  - intros buf' Hb. rewrite <- E. unfold read_tcp_info. cbn [mbind option_bind].
    by rewrite !(Hbuf buf') by (done || lia).
  - intros peer k s s' Hk. unfold poll_tcp_info. rewrite E. cbn [mbind option_bind]. intros [= <-].
    cbn. by apply lookup_alter_ne.
Qed.
