(* ===== verification/Transport.v ===== *)
(** * Transport

    [src/transport.rs] and the connection handling of [src/quic.rs]: the NRN1
    handshake that authenticates the two ends of a link, under the optional
    obfuscation; the admission of inbound connections; and the dial loop.  Sockets
    are the bytes that arrive before they end or fail; the nonces drawn are
    arguments. *)

From Stdlib Require Import Floats.SpecFloat.
From S2P Require Import Prelude Collections Floats Crypto Varint Packet Address Text Obfs Router Routing Conn.

Definition HANDSHAKE_MAGIC : bytes := bstr "NRN1".
Definition HANDSHAKE_SIG_TAG : bytes := bstr "norn:handshake:v1".
Definition MAX_PENDING_HANDSHAKES : Z := 256.
Definition MAX_PER_IP_HANDSHAKES : Z := 4.
Definition DISCOVERY_DIAL_MAX_ATTEMPTS : Z := 4.

(** ** Addresses *)

Definition parse_tcp_uri (uri : bytes) : res bytes :=
  ok_or (strip_prefix (bstr "tcp://") uri) "unsupported URI scheme (expected tcp://)".
Definition parse_quic_uri (uri : bytes) : res bytes :=
  ok_or (strip_prefix (bstr "quic://") uri) "unsupported URI scheme (expected quic://)".

(** ** The handshake *)

Section Nrn1.
Context `{Ed25519}.

(** The bytes the holder of [pub] signs towards [other]. *)
Definition handshake_sig_bytes (nonce other_nonce pub other_pub : bytes) : bytes :=
  HANDSHAKE_SIG_TAG ++ nonce ++ other_nonce ++ pub ++ other_pub.

Definition build_handshake_sig (signing_key our_nonce their_nonce our_pub their_pub : bytes) : bytes :=
  ed_sign signing_key (handshake_sig_bytes our_nonce their_nonce our_pub their_pub).

Definition verify_handshake_sig (their_pub sig their_nonce our_nonce their_pub_for_msg our_pub_for_msg : bytes)
    : res unit :=
  bail_if negb (ed_valid their_pub) with "handshake: invalid remote pub_key";
  bail_if negb (ed_verify their_pub
                  (handshake_sig_bytes their_nonce our_nonce their_pub_for_msg our_pub_for_msg) sig)
    with "handshake: signature verification failed";
  Ok tt.

(** What is written to the stream, and the remote key with the rest of the input. *)
Definition handshake_over_stream (signing_key our_nonce reader : bytes) : bytes * res (bytes * bytes) :=
  let our_pub := ed_public signing_key in
  let hello := HANDSHAKE_MAGIC ++ our_pub ++ our_nonce in
  let hello_in :=
    '(buf, reader) ← read_exact 68 reader;
    magic ← slice buf 0 4;
    bail_if negb (bool_decide (magic = HANDSHAKE_MAGIC))
      with "handshake: bad magic (peer using incompatible protocol?)";
    their_pub ← slice buf 4 36;
    their_nonce ← slice buf 36 68;
    bail_if bool_decide (their_pub = our_pub)
      with "handshake: peer announced our own pub_key (self-loop)";
    bail_if negb (ed_valid their_pub) with "handshake: malformed remote pub_key";
    Ok (their_pub, their_nonce, reader) in
  match hello_in with
  | Ok (their_pub, their_nonce, reader) =>
      let sig_out := build_handshake_sig signing_key our_nonce their_nonce our_pub their_pub in
      (hello ++ sig_out,
       '(sig_in, reader) ← read_exact 64 reader;
       verify_handshake_sig their_pub sig_in their_nonce our_nonce their_pub our_pub;;
       Ok (their_pub, reader))
  | Err e => (hello, Err e)
  | Panic => (hello, Panic)
  end.
End Nrn1.

Section Establish.
Context `{Blake2} `{Ed25519}.

(** The two halves of an established stream, from the bytes [input] of the socket:
    what was written so far, the input as the reader sees it, and what the socket
    carries for given bytes of the writer. *)
Definition establish (obfs_key : option bytes) (tx_nonce input : bytes)
    : bytes * res (bytes * (bytes → bytes)) :=
  match obfs_key with
  | Some key =>
      let '(written, r) := obfs_handshake key tx_nonce input in
      (written,
       '(hs, rest) ← r;
       Ok ((KeyStream.apply rest (rx hs)).1, λ data, (KeyStream.apply data (tx hs)).1))
  | None => ([], Ok (input, λ data, data))
  end.

(** [establish] and then the handshake over it, as [listen] and [dial] run them:
    the bytes written to the socket, and the remote key with the input left. *)
Definition secure_link (obfs_key : option bytes) (tx_nonce signing_key our_nonce input : bytes)
    : bytes * res (bytes * bytes) :=
  let '(written, r) := establish obfs_key tx_nonce input in
  match r with
  | Ok (reader, wrap) =>
      let '(out, r) := handshake_over_stream signing_key our_nonce reader in (written ++ wrap out, r)
  | Err e => (written, Err e)
  | Panic => (written, Panic)
  end.
End Establish.

(** ** Counters *)

(** A counter in a map that goes down by one and is removed at zero
    ([PerIpGuard::drop] and the end of a connection). *)
Definition count_down (k : bytes) (counts : gmap bytes Z) : gmap bytes Z :=
  match counts !! k with
  | Some c => let c := sat_sub c 1 in if c =? 0 then delete k counts else <[k := c]> counts
  | None => counts
  end.

(** The per-peer link cap: one more link, unless there are too many. *)
Definition link_up (remote_pub : bytes) (connected : gmap bytes Z) : option (gmap bytes Z) :=
  let count := default 0 (connected !! remote_pub) in
  if MAX_PARALLEL_LINKS_PER_PEER <=? count then None else Some (<[remote_pub := count + 1]> connected).

(** The difficulty check of a remote key. *)
Definition too_easy `{Blake2} (min_bits : Z) (remote_pub : bytes) : bool :=
  (0 <? min_bits) && (key_difficulty_bits remote_pub <? min_bits).

(** ** The listener *)

(** The task of an accepted socket. *)
Inductive task := Handshaking (ip : bytes) | Serving (ip remote_pub : bytes).

(** What [src/quic.rs] does with the peer of a finished handshake ([handle_one]): its
    counted link, if it gets one. *)
Definition quic_link `{Blake2} (min_bits : Z) (remote_pub : bytes) (connected : gmap bytes Z)
    : option (gmap bytes Z) :=
  if too_easy min_bits remote_pub then None else link_up remote_pub connected.

(** A listener, with the links that dial tasks of this node opened, those they are
    about to open, and the QUIC links of either direction. *)
Record Listener := mkListener {
  permits : Z;
  per_ip_counts : gmap bytes Z;
  connected : gmap bytes Z;
  tasks : list task;
  dialing : list bytes;
  dialed : list bytes;
  quic : list bytes }.

#[global] Instance set_permits : SetField permits := λ v r,
  mkListener v (per_ip_counts r) (connected r) (tasks r) (dialing r) (dialed r) (quic
    r).
#[global] Instance set_per_ip_counts : SetField per_ip_counts := λ v r,
  mkListener (permits r) v (connected r) (tasks r) (dialing r) (dialed r) (quic r).
#[global] Instance set_connected : SetField connected := λ v r,
  mkListener (permits r) (per_ip_counts r) v (tasks r) (dialing r) (dialed r) (quic r).
#[global] Instance set_tasks : SetField tasks := λ v r,
  mkListener (permits r) (per_ip_counts r) (connected r) v (dialing r) (dialed r) (quic
    r).
#[global] Instance set_dialing : SetField dialing := λ v r,
  mkListener (permits r) (per_ip_counts r) (connected r) (tasks r) v (dialed r) (quic
    r).
#[global] Instance set_dialed : SetField dialed := λ v r,
  mkListener (permits r) (per_ip_counts r) (connected r) (tasks r) (dialing r) v (quic
    r).
#[global] Instance set_quic : SetField quic := λ v r,
  mkListener (permits r) (per_ip_counts r) (connected r) (tasks r) (dialing r) (dialed
    r) v.

Definition new_listener : Listener := mkListener MAX_PENDING_HANDSHAKES ∅ ∅ [] [] [] [].

Inductive listen_event :=
| Accept (ip : bytes)
| HandshakeEnds (i : nat) (remote : option bytes)
| Disconnect (i : nat)
| DialCheck (remote_pub : bytes)
| DialCommit (i : nat)
| DialEnds (i : nat)
| QuicHandshake (remote_pub : bytes)
| QuicEnds (i : nat).

(** The end of a task drops its per-IP guard. *)
Definition end_task (i : nat) (ip : bytes) (l : Listener) : Listener :=
  l <| per_ip_counts := count_down ip (per_ip_counts l) |> <| tasks := delete i (tasks l) |>.

Definition listen_step `{Blake2} (min_bits : Z) (l : Listener) (e : listen_event) : Listener :=
  match e with
  | Accept ip =>
      if permits l <=? 0 then l else
      let entry := default 0 (per_ip_counts l !! ip) in
      if MAX_PER_IP_HANDSHAKES <=? entry then l
      else l <| permits := permits l - 1 |>
             <| per_ip_counts := <[ip := entry + 1]> (per_ip_counts l) |>
             <| tasks := tasks l ++ [Handshaking ip] |>
  | HandshakeEnds i remote =>
      match tasks l !! i with
      | Some (Handshaking ip) =>
          let l := l <| permits := permits l + 1 |> in
          match remote with
          | Some remote_pub =>
              if too_easy min_bits remote_pub then end_task i ip l else
              match link_up remote_pub (connected l) with
              | Some m => l <| connected := m |> <| tasks := <[i := Serving ip remote_pub]> (tasks l) |>
              | None => end_task i ip l
              end
          | None => end_task i ip l
          end
      | _ => l
      end
  | Disconnect i =>
      match tasks l !! i with
      | Some (Serving ip remote_pub) =>
          end_task i ip (l <| connected := count_down remote_pub (connected l) |>)
      | _ => l
      end
  | DialCheck remote_pub =>
      if MAX_PARALLEL_LINKS_PER_PEER <=? default 0 (connected l !! remote_pub) then l
      else l <| dialing := dialing l ++ [remote_pub] |>
  | DialCommit i =>
      match dialing l !! i with
      | Some remote_pub =>
          l <| connected := <[remote_pub := default 0 (connected l !! remote_pub) + 1]> (connected l) |>
            <| dialing := delete i (dialing l) |> <| dialed := dialed l ++ [remote_pub] |>
      | None => l
      end
  | DialEnds i =>
      match dialed l !! i with
      | Some remote_pub =>
          l <| connected := count_down remote_pub (connected l) |> <| dialed := delete i (dialed l) |>
      | None => l
      end
  | QuicHandshake remote_pub =>
      match quic_link min_bits remote_pub (connected l) with
      | Some m => l <| connected := m |> <| quic := quic l ++ [remote_pub] |>
      | None => l
      end
  | QuicEnds i =>
      match quic l !! i with
      | Some remote_pub =>
          l <| connected := count_down remote_pub (connected l) |> <| quic := delete i (quic l) |>
      | None => l
      end
  end.

(** ** The dial loop *)

(** What becomes of one attempt. *)
Inductive dial_outcome := NoConnection | NoHandshake | TooEasy | Yielded | AtCap | Served.

(** [attempt] is [None] when the socket does not connect and [Some None] when the
    handshake fails; [reached] and [links] are the counts three seconds later and at
    the cap check. *)
Definition dial_attempt `{Blake2} (min_bits : Z) (our_pub : bytes) (attempt : option (option bytes))
    (reached links : gmap bytes Z) : dial_outcome :=
  match attempt with
  | None => NoConnection
  | Some None => NoHandshake
  | Some (Some remote_pub) =>
      if too_easy min_bits remote_pub then TooEasy
      else if bytes_ltb remote_pub our_pub && (0 <? default 0 (reached !! remote_pub)) then Yielded
      else if MAX_PARALLEL_LINKS_PER_PEER <=? default 0 (links !! remote_pub) then AtCap
      else Served
  end.

Record Dial := { delay : Z; attempts : Z }.
Definition new_dial : Dial := {| delay := 1000; attempts := 0 |}.

(** The next delay, from the factor drawn. *)
Definition backoff (jitter : float) (delay : Z) : Z :=
  Z.min (to_u64 (f64_mul (f64_mul (f64_of_Z delay) (f64_of_Z 2)) jitter)) 60000.

(** One iteration of [dial_inner]: [None] when it gives up, else the time it sleeps
    (in milliseconds) and its variables. *)
Definition dial_iter (max_attempts : option Z) (o : dial_outcome) (jitter : float) (d : Dial)
    : option (Z * Dial) :=
  if default false ((λ max, max <=? attempts d) <$> max_attempts) then None else
  let tried := wrap32 (attempts d + 1) in
  match o with
  | TooEasy => Some (300000, {| delay := delay d; attempts := tried |})
  | Yielded | AtCap => Some (30000, {| delay := delay d; attempts := tried |})
  | Served => Some (5000, {| delay := backoff jitter 5000; attempts := 0 |})
  | NoConnection | NoHandshake =>
      Some (delay d, {| delay := backoff jitter (delay d); attempts := tried |})
  end.

(** A run of the loop: [None] when it has given up. *)
Fixpoint dial_inner (max_attempts : option Z) (xs : list (dial_outcome * float)) (d : Dial) : option Dial :=
  match xs with
  | [] => Some d
  | (o, jitter) :: xs =>
      match dial_iter max_attempts o jitter d with
      | Some (_, d) => dial_inner max_attempts xs d
      | None => None
      end
  end.
Definition dial (xs : list (dial_outcome * float)) : option Dial := dial_inner None xs new_dial.
Definition dial_discovered (xs : list (dial_outcome * float)) : option Dial :=
  dial_inner (Some DISCOVERY_DIAL_MAX_ATTEMPTS) xs new_dial.

(** The loop of [dial] in [src/quic.rs]: what becomes of a connection, and one
    iteration with the time it sleeps and the next delay. *)
Inductive quic_outcome := QuicNoConnection | QuicNoStream | QuicHandled.

Definition quic_dial_iter (o : quic_outcome) (jitter : float) (delay : Z) : Z * Z :=
  match o with
  | QuicNoConnection => (delay, backoff jitter delay)
  | QuicNoStream => (0, delay)
  | QuicHandled => (5000, backoff jitter 5000)
  end.

(** ** The handshake: proofs *)

(** The first message of an end, and both of its messages. *)
Definition hello_of `{Ed25519} (sk nonce : bytes) : bytes := HANDSHAKE_MAGIC ++ ed_public sk ++ nonce.
Definition nrn1_messages `{Ed25519} (sk nonce other_pub other_nonce : bytes) : bytes :=
  hello_of sk nonce ++ build_handshake_sig sk nonce other_nonce (ed_public sk) other_pub.

(** What the socket carries for the bytes [data] of an end that drew [tx_nonce]. *)
Definition on_wire `{Blake2} (obfs_key : option bytes) (tx_nonce data : bytes) : bytes :=
  match obfs_key with
  | Some key => tx_nonce ++ (KeyStream.apply data (KeyStream.new (conn_key key tx_nonce))).1
  | None => data
  end.

Lemma handshake_sig_bytes_inj n1 n2 p1 p2 m1 m2 q1 q2 :
  len n1 = len m1 → len n2 = len m2 → len p1 = len q1 →
  handshake_sig_bytes n1 n2 p1 p2 = handshake_sig_bytes m1 m2 q1 q2 →
  n1 = m1 ∧ n2 = m2 ∧ p1 = q1 ∧ p2 = q2.
Proof.
  unfold handshake_sig_bytes, len. intros H1 H2 H3 E%app_inv_head.
  apply app_inj_1 in E as [-> E]; [|lia]. apply app_inj_1 in E as [-> E]; [|lia].
  by apply app_inj_1 in E as [-> ->]; [|lia].
Qed.

Lemma read_exact_app n x rest : len x = n → read_exact n (x ++ rest) = Ok (x, rest).
Proof.
  intros <-. unfold read_exact. len_pos. test_false. unfold len. rewrite Nat2Z.id.
  by rewrite take_app_length, drop_app_length.
Qed.

Lemma read_exact_inv n r x rest : 0 ≤ n → read_exact n r = Ok (x, rest) → r = x ++ rest ∧ len x = n.
Proof.
  intros Hn. unfold read_exact. destruct (Z.ltb_spec (len r) n); [done|]. intros [= <- <-].
  split; [by rewrite take_drop|]. rewrite len_take. lia.
Qed.

Section Nrn1Lemmas.
Context `{Ed25519Laws}.

(** The answer to a first message. *)
Lemma handshake_hello sk n pub' n' rest :
  len pub' = 32 → len n' = 32 → pub' ≠ ed_public sk → ed_valid pub' = true →
  handshake_over_stream sk n (HANDSHAKE_MAGIC ++ pub' ++ n' ++ rest)
  = (nrn1_messages sk n pub' n',
     '(sig_in, reader) ← read_exact 64 rest;
     verify_handshake_sig pub' sig_in n' n pub' (ed_public sk);;
     Ok (pub', reader)).
Proof.
  intros Hp Hn Hne Hv. unfold handshake_over_stream.
  replace (HANDSHAKE_MAGIC ++ pub' ++ n' ++ rest) with ((HANDSHAKE_MAGIC ++ pub' ++ n') ++ rest)
    by (by rewrite <- !app_assoc).
  assert (len HANDSHAKE_MAGIC = 4) as Hm by done.
  rewrite read_exact_app by (done || len_lia). rewrite bind_Ok.
  rewrite (slice_head HANDSHAKE_MAGIC _ 0 4), bind_Ok by (done || len_lia). rewrite bool_decide_true by done. cbn [negb].
  rewrite (slice_drop HANDSHAKE_MAGIC _ 4 36), (slice_head pub'), bind_Ok by (done || len_lia).
  rewrite (slice_drop HANDSHAKE_MAGIC _ 36 68), (slice_drop pub'), (slice_whole n'), bind_Ok by (done || len_lia).
  rewrite bool_decide_false, Hv by done. done.
Qed.

Lemma handshake_inv sk n reader out p rest :
  handshake_over_stream sk n reader = (out, Ok (p, rest)) →
  ∃ n' sig, reader = HANDSHAKE_MAGIC ++ p ++ n' ++ sig ++ rest ∧
    len p = 32 ∧ len n' = 32 ∧ len sig = 64 ∧ p ≠ ed_public sk ∧ ed_valid p = true ∧
    ed_verify p (handshake_sig_bytes n' n p (ed_public sk)) sig = true.
Proof.
  unfold handshake_over_stream. destruct (_ ≫= _) as [[[p' n'] r1]| |] eqn:E; [|done..].
  apply bind_Ok_inv in E as ([buf r] & [-> Hb]%read_exact_inv & E); [|done].
  apply bind_Ok_inv in E as (magic & Hs1 & E). case_bool_decide as Hm; [|done]. cbn [negb] in E. subst.
  apply bind_Ok_inv in E as (p1 & Hs2 & E). apply bind_Ok_inv in E as (n1 & Hs3 & E).
  case_bool_decide as Hne; [done|]. destruct (ed_valid p1) eqn:Hv; [|done]. cbn [negb] in E.
  injection E as -> -> ->. intros [= <- E].
  apply bind_Ok_inv in E as ([sig r2] & [-> Hsig]%read_exact_inv & E); [|done].
  unfold verify_handshake_sig in E. rewrite Hv in E. cbn [negb] in E.
  destruct (ed_verify p' _ sig) eqn:Hver; [|done]. injection E as -> ->.
  exists n', sig. assert (buf = HANDSHAKE_MAGIC ++ p ++ n') as ->.
  { apply slice_inv in Hs1 as (_ & _ & _ & ->), Hs2 as (_ & _ & Hp & Ep), Hs3 as (_ & _ & Hn & En).
    rewrite Ep, En. change (Z.to_nat (4 - 0)) with 4%nat. change (Z.to_nat (36 - 4)) with 32%nat.
    change (Z.to_nat (68 - 36)) with 32%nat. change (Z.to_nat 4) with 4%nat. change (Z.to_nat 36) with 36%nat.
    rewrite <- (take_drop 4 buf) at 1. cbn [drop Z.to_nat]. f_equal. rewrite <- (take_drop 32 (drop 4 buf)) at 1.
    f_equal. rewrite drop_drop. symmetry. apply take_ge. rewrite length_drop. unfold len in Hb. lia. }
  rewrite <- !app_assoc. split_and!; try done;
    [by apply slice_inv in Hs2 as (_ & _ & -> & _)|by apply slice_inv in Hs3 as (_ & _ & -> & _)].
Qed.
End Nrn1Lemmas.

Section LinkLemmas.
Context `{Blake2} `{Ed25519Laws}.

(** An end reads what the other end puts on the wire. *)
Lemma establish_reads obfs_key t t' data :
  len t' = OBFS_NONCE_LEN →
  ∃ wrap, establish obfs_key t (on_wire obfs_key t' data)
    = (match obfs_key with Some _ => t | None => [] end, Ok (data, wrap)) ∧
    ∀ out, match obfs_key with Some _ => t | None => [] end ++ wrap out = on_wire obfs_key t out.
Proof.
  intros Ht. unfold establish, on_wire. destruct obfs_key as [key|]; [|by eexists].
  unfold obfs_handshake. rewrite read_exact_app, !bind_Ok by done. cbn [rx tx].
  rewrite apply_cancel. by eexists.
Qed.

Lemma secure_link_agrees obfs_key tA tB skA skB nA nB data :
  len tB = OBFS_NONCE_LEN → len nB = 32 → ed_public skA ≠ ed_public skB →
  secure_link obfs_key tA skA nA (on_wire obfs_key tB (nrn1_messages skB nB (ed_public skA) nA ++ data))
  = (on_wire obfs_key tA (nrn1_messages skA nA (ed_public skB) nB), Ok (ed_public skB, data)).
Proof.
  intros Ht Hn Hne. unfold secure_link.
  edestruct (establish_reads obfs_key tA tB) as (wrap & -> & Hw); [done|].
  unfold nrn1_messages at 1. unfold hello_of. rewrite <- !app_assoc.
  rewrite handshake_hello; [|apply ed_public_len|done|congruence|apply ed_public_valid].
  rewrite Hw. f_equal. unfold build_handshake_sig.
  rewrite read_exact_app by apply ed_sign_len. rewrite bind_Ok. unfold verify_handshake_sig.
  by rewrite ed_public_valid, ed_sign_verify.
Qed.
End LinkLemmas.

(** C14: the link handshake succeeds between any two nodes with different keys: each
    end, reading exactly what the other end writes, writes its two messages,
    learns the other's key, and goes on to read precisely the bytes that follow,
    also when both obfuscate the stream with the same pre-shared key. *)
Theorem nrn1_completes `{Blake2} `{Ed25519Laws} obfs_key tA tB skA skB nA nB dataA dataB :
  len tA = OBFS_NONCE_LEN → len tB = OBFS_NONCE_LEN → len nA = 32 → len nB = 32 →
  ed_public skA ≠ ed_public skB →
  let mA := nrn1_messages skA nA (ed_public skB) nB in
  let mB := nrn1_messages skB nB (ed_public skA) nA in
  secure_link obfs_key tA skA nA (on_wire obfs_key tB (mB ++ dataB))
    = (on_wire obfs_key tA mA, Ok (ed_public skB, dataB)) ∧
  secure_link obfs_key tB skB nB (on_wire obfs_key tA (mA ++ dataA))
    = (on_wire obfs_key tB mB, Ok (ed_public skA, dataA)).
Proof. intros. split; by apply secure_link_agrees. Qed.

(** C13: a completed link handshake authenticates the peer, whatever arrives on the
    socket: the key it returns is another's, valid, and the input carries a
    signature under that key over the domain tag, the peer's nonce, our fresh nonce
    and the two identities in this order.  These bytes determine all four values,
    so a signature made in another run, for another party, or by us is refused. *)
Theorem nrn1_authenticates `{Blake2} `{Ed25519Laws} obfs_key t sk n input out p rest :
  secure_link obfs_key t sk n input = (out, Ok (p, rest)) →
  p ≠ ed_public sk ∧ ed_valid p = true ∧
  ∃ n' sig reader wrap, (establish obfs_key t input).2 = Ok (reader, wrap) ∧
    reader = HANDSHAKE_MAGIC ++ p ++ n' ++ sig ++ rest ∧
    ed_verify p (handshake_sig_bytes n' n p (ed_public sk)) sig = true ∧
    ∀ m m' q q', len m = len n' → len m' = len n → len q = len p →
      handshake_sig_bytes m m' q q' = handshake_sig_bytes n' n p (ed_public sk) →
      m = n' ∧ m' = n ∧ q = p ∧ q' = ed_public sk.
Proof.
  unfold secure_link. destruct (establish obfs_key t input) as [w [[reader wrap]| |]]; [|done..].
  destruct (handshake_over_stream sk n reader) as [o r] eqn:E. intros [= _ ->].
  apply handshake_inv in E as (n' & sig & -> & ? & ? & ? & Hne & Hv & Hver).
  split_and!; [done..|]. exists n', sig, (HANDSHAKE_MAGIC ++ p ++ n' ++ sig ++ rest), wrap.
  split_and!; [done..|]. intros m m' q q' ? ? ? He. by apply handshake_sig_bytes_inj in He.
Qed.

(** ** The listener: proofs *)

(** How many elements of a list satisfy [P]. *)
Definition count {A} (P : A → bool) (l : list A) : Z := len (filter (λ x, P x = true) l).

Section Count.
Context {A : Type} (P : A → bool).

Lemma count_nonneg l : 0 ≤ count P l.
Proof. apply len_nonneg. Qed.
Lemma count_app l l' : count P (l ++ l') = count P l + count P l'.
Proof. unfold count. by rewrite filter_app, len_app. Qed.
Lemma count_one x : count P [x] = if P x then 1 else 0.
Proof.
  unfold count. destruct (P x) eqn:E; [rewrite filter_cons_True by done|rewrite filter_cons_False by congruence]; done.
Qed.
Lemma count_cons x l : count P (x :: l) = (if P x then 1 else 0) + count P l.
Proof. change (x :: l) with ([x] ++ l). by rewrite count_app, count_one. Qed.
Lemma count_split (l : list A) i x : l !! i = Some x → l = take i l ++ [x] ++ drop (S i) l.
Proof. intros. symmetry. by apply take_drop_middle. Qed.
Lemma count_delete (l : list A) i x : l !! i = Some x → count P (delete i l) = count P l - (if P x then 1 else 0).
Proof.
  intros Hx. rewrite delete_take_drop, count_app. rewrite (count_split l i x Hx) at 3.
  rewrite !count_app, count_one. lia.
Qed.
Lemma count_insert (l : list A) i x y :
  l !! i = Some x → count P (<[i := y]> l) = count P l - (if P x then 1 else 0) + (if P y then 1 else 0).
Proof.
  intros Hx. rewrite insert_take_drop by (by eapply lookup_lt_Some). rewrite (count_split l i x Hx) at 3.
  change (y :: drop (S i) l) with ([y] ++ drop (S i) l). rewrite !count_app, !count_one. lia.
Qed.
End Count.

(** The entry of a map that counts [n] things. *)
Definition counter (n : Z) : option Z := if n =? 0 then None else Some n.

Lemma counter_default n : default 0 (counter n) = n.
Proof. unfold counter. destruct (Z.eqb_spec n 0); cbn; lia. Qed.
Lemma counter_succ n : 0 ≤ n → Some (n + 1) = counter (n + 1).
Proof. intros. unfold counter. by destruct (Z.eqb_spec (n + 1) 0); [lia|]. Qed.

Lemma count_down_lookup (k k' : bytes) (m : gmap bytes Z) n :
  0 < n → m !! k = counter n →
  count_down k m !! k' = if bool_decide (k = k') then counter (n - 1) else m !! k'.
Proof.
  intros Hn Hk. unfold count_down, counter in *. rewrite Hk. destruct (Z.eqb_spec n 0); [lia|].
  unfold sat_sub. rewrite Z.max_r by lia.
  case_bool_decide as E; subst; destruct (n - 1 =? 0);
    [apply lookup_delete_eq|apply lookup_insert_eq|by apply lookup_delete_ne|by apply lookup_insert_ne].
Qed.

Definition is_handshaking (x : task) : bool := match x with Handshaking _ => true | _ => false end.
Definition comes_from (ip : bytes) (x : task) : bool :=
  bool_decide (match x with Handshaking ip' | Serving ip' _ => ip' end = ip).
Definition serves (k : bytes) (x : task) : bool :=
  match x with Serving _ k' => bool_decide (k' = k) | _ => false end.

(** The live links to a peer. *)
Definition live_links (k : bytes) (l : Listener) : Z :=
  count (serves k) (tasks l) + count (λ k', bool_decide (k' = k)) (dialed l ++ quic l).

Record listener_ok (l : Listener) : Prop := {
  lo_permits : permits l = MAX_PENDING_HANDSHAKES - count is_handshaking (tasks l);
  lo_pending : count is_handshaking (tasks l) ≤ MAX_PENDING_HANDSHAKES;
  lo_ip : ∀ ip, per_ip_counts l !! ip = counter (count (comes_from ip) (tasks l));
  lo_cap : ∀ ip, count (comes_from ip) (tasks l) ≤ MAX_PER_IP_HANDSHAKES;
  lo_links : ∀ k, connected l !! k = counter (live_links k l) }.

(** One more, or one less, for one key. *)
Lemma lookup_count_up (k k' : bytes) (m : gmap bytes Z) (f : bytes → Z) :
  0 ≤ f k → (∀ k, m !! k = counter (f k)) →
  <[k := default 0 (m !! k) + 1]> m !! k' = counter (f k' + (if bool_decide (k = k') then 1 else 0)).
Proof.
  intros Hk Hm. rewrite Hm, counter_default. case_bool_decide as E; subst.
  - rewrite lookup_insert_eq. by apply counter_succ.
  - rewrite lookup_insert_ne, Hm by done. f_equal. lia.
Qed.

Lemma lookup_count_down (k k' : bytes) (m : gmap bytes Z) (f : bytes → Z) :
  0 < f k → (∀ k, m !! k = counter (f k)) →
  count_down k m !! k' = counter (f k' - (if bool_decide (k = k') then 1 else 0)).
Proof.
  intros Hk Hm. rewrite (count_down_lookup _ _ _ _ Hk (Hm k)).
  case_bool_decide as E; subst; [done|]. rewrite Hm. f_equal. lia.
Qed.

Lemma count_pos {A} (P : A → bool) (l : list A) i x : l !! i = Some x → P x = true → 0 < count P l.
Proof.
  intros Hx HP. rewrite (count_split l i x Hx), !count_app, count_one, HP.
  pose proof (count_nonneg P (take i l)). pose proof (count_nonneg P (drop (S i) l)). lia.
Qed.

(** A task ends: [l] is consistent but for the task, which no longer holds a permit
    or a link. *)
Lemma end_task_ok i ip l x :
  tasks l !! i = Some x → comes_from ip x = true →
  permits l = MAX_PENDING_HANDSHAKES - (count is_handshaking (tasks l) - if is_handshaking x then 1 else 0) →
  count is_handshaking (tasks l) ≤ MAX_PENDING_HANDSHAKES →
  (∀ ip, per_ip_counts l !! ip = counter (count (comes_from ip) (tasks l))) →
  (∀ ip, count (comes_from ip) (tasks l) ≤ MAX_PER_IP_HANDSHAKES) →
  (∀ k, connected l !! k = counter (live_links k l - if serves k x then 1 else 0)) →
  listener_ok (end_task i ip l).
Proof.
  intros Hx Hip Hp Hh Hc Hcap Hl. assert (∀ ip', comes_from ip' x = bool_decide (ip = ip')) as Hx'.
  { intros ip'. unfold comes_from in *. apply bool_decide_eq_true in Hip. by rewrite Hip. }
  split; cbn.
  - rewrite (count_delete _ _ _ _ Hx). lia.
  - rewrite (count_delete _ _ _ _ Hx). destruct (is_handshaking x); lia.
  - intros ip'. rewrite (count_delete _ _ _ _ Hx), Hx'.
    apply (lookup_count_down ip ip' _ (λ ip, count (comes_from ip) (tasks l))); [|done].
    by apply (count_pos _ _ i x).
  - intros ip'. rewrite (count_delete _ _ _ _ Hx). specialize (Hcap ip'). destruct (comes_from ip' x); lia.
  - intros k. rewrite Hl. f_equal. unfold live_links. cbn. rewrite (count_delete _ _ _ _ Hx). lia.
Qed.

Lemma live_links_nonneg k l : 0 ≤ live_links k l.
Proof. unfold live_links. pose proof (count_nonneg (serves k) (tasks l)).
  pose proof (count_nonneg (λ k', bool_decide (k' = k)) (dialed l ++ quic l)). lia. Qed.

(** A link that is not the task of an accepted socket comes or goes. *)
Lemma link_change_ok l l' k (up : bool) :
  listener_ok l → permits l' = permits l → per_ip_counts l' = per_ip_counts l → tasks l' = tasks l →
  connected l' = (if up then <[k := default 0 (connected l !! k) + 1]> (connected l)
                  else count_down k (connected l)) →
  (if up then True else 0 < live_links k l) →
  (∀ k', live_links k' l' = live_links k' l + (if bool_decide (k = k') then if up then 1 else -1 else 0)) →
  listener_ok l'.
Proof.
  intros [Hp Hh Hc Hcap Hl] Ep Ec Et Ek Hup Hk. split; rewrite ?Ep, ?Ec, ?Et; try done. intros k'. rewrite Ek, Hk.
  destruct up.
  - rewrite (lookup_count_up k k' (connected l) (λ k, live_links k l)) by (done || apply live_links_nonneg).
    by case_bool_decide.
  - rewrite (lookup_count_down k k' (connected l) (λ k, live_links k l)) by done.
    f_equal. case_bool_decide; lia.
Qed.

Lemma dialed_pos (k : bytes) i l l' : l !! i = Some k → 0 < count (λ k', bool_decide (k' = k)) (l ++ l').
Proof.
  intros Hx. apply (count_pos _ _ i k); [by apply lookup_app_l_Some|]. by rewrite bool_decide_true.
Qed.

Lemma accept_ok `{Blake2} min_bits l ip : listener_ok l → listener_ok (listen_step min_bits l (Accept ip)).
Proof.
  intros [Hp Hh Hc Hcap Hl]. cbn [listen_step]. destruct (Z.leb_spec (permits l) 0); [done|].
  rewrite (Hc ip), counter_default. destruct (Z.leb_spec MAX_PER_IP_HANDSHAKES (count (comes_from ip) (tasks l)));
    [done|]. split; cbn.
  - rewrite count_app, count_one. cbn. lia.
  - rewrite count_app, count_one. cbn. lia.
  - intros ip'. rewrite count_app, count_one. change (comes_from ip' (Handshaking ip)) with (bool_decide (ip = ip')).
    rewrite <- (counter_default (count (comes_from ip) (tasks l))), <- (Hc ip).
    apply (lookup_count_up ip ip' _ (λ ip, count (comes_from ip) (tasks l))); [apply count_nonneg|done].
  - intros ip'. rewrite count_app, count_one. change (comes_from ip' (Handshaking ip)) with (bool_decide (ip = ip')).
    specialize (Hcap ip'). case_bool_decide; subst; lia.
  - intros k. rewrite Hl. f_equal. unfold live_links. cbn. rewrite (count_app _ (tasks l)), count_one. cbn. lia.
Qed.

Lemma handshake_ends_ok `{Blake2} min_bits l i remote :
  listener_ok l → listener_ok (listen_step min_bits l (HandshakeEnds i remote)).
Proof.
  intros Hok. pose proof Hok as [Hp Hh Hc Hcap Hl]. cbn [listen_step].
  destruct (tasks l !! i) as [[ip|]|] eqn:Hx; [|done..].
  set (l1 := l <| permits := permits l + 1 |>).
  assert (listener_ok (end_task i ip l1)) as Hend.
  { apply (end_task_ok i ip l1 (Handshaking ip)); try done; cbn.
    - unfold comes_from. by rewrite bool_decide_true.
    - lia.
    - intros k. rewrite Hl. f_equal. unfold live_links. cbn. lia. }
  destruct remote as [k|]; [|done]. destruct (too_easy min_bits k); [done|].
  unfold link_up. destruct (_ <=? _); [done|]. split; cbn.
  - rewrite (count_insert _ _ _ _ _ Hx). cbn. lia.
  - rewrite (count_insert _ _ _ _ _ Hx). cbn. lia.
  - intros ip'. rewrite Hc. f_equal. rewrite (count_insert _ _ _ _ _ Hx). unfold comes_from. lia.
  - intros ip'. rewrite (count_insert _ _ _ _ _ Hx). specialize (Hcap ip'). unfold comes_from in *. lia.
  - intros k'. rewrite (lookup_count_up k k' (connected l) (λ k, live_links k l)) by (done || apply live_links_nonneg).
    f_equal. unfold live_links. cbn. rewrite (count_insert _ _ _ _ _ Hx). cbn. lia.
Qed.

Lemma disconnect_ok `{Blake2} min_bits l i : listener_ok l → listener_ok (listen_step min_bits l (Disconnect i)).
Proof.
  intros Hok. pose proof Hok as [Hp Hh Hc Hcap Hl]. cbn [listen_step].
  destruct (tasks l !! i) as [[|ip k]|] eqn:Hx; [done| |done].
  apply (end_task_ok i ip _ (Serving ip k)); try done; cbn.
  - unfold comes_from. by rewrite bool_decide_true.
  - lia.
  - intros k'. rewrite (lookup_count_down k k' (connected l) (λ k, live_links k l)); [done| |done].
    unfold live_links. pose proof (count_pos (serves k) (tasks l) i _ Hx) as Hpos. cbn in Hpos.
    rewrite bool_decide_true in Hpos by done. specialize (Hpos eq_refl).
    pose proof (count_nonneg (λ k', bool_decide (k' = k)) (dialed l ++ quic l)). lia.
Qed.

Lemma dial_ok `{Blake2} min_bits l e :
  listener_ok l →
  match e with DialCheck _ | DialCommit _ | DialEnds _ => listener_ok (listen_step min_bits l e) | _ => True end.
Proof.
  intros Hok. destruct e as [| | |k|i|i| |]; try done; cbn [listen_step].
  - destruct (_ <=? _); [done|]. by destruct Hok.
  - destruct (dialing l !! i) as [k|] eqn:Hx; [|done]. apply (link_change_ok l _ k true); try done.
    intros k'. unfold live_links. cbn. rewrite !count_app, count_one. lia.
  - destruct (dialed l !! i) as [k|] eqn:Hx; [|done]. apply (link_change_ok l _ k false); try done.
    + unfold live_links. pose proof (dialed_pos k i _ (quic l) Hx). pose proof (count_nonneg (serves k) (tasks l)). lia.
    + intros k'. unfold live_links. cbn. rewrite !count_app, (count_delete _ _ _ _ Hx). case_bool_decide; lia.
Qed.

Lemma quic_ok `{Blake2} min_bits l e :
  listener_ok l →
  match e with QuicHandshake _ | QuicEnds _ => listener_ok (listen_step min_bits l e) | _ => True end.
Proof.
  intros Hok. destruct e as [| | | | | |k|i]; try done; cbn [listen_step].
  - unfold quic_link, link_up. destruct (too_easy min_bits k); [done|]. destruct (_ <=? _); [done|].
    apply (link_change_ok l _ k true); try done.
    intros k'. unfold live_links. cbn. rewrite !count_app, count_one. lia.
  - destruct (quic l !! i) as [k|] eqn:Hx; [|done]. apply (link_change_ok l _ k false); try done.
    + unfold live_links. pose proof (dialed_pos k i _ [] Hx) as Hpos. rewrite app_nil_r in Hpos.
      rewrite count_app. pose proof (count_nonneg (serves k) (tasks l)).
      pose proof (count_nonneg (λ k', bool_decide (k' = k)) (dialed l)). lia.
    + intros k'. unfold live_links. cbn. rewrite !count_app, (count_delete _ _ _ _ Hx). case_bool_decide; lia.
Qed.

Lemma listen_step_ok `{Blake2} min_bits l e : listener_ok l → listener_ok (listen_step min_bits l e).
Proof.
  intros Hok. pose proof (dial_ok min_bits l e Hok). pose proof (quic_ok min_bits l e Hok).
  destruct e; try done; [by apply accept_ok|by apply handshake_ends_ok|by apply disconnect_ok].
Qed.

(** All but the dials over TCP stay below the cap on links. *)
Definition capped (e : listen_event) : bool :=
  match e with DialCheck _ | DialCommit _ => false | _ => true end.

(** No peer is above the cap, and no dial over TCP is on its way to a link. *)
Definition below_cap (l : Listener) : Prop :=
  dialing l = [] ∧ ∀ k, live_links k l ≤ MAX_PARALLEL_LINKS_PER_PEER.

Lemma below_cap_le l l' :
  below_cap l → dialing l' = dialing l → (∀ k, live_links k l' ≤ live_links k l) → below_cap l'.
Proof. intros [Hd Hk] E Hle. split; [by rewrite E|]. intros k. specialize (Hk k). specialize (Hle k). lia. Qed.

Lemma below_cap_end i ip l l' x :
  below_cap l → dialing l' = dialing l → tasks l !! i = Some x → tasks l' = tasks l →
  dialed l' = dialed l → quic l' = quic l → below_cap (end_task i ip l').
Proof.
  intros Hb Hd Hx Et Ed Eq. apply (below_cap_le l (end_task i ip l') Hb Hd). intros k. unfold live_links. cbn.
  rewrite Et, Ed, Eq, (count_delete _ _ _ _ Hx). destruct (serves k x); lia.
Qed.

Lemma below_cap_up l l' k :
  below_cap l → dialing l' = dialing l → live_links k l < MAX_PARALLEL_LINKS_PER_PEER →
  (∀ k', live_links k' l' = live_links k' l + (if bool_decide (k = k') then 1 else 0)) → below_cap l'.
Proof.
  intros [Hd Hk] E Hlt Hup. split; [by rewrite E|]. intros k'. rewrite Hup. specialize (Hk k').
  case_bool_decide; subst; lia.
Qed.

Lemma capped_step `{Blake2} min_bits l e :
  listener_ok l → capped e = true → below_cap l → below_cap (listen_step min_bits l e).
Proof.
  intros [_ _ _ _ Hl] Hin Hb. destruct e as [ip|i remote|i| |i|i|k|i]; try done; cbn [listen_step].
  - repeat case_match; try done. apply (below_cap_le l); [done..|]. intros k. unfold live_links. cbn.
    rewrite (count_app _ (tasks l)), count_one. cbn. lia.
  - destruct (tasks l !! i) as [[ip|]|] eqn:Hx; [|done..].
    destruct remote as [k|]; [|by eapply below_cap_end]. destruct (too_easy min_bits k); [by eapply below_cap_end|].
    unfold link_up. cbn. rewrite Hl, counter_default.
    destruct (Z.leb_spec MAX_PARALLEL_LINKS_PER_PEER (live_links k l)); [by eapply below_cap_end|].
    apply (below_cap_up l _ k); try done. intros k'. unfold live_links. cbn.
    rewrite (count_insert _ _ _ _ _ Hx). cbn. lia.
  - destruct (tasks l !! i) as [[|ip k]|] eqn:Hx; [done| |done]. by eapply below_cap_end.
  - destruct (dialed l !! i) as [k|] eqn:Hx; [|done]. apply (below_cap_le l); [done..|]. intros k'.
    unfold live_links. cbn. rewrite !count_app, (count_delete _ _ _ _ Hx). case_bool_decide; lia.
  - unfold quic_link, link_up. rewrite Hl, counter_default. destruct (too_easy min_bits k); [done|].
    destruct (Z.leb_spec MAX_PARALLEL_LINKS_PER_PEER (live_links k l)); [done|].
    apply (below_cap_up l _ k); try done. intros k'. unfold live_links. cbn. rewrite !count_app, count_one. lia.
  - destruct (quic l !! i) as [k|] eqn:Hx; [|done]. apply (below_cap_le l); [done..|]. intros k'.
    unfold live_links. cbn. rewrite !count_app, (count_delete _ _ _ _ Hx). case_bool_decide; lia.
Qed.

Lemma listener_reachable `{Blake2} min_bits events : ∀ l,
  listener_ok l → listener_ok (foldl (listen_step min_bits) l events).
Proof. induction events as [|e events IH]; intros l Hok; [done|]. by apply IH, listen_step_ok. Qed.

Lemma capped_reachable `{Blake2} min_bits events : ∀ l,
  listener_ok l → forallb capped events = true → below_cap l →
  below_cap (foldl (listen_step min_bits) l events).
Proof.
  induction events as [|e events IH]; intros l Hok Hin Hb; [done|].
  apply andb_true_iff in Hin as [He Hin].
  apply IH; [by apply listen_step_ok|done|by apply capped_step].
Qed.

(** C34: the listener's books balance: after any sequence of accepted sockets, ended
    handshakes, disconnects, dials and QUIC links, at most 256 handshakes are pending and the
    free permits are the rest; the per-address counter is the number of the
    address's tasks and never more than four, where a task counts from the accept
    until its connection ends, not only while it shakes hands; the link counter of
    every peer is exactly the number of its live links over TCP and QUIC, without
    stale entries; and no peer has more than eight links, if none of them was dialled
    over TCP. *)
Theorem listener_accounting `{Blake2} min_bits events :
  let l := foldl (listen_step min_bits) new_listener events in
  permits l + count is_handshaking (tasks l) = MAX_PENDING_HANDSHAKES ∧ 0 ≤ permits l ∧
  (∀ ip, per_ip_counts l !! ip = counter (count (comes_from ip) (tasks l)) ∧
         count (comes_from ip) (tasks l) ≤ MAX_PER_IP_HANDSHAKES) ∧
  (∀ k, connected l !! k = counter (live_links k l)) ∧
  (forallb capped events = true → ∀ k, live_links k l ≤ MAX_PARALLEL_LINKS_PER_PEER).
Proof.
  assert (listener_ok new_listener) as H0 by (split; done). cbn zeta.
  destruct (listener_reachable min_bits events _ H0) as [Hp Hh Hc Hcap Hl].
  split_and!; [lia..|by intros ip|done|]. intros Hin. by apply (capped_reachable min_bits events _ H0 Hin).
Qed.

(** Dials over TCP check the cap and count their link in two steps, so that dials
    that check at the same time exceed it together. *)
Lemma tcp_dials_exceed_cap `{Blake2} :
  let k := fill 32 (u8 1) in
  let events := replicate 9 (DialCheck k) ++ replicate 9 (DialCommit 0) in
  live_links k (foldl (listen_step 0) new_listener events) = MAX_PARALLEL_LINKS_PER_PEER + 1.
Proof. by vm_compute. Qed.

(** ** The dial loop: proofs *)

Definition failed (x : dial_outcome * float) : bool := match x.1 with Served => false | _ => true end.

Lemma dial_inner_app max xs ys : ∀ d,
  dial_inner max (xs ++ ys) d = dial_inner max xs d ≫= dial_inner max ys.
Proof.
  induction xs as [|[o j] xs IH]; intros d; [done|]. cbn [app dial_inner].
  destruct (dial_iter max o j d) as [[? d']|]; [apply IH|done].
Qed.

(** One iteration that does not give up counts a failure, or starts over. *)
Lemma dial_iter_attempts m o j d :
  0 < m < 2 ^ 32 → 0 ≤ attempts d ≤ m →
  match dial_iter (Some m) o j d with
  | None => attempts d = m
  | Some (_, d') => attempts d < m ∧ attempts d' = if failed (o, j) then attempts d + 1 else 0
  end.
Proof.
  intros Hm Ha. unfold dial_iter. cbn [fmap option_fmap option_map default from_option id].
  destruct (Z.leb_spec m (attempts d)); [lia|].
  unfold wrap32. rewrite Z.mod_small by lia. by destruct o.
Qed.

Lemma dial_attempts_bounded m xs : ∀ d d',
  0 < m < 2 ^ 32 → 0 ≤ attempts d ≤ m → dial_inner (Some m) xs d = Some d' → 0 ≤ attempts d' ≤ m.
Proof.
  induction xs as [|[o j] xs IH]; intros d d' Hm Ha; cbn [dial_inner]; [by intros [= <-]|].
  pose proof (dial_iter_attempts m o j d Hm Ha) as Hi. destruct (dial_iter _ _ _ _) as [[? d1]|]; [|done].
  apply IH; [done|]. destruct (failed (o, j)); lia.
Qed.

Lemma dial_failing m xs : ∀ d d',
  0 < m < 2 ^ 32 → 0 ≤ attempts d ≤ m → forallb failed xs = true →
  dial_inner (Some m) xs d = Some d' → attempts d' = attempts d + len xs.
Proof.
  induction xs as [|[o j] xs IH]; intros d d' Hm Ha Hf; cbn [dial_inner].
  { intros [= <-]. change (len (@nil (dial_outcome * float))) with 0. lia. }
  apply andb_true_iff in Hf as [Hf Hfs]. rewrite len_cons.
  pose proof (dial_iter_attempts m o j d Hm Ha) as Hi. destruct (dial_iter _ _ _ _) as [[? d1]|]; [|done].
  rewrite Hf in Hi. intros Hd. apply IH in Hd; [lia|done|lia|done].
Qed.

Lemma dial_gave_up m xs : ∀ d,
  0 < m < 2 ^ 32 → 0 ≤ attempts d ≤ m → dial_inner (Some m) xs d = None →
  ∃ pre fails rest, xs = pre ++ fails ++ rest ∧ forallb failed fails = true ∧ rest ≠ [] ∧
    (len fails = m ∨ (pre = [] ∧ len fails = m - attempts d)).
Proof.
  induction xs as [|[o j] xs IH]; intros d Hm Ha; cbn [dial_inner]; [done|].
  pose proof (dial_iter_attempts m o j d Hm Ha) as Hi. destruct (dial_iter _ _ _ _) as [[? d1]|].
  - intros Hn. destruct (IH d1 Hm ltac:(destruct (failed (o, j)); lia) Hn)
      as (pre & fails & rest & -> & Hf & Hr & [Hl|[-> Hl]]).
    + exists ((o, j) :: pre), fails, rest. split_and!; try done. by left.
    + destruct (failed (o, j)) eqn:Hfo.
      * exists [], ((o, j) :: fails), rest. split_and!; try done.
        -- cbn [forallb]. by rewrite Hfo.
        -- right. split; [done|]. rewrite len_cons. lia.
      * exists [(o, j)], fails, rest. split_and!; try done. left. lia.
  - intros _. exists [], [], ((o, j) :: xs). split_and!; try done. right. split; [done|].
    change (len (@nil (dial_outcome * float))) with 0. lia.
Qed.

(** A dial for a configured peer never gives up, and a dial for an unauthenticated
    beacon gives up exactly after four failed attempts in a row: it has returned if
    and only if somewhere four consecutive attempts failed and another one was due.
    A peer that connects in between resets the count. *)
Theorem dial_gives_up xs :
  is_Some (dial xs) ∧
  (dial_discovered xs = None ↔
   ∃ pre fails rest, xs = pre ++ fails ++ rest ∧ forallb failed fails = true ∧
     len fails = DISCOVERY_DIAL_MAX_ATTEMPTS ∧ rest ≠ []).
Proof.
  split; [|split].
  - unfold dial. generalize new_dial. induction xs as [|[o j] xs IH]; intros d; [by eexists|].
    cbn [dial_inner]. destruct o; apply IH.
  - unfold dial_discovered. intros Hn.
    destruct (dial_gave_up 4 xs new_dial ltac:(lia) ltac:(cbn; lia) Hn)
      as (pre & fails & rest & -> & Hf & Hr & Hl). exists pre, fails, rest. split_and!; try done.
    by destruct Hl as [->|[_ ->]].
  - intros (pre & fails & rest & -> & Hf & Hl & Hr). unfold dial_discovered. rewrite app_assoc, !dial_inner_app.
    destruct (dial_inner _ pre new_dial) as [d|] eqn:Hd; [|done]. cbn [mbind option_bind].
    apply dial_attempts_bounded in Hd; [|done|cbn; unfold DISCOVERY_DIAL_MAX_ATTEMPTS; lia].
    destruct (dial_inner _ fails d) as [d'|] eqn:Hd'; [|done]. cbn [mbind option_bind].
    pose proof (dial_attempts_bounded DISCOVERY_DIAL_MAX_ATTEMPTS fails d d' ltac:(unfold DISCOVERY_DIAL_MAX_ATTEMPTS; lia) Hd Hd') as Hb.
    apply dial_failing in Hd'; [|done..]. destruct rest as [|[o j] rest]; [done|]. cbn [dial_inner].
    pose proof (dial_iter_attempts DISCOVERY_DIAL_MAX_ATTEMPTS o j d' ltac:(unfold DISCOVERY_DIAL_MAX_ATTEMPTS; lia) Hb) as Hi.
    destruct (dial_iter _ _ _ _) as [[? d1]|]; [lia|done].
Qed.

(** When two nodes dial each other at the same time, exactly one of the two links
    stays: the node with the larger key gives way to the other's dial.  A node whose
    peer has not reached it keeps its own dial whatever the keys, so that a peer that
    only listens is reached too. *)
Theorem crossing_dials `{Blake2} bits a b la lb :
  a ≠ b → too_easy bits a = false → too_easy bits b = false →
  default 0 (la !! b) < MAX_PARALLEL_LINKS_PER_PEER → default 0 (lb !! a) < MAX_PARALLEL_LINKS_PER_PEER →
  let dial_a reached := dial_attempt bits a (Some (Some b)) reached la in
  let dial_b reached := dial_attempt bits b (Some (Some a)) reached lb in
  (∀ ra rb : gmap bytes Z, 0 < default 0 (ra !! b) → 0 < default 0 (rb !! a) →
     (dial_a ra = Served ∧ dial_b rb = Yielded) ∨ (dial_a ra = Yielded ∧ dial_b rb = Served)) ∧
  (∀ ra : gmap bytes Z, ra !! b = None → dial_a ra = Served).
Proof.
  intros Hne Ha Hb Hla Hlb. unfold dial_attempt. rewrite Ha, Hb.
  replace (MAX_PARALLEL_LINKS_PER_PEER <=? default 0 (la !! b)) with false by lia.
  replace (MAX_PARALLEL_LINKS_PER_PEER <=? default 0 (lb !! a)) with false by lia. split.
  - intros ra rb Hra Hrb. replace (0 <? default 0 (ra !! b)) with true by lia.
    replace (0 <? default 0 (rb !! a)) with true by lia. rewrite !andb_true_r.
    destruct (bytes_ltb_total a b) as [|[Hlt|Hlt]]; [done|..];
      rewrite Hlt, (bytes_ltb_asym _ _ Hlt); [by left|by right].
  - intros ra ->. by rewrite andb_false_r.
Qed.

Section TransportWitness.
Import Toy.
Let skA := fill 32 (u8 1).
Let skB := fill 32 (u8 2).
Let tA := fill 16 (u8 3).
Let tB := fill 16 (u8 4).
Let nA := fill 32 (u8 5).
Let nB := fill 32 (u8 6).
Let key := Some (fill 32 (u8 7)).
Let mA := nrn1_messages skA nA (ed_public skB) nB.
Let mB := nrn1_messages skB nB (ed_public skA) nA.

Lemma nrn1_completes_witness :
  secure_link key tA skA nA (on_wire key tB (mB ++ bstr "frames"))
    = (on_wire key tA mA, Ok (ed_public skB, bstr "frames")) ∧
  secure_link key tB skB nB (on_wire key tA (mA ++ [])) = (on_wire key tB mB, Ok (ed_public skA, [])).
Proof. apply (nrn1_completes key tA tB skA skB nA nB [] (bstr "frames")); by vm_compute. Defined.

Lemma nrn1_authenticates_witness : ed_public skB ≠ ed_public skA ∧ ed_valid (ed_public skB) = true.
Proof.
  destruct (nrn1_authenticates key tA skA nA (on_wire key tB (mB ++ [])) (on_wire key tA mA) (ed_public skB) [])
    as (Hne & Hv & _); [by vm_compute|]. by split.
Defined.

Lemma crossing_dials_witness :
  let dial_a reached := dial_attempt 0 (bstr "a") (Some (Some (bstr "b"))) reached ∅ in
  let dial_b reached := dial_attempt 0 (bstr "b") (Some (Some (bstr "a"))) reached ∅ in
  (dial_a {[ bstr "b" := 1 ]} = Served ∧ dial_b {[ bstr "a" := 1 ]} = Yielded) ∨
  (dial_a {[ bstr "b" := 1 ]} = Yielded ∧ dial_b {[ bstr "a" := 1 ]} = Served).
Proof.
  apply (crossing_dials 0 (bstr "a") (bstr "b") ∅ ∅); by vm_compute.
Defined.
End TransportWitness.
