(* ===== verification/Discovery.v ===== *)
(** * Discovery on the local network

    [src/discovery.rs] and [src/mdns.rs]: the beacon, what a received datagram leads
    to, and what a resolved mDNS service leads to.  The sockets and the mDNS daemon
    are outside; what they hand over are arguments, and a dial is the URI given to
    [dial_discovered]. *)

From S2P Require Import Prelude Collections Floats Crypto Hyperbolic Packet Address Text Router Conn Transport.
Import RouterState.

(** [std::net::IpAddr] *)
Inductive IpAddr := V4 (octets : bytes) | V6 (octets : bytes).

Definition to_ipv6 (ip : IpAddr) : bytes :=
  match ip with
  | V6 ip => ip
  | V4 ip => fill 10 (u8 0) ++ [u8 255; u8 255] ++ ip
  end.
Definition is_loopback6 (ip : bytes) : bool := bool_decide (ip = fill 15 (u8 0) ++ [u8 1]).

(** ** Multicast beacons *)

Definition BEACON_MAGIC : bytes := bstr "NORN".
Definition beacon (our_pub : bytes) (port : Z) : bytes := BEACON_MAGIC ++ our_pub ++ to_le_bytes 2 port.

(** What the receiver reads of a datagram. *)
Definition RECV_BUF : nat := 256.

(** The loop's body after a datagram: the URI it dials. *)
Definition receive_beacon (peer_keys : list bytes) (our_pub datagram : bytes) (src : IpAddr) : res (option bytes) :=
  let data := take RECV_BUF datagram in
  if (len data <? 4 + 32 + 2) || negb (bool_decide (take 4 data = BEACON_MAGIC)) then Ok None else
  remote_pub ← slice data 4 36;
  b36 ← index data 36;
  b37 ← index data 37;
  let port := from_le_bytes [b36; b37] in
  if bool_decide (remote_pub = our_pub) then Ok None else
  if bool_decide (remote_pub ∈ peer_keys) then Ok None else
  let src_ip := to_ipv6 src in
  let src_ip_str := if is_loopback6 src_ip then bstr "127.0.0.1" else ipv6_string src_ip in
  Ok (Some (bstr "tcp://[" ++ src_ip_str ++ bstr "]:" ++ decimal port)).

(** The receiver of a node. *)
Definition on_datagram `{Channels} (env : Env) (c : PacketConn.t) (datagram : bytes) (src : IpAddr) : res (option bytes) :=
  receive_beacon (map key (get_peer_stats env (PacketConn.inner c))) (PacketConn.pub_key c) datagram src.

(** ** mDNS *)

Section Mdns.
Context `{Hex}.

(** A resolved service: its [pub_key] property, its port, and its addresses in the
    order of their set. *)
Record ServiceInfo := { txt_pub_key : option bytes; service_port : Z; addresses : list IpAddr }.

Definition is_ipv6 (a : IpAddr) : bool := match a with V6 _ => true | V4 _ => false end.

Definition decode_key (text : bytes) : option bytes :=
  key ← hex_decode text; if len key =? 32 then Some key else None.

Definition handle_event (info : ServiceInfo) (connected : gmap bytes Z) (our_pub_hex : bytes) : option bytes :=
  pub_hex ← txt_pub_key info;
  if bool_decide (pub_hex = our_pub_hex) then None else
  pub_bytes ← decode_key pub_hex;
  if bool_decide (is_Some (connected !! pub_bytes)) then None else
  let port := service_port info in
  addr_choice ← (match filter (λ a, is_ipv6 a = true) (addresses info) with
                 | a :: _ => Some a
                 | [] => head (addresses info)
                 end);
  Some (match addr_choice with
        | V4 v4 => bstr "tcp://" ++ ipv4_string v4 ++ colon :: decimal port
        | V6 v6 => bstr "tcp://[" ++ ipv6_string v6 ++ bstr "]:" ++ decimal port
        end).
End Mdns.

(** [hostname_label] from the name the system gives, if it gives one; it keeps the
    ASCII letters, digits and dashes. *)
Definition label_char (b : byte) : bool :=
  let c := uz b in
  ((48 <=? c) && (c <=? 57)) || ((65 <=? c) && (c <=? 90)) || ((97 <=? c) && (c <=? 122)) || (c =? 45).
Definition hostname_label (raw : option bytes) : bytes :=
  let cleaned := filter (λ b, label_char b = true) (default [] raw) in
  if bool_decide (cleaned = []) then bstr "norn" else cleaned.

(** ** Properties *)

Lemma hostname_label_safe raw : hostname_label raw ≠ [] ∧ Forall (λ b, label_char b = true) (hostname_label raw).
Proof.
  unfold hostname_label. case_bool_decide as E; [by vm_compute; repeat constructor|]. split; [done|].
  apply Forall_forall. by intros b [? _]%list_elem_of_filter.
Qed.

(** The URI of a node at [ip]. *)
Definition node_uri (ip : bytes) (port : Z) : bytes :=
  bstr "tcp://[" ++ (if is_loopback6 ip then bstr "127.0.0.1" else ipv6_string ip) ++ bstr "]:" ++ decimal port.

(** A beacon is taken apart as it was put together. *)
Lemma beacon_parts pub port extra :
  len pub = 32 → 0 ≤ port < 65536 →
  let data := beacon pub port ++ extra in
  (len data <? 4 + 32 + 2) = false ∧ take 4 data = BEACON_MAGIC ∧ slice data 4 36 = Ok pub ∧
  ∃ b36 b37, index data 36 = Ok b36 ∧ index data 37 = Ok b37 ∧ from_le_bytes [b36; b37] = port.
Proof.
  intros Hl Hp data. pose proof (len_le_split 2 port) as H2.
  pose proof (from_to_le 2 port Hp) as Hft. destruct (to_le_bytes 2 port) as [|b36 [|b37 [|]]] eqn:E; try done.
  assert (data = BEACON_MAGIC ++ pub ++ [b36; b37] ++ extra) as Ed.
  { unfold data, beacon. by rewrite E, <- !(assoc_L (++)). }
  rewrite Ed. split_and!; [|done| |].
  - apply Z.ltb_ge. rewrite !len_app. change (len BEACON_MAGIC) with 4. rewrite Hl. len_lia.
  - rewrite slice_drop by done. by apply slice_take.
  - exists b36, b37. rewrite !(index_app BEACON_MAGIC) by (vm_compute; done). change (len BEACON_MAGIC) with 4.
    rewrite !(index_app pub) by lia. rewrite Hl. split_and!; [apply index_0| |done].
    change ([b36; b37] ++ extra) with ([b36] ++ b37 :: extra). rewrite index_app by done. apply index_0.
Qed.

Lemma beacon_shape (data : bytes) :
  38 ≤ len data → take 4 data = BEACON_MAGIC →
  ∃ pub port extra, data = beacon pub port ++ extra ∧ len pub = 32 ∧ 0 ≤ port < 65536.
Proof.
  intros Hl Hm. set (p2 := take 2 (drop 36 data)).
  assert (len p2 = 2) as H2 by (unfold p2, len in *; rewrite length_take, length_drop; lia).
  exists (take 32 (drop 4 data)), (from_le_bytes p2), (drop 38 data). split_and!.
  - unfold beacon. rewrite (to_from_le 2 p2 H2), <- Hm, <- !(assoc_L (++)). unfold p2.
    rewrite <- (take_drop 4 data) at 1. f_equal. rewrite <- (take_drop 32 (drop 4 data)) at 1. f_equal.
    rewrite drop_drop. rewrite <- (take_drop 2 (drop (4 + 32) data)) at 1. by rewrite drop_drop.
  - unfold len in *. rewrite length_take, length_drop. lia.
  - apply from_le_range.
  - pose proof (from_le_range p2) as Hr. rewrite H2 in Hr. apply Hr.
Qed.


(** The URI of a discovered node names its address: it is one that [dial] takes, and
    an address that is neither the loopback one nor a mapped one is read back. *)
Lemma node_uri_dialable ip port :
  len ip = 16 → is_loopback6 ip = false → mapped_v4 ip = None →
  ∃ host, parse_tcp_uri (node_uri ip port) = Ok (bstr "[" ++ host ++ bstr "]:" ++ decimal port) ∧
    read_ipv6 host = Some ip.
Proof.
  intros Hl Hlo Hm. exists (ipv6_string ip). split; [|by apply ipv6_string_read].
  unfold parse_tcp_uri, node_uri. rewrite Hlo. change (bstr "tcp://[" ++ ?x) with (bstr "tcp://" ++ bstr "[" ++ x).
  by rewrite strip_prefix_app.
Qed.

(** A beacon from the loopback address gives a URI with an IPv4 address in the
    brackets of an IPv6 one. *)
Lemma loopback_uri port : node_uri (fill 15 (u8 0) ++ [u8 1]) port = bstr "tcp://[127.0.0.1]:" ++ decimal port.
Proof. unfold node_uri. by rewrite (eq_refl : is_loopback6 (fill 15 (u8 0) ++ [u8 1]) = true). Qed.

(** mDNS never dials a connected peer or its own announcement, and takes an IPv6
    address when there is one. *)
Lemma mdns_dials `{Hex} info connected our_hex uri :
  handle_event info connected our_hex = Some uri →
  ∃ text key, txt_pub_key info = Some text ∧ text ≠ our_hex ∧ hex_decode text = Some key ∧ len key = 32 ∧
    connected !! key = None ∧
    ∃ a, a ∈ addresses info ∧ (is_ipv6 a = true ∨ Forall (λ a, is_ipv6 a = false) (addresses info)).
Proof.
  unfold handle_event, decode_key. destruct (txt_pub_key info) as [text|]; [|done]. cbn [mbind option_bind].
  case_bool_decide as Ht; [done|]. destruct (hex_decode text) as [key|] eqn:Ek; [|done]. cbn [mbind option_bind].
  destruct (Z.eqb_spec (len key) 32) as [Hl|]; [|done]. cbn [mbind option_bind].
  case_bool_decide as Hc; [done|]. intros Hd. exists text, key.
  rewrite <- eq_None_not_Some in Hc. split_and!; try done.
  destruct (filter _ (addresses info)) as [|a l] eqn:Ef.
  - destruct (addresses info) as [|a l] eqn:Ea; [done|]. exists a. split; [set_solver|]. right.
    apply Forall_forall. intros b Hb. destruct (is_ipv6 b) eqn:Eb; [|done].
    assert (b ∈ filter (λ a, is_ipv6 a = true) (a :: l)) as Hin by (by apply list_elem_of_filter).
    rewrite Ef in Hin. by apply elem_of_nil in Hin.
  - assert (a ∈ filter (λ a, is_ipv6 a = true) (addresses info)) as [? ?]%list_elem_of_filter
      by (rewrite Ef; set_solver). exists a. auto.
Qed.
