(* ===== verification/Delivery.v ===== *)
(** * Delivery

    The parts of the node put together: a payload written by one node reaches the
    application of another through any routers on the way. *)

From Stdlib Require Import Floats.SpecFloat.
From S2P Require Import Prelude Collections Xor Floats Crypto Hyperbolic Varint Cuckoo Packet.
From S2P Require Import Header Address SessionWire Session SessionManager Onion Sphinx Obfs.
From S2P Require Import Router Routing Handlers Conn RouterToy RouterProps RoutingProps.
Import RouterState.

Section Delivery.
Context `{Channels} `{Libm} `{Blake2Laws} `{Blake2Mac} `{ChaCha20} `{Sha512} `{X25519Laws} `{Hkdf}
  `{AeadLaws} `{Ed25519Laws} `{MlDsa} `{MlKem} `{!EdXLaws}.

(** The routers on a way, each with the neighbour it gets the frame from. *)
Abbreviation way := (list (Env * bytes * t)).

(** The frame that arrives at the end of a way, unless a router drops it. *)
Fixpoint carried (frame : bytes) (route : way) : option bytes :=
  match route with
  | [] => Some frame
  | (env, from, s) :: route => relayed env from frame s ≫= λ frame', carried frame' route
  end.

(** One payload: where and when it is written, the way of its frame, and where and
    when it arrives. *)
Record Transfer := {
  tx_env : Env; tx_payload : bytes; tx_route : way; rx_from : bytes; rx_env : Env }.

(** Node [c] writes the payload to router [b]; the frame it offers to its links, if
    any, is carried to [b], which dispatches it.  The payload is part of the result
    when its frame arrives. *)
Definition transfer (x : Transfer) (c : PacketConn.t) (b : t) : res (PacketConn.t * t * list bytes) :=
  let '(_, c') := PacketConn.write_to (tx_env x) (tx_payload x) (pub_key b) c in
  match head (offered (PacketConn.inner c) (PacketConn.inner c')) ≫= λ f, carried f (tx_route x) with
  | Some frame => b' ← dispatch (rx_env x) (rx_from x) frame b; Ok (c', b', [tx_payload x])
  | None => Ok (c', b, [])
  end.

Fixpoint transfers (xs : list Transfer) (c : PacketConn.t) (b : t)
    : res (PacketConn.t * t * list bytes) :=
  match xs with
  | [] => Ok (c, b, [])
  | x :: xs =>
      '(c, b, got) ← transfer x c b;
      '(c, b, gots) ← transfers xs c b;
      Ok (c, b, got ++ gots)
  end.

(** [a] can write to [b]: the two ends share their keys, and [b] has not seen the
    next number of [a]. *)
Record can_talk (a b : SessionInfo) : Prop := {
  ct_established : established a = true;
  ct_paired : paired a b;
  ct_cache : cache_ok b;
  ct_base : local_x25519_pub b = x25519_base (local_x25519_priv b);
  ct_seq : 0 ≤ local_seq a;
  ct_high : remote_seq_high b ≤ local_seq a;
  ct_fresh : window_check (remote_seq_high b) (remote_seq_window b) (local_seq a) = Ok tt }.

(** A node with no crypto pool and a router that have an established session. *)
Record connected (c : PacketConn.t) (b : t) (sa sb : SessionInfo) : Prop := {
  co_own : PacketConn.pub_key c = pub_key (PacketConn.inner c);
  co_len : len (PacketConn.pub_key c) = 32;
  co_pool : PacketConn.crypto_pool c = None;
  co_key : pub_key b = ed_public (signing_key b);
  co_here : SessionManager.sessions (sessions (PacketConn.inner c)) !! pub_key b = Some sa;
  co_there : SessionManager.sessions (sessions b) !! PacketConn.pub_key c = Some sb;
  co_talk : can_talk sa sb }.

(** ** One packet *)

Lemma talk_step now now' pt a b :
  can_talk a b → local_seq a + 1 < 2 ^ 64 → len pt ≤ AEAD_MAX →
  ∃ ct a' b', Session.encrypt false now pt a = (Ok ct, a') ∧ Session.decrypt now' ct b = (Ok pt, b') ∧
    len ct = len pt + 56 ∧ local_seq a' = local_seq a + 1 ∧ can_talk a' b' ∧ can_talk a' b.
Proof.
  intros [He Hp Hc Hb Hs Hh Hf] Hlt Hl.
  destruct (packet_roundtrip false now now' pt a b Hp Hc Hb ltac:(lia) Hlt Hl Hf)
    as (ct & a' & b' & E1 & E2 & Hsa & Hp1 & Hp2 & He' & Hlen & Hh' & Hp3).
  exists ct, a', b'. split_and!; try done; split; try done; try lia; try congruence.
  - by apply p_cache in Hp2.
  - by apply p_pub in Hp2.
  - unfold window_check. unfold WINDOW, sat_sub. by do 2 test_false.
  - unfold window_check. unfold WINDOW, sat_sub. by do 2 test_false.
Qed.

Lemma carried_content route : ∀ frame tr frame',
  Frame.decode frame = Ok (Frame.ATraffic tr) → Traffic.ok tr →
  Forall (λ r, len (pub_key r.2) = 32) route →
  carried frame route = Some frame' →
  ∃ tr', Frame.decode frame' = Ok (Frame.ATraffic tr') ∧
    Traffic.enc_header tr' = Traffic.enc_header tr ∧
    Traffic.routing_tag tr' = Traffic.routing_tag tr ∧
    Traffic.pkt_type tr' = Traffic.pkt_type tr ∧ Traffic.payload tr' = Traffic.payload tr.
Proof.
  induction route as [|[[env from] s] route IH]; intros frame tr frame' Hd Hok Hr; cbn [carried].
  - intros [= <-]. by exists tr.
  - apply Forall_cons in Hr as [Hk Hr]. cbn in Hk. intros (f1 & Hrel & Hc)%bind_Some.
    apply relayed_decodes in Hrel as (tr' & Hd' & _ & Hw & -> & _).
    rewrite Hd in Hd'. injection Hd' as <-.
    destruct (forwarded_ok (pub_key s) tr Hok Hk Hw) as [Hok' _].
    by apply (IH _ _ _ (traffic_frame _ Hok') Hok' Hr Hc).
Qed.

(** A data packet for [s] that its session decrypts is delivered. *)
Lemma traffic_delivered env from s tr src info padded payload info' :
  Traffic.routing_tag tr = routing_tag (pub_key s) → Traffic.pkt_type tr = u8 PKT_DATA →
  decrypt_source_from_header (Traffic.enc_header tr) (signing_key s) = Some src →
  SessionManager.sessions (sessions s) !! src = Some info →
  Session.decrypt (now_ms env) (Traffic.payload tr) info = (Ok padded, info') →
  unpad_payload padded = Ok payload →
  ∃ s', handle_traffic env from tr s = Ok s' ∧
    io s' = io s ++ [Delivered src payload (traffic_try_send (io s) src payload)] ∧
    pub_key s' = pub_key s ∧ signing_key s' = signing_key s ∧
    SessionManager.sessions (sessions s') = <[src := info']> (SessionManager.sessions (sessions s)).
Proof.
  intros Ht Hp Hsrc Hinfo Hdec Hun.
  unfold handle_traffic. fold (counted env from tr s).
  change (pub_key (counted env from tr s)) with (pub_key s).
  unfold routing_tag_eq. rewrite Ht, bool_decide_true, Hp by done.
  change (uz (u8 PKT_DATA)) with PKT_DATA. cbn match beta.
  unfold handle_data. change (signing_key (counted env from tr s)) with (signing_key s). rewrite Hsrc.
  unfold with_sessions, decrypt_from. change (sessions (counted env from tr s)) with (sessions s).
  unfold get, put, lift, mbind, st_bind, SessionManager.get_session. cbn -[Session.decrypt].
  rewrite Hinfo. cbn -[Session.decrypt]. rewrite Hdec. cbn. rewrite Hun.
  eexists. split; [reflexivity|]. done.
Qed.

(** What arrives of such a packet at the end of a way is delivered. *)
Lemma carried_delivered env from route frame s tr src info padded payload info' :
  Traffic.ok tr → Forall (λ r, len (pub_key r.2) = 32) route →
  carried (Traffic.encode tr) route = Some frame →
  Traffic.routing_tag tr = routing_tag (pub_key s) → Traffic.pkt_type tr = u8 PKT_DATA →
  decrypt_source_from_header (Traffic.enc_header tr) (signing_key s) = Some src →
  SessionManager.sessions (sessions s) !! src = Some info →
  Session.decrypt (now_ms env) (Traffic.payload tr) info = (Ok padded, info') →
  unpad_payload padded = Ok payload →
  ∃ s', dispatch env from frame s = Ok s' ∧
    io s' = io s ++ [Delivered src payload (traffic_try_send (io s) src payload)] ∧
    pub_key s' = pub_key s ∧ signing_key s' = signing_key s ∧
    SessionManager.sessions (sessions s') = <[src := info']> (SessionManager.sessions (sessions s)).
Proof.
  intros Hok Hr Hcar. destruct (carried_content _ _ _ _ (traffic_frame _ Hok) Hok Hr Hcar)
    as (tr' & Hd & <- & <- & <- & <-).
  intros. unfold dispatch. rewrite Hd. by eapply traffic_delivered.
Qed.

Lemma send_to_peer_keeps env k data s :
  pub_key (send_to_peer env k data s) = pub_key s ∧ sessions (send_to_peer env k data s) = sessions s.
Proof. unfold send_to_peer. repeat case_match; done. Qed.

Lemma padded_payload payload :
  len payload ≤ U16_MAX →
  ∃ padded, pad_payload false payload = Ok padded ∧ unpad_payload padded = Ok payload ∧ len padded ≤ 66000.
Proof.
  intros Hl. pose proof (unpad_pad_small false payload Hl) as Hu.
  destruct (pad_payload_small false payload Hl) as (pad & E & Hlen). rewrite E, bind_Ok in Hu.
  exists (u8 (Z.land (len payload) 0xFF) :: u8 (Z.shiftr (len payload) 8) :: payload ++ pad).
  split_and!; [done..|]. len_pos.
  pose proof (div_ceil_bounds (len payload + 2) PAD_BLOCK ltac:(done) ltac:(lia)).
  unfold U16_MAX, PAD_BLOCK in *. len_lia.
Qed.

(** The packet of a write, and the router once the session has encrypted it. *)
Definition packet_of (own dst h ct : bytes) (s : t) : Traffic.t :=
  Traffic.mk [] own h (routing_tag dst) (u8 PKT_DATA) (HypCoord.encode <$> coord_table s !! dst) 0 ct.
Definition encrypted (dst : bytes) (sa : SessionInfo) (s : t) : t :=
  let sm := sessions s in
  s <| sessions := sm <| SessionManager.sessions := <[dst := sa]> (SessionManager.sessions sm) |> |>.
Definition sent_on (env : Env) (dst : bytes) (tr : Traffic.t) (s : t) : t :=
  match lookup env s dst with
  | Some hop => send_to_peer env hop (Traffic.encode tr) s
  | None => s
  end.

Lemma packet_ok own dst h ct s :
  len own = 32 → len h = 128 → len ct ≤ 67000 → Traffic.ok (packet_of own dst h ct s).
Proof.
  intros. unfold Traffic.ok, packet_of. cbn. unfold routing_tag. rewrite blake2b_len.
  split_and!; try done; [|unfold ISIZE_MAX; lia].
  intros co (hc & _ & ->)%fmap_Some. unfold HypCoord.encode. by rewrite len_app, !len_le_split.
Qed.

Lemma dispatch_eval env own payload dst s padded sa ct sa' h :
  SessionManager.sessions (sessions s) !! dst = Some sa →
  pad_payload false payload = Ok padded →
  Session.encrypt false (now_ms env) padded sa = (Ok ct, sa') →
  encrypt_header (header_priv env dst) own dst = Ok (h, routing_tag dst) →
  ∃ r, encrypt_and_dispatch env own payload dst s
         = (r, sent_on env dst (packet_of own dst h ct s) (encrypted dst sa' s)) ∧
       r = match lookup env (encrypted dst sa' s) dst with Some _ => Ok tt | None => Err "no route" end.
Proof.
  intros Hs Hp He Hh. unfold encrypt_and_dispatch, get, put, lift, fail, mbind, st_bind.
  rewrite Hp. unfold SessionManager.get_session. rewrite Hs. cbn -[Session.encrypt encrypt_header lookup].
  rewrite He, Hh. cbn -[lookup]. unfold sent_on. fold (encrypted dst sa' s).
  by destruct (lookup env (encrypted dst sa' s) dst) as [hop|]; eexists.
Qed.

Lemma write_eval env payload dst c sa :
  PacketConn.crypto_pool c = None →
  SessionManager.sessions (sessions (PacketConn.inner c)) !! dst = Some sa → established sa = true →
  PacketConn.write_to env payload dst c
    = PacketConn.on_inner (encrypt_and_dispatch env (PacketConn.pub_key c) payload dst) c.
Proof.
  intros Hpool Hs He. unfold PacketConn.write_to.
  destruct (ensure_established env dst c sa Hs He) as [_ E].
  rewrite (st_bind_Ok _ _ _ _ _ E). unfold get, put, mbind, st_bind. rewrite Hpool. by destruct c; cbn in *; subst.
Qed.

(** What a write to [b] leaves on the links of [c], and the state of [c] after it. *)
Lemma write_step env env' payload c b sa sb :
  connected c b sa sb → len payload ≤ U16_MAX → local_seq sa + 1 < 2 ^ 64 →
  ∃ tr padded sa' sb',
    let c' := (PacketConn.write_to env payload (pub_key b) c).2 in
    (∀ f, f ∈ offered (PacketConn.inner c) (PacketConn.inner c') → f = Traffic.encode tr) ∧
    Traffic.ok tr ∧ Traffic.routing_tag tr = routing_tag (pub_key b) ∧
    Traffic.pkt_type tr = u8 PKT_DATA ∧
    decrypt_source_from_header (Traffic.enc_header tr) (signing_key b) = Some (PacketConn.pub_key c) ∧
    Session.decrypt (now_ms env') (Traffic.payload tr) sb = (Ok padded, sb') ∧
    unpad_payload padded = Ok payload ∧
    PacketConn.pub_key c' = PacketConn.pub_key c ∧ connected c' b sa' sb ∧
    can_talk sa' sb' ∧ local_seq sa' = local_seq sa + 1 ∧
    no_panic (PacketConn.write_to env payload (pub_key b) c).1.
Proof.
  intros [Hown Hlen Hpool Hkey Hhere Hthere Htalk] Hpl Hseq.
  destruct (padded_payload payload Hpl) as (padded & Ep & Eu & Hpad).
  destruct (talk_step (now_ms env) (now_ms env') padded sa sb Htalk Hseq) as
    (ct & sa' & sb' & Ee & Ed & Hct & Hs' & Ht1 & Ht2).
  { unfold AEAD_MAX. lia. }
  destruct (header_roundtrip (header_priv env (pub_key b)) (PacketConn.pub_key c) (signing_key b) Hlen)
    as (h & Eh & Hh & Esrc & _). rewrite <- Hkey in Eh.
  destruct (dispatch_eval env _ _ _ _ _ _ _ _ _ Hhere Ep Ee Eh) as (r & Er & Hr).
  exists (packet_of (PacketConn.pub_key c) (pub_key b) h ct (PacketConn.inner c)), padded, sa', sb'.
  rewrite (write_eval _ _ _ _ _ Hpool Hhere (ct_established _ _ Htalk)).
  unfold PacketConn.on_inner. rewrite Er. cbn zeta. cbn [fst snd].
  set (s1 := encrypted _ _ _). set (tr := packet_of _ _ _ _ _).
  assert (pub_key (sent_on env (pub_key b) tr s1) = pub_key (PacketConn.inner c) ∧
          sessions (sent_on env (pub_key b) tr s1) = sessions s1) as [Hk Hss].
  { unfold sent_on. destruct (lookup _ _ _) as [hop|]; [|done]. by destruct (send_to_peer_keeps env hop (Traffic.encode tr) s1). }
  split_and!; try done.
  - intros f. change (offered (PacketConn.inner c)) with (offered s1). cbn [PacketConn.inner set_field PacketConn.set_inner].
    unfold sent_on. destruct (lookup _ _ _); [apply offered_send|].
    unfold offered. rewrite drop_all. by intros ?%not_elem_of_nil.
  - apply packet_ok; [done..|lia].
  - split; cbn; try done; [congruence|]. rewrite Hss. cbn. apply lookup_insert_eq.
  - rewrite Hr. by destruct (lookup _ _ _).
Qed.

(** ** The claims *)

(** What [b] learns of the transfers that arrive. *)
Definition deliveries (src : bytes) (payloads : list bytes) (oks : list bool) : list io_event :=
  zip_with (Delivered src) payloads oks.

Lemma transfer_step x c b sa sb :
  connected c b sa sb → len (tx_payload x) ≤ U16_MAX → local_seq sa + 1 < 2 ^ 64 →
  Forall (λ r, len (pub_key r.2) = 32) (tx_route x) →
  ∃ c' b' got oks sa' sb', transfer x c b = Ok (c', b', got) ∧ connected c' b' sa' sb' ∧
    length oks = length got ∧
    io b' = io b ++ deliveries (PacketConn.pub_key c) got oks ∧
    PacketConn.pub_key c' = PacketConn.pub_key c ∧ local_seq sa' = local_seq sa + 1.
Proof.
  intros Hc Hl Hs Hr.
  destruct (write_step (tx_env x) (rx_env x) _ c b sa sb Hc Hl Hs)
    as (tr & padded & sa' & sb' & Hoff & Hok & Htag & Hty & Hsrc & Hdec & Hun & Hpk & Hcon & Htalk & Hseq & _).
  unfold transfer. destruct (PacketConn.write_to _ _ _ _) as [r c'] eqn:Ew. cbn [snd] in *.
  destruct (head _ ≫= _) as [frame|] eqn:Eh.
  - apply bind_Some in Eh as (f & Hf%head_Some_elem_of & Hcar). apply Hoff in Hf as ->.
    destruct (carried_delivered (rx_env x) (rx_from x) _ _ _ _ _ _ _ _ _ Hok Hr Hcar Htag Hty Hsrc
      (co_there _ _ _ _ Hc) Hdec Hun) as (b' & Hb & Hio & Hp & Hsk & Hss).
    rewrite Hb, bind_Ok. eexists c', b', _, [_], sa', sb'. split_and!; try done.
    destruct Hcon. split; try congruence.
    rewrite Hss, Hpk. apply lookup_insert_eq.
  - eexists c', b, [], [], sa', sb. split_and!; try done. by rewrite app_nil_r.
Qed.

Lemma deliveries_app src p1 p2 o1 o2 :
  length o1 = length p1 →
  deliveries src (p1 ++ p2) (o1 ++ o2) = deliveries src p1 o1 ++ deliveries src p2 o2.
Proof. intros. by apply zip_with_app. Qed.

Lemma transfers_delivered xs : ∀ c b sa sb,
  connected c b sa sb → local_seq sa + len xs < 2 ^ 64 →
  Forall (λ x, len (tx_payload x) ≤ U16_MAX ∧ Forall (λ r, len (pub_key r.2) = 32) (tx_route x)) xs →
  ∃ c' b' got oks, transfers xs c b = Ok (c', b', got) ∧ got `sublist_of` map tx_payload xs ∧
    length oks = length got ∧ io b' = io b ++ deliveries (PacketConn.pub_key c) got oks.
Proof.
  induction xs as [|x xs IH]; intros c b sa sb Hc Hs Hf; cbn [transfers map].
  - exists c, b, [], []. split_and!; try done. by rewrite app_nil_r.
  - apply Forall_cons in Hf as [[Hl Hr] Hf]. rewrite len_cons in Hs. len_pos.
    destruct (transfer_step x c b sa sb Hc Hl ltac:(lia) Hr)
      as (c1 & b1 & got & oks & sa1 & sb1 & Et & Hc1 & Ho & Hio & Hpk & Hq).
    destruct (IH c1 b1 sa1 sb1 Hc1 ltac:(lia) Hf) as (c2 & b2 & gots & okss & Es & Hsub & Hos & Hios).
    rewrite Et, bind_Ok, Es, bind_Ok. exists c2, b2, (got ++ gots), (oks ++ okss).
    assert (got = [] ∨ got = [tx_payload x]) as Hg.
    { revert Et. unfold transfer. destruct (PacketConn.write_to _ _ _ _) as [r c'].
      destruct (head _ ≫= _); [|intros [= <- <- <-]; by left].
      destruct (dispatch _ _ _ _); [|done..]. rewrite bind_Ok. intros [= <- <- <-]. by right. }
    split_and!; try done.
    + destruct Hg as [-> | ->]; cbn; by constructor.
    + by rewrite !length_app, Ho, Hos.
    + by rewrite Hios, Hio, Hpk, deliveries_app, app_assoc.
Qed.

End Delivery.

(** ** A concrete network *)

Module ToyNet.
Export ToyRouter.

Definition node (sk : bytes) : t := Router.new env sk (fill 64 (u8 1)) (fill 32 (u8 2)).
(** The filter of a neighbour that claims [key], and a router that hears a frame. *)
Definition claims (key : bytes) : bytes :=
  CuckooMsg.encode (CuckooMsg.mk (u8 0) 1
    (CuckooFilter.encode (snd (CuckooFilter.add true (λ _, 0%fin) CuckooFilter.new (routing_tag key))))).
Definition hears (from frame : bytes) (s : t) : t :=
  match dispatch env from frame s with Ok s => s | _ => s end.

(** The two ends of a session between [me] and [b]. *)
Definition end_of (remote priv remote_priv : bytes) : SessionInfo :=
  (SessionInfo_new 0 remote priv (x25519_base remote_priv)) <| established := true |>.
Definition priv1 := fill 32 (u8 21).
Definition priv2 := fill 32 (u8 22).
Definition sa := end_of key_b priv1 priv2.
Definition sb := end_of key_me priv2 priv1.

(** Node [me] reaches [b] over router [a]. *)
Definition c : PacketConn.t :=
  PacketConn.with_inner
    (λ s, encrypted key_b sa (hears key_a (claims key_b) (add_peer env key_a 1 0 s)))
    (PacketConn.new env sk_me (fill 64 (u8 1)) (fill 32 (u8 2))).
Definition a : t := hears key_b (claims key_b) (add_peer env key_b 2 0 (add_peer env key_me 1 0 (node sk_a))).
Definition b : t := encrypted key_me sb (add_peer env key_a 1 0 (node sk_b)).

Lemma toy_talk : can_talk sa sb.
Proof. split; [done| |by intros ? [=]|done..]. split; [done..|by intros ? [=]]. Qed.
Lemma toy_connected : connected c b sa sb.
Proof. split; [by vm_compute..|]. apply toy_talk. Qed.
End ToyNet.

Section DeliveryWitness.
Import ToyNet.

Let x (payload : bytes) (route : list (Env * bytes * t)) : Transfer :=
  {| tx_env := env; tx_payload := payload; tx_route := route; rx_from := key_a; rx_env := env |}.
Let xs := [x (bstr "one") [(env, key_me, a)]; x (bstr "lost") [(env, key_b, a)]; x (bstr "two") [(env, key_me, a)]].

End DeliveryWitness.
