(* ===== verification/ColdStart.v ===== *)
(** * Cold start

    Two nodes without a session: the first write fails and starts the handshake, the
    Init and the Ack travel through the network as control traffic, and once the Ack
    has arrived the two can talk. *)

From S2P Require Import Prelude Collections Floats Crypto Hyperbolic Packet Header SessionWire Session.
From S2P Require Import SessionManager Onion Sphinx Obfs Router Routing Handlers Conn RouterToy.
From S2P Require Import RouterProps RoutingProps Delivery.
Import RouterState.

Section ColdStart.
Context `{Channels} `{Libm} `{Blake2Laws} `{Blake2Mac} `{ChaCha20} `{Sha512} `{X25519Laws} `{Hkdf}
  `{AeadLaws} `{Ed25519Laws} `{MlDsaLaws} `{MlKemLaws} `{!EdXLaws}.

(** Node [c] of [A] and router [b] of [B] have no session; neither has pinned another
    key for the other. *)
Record strangers (c : PacketConn.t) (b : t) (A B : ident) : Prop := {
  sg_own : PacketConn.pub_key c = pub_key (PacketConn.inner c);
  sg_here : pub_key (PacketConn.inner c) = id_ed A ∧
            signing_key (PacketConn.inner c) = id_sk A;
  sg_there : pub_key b = id_ed B ∧ signing_key b = id_sk B;
  sg_pool : PacketConn.crypto_pool c = None;
  sg_manager : owner (sessions (PacketConn.inner c)) A B;
  sg_manager' : owner (sessions b) B A;
  sg_none : SessionManager.sessions (sessions (PacketConn.inner c)) !! pub_key b = None;
  sg_none' : SessionManager.sessions (sessions b) !! PacketConn.pub_key c = None }.

(** Payloads and ways of a sequence of transfers, and that it is delivered. *)
Definition sendable (xs : list Transfer) : Prop :=
  Forall (λ x, len (tx_payload x) ≤ U16_MAX ∧ Forall (λ r, len (pub_key r.2) = 32) (tx_route x)) xs ∧
  len xs < 2 ^ 64.
Definition delivers (xs : list Transfer) (c : PacketConn.t) (b : t) : Prop :=
  ∃ c' b' got oks, transfers xs c b = Ok (c', b', got) ∧ got `sublist_of` map tx_payload xs ∧
    length oks = length got ∧ io b' = io b ++ deliveries (PacketConn.pub_key c) got oks.

(** The handle of a router, without a crypto pool. *)
Definition handle_of (c : PacketConn.t) (s : t) : Prop :=
  PacketConn.inner c = s ∧ PacketConn.pub_key c = pub_key s ∧ PacketConn.crypto_pool c = None.

(** ** Control traffic *)

Lemma sent_on_keeps env dst tr s :
  pub_key (sent_on env dst tr s) = pub_key s ∧ signing_key (sent_on env dst tr s) = signing_key s ∧
  sessions (sent_on env dst tr s) = sessions s ∧
  ∀ f, f ∈ offered s (sent_on env dst tr s) → f = Traffic.encode tr.
Proof.
  unfold sent_on. destruct (lookup env s dst) as [hop|].
  - split_and!; [unfold send_to_peer; by repeat case_match..|]. apply offered_send.
  - split_and!; try done. unfold offered. rewrite drop_all. by intros f ?%not_elem_of_nil.
Qed.

(** A control message of a handshake. *)
Lemma control_sent env dst_sk msg s :
  len (pub_key s) = 32 → len msg ≤ U16_MAX →
  ∃ tr, send_traffic_to env (ed_public dst_sk) msg s = Ok (sent_on env (ed_public dst_sk) tr s) ∧
    Traffic.ok tr ∧ Traffic.routing_tag tr = routing_tag (ed_public dst_sk) ∧
    Traffic.pkt_type tr = u8 PKT_CONTROL ∧ unpad_payload (Traffic.payload tr) = Ok msg.
Proof.
  intros Hk Hl. destruct (padded_payload msg Hl) as (padded & Ep & Eu & Hp).
  destruct (header_roundtrip (header_priv env (ed_public dst_sk)) (pub_key s) dst_sk Hk) as (h & Eh & Hh & _).
  exists (Traffic.mk [] (pub_key s) h (routing_tag (ed_public dst_sk)) (u8 PKT_CONTROL)
            (HypCoord.encode <$> coord_table s !! ed_public dst_sk) 0 padded).
  unfold send_traffic_to, sent_on. rewrite Eh, bind_Ok, Ep, bind_Ok. split; [by destruct (lookup _ _ _)|].
  split; [|done]. exact (packet_ok (pub_key s) (ed_public dst_sk) h padded s Hk Hh ltac:(lia)).
Qed.

(** What arrives of it is handled by the destination. *)
Lemma control_arrives env from route frame s tr msg :
  Traffic.ok tr → Forall (λ r, len (pub_key r.2) = 32) route →
  carried (Traffic.encode tr) route = Some frame →
  Traffic.routing_tag tr = routing_tag (pub_key s) → Traffic.pkt_type tr = u8 PKT_CONTROL →
  unpad_payload (Traffic.payload tr) = Ok msg →
  ∃ tr', dispatch env from frame s = handle_control env msg (counted env from tr' s).
Proof.
  intros Hok Hr Hcar Ht Hp Hu. destruct (carried_content _ _ _ _ (traffic_frame _ Hok) Hok Hr Hcar)
    as (tr' & Hd & _ & Et & Ep & Epl).
  exists tr'. unfold dispatch. rewrite Hd. unfold handle_traffic. fold (counted env from tr' s).
  change (pub_key (counted env from tr' s)) with (pub_key s).
  unfold routing_tag_eq. rewrite Et, Ht, bool_decide_true, Ep, Hp by done.
  change (uz (u8 PKT_CONTROL)) with PKT_CONTROL. cbn match beta. by rewrite Epl, Hu.
Qed.

(** ** The two handlers *)

Lemma note_peer_coord_keeps env k coord s :
  let s' := note_peer_coord env k coord s in
  pub_key s' = pub_key s ∧ signing_key s' = signing_key s ∧ sessions s' = sessions s ∧ io s' = io s.
Proof. unfold note_peer_coord, note_coord. case_match; [done|]. by destruct (make_room _ _ _ _ _). Qed.

Lemma handle_init_control env init s :
  SessionInit.ok init →
  handle_control env (SessionInit.encode init) s
  = with_sessions
      (SessionManager.handle_init false (ord env) (now_ms env) (wall env) (kem_rand env)
         (session_priv env (SessionInit.ed_pub init)) (SessionInit.encode init)) s
      (λ ack_opt s,
         match ack_opt with
         | None => Ok s
         | Some ack => send_traffic_to env (SessionInit.ed_pub init) ack
                         (note_peer_coord env (SessionInit.ed_pub init) (SessionInit.sender_coord init) s)
         end).
Proof.
  intros Hok. pose proof (init_decode_encode init Hok) as Hd. pose proof (init_encode_len init Hok) as Hl.
  pose proof Hok as (Hed & _).
  assert (∃ rest, SessionInit.encode init = u8 SESSION_INIT_MAGIC :: SessionInit.ed_pub init ++ rest) as [rest E]
    by (by eexists).
  unfold handle_control. rewrite Hd, Hl. rewrite E at 1. cbn iota.
  change (uz (u8 SESSION_INIT_MAGIC) =? SESSION_INIT_MAGIC) with true. cbn iota.
  assert (take 32 (drop 1 (SessionInit.encode init)) = SessionInit.ed_pub init) as ->.
  { rewrite E. change (take 32 (SessionInit.ed_pub init ++ rest) = SessionInit.ed_pub init).
    apply take_app_length'. unfold len in Hed. lia. }
  change (33 <=? SESSION_INIT_WIRE_BYTES) with true. done.
Qed.

Lemma handle_ack_control env ack s :
  SessionAck.ok ack →
  handle_control env (SessionAck.encode ack) s
  = with_sessions (SessionManager.handle_ack false (ord env) (wall env) (SessionAck.encode ack)) s
      (λ done s, match done with
                 | Some _ => Ok (note_peer_coord env (SessionAck.ed_pub ack) (SessionAck.sender_coord ack) s)
                 | None => Ok s
                 end).
Proof.
  intros Hok. pose proof (ack_decode_encode ack Hok) as Hd.
  unfold handle_control. rewrite Hd.
  assert (∃ rest, SessionAck.encode ack = u8 SESSION_ACK_MAGIC :: rest) as [rest E] by (by eexists).
  rewrite E at 1. cbn iota. change (uz (u8 SESSION_ACK_MAGIC) =? SESSION_INIT_MAGIC) with false.
  change (uz (u8 SESSION_ACK_MAGIC) =? SESSION_ACK_MAGIC) with true. done.
Qed.

(** ** The three steps *)

(** A control message that [s] offers to its links. *)
Record offers (s s' : t) (dst msg : bytes) (tr : Traffic.t) : Prop := {
  of_frames : ∀ f, f ∈ offered s s' → f = Traffic.encode tr;
  of_ok : Traffic.ok tr;
  of_tag : Traffic.routing_tag tr = routing_tag dst;
  of_type : Traffic.pkt_type tr = u8 PKT_CONTROL;
  of_msg : unpad_payload (Traffic.payload tr) = Ok msg }.

Lemma control_offered env dst_sk msg s0 s :
  io s = io s0 → len (pub_key s) = 32 → len msg ≤ U16_MAX →
  ∃ s' tr, send_traffic_to env (ed_public dst_sk) msg s = Ok s' ∧ offers s0 s' (ed_public dst_sk) msg tr ∧
    pub_key s' = pub_key s ∧ signing_key s' = signing_key s ∧ sessions s' = sessions s.
Proof.
  intros Hio Hk Hl. destruct (control_sent env dst_sk msg s Hk Hl) as (tr & E & Hok & Ht & Hp & Hu).
  destruct (sent_on_keeps env (ed_public dst_sk) tr s) as (Hk' & Hs' & Hss & Hf).
  exists (sent_on env (ed_public dst_sk) tr s), tr. split_and!; try done. split; try done.
  intros f. unfold offered. rewrite <- Hio. apply Hf.
Qed.

Lemma handshake_lens w A B p ct :
  ident_ok A → 0 ≤ w < 2 ^ 63 → len ct = ML_KEM_CT_BYTES →
  SessionInit.ok (init_of w A B p) ∧ SessionAck.ok (ack_of w A B p ct).
Proof.
  intros [Hek Hc] Hw Hct. split.
  - apply init_create_ok; [lia|apply x25519_base_len|apply ed_public_len| |done].
    unfold PqKeys.pub_bytes. rewrite Hek. apply kem_ek_len.
  - by apply ack_create_ok; [lia|apply x25519_base_len|apply ed_public_len|..].
Qed.

(** The first write. *)
Lemma first_write env payload c b A B init m :
  strangers c b A B → ident_ok A → 0 ≤ wall env < 2 ^ 63 →
  SessionManager.initiate (now_ms env) (wall env) (session_priv env (pub_key b)) (id_ed B)
    (sessions (PacketConn.inner c)) = (init, m) →
  init = SessionInit.encode (init_of (wall env) A B (session_priv env (pub_key b))) →
  ∃ s tr, PacketConn.write_to env payload (pub_key b) c
            = (Err "session not established", c <| PacketConn.inner := s |>) ∧
    offers (PacketConn.inner c) s (id_ed B) init tr ∧
    pub_key s = id_ed A ∧ signing_key s = id_sk A ∧ sessions s = m.
Proof.
  intros [Hown [Hk Hsk] [Hkb Hskb] Hpool _ _ Hn _] HA Hw Ei Einit.
  destruct (handshake_lens (wall env) A B (session_priv env (pub_key b)) (fill ML_KEM_CT_BYTES (u8 0)) HA Hw eq_refl)
    as [Hok _].
  pose proof (init_encode_len _ Hok) as Hl. rewrite <- Einit in Hl.
  destruct (control_offered env (id_sk B) init (PacketConn.inner c)
    ((PacketConn.inner c) <| sessions := m |>)) as (s & tr & Es & Ho & Hk' & Hs' & Hss).
  { done. }
  { cbn. rewrite Hk. apply ed_public_len. }
  { rewrite Hl. done. }
  change (pub_key s = pub_key (PacketConn.inner c)) in Hk'.
  change (signing_key s = signing_key (PacketConn.inner c)) in Hs'. change (sessions s = m) in Hss.
  exists s, tr. split_and!; try (done || congruence).
  assert (ensure_session env (pub_key b) (PacketConn.inner c) = (Err "session not established", s)) as E.
  { unfold ensure_session, SessionManager.is_established, SessionManager.get_or_initiate_bytes.
    unfold get, put, lift, fail, mret, st_ret, mbind, st_bind. rewrite Hn.
    cbn -[SessionManager.initiate send_traffic_to]. rewrite Hkb. rewrite Hkb in Ei. rewrite Ei.
    cbn -[send_traffic_to]. rewrite Hl. change (SESSION_INIT_WIRE_BYTES =? 0) with false. cbn beta iota.
    change (id_ed B) with (ed_public (id_sk B)). by rewrite Es. }
  unfold PacketConn.write_to, PacketConn.on_inner. unfold mbind at 1, st_bind at 1. by rewrite E.
Qed.

(** The Init arrives, and is answered. *)
Lemma init_answered env from route frame s s1 b A B init tr m ack :
  offers s s1 (id_ed B) (SessionInit.encode init) tr →
  Forall (λ r, len (pub_key r.2) = 32) route → carried (Traffic.encode tr) route = Some frame →
  pub_key b = id_ed B → SessionInit.ok init → SessionInit.ed_pub init = id_ed A → len ack ≤ U16_MAX →
  SessionManager.handle_init false (ord env) (now_ms env) (wall env) (kem_rand env)
    (session_priv env (id_ed A)) (SessionInit.encode init) (sessions b) = (Ok ack, m) →
  ∃ b1 tr1, dispatch env from frame b = Ok b1 ∧ offers b b1 (id_ed A) ack tr1 ∧
    pub_key b1 = pub_key b ∧ signing_key b1 = signing_key b ∧ sessions b1 = m.
Proof.
  intros [_ Hok Htag Hty Hmsg] Hr Hcar Hk Hiok Hed Hl Hh. rewrite <- Hk in Htag.
  destruct (control_arrives env from _ _ b tr _ Hok Hr Hcar Htag Hty Hmsg) as (tr' & ->).
  rewrite (handle_init_control env init _ Hiok). unfold with_sessions. rewrite Hed.
  change (sessions (counted env from tr' b)) with (sessions b). rewrite Hh.
  set (b0 := (counted env from tr' b) <| sessions := m |>).
  destruct (note_peer_coord_keeps env (id_ed A) (SessionInit.sender_coord init) b0) as (E1 & E2 & E3 & E4).
  destruct (control_offered env (id_sk A) ack b (note_peer_coord env (id_ed A) (SessionInit.sender_coord init) b0))
    as (b1 & tr1 & Es & Ho & F1 & F2 & F3); [done| |done|].
  { rewrite E1. change (pub_key b0) with (pub_key b). rewrite Hk. apply ed_public_len. }
  exists b1, tr1. split; [exact Es|]. split; [done|]. by rewrite F1, F2, F3, E1, E2, E3.
Qed.

(** The Ack arrives. *)
Lemma ack_accepted env from route frame b b1 s A B ack tr m :
  offers b b1 (id_ed A) (SessionAck.encode ack) tr →
  Forall (λ r, len (pub_key r.2) = 32) route → carried (Traffic.encode tr) route = Some frame →
  pub_key s = id_ed A → SessionAck.ok ack → SessionAck.ed_pub ack = id_ed B →
  SessionManager.handle_ack false (ord env) (wall env) (SessionAck.encode ack) (sessions s) = (Ok tt, m) →
  ∃ s', dispatch env from frame s = Ok s' ∧
    pub_key s' = pub_key s ∧ signing_key s' = signing_key s ∧ sessions s' = m ∧ io s' = io s.
Proof.
  intros [_ Hok Htag Hty Hmsg] Hr Hcar Hk Haok Hed Hh. rewrite <- Hk in Htag.
  destruct (control_arrives env from _ _ s tr _ Hok Hr Hcar Htag Hty Hmsg) as (tr' & ->).
  rewrite (handle_ack_control env ack _ Haok). unfold with_sessions. rewrite Hed.
  change (sessions (counted env from tr' s)) with (sessions s). rewrite Hh. eexists. split; [done|].
  destruct (note_peer_coord_keeps env (id_ed B) (SessionAck.sender_coord ack)
    ((counted env from tr' s) <| sessions := m |>)) as (E1 & E2 & E3 & E4). by rewrite E1, E2, E3, E4.
Qed.

Lemma fresh_pair_talk sa sb : fresh_pair sa sb → can_talk sa sb ∧ can_talk sb sa.
Proof.
  intros [[He He'] _ Hab Hba [Es Es'] [Eh Eh'] [Ew Ew']].
  pose proof (p_cache _ _ Hab). pose proof (p_cache _ _ Hba). pose proof (p_pub _ _ Hab). pose proof (p_pub _ _ Hba).
  by split; split; rewrite ?Es, ?Es', ?Eh, ?Eh', ?Ew, ?Ew'.
Qed.

End ColdStart.

(** ** A concrete cold start *)

Section ColdStartWitness.
Import ToyNet.

(** Node [me], router [a] in the middle, and [b]; each knows where the others are. *)
Let c0 : PacketConn.t :=
  PacketConn.with_inner (λ s, hears key_a (claims key_b) (add_peer env key_a 1 0 s))
    (PacketConn.new env sk_me (fill 64 (u8 1)) (fill 32 (u8 2))).
Let a0 : t := hears key_me (claims key_me) a.
Let b0 : t := hears key_a (claims key_me) (add_peer env key_a 1 0 (node sk_b)).

Let ident_of (s : t) : ident :=
  {| id_sk := signing_key s; id_seed := SessionManager.pq_signer (sessions s);
     id_keys := SessionManager.pq_keys (sessions s); id_coord := SessionManager.own_coord (sessions s) |}.

Let there := [(env, key_me, a0)].
Let back := [(env, key_b, a0)].
Let hello : Transfer :=
  {| tx_env := env; tx_payload := bstr "hello"; tx_route := there; rx_from := key_a; rx_env := env |}.

(** What is delivered by the retried write. *)
Let run : option (list bytes) :=
  let c1 := (PacketConn.write_to env (bstr "hello") (pub_key b0) c0).2 in
  init ← head (offered (PacketConn.inner c0) (PacketConn.inner c1)) ≫= λ f, carried f there;
  b1 ← match dispatch env key_a init b0 with Ok b1 => Some b1 | _ => None end;
  ack ← head (offered b0 b1) ≫= λ f, carried f back;
  s ← match dispatch env key_a ack (PacketConn.inner c1) with Ok s => Some s | _ => None end;
  match transfers [hello] (c1 <| PacketConn.inner := s |>) b1 with
  | Ok (_, _, got) => Some got
  | _ => None
  end.

Lemma toy_strangers : strangers c0 b0 (ident_of (PacketConn.inner c0)) (ident_of b0).
Proof.
  split; [by vm_compute..| | |by vm_compute|by vm_compute].
  - split; [by vm_compute..|]. left. by vm_compute.
  - split; [by vm_compute..|]. left. by vm_compute.
Qed.


End ColdStartWitness.
