(* ===== verification/Node.v ===== *)
(** * The node

    [src/node.rs]: a node is made from its configuration, and its tasks are started.
    What the random generator draws, the environment variable, the clock and the disk
    are arguments; a started task is named by the function it runs and the arguments
    it gets. *)

From S2P Require Import Prelude Collections Floats Crypto Hyperbolic Address Text Toml PeerCache Tun Obfs.
From S2P Require Import Session SessionManager Router Conn Config Transport Discovery RouterToy Delivery ColdStart.

Inductive NodeTask :=
| QuicListen (uri : bytes) | TcpListen (uri : bytes)
| QuicDial (uri : bytes) | TcpDial (uri : bytes)
| MdnsStart (tcp_port : option Z)
| MulticastStart (multicast_port : Z) (tcp_port : option Z)
| AdminListen (path : bytes)
| MetricsListen (addr : bytes)
| TunStart (tun_name : bytes).

Module Node.
Record t := mk {
  conn : PacketConn.t;
  config : NodeConfig.t;
  key_store : KeyStore.t;
  connected : gmap bytes Z }.

Section Node.
Context `{Channels} `{Libm} `{Blake2} `{Blake2Mac} `{ChaCha20} `{Sha512} `{X25519} `{Hkdf}
  `{Aead} `{Ed25519} `{MlDsa} `{MlKem} `{Hex} `{CacheJson}.

(** The keys drawn: an ephemeral identity, the decapsulation key and the signer of a
    new router, and an ephemeral signer. *)
Record Draws := { draw_sk : bytes; draw_dk : bytes; draw_signer : bytes; draw_seed : bytes }.

Definition new (env : Env) (allow_ephemeral : bool) (draws : Draws) (config : NodeConfig.t) : res t :=
  signing_key ← config_signing_key allow_ephemeral (draw_sk draws) config;
  let conn := PacketConn.new env signing_key (draw_dk draws) (draw_signer draws) in
  let conn := PacketConn.set_min_peer_difficulty_bits (NodeConfig.min_peer_difficulty_bits config) conn in
  signer ← config_pq_signer (draw_seed draws) config;
  let conn := PacketConn.set_pq_signer signer conn in
  let conn := PacketConn.enable_crypto_pool (NodeConfig.crypto_workers config) conn in
  let conn := PacketConn.set_obfuscation_psk (NodeConfig.obfuscation_psk config) conn in
  let conn := PacketConn.set_cover_traffic (NodeConfig.cover_traffic config) conn in
  let conn := PacketConn.set_onion_format (NodeConfig.onion_format config) conn in
  '(_, key_store) ← KeyStore.register KeyStore.new (PacketConn.pub_key conn);
  _ ← address_from_key (PacketConn.pub_key conn);
  Ok (mk conn config key_store ∅).

Definition is_quic (uri : bytes) : bool := starts_with (bstr "quic://") uri.
Definition listen_task (uri : bytes) : NodeTask := if is_quic uri then QuicListen uri else TcpListen uri.
Definition dial_task (uri : bytes) : NodeTask := if is_quic uri then QuicDial uri else TcpDial uri.

(** The tasks in the order in which they are spawned. *)
Definition start (ord : MapOrder bytes) (now_ms : Z) (disk : gmap bytes bytes) (n : t) : list NodeTask :=
  let c := config n in
  let tcp_port := tcp_listen_port c in
  map listen_task (NodeConfig.listen c) ++
  map dial_task (NodeConfig.peers c) ++
  (if bool_decide (NodeConfig.peer_cache_path c = []) then []
   else map dial_task (PeerCache.uris ord (PeerCache.load now_ms (NodeConfig.peer_cache_path c) disk))) ++
  (if NodeConfig.mdns_enabled c then [MdnsStart tcp_port] else []) ++
  (if NodeConfig.multicast_enabled c then [MulticastStart (NodeConfig.multicast_port c) tcp_port] else []) ++
  [AdminListen (NodeConfig.admin_socket c)] ++
  (if bool_decide (NodeConfig.metrics_addr c = []) then [] else [MetricsListen (NodeConfig.metrics_addr c)]) ++
  match NodeConfig.tun_name c with Some name => [TunStart name] | None => [] end.

Definition register_peer (pub_key : bytes) (n : t) : res t :=
  '(_, ks) ← KeyStore.register (key_store n) pub_key;
  Ok (mk (conn n) (config n) ks (connected n)).
End Node.
End Node.

(** ** The daemon *)

Section Daemon.
Context `{Channels} `{Libm} `{Blake2} `{Blake2Mac} `{ChaCha20} `{Sha512} `{X25519} `{Hkdf}
  `{Aead} `{Ed25519} `{MlDsa} `{MlKem} `{Hex} `{Toml}.

(** The configuration that [nornd] starts with. *)
Definition daemon_config (exists_file : bool) (mode : option Z) (text : option bytes) : res NodeConfig.t :=
  if exists_file then load_config mode text else Ok NodeConfig.default.

(** What [nornd showaddr] prints. *)
Definition nornd_showaddr (allow_ephemeral : bool) (draw : bytes) (mode : option Z) (text : option bytes)
    : res bytes :=
  config ← load_config mode text;
  sk ← config_signing_key allow_ephemeral draw config;
  let pub_key := ed_public sk in
  addr ← address_from_key pub_key;
  Ok (bstr "pub_key: " ++ hex_encode pub_key ++ [newline] ++ bstr "address: " ++ ipv6_string addr ++ [newline]).

(** The destinations of the test traffic, from [NORN_TEST_TRAFFIC_TO_HEX]. *)
Definition test_destinations (raw : option bytes) : list bytes :=
  match raw with
  | None => []
  | Some v =>
      if bool_decide (trim v = []) then [] else
      omap (λ token, let t := trim token in if negb (len t =? 64) then None else decode_key t)
        (split_on (u8 44) v)
  end.
End Daemon.

(** ** Properties *)

Section NodeProps.
Context `{Channels} `{Libm} `{Blake2Laws} `{Blake2Mac} `{ChaCha20} `{Sha512} `{X25519Laws} `{Hkdf}
  `{AeadLaws} `{Ed25519Laws} `{MlDsaLaws} `{MlKemLaws} `{!EdXLaws} `{HexLaws} `{CacheJsonLaws}.

(** The identity that a node shows in handshakes. *)
Definition node_ident (n : Node.t) : ident :=
  let m := RouterState.sessions (PacketConn.inner (Node.conn n)) in
  {| id_sk := SessionManager.our_signing_key m; id_seed := SessionManager.pq_signer m;
     id_keys := SessionManager.pq_keys m; id_coord := SessionManager.own_coord m |}.

(** A new node, by its settings. *)
Record made_from (config : NodeConfig.t) (sk seed : bytes) (n : Node.t) : Prop := {
  mf_key : PacketConn.pub_key (Node.conn n) = ed_public sk ∧ PacketConn.signing_key (Node.conn n) = sk;
  mf_config : Node.config n = config ∧ Node.connected n = ∅;
  mf_bits : PacketConn.min_peer_difficulty_bits (Node.conn n) = NodeConfig.min_peer_difficulty_bits config;
  mf_obfs : PacketConn.obfs_key (Node.conn n) = derive_psk_key (NodeConfig.obfuscation_psk config);
  mf_pool : PacketConn.crypto_pool (Node.conn n)
            = if NodeConfig.crypto_workers config =? 0 then None
              else Some (CryptoPool.mk (fill (NodeConfig.crypto_workers config) []));
  mf_policy : RouterState.cover_mode (PacketConn.inner (Node.conn n)) = NodeConfig.cover_traffic config ∧
              RouterState.onion_format (PacketConn.inner (Node.conn n)) = NodeConfig.onion_format config;
  mf_router : RouterState.pub_key (PacketConn.inner (Node.conn n)) = ed_public sk ∧
              RouterState.signing_key (PacketConn.inner (Node.conn n)) = sk;
  mf_sessions : SessionManager.sessions (RouterState.sessions (PacketConn.inner (Node.conn n))) = ∅ ∧
                SessionManager.pq_pins (RouterState.sessions (PacketConn.inner (Node.conn n))) = ∅;
  mf_ident : id_sk (node_ident n) = sk ∧ id_seed (node_ident n) = seed ∧ ident_ok (node_ident n) }.

Lemma new_made env allow draws config sk seed addr :
  config_signing_key allow (Node.draw_sk draws) config = Ok sk →
  config_pq_signer (Node.draw_seed draws) config = Ok seed →
  address_from_key (ed_public sk) = Ok addr →
  ∃ n, Node.new env allow draws config = Ok n ∧ made_from config sk seed n ∧
    Node.key_store n = KeyStore.mk {[ addr := ed_public sk ]}.
Proof.
  intros Hsk Hseed Haddr. unfold Node.new. rewrite Hsk, bind_Ok, Hseed, bind_Ok.
  set (c := PacketConn.set_onion_format _ _).
  assert (PacketConn.pub_key c = ed_public sk) as Hpub.
  { unfold c, PacketConn.set_obfuscation_psk, PacketConn.enable_crypto_pool. by repeat case_match. }
  unfold KeyStore.register. rewrite Hpub, Haddr, !bind_Ok. eexists. split; [done|]. split; [|done].
  unfold c, PacketConn.set_obfuscation_psk, PacketConn.enable_crypto_pool.
  cbn [PacketConn.crypto_pool PacketConn.new].
  destruct (NodeConfig.crypto_workers config =? 0) eqn:Ew, (derive_psk_key (NodeConfig.obfuscation_psk config)) eqn:Ep.
  all: split; try done; cbn; rewrite ?Ew; done.
Qed.

Lemma made_strangers cfg cfg' sk sk' seed seed' n n' :
  made_from cfg sk seed n → made_from cfg' sk' seed' n' → NodeConfig.crypto_workers cfg = 0 →
  strangers (Node.conn n) (PacketConn.inner (Node.conn n')) (node_ident n) (node_ident n').
Proof.
  intros [[Hk _] _ _ _ Hp _ [Hrk Hrs] [Hs Hpin] [Hi _]] [[Hk' _] _ _ _ _ _ [Hrk' Hrs'] [Hs' Hpin'] [Hi' _]] Hw.
  unfold id_ed. split; rewrite ?Hk, ?Hrk, ?Hrk', ?Hrs, ?Hrs', ?Hs, ?Hs'; unfold id_ed; rewrite ?Hi, ?Hi'; try done.
  - rewrite Hp. by rewrite Hw.
  - split; try done. left. by rewrite Hpin.
  - split; try done. left. by rewrite Hpin'.
Qed.


(** C35: [genconfig] and the daemon fit together: whatever the umask, the file that
    [genconfig] creates has a mode and contents that the daemon loads, without leave
    to use ephemeral keys, into a node with exactly the generated identity and
    post-quantum seed and every other setting at its default; [showaddr] prints the
    key and the address of that node; and an existing file is not overwritten. *)
Theorem genconfig_starts `{TomlLaws} umask sk seed env draws draw addr :
  len sk = 32 → len seed = 32 → address_from_key (ed_public sk) = Ok addr →
  let text := generate_toml sk seed in
  ∃ mode cfg n, genconfig umask false text = Ok (mode, text) ∧
    daemon_config true (Some mode) (Some text) = Ok cfg ∧
    cfg = with_keys (hex_encode sk) (hex_encode seed) NodeConfig.default ∧
    Node.new env false draws cfg = Ok n ∧ made_from cfg sk seed n ∧
    nornd_showaddr false draw (Some mode) (Some text)
      = Ok (bstr "pub_key: " ++ hex_encode (ed_public sk) ++ [newline] ++
            bstr "address: " ++ ipv6_string addr ++ [newline]) ∧
    genconfig umask true text = Err "creating config (refusing to overwrite)".
Proof.
  intros Hsk Hseed Haddr. cbn zeta. set (cfg := with_keys _ _ _).
  destruct (genconfig_loads umask sk seed false (Node.draw_sk draws) Hsk Hseed) as (mode & Hg & Hl & Hk & _ & Hx).
  destruct (genconfig_loads umask sk seed false (Node.draw_seed draws) Hsk Hseed) as (_ & _ & _ & _ & Hs & _).
  destruct (genconfig_loads umask sk seed false draw Hsk Hseed) as (_ & _ & _ & Hk' & _).
  destruct (new_made env false draws cfg sk seed addr Hk Hs Haddr) as (n & Hn & Hm & _).
  exists mode, cfg, n. split_and!; try done.
  unfold nornd_showaddr. rewrite Hl, bind_Ok, Hk', bind_Ok. by rewrite Haddr, bind_Ok.
Qed.

(** Without a configuration file the daemon does not start, unless ephemeral keys
    have been allowed. *)
Lemma no_config_no_start `{Toml} env draws :
  ∃ cfg e, daemon_config false None None = Ok cfg ∧ Node.new env false draws cfg = Err e.
Proof. by do 2 eexists. Qed.

(** ** Restart *)

Lemma save_ok_file ord io c d d' :
  PeerCache.save ord io c d = (Some (Ok tt), d') →
  d' !! PeerCache.path c
  = Some (to_string_pretty (mkFile default_version (map snd (map_iter ord (PeerCache.entries c))))).
Proof.
  unfold PeerCache.save. destruct (PeerCache.mkdir io), (PeerCache.write io), (PeerCache.rename io); try done.
  intros [= <-]. apply lookup_insert_eq.
Qed.

(** The URIs that tasks dial and listen on. *)
Definition dialled (t : NodeTask) : option bytes :=
  match t with TcpDial uri | QuicDial uri => Some uri | _ => None end.
Definition listened (t : NodeTask) : option bytes :=
  match t with TcpListen uri | QuicListen uri => Some uri | _ => None end.

(** A task runs the transport of its URI's scheme. *)
Definition by_scheme (t : NodeTask) : Prop :=
  match t with
  | TcpListen uri | TcpDial uri => Node.is_quic uri = false
  | QuicListen uri | QuicDial uri => Node.is_quic uri = true
  | _ => True
  end.

Lemma start_by_scheme ord now d n : Forall by_scheme (Node.start ord now d n).
Proof.
  assert (∀ us, Forall by_scheme (map Node.listen_task us) ∧ Forall by_scheme (map Node.dial_task us)) as Hm.
  { intros us. split; apply Forall_fmap, Forall_forall; intros u _; cbn; unfold Node.listen_task, Node.dial_task;
      by destruct (Node.is_quic u) eqn:E. }
  unfold Node.start. rewrite !Forall_app. split_and!; repeat case_match; try apply Hm; by repeat constructor.
Qed.

Lemma dialled_dial uri : dialled (Node.dial_task uri) = Some uri ∧ listened (Node.dial_task uri) = None.
Proof. unfold Node.dial_task. by case_match. Qed.
Lemma listened_listen uri : listened (Node.listen_task uri) = Some uri ∧ dialled (Node.listen_task uri) = None.
Proof. unfold Node.listen_task. by case_match. Qed.

Lemma omap_map_Some {A B} (f : A → B) (g : B → option A) l : (∀ x, g (f x) = Some x) → omap g (map f l) = l.
Proof. intros Hg. induction l as [|x l IH]; [done|]. cbn. by rewrite Hg, IH. Qed.
Lemma omap_map_None {A B C} (f : A → B) (g : B → option C) l : (∀ x, g (f x) = None) → omap g (map f l) = [].
Proof. intros Hg. induction l as [|x l IH]; [done|]. cbn. by rewrite Hg. Qed.

Lemma start_uris ord now d n :
  omap listened (Node.start ord now d n) = NodeConfig.listen (Node.config n) ∧
  omap dialled (Node.start ord now d n)
  = NodeConfig.peers (Node.config n) ++
    (if bool_decide (NodeConfig.peer_cache_path (Node.config n) = []) then []
     else PeerCache.uris ord (PeerCache.load now (NodeConfig.peer_cache_path (Node.config n)) d)).
Proof.
  unfold Node.start. rewrite !omap_app.
  rewrite !(omap_map_Some Node.listen_task listened), !(omap_map_None Node.listen_task dialled) by apply listened_listen.
  rewrite !(omap_map_Some Node.dial_task dialled), !(omap_map_None Node.dial_task listened) by apply dialled_dial.
  split; repeat case_match; cbn;
    rewrite ?(omap_map_Some Node.dial_task dialled), ?(omap_map_None Node.dial_task listened) by apply dialled_dial;
    by rewrite ?app_nil_r.
Qed.

End NodeProps.

(** ** A concrete node *)

Section NodeWitness.
Import ToyNet ToyText ToyCache ToyToml.

Let seed : bytes := fill 32 (u8 7).
Let cfg (sk : bytes) : NodeConfig.t :=
  NodeConfig.mk (Some (hex_encode sk)) (Some (hex_encode seed)) [bstr "tcp://[::]:9001"; bstr "quic://[::]:9002"]
    [bstr "tcp://h:1"] None (bstr "/run/norn.sock") true 9001 (bstr "info") (bstr "/var/lib/norn/peers.json")
    (bstr "127.0.0.1:9090") 0 true 0 (bstr "psk") Light Auto.
Let draws : Node.Draws :=
  {| Node.draw_sk := []; Node.draw_dk := fill 64 (u8 1); Node.draw_signer := fill 32 (u8 2); Node.draw_seed := [] |}.
Let addr (sk : bytes) : bytes := match address_from_key (ed_public sk) with Ok a => a | _ => [] end.


Lemma genconfig_starts_witness :
  let text := generate_toml sk_me seed in
  ∃ mode cfg n, genconfig 0x12 false text = Ok (mode, text) ∧
    daemon_config true (Some mode) (Some text) = Ok cfg ∧
    cfg = with_keys (hex_encode sk_me) (hex_encode seed) NodeConfig.default ∧
    Node.new env false draws cfg = Ok n ∧ made_from cfg sk_me seed n ∧
    nornd_showaddr false [] (Some mode) (Some text)
      = Ok (bstr "pub_key: " ++ hex_encode (ed_public sk_me) ++ [newline] ++
            bstr "address: " ++ ipv6_string (addr sk_me) ++ [newline]) ∧
    genconfig 0x12 true text = Err "creating config (refusing to overwrite)".
Proof. apply (genconfig_starts 0x12 sk_me seed env draws [] (addr sk_me)); by vm_compute. Defined.

Let ord := default_order bytes.
Let cache := PeerCache.record 1000 (fill 32 (u8 1)) (bstr "quic://p:2") (PeerCache.mk (bstr "/var/lib/norn/peers.json") ∅).
Let io : PeerCache.Calls :=
  {| PeerCache.mkdir := PeerCache.Succeeds; PeerCache.write := PeerCache.Succeeds; PeerCache.written := None;
     PeerCache.rename := PeerCache.Succeeds |}.
Let disk : gmap bytes bytes := (PeerCache.save ord io cache ∅).2.
Let n0 : Node.t := Node.mk ToyNet.c (cfg sk_me) KeyStore.new ∅.

End NodeWitness.
