(* ===== verification/Admin.v ===== *)
(** * Administration

    [src/admin.rs], [src/bin/nornctl.rs] and [src/keyshare.rs]: the socket and its
    permissions, the requests of a client and their answers, the client that asks, and
    keys as word lists.  JSON ([serde_json]) and BIP39 ([bip39]) are parameters; the
    visitors that [serde] derives for the structures are written out. *)

From S2P Require Import Prelude Collections Floats Crypto Hyperbolic Address Text Router Conn RouterToy.

(** ** JSON *)

(** The members of an object are in the order of the text, duplicates included. *)
#[local] Unset Elimination Schemes.
Inductive Value :=
| Null | Bool (b : bool) | Int (n : Z) | F32 (x : float) | F64 (x : float) | Str (s : bytes)
| Array (l : list Value) | Object (members : list (bytes * Value)).
#[local] Set Elimination Schemes.

Class SerdeJson := {
  json_print : Value → bytes;
  json_parse : bytes → option Value;
  (** the message of a parse error *)
  json_error : bytes → bytes }.

(** What is printed is read back, here for objects of ASCII strings and integers; it
    takes one line, in braces, of ASCII text. *)
Definition member_ok (m : bytes * Value) : Prop :=
  ascii m.1 ∧ match m.2 with Str s => ascii s | Int n => u64_ok n | Null => True | _ => False end.
Class SerdeJsonLaws `{SerdeJson} : Prop := {
  json_round ms : Forall member_ok ms → json_parse (json_print (Object ms)) = Some (Object ms);
  json_line v : newline ∉ json_print v;
  json_braces ms : ∃ body, json_print (Object ms) = [u8 123] ++ body ++ [u8 125];
  json_ascii ms : Forall member_ok ms → ascii (json_print (Object ms)) }.

(** The values of a member. *)
Definition members_of (key : bytes) (ms : list (bytes * Value)) : list Value :=
  map snd (filter (λ m, m.1 = key) ms).

(** [Value::get] after the text has been read into a map: the last one counts. *)
Definition get_member (key : bytes) (v : Value) : option Value :=
  match v with Object ms => last (members_of key ms) | _ => None end.

(** ** Requests and responses *)

Record Request := { method : bytes; req_uri : option bytes }.

Record SelfInfo := { si_pub_key : bytes; si_address : bytes; si_peer_count : Z }.
Record PeerInfo := {
  pi_pub_key : bytes; pi_address : bytes; pi_lag_ms : float; pi_jitter_ms : float; pi_loss_rate : float;
  pi_rx_bytes : Z; pi_tx_bytes : Z; pi_uptime_secs : float; pi_priority : Z; pi_trust : float }.
Record AddPeerResult := { ap_status : bytes; ap_uri : bytes }.

Inductive Response :=
| GetSelf (info : SelfInfo) | GetPeers (peers : list PeerInfo) | AddPeer (r : AddPeerResult)
| ErrorResponse (error : bytes).

(** The visitor of [Request]: a map without duplicates of its fields, or a sequence;
    [uri] may be missing. *)
Definition read_uri (v : option Value) : option (option bytes) :=
  match v with
  | None | Some Null => Some None
  | Some (Str s) => Some (Some s)
  | _ => None
  end.
Definition request_of (v : Value) : option Request :=
  match v with
  | Object ms =>
      match members_of (bstr "method") ms, members_of (bstr "uri") ms with
      | [Str m], [] => Some {| method := m; req_uri := None |}
      | [Str m], [u] => u ← read_uri (Some u); Some {| method := m; req_uri := u |}
      | _, _ => None
      end
  | Array [Str m] => Some {| method := m; req_uri := None |}
  | Array [Str m; u] => u ← read_uri (Some u); Some {| method := m; req_uri := u |}
  | _ => None
  end.

Definition self_value (i : SelfInfo) : Value :=
  Object [(bstr "pub_key", Str (si_pub_key i)); (bstr "address", Str (si_address i));
          (bstr "peer_count", Int (si_peer_count i))].
Definition peer_value (p : PeerInfo) : Value :=
  Object [(bstr "pub_key", Str (pi_pub_key p)); (bstr "address", Str (pi_address p));
          (bstr "lag_ms", F64 (pi_lag_ms p)); (bstr "jitter_ms", F64 (pi_jitter_ms p));
          (bstr "loss_rate", F32 (pi_loss_rate p)); (bstr "rx_bytes", Int (pi_rx_bytes p));
          (bstr "tx_bytes", Int (pi_tx_bytes p)); (bstr "uptime_secs", F64 (pi_uptime_secs p));
          (bstr "priority", Int (pi_priority p)); (bstr "trust", F32 (pi_trust p))].
Definition response_value (r : Response) : Value :=
  match r with
  | GetSelf i => self_value i
  | GetPeers ps => Array (map peer_value ps)
  | AddPeer r => Object [(bstr "status", Str (ap_status r)); (bstr "uri", Str (ap_uri r))]
  | ErrorResponse e => Object [(bstr "error", Str e)]
  end.

(** [as_secs_f64] of a duration in microseconds. *)
Definition as_secs_f64 (us : Z) : float :=
  f64_add (f64_of_Z (us / 1000000)) (f64_div (f64_of_Z (us mod 1000000 * 1000)) (f64_of_Z 1000000000)).
Definition as_ms (us : Z) : float := f64_mul (as_secs_f64 us) (f64_of_Z 1000).

(** ** The server *)

Section Server.
Context `{Channels} `{Blake2} `{Hex} `{SerdeJson}.

Definition peer_info (p : PeerStats) : res PeerInfo :=
  addr ← address_from_key (key p);
  Ok {| pi_pub_key := hex_encode (key p); pi_address := ipv6_string addr; pi_lag_ms := as_ms (ps_lag p);
        pi_jitter_ms := as_ms (ps_jitter p); pi_loss_rate := ps_loss_rate p; pi_rx_bytes := ps_rx_bytes p;
        pi_tx_bytes := ps_tx_bytes p; pi_uptime_secs := as_secs_f64 (uptime p); pi_priority := ps_priority p;
        pi_trust := ps_trust p |}.
Fixpoint peer_infos (ps : list PeerStats) : res (list PeerInfo) :=
  match ps with
  | [] => Ok []
  | p :: ps => i ← peer_info p; infos ← peer_infos ps; Ok (i :: infos)
  end.

(** The response, and the URI given to a [dial] task. *)
Definition admin_dispatch (env : Env) (c : PacketConn.t) (req : Request) : res (Response * option bytes) :=
  let stats := get_peer_stats env (PacketConn.inner c) in
  if bool_decide (method req = bstr "getSelf") then
    addr ← address_from_key (PacketConn.pub_key c);
    Ok (GetSelf {| si_pub_key := hex_encode (PacketConn.pub_key c); si_address := ipv6_string addr;
                   si_peer_count := len stats |}, None)
  else if bool_decide (method req = bstr "getPeers") then
    ps ← peer_infos stats; Ok (GetPeers ps, None)
  else if bool_decide (method req = bstr "addPeer") then
    match req_uri req with
    | None => Ok (ErrorResponse (bstr "missing " ++ quoted (bstr "uri") ++ bstr " field"), None)
    | Some uri => Ok (AddPeer {| ap_status := bstr "dialing"; ap_uri := uri |}, Some uri)
    end
  else Ok (ErrorResponse (bstr "unknown method: " ++ quoted (method req)), None).

(** What is written for a line, and what is dialled; [conns i] is the node when the
    [i]-th line is handled. *)
Fixpoint serve (conns : nat → Env * PacketConn.t) (ls : list bytes) : res (bytes * list bytes) :=
  match ls with
  | [] => Ok ([], [])
  | line :: ls =>
      let line := trim line in
      if bool_decide (line = []) then serve (λ i, conns (S i)) ls else
      '(resp, dial) ← match json_parse line ≫= request_of with
                      | None => Ok (ErrorResponse (bstr "parse error: " ++ json_error line), None)
                      | Some req => let '(env, c) := conns O in admin_dispatch env c req
                      end;
      '(out, dials) ← serve (λ i, conns (S i)) ls;
      Ok (json_print (response_value resp) ++ [newline] ++ out, option_list dial ++ dials)
  end.
Definition handle_client (conns : nat → Env * PacketConn.t) (input : bytes) : res (bytes * list bytes) :=
  serve conns (lines input).
End Server.

(** ** The socket *)

(** The process's umask, and the mode of the file of the socket that it has bound. *)
Record Host := { umask : Z; socket : option Z }.

Inductive Setup := BindFailed | ChmodFailed | Serving.

(** [listen] up to its loop: the states it goes through.  A socket is created with
    the mode [0o777] less the umask; the guard that restores the umask is dropped when
    [listen] returns. *)
Definition listen_setup (bind_ok chmod_ok : bool) (h : Host) : Setup * list Host :=
  let prev := umask h in
  let h1 := {| umask := prev; socket := None |} in
  let h2 := {| umask := 0x7f; socket := None |} in
  if negb bind_ok then (BindFailed, [h1; h2; {| umask := prev; socket := None |}]) else
  let h3 := {| umask := 0x7f; socket := Some (Z.ldiff 0x1ff 0x7f) |} in
  if negb chmod_ok
  then (ChmodFailed, [h1; h2; h3; {| umask := 0x7f; socket := None |}; {| umask := prev; socket := None |}])
  else (Serving, [h1; h2; h3; {| umask := 0x7f; socket := Some 0x180 |}]).

(** ** Keys as words *)

Class Bip39 := {
  bip39_phrase : bytes → bytes;
  bip39_parse : bytes → option bytes }.
(** A phrase of 32 bytes is lower-case words separated by single spaces, and is read
    back. *)
Class Bip39Laws `{Bip39} : Prop := {
  bip39_round key : len key = 32 → bip39_parse (bip39_phrase key) = Some key;
  bip39_trim key : trim (bip39_phrase key) = bip39_phrase key }.

Section KeyShare.
Context `{Bip39}.

Definition to_mnemonic (key : bytes) : bytes := bip39_phrase key.
Definition from_mnemonic (phrase : bytes) : res bytes :=
  entropy ← ok_or (bip39_parse (trim phrase)) "not a valid BIP39 mnemonic";
  bail_if negb (len entropy =? 32) with "a norn key needs the full 24-word phrase";
  Ok entropy.
End KeyShare.

(** ** The client *)

Section Client.
Context `{Blake2} `{Hex} `{SerdeJson} `{Bip39}.

Definition req_value (m : bytes) (uri : option bytes) : Value :=
  Object ((bstr "method", Str m) :: match uri with Some u => [(bstr "uri", Str u)] | None => [] end).

(** [server] is what the daemon answers to what is sent. *)
Definition call (server : bytes → res bytes) (m : bytes) (uri : option bytes) : res Value :=
  reply ← server (json_print (req_value m uri) ++ [newline]);
  line ← ok_or (head (lines reply)) "admin socket closed without reply";
  v ← ok_or (json_parse line) "parsing reply JSON";
  match get_member (bstr "error") v with
  | Some (Str err) => Err "daemon error"
  | _ => Ok v
  end.

(** [serde_json::from_value] of a map: fields by name. *)
Definition str_field (k : bytes) (v : Value) : option bytes :=
  match get_member k v with Some (Str s) => Some s | _ => None end.
Definition int_field (k : bytes) (v : Value) : option Z :=
  match get_member k v with Some (Int n) => if (0 <=? n) && (n <=? U64_MAX) then Some n else None | _ => None end.
Definition self_info_of (v : Value) : res SelfInfo :=
  pk ← ok_or (str_field (bstr "pub_key") v) "parsing getSelf reply";
  addr ← ok_or (str_field (bstr "address") v) "parsing getSelf reply";
  n ← ok_or (int_field (bstr "peer_count") v) "parsing getSelf reply";
  Ok {| si_pub_key := pk; si_address := addr; si_peer_count := n |}.

Definition parse_hex_key (hex_str : bytes) : res bytes :=
  key ← ok_or (hex_decode (trim hex_str)) "public key must be hex";
  bail_if negb (len key =? 32) with "public key must decode to 32 bytes";
  Ok key.

(** The commands, by what they print. *)
Definition cmd_status (server : bytes → res bytes) : res bytes :=
  v ← call server (bstr "getSelf") None;
  s ← self_info_of v;
  Ok (bstr "pub_key:    " ++ si_pub_key s ++ [newline] ++ bstr "address:    " ++ si_address s ++ [newline] ++
      bstr "peer_count: " ++ decimal (si_peer_count s) ++ [newline]).

Definition cmd_addpeer (server : bytes → res bytes) (uri : bytes) : res bytes :=
  v ← call server (bstr "addPeer") (Some uri);
  status ← ok_or (str_field (bstr "status") v) "parsing addPeer reply";
  uri ← ok_or (str_field (bstr "uri") v) "parsing addPeer reply";
  Ok (status ++ bstr ": " ++ uri ++ [newline]).

Definition cmd_showaddr (pub_key_hex : bytes) : res bytes :=
  key ← parse_hex_key pub_key_hex;
  addr ← address_from_key key;
  Ok (ipv6_string addr ++ [newline]).

(** The phrase that [share] prints. *)
Definition cmd_share (server : bytes → res bytes) : res bytes :=
  v ← call server (bstr "getSelf") None;
  s ← self_info_of v;
  key ← parse_hex_key (si_pub_key s);
  Ok (to_mnemonic key).

Definition cmd_resolve (words : list bytes) : res bytes :=
  key ← from_mnemonic (join [u8 32] words);
  addr ← address_from_key key;
  Ok (bstr "pub_key:  " ++ hex_encode key ++ [newline] ++ bstr "address:  " ++ ipv6_string addr ++ [newline]).
End Client.

(** ** Properties *)

(** The socket is never open to anyone but its owner, at no point of its set-up and
    whatever fails; a failed set-up leaves no socket and the umask as it was; while
    the daemon serves, the umask stays at [0o177]. *)
Theorem socket_private bind_ok chmod_ok h :
  let '(r, hs) := listen_setup bind_ok chmod_ok h in
  Forall (λ h, ∀ mode, socket h = Some mode → Z.land mode 0x3f = 0) hs ∧
  match r, last hs with
  | Serving, Some h' => socket h' = Some 0x180 ∧ umask h' = 0x7f
  | _, Some h' => socket h' = None ∧ umask h' = umask h
  | _, None => False
  end.
Proof.
  destruct bind_ok, chmod_ok; cbn; (split; [|done]); repeat constructor; cbn; intros mode [=]; by subst.
Qed.

Section AdminProps.
Context `{Channels} `{Blake2Laws} `{HexLaws} `{SerdeJsonLaws} `{Bip39Laws}.

Lemma object_line ms :
  Forall member_ok ms → trim (json_print (Object ms)) = json_print (Object ms) ∧
  json_print (Object ms) ≠ [] ∧ lines (json_print (Object ms) ++ [newline]) = [json_print (Object ms)].
Proof.
  intros Hms. destruct (json_braces ms) as [body E]. pose proof (json_line (Object ms)) as Hn.
  pose proof (json_ascii ms Hms) as Ha.
  assert (∀ b, head (json_print (Object ms)) = Some b → graphic b) as Hh
    by (rewrite E; by intros b [= <-]).
  assert (∀ b, last (json_print (Object ms)) = Some b → graphic b) as Hl
    by (rewrite E, (assoc_L (++)), last_snoc; by intros b [= <-]).
  assert (json_print (Object ms) ≠ []) as Hne by (rewrite E; done).
  split_and!; [by apply trim_graphic|done|by apply lines_one].
Qed.

(** What a client gets for one request. *)
Lemma handle_request conns env c ms req :
  conns 0%nat = (env, c) → Forall member_ok ms → request_of (Object ms) = Some req →
  handle_client conns (json_print (Object ms) ++ [newline])
  = '(resp, dial) ← admin_dispatch env c req;
    Ok (json_print (response_value resp) ++ [newline], option_list dial).
Proof.
  intros Hc Hms Hreq. destruct (object_line ms Hms) as (Ht & Hne & Hl). unfold handle_client. rewrite Hl.
  cbn [serve]. rewrite Ht, bool_decide_false by done. rewrite (json_round ms Hms). cbn [mbind option_bind].
  rewrite Hreq, Hc. destruct (admin_dispatch env c req) as [[resp dial]| |]; [|done..].
  cbn [mbind res_bind]. by rewrite !app_nil_r.
Qed.

Definition answers (conns : nat → Env * PacketConn.t) (input : bytes) : res bytes :=
  '(out, _) ← handle_client conns input; Ok out.

(** A call that is answered by an object. *)
Lemma call_answer conns env c m uri ms dial resp :
  conns 0%nat = (env, c) → ascii m → (∀ u, uri = Some u → ascii u) →
  admin_dispatch env c {| method := m; req_uri := uri |} = Ok (resp, dial) →
  response_value resp = Object ms → Forall member_ok ms →
  handle_client conns (json_print (req_value m uri) ++ [newline])
    = Ok (json_print (Object ms) ++ [newline], option_list dial) ∧
  call (answers conns) m uri
  = match get_member (bstr "error") (Object ms) with Some (Str _) => Err "daemon error" | _ => Ok (Object ms) end.
Proof.
  intros Hc Hm Hu Hd Hr Hms. unfold call, answers, req_value. set (rs := (bstr "method", Str m) :: _).
  assert (Forall member_ok rs) as Hrs.
  { unfold rs. constructor; [split; [by apply ascii_literal|done]|].
    destruct uri as [u|]; [|constructor]. constructor; [|constructor].
    split; [by apply ascii_literal|by apply Hu]. }
  assert (request_of (Object rs) = Some {| method := m; req_uri := uri |}) as Hq by (by destruct uri).
  rewrite (handle_request conns env c rs _ Hc Hrs Hq), Hd. cbn [mbind res_bind]. rewrite Hr.
  split; [done|]. destruct (object_line ms Hms) as (_ & _ & Hl). cbn [mbind res_bind].
  rewrite Hl. cbn [head ok_or mbind res_bind]. rewrite (json_round ms Hms). cbn [ok_or mbind res_bind]. done.
Qed.

Definition is_method (m : bytes) : bool :=
  bool_decide (m ∈ [bstr "getSelf"; bstr "getPeers"; bstr "addPeer"]).

Lemma self_info_round info : 0 ≤ si_peer_count info ≤ U64_MAX → self_info_of (self_value info) = Ok info.
Proof.
  intros Hn. unfold self_info_of, int_field.
  change (get_member (bstr "peer_count") (self_value info)) with (Some (Int (si_peer_count info))).
  change (str_field (bstr "pub_key") (self_value info)) with (Some (si_pub_key info)).
  change (str_field (bstr "address") (self_value info)) with (Some (si_address info)). cbn beta iota.
  rewrite (proj2 (Z.leb_le 0 _)), (proj2 (Z.leb_le _ U64_MAX)) by apply Hn. by destruct info.
Qed.

Lemma self_answer conns env c addr :
  conns 0%nat = (env, c) → address_from_key (PacketConn.pub_key c) = Ok addr →
  len (get_peer_stats env (PacketConn.inner c)) ≤ U64_MAX →
  ∃ v, call (answers conns) (bstr "getSelf") None = Ok v ∧
    self_info_of v = Ok {| si_pub_key := hex_encode (PacketConn.pub_key c); si_address := ipv6_string addr;
                           si_peer_count := len (get_peer_stats env (PacketConn.inner c)) |}.
Proof.
  intros Hc Ha Hn. set (info := Build_SelfInfo (hex_encode (PacketConn.pub_key c)) (ipv6_string addr)
    (len (get_peer_stats env (PacketConn.inner c)))).
  destruct (address_text _ _ Ha) as [Hl _].
  pose proof (call_answer conns env c (bstr "getSelf") None
    [(bstr "pub_key", Str (si_pub_key info)); (bstr "address", Str (si_address info));
     (bstr "peer_count", Int (si_peer_count info))] None (GetSelf info) Hc) as Hcall.
  eexists. split.
  - apply Hcall; [by apply ascii_literal|done| |done|].
    + unfold admin_dispatch. cbn [method]. rewrite bool_decide_true by done. by rewrite Ha.
    + apply Forall_cons. split; [split; [by apply ascii_literal|apply graphic_ascii, hex_encode_graphic]|].
      apply Forall_cons. split; [split; [by apply ascii_literal|by apply graphic_ascii, ipv6_string_graphic]|].
      apply Forall_singleton. split; [by apply ascii_literal|].
      unfold info. cbn [snd si_peer_count]. unfold U64_MAX in Hn. len_lia.
  - apply (self_info_round info). unfold info. cbn [si_peer_count]. len_lia.
Qed.

Lemma unknown_answer conns env c m :
  conns 0%nat = (env, c) → ascii m → is_method m = false →
  let ms := [(bstr "error", Str (bstr "unknown method: " ++ quoted m))] in
  handle_client conns (json_print (req_value m None) ++ [newline]) = Ok (json_print (Object ms) ++ [newline], []) ∧
  call (answers conns) m None = Err "daemon error".
Proof.
  intros Hc Hm Hmeth ms. apply bool_decide_eq_false in Hmeth.
  apply (call_answer conns env c m None ms None (ErrorResponse (bstr "unknown method: " ++ quoted m)) Hc Hm); try done.
  - unfold admin_dispatch. cbn [method]. by rewrite !bool_decide_false by (intros ->; apply Hmeth; set_solver).
  - apply Forall_singleton. split; [by apply ascii_literal|]. cbn [snd]. apply Forall_app.
    split; [by apply ascii_literal|]. apply Forall_app. split; [by apply ascii_literal|].
    apply Forall_app. split; [done|by apply ascii_literal].
Qed.

End AdminProps.

(** ** A concrete daemon *)

Module ToyAdmin.
Import Toy ToyText.

Definition scalar (v : Value) : option (bytes + Z) :=
  match v with Str s => Some (inl s) | Int n => Some (inr n) | _ => None end.
Definition unscalar (x : option (bytes + Z)) : Value :=
  match x with Some (inl s) => Str s | Some (inr n) => Int n | None => Null end.

Definition toy_print (v : Value) : bytes :=
  let ms := match v with Object ms => ms | _ => [] end in
  [u8 123] ++ serial (map (λ m, (m.1, scalar m.2)) ms) ++ [u8 125].
Definition toy_parse (l : bytes) : option Value :=
  match l with
  | _ :: l => ms ← unserial (removelast l); Some (Object (map (λ m, (m.1, unscalar m.2)) ms))
  | [] => None
  end.
#[export] Instance toy_serde : SerdeJson :=
  {| json_print := toy_print; json_parse := toy_parse; json_error _ := bstr "error" |}.

Lemma toy_print_bytes v : Forall (λ b, 48 ≤ uz b < 128) (toy_print v).
Proof.
  unfold toy_print. rewrite !Forall_app. split_and!; [by repeat constructor| |by repeat constructor].
  apply (Forall_impl _ _ _ (serial_digits _)). lia.
Qed.

#[export] Instance toy_serde_laws : SerdeJsonLaws.
Proof.
  split.
  - intros ms Hms. cbn. rewrite removelast_last, unserial_serial. cbn [mbind option_bind]. do 2 f_equal.
    rewrite map_map. rewrite <- (map_id ms) at 2. apply map_ext_in. intros [k v] Hin%list_elem_of_In.
    rewrite Forall_forall in Hms. destruct (Hms _ Hin) as [_ Hv]. by destruct v.
  - intros v Hin. pose proof (toy_print_bytes v) as Hall. rewrite Forall_forall in Hall.
    specialize (Hall _ Hin). by vm_compute in Hall; destruct Hall.
  - intros ms. by eexists.
  - intros ms _. apply (Forall_impl _ _ _ (toy_print_bytes _)). lia.
Qed.

#[export] Instance toy_bip39 : Bip39 := {| bip39_phrase := hex_encode; bip39_parse := hex_decode |}.
#[export] Instance toy_bip39_laws : Bip39Laws.
Proof.
  split; intros key.
  - intros _. apply hex_decode_encode.
  - apply trim_all_graphic, hex_encode_graphic.
Qed.
End ToyAdmin.

Section AdminWitness.
Import ToyRouter ToyText ToyAdmin.

Let c : PacketConn.t := PacketConn.new env sk_me (fill 64 (u8 1)) (fill 32 (u8 2)).
Let conns : nat → Env * PacketConn.t := λ _, (env, c).
Let addr : bytes := match address_from_key (PacketConn.pub_key c) with Ok a => a | _ => [] end.
Let uri : bytes := bstr "tcp://h:1".

End AdminWitness.
