(* ===== verification/Metrics.v ===== *)
(** * Metrics

    [src/metrics.rs] and the traffic counters of [src/router/diagnostics.rs]: the text
    of the metrics endpoint, and what a scraper reads from it.  The process-wide
    counters that are not derived from the router's log are arguments. *)

From Stdlib Require Import Floats.SpecFloat.
From S2P Require Import Prelude Collections Floats Crypto Hyperbolic Packet Text Router Conn Admin RouterToy.
Import RouterState.

(** ** Traffic by message type *)

Definition TX_TYPE_NAMES : list bytes :=
  map bstr ["sig"; "announce"; "cuckoo"; "pathfind"; "traffic"; "coord"; "onion"; "onionkey"; "reputation";
            "holepunch"; "pathneg"; "capabilities"; "other"]%string.

Definition tx_type_slot (first_byte : Z) : nat :=
  if (first_byte =? 2) || (first_byte =? 3) then 0
  else if first_byte =? 4 then 1
  else if first_byte =? 5 then 2
  else if (6 <=? first_byte) && (first_byte <=? 8) then 3
  else if first_byte =? 9 then 4
  else if first_byte =? 10 then 5
  else if first_byte =? 11 then 6
  else if first_byte =? 12 then 7
  else if first_byte =? 13 then 8
  else if first_byte =? 14 then 9
  else if first_byte =? 15 then 10
  else if first_byte =? 0x11 then 11
  else 12.

(** [fetch_add] wraps. *)
Definition record_tx_bytes (first_byte n : Z) (counts : list Z) : list Z :=
  alter (λ c, wrap64 (c + n)) (tx_type_slot first_byte) counts.

Definition first_byte (frame : bytes) : Z := match frame with b :: _ => uz b | [] => 0 end.

(** The counters after what was sent: [send_to_peer] records each frame that a link
    takes. *)
Definition tx_counts (log : list io_event) : list Z :=
  foldl (λ counts e, match e with
                     | TrySend _ frame Sent => record_tx_bytes (first_byte frame) (len frame) counts
                     | _ => counts
                     end) (replicate 13 0) log.

Definition tx_bytes_by_type (counts : list Z) : list (bytes * Z) := zip TX_TYPE_NAMES counts.

(** ** Numbers *)

(** [{:.n}] of a float: the exact value, rounded to [n] decimals with ties to even. *)
Definition round_even (num den : Z) : Z :=
  let q := num / den in
  match Z.compare (2 * (num mod den)) den with
  | Lt => q
  | Gt => q + 1
  | Eq => if Z.even q then q else q + 1
  end.
Definition pad_zeros (n : nat) (digits : bytes) : bytes := replicate (n - length digits) (u8 48) ++ digits.
Definition fixed_digits (n : nat) (scaled : Z) : bytes :=
  let p := 10 ^ Z.of_nat n in
  decimal (scaled / p) ++ (if decide (n = 0%nat) then [] else bstr "." ++ pad_zeros n (decimal (scaled mod p))).
Definition sign_text (s : bool) : bytes := if s then bstr "-" else [].
Definition fixed (n : nat) (x : float) : bytes :=
  match x with
  | S754_nan => bstr "NaN"
  | S754_infinity s => sign_text s ++ bstr "inf"
  | S754_zero s => sign_text s ++ fixed_digits n 0
  | S754_finite s m e =>
      let num := Zpos m * 2 ^ Z.max e 0 * 10 ^ Z.of_nat n in
      sign_text s ++ fixed_digits n (round_even num (2 ^ Z.max (- e) 0))
  end.

(** ** The exposition *)

(** A metric with its help, its type and its samples: labels and value. *)
Record Family := { name : bytes; help : bytes; kind : bytes; family_samples : list (bytes * bytes) }.

Definition label (k v : bytes) : bytes := k ++ bstr "=" ++ quoted v.
Definition labels (ls : list bytes) : bytes := bstr "{" ++ join (bstr ",") ls ++ bstr "}".

Definition family_text (f : Family) : bytes :=
  bstr "# HELP " ++ name f ++ bstr " " ++ help f ++ [newline] ++
  bstr "# TYPE " ++ name f ++ bstr " " ++ kind f ++ [newline] ++
  concat (map (λ x, name f ++ x.1 ++ bstr " " ++ x.2 ++ [newline]) (family_samples f)).

Definition gauge := bstr "gauge".
Definition counter_kind := bstr "counter".

Record Counters := {
  poison : Z; ctrl_sent : Z; ctrl_suppressed : Z; parent_changes : Z; no_route : Z;
  transit_greedy : Z; transit_cuckoo : Z }.

Section Render.
Context `{Channels} `{Hex}.

Definition per_peer (stats : list PeerStats) (value : PeerStats → bytes) : list (bytes * bytes) :=
  map (λ p, (labels [label (bstr "peer") (hex_encode (key p))], value p)) stats.
Definition tree_label (t : TreeStat) : bytes := label (bstr "tree") (decimal (ts_tree_id t)).

Definition peer_families (env : Env) (uptime_us : Z) (c : PacketConn.t) : list Family :=
  let stats := get_peer_stats env (PacketConn.inner c) in
  [ {| name := bstr "norn_self_pub_key"; help := bstr "This node's ed25519 public key (label only)."; kind := gauge;
       family_samples := [(labels [label (bstr "pub_key") (hex_encode (PacketConn.pub_key c))], bstr "1")] |};
    {| name := bstr "norn_uptime_seconds"; help := bstr "Time since the daemon started."; kind := gauge;
       family_samples := [([], fixed 3 (as_secs_f64 uptime_us))] |};
    {| name := bstr "norn_peers_total"; help := bstr "Number of currently-connected peers."; kind := gauge;
       family_samples := [([], decimal (len stats))] |};
    {| name := bstr "norn_peer_rx_bytes_total"; help := bstr "Cumulative bytes received from this peer.";
       kind := counter_kind; family_samples := per_peer stats (λ p, decimal (ps_rx_bytes p)) |};
    {| name := bstr "norn_peer_tx_bytes_total"; help := bstr "Cumulative bytes sent to this peer.";
       kind := counter_kind; family_samples := per_peer stats (λ p, decimal (ps_tx_bytes p)) |};
    {| name := bstr "norn_peer_lag_seconds"; help := bstr "EWMA round-trip lag to this peer."; kind := gauge;
       family_samples := per_peer stats (λ p, fixed 6 (as_secs_f64 (ps_lag p))) |};
    {| name := bstr "norn_peer_jitter_seconds"; help := bstr "EWMA jitter of the RTT to this peer."; kind := gauge;
       family_samples := per_peer stats (λ p, fixed 6 (as_secs_f64 (ps_jitter p))) |};
    {| name := bstr "norn_peer_loss_rate"; help := bstr "Estimated packet loss rate (0..1) to this peer.";
       kind := gauge; family_samples := per_peer stats (λ p, fixed 4 (ps_loss_rate p)) |};
    {| name := bstr "norn_peer_trust"; help := bstr "Per-peer trust score; lower = de-prioritised in routing.";
       kind := gauge; family_samples := per_peer stats (λ p, fixed 4 (ps_trust p)) |};
    {| name := bstr "norn_peer_uptime_seconds"; help := bstr "How long this peer has been connected."; kind := gauge;
       family_samples := per_peer stats (λ p, fixed 3 (as_secs_f64 (uptime p))) |} ].

Definition counter_families (k : Counters) (log : list io_event) : list Family :=
  [ {| name := bstr "norn_mutex_poison_total";
       help := bstr "Times a poisoned router/session mutex was silently recovered. " ++
               bstr "Non-zero values indicate a panic-while-holding-lock incident; " ++
               bstr "protected state may be inconsistent and should be investigated.";
       kind := counter_kind; family_samples := [([], decimal (poison k))] |};
    {| name := bstr "norn_control_broadcasts_total";
       help := bstr "Periodic control broadcasts (ANNOUNCE + CoordAnnounce) actually sent.";
       kind := counter_kind; family_samples := [([], decimal (ctrl_sent k))] |};
    {| name := bstr "norn_control_suppressed_total";
       help := bstr "Maintenance ticks where the control broadcast was skipped " ++
               bstr "by the adaptive cadence (roadmap #9).";
       kind := counter_kind; family_samples := [([], decimal (ctrl_suppressed k))] |};
    {| name := bstr "norn_tree_parent_changes_total";
       help := bstr "Spanning-tree parent-pointer switches in fix_tree. Continued " ++
               bstr "growth on a settled topology indicates parent flapping.";
       kind := counter_kind; family_samples := [([], decimal (parent_changes k))] |};
    {| name := bstr "norn_cuckoo_no_route_total";
       help := bstr "Transit packets with no route (cuckoo miss / transient hole).";
       kind := counter_kind; family_samples := [([], decimal (no_route k))] |};
    {| name := bstr "norn_transit_greedy_total";
       help := bstr "Transit packets forwarded by hyperbolic greedy (dest_coord).";
       kind := counter_kind; family_samples := [([], decimal (transit_greedy k))] |};
    {| name := bstr "norn_transit_cuckoo_total";
       help := bstr "Transit packets forwarded by cuckoo fallback (no coord / local min).";
       kind := counter_kind; family_samples := [([], decimal (transit_cuckoo k))] |};
    {| name := bstr "norn_tx_bytes_by_type"; help := bstr "Bytes sent to peers, by frame type."; kind := counter_kind;
       family_samples := map (λ x, (labels [label (bstr "type") x.1], decimal x.2))
                           (tx_bytes_by_type (tx_counts log)) |} ].

Definition tree_families (trees : list TreeStat) : list Family :=
  [ {| name := bstr "norn_tree_root"; help := bstr "Current root pub_key for this tree (1 = this node's view).";
       kind := gauge;
       family_samples :=
         map (λ t, (labels [tree_label t; label (bstr "root") (hex_encode (ts_root t))], bstr "1")) trees |};
    {| name := bstr "norn_tree_parent";
       help := bstr "Direct parent pub_key in this tree (1 sample = one outgoing edge)."; kind := gauge;
       family_samples :=
         omap (λ t, parent ← ts_parent t;
                    Some (labels [tree_label t; label (bstr "parent") (hex_encode parent)], bstr "1")) trees |};
    {| name := bstr "norn_tree_depth"; help := bstr "Hop count from this node to its tree's root."; kind := gauge;
       family_samples := map (λ t, (labels [tree_label t], decimal (ts_depth t))) trees |};
    {| name := bstr "norn_tree_parent_cost"; help := bstr "Loss-adjusted cost of the parent edge."; kind := gauge;
       family_samples := map (λ t, (labels [tree_label t], decimal (ts_parent_cost t))) trees |};
    {| name := bstr "norn_tree_is_root"; help := bstr "1 if this node is the current root of the tree."; kind := gauge;
       family_samples := map (λ t, (labels [tree_label t], if ts_is_root t then bstr "1" else bstr "0")) trees |} ].

Definition families (env : Env) (uptime_us : Z) (k : Counters) (c : PacketConn.t) : list Family :=
  peer_families env uptime_us c ++ counter_families k (io (PacketConn.inner c)) ++
  tree_families (get_tree_state (PacketConn.inner c)).

Definition render (env : Env) (uptime_us : Z) (k : Counters) (c : PacketConn.t) : bytes :=
  concat (map family_text (families env uptime_us k c)).

(** The answer to any request. *)
Definition crlf : bytes := [u8 13; u8 10].
Definition respond (body : bytes) : bytes :=
  bstr "HTTP/1.1 200 OK" ++ crlf ++ bstr "Content-Type: text/plain; version=0.0.4" ++ crlf ++
  bstr "Content-Length: " ++ decimal (len body) ++ crlf ++ bstr "Connection: close" ++ crlf ++ crlf ++ body.
End Render.

(** ** A scraper *)

(** A sample is the text before the first space of a line and the text after it. *)
Definition scrape_line (l : bytes) : option (bytes * bytes) :=
  match l with
  | [] => None
  | b :: _ =>
      if bool_decide (b = u8 35) then None
      else let k := List.hd [] (split_on (u8 32) l) in Some (k, drop (length k + 1) l)
  end.
Definition scrape (body : bytes) : list (bytes * bytes) := omap scrape_line (split_on newline body).

(** What it should read. *)
Definition rows (f : Family) : list (bytes * bytes) := map (λ x, (name f ++ x.1, x.2)) (family_samples f).

(** The bytes of the frames of a type that links took. *)
Definition bytes_of_type (slot : nat) (log : list io_event) : Z :=
  foldr (λ e acc, match e with
                  | TrySend _ frame Sent =>
                      if decide (tx_type_slot (first_byte frame) = slot) then len frame + acc else acc
                  | _ => acc
                  end) 0 log.

(** ** Proofs *)

Lemma tx_type_slot_range b : (tx_type_slot b < 13)%nat.
Proof. unfold tx_type_slot. repeat case_match; lia. Qed.

Lemma bytes_of_type_app slot l1 l2 : bytes_of_type slot (l1 ++ l2) = bytes_of_type slot l1 + bytes_of_type slot l2.
Proof.
  unfold bytes_of_type. induction l1 as [|e l1 IH]; [done|]. cbn [app foldr].
  destruct e as [tx f []| | |]; try done. case_decide; rewrite IH; lia.
Qed.

(** Every byte is counted under its type, and nothing else is. *)
Lemma tx_counts_spec log slot :
  (slot < 13)%nat → tx_counts log !! slot = Some (wrap64 (bytes_of_type slot log)).
Proof.
  intros Hs. unfold tx_counts. induction log as [|e log IH] using rev_ind.
  - cbn [foldl]. by apply lookup_replicate.
  - rewrite foldl_app, bytes_of_type_app. cbn [foldl]. destruct e as [tx f r| | |]; [destruct r|..];
      cbn [bytes_of_type foldr]; rewrite ?Z.add_0_r; try exact IH.
    unfold record_tx_bytes at 1. case_decide as Hd.
    + rewrite Hd, list_lookup_alter_eq, IH. cbn. f_equal. unfold wrap64. by rewrite Zplus_mod_idemp_l.
    + rewrite list_lookup_alter_ne by done. by rewrite Z.add_0_r.
Qed.

Lemma fixed_graphic n x : Forall graphic (fixed n x).
Proof.
  assert (∀ s, Forall graphic (sign_text s)) as Hsg by (intros []; by repeat constructor).
  assert (∀ z, Forall graphic (fixed_digits n z)) as Hd.
  { intros z. unfold fixed_digits. apply Forall_app. split; [apply decimal_graphic|]. case_decide; [constructor|].
    apply Forall_app. split; [by repeat constructor|]. apply Forall_app. split; [|apply decimal_graphic].
    by apply Forall_replicate. }
  destruct x as [s|s| |s m e]; cbn [fixed].
  1,4: apply Forall_app; auto.
  - apply Forall_app. split; [done|]. by repeat constructor.
  - by repeat constructor.
Qed.

Lemma label_graphic k v : Forall graphic k → Forall graphic v → Forall graphic (label k v).
Proof. intros Hk Hv. unfold label, quoted. rewrite !Forall_app. by repeat constructor. Qed.
Lemma labels_graphic ls : Forall (Forall graphic) ls → Forall graphic (labels ls).
Proof.
  intros Hls. unfold labels. rewrite !Forall_app. split_and!; [by repeat constructor| |by repeat constructor].
  apply join_graphic; [by repeat constructor|done].
Qed.

(** The lines of a metric, and what a metric needs to be read back. *)
Definition family_lines (f : Family) : list bytes :=
  (bstr "# HELP " ++ name f ++ bstr " " ++ help f) :: (bstr "# TYPE " ++ name f ++ bstr " " ++ kind f) ::
  map (λ x, name f ++ x.1 ++ bstr " " ++ x.2) (family_samples f).
Record family_ok (f : Family) : Prop := {
  fo_name : Forall graphic (name f) ∧ head (name f) ≠ None ∧ head (name f) ≠ Some (u8 35);
  fo_help : (newline ∉ help f) ∧ (newline ∉ kind f);
  fo_samples : Forall (λ x, Forall graphic x.1 ∧ Forall graphic x.2) (family_samples f) }.

Lemma family_text_lines f : family_text f = concat (map (λ l, l ++ [newline]) (family_lines f)).
Proof.
  unfold family_text, family_lines. cbn [map concat].
  assert (map (λ l, l ++ [newline]) (map (λ x, name f ++ x.1 ++ bstr " " ++ x.2) (family_samples f))
          = map (λ x, name f ++ x.1 ++ bstr " " ++ x.2 ++ [newline]) (family_samples f)) as ->.
  { rewrite map_map. apply map_ext. intros x. by rewrite <- !(assoc_L (++)). }
  by rewrite <- !(assoc_L (++)).
Qed.

Lemma graphic_not c l : ¬ graphic c → Forall graphic l → c ∉ l.
Proof. intros Hc Hl Hin. rewrite Forall_forall in Hl. by apply Hc, Hl. Qed.

Lemma scrape_sample k v : Forall graphic k → head k ≠ None → head k ≠ Some (u8 35) →
  scrape_line (k ++ bstr " " ++ v) = Some (k, v).
Proof.
  intros Hk Hne Hh. unfold scrape_line.
  assert (∃ b rest, k ++ bstr " " ++ v = b :: rest ∧ b ≠ u8 35) as (b & rest & E & Hb).
  { destruct k as [|b k]; [done|]. exists b. eexists. split; [done|]. intros ->. by apply Hh. }
  rewrite E, bool_decide_false, <- E by done. change (bstr " " ++ v) with (u8 32 :: v).
  assert (u8 32 ∉ k) as Hsp by (by apply graphic_not; [intros [? _]|]).
  rewrite (proj1 (split_on_part (u8 32) k Hsp v)). cbn [List.hd].
  change (u8 32 :: v) with ([u8 32] ++ v). by rewrite (assoc_L (++)), drop_app_length' by (by rewrite length_app).
Qed.

Lemma scrape_families fs :
  Forall family_ok fs → scrape (concat (map family_text fs)) = concat (map rows fs).
Proof.
  intros Hfs. rewrite (map_ext _ _ family_text_lines). unfold scrape.
  assert (concat (map (λ f, concat (map (λ l, l ++ [newline]) (family_lines f))) fs)
          = concat (map (λ l, l ++ [newline]) (concat (map family_lines fs)))) as ->.
  { clear Hfs. induction fs as [|f fs IH]; [done|]. cbn [map concat]. by rewrite IH, map_app, concat_app. }
  assert (¬ graphic newline) as Hnl by (intros [? _]; done).
  rewrite omap_lines; [|done|].
  - induction Hfs as [|f fs [(Hg & Hne & Hh) _ Hs] Hfs IH]; [done|]. cbn [map concat]. rewrite omap_app, IH. f_equal.
    unfold family_lines, rows. cbn [omap list_omap].
    change (scrape_line (bstr "# HELP " ++ _)) with (@None (bytes * bytes)).
    change (scrape_line (bstr "# TYPE " ++ _)) with (@None (bytes * bytes)). cbn iota. clear IH Hfs.
    induction Hs as [|x xs [Hx1 Hx2] Hs IH]; [done|]. cbn [map omap list_omap].
    rewrite (assoc_L (++) (name f)), scrape_sample, IH; [done|by apply Forall_app| |]; by destruct (name f).
  - apply Forall_concat, Forall_fmap, (Forall_impl _ _ _ Hfs). intros f [(Hg & _) [Hh Hk] Hs]. cbn.
    assert (∀ x : bytes, Forall graphic x → newline ∉ x) as Hno by (intros x; by apply graphic_not).
    repeat constructor; [rewrite !not_elem_of_app; split_and!; try done; [|by apply Hno|]; by literal..|].
    apply Forall_fmap, (Forall_impl _ _ _ Hs). intros x [Hx1 Hx2]. cbn. rewrite !not_elem_of_app.
    split_and!; [by apply Hno|by apply Hno|by literal|by apply Hno].
Qed.

Section MetricsProps.
Context `{Channels} `{HexLaws}.

Definition sample_ok (x : bytes * bytes) : Prop := Forall graphic x.1 ∧ Forall graphic x.2.

Lemma family_literal n h k xs :
  forallb (λ b, (32 <? uz b) && (uz b <? 127)) n = true → head n ≠ None → head n ≠ Some (u8 35) →
  forallb (λ b, negb (uz b =? 10)) h = true → forallb (λ b, negb (uz b =? 10)) k = true →
  Forall sample_ok xs → family_ok {| name := n; help := h; kind := k; family_samples := xs |}.
Proof.
  intros Hn Hne Hh Hhl Hk Hxs. split; cbn; [split; [|done]| |done].
  - apply Forall_forall. intros b Hb%list_elem_of_In. rewrite forallb_forall in Hn. specialize (Hn b Hb).
    unfold graphic. lia.
  - assert (∀ l : bytes, forallb (λ b, negb (uz b =? 10)) l = true → newline ∉ l) as Hl; [|auto].
    intros l Hl Hin%list_elem_of_In. rewrite forallb_forall in Hl. by specialize (Hl _ Hin).
Qed.

Lemma one_sample v : Forall graphic v → Forall sample_ok [([], v)].
Proof. intros Hv. apply Forall_singleton. by split; [constructor|]. Qed.

Lemma map_samples {A} (f : A → bytes * bytes) l : (∀ x, sample_ok (f x)) → Forall sample_ok (map f l).
Proof. intros Hf. apply Forall_fmap, Forall_forall. intros x _. apply Hf. Qed.

Lemma tree_label_graphic t : Forall graphic (tree_label t).
Proof. apply label_graphic; [by repeat constructor|apply decimal_graphic]. Qed.

Lemma per_peer_ok stats value : (∀ p, Forall graphic (value p)) → Forall sample_ok (per_peer stats value).
Proof.
  intros Hv. apply map_samples. intros p. split; [|apply Hv]. apply labels_graphic, Forall_singleton.
  apply label_graphic; [by repeat constructor|apply hex_encode_graphic].
Qed.

Lemma families_ok env up k c : Forall family_ok (families env up k c).
Proof.
  unfold families, peer_families, counter_families, tree_families. cbn [app].
  repeat (apply Forall_cons; split); [apply family_literal; try done..|constructor].
  all: first [ by apply one_sample, decimal_graphic | by apply one_sample, fixed_graphic
             | apply per_peer_ok; intros p; apply decimal_graphic
             | apply per_peer_ok; intros p; apply fixed_graphic | idtac ].
  - apply Forall_singleton. split; [|by repeat constructor]. apply labels_graphic, Forall_singleton, label_graphic;
      [by repeat constructor|apply hex_encode_graphic].
  - apply Forall_fmap, Forall_forall. intros [n x] Hx%elem_of_zip_l. split; [|apply decimal_graphic].
    apply labels_graphic, Forall_singleton, label_graphic; [by repeat constructor|]. cbn.
    assert (Forall (Forall graphic) TX_TYPE_NAMES) as Hall by (by repeat constructor).
    rewrite Forall_forall in Hall. by apply Hall.
  - apply map_samples. intros t. split; [|by repeat constructor]. apply labels_graphic.
    apply Forall_cons. split; [apply tree_label_graphic|].
    apply Forall_singleton, label_graphic; [by repeat constructor|apply hex_encode_graphic].
  - apply Forall_forall. intros x (t & _ & Ht)%list_elem_of_omap. destruct (ts_parent t); [|done].
    injection Ht as <-. split; [|by repeat constructor]. apply labels_graphic.
    apply Forall_cons. split; [apply tree_label_graphic|].
    apply Forall_singleton, label_graphic; [by repeat constructor|apply hex_encode_graphic].
  - apply map_samples. intros t. split; [|apply decimal_graphic]. apply labels_graphic, Forall_singleton, tree_label_graphic.
  - apply map_samples. intros t. split; [|apply decimal_graphic]. apply labels_graphic, Forall_singleton, tree_label_graphic.
  - apply map_samples. intros t. split; [|by destruct (ts_is_root t); repeat constructor].
    apply labels_graphic, Forall_singleton, tree_label_graphic.
Qed.

Lemma tx_bytes_by_type_spec log i n :
  TX_TYPE_NAMES !! i = Some n → (n, wrap64 (bytes_of_type i log)) ∈ tx_bytes_by_type (tx_counts log).
Proof.
  intros Hn. pose proof (lookup_lt_Some _ _ _ Hn) as Hi. apply list_elem_of_lookup. exists i.
  unfold tx_bytes_by_type. apply lookup_zip_with_Some. do 2 eexists. split_and!; [done..|]. by apply tx_counts_spec.
Qed.

Lemma rows_lookup fs i f l v :
  fs !! i = Some f → (l, v) ∈ family_samples f → (name f ++ l, v) ∈ concat (map rows fs).
Proof.
  intros Hf%list_elem_of_lookup_2 Hx. apply list_elem_of_In, in_concat. exists (rows f).
  split; apply list_elem_of_In; [by apply (list_elem_of_fmap_2 rows)|].
  by apply (list_elem_of_fmap_2 (λ x, (name f ++ x.1, x.2)) _ (l, v)).
Qed.

End MetricsProps.

Section MetricsWitness.
Import ToyRouter ToyText.

Let c : PacketConn.t :=
  PacketConn.with_inner (λ s, send_to_peer env key_a (bstr "abc") (add_peer env key_a 1 0 s))
    (PacketConn.new env sk_me (fill 64 (u8 1)) (fill 32 (u8 2))).
Let k : Counters :=
  {| poison := 0; ctrl_sent := 1; ctrl_suppressed := 2; parent_changes := 3; no_route := 4; transit_greedy := 5;
     transit_cuckoo := 6 |}.


(** The sample of the uptime, as it is read. *)
Example uptime_sample :
  scrape (render env 1500000 k c) !! 1%nat = Some (bstr "norn_uptime_seconds", bstr "1.500").
Proof. by vm_compute. Qed.
End MetricsWitness.
