(* ===== verification/TunLoop.v ===== *)
(** * The TUN adapter

    The two loops of [start] in [src/tun.rs]: packets read from the device are
    written to the node that owns their destination address, and packets delivered
    by the node are written to the device.  The device is what was written to it. *)

From S2P Require Import Prelude Collections Floats Crypto Packet Header Address Tun.
From S2P Require Import Session SessionManager Onion Sphinx Obfs Router Routing Handlers Conn.
From S2P Require Import RouterToy RouterProps RoutingProps Delivery.
Import RouterState.

Record Tun := mkTun { key_store : KeyStore.t; conn : PacketConn.t; written : list bytes }.

(** The IPv6 packet in what was read, after the header that some platforms put in
    front of it. *)
Definition ipv6_packet (buf : bytes) : option bytes :=
  let is_v6 (l : bytes) := match l with b :: _ => Z.shiftr (uz b) 4 =? 6 | [] => false end in
  if is_v6 buf then Some buf
  else if (4 <? len buf) && is_v6 (drop 4 buf) then Some (drop 4 buf) else None.

Definition tun_mtu : Z := wrap16 (Z.max (sat_sub mtu 300) 1280).

Section Loops.
Context `{Channels} `{Libm} `{Blake2} `{Blake2Mac} `{ChaCha20} `{Sha512} `{X25519} `{Hkdf}
  `{Aead} `{Ed25519} `{MlDsa} `{MlKem}.

(** The first connected peer with the address, which is then registered. *)
Fixpoint find_peer (keys : list bytes) (dest_addr : bytes) (ks : KeyStore.t)
    : res (option bytes * KeyStore.t) :=
  match keys with
  | [] => Ok (None, ks)
  | k :: keys =>
      addr ← address_from_key k;
      if bool_decide (addr = dest_addr) then '(_, ks) ← KeyStore.register ks k; Ok (Some k, ks)
      else find_peer keys dest_addr ks
  end.

Definition dest_key (env : Env) (dest_addr : bytes) (d : Tun) : res (option bytes * KeyStore.t) :=
  match KeyStore.key_for_addr (key_store d) dest_addr with
  | Some k => Ok (Some k, key_store d)
  | None => find_peer (map key (get_peer_stats env (PacketConn.inner (conn d)))) dest_addr (key_store d)
  end.

(** One turn of the loop that reads from the device. *)
Definition outbound (env : Env) (our_addr buf : bytes) (d : Tun) : res Tun :=
  match ipv6_packet buf with
  | None => Ok d
  | Some pkt =>
      if len pkt <? 40 then Ok d else
      dest_addr ← slice pkt 24 40;
      b0 ← index dest_addr 0;
      if negb (uz b0 =? 0x02) then Ok d else
      '(pub_key, ks) ← dest_key env dest_addr d;
      match pub_key with
      | Some key =>
          match PacketConn.write_to env pkt key (conn d) with
          | (Panic, _) => Panic
          | (_, c) => Ok (mkTun ks c (written d))
          end
      | None =>
          icmp ← icmpv6_dest_unreachable our_addr pkt;
          Ok (mkTun ks (conn d) (written d ++ option_list icmp))
      end
  end.

(** One turn of the loop that reads delivered packets. *)
Definition inbound_packet (from payload : bytes) (d : Tun) : res Tun :=
  '(_, ks) ← KeyStore.register (key_store d) from;
  Ok (mkTun ks (conn d) (written d ++ [payload])).

(** [start]: the node's own address, and the adapter at the beginning. *)
Definition start (c : PacketConn.t) (ks : KeyStore.t) : res (bytes * Tun) :=
  '(our_addr, ks) ← KeyStore.register ks (PacketConn.pub_key c);
  Ok (our_addr, mkTun ks c []).
End Loops.

Section TunDelivery.
Context `{Channels} `{Libm} `{Blake2Laws} `{Blake2Mac} `{ChaCha20} `{Sha512} `{X25519Laws} `{Hkdf}
  `{AeadLaws} `{Ed25519Laws} `{MlDsa} `{MlKem} `{!EdXLaws}.

(** The packet [pkt] is an IPv6 packet for the address [addr]. *)
Definition ipv6_to (addr pkt : bytes) : Prop :=
  ipv6_packet pkt = Some pkt ∧ 40 ≤ len pkt ≤ U16_MAX ∧ slice pkt 24 40 = Ok addr ∧
  index addr 0 = Ok (u8 0x02).

(** What [outbound] does with a packet for a known address. *)
Lemma outbound_known env our_addr addr pkt k d :
  ipv6_to addr pkt → KeyStore.key_for_addr (key_store d) addr = Some k →
  no_panic (PacketConn.write_to env pkt k (conn d)).1 →
  outbound env our_addr pkt d
    = Ok (mkTun (key_store d) (PacketConn.write_to env pkt k (conn d)).2 (written d)).
Proof.
  intros (Hv & Hl & Hs & Hi) Hk Hp. unfold outbound. rewrite Hv. test_false. rewrite Hs, bind_Ok, Hi, bind_Ok.
  change (negb (uz (u8 2) =? 2)) with false. cbn iota. unfold dest_key. rewrite Hk, bind_Ok.
  destruct (PacketConn.write_to env pkt k (conn d)) as [[] c']; cbn in *; [done..|by destruct Hp].
Qed.

End TunDelivery.

Section TunWitness.
Import ToyNet.

Let addr : bytes := match address_from_key key_b with Ok a => a | _ => [] end.
Let src : bytes := match address_from_key key_me with Ok a => a | _ => [] end.
Let pkt : bytes := [u8 0x60] ++ fill 23 (u8 0) ++ addr ++ bstr "data".
Let d : Tun := mkTun (KeyStore.mk {[ addr := key_b ]}) c [].
Let d' : Tun := mkTun KeyStore.new c [].

Lemma toy_ipv6 : ipv6_to addr pkt.
Proof. split; [by vm_compute|]. split; [by vm_compute|]. by split; vm_compute. Qed.

End TunWitness.
