(* ===== verification/OnionDelivery.v ===== *)
(** * Onion delivery

    A payload written through an onion: the sender wraps it, the relays peel and
    forward the cells, routers in between pass them on, and the destination's
    application gets the payload. *)

From Stdlib Require Import Floats.SpecFloat.
From S2P Require Import Prelude Collections Xor Floats Crypto Hyperbolic Varint Cuckoo Packet.
From S2P Require Import Header Address SessionWire Session SessionManager Onion Sphinx Obfs.
From S2P Require Import Router Routing Handlers Conn RouterToy RouterProps RoutingProps Delivery.
Import RouterState.

(** ** Layers *)

(** [wraps dest traffic relays p]: [p] is an onion around [traffic] for [dest],
    through [relays]. *)
Inductive wraps `{X25519} `{Aead} `{Blake2} (dest : OnionHop) (traffic : bytes)
    : list OnionHop → OnionPacket.t → Prop :=
| wraps_exit d p : build_layer d dest ONION_DELIVER traffic = Ok p → wraps dest traffic [] p
| wraps_relay d r rs p q : build_layer d r ONION_FORWARD (OnionPacket.encode_inner p) = Ok q →
    wraps dest traffic rs p → wraps dest traffic (r :: rs) q.

(** The cell of [p] is not too large. *)
Definition fits (p : OnionPacket.t) : Prop := len (OnionPacket.encode_unpadded p true) ≤ ONION_CELL_SIZE.

Section Layers.
Context `{X25519Laws} `{AeadLaws} `{Blake2Laws} (dest : OnionHop) (traffic : bytes).

Lemma wraps_shape rs p :
  wraps dest traffic rs p →
  len (OnionPacket.routing_tag p) = 16 ∧ len (OnionPacket.epk p) = 32 ∧
  OnionPacket.routing_tag p = routing_tag (identity_ed_pub (default dest (head rs))).
Proof.
  destruct 1 as [d p Hb|d r rs p q Hb _]; pose proof (build_layer_inv _ _ _ _ _ Hb) as (Hi & _);
    destruct (build_layer_shape _ _ _ _ _ Hb) as (? & ? & _); done.
Qed.

(** A layer takes at most 85 bytes. *)
Lemma layer_len d target ty content p :
  build_layer d target ty content = Ok p → len (OnionPacket.encode_inner p) ≤ len content + 85.
Proof.
  intros Hb. destruct (build_layer_shape _ _ _ _ _ Hb) as (Ht & He & Hp).
  unfold OnionPacket.encode_inner. rewrite OnionWire.len_encode_unpadded, Ht, He, Hp.
  pose proof (encode_uvarint_len (len content)).
  pose proof (encode_uvarint_len (1 + len (encode_uvarint (len content)) + len content + 16)). lia.
Qed.

Lemma layer_grows d target ty content p :
  build_layer d target ty content = Ok p → len content ≤ len (OnionPacket.encode_inner p).
Proof.
  intros Hb. destruct (build_layer_shape _ _ _ _ _ Hb) as (Ht & He & Hp).
  unfold OnionPacket.encode_inner. rewrite OnionWire.len_encode_unpadded, Ht, He, Hp.
  pose proof (encode_uvarint_len (len content)).
  pose proof (encode_uvarint_len (1 + len (encode_uvarint (len content)) + len content + 16)). lia.
Qed.

Lemma encode_unpadded_inner p : len (OnionPacket.encode_unpadded p true) = 1 + len (OnionPacket.encode_inner p).
Proof. unfold OnionPacket.encode_inner. rewrite !OnionWire.len_encode_unpadded. lia. Qed.

Lemma build_layer_ok d target ty content :
  len content ≤ 2 ^ 32 → ∃ p, build_layer d target ty content = Ok p.
Proof.
  intros Hl. unfold build_layer. pose proof (encode_uvarint_len (len content)).
  edestruct aead_seal_ok as (c & -> & _); [|by eexists]. rewrite !len_app. unfold AEAD_MAX.
  change (len [u8 ty]) with 1. lia.
Qed.

(** A sender that has at most seven relays can wrap every packet of half a cell. *)
Lemma build_onion_wraps draws relays :
  len traffic ≤ 590 → (length relays ≤ 7)%nat →
  ∃ p, build_onion draws relays dest traffic = Ok p ∧ wraps dest traffic relays p ∧ fits p.
Proof.
  intros Hl Hn. unfold build_onion.
  destruct (build_layer_ok (draws 0%nat) dest ONION_DELIVER traffic ltac:(lia)) as [p0 Hp0].
  rewrite Hp0, bind_Ok.
  assert (∀ rr rs k p, wraps dest traffic rs p →
    len (OnionPacket.encode_inner p) ≤ 590 + 85 * (1 + Z.of_nat (length rs)) →
    (length rr + length rs ≤ 7)%nat →
    ∃ q, build_relays draws k rr p = Ok q ∧ wraps dest traffic (rev rr ++ rs) q ∧ fits q) as Hrr.
  { induction rr as [|r rr IH]; intros rs k p Hw Hlen Hrs; cbn [build_relays rev app].
    - exists p. split_and!; [done..|]. unfold fits, ONION_CELL_SIZE. rewrite encode_unpadded_inner. cbn in Hrs. lia.
    - destruct (build_layer_ok (draws k) r ONION_FORWARD (OnionPacket.encode_inner p)) as [q Hq]; [lia|].
      rewrite Hq, bind_Ok, <- app_assoc. apply IH; [by econstructor| |cbn in *; lia].
      pose proof (layer_len _ _ _ _ _ Hq). cbn [length app]. lia. }
  destruct (Hrr (rev relays) [] 1%nat p0) as (q & Hq & Hw & Hf).
  - by econstructor.
  - pose proof (layer_len _ _ _ _ _ Hp0). cbn [length]. lia.
  - rewrite length_rev. cbn. lia.
  - rewrite rev_involutive, app_nil_r in Hw. by exists q.
Qed.

Lemma wraps_len rs p :
  wraps dest traffic rs p →
  len traffic ≤ len (OnionPacket.aead_payload p) ∧
  len (OnionPacket.encode_inner p) ≤ len traffic + 85 * (1 + len rs).
Proof.
  induction 1 as [d p Hb|d r rs p q Hb Hw [IH1 IH2]];
    destruct (build_layer_shape _ _ _ _ _ Hb) as (_ & _ & Hp); pose proof (layer_len _ _ _ _ _ Hb) as Hl;
    rewrite ?len_cons; change (len (@nil OnionHop)) with 0 in *.
  - pose proof (encode_uvarint_len (len traffic)). lia.
  - pose proof (encode_uvarint_len (len (OnionPacket.encode_inner p))).
    pose proof (OnionWire.len_encode_unpadded p false) as Hi.
    change (OnionPacket.encode_unpadded p false) with (OnionPacket.encode_inner p) in Hi. cbn iota in Hi.
    pose proof (encode_uvarint_len (len (OnionPacket.aead_payload p))). len_pos. lia.
Qed.

(** A packet of more than a cell is wrapped all the same, and no hop accepts the
    result. *)
Lemma oversized_onion_refused rs p :
  wraps dest traffic rs p → ONION_CELL_SIZE < len traffic ≤ 2 ^ 32 → len rs ≤ 2 ^ 32 →
  OnionPacket.decode (tail (OnionPacket.encode p)) = Err "OnionPacket aead_len exceeds cell size".
Proof.
  intros Hw Hl Hn. destruct (wraps_len _ _ Hw) as [H1' H2']. destruct (wraps_shape _ _ Hw) as (Ht & He & _).
  pose proof (OnionWire.len_encode_unpadded p false) as Hi. cbn iota in Hi.
  change (OnionPacket.encode_unpadded p false) with (OnionPacket.encode_inner p) in Hi.
  pose proof (encode_uvarint_len (len (OnionPacket.aead_payload p))).
  unfold ONION_CELL_SIZE in *.
  assert (tail (OnionPacket.encode p) = OnionPacket.encode_inner p) as ->.
  { unfold OnionPacket.encode, ONION_CELL_SIZE. cbn zeta. rewrite encode_unpadded_inner. by test_false. }
  unfold OnionPacket.decode, OnionPacket.encode_inner, OnionPacket.encode_unpadded, ONION_CELL_SIZE.
  repeat codec_step. done.
Qed.

(** What the holder of the layer's key finds in it. *)
Lemma wraps_peel rs p k :
  wraps dest traffic rs p → fits p →
  ephemeral_x_pub (default dest (head rs)) = x25519_base (OnionKeyChain.current_priv k) →
  match rs with
  | [] => OnionPacket.peel false p k = Ok (PDeliver traffic)
  | _ :: rs => ∃ q, OnionPacket.peel false p k = Ok (PForward (OnionPacket.encode_inner q)) ∧
                 OnionPacket.decode (OnionPacket.encode_inner q) = Ok q ∧ wraps dest traffic rs q ∧ fits q
  end.
Proof.
  unfold fits. rewrite encode_unpadded_inner. unfold ONION_CELL_SIZE.
  destruct 1 as [d p Hb|d r rs q p Hb Hw]; intros Hf Hk; cbn in Hk;
    pose proof (layer_grows _ _ _ _ _ Hb) as Hg.
  - pose proof (len_nonneg traffic).
    by rewrite (peel_layer false _ _ _ _ _ k Hb) by (lia || done || by right).
  - pose proof (len_nonneg (OnionPacket.encode_inner q)). exists q.
    rewrite (peel_layer false _ _ _ _ _ k Hb) by (lia || done || by left).
    destruct (wraps_shape _ _ Hw) as (Ht & He & _). split_and!; try done; [|rewrite encode_unpadded_inner; lia].
    rewrite <- (app_nil_r (OnionPacket.encode_inner q)). apply OnionWire.decode_encode_inner.
    split_and!; [done..|]. unfold ONION_CELL_SIZE.
    pose proof (OnionWire.len_encode_unpadded q false) as Hq.
    change (OnionPacket.encode_unpadded q false) with (OnionPacket.encode_inner q) in Hq. cbn iota in Hq.
    pose proof (encode_uvarint_len (len (OnionPacket.aead_payload q))). lia.
Qed.
End Layers.

(** ** Routers *)

Section Cells.
Context `{Channels} `{Libm} `{Blake2Laws} `{Blake2Mac} `{ChaCha20} `{Sha512} `{X25519Laws} `{Hkdf}
  `{AeadLaws} `{Ed25519Laws} `{MlDsa} `{MlKem}.

Definition is_onion (f : bytes) : bool := bool_decide (head f = Some (u8 TYPE_ONION)).

(** The cell a router sends on when it dispatches [frame]. *)
Definition onion_step (env : Env) (from frame : bytes) (s : t) : option bytes :=
  match dispatch env from frame s with
  | Ok s' => head (filter (λ f, is_onion f = true) (offered s s'))
  | _ => None
  end.

(** The cell that arrives at the end of a way over relays and other routers. *)
Fixpoint onion_carried (frame : bytes) (route : list (Env * bytes * t)) : option bytes :=
  match route with
  | [] => Some frame
  | (env, from, s) :: route => onion_step env from frame s ≫= λ frame', onion_carried frame' route
  end.

(** The digest under which [s] would remember the cell is new to it. *)
Definition unseen (frame : bytes) (s : t) : Prop :=
  ∀ p, OnionPacket.decode (tail frame) = Ok p → (is_onion_replay p s).1 = false.

(** The router [s] is not the destination, and where it is a relay, it holds the key
    the sender used. *)
Definition on_the_way (dest : OnionHop) (relays : list OnionHop) (s : t) : Prop :=
  routing_tag (identity_ed_pub dest) ≠ routing_tag (pub_key s) ∧
  ∀ r, r ∈ relays → routing_tag (identity_ed_pub r) = routing_tag (pub_key s) →
    ephemeral_x_pub r = x25519_base (OnionKeyChain.current_priv (onion_keys s)).

Lemma unseen_fresh frame s : onion_seen_set s = ∅ → unseen frame s.
Proof.
  intros He p _. unfold is_onion_replay, onion_digest_seen.
  by rewrite He, bool_decide_false by (apply not_elem_of_empty).
Qed.

Lemma is_onion_replay_keeps p s :
  let s' := (is_onion_replay p s).2 in
  onion_keys s' = onion_keys s ∧ io s' = io s ∧ pub_key s' = pub_key s ∧ signing_key s' = signing_key s ∧
  sessions s' = sessions s ∧ peers s' = peers s.
Proof. unfold is_onion_replay, onion_digest_seen. repeat case_match; done. Qed.

Lemma relay_cell env from tag cell s f :
  f ∈ filter (λ f, is_onion f = true) (offered s (relay env from tag cell s)) → f = cell.
Proof.
  intros [Ho Hin]%list_elem_of_filter. unfold relay in Hin.
  destruct (lookup_by_tag_excluding _ _ _ _); [by apply offered_send in Hin|].
  unfold send_path_negative in Hin. destruct (_ =? 0).
  - unfold offered in Hin. rewrite drop_all in Hin. by apply not_elem_of_nil in Hin.
  - apply offered_send in Hin as ->. done.
Qed.

Lemma cell_frame p :
  len (OnionPacket.routing_tag p) = 16 → len (OnionPacket.epk p) = 32 → fits p →
  ∃ data, OnionPacket.encode p = u8 TYPE_ONION :: data ∧ OnionPacket.decode data = Ok p ∧
    Frame.decode (OnionPacket.encode p) = Ok (Frame.Other TYPE_ONION data).
Proof.
  intros Ht He Hf. pose proof (OnionWire.receive p Ht He Hf) as Hr.
  assert (∃ data, OnionPacket.encode p = u8 TYPE_ONION :: data) as [data E].
  { unfold OnionPacket.encode. cbn. case_match; by eexists. }
  rewrite E in *. rewrite slice_from_cons, slice_from_start, bind_Ok in Hr by lia.
  exists data. split_and!; [done..|]. rewrite Frame_decode_cons. reflexivity.
Qed.

Lemma cell_tag p tag :
  len (OnionPacket.routing_tag p) = 16 → slice (OnionPacket.encode p) 1 17 = Ok tag →
  OnionPacket.routing_tag p = tag.
Proof.
  intros Ht.
  assert (∃ rest, OnionPacket.encode p = [u8 TYPE_ONION] ++ OnionPacket.routing_tag p ++ rest) as [rest ->].
  { unfold OnionPacket.encode, OnionPacket.encode_unpadded. case_match; rewrite <- ?app_assoc; by eexists. }
  rewrite slice_drop, (slice_head (OnionPacket.routing_tag p)) by (rewrite ?Ht; done). by intros [= ->].
Qed.

(** A router passes on the cell as it is, or, as a relay, the cell in its layer. *)
Lemma onion_step_wraps dest traffic relays env from rs p s f :
  wraps dest traffic rs p → fits p → on_the_way dest relays s → rs ⊆ relays →
  onion_step env from (OnionPacket.encode p) s = Some f →
  ∃ rs' q, f = OnionPacket.encode q ∧ wraps dest traffic rs' q ∧ fits q ∧ rs' ⊆ relays.
Proof.
  intros Hw Hf [Hd Hr] Hsub Hs. destruct (wraps_shape _ _ _ _ Hw) as (Ht & He & Htag).
  destruct (cell_frame p Ht He Hf) as (data & E & Hdec & Hfr). unfold onion_step, dispatch in Hs.
  rewrite Hfr in Hs. cbn match beta in Hs. unfold dispatch_onion in Hs. rewrite Hdec in Hs.
  unfold routing_tag_eq in Hs. case_bool_decide as Heq.
  2:{ apply head_Some_elem_of, relay_cell in Hs as ->. by exists rs, p. }
  destruct rs as [|r rs]; cbn in Htag; [congruence|].
  pose proof (wraps_peel dest traffic _ p (onion_keys s) Hw Hf) as (q & Hp & Hq & Hwq & Hfq).
  { cbn. apply Hr; [set_solver|congruence]. }
  unfold handle_onion in Hs. pose proof (is_onion_replay_keeps p (touch env from s)) as (Hk & Hio & _).
  destruct (is_onion_replay p (touch env from s)) as [[] s1]; cbn in Hk, Hio.
  - unfold offered in Hs. cbn in Hs. by rewrite Hio, drop_all in Hs.
  - rewrite Hk, Hp, Hq in Hs. unfold offered in Hs. rewrite <- Hio in Hs.
    apply head_Some_elem_of, relay_cell in Hs as ->. exists rs, q. split_and!; try done. set_solver.
Qed.

Lemma onion_carried_wraps dest traffic relays route : ∀ rs p f,
  wraps dest traffic rs p → fits p → rs ⊆ relays → Forall (λ x, on_the_way dest relays x.2) route →
  onion_carried (OnionPacket.encode p) route = Some f →
  ∃ rs' q, f = OnionPacket.encode q ∧ wraps dest traffic rs' q ∧ fits q ∧ rs' ⊆ relays.
Proof.
  induction route as [|[[env from] s] route IH]; intros rs p f Hw Hf Hs Hr; cbn [onion_carried].
  - intros [= <-]. by exists rs, p.
  - apply Forall_cons in Hr as [Hx Hr]. intros (g & Hg & Hc)%bind_Some.
    destruct (onion_step_wraps _ _ _ _ _ _ _ _ _ Hw Hf Hx Hs Hg) as (rs' & q & -> & Hq & Hfq & Hs').
    by apply (IH rs' q).
Qed.

(** At the destination the innermost layer is opened. *)
Lemma onion_exit env from dest traffic p s :
  wraps dest traffic [] p → fits p → routing_tag (identity_ed_pub dest) = routing_tag (pub_key s) →
  ephemeral_x_pub dest = x25519_base (OnionKeyChain.current_priv (onion_keys s)) →
  unseen (OnionPacket.encode p) s →
  dispatch env from (OnionPacket.encode p) s
    = exit_traffic env from traffic (is_onion_replay p (touch env from s)).2.
Proof.
  intros Hw Hf Ht Hk Hu. destruct (wraps_shape _ _ _ _ Hw) as (Htl & He & Htag).
  destruct (cell_frame p Htl He Hf) as (data & E & Hdec & Hfr). unfold dispatch. rewrite Hfr.
  cbn match beta. unfold dispatch_onion. rewrite Hdec. unfold routing_tag_eq.
  rewrite bool_decide_true by (cbn in Htag; congruence). unfold handle_onion.
  pose proof (is_onion_replay_keeps p (touch env from s)) as (Hk' & _). unfold unseen in Hu. rewrite E in Hu.
  specialize (Hu p Hdec).
  assert ((is_onion_replay p (touch env from s)).1 = false) as Hu'.
  { revert Hu. unfold is_onion_replay, onion_digest_seen. cbn. repeat case_match; done. }
  destruct (is_onion_replay p (touch env from s)) as [[] s1]; [done|]. cbn in Hk'.
  pose proof (wraps_peel dest traffic [] p (onion_keys s) Hw Hf Hk) as Hp. by rewrite Hk', Hp.
Qed.

(** ** The sender *)

Lemma padded_small payload padded :
  len payload ≤ 254 → pad_payload false payload = Ok padded → len padded = 256.
Proof.
  intros Hl E. destruct (pad_payload_small false payload) as (pad & E' & Hlen); [unfold U16_MAX; lia|].
  rewrite E' in E. injection E as <-. pose proof (len_nonneg payload).
  assert (div_ceil (len payload + 2) PAD_BLOCK = 1) as Hd.
  { unfold div_ceil, PAD_BLOCK. symmetry. apply (Z.div_unique _ _ _ (len payload + 1)); lia. }
  rewrite Hd in Hlen. unfold PAD_BLOCK in Hlen. rewrite !len_cons, len_app. lia.
Qed.

Lemma packet_len own dst h ct s :
  len own = 32 → len h = 128 → len ct = 312 →
  len (Traffic.encode (packet_of own dst h ct s)) ≤ 590.
Proof.
  intros Ho Hh Hc. unfold Traffic.encode, packet_of. cbn.
  pose proof (encode_uvarint_len 0). pose proof (encode_uvarint_len (len ct)).
  assert (len (encode_path []) = 1) as Hp by by vm_compute.
  assert (len (match HypCoord.encode <$> coord_table s !! dst with Some c => u8 1 :: c | None => [u8 0] end) ≤ 17).
  { destruct (coord_table s !! dst); cbn; [|done]. rewrite len_cons. unfold HypCoord.encode.
    by rewrite len_app, !len_le_split. }
  rewrite !len_cons, !len_app, len_cons, !len_app. unfold routing_tag. rewrite blake2b_len, Hp. lia.
Qed.

Lemma onion_traffic_eval env payload dst c padded sa ct sa' h :
  let s := PacketConn.inner c in
  SessionManager.sessions (sessions s) !! dst = Some sa → established sa = true →
  pad_payload false payload = Ok padded →
  Session.encrypt false (now_ms env) padded sa = (Ok ct, sa') →
  encrypt_header (header_priv env dst) (PacketConn.pub_key c) dst = Ok (h, routing_tag dst) →
  onion_traffic env (PacketConn.pub_key c) payload dst s
    = (Ok (Traffic.encode (packet_of (PacketConn.pub_key c) dst h ct s)), encrypted dst sa' s).
Proof.
  intros s Hs He Hp Henc Hh. unfold onion_traffic.
  destruct (ensure_established env dst c sa Hs He) as [E _].
  rewrite (st_bind_Ok _ _ _ _ _ E). unfold get, put, lift, mret, st_ret, mbind, st_bind. rewrite Hp.
  unfold SessionManager.encrypt, SessionManager.with_session, get, put, lift, mbind, st_bind. fold s. rewrite Hs.
  cbn -[Session.encrypt encrypt_header]. rewrite He. cbn -[Session.encrypt encrypt_header].
  rewrite Henc, Hh. done.
Qed.

Lemma onion_hop_identity s k hop : onion_hop_for s k = Some hop → identity_ed_pub hop = k.
Proof. unfold onion_hop_for. repeat case_match; intros; simplify_eq; done. Qed.

(** The format [write_to_onion] picks is the legacy one. *)
Definition picks_legacy (env : Env) (c : PacketConn.t) (relays : list OnionHop) (dst : bytes) : bool :=
  match onion_format (PacketConn.inner c) with
  | Legacy => true
  | SphinxFormat => false
  | Auto => negb (path_supports_sphinx env (PacketConn.inner c) relays dst)
  end.

Lemma write_onion_eval `{!EdXLaws} env draws sdraws payload c b sa sb first rest dest :
  let relays := first :: rest in
  connected c b sa sb → local_seq sa + 1 < 2 ^ 64 → len payload ≤ 254 → (length relays ≤ 7)%nat →
  picks_legacy env c relays (pub_key b) = true →
  onion_hop_for (PacketConn.inner c) (pub_key b) = Some dest →
  ∃ tr p sa', Traffic.ok tr ∧ wraps dest (Traffic.encode tr) relays p ∧ fits p ∧
    (Traffic.routing_tag tr = routing_tag (pub_key b) ∧ Traffic.pkt_type tr = u8 PKT_DATA ∧
     decrypt_source_from_header (Traffic.enc_header tr) (signing_key b) = Some (PacketConn.pub_key c) ∧
     ∀ now', ∃ padded sb', Session.decrypt now' (Traffic.payload tr) sb = (Ok padded, sb') ∧
       unpad_payload padded = Ok payload) ∧
    PacketConn.write_to_onion env draws sdraws payload (pub_key b) relays c
      = let s1 := encrypted (pub_key b) sa' (PacketConn.inner c) in
        match lookup env s1 (identity_ed_pub first) with
        | Some next => (Ok tt, c <| PacketConn.inner := send_to_peer env next (OnionPacket.encode p) s1 |>)
        | None => (Err "no route to first relay", c <| PacketConn.inner := s1 |>)
        end.
Proof.
  intros relays [Hown Hlen Hpool Hkey Hhere Hthere Htalk] Hseq Hpl Hn Hleg Hhop.
  destruct (padded_payload payload) as (padded & Ep & Eu & _); [unfold U16_MAX; lia|].
  pose proof (padded_small _ _ Hpl Ep) as Hpad.
  destruct (talk_step (now_ms env) 0 padded sa sb Htalk Hseq) as (ct & sa' & _ & Ee & _ & Hct & _).
  { unfold AEAD_MAX. lia. }
  destruct (header_roundtrip (header_priv env (pub_key b)) (PacketConn.pub_key c) (signing_key b) Hlen)
    as (h & Eh & Hh & Esrc & _). rewrite <- Hkey in Eh.
  set (tr := packet_of (PacketConn.pub_key c) (pub_key b) h ct (PacketConn.inner c)).
  destruct (build_onion_wraps dest (Traffic.encode tr) draws relays) as (p & Hb & Hw & Hf); [|done|].
  { apply packet_len; [done..|lia]. }
  exists tr, p, sa'. split; [apply packet_ok; [done..|lia]|]. split_and!; try done.
  - intros now'. destruct (talk_step (now_ms env) now' padded sa sb Htalk Hseq)
      as (ct' & sa1 & sb' & Ee' & Ed & _); [unfold AEAD_MAX; lia|].
    rewrite Ee in Ee'. injection Ee' as <- _. by exists padded, sb'.
  - unfold PacketConn.write_to_onion. unfold relays at 1. rewrite (st_bind_Ok get _ _ _ _ eq_refl).
    assert (match onion_format (PacketConn.inner c) with
            | Legacy => false | SphinxFormat => true
            | Auto => path_supports_sphinx env (PacketConn.inner c) relays (pub_key b)
            end = false) as Hm.
    { unfold picks_legacy in Hleg. destruct (onion_format _); [by apply negb_true_iff|done..]. }
    cbn zeta beta. rewrite Hm.
    unfold PacketConn.on_inner, onion_dispatch. rewrite (st_bind_Ok get _ _ _ _ eq_refl). rewrite Hhop. cbn [ok_or].
    rewrite (st_bind_Ok (lift _) _ _ _ _ eq_refl).
    rewrite (st_bind_Ok _ _ _ _ _ (onion_traffic_eval env payload (pub_key b) c _ _ _ _ _ Hhere
      (ct_established _ _ Htalk) Ep Ee Eh)).
    fold tr. fold relays. rewrite Hb. rewrite (st_bind_Ok (lift _) _ _ _ _ eq_refl).
    unfold send_first, get, put, fail, mbind, st_bind. by destruct (lookup _ _ _).
Qed.

End Cells.

Section OnionDeliveryWitness.
Import ToyNet.

(** Node [me] writes to [b] through the relay [a]. *)
Let key_pub := x25519_base (onion_priv env).
Let c : PacketConn.t :=
  PacketConn.set_onion_format Legacy
    (PacketConn.with_inner
      (λ s, record_remote_onion_key env key_b 1 key_pub
              (encrypted key_b sa (hears key_a (claims key_a) (add_peer env key_a 1 0 s))))
      (PacketConn.new env sk_me (fill 64 (u8 1)) (fill 32 (u8 2)))).
Let relay_a := {| identity_ed_pub := key_a; ephemeral_x_pub := key_pub |}.
Let dest_b := {| identity_ed_pub := key_b; ephemeral_x_pub := key_pub |}.
Let draws (k : nat) := fill 32 (u8 (Z.of_nat k + 50)).
Let sdraws : Draws := {| eph := draws; beta_rnd := []; exit_rnd := []; pad_rnd := [] |}.
Let written := PacketConn.write_to_onion env draws sdraws (bstr "hello") (pub_key b) [relay_a] c.

Lemma toy_onion_connected : connected c b sa sb.
Proof. split; [by vm_compute..|]. apply toy_talk. Qed.

End OnionDeliveryWitness.
