(* ===== verification/Links.v ===== *)
(** * Connections and the crypto pool

    What a connection's reader gets of the frames its peer queued, and the order in
    which the crypto pool processes packets. *)

From S2P Require Import Prelude Collections Floats Crypto Varint Packet Header.
From S2P Require Import Session SessionManager Onion Sphinx Obfs Router Routing Handlers Conn RouterToy.
Import RouterState.

(** ** Reading *)

Definition frame_bytes (f : bytes) : bytes := encode_uvarint (len f) ++ f.
Definition stream (fs : list bytes) : bytes := concat (map frame_bytes fs).
#[global] Arguments stream : simpl never.

(** The frames that lie wholly in the first [n] bytes of their stream. *)
Fixpoint whole_frames (n : nat) (fs : list bytes) : list bytes :=
  match fs with
  | [] => []
  | f :: fs =>
      let m := length (frame_bytes f) in
      if (m <=? n)%nat then f :: whole_frames (n - m) fs else []
  end.

(** The frames queued on a link, in order. *)
Definition enqueued (es : list link_event) : list bytes :=
  omap (λ e, match e with Enqueue f => Some f | WriterTurn => None end) es.

Lemma read_len_loop_app acc r x l r' :
  read_len_loop acc r = Ok (l, r') → read_len_loop acc (r ++ x) = Ok (l, r' ++ x).
Proof.
  revert acc. induction r as [|b r IH]; intros acc; cbn [read_len_loop app]; [done|].
  destruct (_ =? 0); [by intros [= <- <-]|]. destruct (_ <? _); [done|apply IH].
Qed.

(** A reader never looks beyond the frame it returns. *)
Lemma read_frame_app r x f r' : read_frame r = Ok (f, r') → read_frame (r ++ x) = Ok (f, r' ++ x).
Proof.
  unfold read_frame. intros ([l r1] & E1 & E)%bind_Ok_inv.
  rewrite (read_len_loop_app _ _ _ _ _ E1), bind_Ok.
  apply bind_Ok_inv in E as ([n k] & -> & E). rewrite bind_Ok.
  destruct (n =? 0); [by injection E as <- <-|]. destruct (_ <? n); [done|].
  unfold read_exact in *. destruct (len r1 <? n) eqn:Hl; [done|]. injection E as <- <-.
  apply Z.ltb_ge in Hl. len_pos. test_false. unfold len in *.
  rewrite take_app_le, drop_app_le by lia. done.
Qed.

Lemma no_panic_read_frame r : no_panic (read_frame r).
Proof.
  assert (∀ acc, no_panic (read_len_loop acc r)) as Hl.
  { induction r as [|b r IH]; intros acc; cbn; np. apply IH. }
  unfold read_frame. specialize (Hl []). destruct (read_len_loop [] r) as [[l r1]| |]; [|done|by destruct Hl].
  rewrite bind_Ok. pose proof (no_panic_decode_uvarint l) as Hd.
  destruct (decode_uvarint l) as [[n k]| |]; [|done|by destruct Hd]. rewrite bind_Ok. unfold read_exact. np.
Qed.

Lemma frame_bytes_len f : (1 ≤ length (frame_bytes f))%nat.
Proof. unfold frame_bytes. rewrite length_app. pose proof (encode_uvarint_len (len f)). unfold len in *. lia. Qed.

Lemma read_frame_cut f n :
  len f ≤ MAX_FRAME → (n < length (frame_bytes f))%nat →
  ∃ e, read_frame (take n (frame_bytes f)) = Err e.
Proof.
  intros Hf Hn. pose proof (no_panic_read_frame (take n (frame_bytes f))) as Hp.
  destruct (read_frame _) as [[f' r']|e|] eqn:E; [|by exists e|by destruct Hp].
  apply (read_frame_app _ (drop n (frame_bytes f))) in E. rewrite take_drop in E.
  pose proof (read_write_frame f [] Hf) as E'. rewrite app_nil_r in E'. fold (frame_bytes f) in E'.
  rewrite E in E'. injection E' as _ [_ Hd]%app_nil. apply (f_equal length) in Hd.
  rewrite length_drop in Hd. cbn in Hd. lia.
Qed.

(** ** Writing *)

Lemma stream_app fs gs : stream (fs ++ gs) = stream fs ++ stream gs.
Proof. unfold stream. by rewrite map_app, concat_app. Qed.

(** Whatever the turns of the writer, what it has written is the stream of the
    frames queued first, and the others still wait. *)
Lemma writer_stream es : ∀ sent rx,
  let c := foldl writer_task (rx, stream sent) es in
  ∃ more, sent ++ rx ++ enqueued es = (sent ++ more) ++ c.1 ∧ c.2 = stream (sent ++ more).
Proof.
  induction es as [|e es IH]; intros sent rx; cbn [foldl].
  - exists []. cbn. by rewrite !app_nil_r.
  - destruct e as [f|]; cbn [writer_task].
    + destruct (IH sent (rx ++ [f])) as (more & E & Ew). exists more. split; [|done].
      rewrite <- E. cbn. by rewrite <- app_assoc.
    + destruct rx as [|g rx]; [by apply IH|]. set (q := g :: rx).
      rewrite write_frames_batched_foldl, foldl_write_frame.
      fold (stream (take MAX_WRITE_BATCH q)). change (concat (map _ ?fs)) with (stream fs).
      rewrite <- stream_app.
      destruct (IH (sent ++ take MAX_WRITE_BATCH q) (drop MAX_WRITE_BATCH q)) as (more & E & Ew).
      exists (take MAX_WRITE_BATCH q ++ more). rewrite !app_assoc. split; [|done]. rewrite <- E.
      change (enqueued (WriterTurn :: es)) with (enqueued es).
      rewrite <- !app_assoc. f_equal. by rewrite app_assoc, take_drop.
Qed.

Section Connection.
Context `{Channels} `{Libm} `{Blake2} `{Blake2Mac} `{ChaCha20} `{Sha512} `{X25519} `{Hkdf}
  `{Aead} `{Ed25519} `{MlDsa} `{MlKem}.

Fixpoint dispatch_all (envs : nat → Env) (from : bytes) (frames : list bytes) (s : t) : res t :=
  match frames with
  | [] => Ok s
  | f :: frames => s ← dispatch (envs 0%nat) from f s; dispatch_all (λ i, envs (S i)) from frames s
  end.

Lemma read_loop_stream from fs : ∀ fuel envs n s,
  Forall (λ f, len f ≤ MAX_FRAME) fs → (length (take n (stream fs)) < fuel)%nat →
  read_loop fuel envs from (take n (stream fs)) s
    = (s ← dispatch_all envs from (whole_frames n fs) s; Ok (remove_peer from s)).
Proof.
  induction fs as [|f fs IH]; intros [|fuel] envs n s Hf Hlt; [lia| |lia|].
  - change (stream []) with ([] : bytes). by rewrite take_nil.
  - apply Forall_cons in Hf as [Hf Hfs]. cbn [whole_frames read_loop].
    change (stream (f :: fs)) with (frame_bytes f ++ stream fs) in *.
    pose proof (frame_bytes_len f). destruct (Nat.leb_spec (length (frame_bytes f)) n) as [Hle|Hgt].
    + rewrite take_app_ge in * by done. unfold frame_bytes at 1. rewrite <- app_assoc, read_write_frame by done.
      cbn [dispatch_all]. destruct (dispatch _ _ _ _) as [s'| |]; [|done..]. rewrite !bind_Ok.
      apply IH; [done|]. rewrite length_app in Hlt. lia.
    + rewrite take_app_le by lia. destruct (read_frame_cut f n Hf ltac:(lia)) as [e ->]. done.
Qed.

(** C28: a connection carries its frames in order and loses only the end: whatever
    frames the peer queued and however its writer batched them, a reader that gets
    the first [n] bytes of what was written before the stream breaks starts the
    session, dispatches exactly the frames that lie wholly in those bytes, one by
    one in the order they were queued, and then removes the peer.  What the writer
    has not written yet still waits in the queue. *)
Theorem connection_in_order env envs from tx priority es n s :
  Forall (λ f, len f ≤ MAX_FRAME) (enqueued es) →
  let '(rx, writer) := foldl writer_task ([], []) es in
  ∃ sent, enqueued es = sent ++ rx ∧ writer = stream sent ∧
    handle_conn env envs from tx priority (take n writer) s
    = (s ← open_conn env from tx priority s;
       s ← dispatch_all envs from (whole_frames n sent) s;
       Ok (remove_peer from s)) ∧
    (len writer ≤ Z.of_nat n → whole_frames n sent = sent).
Proof.
  intros Hf. destruct (writer_stream es [] []) as (sent & E & Ew). cbn in E, Ew.
  change (foldl writer_task ([], []) es) with (foldl writer_task ([], stream []) es).
  destruct (foldl writer_task ([], stream []) es) as [rx writer]. cbn in E, Ew. subst writer.
  exists sent. rewrite E in Hf. apply Forall_app in Hf as [Hf _].
  split_and!; [done..| |].
  - unfold handle_conn. destruct (open_conn _ _ _ _ _); [|done..]. rewrite !bind_Ok.
    apply read_loop_stream; [done|apply Nat.lt_succ_diag_r].
  - unfold len. intros Hn. clear E Hf. revert n Hn. induction sent as [|f sent IH]; intros n Hn; [done|].
    change (stream (f :: sent)) with (frame_bytes f ++ stream sent) in Hn. rewrite length_app in Hn.
    cbn [whole_frames]. destruct (Nat.leb_spec (length (frame_bytes f)) n); [|lia]. f_equal. apply IH. lia.
Qed.
End Connection.

Section ConnectionWitness.
Import ToyRouter.
Let es := [Enqueue (bstr "a"); Enqueue (bstr "bc"); WriterTurn; Enqueue []; Enqueue (fill 200 (u8 7)); WriterTurn; Enqueue []].

Lemma connection_in_order_witness :
  let '(rx, writer) := foldl writer_task ([], []) es in
  ∃ sent, enqueued es = sent ++ rx ∧ writer = stream sent ∧
    handle_conn env (λ _, env) key_a 9 0 (take 6 writer) router
    = (s ← open_conn env key_a 9 0 router;
       s ← dispatch_all (λ _, env) key_a (whole_frames 6 sent) s;
       Ok (remove_peer key_a s)) ∧
    (len writer ≤ 6 → whole_frames 6 sent = sent).
Proof. apply (connection_in_order env (λ _, env) key_a 9 0 es 6 router). repeat constructor; by vm_compute. Defined.
End ConnectionWitness.

(** ** The crypto pool *)

Section Pool.
Context (workers : Z).

Inductive pool_event := Submit (payload dst : bytes) | Work (worker : nat).

(** The pool with the jobs it accepted and the jobs its workers took so far. *)
Definition pool_step (c : CryptoPool.t * list CryptoJob * list CryptoJob) (e : pool_event)
    : CryptoPool.t * list CryptoJob * list CryptoJob :=
  let '(p, accepted, taken) := c in
  match e with
  | Submit payload dst =>
      let '(b, p) := CryptoPool.try_submit payload dst p in
      (p, if b : bool then accepted ++ [{| job_payload := payload; job_dst := dst |}] else accepted, taken)
  | Work worker =>
      match CryptoPool.recv worker p with
      | Some (job, p) => (p, accepted, taken ++ [job])
      | None => c
      end
  end.

Definition for_dst (dst : bytes) (jobs : list CryptoJob) : list CryptoJob :=
  filter (λ j, job_dst j = dst) jobs.
Definition home (dst : bytes) : nat := Z.to_nat (CryptoPool.worker_of workers dst).
Definition queue_of (dst : bytes) (p : CryptoPool.t) : list CryptoJob :=
  default [] (CryptoPool.queues p !! home dst).
#[local] Arguments for_dst : simpl never.
#[local] Arguments home : simpl never.
#[local] Arguments queue_of : simpl never.

Record pool_inv (c : CryptoPool.t * list CryptoJob * list CryptoJob) : Prop := {
  pi_workers : len (CryptoPool.queues c.1.1) = workers;
  pi_home : ∀ i q, CryptoPool.queues c.1.1 !! i = Some q → Forall (λ j, home (job_dst j) = i) q;
  pi_order : ∀ dst, for_dst dst c.1.2 = for_dst dst c.2 ++ for_dst dst (queue_of dst c.1.1) }.

Lemma for_dst_ne dst job : job_dst job ≠ dst → for_dst dst [job] = [].
Proof. intros. unfold for_dst. by rewrite filter_cons_False. Qed.
Lemma for_dst_app dst js js' : for_dst dst (js ++ js') = for_dst dst js ++ for_dst dst js'.
Proof. apply filter_app. Qed.

(** Changing one queue by a job at its end or at its head. *)
Lemma queue_of_insert dst i q p :
  (i < length (CryptoPool.queues p))%nat →
  queue_of dst (CryptoPool.mk (<[i := q]> (CryptoPool.queues p)))
    = if decide (i = home dst) then q else queue_of dst p.
Proof.
  intros Hi. unfold queue_of. cbn. case_decide as E; [|by rewrite list_lookup_insert_ne].
  subst. by rewrite list_lookup_insert_eq.
Qed.

Lemma pool_step_inv c e : pool_inv c → pool_inv (pool_step c e).
Proof.
  destruct c as [[p acc] taken]. intros [Hw Hh Ho]. cbn in Hw, Hh, Ho.
  destruct e as [payload dst|w]; cbn [pool_step].
  - unfold CryptoPool.try_submit. destruct (_ =? 0); [by split|].
    rewrite Hw. fold (home dst). destruct (CryptoPool.queues p !! home dst) as [q|] eqn:Eq; [|by split].
    destruct (_ <=? _); [by split|]. pose proof (lookup_lt_Some _ _ _ Eq) as Hi.
    split; cbn; [by unfold len; rewrite length_insert|..].
    + intros i q' [(<- & <- & _)|[_ ?]]%list_lookup_insert_Some; [|by apply Hh].
      apply Forall_app. split; [by apply Hh|]. by constructor.
    + intros d. rewrite for_dst_app, Ho, queue_of_insert by done.
      case_decide as E; [|rewrite for_dst_ne by (cbn; congruence); by rewrite app_nil_r].
      unfold queue_of. rewrite <- E, Eq. cbn. by rewrite for_dst_app, app_assoc.
  - unfold CryptoPool.recv. destruct (CryptoPool.queues p !! w) as [[|j q]|] eqn:Eq; [by split| |by split].
    pose proof (lookup_lt_Some _ _ _ Eq) as Hi. pose proof (Hh _ _ Eq) as [Hj Hq]%Forall_cons.
    split; cbn; [by unfold len; rewrite length_insert|..].
    + intros i q' [(<- & <- & _)|[_ ?]]%list_lookup_insert_Some; [done|by apply Hh].
    + intros d. rewrite for_dst_app, Ho, queue_of_insert by done.
      case_decide as E; [|rewrite (for_dst_ne d j) by congruence; by rewrite app_nil_r].
      unfold queue_of. rewrite <- E, Eq. cbn [from_option id]. change (j :: q) with ([j] ++ q).
      by rewrite for_dst_app, app_assoc.
Qed.

Lemma pool_reachable events :
  0 < workers → pool_inv (foldl pool_step (CryptoPool.mk (fill workers []), [], []) events).
Proof.
  intros Hw. assert (pool_inv (CryptoPool.mk (fill workers []), [], [])) as Hi.
  { split; cbn.
    - unfold len, fill. rewrite length_replicate. lia.
    - by intros i q [-> _]%lookup_replicate.
    - intros dst. unfold queue_of. cbn. unfold fill. by destruct (replicate _ _ !! _) as [q|] eqn:E;
        [apply lookup_replicate in E as [-> _]|]. }
  revert Hi. generalize (CryptoPool.mk (fill workers []), [] : list CryptoJob, [] : list CryptoJob).
  induction events as [|e events IH]; intros c Hc; [done|]. by apply IH, pool_step_inv.
Qed.
End Pool.

Section PoolClaim.
Context `{Channels} `{Libm} `{Blake2} `{Blake2Mac} `{ChaCha20} `{Sha512} `{X25519} `{Hkdf}
  `{Aead} `{Ed25519} `{MlDsa} `{MlKem}.

(** The crypto pool keeps the order of the packets it accepts: in every run of
    submissions and worker turns, the packets of a destination that its workers
    have taken, followed by those that wait, are the accepted ones in order.  It
    turns a packet away only when the queue of the destination's worker is full;
    [write_to] then encrypts the packet at once, before the packets that wait, so
    that it overtakes those of its own destination. *)
Theorem pool_order workers events dst :
  0 < workers →
  let '(p, accepted, taken) := foldl pool_step (CryptoPool.mk (fill workers []), [], []) events in
  for_dst dst accepted = for_dst dst taken ++ for_dst dst (queue_of workers dst p) ∧
  ∀ env payload c info,
    PacketConn.crypto_pool c = Some p →
    SessionManager.sessions (sessions (PacketConn.inner c)) !! dst = Some info → established info = true →
    if CryptoPool.QUEUE_DEPTH <=? len (queue_of workers dst p) then
      PacketConn.write_to env payload dst c
        = PacketConn.on_inner (encrypt_and_dispatch env (PacketConn.pub_key c) payload dst) c
    else ∃ p', PacketConn.write_to env payload dst c = (Ok tt, c <| PacketConn.crypto_pool := Some p' |>) ∧
           queue_of workers dst p'
             = queue_of workers dst p ++ [{| job_payload := payload; job_dst := dst |}].
Proof.
  intros Hw. pose proof (pool_reachable workers events Hw) as Hi.
  destruct (foldl pool_step _ events) as [[p acc] taken]. destruct Hi as [Hn _ Ho]. cbn in Hn, Ho.
  split; [apply Ho|]. intros env payload c info Hp Hs He. unfold PacketConn.write_to.
  destruct (ensure_established env dst c info Hs He) as [_ E].
  rewrite (st_bind_Ok _ _ _ _ _ E). unfold get, put, mbind, st_bind. rewrite Hp.
  unfold CryptoPool.try_submit. rewrite Hn. test_false. fold (home workers dst). unfold queue_of.
  assert (is_Some (CryptoPool.queues p !! home workers dst)) as [q Hq].
  { apply lookup_lt_is_Some. unfold home, CryptoPool.worker_of. unfold len in Hn.
    pose proof (Z.mod_pos_bound (from_le_bytes (take 8 dst)) workers Hw). lia. }
  rewrite Hq. cbn [from_option id].
  destruct (CryptoPool.QUEUE_DEPTH <=? len q).
  - destruct c; cbn in Hp; subst. reflexivity.
  - eexists. split; [reflexivity|]. cbn. by rewrite list_lookup_insert_eq by (by eapply lookup_lt_Some).
Qed.
End PoolClaim.

Section PoolWitness.
Import ToyRouter.
Let events := [Submit (bstr "one") key_a; Submit (bstr "x") key_b; Submit (bstr "two") key_a; Work 0; Work 1].

Lemma pool_order_witness :
  let '(p, accepted, taken) := foldl pool_step (CryptoPool.mk (fill 2 []), [], []) events in
  for_dst key_a accepted = for_dst key_a taken ++ for_dst key_a (queue_of 2 key_a p) ∧
  map job_payload (for_dst key_a accepted) = [bstr "one"; bstr "two"].
Proof.
  pose proof (pool_order 2 events key_a ltac:(lia)) as Hp.
  destruct (foldl pool_step (CryptoPool.mk (fill 2 []), [], []) events) as [[p acc] taken] eqn:E.
  destruct Hp as [Hp _]. split; [exact Hp|]. vm_compute in E. injection E as <- <- <-. by vm_compute.
Defined.
End PoolWitness.
